(* ===== verification/_CoqProject ===== *)
-Q . S2P
Prelude.v
Threads.v
GoStrings.v
Errors.v
Order.v
Semver.v
GoFloat.v
Zip.v
Mime.v
Storage.v
Durations.v
MemoryClient.v
Version.v
Compression.v
Archive.v
Cache.v
MemoryRedis.v
Service.v
Upload.v
UploadSpec.v
Serve.v
ServeSpec.v
InFlight.v
InFlightSpec.v
Concurrent.v
ConcurrentSpec.v
ParseFloat.v
Negotiation.v
TokenStore.v
FileStore.v
AuthManager.v
AuthFile.v
AuthProvider.v
Oidc.v
OidcSpec.v
RedisServer.v
RedisStore.v
RedisSpec.v
RedisTokens.v
RedisReplicas.v
RedisReplicasSpec.v
PGStore.v
PGTokens.v
AnyStore.v
Config.v
ConfigSpec.v
GoUrl.v
PackageController.v
ApiSpec.v
Templates.v
Metrics.v
Application.v
ApplicationSpec.v
ApplicationDemo.v
Router.v
Server.v
ServerSpec.v
ServerDemo.v
Publish.v
PublishSpec.v
EndToEnd.v
EndToEndDemo.v
CodingSpec.v
CodingDemo.v
Provenance.v
ProvenanceDemo.v
