(* ===== verification/Prelude.v ===== *)
(** Gimme, a self-hosted CDN: verification development

    Gimme stores packages of static files in an S3 bucket and serves them over HTTP.
    A package is published once, as a zip archive, under a name and a semantic version;
    its files are then read under that version or under an alias ("latest", a major
    or a major.minor version).  This development models the Go program under src/
    and proves what its parts promise.

    * Parts of the program and files of the development

    The files build on each other in the order of _CoqProject.

    - Prelude, GoStrings, Order, GoFloat, ParseFloat, Semver, Zip, Mime: what the program
      uses of Go's standard library (strings, path, path/filepath, UTF-8, strconv.ParseFloat
      on IEEE doubles, sorting) as definitions, and the interfaces of what it takes from other
      packages ([Semver] for golang.org/x/mod/semver, with its grammar as an instance;
      [Zip] for archive/zip as a list of entries; [MimeTable] for the system's types).
    - Threads: requests that run at the same time over one state, for any program whose
      requests are sequences of calls, with a rely-guarantee logic for them ([wp]).
    - Errors: internal/errors (kinds, HTTP codes, wrapping).
    - Storage: internal/storage.  [ObjectStorageClient] and [ClientLaws] state what S3
      documents of the client's calls; the manager (ListObjectsPage, AddObject, AddBytes,
      ObjectExists, RemoveObjects, ...) is defined over it, and [ManagerLaws], proved of the
      manager, is what it offers to the content service.  MemoryClient is an instance of
      the client, for the witnesses.  Durations: the layer of the manager that observes how
      long each operation takes.
    - Version: the version functions of internal/content/content-service.go (versionMatches,
      resolveVersion, ListVersions, isFullSemver, IsPinnedVersion, validatePackageIdentity,
      mutableAliasPrefixes).
    - Compression: internal/content/compression.go and integrity.go.
    - Archive: internal/content/archive-keys.go, from the entries of an upload to the keys
      of its objects, and the archive limits.
    - Cache: internal/cache (the interface and the Redis cache); MemoryRedis is an instance
      of the Redis client.
    - Service: the record [ContentService] and its constructor.
    - Upload, UploadSpec: ContentService.CreatePackage.  The errgroup is a step relation
      [step] on the states of the tasks, of the store and of the semaphores, so that
      every interleaving of the uploads is covered; [create_package] is one scheduler.
    - Serve, ServeSpec: ContentService.GetFile, GetFiles and DeletePackage.
    - InFlight, InFlightSpec: GetFile and DeletePackage again, as threads: each call of the
      storage and of the cache is a turn, so that reads and deletions of several requests or
      processes interleave.  A thread that runs alone is the operation of Serve
      (exec_file_task).
    - Concurrent, ConcurrentSpec: the uploads, deletions and reads in flight.  A [system] is
      the content service with the uploads it has received; [moves] takes one call of one
      request, so that a run is any interleaving of them over one bucket.
    - Negotiation: parseAcceptEncoding of api/content-negotiation.go.
    - TokenStore: internal/auth/token-store.go, the interface [TokenStore] with its laws.
    - FileStore: internal/auth/file-token-store.go.  The maps hold locations of a heap
      since the program shares one pointer between them; the disk and the faults of each
      system call are explicit.
    - AuthManager: internal/auth/auth-manager.go and api/admin-controller.go over the
      interface; AuthFile runs it on the file store.
    - AuthProvider: internal/auth/auth-provider.go and basic-auth-provider.go, and the
      admin routes behind the middleware of a provider.  Oidc, OidcSpec:
      internal/auth/oidc-provider.go; golang-jwt, oauth2 and go-oidc are classes, and a
      browser with its cookie jar closes the loop between the handlers.
    - RedisServer: a Redis server as a keyspace with deadlines and a clock, and a client
      whose requests can be lost, delayed or repeated.  RedisStore, RedisSpec, RedisTokens:
      internal/auth/redis-token-store.go over it.  RedisReplicas, RedisReplicasSpec: the same
      operations as threads, for several replicas of the program over one server; alone they
      are those of RedisStore (exec_task_of).
    - PGStore, PGTokens: internal/auth/pg-token-store.go; what the database does with each
      SQL statement of the source is a law of the class [PGPool].
    - AnyStore: a value of the interface TokenStore whose implementation is chosen when the
      program starts; its laws follow from those of the implementations.
    - Config, ConfigSpec: configs/config.go over the interface of viper.
    - GoUrl: the escaping of net/url and strconv.Atoi.
    - PackageController, ApiSpec: api/package-controller.go, api/conditional-requests.go
      and internal/archive_validator, the handlers from a request that gin has parsed to
      a response and the next state; [handle_route] puts the authentication before the
      routes that change packages.
    - Application, ApplicationSpec, ApplicationDemo: internal/application/application.go
      and internal/persistence; a step of the start-up runs, ends with log.Fatal or
      panics.  Also api/health-controller.go.
    - Templates: api/templates.go.  Metrics: internal/metrics.
    - Router: the routes that setupServer and the constructors of the controllers register,
      as a table of methods, patterns and chains of handlers.  The matching of gin is the
      class [Gin], with the law that the one route a path is for is found.
    - Server, ServerSpec, ServerDemo: the server that setupServer starts.  [dispatch] takes
      a request through CORS, the router, the chain of its route and the request counter;
      [serves] is a step of the server: a request, a call of an upload in flight, an
      answer, a purge of the tokens.
    - Publish, PublishSpec: internal/publish and cmd/gimme-cli/main.go, from the arguments
      to the exit code.
    - EndToEnd, EndToEndDemo: a push of the client received by the server.
    - CodingSpec, CodingDemo: a published file read with any Accept-Encoding.
    - Provenance, ProvenanceDemo: where the bytes of an answer come from.

    State is passed explicitly; an error is a value ([result], or an [option] for a
    *GimmeError that may be nil).  Loops over Go maps are folds over an arbitrary
    enumeration.  64-bit sizes are integers with the saturation the code writes out.

    * What the theorems show

    - End to end: when the client reports success, every file of the directory is answered
      with its bytes (pushed_directory_is_served, published_is_served), and in whatever
      coding it is sent the client decodes these bytes (published_is_decoded).  The server
      may handle any other requests under the conditions of [orderly] until the upload is
      answered (no two uploads of one version in flight, no deletion of a version being
      uploaded, no failing listing when an upload arrives) and of [undisturbed] afterwards (the
      version is not deleted, and no listing fails when another upload of it arrives); the
      storage must answer the read, and the request must be one that asks for the bytes.
      Without them the code promises less (racing_uploads, CreatePackage_overwrites_unlisted).
      Whatever file
      the server answers was in an archive that a holder of a token uploaded under the
      package and the version of the path, or a version its alias selects
      (answered_files_were_uploaded); requests without a valid token change no package, and
      requests that do not log in change no token (outsiders_change_nothing); every path
      has one route (routes_resolved).
    - Publication: a publication that fails leaves no object of the package behind when
      the rollback succeeds and says so when it does not (CreatePackage_atomic).  Uploads of
      different versions do not see each other (publications_isolated), a published version
      stays as it is (published_for_good), an upload that is scheduled answers
      (uploads_progress), and one that runs alone ends as CreatePackage says (the lemma
      alone_exact); the server is a run of this system (server_refines).  Two uploads of
      one version at once are not excluded by the code (racing_uploads).
    - Archives: keys stay under the folder of the package, limits are exact
      (archiveKeys_confined, checkArchiveLimits_exact); the client packs the files of a
      directory and the server publishes each of them once (published_directory); the
      client reports success exactly when the server has accepted the upload, and leaves its
      temporary archive only when the system refuses to remove it (run_exit).
    - Versions: an alias resolves to the highest stable match.
    - Reading and deleting: GetFile serves the object of the resolved version in the first
      encoding that exists; a listing page shows the files after its cursor, each once, when
      variants follow their file in the order of the keys (GetFiles_page, which also says what
      a page shows otherwise; GetFiles_variant_leak, GetFiles_variant_lost); a deletion removes
      exactly the package and no request is answered from a stale entry afterwards.  When
      requests interleave, a read is never answered with the file of another
      (interleaved_reads_sound), and a deleted version is forgotten by the cache unless a read
      of an alias was under way when its objects were removed (deleted_version_forgotten);
      the code does not exclude that case (stale_alias_race).
    - Storage and cache: pages tile the listing, and prefix deletion in the cache ends and
      is complete.
    - Content negotiation: acceptability follows the rules the source cites.
    - Tokens: a request passes exactly with a stored token that is neither revoked nor
      expired, a revocation is for ever, a token nobody revokes stays usable.  The three
      stores implement the interface: the file store and the Redis store refine a map of
      entries (FileTokenStore_refines, RedisTokenStore_refines), the PostgreSQL store
      keeps the life of a token (pg_token_lifecycle).  Creating a token answers 500 exactly
      when the random source or the store fails (createToken_answers).  A revocation on one replica holds for
      every lookup that begins later on any other, whatever was under way
      (revocation_across_replicas).  The token file is replaced
      atomically and read back by a restart.
    - Sessions: a callback issues a session exactly for an authenticated user, a login
      lasts eight hours, and the middleware accepts exactly the sessions of the provider
      (handleCallback_session, login_flow, LoginMiddleware_exact).
    - Configuration and start-up: validateConfig accepts exactly the well-formed
      configurations; with them no nil client is used, the parts of the application are
      those asked for, and the admin routes ask for the configured credentials
      (validateConfig_exact, loadModules_wired, admin_access); the tokens
      of the admin page decide who publishes (admin_tokens).
    - API: a file is answered with the stored object of the resolved version, in a coding
      the client accepts; conditional requests are exact; the links of a listing lead
      where they say.

    * Bounds and fuel

    The loops that are not structural take fuel.  GetFiles has one unit per object below
    the prefix plus one, since each round consumes an object (GetFiles_page shows that the
    answer exists); the SCAN loop has the bound the Redis iteration gives
    (DeleteByPrefix_complete); the scheduler of an upload has eight steps per object,
    more than [task_rank] allows (create_package_outcome).  Runs of the server and of the
    system are finite sequences of steps, without fuel.

    * Left out

    Logging, the socket and the signals of the HTTP server, and the text of the HTML
    pages have no model, nor has an interrupt of the client before its upload (one during the
    upload is an error of the exchange); a call of the storage is one step, and so is a prefix deletion
    of the cache when requests interleave; in the server a request other than an upload
    is one step (its calls interleave in InFlight and RedisReplicas); the handlers start
    from what gin has parsed.  Code of other packages (minio, go-redis, pgx, viper, gin,
    golang-jwt, oauth2, go-oidc, semver, NFC, gitignore matching, brotli), the JSON
    documents, and the hash and cipher primitives of the standard library (SHA-256,
    SHA-384, HMAC, HKDF, AES-GCM) appear as classes whose laws state their documented
    behaviour. *)

From stdpp Require Export base gmap strings list sorting option fin_maps relations pretty.
From Stdlib Require Export ZArith Lia.
From Stdlib Require Import Ascii.

#[export] Set Default Goal Selector "!".

(** ** Notations *)

Declare Scope gimme_scope.
Delimit Scope gimme_scope with gimme.

Create HintDb gimme.
Create Rewrite HintDb gimme_str.

(** ** Tactics *)

(** Closes goals about booleans built from decidable propositions. *)
Ltac bool_hyps :=
  repeat match goal with
  | H : bool_decide _ = true |- _ => apply bool_decide_eq_true in H
  | H : bool_decide _ = false |- _ => apply bool_decide_eq_false in H
  | H : andb _ _ = true |- _ => apply andb_true_iff in H; let H1 := fresh H in let H2 := fresh H in destruct H as [H1 H2]
  | H : orb _ _ = false |- _ => apply orb_false_iff in H; let H1 := fresh H in let H2 := fresh H in destruct H as [H1 H2]
  | H : negb _ = true |- _ => apply negb_true_iff in H
  | H : negb _ = false |- _ => apply negb_false_iff in H
  | H : String.eqb _ _ = true |- _ => apply String.eqb_eq in H
  | H : String.eqb _ _ = false |- _ => apply String.eqb_neq in H
  | H : Z.ltb _ _ = true |- _ => apply Z.ltb_lt in H
  | H : Z.ltb _ _ = false |- _ => apply Z.ltb_ge in H
  | H : Z.leb _ _ = true |- _ => apply Z.leb_le in H
  | H : Z.leb _ _ = false |- _ => apply Z.leb_gt in H
  end.

(** Case analysis on the scrutinee of the first [if] or [match] of the goal. *)
Ltac case_goal :=
  match goal with
  | |- context [if ?b then _ else _] => destruct b eqn:?
  | |- context [match ?x with _ => _ end] => destruct x eqn:?
  end.

(** ** Strings *)

Section strings.
Implicit Types s t u p : string.

Lemma str_app_nil_l s : "" +:+ s = s.
Proof. done. Qed.

Lemma str_app_cons a s t : String a s +:+ t = String a (s +:+ t).
Proof. done. Qed.

Lemma str_app_nil_r s : s +:+ "" = s.
Proof. induction s as [|a s IH]; [done|]. by rewrite str_app_cons, IH. Qed.

Lemma str_app_assoc s t u : (s +:+ t) +:+ u = s +:+ (t +:+ u).
Proof. induction s as [|a s IH]; [done|]. by rewrite !str_app_cons, IH. Qed.

Lemma str_length_app s t :
  String.length (s +:+ t) = String.length s + String.length t.
Proof.
  induction s as [|a s IH]; [done|]. rewrite str_app_cons. simpl. by rewrite IH.
Qed.

Lemma str_app_inj_l p s t : p +:+ s = p +:+ t ↔ s = t.
Proof.
  split; [|by intros ->]. induction p as [|a p IH]; [done|].
  rewrite !str_app_cons. intros [=]. auto.
Qed.

Lemma str_app_inj s1 s2 t1 t2 :
  String.length s1 = String.length s2 →
  s1 +:+ t1 = s2 +:+ t2 → s1 = s2 ∧ t1 = t2.
Proof.
  revert s2. induction s1 as [|a s1 IH]; intros [|b s2]; simpl; try done.
  rewrite !str_app_cons. intros [=Hl] [=-> H]. by destruct (IH _ Hl H) as [-> ->].
Qed.

Lemma str_app_inj_r s t u : s +:+ u = t +:+ u ↔ s = t.
Proof.
  split; [|by intros ->]. intros H. apply (str_app_inj s t u u); [|done].
  apply (f_equal String.length) in H. rewrite !str_length_app in H. lia.
Qed.

Lemma str_app_eq_nil s t : s +:+ t = "" ↔ s = "" ∧ t = "".
Proof. destruct s; [naive_solver|]. rewrite str_app_cons. naive_solver. Qed.

Lemma str_length_zero s : String.length s = 0 ↔ s = "".
Proof. destruct s; naive_solver. Qed.
End strings.

#[export] Hint Rewrite str_app_nil_l str_app_cons str_app_nil_r str_app_assoc
  str_length_app : gimme_str.

Ltac str_simpl := autorewrite with gimme_str in *; simpl in *.

(** The characters of a string, for statements about character classes. *)
Fixpoint str_forall (P : ascii → bool) (s : string) : bool :=
  match s with
  | EmptyString => true
  | String a s => P a && str_forall P s
  end.

Definition char_free (c : ascii) (s : string) : bool :=
  str_forall (λ a, negb (Ascii.eqb a c)) s.

Section str_forall.
Implicit Types (s t : string) (P Q : ascii → bool).

Lemma str_forall_app P s t :
  str_forall P (s +:+ t) = str_forall P s && str_forall P t.
Proof.
  induction s as [|a s IH]; [done|]. rewrite str_app_cons. simpl.
  by rewrite IH, andb_assoc.
Qed.

Lemma str_forall_impl P Q s :
  (∀ a, P a = true → Q a = true) → str_forall P s = true → str_forall Q s = true.
Proof.
  intros HPQ. induction s as [|a s IH]; simpl; [done|]. intros H. bool_hyps.
  apply andb_true_iff. auto.
Qed.

Lemma char_free_cons c a s : char_free c (String a s) = true ↔ a ≠ c ∧ char_free c s = true.
Proof.
  unfold char_free. simpl. rewrite andb_true_iff, negb_true_iff, Ascii.eqb_neq. done.
Qed.

Lemma char_free_app c s t :
  char_free c (s +:+ t) = true ↔ char_free c s = true ∧ char_free c t = true.
Proof. unfold char_free. by rewrite str_forall_app, andb_true_iff. Qed.

(** Two decompositions around the first occurrence of a separator agree. *)
Lemma char_free_sep_inj c s1 s2 t1 t2 :
  char_free c s1 = true → char_free c s2 = true →
  s1 +:+ String c t1 = s2 +:+ String c t2 → s1 = s2 ∧ t1 = t2.
Proof.
  revert s2. induction s1 as [|a s1 IH]; intros [|b s2]; rewrite ?str_app_cons.
  - intros _ _ [=]; done.
  - intros _ [Hb _]%char_free_cons [=]. done.
  - intros [Ha _]%char_free_cons _ [=]. done.
  - intros [_ H1]%char_free_cons [_ H2]%char_free_cons [=-> H].
    by destruct (IH _ H1 H2 H) as [-> ->].
Qed.

Lemma char_free_no_sep c s t u :
  char_free c s = true → s = t +:+ String c u → False.
Proof.
  intros H ->. apply char_free_app in H as [_ [? _]%char_free_cons]. done.
Qed.
End str_forall.

(** ** Lists *)

Lemma lookup_map {A B} (f : A → B) (l : list A) i : map f l !! i = f <$> l !! i.
Proof. apply list_lookup_fmap. Qed.

Lemma elem_of_map_list {A B} (f : A → B) (l : list A) y : y ∈ map f l ↔ ∃ x, y = f x ∧ x ∈ l.
Proof. apply list_elem_of_fmap. Qed.

Lemma filter_none {A} (P : A → Prop) `{∀ x, Decision (P x)} (l : list A) :
  (∀ x, x ∈ l → ¬ P x) → filter P l = [].
Proof.
  induction l as [|x l IH]; intros Hl; [done|].
  rewrite filter_cons_False by (apply Hl; set_solver). apply IH. set_solver.
Qed.

Lemma filter_all {A} (P : A → Prop) `{∀ x, Decision (P x)} (l : list A) :
  (∀ x, x ∈ l → P x) → filter P l = l.
Proof.
  induction l as [|x l IH]; intros Hl; [done|].
  rewrite filter_cons_True by (apply Hl; set_solver). f_equal. apply IH. set_solver.
Qed.
