(* ===== verification/Threads.v ===== *)
(** Requests that run at the same time.  A request is a [thread]: the calls it makes on the
    shared state, each of which takes effect at once, with what it does between them as
    a function of what it has read.  A [machine] is a state and the requests it has
    received; a [turn] is a call of one of them, the arrival of a request, or something
    else that happens to the state.  [wp] is a rely-guarantee logic for threads. *)
From S2P Require Import Prelude.

Inductive thread (S A : Type) :=
  | Done (a : A)
  | Act (f : S → S) (k : S → thread S A).
Arguments Done {S A} a.
Arguments Act {S A} f k.

(** A thread that runs alone. *)
Fixpoint exec {S A} (t : thread S A) (s : S) : A * S :=
  match t with
  | Done a => (a, s)
  | Act f k => exec (k s) (f s)
  end.

Record machine (S L A : Type) := {
  shared : S;
  requests : list (L * thread S A);
}.
Arguments shared {S L A} _.
Arguments requests {S L A} _.

Section machine.
Context {S L A : Type}.
Context (program : L → thread S A).
Implicit Types (s : S) (l : L) (t : thread S A) (m : machine S L A) (env : S → S → Prop) (ok : L → Prop).

Definition answered m (i : nat) : option (L * A) :=
  match requests m !! i with
  | Some (l, Done a) => Some (l, a)
  | _ => None
  end.

Inductive turn env ok : machine S L A → machine S L A → Prop :=
  | turn_act m i l f k :
      requests m !! i = Some (l, Act f k) →
      turn env ok m {| shared := f (shared m); requests := <[i := (l, k (shared m))]> (requests m) |}
  | turn_start m l :
      ok l → turn env ok m {| shared := shared m; requests := requests m ++ [(l, program l)] |}
  | turn_other m s :
      env (shared m) s → turn env ok m {| shared := s; requests := requests m |}.

(** The request that answers alone answers as [exec] says. *)
Lemma alone_exec l t s m :
  rtc (turn (λ _ _, False) (λ _, False)) {| shared := s; requests := [(l, t)] |} m →
  ∃ t', requests m = [(l, t')] ∧ exec t' (shared m) = exec t s.
Proof.
  intros Hruns. remember {| shared := s; requests := [(l, t)] |} as m0 eqn:Hm0. revert t s Hm0.
  induction Hruns as [m0|m0 m1 m2 Hturn _ IH]; intros t s ->; [by exists t|].
  inversion Hturn as [? i ? f k Hi|? ? []|? ? []]; subst; cbn in *.
  destruct i as [|i]; [|done]. injection Hi as <- ->. by apply (IH (k s) (f s)).
Qed.

Lemma exec_alone l t s :
  rtc (turn (λ _ _, False) (λ _, False)) {| shared := s; requests := [(l, t)] |}
    {| shared := (exec t s).2; requests := [(l, Done (exec t s).1)] |}.
Proof.
  revert s. induction t as [a|f k IH]; intros s; [done|].
  eapply rtc_l; [|apply IH]. by apply (turn_act _ _ {| shared := s; requests := [(l, Act f k)] |} 0).
Qed.

(** An answer stays. *)
Lemma answered_stays env ok m m' i l a :
  requests m !! i = Some (l, Done a) → rtc (turn env ok) m m' → requests m' !! i = Some (l, Done a).
Proof.
  intros Hi Hruns. revert Hi. induction Hruns as [m|m m1 m2 Hturn _ IH]; [done|]. intros Hi. apply IH.
  destruct Hturn as [m j l' f k Hj|m l' Hok|m s _]; cbn; [..|done].
  - rewrite list_lookup_insert_ne; [done|]. intros ->. congruence.
  - by apply lookup_app_l_Some.
Qed.

(** ** Schedules *)

(** One call of a request, or the arrival of one. *)
Inductive tick := Run (i : nat) | Arrive (l : L).

Definition take_turn m (x : tick) : option (machine S L A) :=
  match x with
  | Arrive l => Some {| shared := shared m; requests := requests m ++ [(l, program l)] |}
  | Run i =>
      match requests m !! i with
      | Some (l, Act f k) => Some {| shared := f (shared m); requests := <[i := (l, k (shared m))]> (requests m) |}
      | _ => None
      end
  end.

Fixpoint schedule (xs : list tick) m : option (machine S L A) :=
  match xs with
  | [] => Some m
  | x :: xs => m' ← take_turn m x; schedule xs m'
  end.

Definition arrivals (xs : list tick) : list L := omap (λ x, match x with Arrive l => Some l | Run _ => None end) xs.

Lemma schedule_turns env ok xs m m' :
  Forall ok (arrivals xs) → schedule xs m = Some m' → rtc (turn env ok) m m'.
Proof.
  revert m. induction xs as [|x xs IH]; intros m Hok; cbn; [by intros [= <-]|].
  intros (m1 & Hm1 & Hrest)%bind_Some. destruct x as [i|l]; cbn in *.
  - destruct (requests m !! i) as [[l [|f k]]|] eqn:Hi; [done| |done]. injection Hm1 as <-.
    eapply rtc_l; [by eapply turn_act|]. by apply IH.
  - apply Forall_cons in Hok as [? Hok]. injection Hm1 as <-. eapply rtc_l; [by eapply turn_start|]. by apply IH.
Qed.

(** ** A rely-guarantee logic *)

Section logic.
(** What every call and everything else may do to the state. *)
Context (R : S → S → Prop).

(** Whatever happens between the calls of the thread, its calls do what [R] allows and its
    answer satisfies [Q]. *)
Fixpoint wp (Q : A → S → Prop) t s : Prop :=
  match t with
  | Done a => ∀ s', rtc R s s' → Q a s'
  | Act f k => ∀ s', rtc R s s' → R s' (f s') ∧ wp Q (k s') (f s')
  end.

Lemma wp_stable Q t s s' : rtc R s s' → wp Q t s → wp Q t s'.
Proof. intros Hss'. destruct t; cbn; intros Hwp s2 Hs2; apply Hwp; by etrans. Qed.

Lemma wp_impl (Q Q' : A → S → Prop) t s : (∀ a s, Q a s → Q' a s) → wp Q t s → wp Q' t s.
Proof.
  intros HQ. revert s. induction t as [a|f k IH]; cbn; intros s Hwp s' Hs'; [by apply HQ, Hwp|].
  destruct (Hwp s' Hs') as [? Hk]. split; [done|]. by apply IH.
Qed.

Lemma wp_done (Q : A → S → Prop) a s : wp Q (Done a) s → Q a s.
Proof. intros Hwp. by apply Hwp. Qed.

(** A thread that runs alone satisfies its specification. *)
Lemma wp_exec (Q : A → S → Prop) t s : wp Q t s → Q (exec t s).1 (exec t s).2.
Proof.
  revert s. induction t as [a|f k IH]; intros s Hwp; [by apply wp_done|].
  apply IH. by apply (Hwp s).
Qed.

(** When each request satisfies its specification, so it does in every run. *)
Lemma machine_wp env ok (Q : nat → L → A → S → Prop) m m' :
  (∀ s s', env s s' → R s s') →
  (∀ i l s, ok l → length (requests m) ≤ i → rtc R (shared m) s → wp (Q i l) (program l) s) →
  (∀ i l t, requests m !! i = Some (l, t) → wp (Q i l) t (shared m)) →
  rtc (turn env ok) m m' →
  rtc R (shared m) (shared m') ∧ length (requests m) ≤ length (requests m') ∧
  ∀ i l t, requests m' !! i = Some (l, t) → wp (Q i l) t (shared m').
Proof.
  intros Henv Hstart Hm Hruns.
  revert m' Hruns. apply (rtc_ind_r (λ m', rtc R (shared m) (shared m') ∧ length (requests m) ≤ length (requests m') ∧
    ∀ i l t, requests m' !! i = Some (l, t) → wp (Q i l) t (shared m'))); [done|]. intros m2 m3 _ Hturn IH.
  destruct IH as (Hrel & Hlen & Hall). destruct Hturn as [m2 i l f k Hi|m2 l Hok|m2 s Hs]; cbn.
  - destruct (Hall i l _ Hi (shared m2)) as [HR Hk]; [done|].
    assert (Hstep : rtc R (shared m2) (f (shared m2))) by by apply rtc_once.
    split; [by etrans|]. split; [by rewrite length_insert|].
    intros j l' t [(<- & [= <- <-] & _)|[_ Hj]]%list_lookup_insert_Some; [done|].
    eapply wp_stable; [done|]. by apply Hall.
  - split; [done|]. split; [rewrite length_app; cbn; lia|].
    intros j l' t [Hj|[Hj Hl]]%lookup_app_Some; [by apply Hall|].
    apply list_lookup_singleton_Some in Hl as [Hj0 [= <- <-]]. apply Hstart; [done|lia|done].
  - assert (Hstep : rtc R (shared m2) s) by by apply rtc_once, Henv.
    split; [by etrans|]. split; [done|]. intros j l t Hj. eapply wp_stable; [done|]. by apply Hall.
Qed.

(** Calls that do what [G] allows in every state. *)
Fixpoint always (G : S → S → Prop) t : Prop :=
  match t with
  | Done _ => True
  | Act f k => ∀ s, G s (f s) ∧ always G (k s)
  end.

Lemma always_wp (G : S → S → Prop) t s :
  (∀ s s', G s s' → R s s') → always G t → wp (λ _ _, True) t s.
Proof.
  intros HG. revert s. induction t as [a|f k IH]; cbn; intros s Ht; [done|]. intros s' _.
  destruct (Ht s') as [? ?]. split; [by apply HG|]. by apply IH.
Qed.

Lemma always_impl (G G' : S → S → Prop) t : (∀ s s', G s s' → G' s s') → always G t → always G' t.
Proof.
  intros HG. induction t as [a|f k IH]; cbn; [done|]. intros Ht s. destruct (Ht s) as [? ?]. auto.
Qed.

(** The requests of a run are those that may arrive. *)
Lemma machine_asked env ok m m' :
  (∀ i l t, requests m !! i = Some (l, t) → ok l) → rtc (turn env ok) m m' →
  ∀ i l t, requests m' !! i = Some (l, t) → ok l.
Proof.
  intros Hm Hruns. induction Hruns as [m|m m1 m2 Hturn _ IH]; [done|]. apply IH.
  destruct Hturn as [m i l f k Hi|m l Hok|m s _]; cbn; [..|done]; intros j l' t.
  - intros [(_ & [= <- <-] & _)|[_ Hj]]%list_lookup_insert_Some; by eapply Hm.
  - intros [Hj|[_ Hj]]%lookup_app_Some; [by eapply Hm|]. by apply list_lookup_singleton_Some in Hj as [_ [= <- <-]].
Qed.

Lemma machine_always env ok (P : L → Prop) G m m' :
  (∀ l, ok l → P l → always G (program l)) →
  (∀ i l t, requests m !! i = Some (l, t) → P l → always G t) →
  rtc (turn env ok) m m' → ∀ i l t, requests m' !! i = Some (l, t) → P l → always G t.
Proof.
  intros Hstart Hm Hruns. induction Hruns as [m|m m1 m2 Hturn _ IH]; [done|]. apply IH.
  destruct Hturn as [m i l f k Hi|m l Hok|m s _]; cbn; [..|done]; intros j l' t.
  - intros [(_ & [= <- <-] & _)|[_ Hj]]%list_lookup_insert_Some HP; [|by eapply Hm].
    by apply (Hm i l (Act f k) Hi HP).
  - intros [Hj|[_ Hj]]%lookup_app_Some HP; [by eapply Hm|].
    apply list_lookup_singleton_Some in Hj as [_ [= <- <-]]. by apply Hstart.
Qed.

(** What an answer tells. *)
Lemma machine_answer env ok (Q : nat → L → A → S → Prop) m m' i l a :
  (∀ s s', env s s' → R s s') →
  (∀ i l s, ok l → length (requests m) ≤ i → rtc R (shared m) s → wp (Q i l) (program l) s) →
  (∀ i l t, requests m !! i = Some (l, t) → wp (Q i l) t (shared m)) →
  rtc (turn env ok) m m' → answered m' i = Some (l, a) → Q i l a (shared m').
Proof.
  intros Henv Hstart Hm Hruns Ha. destruct (machine_wp env ok Q m m' Henv Hstart Hm Hruns) as (_ & _ & Hall).
  unfold answered in Ha. destruct (requests m' !! i) as [[l' [a'|]]|] eqn:Hi; [|done..].
  injection Ha as -> ->. by apply wp_done, Hall.
Qed.
End logic.
End machine.
Arguments tick : clear implicits.
Arguments Run {L} i.
Arguments Arrive {L} l.
