(* ===== verification/GoStrings.v ===== *)
(** The functions of Go's [strings] and [path] packages that the sources call,
    on byte strings; UTF-8, and the quoted form of a string.  A separator or cutset of the sources is always a single
    ASCII character, so it is an [ascii] here. *)
From S2P Require Import Prelude.
From Stdlib Require Import Ascii.

(** ** Prefixes and suffixes *)

Fixpoint str_drop (n : nat) (s : string) : string :=
  match n, s with
  | O, _ => s
  | S n, String _ s => str_drop n s
  | S _, EmptyString => EmptyString
  end.

Fixpoint str_take (n : nat) (s : string) : string :=
  match n, s with
  | S n, String a s => String a (str_take n s)
  | _, _ => EmptyString
  end.

Definition HasPrefix (s p : string) : bool := String.prefix p s.

Definition TrimPrefix (s p : string) : string :=
  if HasPrefix s p then str_drop (String.length p) s else s.

Definition HasSuffix (s t : string) : bool :=
  (String.length t <=? String.length s)%nat &&
  String.eqb (str_drop (String.length s - String.length t) s) t.

Definition TrimSuffix (s t : string) : string :=
  if HasSuffix s t then str_take (String.length s - String.length t) s else s.

(** [strings.CutSuffix]: the string without the suffix, and whether it had it. *)
Definition CutSuffix (s t : string) : string * bool :=
  if HasSuffix s t then (str_take (String.length s - String.length t) s, true)
  else (s, false).

(** ** Splitting at a separator *)

(** [strings.Cut]: the text before and after the first separator. *)
Fixpoint Cut (s : string) (c : ascii) : string * string * bool :=
  match s with
  | EmptyString => ("", "", false)
  | String a s' =>
      if Ascii.eqb a c then ("", s', true)
      else let '(before, after, found) := Cut s' c in (String a before, after, found)
  end.

Fixpoint Split (s : string) (c : ascii) : list string :=
  match s with
  | EmptyString => [""]
  | String a s' =>
      if Ascii.eqb a c then "" :: Split s' c
      else match Split s' c with
           | piece :: rest => String a piece :: rest
           | [] => [String a ""]
           end
  end.

(** [strings.SplitN(s, sep, 2)]. *)
Definition SplitN2 (s : string) (c : ascii) : list string :=
  let '(before, after, found) := Cut s c in
  if found then [before; after] else [s].

Definition Join (l : list string) (sep : string) : string := String.concat sep l.

(** [x[0]] of the non-empty result of a split. *)
Definition first_piece (l : list string) : string := default "" (head l).

Definition Contains (s : string) (c : ascii) : bool := negb (char_free c s).

(** ** Trimming *)

Fixpoint TrimLeft (s : string) (c : ascii) : string :=
  match s with
  | String a s' => if Ascii.eqb a c then TrimLeft s' c else s
  | EmptyString => EmptyString
  end.

Fixpoint str_rev_app (s acc : string) : string :=
  match s with
  | EmptyString => acc
  | String a s => str_rev_app s (String a acc)
  end.

Definition str_rev (s : string) : string := str_rev_app s "".

Definition TrimRight (s : string) (c : ascii) : string :=
  str_rev (TrimLeft (str_rev s) c).

(** [strings.Trim] with a one-character cutset. *)
Definition Trim (s : string) (c : ascii) : string := TrimRight (TrimLeft s c) c.

Definition byte (n : nat) : ascii := ascii_of_nat n.

Definition bytes (l : list nat) : string := foldr (λ n s, String (byte n) s) "" l.

(** The UTF-8 encodings of the characters with Unicode's White_Space property. *)
Definition space_encodings : list string :=
  map bytes
    ([[9]; [10]; [11]; [12]; [13]; [32]; [194; 133]; [194; 160]; [225; 154; 128]] ++
     map (λ n, [226; 128; n]) (seq 128 11) ++
     [[226; 128; 168]; [226; 128; 169]; [226; 128; 175]; [226; 129; 159];
      [227; 128; 128]]).

Fixpoint trim_left_any (fuel : nat) (encodings : list string) (s : string) : string :=
  match fuel with
  | O => s
  | S fuel =>
      match filter (λ e, HasPrefix s e = true) encodings with
      | e :: _ => trim_left_any fuel encodings (str_drop (String.length e) s)
      | [] => s
      end
  end.

(** [strings.TrimSpace]; every removed encoding is non-empty, so the length of
    the string is enough fuel on either side. *)
Definition TrimSpace (s : string) : string :=
  let left := trim_left_any (String.length s) space_encodings s in
  str_rev (trim_left_any (String.length left) (map str_rev space_encodings) (str_rev left)).

(** ** Case *)

Definition lower_ascii (a : ascii) : ascii :=
  let n := nat_of_ascii a in
  if (65 <=? n)%nat && (n <=? 90)%nat then ascii_of_nat (n + 32) else a.

Definition upper_ascii (a : ascii) : ascii :=
  let n := nat_of_ascii a in
  if (97 <=? n)%nat && (n <=? 122)%nat then ascii_of_nat (n - 32) else a.

Fixpoint str_map (f : ascii → ascii) (s : string) : string :=
  match s with
  | EmptyString => EmptyString
  | String a s => String (f a) (str_map f s)
  end.

(** [strings.ToLower].  Besides A-Z, U+0130 and U+212A are the only characters
    whose lower case is ASCII ("i" and "k"); the other non-ASCII characters are
    left as they are, and stay distinct from every ASCII string. *)
Fixpoint ToLower (s : string) : string :=
  match s with
  | EmptyString => EmptyString
  | String a s' =>
      if Ascii.eqb a (byte 196) && HasPrefix s' (bytes [176]) then
        match s' with String _ s'' => String "i"%char (ToLower s'') | _ => "" end
      else if Ascii.eqb a (byte 226) && HasPrefix s' (bytes [132; 170]) then
        match s' with
        | String _ (String _ s'') => String "k"%char (ToLower s'')
        | _ => ""
        end
      else String (lower_ascii a) (ToLower s')
  end.

Definition ToUpper (s : string) : string := str_map upper_ascii s.

(** [strings.EqualFold] against a [t] without the letters k and s, the two ASCII
    letters that a non-ASCII character folds to. *)
Definition EqualFold (s t : string) : bool :=
  String.eqb (str_map lower_ascii s) (str_map lower_ascii t).

(** ** Package path *)

(** [path.Clean]: the segments kept so far, innermost first. *)
Fixpoint clean_segments (rooted : bool) (kept : list string) (segments : list string) : list string :=
  match segments with
  | [] => kept
  | segment :: rest =>
      if String.eqb segment "" || String.eqb segment "." then
        clean_segments rooted kept rest
      else if String.eqb segment ".." then
        match kept with
        | top :: below =>
            if String.eqb top ".." then clean_segments rooted (".." :: kept) rest
            else clean_segments rooted below rest
        | [] => clean_segments rooted (if rooted then [] else [".."]) rest
        end
      else clean_segments rooted (segment :: kept) rest
  end.

Definition path_Clean (s : string) : string :=
  let rooted := HasPrefix s "/" in
  let body := Join (reverse (clean_segments rooted [] (Split s "/"))) "/" in
  if rooted then "/" +:+ body
  else if String.eqb body "" then "." else body.

(** [path.Base]: the last element, trailing slashes removed. *)
Definition path_Base (s : string) : string :=
  if String.eqb s "" then "."
  else
    let trimmed := TrimRight s "/" in
    if String.eqb trimmed "" then "/"
    else default "" (last (Split trimmed "/")).

(** [filepath.Ext]: from the last dot of the last element. *)
Definition filepath_Ext (s : string) : string :=
  let name := default "" (last (Split s "/")) in
  match reverse (Split name ".") with
  | extension :: _ :: _ => "." +:+ extension
  | _ => ""
  end.

(** ** UTF-8 *)

(** What may follow the first byte of a rune ([unicode/utf8]): the ranges of its
    continuation bytes.  Overlong forms, surrogates and values above U+10FFFF are out. *)
Definition rune_tail (first : N) : option (list (N * N)) :=
  let cont := (128, 191)%N in
  if (first <? 128)%N then Some []
  else if (first <? 194)%N then None
  else if (first <? 224)%N then Some [cont]
  else if (first =? 224)%N then Some [(160, 191)%N; cont]
  else if (first =? 237)%N then Some [(128, 159)%N; cont]
  else if (first <? 240)%N then Some [cont; cont]
  else if (first =? 240)%N then Some [(144, 191)%N; cont; cont]
  else if (first <? 244)%N then Some [cont; cont; cont]
  else if (first =? 244)%N then Some [(128, 143)%N; cont; cont]
  else None.

(** The rest of a text while the bytes in these ranges are still due. *)
Fixpoint valid_from (due : list (N * N)) (s : string) : bool :=
  match s, due with
  | EmptyString, [] => true
  | EmptyString, _ => false
  | String a s, (lo, hi) :: due => (lo <=? N_of_ascii a)%N && (N_of_ascii a <=? hi)%N && valid_from due s
  | String a s, [] =>
      match rune_tail (N_of_ascii a) with
      | Some due => valid_from due s
      | None => false
      end
  end.

(** [utf8.ValidString]. *)
Definition ValidString (s : string) : bool := valid_from [] s.

(** ** Quoting *)

Definition hex_digit (n : nat) : ascii :=
  if (n <? 10)%nat then byte (48 + n) else byte (87 + n).

Definition quote_byte (n : nat) : string :=
  "\x" +:+ String (hex_digit (n / 16)) (String (hex_digit (n mod 16)) "").

Definition quote_char (a : ascii) : string :=
  let n := nat_of_ascii a in
  if (n =? 34)%nat || (n =? 92)%nat then String "\" (String a "")
  else if (n =? 7)%nat then "\a" else if (n =? 8)%nat then "\b"
  else if (n =? 9)%nat then "\t" else if (n =? 10)%nat then "\n"
  else if (n =? 11)%nat then "\v" else if (n =? 12)%nat then "\f"
  else if (n =? 13)%nat then "\r"
  else if (n <? 32)%nat || (n =? 127)%nat then quote_byte n
  else String a "".

(** The text starts with bytes in these ranges. *)
Fixpoint starts_in (due : list (N * N)) (s : string) : bool :=
  match due, s with
  | [], _ => true
  | (lo, hi) :: due, String a s => (lo <=? N_of_ascii a)%N && (N_of_ascii a <=? hi)%N && starts_in due s
  | _ :: _, EmptyString => false
  end.

(** [copy] is the number of bytes that are left of the rune being copied.  A byte that starts
    no rune is escaped. *)
Fixpoint quote_body (copy : nat) (s : string) : string :=
  match s, copy with
  | EmptyString, _ => EmptyString
  | String a s, S copy => String a (quote_body copy s)
  | String a s, O =>
      match rune_tail (N_of_ascii a) with
      | Some [] => quote_char a +:+ quote_body 0 s
      | Some due => if starts_in due s then String a (quote_body (length due) s)
                    else quote_byte (nat_of_ascii a) +:+ quote_body 0 s
      | None => quote_byte (nat_of_ascii a) +:+ quote_body 0 s
      end
  end.

(** The %q form of a string.  Runes above ASCII are copied: the few that Unicode does not call
    printable, which Go escapes as \u, would need its tables. *)
Definition Quote (s : string) : string := String (byte 34) (quote_body 0 s) +:+ String (byte 34) "".

Example Quote_bytes : Quote ("é" +:+ String "195" (String "010" "x")) = String (byte 34) ("é\xc3\nx" +:+ String (byte 34) "").
Proof. reflexivity. Qed.

(** ** Lemmas *)

Section affixes.
Implicit Types s t u p : string.

Lemma str_drop_app s t : str_drop (String.length s) (s +:+ t) = t.
Proof. induction s as [|a s IH]; [by destruct t|]. by rewrite str_app_cons. Qed.

Lemma str_take_app s t : str_take (String.length s) (s +:+ t) = s.
Proof.
  induction s as [|a s IH]; [by destruct t|]. rewrite str_app_cons. simpl. by rewrite IH.
Qed.

Lemma str_take_drop n s : str_take n s +:+ str_drop n s = s.
Proof.
  revert s. induction n as [|n IH]; intros [|a s]; try done.
  simpl. by rewrite str_app_cons, IH.
Qed.

Lemma str_take_all s : str_take (String.length s) s = s.
Proof. rewrite <-(str_app_nil_r s) at 2. apply str_take_app. Qed.

Lemma str_length_drop n s : String.length (str_drop n s) = String.length s - n.
Proof. revert s. induction n as [|n IH]; intros [|a s]; simpl; auto. Qed.

Lemma HasPrefix_app p t : HasPrefix (p +:+ t) p = true.
Proof.
  unfold HasPrefix. induction p as [|a p IH]; [by destruct t|]. rewrite str_app_cons.
  simpl. by destruct (ascii_dec a a).
Qed.

Lemma HasPrefix_spec s p : HasPrefix s p = true ↔ ∃ t, s = p +:+ t.
Proof.
  split; [|intros [t ->]; apply HasPrefix_app].
  unfold HasPrefix. revert s. induction p as [|a p IH]; intros s; [by exists s|].
  destruct s as [|b s]; simpl; [done|]. destruct (ascii_dec a b) as [->|]; [|done].
  intros [t ->]%IH. by exists t.
Qed.

Lemma HasPrefix_false s p : HasPrefix s p = false ↔ ∀ t, s ≠ p +:+ t.
Proof. rewrite <-not_true_iff_false, HasPrefix_spec. naive_solver. Qed.

Lemma TrimPrefix_app p t : TrimPrefix (p +:+ t) p = t.
Proof. unfold TrimPrefix. by rewrite HasPrefix_app, str_drop_app. Qed.

Lemma TrimPrefix_no s p : HasPrefix s p = false → TrimPrefix s p = s.
Proof. unfold TrimPrefix. by intros ->. Qed.

Lemma HasSuffix_app s t : HasSuffix (s +:+ t) t = true.
Proof.
  unfold HasSuffix. apply andb_true_iff. rewrite str_length_app. split.
  - apply Nat.leb_le. lia.
  - replace (_ - _) with (String.length s) by lia. rewrite str_drop_app.
    apply String.eqb_refl.
Qed.

Lemma HasSuffix_spec s t : HasSuffix s t = true ↔ ∃ u, s = u +:+ t.
Proof.
  split; [|intros [u ->]; apply HasSuffix_app].
  unfold HasSuffix. intros H. bool_hyps.
  exists (str_take (String.length s - String.length t) s).
  rewrite <-(str_take_drop (String.length s - String.length t) s) at 1. by f_equal.
Qed.

Lemma HasSuffix_false s t : HasSuffix s t = false ↔ ∀ u, s ≠ u +:+ t.
Proof. rewrite <-not_true_iff_false, HasSuffix_spec. naive_solver. Qed.

Lemma TrimSuffix_app s t : TrimSuffix (s +:+ t) t = s.
Proof.
  unfold TrimSuffix. rewrite HasSuffix_app, str_length_app.
  replace (_ - _) with (String.length s) by lia. apply str_take_app.
Qed.

Lemma CutSuffix_app s t : CutSuffix (s +:+ t) t = (s, true).
Proof.
  unfold CutSuffix. rewrite HasSuffix_app, str_length_app.
  replace (_ - _) with (String.length s) by lia. by rewrite str_take_app.
Qed.

Lemma CutSuffix_true s t u : CutSuffix s t = (u, true) ↔ s = u +:+ t.
Proof.
  split; [|intros ->; apply CutSuffix_app]. unfold CutSuffix.
  destruct (HasSuffix s t) eqn:H; [|done]. apply HasSuffix_spec in H as [v ->].
  rewrite str_length_app. replace (_ - _) with (String.length v) by lia.
  rewrite str_take_app. by intros [= ->].
Qed.

Lemma CutSuffix_false s t u : CutSuffix s t = (u, false) → u = s ∧ ∀ v, s ≠ v +:+ t.
Proof.
  unfold CutSuffix. destruct (HasSuffix s t) eqn:H; [done|].
  intros [= <-]. by rewrite HasSuffix_false in H.
Qed.
End affixes.

Section splitting.
Implicit Types (s t : string) (c : ascii).

Lemma Cut_app c s t : char_free c s = true → Cut (s +:+ String c t) c = (s, t, true).
Proof.
  induction s as [|a s IH]; rewrite ?str_app_cons; simpl.
  - intros _. by rewrite Ascii.eqb_refl.
  - intros [Ha Hs]%char_free_cons. rewrite (proj2 (Ascii.eqb_neq a c) Ha). by rewrite IH.
Qed.

Lemma Cut_free c s : char_free c s = true → Cut s c = (s, "", false).
Proof.
  induction s as [|a s IH]; simpl; [done|].
  intros [Ha Hs]%char_free_cons. rewrite (proj2 (Ascii.eqb_neq a c) Ha). by rewrite IH.
Qed.

(** Every string either has no separator or has a first one. *)
Lemma char_free_dec c s :
  char_free c s = true ∨ ∃ t u, s = t +:+ String c u ∧ char_free c t = true.
Proof.
  induction s as [|a s IH]; [by left|]. destruct (Ascii.eqb_spec a c) as [->|Hac].
  - right. by exists "", s.
  - destruct IH as [H|(t & u & -> & H)].
    + left. by apply char_free_cons.
    + right. exists (String a t), u. split; [done|]. by apply char_free_cons.
Qed.

Lemma Cut_true c s t u : Cut s c = (t, u, true) ↔ s = t +:+ String c u ∧ char_free c t = true.
Proof.
  split; [|intros [-> H]; by apply Cut_app].
  destruct (char_free_dec c s) as [H|(t' & u' & -> & H)].
  - by rewrite Cut_free.
  - rewrite Cut_app by done. by intros [= -> ->].
Qed.

Lemma Cut_false c s t u : Cut s c = (t, u, false) ↔ char_free c s = true ∧ t = s ∧ u = "".
Proof.
  split; [|intros (H & -> & ->); by apply Cut_free].
  destruct (char_free_dec c s) as [H|(t' & u' & -> & H)].
  - rewrite Cut_free by done. by intros [= <- <-].
  - by rewrite Cut_app.
Qed.

Lemma Split_free c s : char_free c s = true → Split s c = [s].
Proof.
  induction s as [|a s IH]; simpl; [done|].
  intros [Ha Hs]%char_free_cons. rewrite (proj2 (Ascii.eqb_neq a c) Ha). by rewrite IH.
Qed.

Lemma Split_app c s t : char_free c s = true → Split (s +:+ String c t) c = s :: Split t c.
Proof.
  induction s as [|a s IH]; rewrite ?str_app_cons; simpl.
  - intros _. by rewrite Ascii.eqb_refl.
  - intros [Ha Hs]%char_free_cons. rewrite (proj2 (Ascii.eqb_neq a c) Ha). by rewrite IH.
Qed.

Lemma Split_nonempty c s : Split s c ≠ [].
Proof. destruct s as [|a s]; simpl; [done|]. repeat case_match; done. Qed.

(** Induction on the pieces of a string. *)
Lemma split_ind c (P : string → Prop) :
  (∀ s, char_free c s = true → P s) →
  (∀ s t, char_free c s = true → P t → P (s +:+ String c t)) →
  ∀ s, P s.
Proof.
  intros Hfree Hsep s. remember (String.length s) as n eqn:Hn.
  revert s Hn. induction (lt_wf n) as [n _ IH]. intros s ->.
  destruct (char_free_dec c s) as [H|(t & u & -> & H)]; [auto|].
  apply Hsep; [done|]. eapply IH; [|done]. rewrite str_length_app. simpl. lia.
Qed.

Lemma Join_cons_cons p q l sep : Join (p :: q :: l) sep = p +:+ sep +:+ Join (q :: l) sep.
Proof. done. Qed.

Lemma Join_cons p l sep : l ≠ [] → Join (p :: l) sep = p +:+ sep +:+ Join l sep.
Proof. by destruct l. Qed.

Lemma Join_Split c s : Join (Split s c) (String c "") = s.
Proof.
  induction s as [s H|s t H IH] using (split_ind c).
  - by rewrite Split_free.
  - rewrite Split_app, Join_cons by auto using Split_nonempty. by rewrite IH.
Qed.

Lemma Split_pieces_free c s : Forall (λ p, char_free c p = true) (Split s c).
Proof.
  induction s as [s H|s t H IH] using (split_ind c).
  - rewrite Split_free by done. by constructor.
  - rewrite Split_app by done. by constructor.
Qed.

Lemma Split_Join c l :
  l ≠ [] → Forall (λ p, char_free c p = true) l → Split (Join l (String c "")) c = l.
Proof.
  intros Hl HF. induction HF as [|p l Hp HF IH]; [done|].
  destruct l as [|q l]; [by apply Split_free|].
  rewrite Join_cons_cons, str_app_cons, str_app_nil_l, Split_app by done.
  by rewrite IH.
Qed.

Lemma SplitN2_app c s t : char_free c s = true → SplitN2 (s +:+ String c t) c = [s; t].
Proof. intros H. unfold SplitN2. by rewrite Cut_app. Qed.

Lemma SplitN2_free c s : char_free c s = true → SplitN2 s c = [s].
Proof. intros H. unfold SplitN2. by rewrite Cut_free. Qed.

Lemma Contains_true c s :
  Contains s c = true ↔ ∃ t u, s = t +:+ String c u ∧ char_free c t = true.
Proof.
  unfold Contains. rewrite negb_true_iff, <-not_true_iff_false.
  destruct (char_free_dec c s) as [H|(t & u & -> & H)].
  - split; [done|]. intros (t & u & -> & _). by apply char_free_app in H as [_ [? _]%char_free_cons].
  - split; [naive_solver|]. intros _ [_ [? _]%char_free_cons]%char_free_app. done.
Qed.
End splitting.

(** ** UTF-8 texts *)

Lemma ascii_valid s : str_forall (λ a, (nat_of_ascii a <? 128)%nat) s = true → ValidString s = true.
Proof.
  unfold ValidString. induction s as [|a s IH]; [done|]. cbn [str_forall valid_from].
  intros [Ha%Nat.ltb_lt Hs]%andb_true_iff. unfold rune_tail. cbv zeta.
  destruct (N.ltb_spec (N_of_ascii a) 128); [auto|]. unfold nat_of_ascii in Ha. lia.
Qed.

Lemma valid_from_app due s t : valid_from due s = true → ValidString t = true → valid_from due (s +:+ t) = true.
Proof.
  revert due. induction s as [|a s IH]; intros due Hs Ht; rewrite ?str_app_nil_l, ?str_app_cons.
  - by destruct due.
  - cbn [valid_from] in *. destruct due as [|[lo hi] due].
    + destruct (rune_tail (N_of_ascii a)); [by apply IH|done].
    + apply andb_true_iff in Hs as [-> Hs]. by apply IH.
Qed.

Lemma ValidString_app s t : ValidString s = true → ValidString t = true → ValidString (s +:+ t) = true.
Proof. apply valid_from_app. Qed.

(** Two bytes of a rune, a rune of the fourth plane; an overlong slash and a surrogate are refused. *)
Example ValidString_runes :
  map ValidString ["é"; "日本"; "😀"; String "192" (String "175" ""); String "237" (String "160" (String "128" "")); "é" +:+ String "195" ""]
  = [true; true; true; false; false; false]%string.
Proof. reflexivity. Qed.
