(* ===== verification/Errors.v ===== *)
(** Business errors (internal/errors/business-error.go): an error kind, the
    wrapped error, and the HTTP status the kind is answered with. *)
From S2P Require Import Prelude.

Definition ErrorKindEnum := string.

Definition Unauthorized : ErrorKindEnum := "Unauthorized".
Definition InternalError : ErrorKindEnum := "InternalError".
Definition BadRequest : ErrorKindEnum := "BadRequest".
Definition Conflict : ErrorKindEnum := "Conflict".
Definition PayloadTooLarge : ErrorKindEnum := "PayloadTooLarge".
Definition NotImplemented : ErrorKindEnum := "NotImplemented".

(** The [Err] field holds the wrapped error, by its message; [None] is nil. *)
Record GimmeError := {
  Kind : ErrorKindEnum;
  Err : option string;
}.

Definition NewBusinessError (kind : ErrorKindEnum) (err : option string) : GimmeError :=
  {| Kind := kind; Err := err |}.

Definition httpCodes : gmap string Z :=
  {[ BadRequest := 400%Z; Conflict := 409%Z; PayloadTooLarge := 413%Z;
     InternalError := 500%Z; Unauthorized := 401%Z; NotImplemented := 501%Z ]}.

Definition GetHTTPCode (e : GimmeError) : Z := default 500%Z (httpCodes !! Kind e).

Definition Error (e : GimmeError) : string := default (Kind e) (Err e).

Definition Unwrap (e : GimmeError) : option string := Err e.

(** ** Results *)

(** A call that returns a value or a [*GimmeError]. *)
Inductive result (A : Type) :=
  | Ok (a : A)
  | Fail (e : GimmeError).
Arguments Ok {A} a.
Arguments Fail {A} e.

Definition result_bind {A B} (x : result A) (f : A → result B) : result B :=
  match x with
  | Ok a => f a
  | Fail e => Fail e
  end.

Notation "x <-? c ; k" := (result_bind c (λ x, k))
  (at level 100, c at next level, right associativity) : gimme_scope.

(** [fail kind msg] is [return errors.NewBusinessError(kind, fmt.Errorf(msg))]. *)
Definition fail {A} (kind : ErrorKindEnum) (msg : string) : result A :=
  Fail (NewBusinessError kind (Some msg)).

Lemma httpCodes_inv kind code :
  httpCodes !! kind = Some code →
  (kind, code) ∈ [(BadRequest, 400%Z); (Conflict, 409%Z); (PayloadTooLarge, 413%Z);
                  (InternalError, 500%Z); (Unauthorized, 401%Z); (NotImplemented, 501%Z)].
Proof.
  unfold httpCodes. rewrite !lookup_insert_Some, lookup_singleton_Some.
  set_solver.
Qed.

(** Every error answer of the API has a status in the 4xx or 5xx range. *)
Lemma GetHTTPCode_range e : (400 ≤ GetHTTPCode e ≤ 501)%Z.
Proof.
  unfold GetHTTPCode. destruct (httpCodes !! Kind e) as [code|] eqn:H; [|simpl; lia].
  apply httpCodes_inv in H. set_unfold. simpl. intuition simplify_eq; lia.
Qed.

Lemma result_bind_Ok {A B} (x : result A) (f : A → result B) b :
  result_bind x f = Ok b ↔ ∃ a, x = Ok a ∧ f a = Ok b.
Proof. destruct x; simpl; naive_solver. Qed.
