(* ===== verification/Order.v ===== *)
(** Comparison functions: their composition, the laws of an order, and the bytewise
    order of strings. *)
From S2P Require Import Prelude.
From Stdlib Require Import Ascii.

Definition lex (c d : comparison) : comparison := match c with Eq => d | _ => c end.

#[export] Instance comparison_eq_dec : EqDecision comparison.
Proof. solve_decision. Defined.

(** ** Comparison functions *)

(** A comparison that is antisymmetric, transitive, and a congruence for the
    elements it calls equal. *)
Class Ordering {A} (f : A → A → comparison) : Prop := {
  cmp_antisym x y : f y x = CompOpp (f x y);
  cmp_trans x y z : f x y = Lt → f y z = Lt → f x z = Lt;
  cmp_eq x y z : f x y = Eq → f x z = f y z;
}.

Lemma cmp_eq_r {A} (f : A → A → comparison) `{!Ordering f} x y z :
  f x y = Eq → f z x = f z y.
Proof. intros H. rewrite (cmp_antisym x z), (cmp_antisym y z). by rewrite (cmp_eq x y z). Qed.

Lemma cmp_refl {A} (f : A → A → comparison) `{!Ordering f} x : f x x = Eq.
Proof. pose proof (cmp_antisym (f:=f) x x). by destruct (f x x). Qed.

#[export] Instance N_ordering : Ordering N.compare.
Proof.
  split.
  - intros x y. apply N.compare_antisym.
  - intros x y z. rewrite !N.compare_lt_iff. lia.
  - intros x y z. rewrite N.compare_eq_iff. by intros ->.
Qed.

Lemma ascii_compare_eq a b : Ascii.compare a b = Eq ↔ a = b.
Proof.
  unfold Ascii.compare. rewrite N.compare_eq_iff. split; [|by intros ->].
  intros H. rewrite <-(ascii_N_embedding a), <-(ascii_N_embedding b). by rewrite H.
Qed.

Lemma str_compare_trans s t u :
  String.compare s t = Lt → String.compare t u = Lt → String.compare s u = Lt.
Proof.
  revert t u. induction s as [|a s IH]; intros [|b t] [|c u]; simpl; try done.
  destruct (Ascii.compare a b) eqn:Hab; [| |done];
    destruct (Ascii.compare b c) eqn:Hbc; try done; intros H1 H2.
  - apply ascii_compare_eq in Hab, Hbc. subst. rewrite (proj2 (ascii_compare_eq c c) eq_refl). eauto.
  - apply ascii_compare_eq in Hab as ->. by rewrite Hbc.
  - apply ascii_compare_eq in Hbc as ->. by rewrite Hab.
  - unfold Ascii.compare in *. rewrite !N.compare_lt_iff in *.
    by replace (N.compare _ _) with Lt by (symmetry; apply N.compare_lt_iff; lia).
Qed.

#[export] Instance string_ordering : Ordering String.compare.
Proof.
  split.
  - intros x y. exact (String.compare_antisym y x).
  - apply str_compare_trans.
  - intros x y z H. by apply String.compare_eq_iff in H as ->.
Qed.

(** Lexicographic combination of two orderings of the same elements. *)
Lemma lex_ordering {A} (f g : A → A → comparison) :
  Ordering f → Ordering g → Ordering (λ x y, lex (f x y) (g x y)).
Proof.
  intros Hf Hg. split.
  - intros x y. rewrite (cmp_antisym (f:=f) x y), (cmp_antisym (f:=g) x y).
    by destruct (f x y).
  - intros x y z. destruct (f x y) eqn:Hxy; simpl; [| |done].
    + rewrite (cmp_eq (f:=f) x y z Hxy). destruct (f y z); simpl; try done.
      apply cmp_trans.
    + intros _. destruct (f y z) eqn:Hyz; simpl; try done.
      * intros _. by rewrite <-(cmp_eq_r f y z x Hyz), Hxy.
      * intros _. by rewrite (cmp_trans x y z Hxy Hyz).
  - intros x y z. destruct (f x y) eqn:Hxy; simpl; try done. intros H.
    rewrite (cmp_eq (f:=f) x y z Hxy). by rewrite (cmp_eq (f:=g) x y z H).
Qed.

Lemma map_ordering {A B} (h : A → B) (f : B → B → comparison) :
  Ordering f → Ordering (λ x y, f (h x) (h y)).
Proof.
  intros Hf. split.
  - intros x y. apply cmp_antisym.
  - intros x y z. apply cmp_trans.
  - intros x y z. apply cmp_eq.
Qed.

(** An ordering on top of a Boolean partition, the [true] class below. *)
Definition split_compare {A} (p : A → bool) (f g : A → A → comparison) (x y : A) : comparison :=
  match p x, p y with
  | true, true => f x y
  | true, false => Lt
  | false, true => Gt
  | false, false => g x y
  end.

Lemma split_ordering {A} (p : A → bool) (f g : A → A → comparison) :
  Ordering f → Ordering g → Ordering (split_compare p f g).
Proof.
  intros Hf Hg. unfold split_compare. split.
  - intros x y. destruct (p x), (p y); simpl; auto using cmp_antisym.
  - intros x y z. destruct (p x), (p y), (p z); try done; apply cmp_trans.
  - intros x y z. destruct (p x), (p y); try done; intros H; destruct (p z);
      eauto using cmp_eq.
Qed.

Lemma ordering_le_trans {A} (f : A → A → comparison) `{!Ordering f} x y z :
  f x y ≠ Gt → f y z ≠ Gt → f x z ≠ Gt.
Proof.
  destruct (f x y) eqn:Hxy; [| |done].
  - by rewrite (cmp_eq x y z Hxy).
  - destruct (f y z) eqn:Hyz; [| |done].
    + by rewrite <-(cmp_eq_r f y z x Hyz), Hxy.
    + by rewrite (cmp_trans x y z Hxy Hyz).
Qed.

Lemma ordering_le_total {A} (f : A → A → comparison) `{!Ordering f} x y :
  f x y ≠ Gt ∨ f y x ≠ Gt.
Proof. rewrite (cmp_antisym (f:=f) x y). destruct (f x y); simpl; auto. Qed.

(** ** The bytewise order of strings *)

Definition str_lt (s t : string) : Prop := String.compare s t = Lt.

Definition str_le (s t : string) : Prop := String.compare s t ≠ Gt.

#[export] Instance str_le_dec : RelDecision str_le.
Proof. intros s t. unfold str_le. apply _. Defined.

#[export] Instance str_lt_dec : RelDecision str_lt.
Proof. intros s t. unfold str_lt. apply _. Defined.

Lemma str_lt_irrefl s : ¬ str_lt s s.
Proof.
  unfold str_lt. intros H. pose proof (String.compare_antisym s s) as E.
  rewrite H in E. done.
Qed.

Lemma sorted_nodup l : StronglySorted str_lt l → NoDup l.
Proof.
  induction 1 as [|s l Hl IH Hs]; constructor; [|done].
  intros Hin. rewrite Forall_forall in Hs. by apply (str_lt_irrefl s), Hs.
Qed.

#[export] Instance str_le_trans : Transitive str_le.
Proof. intros s t u. apply (ordering_le_trans String.compare). Qed.

#[export] Instance str_le_total : Total str_le.
Proof. intros s t. apply (ordering_le_total String.compare). Qed.

Lemma strict_sorted l : NoDup l → StronglySorted str_le l → StronglySorted str_lt l.
Proof.
  intros Hnd Hs. induction Hs as [|s l Hl IH HF]; [constructor|].
  apply NoDup_cons in Hnd as [Hs Hnd]. constructor; [auto|].
  apply Forall_forall. intros t Ht. rewrite Forall_forall in HF. specialize (HF t Ht).
  unfold str_lt, str_le in *. destruct (String.compare s t) eqn:E; [|done|done].
  apply String.compare_eq_iff in E as ->. done.
Qed.

Lemma sorted_keys_unique (l k : list string) :
  StronglySorted str_lt l → StronglySorted str_lt k → (∀ x, x ∈ l ↔ x ∈ k) → l = k.
Proof.
  intros Hl Hk Heq. apply (StronglySorted_unique_strong str_lt); [|done..|].
  - intros x y _ _ Hxy Hyx. unfold str_lt in *.
    rewrite String.compare_antisym, Hxy in Hyx. done.
  - apply NoDup_Permutation; auto using sorted_nodup.
Qed.

(** What follows a key of a sorted list. *)
Lemma sorted_after (l1 l2 : list string) x y :
  StronglySorted str_lt (l1 ++ l2) → last l1 = Some x →
  y ∈ l2 ↔ y ∈ l1 ++ l2 ∧ str_lt x y.
Proof.
  intros Hs Hx. pose proof (last_Some_elem_of _ _ Hx) as Hin. split.
  - intros Hy. split; [set_solver|]. by eapply StronglySorted_app_1_elem_of.
  - intros [[Hy|Hy]%elem_of_app Hlt]; [|done]. exfalso.
    apply last_Some in Hx as [l ->]. apply StronglySorted_app_1_l in Hs.
    apply elem_of_app in Hy as [Hy| ->%list_elem_of_singleton]; [|by apply (str_lt_irrefl x)].
    assert (Hyx : str_lt y x).
    { eapply StronglySorted_app_1_elem_of; [done..|]. by apply list_elem_of_singleton. }
    unfold str_lt in *. rewrite String.compare_antisym, Hyx in Hlt. done.
Qed.

Lemma str_lt_app s a t : str_lt s (s +:+ String a t).
Proof.
  unfold str_lt. induction s as [|b s IH]; [done|]. rewrite str_app_cons. simpl.
  by rewrite (proj2 (ascii_compare_eq b b) eq_refl).
Qed.

(** What precedes an element of an initial segment of a sorted list is in it. *)
Lemma sorted_before (l1 l2 : list string) x y :
  StronglySorted str_lt (l1 ++ l2) → x ∈ l1 → y ∈ l1 ++ l2 → str_lt y x → y ∈ l1.
Proof.
  intros Hs Hx [Hy|Hy]%elem_of_app Hlt; [done|]. exfalso.
  assert (str_lt x y) by by eapply StronglySorted_app_1_elem_of.
  apply (str_lt_irrefl x). by eapply str_compare_trans.
Qed.

Lemma sorted_filter (P : string → Prop) `{∀ x, Decision (P x)} l :
  StronglySorted str_lt l → StronglySorted str_lt (filter P l).
Proof.
  induction 1 as [|x l Hl IH HF]; [constructor|]. rewrite filter_cons. case_decide; [|done].
  constructor; [done|]. rewrite Forall_forall in *. intros y [_ Hy]%list_elem_of_filter. auto.
Qed.
