(* ===== verification/Semver.v ===== *)
(** The interface of golang.org/x/mod/semver, a package the sources call but do
    not contain: the documented grammar of versions, the operations the sources
    use ([Semver]), what their documentation promises ([SemverLaws]), and a
    reference implementation that satisfies the promises, on which the
    witnesses of the development compute. *)
From S2P Require Import Prelude Order GoStrings.
From Stdlib Require Import Ascii.

(** ** The documented grammar *)

(** vMAJOR[.MINOR[.PATCH[-PRERELEASE][+BUILD]]], the numbers by their text; an
    absent prerelease or build is the empty list of identifiers. *)
Inductive semver :=
  | ShortMajor (major : string)
  | ShortMinor (major minor : string)
  | Full (major minor patch : string) (pre build : list string).

Definition digit (a : ascii) : bool :=
  (48 <=? nat_of_ascii a)%nat && (nat_of_ascii a <=? 57)%nat.

Definition letter (a : ascii) : bool :=
  ((65 <=? nat_of_ascii a)%nat && (nat_of_ascii a <=? 90)%nat) ||
  ((97 <=? nat_of_ascii a)%nat && (nat_of_ascii a <=? 122)%nat).

Definition ident_char (a : ascii) : bool := digit a || letter a || Ascii.eqb a "-".

(** A decimal integer without extra leading zeros. *)
Definition number (s : string) : bool :=
  match s with
  | EmptyString => false
  | String a EmptyString => digit a
  | String a s => digit a && negb (Ascii.eqb a "0") && str_forall digit s
  end.

Definition build_ident (s : string) : bool := negb (String.eqb s "") && str_forall ident_char s.

(** An all-numeric prerelease identifier has no leading zeros. *)
Definition pre_ident (s : string) : bool :=
  build_ident s && (negb (str_forall digit s) || number s).

Definition show_pre (ids : list string) : string :=
  match ids with [] => "" | _ => "-" +:+ Join ids "." end.

Definition show_build (ids : list string) : string :=
  match ids with [] => "" | _ => "+" +:+ Join ids "." end.

Definition show (v : semver) : string :=
  match v with
  | ShortMajor major => "v" +:+ major
  | ShortMinor major minor => "v" +:+ major +:+ "." +:+ minor
  | Full major minor patch pre build =>
      "v" +:+ major +:+ "." +:+ minor +:+ "." +:+ patch +:+ show_pre pre +:+ show_build build
  end.

Definition wf (v : semver) : bool :=
  match v with
  | ShortMajor major => number major
  | ShortMinor major minor => number major && number minor
  | Full major minor patch pre build =>
      number major && number minor && number patch &&
      forallb pre_ident pre && forallb build_ident build
  end.

(** The shorthands stand for vMAJOR.0.0 and vMAJOR.MINOR.0. *)
Definition sv_major (v : semver) : string :=
  match v with ShortMajor x | ShortMinor x _ | Full x _ _ _ _ => x end.
Definition sv_minor (v : semver) : string :=
  match v with ShortMajor _ => "0" | ShortMinor _ x | Full _ x _ _ _ => x end.
Definition sv_patch (v : semver) : string :=
  match v with ShortMajor _ | ShortMinor _ _ => "0" | Full _ _ x _ _ => x end.
Definition sv_pre (v : semver) : list string :=
  match v with Full _ _ _ pre _ => pre | _ => [] end.
Definition sv_build (v : semver) : list string :=
  match v with Full _ _ _ _ build => build | _ => [] end.

(** ** Precedence *)

Fixpoint num_value_from (acc : N) (s : string) : N :=
  match s with
  | EmptyString => acc
  | String a s => num_value_from (acc * 10 + (N_of_ascii a - 48)) s
  end.

Definition num_value (s : string) : N := num_value_from 0 s.

(** Numeric identifiers compare numerically and below the alphanumeric ones,
    which compare in ASCII order. *)
Definition compare_ident (s t : string) : comparison :=
  match str_forall digit s, str_forall digit t with
  | true, true => N.compare (num_value s) (num_value t)
  | true, false => Lt
  | false, true => Gt
  | false, false => String.compare s t
  end.

Fixpoint compare_idents (l k : list string) : comparison :=
  match l, k with
  | [], [] => Eq
  | [], _ :: _ => Lt
  | _ :: _, [] => Gt
  | s :: l, t :: k => lex (compare_ident s t) (compare_idents l k)
  end.

(** A release is above its prereleases. *)
Definition compare_pre (l k : list string) : comparison :=
  match l, k with
  | [], [] => Eq
  | [], _ :: _ => Gt
  | _ :: _, [] => Lt
  | _, _ => compare_idents l k
  end.

Definition precedence (v w : semver) : comparison :=
  lex (N.compare (num_value (sv_major v)) (num_value (sv_major w)))
  (lex (N.compare (num_value (sv_minor v)) (num_value (sv_minor w)))
  (lex (N.compare (num_value (sv_patch v)) (num_value (sv_patch w)))
       (compare_pre (sv_pre v) (sv_pre w)))).

(** ** The package *)

Class Semver := {
  semver_IsValid : string → bool;
  semver_Prerelease : string → string;
  semver_Major : string → string;
  semver_MajorMinor : string → string;
  semver_Compare : string → string → comparison;
  semver_Sort : list string → list string;
}.

(** [Sort] orders by [Compare], and equal versions by string comparison. *)
Definition sort_le `{Semver} (s t : string) : Prop :=
  lex (semver_Compare s t) (String.compare s t) ≠ Gt.

Class SemverLaws `{Semver} := {
  IsValid_spec s : semver_IsValid s = true ↔ ∃ v, wf v = true ∧ s = show v;
  Prerelease_show v : wf v = true → semver_Prerelease (show v) = show_pre (sv_pre v);
  Major_show v : wf v = true → semver_Major (show v) = "v" +:+ sv_major v;
  MajorMinor_show v :
    wf v = true → semver_MajorMinor (show v) = "v" +:+ sv_major v +:+ "." +:+ sv_minor v;
  Compare_show v w :
    wf v = true → wf w = true → semver_Compare (show v) (show w) = precedence v w;
  Sort_perm l : semver_Sort l ≡ₚ l;
  Sort_sorted l : StronglySorted sort_le (semver_Sort l);
}.

(** ** Reference implementation *)

Definition parse_core (core : string) (pre build : list string) : option semver :=
  match Split core ".", pre, build with
  | [major], [], [] => Some (ShortMajor major)
  | [major; minor], [], [] => Some (ShortMinor major minor)
  | [major; minor; patch], _, _ => Some (Full major minor patch pre build)
  | _, _, _ => None
  end.

Definition parse (s : string) : option semver :=
  match s with
  | String "v" s =>
      let '(s, build, has_build) := Cut s "+" in
      let '(core, pre, has_pre) := Cut s "-" in
      v ← parse_core core (if has_pre then Split pre "." else [])
                          (if has_build then Split build "." else []);
      if wf v then Some v else None
  | _ => None
  end.

Definition ref_Compare (s t : string) : comparison :=
  match parse s, parse t with
  | None, None => Eq
  | None, Some _ => Lt
  | Some _, None => Gt
  | Some v, Some w => precedence v w
  end.

Definition ref_le (s t : string) : Prop := lex (ref_Compare s t) (String.compare s t) ≠ Gt.

#[export] Instance ref_le_dec : RelDecision ref_le.
Proof. intros s t. unfold ref_le. apply _. Defined.

#[export] Instance ref_semver : Semver := {|
  semver_IsValid s := if parse s is Some _ then true else false;
  semver_Prerelease s := if parse s is Some v then show_pre (sv_pre v) else "";
  semver_Major s := if parse s is Some v then "v" +:+ sv_major v else "";
  semver_MajorMinor s :=
    if parse s is Some v then "v" +:+ sv_major v +:+ "." +:+ sv_minor v else "";
  semver_Compare := ref_Compare;
  semver_Sort := merge_sort ref_le;
|}.

#[export] Instance ident_ordering : Ordering compare_ident.
Proof.
  apply (split_ordering (str_forall digit) (λ s t, N.compare (num_value s) (num_value t))
           String.compare); [apply map_ordering|]; apply _.
Qed.

#[export] Instance idents_ordering : Ordering compare_idents.
Proof.
  split.
  - intros l. induction l as [|s l IH]; intros [|t k]; simpl; try done.
    rewrite (cmp_antisym (f:=compare_ident) s t), IH. by destruct (compare_ident s t).
  - intros l. induction l as [|s l IH]; intros [|t k] [|u m]; simpl; try done.
    destruct (compare_ident s t) eqn:Hst; simpl; [| |done].
    + rewrite (cmp_eq s t u Hst). destruct (compare_ident t u); simpl; try done. apply IH.
    + intros _. destruct (compare_ident t u) eqn:Htu; simpl; try done.
      * intros _. by rewrite <-(cmp_eq_r compare_ident t u s Htu), Hst.
      * intros _. by rewrite (cmp_trans s t u Hst Htu).
  - intros l. induction l as [|s l IH]; intros [|t k] m; simpl; try done.
    destruct (compare_ident s t) eqn:Hst; simpl; try done. intros H.
    destruct m as [|u m]; [done|].
    by rewrite (cmp_eq s t u Hst), (IH k m H).
Qed.

#[export] Instance pre_ordering : Ordering compare_pre.
Proof.
  split.
  - intros [|s l] [|t k]; try done. apply (cmp_antisym (f:=compare_idents)).
  - intros [|s l] [|t k] [|u m]; try done. apply (cmp_trans (f:=compare_idents)).
  - intros [|s l] [|t k] [|u m]; try done; apply (cmp_eq (f:=compare_idents)).
Qed.

#[export] Instance precedence_ordering : Ordering precedence.
Proof.
  unfold precedence.
  apply (lex_ordering (λ v w, N.compare (num_value (sv_major v)) (num_value (sv_major w))));
    [apply map_ordering, _|].
  apply (lex_ordering (λ v w, N.compare (num_value (sv_minor v)) (num_value (sv_minor w))));
    [apply map_ordering, _|].
  apply (lex_ordering (λ v w, N.compare (num_value (sv_patch v)) (num_value (sv_patch w))));
    [apply map_ordering, _|apply map_ordering, _].
Qed.

#[export] Instance ref_Compare_ordering : Ordering ref_Compare.
Proof.
  unfold ref_Compare. split.
  - intros x y. destruct (parse x), (parse y); try done. apply cmp_antisym.
  - intros x y z. destruct (parse x), (parse y), (parse z); try done. apply cmp_trans.
  - intros x y z. destruct (parse x), (parse y); try done; destruct (parse z); try done.
    apply cmp_eq.
Qed.

(** The relation "not after" of an ordering is a total preorder. *)
(** ** The grammar *)

Lemma number_digits s : number s = true → str_forall digit s = true ∧ s ≠ "".
Proof.
  destruct s as [|a [|b s]]; simpl; try done.
  - intros ->. done.
  - intros [[Ha _]%andb_true_iff Hs]%andb_true_iff. split; [|done]. by apply andb_true_iff.
Qed.

Lemma digit_not_char c a : digit c = false → digit a = true → a ≠ c.
Proof. intros Hc Ha ->. congruence. Qed.

Lemma digits_char_free c s : digit c = false → str_forall digit s = true → char_free c s = true.
Proof.
  intros Hc. apply str_forall_impl. intros a Ha. apply negb_true_iff, Ascii.eqb_neq.
  eauto using digit_not_char.
Qed.

Lemma number_char_free c s : digit c = false → number s = true → char_free c s = true.
Proof. intros Hc [H _]%number_digits. by apply digits_char_free. Qed.

Lemma ident_char_free c s : ident_char c = false → build_ident s = true → char_free c s = true.
Proof.
  intros Hc [_ H]%andb_true_iff. revert H. apply str_forall_impl.
  intros a Ha. apply negb_true_iff, Ascii.eqb_neq. intros ->. congruence.
Qed.

Lemma pre_ident_build s : pre_ident s = true → build_ident s = true.
Proof. unfold pre_ident. intros H. by bool_hyps. Qed.

Lemma forallb_Forall {A} (f : A → bool) l : forallb f l = true ↔ Forall (λ x, f x = true) l.
Proof. rewrite forallb_forall, Forall_forall. setoid_rewrite list_elem_of_In. done. Qed.

Lemma Join_char_free c sep l :
  char_free c sep = true → Forall (λ s, char_free c s = true) l → char_free c (Join l sep) = true.
Proof.
  intros Hsep Hl. induction Hl as [|s l Hs Hl IH]; [done|].
  destruct l as [|t l]; [done|]. rewrite Join_cons_cons, !char_free_app. auto.
Qed.

Lemma idents_char_free c l :
  ident_char c = false → c ≠ "."%char → Forall (λ s, build_ident s = true) l →
  char_free c (Join l ".") = true.
Proof.
  intros Hc Hdot Hl. apply Join_char_free.
  - by apply char_free_cons.
  - eapply Forall_impl; [done|]. intros s. by apply ident_char_free.
Qed.

Lemma show_pre_char_free c l :
  ident_char c = false → c ≠ "."%char → c ≠ "-"%char →
  forallb pre_ident l = true → char_free c (show_pre l) = true.
Proof.
  intros Hc Hdot Hdash Hl. destruct l as [|s l]; [done|].
  unfold show_pre. apply char_free_app. split; [by apply char_free_cons|].
  apply idents_char_free; [done..|]. apply forallb_Forall in Hl.
  eapply Forall_impl; [done|]. apply pre_ident_build.
Qed.

Lemma Split_idents l :
  l ≠ [] → Forall (λ s, build_ident s = true) l → Split (Join l ".") "." = l.
Proof.
  intros Hne Hl. apply Split_Join; [done|]. eapply Forall_impl; [done|].
  intros s. by apply ident_char_free.
Qed.

(** The texts before, inside and after the prerelease, for every version. *)
Definition show_core (v : semver) : string :=
  match v with
  | ShortMajor major => major
  | ShortMinor major minor => Join [major; minor] "."
  | Full major minor patch _ _ => Join [major; minor; patch] "."
  end.

Lemma show_parts v :
  show v = String "v" (show_core v +:+ show_pre (sv_pre v) +:+ show_build (sv_build v)).
Proof.
  destruct v; unfold show, Join; simpl; autorewrite with gimme_str; done.
Qed.

Lemma core_char_free c v :
  digit c = false → c ≠ "."%char → wf v = true → char_free c (show_core v) = true.
Proof.
  intros Hc Hdot Hwf. destruct v; simpl in Hwf; bool_hyps;
    repeat match goal with H : number _ = true |- _ => apply (number_char_free c) in H; [|done] end;
    [done|..]; unfold show_core; (apply Join_char_free; [by apply char_free_cons|by repeat constructor]).
Qed.

Lemma core_Split v :
  wf v = true →
  parse_core (show_core v) (sv_pre v) (sv_build v) = Some v.
Proof.
  intros Hwf. unfold parse_core, show_core. destruct v; simpl in Hwf; bool_hyps;
    repeat match goal with H : number _ = true |- _ => apply (number_char_free ".") in H; [|done] end.
  - by rewrite Split_free.
  - rewrite Split_Join; [done|done|]. by repeat constructor.
  - rewrite Split_Join; [done|done|]. by repeat constructor.
Qed.

Lemma wf_pre v : wf v = true → forallb pre_ident (sv_pre v) = true.
Proof. destruct v; simpl; [done..|]. intros H. by bool_hyps. Qed.

Lemma wf_build v : wf v = true → Forall (λ s, build_ident s = true) (sv_build v).
Proof.
  destruct v; simpl; [by constructor..|]. intros H. bool_hyps. by apply forallb_Forall.
Qed.

Lemma parse_show v : wf v = true → parse (show v) = Some v.
Proof.
  intros Hwf. rewrite show_parts. unfold parse.
  pose proof (wf_pre v Hwf) as Hpre. pose proof (wf_build v Hwf) as Hbuild.
  assert (Hplus : char_free "+" (show_core v +:+ show_pre (sv_pre v)) = true).
  { apply char_free_app. split; [by apply core_char_free|by apply show_pre_char_free]. }
  assert (Hdash : char_free "-" (show_core v) = true) by by apply core_char_free.
  rewrite <-str_app_assoc.
  assert (HB : Cut ((show_core v +:+ show_pre (sv_pre v)) +:+ show_build (sv_build v)) "+" =
    (show_core v +:+ show_pre (sv_pre v), Join (sv_build v) ".", negb (bool_decide (sv_build v = [])))).
  { destruct (sv_build v) as [|s l] eqn:E; simpl.
    - rewrite str_app_nil_r. by rewrite Cut_free.
    - rewrite str_app_cons, str_app_nil_l. by rewrite Cut_app. }
  assert (HP : Cut (show_core v +:+ show_pre (sv_pre v)) "-" =
    (show_core v, Join (sv_pre v) ".", negb (bool_decide (sv_pre v = [])))).
  { destruct (sv_pre v) as [|s l] eqn:E; simpl.
    - rewrite str_app_nil_r. by rewrite Cut_free.
    - rewrite str_app_cons, str_app_nil_l. by rewrite Cut_app. }
  rewrite HB, HP. clear HB HP.
  replace (if negb (bool_decide (sv_pre v = [])) then Split (Join (sv_pre v) ".") "." else [])
    with (sv_pre v).
  2:{ case_bool_decide as E; simpl; [done|]. rewrite Split_idents; [done|done|].
      apply forallb_Forall in Hpre. eapply Forall_impl; [done|]. apply pre_ident_build. }
  replace (if negb (bool_decide (sv_build v = [])) then Split (Join (sv_build v) ".") "." else [])
    with (sv_build v).
  2:{ case_bool_decide as E; simpl; [done|]. by rewrite Split_idents. }
  rewrite core_Split by done. simpl. by rewrite Hwf.
Qed.

Lemma show_inj v w : wf v = true → wf w = true → show v = show w → v = w.
Proof.
  intros Hv Hw E. apply (f_equal parse) in E. rewrite !parse_show in E by done. by injection E.
Qed.

Lemma parse_core_show core pre build v :
  parse_core core pre build = Some v →
  core = show_core v ∧ pre = sv_pre v ∧ build = sv_build v.
Proof.
  unfold parse_core. intros H. pose proof (Join_Split "." core) as HJ.
  destruct (Split core ".") as [|major [|minor [|patch [|x l]]]], pre, build;
    simplify_eq/=; by subst.
Qed.

Lemma show_pre_Split pre : show_pre (Split pre ".") = "-" +:+ pre.
Proof.
  pose proof (Join_Split "." pre) as H. pose proof (Split_nonempty "." pre).
  destruct (Split pre "."); [done|]. unfold show_pre. by rewrite H.
Qed.

Lemma show_build_Split build : show_build (Split build ".") = "+" +:+ build.
Proof.
  pose proof (Join_Split "." build) as H. pose proof (Split_nonempty "." build).
  destruct (Split build "."); [done|]. unfold show_build. by rewrite H.
Qed.

Lemma show_parse s v : parse s = Some v → wf v = true ∧ s = show v.
Proof.
  unfold parse. intros H.
  destruct s as [|a s]; [done|]. destruct (ascii_dec a "v") as [->|Ha].
  2:{ exfalso. destruct a as [[] [] [] [] [] [] [] []]; done. }
  destruct (Cut s "+") as [[s1 build] hb] eqn:HB.
  destruct (Cut s1 "-") as [[core pre] hp] eqn:HP.
  destruct (parse_core _ _ _) as [w|] eqn:HC; simpl in H; [|done].
  destruct (wf w) eqn:Hwf; [|done]. injection H as ->. split; [done|].
  apply parse_core_show in HC as (-> & Hpre & Hbuild).
  rewrite show_parts, <-Hpre, <-Hbuild. f_equal.
  assert (Hs1 : s1 = show_core v +:+ show_pre (if hp then Split pre "." else [])).
  { destruct hp.
    - apply Cut_true in HP as [-> _]. by rewrite show_pre_Split.
    - apply Cut_false in HP as (_ & -> & _). simpl. by rewrite str_app_nil_r. }
  rewrite <-str_app_assoc, <-Hs1. destruct hb.
  - apply Cut_true in HB as [-> _]. by rewrite show_build_Split.
  - apply Cut_false in HB as (_ & -> & _). simpl. by rewrite str_app_nil_r.
Qed.

#[export] Instance ref_le_trans : Transitive ref_le.
Proof.
  intros s t u. unfold ref_le.
  pose proof (lex_ordering ref_Compare String.compare _ _) as HO.
  apply (ordering_le_trans (λ x y, lex (ref_Compare x y) (String.compare x y))).
Qed.

#[export] Instance ref_le_total : Total ref_le.
Proof.
  intros s t. unfold ref_le.
  pose proof (lex_ordering ref_Compare String.compare _ _) as HO.
  apply (ordering_le_total (λ x y, lex (ref_Compare x y) (String.compare x y))).
Qed.

#[export] Instance ref_semver_laws : SemverLaws.
Proof.
  split; simpl.
  - intros s. split.
    + destruct (parse s) as [v|] eqn:H; [|done]. apply show_parse in H. eauto.
    + intros (v & Hwf & ->). by rewrite parse_show.
  - intros v Hwf. by rewrite parse_show.
  - intros v Hwf. by rewrite parse_show.
  - intros v Hwf. by rewrite parse_show.
  - intros v w Hv Hw. unfold ref_Compare. by rewrite !parse_show.
  - intros l. apply merge_sort_Permutation.
  - intros l. unfold sort_le. simpl. apply (StronglySorted_merge_sort ref_le).
Qed.
