(* ===== verification/GoFloat.v ===== *)
(** Finite non-negative float64 values as a mantissa and a binary exponent, the
    rounding of a positive rational to the nearest of them (ties to even), and
    their comparison by value. *)
From S2P Require Import Prelude.
Open Scope Z_scope.

(** The value is [mant] times 2 to the power [expo]. *)
Record float64 := {
  mant : Z;
  expo : Z;
}.

(** The quotient rounded to the nearest integer, ties to even. *)
Definition div_ne (n d : Z) : Z :=
  let q := n / d in
  let r := n mod d in
  if 2 * r <? d then q
  else if d <? 2 * r then q + 1
  else q + q mod 2.

(** The binary exponent of the leading bit of num/den. *)
Definition lead_exponent (num den : Z) : Z :=
  let l := Z.log2 num - Z.log2 den in
  if num * 2 ^ Z.max 0 (- l) <? den * 2 ^ Z.max 0 l then l - 1 else l.

(** The exponent of the last bit of the float64 next to num/den: 53 bits of
    mantissa, and nothing below 2^-1074. *)
Definition last_exponent (num den : Z) : Z := Z.max (-1074) (lead_exponent num den - 52).

Definition fround (num den : Z) : float64 :=
  if num =? 0 then {| mant := 0; expo := 0 |}
  else
    let e := last_exponent num den in
    {| mant := div_ne (num * 2 ^ Z.max 0 (- e)) (den * 2 ^ Z.max 0 e); expo := e |}.

Definition of_Z (n : Z) : float64 := fround n 1.

(** Both values scaled by the same power of two. *)
Definition scaled (f : float64) (e : Z) : Z := mant f * 2 ^ (expo f - e).

Definition common_expo (f g : float64) : Z := Z.min (expo f) (expo g).

Definition fleb (f g : float64) : bool :=
  scaled f (common_expo f g) <=? scaled g (common_expo f g).

Definition fltb (f g : float64) : bool := negb (fleb g f).

Definition feqb (f g : float64) : bool := fleb f g && fleb g f.

(** Products round the exact product. *)
Definition fmul (f g : float64) : float64 :=
  let e := expo f + expo g in
  fround (mant f * mant g * 2 ^ Z.max 0 e) (2 ^ Z.max 0 (- e)).

(** No float64 is this large: an overflow. *)
Definition is_huge (f : float64) : bool := 2 ^ 1024 <=? mant f * 2 ^ Z.max 0 (expo f).

(** The integer part, of a conversion to an integer type. *)
Definition ftrunc (f : float64) : Z :=
  mant f * 2 ^ Z.max 0 (expo f) / 2 ^ Z.max 0 (- expo f).

(** ** Rounding *)

Lemma div_ne_bounds n d : 0 < d → n / d ≤ div_ne n d ≤ n / d + 1.
Proof.
  intros Hd. unfold div_ne. pose proof (Z.mod_pos_bound (n / d) 2).
  repeat case_goal; lia.
Qed.

(** The rounded quotient is within half a unit. *)
Lemma div_ne_error n d : 0 < d → - d ≤ 2 * (div_ne n d * d - n) ≤ d.
Proof.
  intros Hd. unfold div_ne. pose proof (Z.div_mod n d). pose proof (Z.mod_pos_bound n d).
  pose proof (Z.mod_pos_bound (n / d) 2).
  destruct (Z.ltb_spec (2 * (n mod d)) d); [nia|].
  destruct (Z.ltb_spec d (2 * (n mod d))); [nia|].
  assert ((n / d) mod 2 = 0 ∨ (n / d) mod 2 = 1) as [-> | ->] by lia; nia.
Qed.

(** Rounding keeps the integers on the grid below and above a value in order. *)
Lemma div_ne_ge n d k : 0 < d → k * d ≤ n → k ≤ div_ne n d.
Proof. intros Hd Hk. pose proof (div_ne_bounds n d Hd). pose proof (Z.div_le_lower_bound n d k). lia. Qed.

Lemma div_ne_le n d k : 0 < d → n ≤ k * d → div_ne n d ≤ k.
Proof.
  intros Hd Hk. destruct (Z.eq_dec n (k * d)) as [->|Hne].
  - unfold div_ne. rewrite Z.mod_mul, Z.div_mul by lia.
    destruct (Z.ltb_spec (2 * 0) d); lia.
  - pose proof (div_ne_bounds n d Hd). pose proof (Z.div_lt_upper_bound n d k). lia.
Qed.

Lemma div_ne_mono n m d : 0 < d → n ≤ m → div_ne n d ≤ div_ne m d.
Proof.
  intros Hd Hnm. destruct (Z.eq_dec (n / d) (m / d)) as [E|E].
  - unfold div_ne. rewrite <-E. pose proof (Z.mod_pos_bound (n / d) 2).
    assert (Hr : n mod d ≤ m mod d) by (rewrite !Z.mod_eq, <-E by lia; lia).
    destruct (Z.ltb_spec (2 * (n mod d)) d), (Z.ltb_spec (2 * (m mod d)) d),
      (Z.ltb_spec d (2 * (n mod d))), (Z.ltb_spec d (2 * (m mod d))); lia.
  - pose proof (Z.div_le_mono n m d Hd Hnm). pose proof (div_ne_bounds n d Hd).
    pose proof (div_ne_bounds m d Hd). lia.
Qed.

Lemma pow2_pos e : 0 < 2 ^ Z.max 0 e.
Proof. apply Z.pow_pos_nonneg; lia. Qed.
Lemma lead_exponent_upper num den k :
  0 < num → 0 < den → 0 ≤ k → num < den * 2 ^ k → lead_exponent num den ≤ k.
Proof.
  intros Hn Hd Hk Hlt. unfold lead_exponent.
  assert (Z.log2 num - Z.log2 den ≤ k); [|case_goal; lia].
  pose proof (Z.log2_le_mono num (den * 2 ^ k)) as Hmono.
  rewrite Z.log2_mul_pow2 in Hmono by lia. lia.
Qed.

(** Small integers are float64 values. *)
Lemma of_Z_exact n :
  0 ≤ n < 2 ^ 53 → expo (of_Z n) ≤ 0 ∧ mant (of_Z n) = n * 2 ^ (- expo (of_Z n)).
Proof.
  intros Hn. unfold of_Z, fround. destruct (Z.eqb_spec n 0) as [->|Hnz]; [done|]. simpl.
  assert (He : last_exponent n 1 ≤ 0).
  { unfold last_exponent. pose proof (lead_exponent_upper n 1 52) as Hl.
    assert (Z.log2 n < 53) by (apply Z.log2_lt_pow2; lia).
    unfold lead_exponent in *. simpl in *. case_goal; lia. }
  split; [done|]. rewrite (Z.max_l 0 (last_exponent n 1)) by lia.
  rewrite (Z.max_r 0 (- last_exponent n 1)) by lia.
  set (m := n * _). apply Z.le_antisymm; [apply div_ne_le|apply div_ne_ge]; lia.
Qed.

Lemma pow2_split a b : 0 ≤ a → 0 ≤ b → 2 ^ (a + b) = 2 ^ a * 2 ^ b.
Proof. apply Z.pow_add_r. Qed.

(** ** Comparison *)

Lemma scaled_shift f c c' : c' ≤ c ≤ expo f → scaled f c' = scaled f c * 2 ^ (c - c').
Proof.
  intros Hc. unfold scaled. rewrite <-Z.mul_assoc, <-pow2_split by lia. do 2 f_equal. lia.
Qed.

(** Any common exponent decides the comparison. *)
Lemma fleb_at f g c :
  c ≤ common_expo f g → fleb f g = (scaled f c <=? scaled g c).
Proof.
  unfold common_expo. intros Hc. unfold fleb, common_expo. set (m := Z.min (expo f) (expo g)) in *.
  rewrite (scaled_shift f m c), (scaled_shift g m c) by lia.
  pose proof (Z.pow_pos_nonneg 2 (m - c)).
  destruct (Z.leb_spec (scaled f m) (scaled g m)); symmetry; [apply Z.leb_le|apply Z.leb_gt]; nia.
Qed.

Lemma fleb_refl f : fleb f f = true.
Proof. unfold fleb. apply Z.leb_refl. Qed.

Lemma fleb_total f g : fleb f g = true ∨ fleb g f = true.
Proof.
  unfold fleb, common_expo. rewrite (Z.min_comm (expo g)), !Z.leb_le. lia.
Qed.

Lemma fleb_trans f g h : fleb f g = true → fleb g h = true → fleb f h = true.
Proof.
  set (c := Z.min (expo f) (Z.min (expo g) (expo h))).
  rewrite (fleb_at f g c), (fleb_at g h c), (fleb_at f h c) by (unfold common_expo; lia).
  rewrite !Z.leb_le. lia.
Qed.

Lemma fltb_iff f g : fltb f g = true ↔ fleb g f = false.
Proof. unfold fltb. apply negb_true_iff. Qed.

(** Comparison of a small integer with a float64 that has fractional bits. *)
Lemma fleb_of_Z n f :
  0 ≤ n < 2 ^ 53 → expo f ≤ 0 → fleb (of_Z n) f = (n * 2 ^ (- expo f) <=? mant f).
Proof.
  intros Hn Hf. destruct (of_Z_exact n Hn) as [He Hm]. unfold fleb, scaled, common_expo.
  rewrite Hm. set (e := expo (of_Z n)) in *. set (c := Z.min e (expo f)).
  assert (Hc : n * 2 ^ (- e) * 2 ^ (e - c) = n * 2 ^ (- expo f) * 2 ^ (expo f - c)).
  { rewrite <-!Z.mul_assoc, <-!pow2_split by lia. do 2 f_equal. lia. }
  rewrite Hc. pose proof (Z.pow_pos_nonneg 2 (expo f - c)).
  destruct (Z.leb_spec (n * 2 ^ (- expo f)) (mant f)); [apply Z.leb_le|apply Z.leb_gt]; nia.
Qed.
Close Scope Z_scope.
