(* ===== verification/Zip.v ===== *)
(** Entries of a ZIP archive, as archive/zip hands them out: a name, a declared
    size, and a stream of bytes; and the content type of an entry
    (pkg/file-utils/file-utils.go). *)
From S2P Require Import Prelude GoStrings.
From Stdlib Require Import Ascii.

(** A reader delivers its bytes, then the end of the stream or an error. *)
Record Reader := {
  rd_data : string;
  rd_err : option string;
}.

(** [zf_Open] is what Open returns: an error, or a reader of the content. *)
Record ZipFile := {
  zf_Name : string;
  zf_UncompressedSize64 : Z;
  zf_DirAttr : bool;
  zf_Open : string + Reader;
}.

(** FileInfo().IsDir(): the mode of the entry, or a name ending in a slash. *)
Definition IsDir (f : ZipFile) : bool := zf_DirAttr f || HasSuffix (zf_Name f) "/".

Definition MaxInt64 : Z := 2 ^ 63 - 1.
Definition MinInt64 : Z := - 2 ^ 63.
Definition MaxUint64 : Z := 2 ^ 64 - 1.

(** Conversion of a 64-bit pattern to int64. *)
Definition to_int64 (z : Z) : Z := (z + 2 ^ 63) mod 2 ^ 64 - 2 ^ 63.

(** FileInfo().Size(). *)
Definition FileSize (f : ZipFile) : Z := to_int64 (zf_UncompressedSize64 f).

(** [io.ReadAll]. *)
Definition ReadAll (r : Reader) : string + string :=
  match rd_err r with
  | Some err => inl err
  | None => inr (rd_data r)
  end.

(** [io.Copy] from [io.LimitReader(r, limit)]: an error past the limit is not seen. *)
Definition copy_limited (r : Reader) (limit : Z) : string + string :=
  if (limit <=? Z.of_nat (String.length (rd_data r)))%Z
  then inr (str_take (Z.to_nat limit) (rd_data r))
  else ReadAll r.

(** The table of mime.TypeByExtension is read from files of the host, so it is a
    parameter of the definitions that use it. *)
Class MimeTable := TypeByExtension : string → string.

Definition GetFileContentType `{MimeTable} (file : ZipFile) : string :=
  TypeByExtension (filepath_Ext (zf_Name file)).

Lemma to_int64_small z : (0 ≤ z ≤ MaxInt64)%Z → to_int64 z = z.
Proof. unfold to_int64, MaxInt64. intros H. rewrite Z.mod_small; lia. Qed.

(** A copy that succeeds reads at most [limit] bytes, all of them the reader's. *)
Lemma copy_limited_inr r limit data :
  copy_limited r limit = inr data →
  (0 ≤ limit)%Z → (Z.of_nat (String.length data) ≤ limit)%Z ∧ ∃ rest, rd_data r = data +:+ rest.
Proof.
  unfold copy_limited, ReadAll. intros H Hlimit.
  destruct (Z.leb_spec limit (Z.of_nat (String.length (rd_data r)))) as [Hle|Hgt].
  - injection H as <-. pose proof (str_take_drop (Z.to_nat limit) (rd_data r)) as E.
    split; [|by eexists].
    pose proof (str_length_drop (Z.to_nat limit) (rd_data r)) as Hd.
    pose proof (f_equal String.length E) as Hl. rewrite str_length_app, Hd in Hl. lia.
  - destruct (rd_err r); [done|]. injection H as <-. split; [lia|]. exists "".
    by rewrite str_app_nil_r.
Qed.

(** The table mime is compiled with, for the evaluation of examples. *)
Definition builtin_mime : MimeTable := λ extension,
  default "" ((list_to_map
    [(".avif", "image/avif"); (".css", "text/css; charset=utf-8"); (".gif", "image/gif");
     (".htm", "text/html; charset=utf-8"); (".html", "text/html; charset=utf-8");
     (".jpeg", "image/jpeg"); (".jpg", "image/jpeg"); (".js", "text/javascript; charset=utf-8");
     (".json", "application/json"); (".mjs", "text/javascript; charset=utf-8");
     (".pdf", "application/pdf"); (".png", "image/png"); (".svg", "image/svg+xml");
     (".wasm", "application/wasm"); (".webp", "image/webp");
     (".xml", "text/xml; charset=utf-8")] : gmap string string) !! extension).

Definition text_file (name contents : string) : ZipFile :=
  {| zf_Name := name; zf_UncompressedSize64 := Z.of_nat (String.length contents);
     zf_DirAttr := false; zf_Open := inr {| rd_data := contents; rd_err := None |} |}.
