(* ===== verification/Mime.v ===== *)
(** Media types of RFC 2045, as mime.ParseMediaType of the Go library reads them,
    and the Base64 encoding of encoding/base64.  Of the parameters of a media type
    the program only uses that they are well formed. *)
From S2P Require Import Prelude GoStrings.
From Stdlib Require Import Ascii.

(** ** Tokens *)

Definition quote : ascii := byte 34.

Definition is_tspecial (a : ascii) : bool :=
  Contains "()<>@,;:\/[]?=" a || Ascii.eqb a quote.

(** A character of a token: printable ASCII, no space, no tspecial. *)
Definition is_token_char (a : ascii) : bool :=
  (32 <? nat_of_ascii a)%nat && (nat_of_ascii a <? 127)%nat && negb (is_tspecial a).

Fixpoint consumeToken (s : string) : string * string :=
  match s with
  | String a s' =>
      if is_token_char a then let '(token, rest) := consumeToken s' in (String a token, rest)
      else ("", s)
  | EmptyString => ("", "")
  end.

(** The rest of a quoted string, after its opening quote: its value and what
    follows, or [None] for an unterminated one or a line break. *)
Fixpoint consume_quoted (s : string) : option (string * string) :=
  match s with
  | EmptyString => None
  | String a s' =>
      if Ascii.eqb a quote then Some ("", s')
      else
        match Ascii.eqb a "\", s' with
        | true, String b s'' =>
            if is_tspecial b then
              '(value, rest) ← consume_quoted s''; Some (String b value, rest)
            else '(value, rest) ← consume_quoted s'; Some (String a value, rest)
        | _, _ =>
            if Ascii.eqb a (byte 13) || Ascii.eqb a (byte 10) then None
            else '(value, rest) ← consume_quoted s'; Some (String a value, rest)
        end
  end.

Definition consumeValue (v : string) : string * string :=
  match v with
  | String a v' =>
      if Ascii.eqb a quote then default ("", v) (consume_quoted v') else consumeToken v
  | EmptyString => ("", "")
  end.

Definition TrimLeftSpace (s : string) : string :=
  trim_left_any (String.length s) space_encodings s.

(** A parameter "; name = value" and the rest; the name is empty on a failure. *)
Definition consumeMediaParam (v : string) : string * string * string :=
  let none := ("", "", v) in
  let rest := TrimLeftSpace v in
  if negb (HasPrefix rest ";") then none
  else
    let '(param, rest) := consumeToken (TrimLeftSpace (TrimPrefix rest ";")) in
    let param := ToLower param in
    if String.eqb param "" then none
    else
      let rest := TrimLeftSpace rest in
      if negb (HasPrefix rest "=") then none
      else
        let rest := TrimLeftSpace (TrimPrefix rest "=") in
        let '(value, rest2) := consumeValue rest in
        if String.eqb value "" && String.eqb rest2 rest then none
        else (param, value, rest2).

(** The parameters: [None] when one is malformed or repeated with another value.
    Every round consumes at least the semicolon. *)
Fixpoint parse_params (fuel : nat) (params : gmap string string) (v : string) : option unit :=
  match fuel with
  | O => None
  | S fuel =>
      let v := TrimLeftSpace v in
      if String.eqb v "" then Some tt
      else
        let '(key, value, rest) := consumeMediaParam v in
        if String.eqb key "" then
          if String.eqb (TrimSpace rest) ";" then Some tt else None
        else
          match params !! key with
          | Some value' =>
              if String.eqb value' value then parse_params fuel params rest else None
          | None => parse_params fuel (<[key := value]> params) rest
          end
  end.

Definition checkMediaTypeDisposition (s : string) : bool :=
  let '(typ, rest) := consumeToken s in
  if String.eqb typ "" then false
  else if String.eqb rest "" then true
  else if negb (HasPrefix rest "/") then false
  else
    let '(subtype, rest) := consumeToken (TrimPrefix rest "/") in
    negb (String.eqb subtype "") && String.eqb rest "".

(** [mime.ParseMediaType]: the media type, [None] on an error. *)
Definition ParseMediaType (v : string) : option string :=
  let '(base, _, _) := Cut v ";" in
  let mediatype := TrimSpace (ToLower base) in
  if negb (checkMediaTypeDisposition mediatype) then None
  else
    _ ← parse_params (S (String.length v)) ∅ (str_drop (String.length base) v);
    Some mediatype.

(** ** Base64 *)

Definition base64_alphabet : string :=
  "ABCDEFGHIJKLMNOPQRSTUVWXYZabcdefghijklmnopqrstuvwxyz0123456789+/".

Definition base64_digit (n : N) : ascii :=
  default "A"%char (String.get (N.to_nat (n mod 64)) base64_alphabet).

Definition byte_N (a : ascii) : N := N_of_ascii a.

(** [base64.StdEncoding.EncodeToString]. *)
Fixpoint base64_encode (s : string) : string :=
  match s with
  | EmptyString => ""
  | String a EmptyString =>
      let n := (byte_N a * 65536)%N in
      String (base64_digit (n / 262144)) (String (base64_digit (n / 4096)) "==")
  | String a (String b EmptyString) =>
      let n := (byte_N a * 65536 + byte_N b * 256)%N in
      String (base64_digit (n / 262144)) (String (base64_digit (n / 4096))
        (String (base64_digit (n / 64)) "="))
  | String a (String b (String c s)) =>
      let n := (byte_N a * 65536 + byte_N b * 256 + byte_N c)%N in
      String (base64_digit (n / 262144)) (String (base64_digit (n / 4096))
        (String (base64_digit (n / 64)) (String (base64_digit n) (base64_encode s))))
  end.

Lemma base64_length s :
  String.length (base64_encode s) = (String.length s + 2) / 3 * 4.
Proof.
  assert (H : ∀ n s, String.length s ≤ n → String.length (base64_encode s) = (String.length s + 2) / 3 * 4).
  { induction n as [|n IH]; intros [|a [|b [|c s']]] Hs; try done; simpl in Hs; [lia..|].
    change (base64_encode (String a (String b (String c s')))) with
      (String (base64_digit ((byte_N a * 65536 + byte_N b * 256 + byte_N c) / 262144))
        (String (base64_digit ((byte_N a * 65536 + byte_N b * 256 + byte_N c) / 4096))
        (String (base64_digit ((byte_N a * 65536 + byte_N b * 256 + byte_N c) / 64))
        (String (base64_digit (byte_N a * 65536 + byte_N b * 256 + byte_N c)) (base64_encode s'))))).
    simpl String.length at 1. rewrite IH by lia. simpl String.length.
    replace (S (S (S (String.length s'))) + 2) with (1 * 3 + (String.length s' + 2)) by lia.
    rewrite Nat.div_add_l by lia. lia. }
  by apply (H (String.length s)).
Qed.
