(* ===== verification/Storage.v ===== *)
(** The object storage manager (internal/storage/objectstorage-manager.go), on
    top of the minio client, which the sources only call.

    The client is the class [ObjectStorageClient], an operation per method of
    the interface of objectstorage-client.go, on an abstract state of the storage
    service; [ClientLaws] is what S3 documents of these operations.  The manager
    is defined over the client, and the class [ObjectStorageManager] with
    [ManagerLaws] is the interface it offers to the content service: the laws
    speak of [view], the objects of the bucket by key. *)
From S2P Require Import Prelude Order GoStrings Errors Zip.
From Stdlib Require Import Ascii.

(** ** The client *)

Record PutObjectOptions := {
  ContentType : string;
  UserMetadata : gmap string string;
}.

(** An object as stored: its bytes and what was recorded with them. *)
Record StoredObject := {
  so_data : string;
  so_options : PutObjectOptions;
}.

(** One value of a listing: an object, or an error of the listing. *)
Record ObjectInfo := {
  Key : string;
  Size : Z;
  ObjErr : option string;
}.

Record ListObjectsOptions := {
  Prefix : string;
  Recursive : bool;
  MaxKeys : Z;
  StartAfter : string;
}.

Record RemoveObjectError := {
  re_ObjectName : string;
  re_Err : option string;
}.

(** The lazy object the client returns: nothing is read before it is used. *)
Record Object := { object_key : string }.

Class ObjectStorageClient (C : Type) := {
  cl_MakeBucket : C → string → string → option string * C;
  cl_BucketExists : C → string → bool * option string;
  cl_PutObject : C → string → string → Reader → Z → PutObjectOptions → option string * C;
  cl_GetObject : C → string → string → Object + string;
  cl_Stat : C → string → Object → option StoredObject;
  cl_ListObjects : C → string → ListObjectsOptions → list ObjectInfo;
  cl_RemoveObjects : C → string → list ObjectInfo → list RemoveObjectError * C;
}.

(** ** The manager *)

Record objectStorageManager (C : Type) := {
  client : C;
  bucketName : string;
  location : string;
}.
Arguments client {C} _.
Arguments bucketName {C} _.
Arguments location {C} _.

Definition IntegrityMetadataKey : string := "gimme-sri".
Definition CanonicalIntegrityMetadataKey : string := "Gimme-Sri".

Inductive RemoveKindErrorEnum := Read | Delete.

Record RemoveError := {
  rm_Kind : RemoveKindErrorEnum;
  rm_ObjectName : string;
  rm_Details : string;
}.

(** The %v form of the list of errors. *)
Definition show_RemoveError (e : RemoveError) : string :=
  "{" +:+ (match rm_Kind e with Read => "Read" | Delete => "Delete" end) +:+ " " +:+
  rm_ObjectName e +:+ " " +:+ rm_Details e +:+ "}".

Definition show_RemoveErrors (l : list RemoveError) : string :=
  "[" +:+ Join (map show_RemoveError l) " " +:+ "]".

Section manager.
Context {C : Type} `{ObjectStorageClient C} `{MimeTable}.
Implicit Types osm : objectStorageManager C.

Definition set_client osm (c : C) : objectStorageManager C :=
  {| client := c; bucketName := bucketName osm; location := location osm |}.

Definition NewObjectStorageManager (c : C) : objectStorageManager C :=
  {| client := c; bucketName := ""; location := "" |}.

Definition CreateBucket osm (bucket loc : string) : option GimmeError * objectStorageManager C :=
  let '(err, c) := cl_MakeBucket (client osm) bucket loc in
  let created := {| client := c; bucketName := bucket; location := loc |} in
  match err with
  | None => (None, created)
  | Some _ =>
      match cl_BucketExists c bucket with
      | (true, None) => (None, created)
      | _ => (Some (NewBusinessError InternalError
                (Some ("fail to create bucket " +:+ bucket +:+ " in location " +:+ loc))),
              set_client osm c)
      end
  end.

Definition integrity_metadata (integrity : string) : gmap string string :=
  if String.eqb integrity "" then ∅ else {[ IntegrityMetadataKey := integrity ]}.

Definition put_error (objectName : string) : GimmeError :=
  NewBusinessError InternalError
    (Some ("fail to put object " +:+ objectName +:+ " in the object storage")).

Definition AddBytes osm (objectName data contentType integrity : string)
    : option GimmeError * objectStorageManager C :=
  let opts := {| ContentType := contentType; UserMetadata := integrity_metadata integrity |} in
  let '(err, c) := cl_PutObject (client osm) (bucketName osm) objectName
    {| rd_data := data; rd_err := None |} (Z.of_nat (String.length data)) opts in
  match err with
  | Some _ => (Some (put_error objectName), set_client osm c)
  | None => (None, set_client osm c)
  end.

(** The options an archive entry is stored with. *)
Definition entry_options (file : ZipFile) (integrity : string) : PutObjectOptions :=
  let contentType := GetFileContentType file in
  {| ContentType := if String.eqb contentType "" then "text/plain" else contentType;
     UserMetadata := integrity_metadata integrity |}.

(** The bytes of an entry that are stored: as many as its declared size. *)
Definition entry_content (file : ZipFile) : string :=
  match zf_Open file with
  | inl _ => ""
  | inr src => str_take (Z.to_nat (FileSize file)) (rd_data src)
  end.

Definition entry_object (file : ZipFile) (integrity : string) : StoredObject :=
  {| so_data := entry_content file; so_options := entry_options file integrity |}.

Definition AddObject osm (objectName : string) (file : ZipFile) (integrity : string)
    : option GimmeError * objectStorageManager C :=
  if IsDir file then (None, osm)
  else
    match zf_Open file with
    | inl _ => (Some (NewBusinessError InternalError
                 (Some "addObject - Fail to open input file")), osm)
    | inr src =>
        let '(err, c) := cl_PutObject (client osm) (bucketName osm) objectName src
          (FileSize file) (entry_options file integrity) in
        match err with
        | Some _ => (Some (put_error objectName), set_client osm c)
        | None => (None, set_client osm c)
        end
    end.

Definition GetObject osm (objectName : string) : result Object :=
  match cl_GetObject (client osm) (bucketName osm) objectName with
  | inr _ => fail InternalError ("fail to get object " +:+ objectName +:+ " from the object storage")
  | inl object => Ok object
  end.

Definition is_object (o : ObjectInfo) : bool := match ObjErr o with None => true | Some _ => false end.

Definition list_options (prefix : string) (recursive : bool) : ListObjectsOptions :=
  {| Prefix := prefix; Recursive := recursive; MaxKeys := 0; StartAfter := "" |}.

Definition ListObjects osm (objectParentName : string) : list ObjectInfo :=
  filter is_object (cl_ListObjects (client osm) (bucketName osm) (list_options objectParentName true)).

(** The loop over the channel: at most [limit] objects, and whether one follows. *)
Fixpoint take_page (limit : nat) (acc : list ObjectInfo) (channel : list ObjectInfo)
    : list ObjectInfo * bool :=
  match channel with
  | [] => (acc, false)
  | object :: channel =>
      if negb (is_object object) then take_page limit acc channel
      else if (length acc =? limit)%nat then (acc, true)
      else take_page limit (acc ++ [object]) channel
  end.

Definition ListObjectsPage osm (prefix after : string) (limit : nat) : list ObjectInfo * bool :=
  take_page limit []
    (cl_ListObjects (client osm) (bucketName osm)
       {| Prefix := prefix; Recursive := true; MaxKeys := Z.of_nat limit + 1; StartAfter := after |}).

Definition ListCommonPrefixes osm (prefix : string) : list string :=
  map Key (filter is_object
    (cl_ListObjects (client osm) (bucketName osm) (list_options prefix false))).

Definition ObjectExists osm (objectName : string) : bool :=
  existsb is_object
    (cl_ListObjects (client osm) (bucketName osm) (list_options (objectName +:+ "/") true)).

Definition Ping osm : option GimmeError :=
  match cl_BucketExists (client osm) (bucketName osm) with
  | (_, Some _) => Some (NewBusinessError InternalError (Some "object storage is unreachable"))
  | (false, None) => Some (NewBusinessError InternalError
                       (Some ("bucket " +:+ bucketName osm +:+ " does not exist")))
  | (true, None) => None
  end.

(** The listing feeds the removal through a channel; the errors of both sides are
    collected, those of the listing first. *)
Definition RemoveObjects osm (objectParentName : string)
    : option GimmeError * objectStorageManager C :=
  let listed :=
    cl_ListObjects (client osm) (bucketName osm) (list_options objectParentName true) in
  let readErrors :=
    omap (λ o, match ObjErr o with
               | Some err => Some {| rm_Kind := Read; rm_ObjectName := Key o; rm_Details := err |}
               | None => None
               end) listed in
  let '(rErrs, c) := cl_RemoveObjects (client osm) (bucketName osm) (filter is_object listed) in
  let deleteErrors :=
    map (λ e, {| rm_Kind := Delete; rm_ObjectName := re_ObjectName e;
                 rm_Details := default "" (re_Err e) |}) rErrs in
  let removeErrors := readErrors ++ deleteErrors in
  if (length removeErrors =? 0)%nat then (None, set_client osm c)
  else (Some (NewBusinessError InternalError
          (Some ("error while removing objects. Details : " +:+ show_RemoveErrors removeErrors))),
        set_client osm c).
End manager.

(** ** The interface of the manager *)

Class ObjectStorageManager (S : Type) := {
  osm_CreateBucket : S → string → string → option GimmeError * S;
  osm_AddObject : S → string → ZipFile → string → option GimmeError * S;
  osm_AddBytes : S → string → string → string → string → option GimmeError * S;
  osm_GetObject : S → string → result Object;
  osm_Stat : S → Object → option StoredObject;
  osm_ObjectExists : S → string → bool;
  osm_ListObjects : S → string → list ObjectInfo;
  osm_ListObjectsPage : S → string → string → nat → list ObjectInfo * bool;
  osm_ListCommonPrefixes : S → string → list string;
  osm_RemoveObjects : S → string → option GimmeError * S;
  osm_Ping : S → option GimmeError;
}.

#[export] Instance manager_impl {C} `{ObjectStorageClient C} `{MimeTable} :
    ObjectStorageManager (objectStorageManager C) := {|
  osm_CreateBucket := CreateBucket;
  osm_AddObject := AddObject;
  osm_AddBytes := AddBytes;
  osm_GetObject := GetObject;
  osm_Stat osm o := cl_Stat (client osm) (bucketName osm) o;
  osm_ObjectExists := ObjectExists;
  osm_ListObjects := ListObjects;
  osm_ListObjectsPage := ListObjectsPage;
  osm_ListCommonPrefixes := ListCommonPrefixes;
  osm_RemoveObjects := RemoveObjects;
  osm_Ping := Ping;
|}.

(** What a non-recursive listing shows for a key: the key itself, or the common
    prefix up to the first slash after [prefix]. *)
Definition group_key (prefix key : string) : string :=
  let '(name, _, found) := Cut (TrimPrefix key prefix) "/" in
  if found then prefix +:+ name +:+ "/" else key.

(** The objects of a listing of a bucket. *)
Definition listed_key (view : gmap string StoredObject) (opts : ListObjectsOptions) (key : string) : Prop :=
  if Recursive opts then
    is_Some (view !! key) ∧ HasPrefix key (Prefix opts) = true ∧
    (StartAfter opts = "" ∨ str_lt (StartAfter opts) key)
  else
    ∃ key', is_Some (view !! key') ∧ HasPrefix key' (Prefix opts) = true ∧
      key = group_key (Prefix opts) key'.

Definition not_below (prefix : string) (kv : string * StoredObject) : Prop :=
  HasPrefix kv.1 prefix = false.

#[export] Instance not_below_dec prefix kv : Decision (not_below prefix kv).
Proof. unfold not_below. apply _. Defined.

(** What S3 and the client document.  A listing without an error is complete; the
    objects of a listing with errors exist.  An upload that succeeds has stored the
    first n bytes of the stream, the size it was given; one that fails has left the object
    as it was or, when only the answer was lost, stored it whole: S3 never adds a part of
    an object.  Nothing else changes.  A recursive listing is in the order of the keys; in
    another one the objects of a page come before its common prefixes, each of them once. *)
Class ClientLaws (C : Type) `{ObjectStorageClient C} := {
  cl_view : C → string → gmap string StoredObject;
  cl_Put_ok c b k r n opts c' :
    cl_PutObject c b k r n opts = (None, c') → (0 ≤ n)%Z →
    (n ≤ Z.of_nat (String.length (rd_data r)))%Z ∧
    cl_view c' b =
      <[k := {| so_data := str_take (Z.to_nat n) (rd_data r); so_options := opts |}]> (cl_view c b);
  cl_Put_whole c b k r n opts err c' :
    cl_PutObject c b k r n opts = (err, c') → (0 ≤ n)%Z →
    cl_view c' b !! k = cl_view c b !! k ∨
    cl_view c' b !! k = Some {| so_data := str_take (Z.to_nat n) (rd_data r); so_options := opts |};
  cl_Put_frame c b k r n opts err c' k' :
    cl_PutObject c b k r n opts = (err, c') → k' ≠ k →
    cl_view c' b !! k' = cl_view c b !! k';
  cl_Get_key c b k o : cl_GetObject c b k = inl o → object_key o = k;
  cl_Stat_ok c b o so : cl_Stat c b o = Some so → cl_view c b !! object_key o = Some so;
  cl_List_sound c b opts o :
    o ∈ cl_ListObjects c b opts → ObjErr o = None → listed_key (cl_view c b) opts (Key o);
  cl_List_complete c b opts key :
    Forall (λ o, ObjErr o = None) (cl_ListObjects c b opts) →
    listed_key (cl_view c b) opts key → key ∈ map Key (cl_ListObjects c b opts);
  cl_List_sorted c b opts :
    Recursive opts = true → StronglySorted str_lt (map Key (filter is_object (cl_ListObjects c b opts)));
  cl_List_nodup c b opts :
    Recursive opts = false → NoDup (map Key (filter is_object (cl_ListObjects c b opts)));
  cl_Remove_ok c b objs c' k :
    cl_RemoveObjects c b objs = ([], c') →
    cl_view c' b !! k = if decide (k ∈ map Key objs) then None else cl_view c b !! k;
  cl_Remove_frame c b objs errs c' :
    cl_RemoveObjects c b objs = (errs, c') →
    cl_view c' b ⊆ cl_view c b ∧
    ∀ k, k ∉ map Key objs → cl_view c' b !! k = cl_view c b !! k;
}.

(** What the manager promises the content service. *)
Class ManagerLaws (S : Type) `{ObjectStorageManager S} `{MimeTable} := {
  osm_view : S → gmap string StoredObject;
  (** No listing of this state fails. *)
  osm_reliable : S → Prop;
  osm_AddObject_ok s k f i s' :
    osm_AddObject s k f i = (None, s') → IsDir f = false → (0 ≤ FileSize f)%Z →
    osm_view s' = <[k := entry_object f i]> (osm_view s);
  osm_AddObject_whole s k f i err s' :
    osm_AddObject s k f i = (err, s') → (0 ≤ FileSize f)%Z →
    osm_view s' !! k = osm_view s !! k ∨ osm_view s' !! k = Some (entry_object f i);
  osm_AddObject_err s k f i e s' : osm_AddObject s k f i = (Some e, s') → is_Some (Err e);
  osm_AddObject_frame s k f i err s' k' :
    osm_AddObject s k f i = (err, s') → k' ≠ k → osm_view s' !! k' = osm_view s !! k';
  osm_AddBytes_ok s k data ct i s' :
    osm_AddBytes s k data ct i = (None, s') →
    osm_view s' = <[k := {| so_data := data;
      so_options := {| ContentType := ct; UserMetadata := integrity_metadata i |} |}]> (osm_view s);
  osm_AddBytes_whole s k data ct i err s' :
    osm_AddBytes s k data ct i = (err, s') →
    osm_view s' !! k = osm_view s !! k ∨
    osm_view s' !! k = Some {| so_data := data;
      so_options := {| ContentType := ct; UserMetadata := integrity_metadata i |} |};
  osm_AddBytes_err s k data ct i e s' : osm_AddBytes s k data ct i = (Some e, s') → is_Some (Err e);
  osm_AddBytes_frame s k data ct i err s' k' :
    osm_AddBytes s k data ct i = (err, s') → k' ≠ k → osm_view s' !! k' = osm_view s !! k';
  osm_Get_key s k o : osm_GetObject s k = Ok o → object_key o = k;
  osm_Stat_ok s o so : osm_Stat s o = Some so → osm_view s !! object_key o = Some so;
  osm_Exists_sound s name :
    osm_ObjectExists s name = true →
    ∃ k, is_Some (osm_view s !! k) ∧ HasPrefix k (name +:+ "/") = true;
  osm_Exists_complete s name k :
    osm_reliable s → is_Some (osm_view s !! k) → HasPrefix k (name +:+ "/") = true →
    osm_ObjectExists s name = true;
  osm_Prefixes_spec s prefix key :
    osm_reliable s →
    key ∈ osm_ListCommonPrefixes s prefix ↔
    ∃ key', is_Some (osm_view s !! key') ∧ HasPrefix key' prefix = true ∧ key = group_key prefix key';
  osm_Prefixes_sound s prefix key :
    key ∈ osm_ListCommonPrefixes s prefix →
    ∃ key', is_Some (osm_view s !! key') ∧ HasPrefix key' prefix = true ∧ key = group_key prefix key';
  osm_Prefixes_nodup s prefix : NoDup (osm_ListCommonPrefixes s prefix);
  osm_List_spec s prefix :
    osm_reliable s →
    StronglySorted str_lt (map Key (osm_ListObjects s prefix)) ∧
    ∀ key, key ∈ map Key (osm_ListObjects s prefix) ↔
      is_Some (osm_view s !! key) ∧ HasPrefix key prefix = true;
  osm_Page_spec s prefix after limit :
    osm_reliable s →
    ∃ l, StronglySorted str_lt (map Key l) ∧
      (∀ key, key ∈ map Key l ↔ is_Some (osm_view s !! key) ∧ HasPrefix key prefix = true ∧
                              (after = "" ∨ str_lt after key)) ∧
      osm_ListObjectsPage s prefix after limit = (take limit l, bool_decide (limit < length l)%nat);
  osm_Remove_ok s prefix s' :
    osm_RemoveObjects s prefix = (None, s') →
    osm_view s' = filter (not_below prefix) (osm_view s);
  osm_Remove_frame s prefix err s' :
    osm_RemoveObjects s prefix = (err, s') →
    osm_view s' ⊆ osm_view s ∧
    ∀ k, HasPrefix k prefix = false → osm_view s' !! k = osm_view s !! k;
}.

(** ** The manager keeps its promises *)

Lemma is_object_iff o : is_object o = true ↔ ObjErr o = None.
Proof. unfold is_object. by destruct (ObjErr o). Qed.

Lemma elem_of_filter_object o (l : list ObjectInfo) : o ∈ filter is_object l ↔ ObjErr o = None ∧ o ∈ l.
Proof. by rewrite list_elem_of_filter, <-is_object_iff, Is_true_true. Qed.

Lemma filter_all_objects (l : list ObjectInfo) : Forall (λ o, ObjErr o = None) l → filter is_object l = l.
Proof.
  induction 1 as [|o l Ho Hl IH]; [done|]. rewrite filter_cons_True, IH; [done|].
  by apply Is_true_true, is_object_iff.
Qed.

Lemma take_page_spec limit (acc channel : list ObjectInfo) :
  (length acc ≤ limit)%nat →
  take_page limit acc channel =
  (take limit (acc ++ filter is_object channel),
   bool_decide (limit < length (acc ++ filter is_object channel))%nat).
Proof.
  revert acc. induction channel as [|o channel IH]; intros acc Hacc; simpl.
  - rewrite app_nil_r, take_ge by done. rewrite bool_decide_false by lia. done.
  - destruct (is_object o) eqn:Ho; simpl.
    + rewrite filter_cons_True by (by rewrite Ho). destruct (Nat.eqb_spec (length acc) limit) as [Heq|Hne].
      * rewrite take_app_length' by done. f_equal. symmetry. apply bool_decide_true.
        rewrite length_app. simpl. lia.
      * rewrite IH by (rewrite length_app; simpl; lia). by rewrite <-app_assoc.
    + rewrite filter_cons_False by (rewrite Ho; by intros []). by apply IH.
Qed.

Section manager_laws.
Context {C : Type} `{ClientLaws C} `{MimeTable}.
Implicit Types osm : objectStorageManager C.

Definition manager_view osm : gmap string StoredObject := cl_view (client osm) (bucketName osm).

(** No listing of the bucket delivers an error. *)
Definition listing_reliable osm : Prop :=
  ∀ opts, Forall (λ o, ObjErr o = None) (cl_ListObjects (client osm) (bucketName osm) opts).

Lemma reliable_listing osm opts key :
  listing_reliable osm →
  key ∈ map Key (filter is_object (cl_ListObjects (client osm) (bucketName osm) opts)) ↔
  listed_key (manager_view osm) opts key.
Proof.
  intros Hrel. rewrite filter_all_objects by done. split.
  - intros (o & -> & Ho)%list_elem_of_fmap. eapply cl_List_sound; [done|].
    specialize (Hrel opts). rewrite Forall_forall in Hrel. by apply Hrel.
  - apply cl_List_complete, Hrel.
Qed.

Lemma AddObject_ok osm k f i osm' :
  AddObject osm k f i = (None, osm') → IsDir f = false → (0 ≤ FileSize f)%Z →
  manager_view osm' = <[k := entry_object f i]> (manager_view osm).
Proof.
  unfold AddObject, entry_object, entry_content. intros Hadd Hdir Hsize. rewrite Hdir in Hadd.
  destruct (zf_Open f) as [|r]; [done|].
  destruct (cl_PutObject _ _ _ _ _ _) as [[e|] c] eqn:HP; [done|]. injection Hadd as <-.
  by apply (cl_Put_ok _ _ _ _ _ _ _ HP).
Qed.

Lemma AddObject_whole osm k f i err osm' :
  AddObject osm k f i = (err, osm') → (0 ≤ FileSize f)%Z →
  manager_view osm' !! k = manager_view osm !! k ∨ manager_view osm' !! k = Some (entry_object f i).
Proof.
  unfold AddObject, entry_object, entry_content. intros Hadd Hsize. destruct (IsDir f); [left; by injection Hadd as _ <-|].
  destruct (zf_Open f) as [|r]; [left; by injection Hadd as _ <-|].
  destruct (cl_PutObject _ _ _ _ _ _) as [e c] eqn:HP. assert (osm' = set_client osm c) as -> by (destruct e; by simplify_eq).
  by apply (cl_Put_whole _ _ _ _ _ _ _ _ HP).
Qed.

Lemma AddBytes_whole osm k data ct i err osm' :
  AddBytes osm k data ct i = (err, osm') →
  manager_view osm' !! k = manager_view osm !! k ∨
  manager_view osm' !! k = Some {| so_data := data;
    so_options := {| ContentType := ct; UserMetadata := integrity_metadata i |} |}.
Proof.
  unfold AddBytes. intros Hadd. destruct (cl_PutObject _ _ _ _ _ _) as [e c] eqn:HP.
  assert (osm' = set_client osm c) as -> by (destruct e; by simplify_eq).
  destruct (cl_Put_whole _ _ _ _ _ _ _ _ HP) as [?|Hput]; [lia|by left|right]. unfold manager_view. cbn.
  cbn in Hput. by rewrite Hput, Nat2Z.id, str_take_all.
Qed.

Lemma AddObject_err osm k f i e osm' : AddObject osm k f i = (Some e, osm') → is_Some (Err e).
Proof.
  unfold AddObject. intros Hadd. repeat (case_match; try done); simplify_eq; by eexists.
Qed.

Lemma AddBytes_err osm k data ct i e osm' : AddBytes osm k data ct i = (Some e, osm') → is_Some (Err e).
Proof. unfold AddBytes. intros Hadd. repeat (case_match; try done); simplify_eq; by eexists. Qed.

Lemma AddObject_frame osm k f i err osm' k' :
  AddObject osm k f i = (err, osm') → k' ≠ k → manager_view osm' !! k' = manager_view osm !! k'.
Proof.
  unfold AddObject. intros Hadd Hk. destruct (IsDir f); [by simplify_eq|].
  destruct (zf_Open f); [by simplify_eq|].
  destruct (cl_PutObject _ _ _ _ _ _) as [[e|] c] eqn:HP; simplify_eq;
    unfold manager_view; simpl; by eapply cl_Put_frame.
Qed.

Lemma AddBytes_ok osm k data ct i osm' :
  AddBytes osm k data ct i = (None, osm') →
  manager_view osm' = <[k := {| so_data := data;
    so_options := {| ContentType := ct; UserMetadata := integrity_metadata i |} |}]> (manager_view osm).
Proof.
  unfold AddBytes. intros Hadd.
  destruct (cl_PutObject _ _ _ _ _ _) as [[e|] c] eqn:HP; simplify_eq.
  unfold manager_view. simpl. destruct (cl_Put_ok _ _ _ _ _ _ _ HP) as [_ ->]; [lia|].
  simpl. by rewrite Nat2Z.id, str_take_all.
Qed.

Lemma AddBytes_frame osm k data ct i err osm' k' :
  AddBytes osm k data ct i = (err, osm') → k' ≠ k →
  manager_view osm' !! k' = manager_view osm !! k'.
Proof.
  unfold AddBytes. intros Hadd Hk.
  destruct (cl_PutObject _ _ _ _ _ _) as [[e|] c] eqn:HP; simplify_eq;
    unfold manager_view; simpl; by eapply cl_Put_frame.
Qed.

Lemma ObjectExists_sound osm name :
  ObjectExists osm name = true →
  ∃ k, is_Some (manager_view osm !! k) ∧ HasPrefix k (name +:+ "/") = true.
Proof.
  unfold ObjectExists. intros (o & Ho & Hobj)%existsb_exists.
  apply list_elem_of_In in Ho. apply is_object_iff in Hobj.
  destruct (cl_List_sound _ _ _ _ Ho Hobj) as (Hk & Hp & _). by exists (Key o).
Qed.

Lemma ObjectExists_complete osm name k :
  listing_reliable osm → is_Some (manager_view osm !! k) → HasPrefix k (name +:+ "/") = true →
  ObjectExists osm name = true.
Proof.
  intros Hrel Hk Hp. apply existsb_exists.
  assert (Hin : k ∈ map Key (cl_ListObjects (client osm) (bucketName osm)
                               (list_options (name +:+ "/") true))).
  { apply cl_List_complete; [apply Hrel|]. split; [done|]. split; [done|]. by left. }
  apply list_elem_of_fmap in Hin as (o & -> & Ho). exists o.
  split; [by apply list_elem_of_In|]. apply is_object_iff.
  specialize (Hrel (list_options (name +:+ "/") true)). rewrite Forall_forall in Hrel. auto.
Qed.

Lemma Page_spec osm prefix after limit :
  listing_reliable osm →
  ∃ l, StronglySorted str_lt (map Key l) ∧
    (∀ key, key ∈ map Key l ↔ is_Some (manager_view osm !! key) ∧ HasPrefix key prefix = true ∧
                            (after = "" ∨ str_lt after key)) ∧
    ListObjectsPage osm prefix after limit = (take limit l, bool_decide (limit < length l)%nat).
Proof.
  intros Hrel. unfold ListObjectsPage. rewrite take_page_spec by (simpl; lia). simpl.
  eexists. split; [|split; [|reflexivity]]; [by apply cl_List_sorted|].
  intros key. by rewrite reliable_listing.
Qed.

Lemma List_spec osm prefix :
  listing_reliable osm →
  StronglySorted str_lt (map Key (ListObjects osm prefix)) ∧
  ∀ key, key ∈ map Key (ListObjects osm prefix) ↔
    is_Some (manager_view osm !! key) ∧ HasPrefix key prefix = true.
Proof.
  intros Hrel. split; [by apply cl_List_sorted|]. intros key. unfold ListObjects.
  rewrite reliable_listing by done. unfold listed_key, list_options. simpl. naive_solver.
Qed.

Lemma omap_none {A B} (f : A → option B) l : omap f l = [] ↔ Forall (λ x, f x = None) l.
Proof.
  induction l as [|x l IH]; csimpl; [done|].
  rewrite Forall_cons, <-IH. destruct (f x); naive_solver.
Qed.

Lemma RemoveObjects_ok osm prefix osm' :
  RemoveObjects osm prefix = (None, osm') →
  manager_view osm' = filter (not_below prefix) (manager_view osm).
Proof.
  unfold RemoveObjects. intros Hrm.
  destruct (cl_RemoveObjects _ _ _) as [errs c] eqn:HR.
  destruct (Nat.eqb_spec (length (omap (λ o, match ObjErr o with
    | Some err => Some {| rm_Kind := Read; rm_ObjectName := Key o; rm_Details := err |}
    | None => None end) (cl_ListObjects (client osm) (bucketName osm) (list_options prefix true)) ++
    map (λ e, {| rm_Kind := Delete; rm_ObjectName := re_ObjectName e;
      rm_Details := default "" (re_Err e) |}) errs)) 0) as [Hnil|]; [|done].
  injection Hrm as <-. apply nil_length_inv, app_nil in Hnil as [Hread Hdel].
  apply map_eq_nil in Hdel as ->. apply omap_none in Hread.
  assert (Hok : Forall (λ o, ObjErr o = None)
    (cl_ListObjects (client osm) (bucketName osm) (list_options prefix true))).
  { eapply Forall_impl; [exact Hread|]. intros o. simpl. by destruct (ObjErr o). }
  rewrite filter_all_objects in HR by done.
  apply map_eq. intros k. unfold manager_view at 1. simpl.
  rewrite (cl_Remove_ok _ _ _ _ k HR). rewrite map_lookup_filter.
  fold (manager_view osm). case_decide as Hin.
  - apply list_elem_of_fmap in Hin as (o & -> & Ho).
    rewrite Forall_forall in Hok.
    destruct (cl_List_sound _ _ _ _ Ho (Hok _ Ho)) as (_ & Hp & _).
    destruct (manager_view osm !! Key o); simpl; [|done].
    unfold not_below. simpl in *. by rewrite option_guard_False by congruence.
  - destruct (manager_view osm !! k) as [so|] eqn:Hk; simpl; [|done].
    rewrite option_guard_True; [done|]. unfold not_below. simpl.
    apply not_true_iff_false. intros Hp. apply Hin. apply cl_List_complete; [done|].
    split; [by eexists|]. split; [done|]. by left.
Qed.

Lemma RemoveObjects_frame osm prefix err osm' :
  RemoveObjects osm prefix = (err, osm') →
  manager_view osm' ⊆ manager_view osm ∧
  ∀ k, HasPrefix k prefix = false → manager_view osm' !! k = manager_view osm !! k.
Proof.
  unfold RemoveObjects. intros Hrm.
  destruct (cl_RemoveObjects _ _ _) as [errs c] eqn:HR.
  assert (osm' = set_client osm c) as ->.
  { by destruct (length _ =? 0)%nat; simplify_eq. }
  destruct (cl_Remove_frame _ _ _ _ _ HR) as [Hsub Hframe]. split; [done|].
  intros k Hp. apply Hframe. intros (o & -> & [Ho Hin]%elem_of_filter_object)%list_elem_of_fmap.
  destruct (cl_List_sound _ _ _ _ Hin Ho) as (_ & Hp' & _). simpl in Hp'. congruence.
Qed.

#[export] Instance manager_laws : ManagerLaws (objectStorageManager C).
Proof.
  refine {| osm_view := manager_view; osm_reliable := listing_reliable |}; simpl.
  - apply AddObject_ok.
  - apply AddObject_whole.
  - apply AddObject_err.
  - apply AddObject_frame.
  - apply AddBytes_ok.
  - apply AddBytes_whole.
  - apply AddBytes_err.
  - apply AddBytes_frame.
  - intros osm k o. unfold GetObject. destruct (cl_GetObject _ _ _) eqn:E; [|done].
    intros [= <-]. by eapply cl_Get_key.
  - intros osm o so. apply cl_Stat_ok.
  - apply ObjectExists_sound.
  - apply ObjectExists_complete.
  - intros osm prefix key Hrel. unfold ListCommonPrefixes. by rewrite reliable_listing.
  - intros osm prefix key (o & -> & [Ho Hin]%elem_of_filter_object)%list_elem_of_fmap.
    by apply (cl_List_sound _ _ _ _ Hin Ho).
  - intros osm prefix. by apply cl_List_nodup.
  - apply List_spec.
  - apply Page_spec.
  - apply RemoveObjects_ok.
  - apply RemoveObjects_frame.
Defined.
End manager_laws.

(** ** Properties *)

Section storage_properties.
Context {C : Type} `{ClientLaws C} `{MimeTable}.

(** Removal is confined and, when it reports success, complete.  Whatever
    [RemoveObjects] answers, no object is added or changed and those outside the
    prefix all stay; when it answers no error, exactly the objects under the prefix
    are gone. *)
Theorem RemoveObjects_confined (osm osm' : objectStorageManager C) (prefix : string) err :
  RemoveObjects osm prefix = (err, osm') →
  manager_view osm' ⊆ manager_view osm ∧
  (∀ key, HasPrefix key prefix = false → manager_view osm' !! key = manager_view osm !! key) ∧
  (err = None → manager_view osm' = filter (not_below prefix) (manager_view osm)).
Proof.
  intros Hrm. destruct (RemoveObjects_frame _ _ _ _ Hrm) as [Hsub Hframe].
  split; [done|]. split; [done|]. intros ->. by eapply RemoveObjects_ok.
Qed.

(** Existence is that of a directory.  When no listing fails, [ObjectExists name]
    holds exactly when some object lies under name/, so a name that is only a prefix
    of another one does not exist. *)
Theorem ObjectExists_directory (osm : objectStorageManager C) (name : string) :
  listing_reliable osm →
  ObjectExists osm name = true ↔
  ∃ key, is_Some (manager_view osm !! key) ∧ HasPrefix key (name +:+ "/") = true.
Proof.
  intros Hrel. split; [apply ObjectExists_sound|].
  intros (key & Hkey & Hp). by eapply ObjectExists_complete.
Qed.

(** Pages tile the listing.  When no listing fails there is one list of keys, the
    stored keys with the prefix and after the cursor in bytewise order, such that
    [ListObjectsPage] returns its first [limit] keys and whether more follow, and the
    page asked for after the last key returned continues that list where it stopped. *)
Theorem ListObjectsPage_tiles (osm : objectStorageManager C) (prefix after : string)
    (limit : nat) page more :
  listing_reliable osm → prefix ≠ "" →
  ListObjectsPage osm prefix after limit = (page, more) →
  ∃ keys, StronglySorted str_lt keys ∧
    (∀ key, key ∈ keys ↔ is_Some (manager_view osm !! key) ∧ HasPrefix key prefix = true ∧
                       (after = "" ∨ str_lt after key)) ∧
    map Key page = take limit keys ∧ more = bool_decide (limit < length keys)%nat ∧
    ∀ o limit', last page = Some o →
      map Key (ListObjectsPage osm prefix (Key o) limit').1 = take limit' (drop limit keys) ∧
      (ListObjectsPage osm prefix (Key o) limit').2 =
        bool_decide (limit' < length (drop limit keys))%nat.
Proof.
  intros Hrel Hprefix Hpage.
  destruct (Page_spec osm prefix after limit Hrel) as (l & Hs & Hl & E).
  rewrite E in Hpage. injection Hpage as <- <-.
  exists (map Key l). split; [done|]. split; [done|]. split; [by rewrite firstn_map|].
  split; [by rewrite length_map|]. intros o limit' Ho.
  destruct (Page_spec osm prefix (Key o) limit' Hrel) as (l' & Hs' & Hl' & ->). simpl.
  assert (Hkeys : map Key l' = drop limit (map Key l)).
  { rewrite <-(take_drop limit (map Key l)) in Hs.
    assert (Hlast : last (take limit (map Key l)) = Some (Key o)).
    { rewrite firstn_map. rewrite (fmap_last Key), Ho. done. }
    apply sorted_keys_unique; [done|by apply StronglySorted_app_1_r in Hs|].
    intros x. rewrite (sorted_after _ _ _ x Hs Hlast), take_drop, Hl, Hl'.
    assert (Hin : Key o ∈ map Key l).
    { rewrite <-(take_drop limit). apply elem_of_app. left. by apply last_Some_elem_of. }
    apply Hl in Hin as (_ & Hpo & Hao). split.
    - intros (Hx & Hpx & [Hnil|Hlt]).
      + rewrite Hnil in Hpo. by destruct prefix.
      + split; [|done]. split; [done|]. split; [done|].
        destruct Hao as [->|Hao]; [by left|right]. by eapply str_compare_trans.
    - intros ((Hx & Hpx & _) & Hlt). auto. }
  rewrite <-Hkeys, firstn_map, length_map. done.
Qed.
End storage_properties.
