(* ===== verification/Durations.v ===== *)
(** The durations of the operations of internal/storage/objectstorage-manager.go, which
    each of them observes in metrics.S3OperationDuration when it returns, whatever it
    returns.  The operations of Storage.v do not look at the clock, so that timing them
    is a layer: a manager with its clock and the series of each label. *)
From S2P Require Import Prelude GoStrings Errors Zip Storage.
From Stdlib Require Import Ascii.

(** Nanoseconds; Seconds and the buckets of the histogram belong to the libraries. *)
Notation duration := Z (only parsing).

Record timed (S : Type) := {
  tm_Manager : S;
  tm_Now : Z;
  tm_Durations : gmap string (list duration);
}.
Arguments tm_Manager {S} _.
Arguments tm_Now {S} _.
Arguments tm_Durations {S} _.

Definition WithLabelValues (m : gmap string (list duration)) (label : string) : list duration := default [] (m !! label).

Definition Observe (m : gmap string (list duration)) (label : string) (d : duration) : gmap string (list duration) :=
  <[label := WithLabelValues m label ++ [d]]> m.

(** [start := time.Now()], the operation, and the deferred observation. *)
Definition timed_operation {S A} (label : string) (elapsed : duration) (operation : S → A * S) (s : timed S) : A * timed S :=
  let start := tm_Now s in
  let '(a, manager) := operation (tm_Manager s) in
  let now := (start + elapsed)%Z in
  (a, {| tm_Manager := manager; tm_Now := now; tm_Durations := Observe (tm_Durations s) label (now - start) |}).

(** An operation that leaves the storage as it is. *)
Definition reading {S A} (f : S → A) (s : S) : A * S := (f s, s).

Section durations.
Context {C : Type} `{ObjectStorageClient C} `{MimeTable}.
Notation manager := (timed (objectStorageManager C)).
Implicit Types (s : manager) (elapsed : duration).

Definition timed_ListObjectsPage elapsed s (prefix after : string) (limit : nat) : list ObjectInfo * bool * manager :=
  timed_operation "ListObjectsPage" elapsed (reading (λ osm, ListObjectsPage osm prefix after limit)) s.

Definition timed_ListCommonPrefixes elapsed s (prefix : string) : list string * manager :=
  timed_operation "ListCommonPrefixes" elapsed (reading (λ osm, ListCommonPrefixes osm prefix)) s.

Definition timed_AddBytes elapsed s (objectName data contentType integrity : string) : option GimmeError * manager :=
  timed_operation "AddBytes" elapsed (λ osm, AddBytes osm objectName data contentType integrity) s.

(** A directory is skipped before the clock is read. *)
Definition timed_AddObject elapsed s (objectName : string) (file : ZipFile) (integrity : string) : option GimmeError * manager :=
  if IsDir file then (None, s)
  else timed_operation "AddObject" elapsed (λ osm, AddObject osm objectName file integrity) s.

Definition timed_GetObject elapsed s (objectName : string) : result Object * manager :=
  timed_operation "GetObject" elapsed (reading (λ osm, GetObject osm objectName)) s.

Definition timed_ListObjects elapsed s (objectParentName : string) : list ObjectInfo * manager :=
  timed_operation "ListObjects" elapsed (reading (λ osm, ListObjects osm objectParentName)) s.

Definition timed_ObjectExists elapsed s (objectName : string) : bool * manager :=
  timed_operation "ObjectExists" elapsed (reading (λ osm, ObjectExists osm objectName)) s.

Definition timed_Ping elapsed s : option GimmeError * manager := timed_operation "Ping" elapsed (reading Ping) s.

Definition timed_RemoveObjects elapsed s (objectParentName : string) : option GimmeError * manager :=
  timed_operation "RemoveObjects" elapsed (λ osm, RemoveObjects osm objectParentName) s.

(** ** Timing changes no answer *)

(** The answer and the manager are those of the operation, and at most one series is longer. *)
Definition times {A} s (operation : objectStorageManager C → A * objectStorageManager C) (label : option string)
    elapsed (r : A * manager) : Prop :=
  r.1 = (operation (tm_Manager s)).1 ∧ tm_Manager r.2 = (operation (tm_Manager s)).2 ∧
  ∀ l, WithLabelValues (tm_Durations r.2) l =
    WithLabelValues (tm_Durations s) l ++ (if bool_decide (label = Some l) then [elapsed] else []).

Lemma timed_operation_times {A} label elapsed (operation : objectStorageManager C → A * objectStorageManager C) s :
  times s operation (Some label) elapsed (timed_operation label elapsed operation s).
Proof.
  unfold times, timed_operation. destruct (operation (tm_Manager s)) as [a osm]. cbn. split; [done|]. split; [done|]. intros l.
  unfold Observe, WithLabelValues. case_bool_decide as E.
  - injection E as ->. rewrite lookup_insert_eq. cbn. do 2 f_equal. lia.
  - rewrite lookup_insert_ne, app_nil_r by congruence. done.
Qed.

(** Every operation but the skipping of a directory adds its duration to its own series. *)
Lemma timed_AddObject_times elapsed s objectName file integrity :
  times s (λ osm, AddObject osm objectName file integrity) (if IsDir file then None else Some "AddObject"%string) elapsed
    (timed_AddObject elapsed s objectName file integrity).
Proof.
  unfold timed_AddObject. destruct (IsDir file) eqn:Hdir; [|apply timed_operation_times].
  unfold times, AddObject. rewrite Hdir. cbn. split; [done|]. split; [done|]. intros l. by rewrite app_nil_r.
Qed.

Lemma timed_RemoveObjects_times elapsed s prefix :
  times s (λ osm, RemoveObjects osm prefix) (Some "RemoveObjects"%string) elapsed (timed_RemoveObjects elapsed s prefix).
Proof. apply timed_operation_times. Qed.
End durations.
