(* ===== verification/MemoryClient.v ===== *)
(** A client of the storage interface that keeps one bucket in memory and can be
    told to fail.  It satisfies the laws of the interface, and the witnesses of
    the development compute on it. *)
From S2P Require Import Prelude Order GoStrings Errors Semver Zip Storage.
From Stdlib Require Import Ascii.

Record memory := {
  mem_objects : gmap string StoredObject;
  (** Keys whose upload fails, whose removal fails; whether listings fail. *)
  mem_put_faults : list string;
  mem_remove_faults : list string;
  mem_list_fault : bool;
}.

Definition memory_of (objects : gmap string StoredObject) : memory :=
  {| mem_objects := objects; mem_put_faults := []; mem_remove_faults := [];
     mem_list_fault := false |}.

Definition set_objects (m : memory) (objects : gmap string StoredObject) : memory :=
  {| mem_objects := objects; mem_put_faults := mem_put_faults m;
     mem_remove_faults := mem_remove_faults m; mem_list_fault := mem_list_fault m |}.

Definition mem_matching (m : gmap string StoredObject) (opts : ListObjectsOptions) : gset string :=
  if Recursive opts then
    filter (λ k, HasPrefix k (Prefix opts) = true ∧ (StartAfter opts = "" ∨ str_lt (StartAfter opts) k))
      (dom m)
  else set_map (group_key (Prefix opts)) (filter (λ k, HasPrefix k (Prefix opts) = true) (dom m)).

Definition mem_info (m : gmap string StoredObject) (k : string) : ObjectInfo :=
  {| Key := k;
     Size := match m !! k with Some o => Z.of_nat (String.length (so_data o)) | None => 0 end;
     ObjErr := None |}.

Definition mem_list (m : memory) (opts : ListObjectsOptions) : list ObjectInfo :=
  if mem_list_fault m then [{| Key := ""; Size := 0; ObjErr := Some "listing failed" |}]
  else map (mem_info (mem_objects m))
         (merge_sort str_le (elements (mem_matching (mem_objects m) opts))).

Definition mem_put (m : memory) (k : string) (r : Reader) (n : Z) (opts : PutObjectOptions)
    : option string * memory :=
  if bool_decide (k ∈ mem_put_faults m) then (Some "put failed", m)
  else
    match rd_err r with
    | Some err => (Some err, m)
    | None =>
        if Z.eqb n (Z.of_nat (String.length (rd_data r))) then
          (None, set_objects m (<[k := {| so_data := rd_data r; so_options := opts |}]> (mem_objects m)))
        else (Some "size mismatch", m)
    end.

Definition mem_remove (m : memory) (objs : list ObjectInfo) : list RemoveObjectError * memory :=
  let keys := map Key objs in
  let failing := filter (λ k, k ∈ mem_remove_faults m) keys in
  let removed := filter (λ k, k ∉ mem_remove_faults m) keys in
  (map (λ k, {| re_ObjectName := k; re_Err := Some "remove failed" |}) failing,
   set_objects m (filter (λ kv, kv.1 ∉ removed) (mem_objects m))).

#[export] Instance memory_client : ObjectStorageClient memory := {|
  cl_MakeBucket m _ _ := (None, m);
  cl_BucketExists _ _ := (true, None);
  cl_PutObject m _ := mem_put m;
  cl_GetObject _ _ k := inl {| object_key := k |};
  cl_Stat m _ o := mem_objects m !! object_key o;
  cl_ListObjects m _ := mem_list m;
  cl_RemoveObjects m _ := mem_remove m;
|}.

Lemma mem_matching_spec m opts k : k ∈ mem_matching m opts ↔ listed_key m opts k.
Proof.
  unfold mem_matching, listed_key. destruct (Recursive opts).
  - rewrite elem_of_filter, elem_of_dom. naive_solver.
  - rewrite elem_of_map. setoid_rewrite elem_of_filter. setoid_rewrite elem_of_dom. naive_solver.
Qed.

Lemma map_Key_info m l : map Key (map (mem_info m) l) = l.
Proof. induction l as [|k l IH]; simpl; [done|]. by rewrite IH. Qed.

Lemma mem_list_sorted m opts : StronglySorted str_lt (map Key (filter is_object (mem_list m opts))).
Proof.
  unfold mem_list. destruct (mem_list_fault m); [repeat constructor|].
  rewrite filter_all_objects, map_Key_info.
  - apply strict_sorted; [|apply (StronglySorted_merge_sort str_le)].
    rewrite merge_sort_Permutation. apply NoDup_elements.
  - apply Forall_forall. by intros o (k & -> & _)%list_elem_of_fmap.
Qed.

#[export] Instance memory_laws : ClientLaws memory.
Proof.
  refine {| cl_view m _ := mem_objects m |}; simpl.
  - intros m _ k r n opts m'. unfold mem_put. intros Hput Hn.
    destruct (bool_decide _); [done|]. destruct (rd_err r); [done|].
    destruct (Z.eqb_spec n (Z.of_nat (String.length (rd_data r)))) as [->|]; [|done].
    injection Hput as <-. simpl. by rewrite Nat2Z.id, str_take_all.
  - intros m _ k r n opts err m'. unfold mem_put. intros Hput Hn.
    destruct (bool_decide _); [left; by injection Hput as _ <-|]. destruct (rd_err r); [left; by injection Hput as _ <-|].
    destruct (Z.eqb_spec n (Z.of_nat (String.length (rd_data r)))) as [->|]; [right|left; by injection Hput as _ <-].
    injection Hput as _ <-. simpl. by rewrite lookup_insert_eq, Nat2Z.id, str_take_all.
  - intros m _ k r n opts err m' k'. unfold mem_put. intros Hput Hk.
    repeat case_match; simplify_eq; simpl; try done. by rewrite lookup_insert_ne.
  - intros m _ k o [= <-]. done.
  - done.
  - intros m _ opts o. unfold mem_list. destruct (mem_list_fault m).
    + intros ->%list_elem_of_singleton Herr. by simpl in Herr.
    + intros (k & -> & Hk)%list_elem_of_fmap _. simpl.
      rewrite merge_sort_Permutation, elem_of_elements in Hk. by apply mem_matching_spec.
  - intros m _ opts key. unfold mem_list. destruct (mem_list_fault m).
    + intros Hall. apply Forall_inv in Hall. by simpl in Hall.
    + intros _ Hkey. rewrite map_Key_info, merge_sort_Permutation, elem_of_elements.
      by apply mem_matching_spec.
  - intros m _ opts _. apply mem_list_sorted.
  - intros m _ opts _. apply sorted_nodup, mem_list_sorted.
  - intros m _ objs m' k. unfold mem_remove. intros [= Hfail%map_eq_nil <-]. simpl.
    assert (HF : ∀ k, k ∈ map Key objs → k ∉ mem_remove_faults m).
    { intros k' Hin Hf. assert (Hx : k' ∈ filter (λ k, k ∈ mem_remove_faults m) (map Key objs)).
      { by apply list_elem_of_filter. }
      rewrite Hfail in Hx. by apply not_elem_of_nil in Hx. }
    rewrite map_lookup_filter. case_decide as Hk.
    + destruct (mem_objects m !! k); simpl; [|done]. rewrite option_guard_False; [done|].
      simpl. rewrite list_elem_of_filter. intros Hn. apply Hn. auto.
    + destruct (mem_objects m !! k); simpl; [|done]. rewrite option_guard_True; [done|].
      simpl. rewrite list_elem_of_filter. naive_solver.
  - intros m _ objs errs m'. unfold mem_remove. intros [= <- <-]. simpl. split.
    + apply map_filter_subseteq.
    + intros k Hk. rewrite map_lookup_filter. destruct (mem_objects m !! k); simpl; [|done].
      rewrite option_guard_True; [done|]. simpl. rewrite list_elem_of_filter. naive_solver.
Defined.

(** ** A bucket for examples *)

Definition bucket_of (m : memory) : objectStorageManager memory :=
  {| client := m; bucketName := "gimme"; location := "" |}.

Definition plain (data : string) : StoredObject :=
  {| so_data := data; so_options := {| ContentType := "text/plain"; UserMetadata := ∅ |} |}.

(** A fault-free bucket holding the given texts. *)
Definition bucket_with (objects : list (string * string)) : objectStorageManager memory :=
  bucket_of (memory_of (list_to_map (map (λ kd, (kd.1, plain kd.2)) objects))).

Lemma store_reliable (osm : objectStorageManager memory) : mem_list_fault (client osm) = false → listing_reliable osm.
Proof.
  intros Hm opts. simpl. unfold mem_list. rewrite Hm.
  apply Forall_forall. by intros o (k & -> & _)%list_elem_of_fmap.
Qed.

Lemma bucket_reliable m : mem_list_fault m = false → listing_reliable (bucket_of m).
Proof. apply (store_reliable (bucket_of m)). Qed.

(** ** The properties of the manager on a bucket *)

#[local] Existing Instance builtin_mime.

Definition two_versions : objectStorageManager memory := bucket_with
  [("a@1.0.0/x.js", "1"); ("a@1.0.0/y.js", "2"); ("a@1.0.0-beta/x.js", "3"); ("a@1.0.0/z.js", "4")].

Lemma RemoveObjects_confined_witness :
  (RemoveObjects two_versions "a@1.0.0/").1 = None ∧
  manager_view (RemoveObjects two_versions "a@1.0.0/").2 !! "a@1.0.0-beta/x.js" = Some (plain "3").
Proof.
  split; [now vm_compute|].
  rewrite (proj1 (proj2 (RemoveObjects_confined two_versions _ "a@1.0.0/" _
    (surjective_pairing _)))); now vm_compute.
Defined.

Lemma ObjectExists_directory_witness :
  ObjectExists two_versions "a@1.0.0" = true ∧
  ∃ key, is_Some (manager_view two_versions !! key) ∧ HasPrefix key ("a@1.0.0" +:+ "/") = true.
Proof.
  assert (E : ObjectExists two_versions "a@1.0.0" = true) by now vm_compute.
  split; [exact E|].
  apply (ObjectExists_directory two_versions "a@1.0.0"); [|exact E].
  now apply bucket_reliable.
Defined.

Lemma ListObjectsPage_tiles_witness :
  map Key (ListObjectsPage two_versions "a@1.0.0/" "" 2).1 = ["a@1.0.0/x.js"; "a@1.0.0/y.js"] ∧
  (ListObjectsPage two_versions "a@1.0.0/" "" 2).2 = true ∧
  ∃ keys, map Key (ListObjectsPage two_versions "a@1.0.0/" "" 2).1 = take 2 keys.
Proof.
  split; [now vm_compute|]. split; [now vm_compute|].
  assert (Hrel : listing_reliable two_versions) by now apply bucket_reliable.
  destruct (ListObjectsPage_tiles two_versions "a@1.0.0/" "" 2 _ _
    Hrel ltac:(discriminate) (surjective_pairing _)) as (keys & _ & _ & Hpage & _).
  exists keys. exact Hpage.
Defined.
