(* ===== verification/Version.v ===== *)
(** Versions of packages (internal/content/content-service.go): which requests a
    stored version answers, the resolution of a partial version or alias to the
    highest stored version, the listing of the versions, and the validation of a
    package identity.

    Stored versions are read off the keys of the bucket through the interface of
    the storage manager; the order of versions is that of the semver interface. *)
From S2P Require Import Prelude Order GoStrings Errors Semver Zip Storage MemoryClient.
From Stdlib Require Import Ascii.

Definition latestVersionAlias : string := "latest".

Definition name_char (a : ascii) : bool :=
  letter a || digit a || Ascii.eqb a "." || Ascii.eqb a "_" || Ascii.eqb a "-".

(** The pattern ^[A-Za-z0-9._-]+$. *)
Definition packageNamePattern (s : string) : bool :=
  negb (String.eqb s "") && str_forall name_char s.

Section versions.
Context `{Semver}.

Definition versionMatches (candidateVersion requestedVersion : string) : bool :=
  let candidateSemver := "v" +:+ candidateVersion in
  if negb (semver_IsValid candidateSemver) then false
  else if String.eqb requestedVersion latestVersionAlias then
    String.eqb (semver_Prerelease candidateSemver) ""
  else if String.eqb candidateVersion requestedVersion then true
  else if (3 <=? length (Split requestedVersion "."))%nat ||
          negb (String.eqb (semver_Prerelease candidateSemver) "") then false
  else
    match length (Split requestedVersion ".") with
    | 1 => String.eqb (semver_Major candidateSemver) ("v" +:+ requestedVersion)
    | 2 => String.eqb (semver_MajorMinor candidateSemver) ("v" +:+ requestedVersion)
    | _ => false
    end.

(** [strings.SplitN(version, "-", 2)[0]] and then the same at "+". *)
Definition version_base (version : string) : string :=
  let base := first_piece (SplitN2 version "-") in
  first_piece (SplitN2 base "+").

Definition isFullSemver (version : string) : bool :=
  (length (Split (version_base version) ".") =? 3)%nat && semver_IsValid ("v" +:+ version).

Definition IsPinnedVersion (version : string) : bool :=
  if negb (isFullSemver version) then false
  else
    let v := "v" +:+ version in
    String.eqb (semver_Prerelease v) "".

Definition invalid_name (name : string) : string :=
  "invalid package name " +:+ Quote name +:+ ": only letters, digits, '.', '_' and '-' are allowed".

Definition invalid_version (version : string) : string :=
  "invalid package version " +:+ Quote version +:+ ": a full semver version is required (e.g. 1.0.0)".

Definition validatePackageIdentity (name version : string) : option string :=
  if negb (packageNamePattern name) then Some (invalid_name name)
  else if negb (isFullSemver version) then Some (invalid_version version)
  else None.

(** The folder of a package version in the bucket. *)
Definition folder_name (name version : string) : string := name +:+ "@" +:+ version.

Definition mutableAliasPrefixes (pkg version : string) : list string :=
  let parts := Split (version_base version) "." in
  folder_name pkg latestVersionAlias ::
  map (λ i, folder_name pkg (Join (take i parts) ".")) (seq 1 (length parts - 1)).

Section resolution.
Context {S : Type} `{ObjectStorageManager S}.
Implicit Types svc : S.

(** The version of a common prefix of the listing. *)
Definition prefix_version (packagePrefix commonPrefix : string) : string :=
  TrimSuffix (TrimPrefix commonPrefix packagePrefix) "/".

Definition resolveVersion svc (pkg version : string) : string * bool :=
  let packagePrefix := pkg +:+ "@" in
  let versions :=
    map (λ candidate, "v" +:+ candidate)
      (filter (λ candidate, versionMatches candidate version = true)
        (map (prefix_version packagePrefix) (osm_ListCommonPrefixes svc packagePrefix))) in
  match versions with
  | [] => ("", false)
  | _ => (TrimPrefix (default "" (last (semver_Sort versions))) "v", true)
  end.

Definition ListVersions svc (pkg : string) : list string :=
  if negb (packageNamePattern pkg) then []
  else
    let packagePrefix := pkg +:+ "@" in
    let versions :=
      map (λ version, "v" +:+ version)
        (filter (λ version, isFullSemver version = true)
          (map (prefix_version packagePrefix) (osm_ListCommonPrefixes svc packagePrefix))) in
    map (λ v, TrimPrefix v "v") (reverse (semver_Sort versions)).
End resolution.
End versions.

(** ** Specification *)

(** The versions a package has in a bucket: the first segments of the keys under
    its prefix. *)
Definition stored_version (view : gmap string StoredObject) (pkg version : string) : Prop :=
  ∃ key rest, is_Some (view !! key) ∧ key = pkg +:+ "@" +:+ version +:+ rest ∧
    char_free "/" version = true ∧ (rest = "" ∨ ∃ t, rest = String "/" t).

(** The versions a request selects. *)
Definition selects (requested : string) (v : semver) : Prop :=
  (requested = latestVersionAlias ∧ sv_pre v = []) ∨
  "v" +:+ requested = show v ∨
  (sv_pre v = [] ∧ (requested = sv_major v ∨ requested = sv_major v +:+ "." +:+ sv_minor v)).

Definition is_full (v : semver) : Prop :=
  match v with Full _ _ _ _ _ => True | _ => False end.

(** ** Lemmas *)

Lemma first_piece_SplitN2 s c : first_piece (SplitN2 s c) = (Cut s c).1.1.
Proof.
  unfold SplitN2. destruct (Cut s c) as [[b a] [|]] eqn:E; [done|].
  by apply Cut_false in E as (_ & -> & _).
Qed.

(** The text before the first "-" or "+". *)
Lemma version_base_app core tail :
  char_free "-" core = true → char_free "+" core = true →
  (tail = "" ∨ (∃ t, tail = String "-" t) ∨ (∃ t, tail = String "+" t)) →
  version_base (core +:+ tail) = core.
Proof.
  intros Hm Hp Ht. unfold version_base. rewrite !first_piece_SplitN2.
  destruct Ht as [->|[[t ->]|[t ->]]].
  - by rewrite str_app_nil_r, (Cut_free "-"), (Cut_free "+").
  - by rewrite (Cut_app "-"), (Cut_free "+").
  - destruct (char_free_dec "-" t) as [Ht|(t1 & t2 & -> & Ht1)].
    + rewrite (Cut_free "-"); [simpl; by rewrite (Cut_app "+")|].
      apply char_free_app. split; [done|]. by apply char_free_cons.
    + replace (core +:+ String "+" (t1 +:+ String "-" t2))
        with ((core +:+ String "+" t1) +:+ String "-" t2) by by rewrite str_app_assoc.
      rewrite (Cut_app "-"); [simpl; by rewrite (Cut_app "+")|].
      apply char_free_app. split; [done|]. by apply char_free_cons.
Qed.

Lemma show_tail v :
  show_pre (sv_pre v) +:+ show_build (sv_build v) = "" ∨
  (∃ t, show_pre (sv_pre v) +:+ show_build (sv_build v) = String "-" t) ∨
  (∃ t, show_pre (sv_pre v) +:+ show_build (sv_build v) = String "+" t).
Proof.
  destruct (sv_pre v) as [|p l]; [destruct (sv_build v) as [|b k]; [by left|]|].
  - right; right. simpl. by eexists.
  - right; left. simpl. by eexists.
Qed.

Lemma version_base_show v version :
  wf v = true → "v" +:+ version = show v → version_base version = show_core v.
Proof.
  intros Hwf Hv. rewrite show_parts in Hv. injection Hv as Hv. rewrite str_app_nil_l in Hv. subst version.
  apply version_base_app; [by apply core_char_free..|apply show_tail].
Qed.

Lemma show_core_Split v :
  wf v = true →
  Split (show_core v) "." =
  match v with
  | ShortMajor major => [major]
  | ShortMinor major minor => [major; minor]
  | Full major minor patch _ _ => [major; minor; patch]
  end.
Proof.
  intros Hwf. destruct v; simpl in Hwf; bool_hyps;
    repeat match goal with H : number _ = true |- _ => apply (number_char_free ".") in H; [|done] end;
    unfold show_core; [by apply Split_free|rewrite Split_Join; repeat constructor; done..].
Qed.

Section version_lemmas.
Context `{SemverLaws}.

Lemma valid_inv version :
  semver_IsValid ("v" +:+ version) = true → ∃ v, wf v = true ∧ "v" +:+ version = show v.
Proof. apply IsValid_spec. Qed.

Lemma isFullSemver_show v version :
  wf v = true → "v" +:+ version = show v → (isFullSemver version = true ↔ is_full v).
Proof.
  intros Hwf Hv. unfold isFullSemver. rewrite (version_base_show v) by done.
  rewrite (show_core_Split v) by done. rewrite Hv.
  rewrite (proj2 (IsValid_spec (show v))) by eauto. destruct v; simpl; naive_solver.
Qed.

Lemma isFullSemver_iff version :
  isFullSemver version = true ↔ ∃ v, wf v = true ∧ is_full v ∧ "v" +:+ version = show v.
Proof.
  split.
  - intros Hfull. pose proof Hfull as H'. unfold isFullSemver in H'. bool_hyps.
    destruct (valid_inv version) as (v & Hwf & Hv); [done|]. exists v.
    by rewrite (isFullSemver_show v) in Hfull.
  - intros (v & Hwf & Hf & Hv). by apply (isFullSemver_show v).
Qed.

Lemma show_pre_nil l : show_pre l = "" ↔ l = [].
Proof. destruct l; [done|]. split; [|done]. unfold show_pre. by simpl. Qed.

Lemma Split_major v : wf v = true → Split (sv_major v) "." = [sv_major v].
Proof.
  intros Hwf. apply Split_free. destruct v; simpl in *; bool_hyps; by apply number_char_free.
Qed.

Lemma Split_minor v :
  wf v = true → Split (sv_major v +:+ "." +:+ sv_minor v) "." = [sv_major v; sv_minor v].
Proof.
  intros Hwf. change ("." +:+ sv_minor v) with (String "." (sv_minor v)).
  rewrite Split_app, Split_free; destruct v; simpl in *; bool_hyps; try done;
    by apply number_char_free.
Qed.

Lemma major_not_latest v : wf v = true → sv_major v ≠ latestVersionAlias.
Proof. intros Hwf Heq. destruct v; simpl in *; bool_hyps; by subst. Qed.

Lemma minor_not_latest v : wf v = true → sv_major v +:+ "." +:+ sv_minor v ≠ latestVersionAlias.
Proof.
  intros Hwf Heq. pose proof (Split_minor v Hwf) as HS. by rewrite Heq in HS.
Qed.

Lemma show_not_latest v : wf v = true → show v ≠ "v" +:+ latestVersionAlias.
Proof. intros Hwf Heq. pose proof (parse_show v Hwf) as HP. by rewrite Heq in HP. Qed.

Lemma versionMatches_selects v candidate requested :
  wf v = true → "v" +:+ candidate = show v →
  versionMatches candidate requested = true ↔ selects requested v.
Proof.
  intros Hwf Hv. unfold versionMatches, selects. rewrite Hv.
  rewrite (proj2 (IsValid_spec (show v))) by eauto. simpl.
  rewrite Prerelease_show, Major_show, MajorMinor_show by done.
  destruct (String.eqb_spec requested latestVersionAlias) as [->|Hl].
  - rewrite String.eqb_eq, show_pre_nil. split; [by left; split|].
    intros [[_ ?]|[Heq|[? _]]]; [done| |done].
    exfalso. by apply (show_not_latest v).
  - rewrite <-Hv. destruct (String.eqb_spec candidate requested) as [->|Hc].
    { split; [|done]. intros _. right. by left. }
    destruct (String.eqb_spec (show_pre (sv_pre v)) "") as [Hp|Hp]; rewrite show_pre_nil in Hp.
    + rewrite orb_false_r. pose proof (Split_nonempty "." requested) as Hne.
      split.
      * destruct (Split requested ".") as [|p [|q [|]]]; try done; simpl; rewrite String.eqb_eq;
          intros [=]; right; right; auto.
      * intros [[? _]|[[=]|[_ [->| ->]]]]; [done|done| |].
        -- rewrite Split_major by done. simpl. by apply String.eqb_eq.
        -- rewrite Split_minor by done. simpl. by apply String.eqb_eq.
    + rewrite orb_true_r. split; [done|]. intros [[? _]|[[=]|[? _]]]; done.
Qed.

Lemma versionMatches_valid candidate requested :
  versionMatches candidate requested = true →
  ∃ v, wf v = true ∧ "v" +:+ candidate = show v ∧ selects requested v.
Proof.
  intros Hm. pose proof Hm as H'. unfold versionMatches in H'.
  destruct (semver_IsValid ("v" +:+ candidate)) eqn:Hvalid; [|done].
  destruct (valid_inv _ Hvalid) as (v & Hwf & Hv). exists v.
  split; [done|]. split; [done|]. by eapply versionMatches_selects.
Qed.
End version_lemmas.

(** ** Candidates of a listing *)

Lemma prefix_version_group prefix key rest name :
  key = prefix +:+ name +:+ rest → char_free "/" name = true →
  (rest = "" ∨ ∃ t, rest = String "/" t) →
  prefix_version prefix (group_key prefix key) = name.
Proof.
  intros -> Hname Hrest. unfold group_key, prefix_version. rewrite TrimPrefix_app.
  destruct Hrest as [->|[t ->]].
  - rewrite str_app_nil_r, (Cut_free "/"), TrimPrefix_app by done.
    unfold TrimSuffix. destruct (HasSuffix name "/") eqn:E; [|done].
    apply HasSuffix_spec in E as [u ->]. apply char_free_app in Hname as [_ Hname]. done.
  - rewrite (Cut_app "/") by done. rewrite TrimPrefix_app. apply TrimSuffix_app.
Qed.

Lemma segment_split s :
  ∃ name rest, s = name +:+ rest ∧ char_free "/" name = true ∧
    (rest = "" ∨ ∃ t, rest = String "/" t).
Proof.
  destruct (char_free_dec "/" s) as [H|(t & u & -> & H)].
  - exists s, "". rewrite str_app_nil_r. auto.
  - exists t, (String "/" u). eauto.
Qed.

Section candidates.
Context {S : Type} `{ManagerLaws S}.

Lemma candidates_sound (svc : S) pkg c :
  c ∈ map (prefix_version (pkg +:+ "@")) (osm_ListCommonPrefixes svc (pkg +:+ "@")) →
  stored_version (osm_view svc) pkg c.
Proof.
  intros (cp & -> & (key & Hkey & Hp & ->)%osm_Prefixes_sound)%list_elem_of_fmap.
  apply HasPrefix_spec in Hp as [s ->].
  destruct (segment_split s) as (name & rest & -> & Hname & Hrest).
  exists ((pkg +:+ "@") +:+ name +:+ rest), rest. rewrite !str_app_assoc.
  rewrite !str_app_assoc in Hkey.
  rewrite (prefix_version_group _ _ rest name); [done| |done..].
  by rewrite !str_app_assoc.
Qed.

Lemma candidates_spec (svc : S) pkg c :
  osm_reliable svc →
  c ∈ map (prefix_version (pkg +:+ "@")) (osm_ListCommonPrefixes svc (pkg +:+ "@")) ↔
  stored_version (osm_view svc) pkg c.
Proof.
  intros Hrel. split; [apply candidates_sound|]. rewrite list_elem_of_fmap.
  intros (key & rest & Hkey & -> & Hname & Hrest).
  exists (group_key (pkg +:+ "@") (pkg +:+ "@" +:+ c +:+ rest)). split.
  - symmetry. apply (prefix_version_group _ _ rest); [|done..]. by rewrite !str_app_assoc.
  - apply osm_Prefixes_spec; [done|]. eexists. split; [done|]. split; [|done].
    rewrite <-str_app_assoc. apply HasPrefix_app.
Qed.
End candidates.

Lemma StronglySorted_last {A} (R : A → A → Prop) l x y :
  StronglySorted R l → last l = Some y → x ∈ l → x = y ∨ R x y.
Proof.
  intros Hl Hlast Hx. destruct l as [|z l _] using rev_ind; [by apply not_elem_of_nil in Hx|].
  rewrite last_snoc in Hlast. injection Hlast as ->.
  apply elem_of_app in Hx as [Hx|Hx]; [|left; by apply list_elem_of_singleton in Hx].
  right. eapply StronglySorted_app_1_elem_of; [done..|]. by apply list_elem_of_singleton.
Qed.

Lemma StronglySorted_reverse {A} (R : A → A → Prop) l :
  StronglySorted R l → StronglySorted (flip R) (reverse l).
Proof.
  induction 1 as [|x l Hl IH HF]; [constructor|]. rewrite reverse_cons.
  apply StronglySorted_app_2; [|done|by repeat constructor].
  intros y z Hy Hz%list_elem_of_singleton. subst. rewrite elem_of_reverse in Hy.
  rewrite Forall_forall in HF. unfold flip. auto.
Qed.

Lemma StronglySorted_map_inv {A B} (R : B → B → Prop) (f : A → B) l :
  StronglySorted R (map f l) → StronglySorted (λ x y, R (f x) (f y)) l.
Proof.
  induction l as [|x l IH]; simpl; [constructor|]. intros Hs. inversion Hs as [|? ? Hl HF].
  constructor; [auto|]. by apply (proj1 (Stdlib.Lists.List.Forall_map _ _ _)) in HF.
Qed.

Section resolution_lemmas.
Context `{SemverLaws} {S : Type} `{ManagerLaws S}.

Lemma sort_le_precedence v w :
  wf v = true → wf w = true → sort_le (show v) (show w) → precedence v w ≠ Gt.
Proof.
  intros Hv Hw Hle. unfold sort_le in Hle. rewrite Compare_show in Hle by done.
  by destruct (precedence v w).
Qed.

Lemma precedence_refl v : precedence v v ≠ Gt.
Proof. by rewrite (cmp_refl precedence v). Qed.

Lemma reverse_perm_sort (vs : list string) : reverse (semver_Sort vs) ≡ₚ vs.
Proof. etrans; [apply reverse_Permutation|apply Sort_perm]. Qed.

(** Highest of the strings "v" ++ c, for the candidates c of a list. *)
Lemma highest_sorted (l : list string) :
  l ≠ [] →
  ∃ c, TrimPrefix (default "" (last (semver_Sort (map (λ c, "v" +:+ c) l)))) "v" = c ∧
    c ∈ l ∧ ∀ c', c' ∈ l → c' = c ∨ sort_le ("v" +:+ c') ("v" +:+ c).
Proof.
  intros Hl. set (vs := map _ l). pose proof (Sort_perm vs) as Hperm.
  destruct (last (semver_Sort vs)) as [x|] eqn:Hlast.
  2: { apply last_None in Hlast. rewrite Hlast in Hperm. apply Permutation_nil in Hperm.
       by apply map_eq_nil in Hperm. }
  pose proof (last_Some_elem_of _ _ Hlast) as Hx. rewrite Hperm in Hx.
  apply list_elem_of_fmap in Hx as (c & -> & Hc). exists c. simpl.
  split; [apply TrimPrefix_app|]. split; [done|]. intros c' Hc'.
  destruct (StronglySorted_last sort_le _ ("v" +:+ c') _ (Sort_sorted vs) Hlast) as [Heq|Hle].
  - rewrite Hperm. apply list_elem_of_fmap. by exists c'.
  - left. by apply str_app_inj_l in Heq.
  - by right.
Qed.

(** The "v" is stripped from the sorted versions. *)
Lemma sorted_versions (l : list string) :
  ∃ k, map (λ v, TrimPrefix v "v") (reverse (semver_Sort (map (λ c, "v" +:+ c) l))) = k ∧
    (∀ c, c ∈ k ↔ c ∈ l) ∧
    StronglySorted (λ high low, sort_le ("v" +:+ low) ("v" +:+ high)) k.
Proof.
  set (vs := map _ l).
  destruct (Permutation_map_inv (λ c, "v" +:+ c) l (reverse_perm_sort vs)) as (k & Hk & Hperm).
  rewrite Hk. exists k. split; [|split].
  - clear. induction k as [|c k IH]; simpl; [done|]. by rewrite IH, TrimPrefix_app.
  - intros c. by rewrite Hperm.
  - apply (StronglySorted_map_inv (flip sort_le) (λ c, "v" +:+ c)). rewrite <-Hk.
    apply StronglySorted_reverse, Sort_sorted.
Qed.

Lemma resolveVersion_found (svc : S) pkg requested version :
  osm_reliable svc → resolveVersion svc pkg requested = (version, true) →
  stored_version (osm_view svc) pkg version ∧ versionMatches version requested = true ∧
  ∀ other, stored_version (osm_view svc) pkg other → versionMatches other requested = true →
    other = version ∨ sort_le ("v" +:+ other) ("v" +:+ version).
Proof.
  intros Hrel. unfold resolveVersion.
  set (l := filter _ _). intros Hres.
  assert (Hl : l ≠ []) by (intros Hl; by rewrite Hl in Hres).
  destruct (highest_sorted l Hl) as (c & Hc & Hin & Hmax).
  assert (version = c) as ->.
  { rewrite <-Hc. destruct (map _ l) eqn:E; [by apply map_eq_nil in E|].
    by injection Hres as <-. }
  assert (Hspec : ∀ c', c' ∈ l ↔ versionMatches c' requested = true ∧
                                stored_version (osm_view svc) pkg c').
  { intros c'. unfold l. by rewrite list_elem_of_filter, candidates_spec. }
  apply Hspec in Hin as [Hm Hst]. split; [done|]. split; [done|].
  intros other Ho Hmo. apply Hmax, Hspec. done.
Qed.

(** Even when a listing fails, what is found is stored and selected. *)
Lemma resolveVersion_stored (svc : S) pkg requested version :
  resolveVersion svc pkg requested = (version, true) →
  stored_version (osm_view svc) pkg version ∧ versionMatches version requested = true.
Proof.
  unfold resolveVersion. set (l := filter _ _). intros Hres.
  assert (Hl : l ≠ []) by (intros Hl; by rewrite Hl in Hres).
  destruct (highest_sorted l Hl) as (c & Hc & Hin & _).
  assert (version = c) as ->.
  { rewrite <-Hc. destruct (map _ l) eqn:E; [by apply map_eq_nil in E|]. by injection Hres as <-. }
  apply list_elem_of_filter in Hin as [? Hin]. split; [by apply candidates_sound|done].
Qed.

Lemma resolveVersion_matches (svc : S) pkg requested version :
  resolveVersion svc pkg requested = (version, true) → versionMatches version requested = true.
Proof. apply resolveVersion_stored. Qed.

Lemma resolveVersion_missing (svc : S) pkg requested version :
  osm_reliable svc → resolveVersion svc pkg requested = (version, false) →
  version = "" ∧ ∀ other, stored_version (osm_view svc) pkg other →
    versionMatches other requested = false.
Proof.
  intros Hrel. unfold resolveVersion. set (l := filter _ _).
  destruct (map _ l) eqn:E; [|done]. apply map_eq_nil in E. intros [= <-].
  split; [done|]. intros other Ho. apply not_true_iff_false. intros Hm.
  assert (Hin : other ∈ l).
  { unfold l. rewrite list_elem_of_filter, candidates_spec; done. }
  rewrite E in Hin. by apply not_elem_of_nil in Hin.
Qed.
End resolution_lemmas.

(** ** Validated identities *)

Lemma name_char_free c name :
  packageNamePattern name = true → name_char c = false → char_free c name = true.
Proof.
  unfold packageNamePattern. intros Hn Hc. bool_hyps.
  eapply str_forall_impl; [|done]. intros a Ha. apply negb_true_iff, Ascii.eqb_neq.
  intros ->. congruence.
Qed.

Section identity_lemmas.
Context `{SemverLaws}.

Lemma validated_iff name version :
  validatePackageIdentity name version = None ↔
  packageNamePattern name = true ∧ isFullSemver version = true.
Proof.
  unfold validatePackageIdentity. destruct (packageNamePattern name); simpl; [|naive_solver].
  destruct (isFullSemver version); naive_solver.
Qed.

(** The characters of a version: identifier characters, "." and "+". *)
Lemma valid_char_free c version :
  semver_IsValid ("v" +:+ version) = true → ident_char c = false → c ≠ "."%char → c ≠ "+"%char →
  char_free c version = true.
Proof.
  intros (v & Hwf & Hv)%valid_inv Hc Hdot Hplus.
  rewrite show_parts in Hv. injection Hv as Hv. rewrite str_app_nil_l in Hv. subst version.
  assert (Hdigit : digit c = false).
  { unfold ident_char in Hc. by apply orb_false_iff in Hc as [[? _]%orb_false_iff _]. }
  assert (Hdash : c ≠ "-"%char).
  { unfold ident_char in Hc. apply orb_false_iff in Hc as [_ Hc]. by apply Ascii.eqb_neq. }
  rewrite !char_free_app. split; [by apply core_char_free|].
  split; [by apply show_pre_char_free, wf_pre|].
  pose proof (wf_build v Hwf) as Hb. destruct (sv_build v) as [|b l]; [done|].
  unfold show_build. apply char_free_app. split; [by apply char_free_cons|].
  by apply idents_char_free.
Qed.

Lemma full_char_free c version :
  isFullSemver version = true → ident_char c = false → c ≠ "."%char → c ≠ "+"%char →
  char_free c version = true.
Proof. unfold isFullSemver. intros Hf. bool_hyps. by apply valid_char_free. Qed.

Lemma folder_inj n v n' v' k :
  packageNamePattern n = true → packageNamePattern n' = true →
  isFullSemver v = true → isFullSemver v' = true →
  HasPrefix k (folder_name n v +:+ "/") = true → HasPrefix k (folder_name n' v' +:+ "/") = true →
  n = n' ∧ v = v'.
Proof.
  intros Hn Hn' Hv Hv' [t ->]%HasPrefix_spec [t' E]%HasPrefix_spec.
  unfold folder_name in E. rewrite !str_app_assoc in E.
  apply (char_free_sep_inj "@") in E as [-> E]; [|by apply name_char_free..].
  apply (char_free_sep_inj "/") in E as [-> _]; [done|by apply full_char_free..].
Qed.
End identity_lemmas.

(** ** Properties *)

Section properties.
Context `{SemverLaws} {S : Type} `{ManagerLaws S}.

(** C26: resolution is maximal.  When no listing fails, [resolveVersion] answers a
    stored version that the request selects and that no other selected stored
    version precedes in semver precedence; when it answers that there is none, no
    stored version is selected by the request. *)
Theorem resolveVersion_highest (svc : S) (pkg requested : string) :
  osm_reliable svc →
  match resolveVersion svc pkg requested with
  | (version, true) =>
      ∃ v, wf v = true ∧ "v" +:+ version = show v ∧
        stored_version (osm_view svc) pkg version ∧ selects requested v ∧
        ∀ w other, wf w = true → "v" +:+ other = show w →
          stored_version (osm_view svc) pkg other → selects requested w → precedence w v ≠ Gt
  | (version, false) =>
      version = "" ∧
      ∀ w other, wf w = true → "v" +:+ other = show w →
        stored_version (osm_view svc) pkg other → ¬ selects requested w
  end.
Proof.
  intros Hrel. destruct (resolveVersion svc pkg requested) as [version [|]] eqn:Hres.
  - destruct (resolveVersion_found svc pkg requested version Hrel Hres) as (Hst & Hm & Hmax).
    destruct (versionMatches_valid _ _ Hm) as (v & Hwf & Hv & Hsel).
    exists v. repeat (split; [done|]). intros w other Hw Hother Ho Hselw.
    destruct (Hmax other) as [->|Hle]; [done|by apply (versionMatches_selects w)| |].
    + rewrite Hv in Hother. apply show_inj in Hother as ->; [|done..]. apply precedence_refl.
    + apply sort_le_precedence; [done..|]. by rewrite <-Hv, <-Hother.
  - destruct (resolveVersion_missing svc pkg requested version Hrel Hres) as [-> Hnone].
    split; [done|]. intros w other Hw Hother Ho Hsel. specialize (Hnone other Ho).
    apply (versionMatches_selects w other) in Hsel; [congruence|done..].
Qed.

(** The version listing is exact and descending.  For a valid package name,
    and no failing listing, [ListVersions] holds precisely the full semver versions
    stored for the package, from the highest to the lowest; for an invalid name it
    is empty. *)
Theorem ListVersions_exact_descending (svc : S) (pkg : string) :
  osm_reliable svc →
  (∀ version, version ∈ ListVersions svc pkg ↔
     packageNamePattern pkg = true ∧ isFullSemver version = true ∧
     stored_version (osm_view svc) pkg version) ∧
  StronglySorted (λ high low, sort_le ("v" +:+ low) ("v" +:+ high)) (ListVersions svc pkg).
Proof.
  intros Hrel. unfold ListVersions. destruct (packageNamePattern pkg); simpl.
  2: { split; [|constructor]. intros version. split; [by intros ?%not_elem_of_nil|by intros []]. }
  set (l := filter _ _). destruct (sorted_versions l) as (k & -> & Hk & Hs).
  split; [|done]. intros version. rewrite Hk. unfold l.
  rewrite list_elem_of_filter, candidates_spec by done. naive_solver.
Qed.

(** Pinned versions are the full stable ones.  [isFullSemver] accepts exactly
    the versions with three numbers of the semver grammar, and [IsPinnedVersion]
    those of them without a prerelease, with or without build metadata. *)
Theorem IsPinnedVersion_full_stable (version : string) :
  (isFullSemver version = true ↔
     ∃ major minor patch pre build, wf (Full major minor patch pre build) = true ∧
       "v" +:+ version = show (Full major minor patch pre build)) ∧
  (IsPinnedVersion version = true ↔
     ∃ major minor patch build, wf (Full major minor patch [] build) = true ∧
       "v" +:+ version = show (Full major minor patch [] build)).
Proof.
  assert (Hfull : isFullSemver version = true ↔
     ∃ major minor patch pre build, wf (Full major minor patch pre build) = true ∧
       "v" +:+ version = show (Full major minor patch pre build)).
  { rewrite isFullSemver_iff. split.
    - intros ([?|? ?|major minor patch pre build] & Hwf & Hf & Hv); [done..|]. eauto 10.
    - intros (major & minor & patch & pre & build & Hwf & Hv). by eexists. }
  split; [done|]. unfold IsPinnedVersion. destruct (isFullSemver version); simpl.
  - destruct (proj1 Hfull eq_refl) as (major & minor & patch & pre & build & Hwf & Hv).
    rewrite Hv, Prerelease_show, String.eqb_eq by done. simpl. rewrite show_pre_nil. split.
    + intros ->. eauto 10.
    + intros (major' & minor' & patch' & build' & Hwf' & Hv').
      assert (E : Full major minor patch pre build = Full major' minor' patch' [] build').
      { apply show_inj; [done..|]. exact Hv'. }
      by injection E.
  - split; [done|]. intros (major & minor & patch & build & Hwf & Hv).
    apply Hfull. by exists major, minor, patch, [], build.
Qed.

(** Distinct validated packages own disjoint parts of the bucket.  If two
    identities pass [validatePackageIdentity] and some key lies under the folders of
    both, they are the same name and the same version. *)
Theorem validated_folders_disjoint (name version name' version' key : string) :
  validatePackageIdentity name version = None →
  validatePackageIdentity name' version' = None →
  HasPrefix key (folder_name name version +:+ "/") = true →
  HasPrefix key (folder_name name' version' +:+ "/") = true →
  name = name' ∧ version = version'.
Proof. intros [? ?]%validated_iff [? ?]%validated_iff. by apply folder_inj. Qed.

Lemma mutableAliasPrefixes_spec (pkg version : string) (v : semver) :
  wf v = true → is_full v → "v" +:+ version = show v →
  mutableAliasPrefixes pkg version =
    [folder_name pkg latestVersionAlias; folder_name pkg (sv_major v);
     folder_name pkg (sv_major v +:+ "." +:+ sv_minor v)] ∧
  ∀ requested, requested ≠ version → versionMatches version requested = true →
    folder_name pkg requested ∈ mutableAliasPrefixes pkg version.
Proof.
  intros Hwf Hf Hv.
  assert (Hm : mutableAliasPrefixes pkg version =
    [folder_name pkg latestVersionAlias; folder_name pkg (sv_major v);
     folder_name pkg (sv_major v +:+ "." +:+ sv_minor v)]).
  { unfold mutableAliasPrefixes.
    rewrite (version_base_show v), (show_core_Split v) by done. by destruct v. }
  split; [done|]. intros requested Hne Hmatch. rewrite Hm.
  apply (versionMatches_selects v) in Hmatch; [|done..].
  destruct Hmatch as [[-> _]|[Hreq|[_ [->| ->]]]]; [| |set_solver..]; [set_solver|].
  rewrite <-Hv in Hreq. by apply str_app_inj_l in Hreq.
Qed.

(** The mutable aliases of a version are covered.  For a full version
    major.minor.patch the prefixes are those of the alias "latest", of the major and
    of the major.minor requests, and every request other than the version itself
    that the version can answer has its prefix among them. *)
Theorem mutableAliasPrefixes_cover (pkg version : string) (v : semver) :
  wf v = true → is_full v → "v" +:+ version = show v →
  mutableAliasPrefixes pkg version =
    [folder_name pkg latestVersionAlias; folder_name pkg (sv_major v);
     folder_name pkg (sv_major v +:+ "." +:+ sv_minor v)] ∧
  ∀ requested, requested ≠ version → versionMatches version requested = true →
    folder_name pkg requested ∈ mutableAliasPrefixes pkg version.
Proof. apply mutableAliasPrefixes_spec. Qed.
End properties.

(** ** The properties on a bucket *)

#[local] Existing Instance builtin_mime.

Definition versions_bucket : objectStorageManager memory := bucket_with
  [("lib@1.2.0/lib.js", "a"); ("lib@1.10.0/lib.js", "b"); ("lib@2.0.0-rc.1/lib.js", "c");
   ("lib@1.9.3/lib.js", "d"); ("library@3.0.0/lib.js", "e")].

Lemma versions_bucket_reliable : osm_reliable versions_bucket.
Proof. by apply bucket_reliable. Qed.

Lemma resolveVersion_highest_witness :
  resolveVersion versions_bucket "lib" "1" = ("1.10.0", true) ∧
  ∃ v, "v1.10.0" = show v ∧ selects "1" v.
Proof.
  assert (E : resolveVersion versions_bucket "lib" "1" = ("1.10.0", true)) by now vm_compute.
  split; [exact E|].
  pose proof (resolveVersion_highest versions_bucket "lib" "1" versions_bucket_reliable) as H.
  rewrite E in H. destruct H as (v & _ & Hv & _ & Hsel & _).
  exists v. split; [exact Hv|exact Hsel].
Defined.

Lemma ListVersions_exact_descending_witness :
  ListVersions versions_bucket "lib" = ["2.0.0-rc.1"; "1.10.0"; "1.9.3"; "1.2.0"] ∧
  StronglySorted (λ high low, sort_le ("v" +:+ low) ("v" +:+ high))
    (ListVersions versions_bucket "lib").
Proof.
  split; [by vm_compute|].
  apply (ListVersions_exact_descending versions_bucket "lib" versions_bucket_reliable).
Defined.

Lemma IsPinnedVersion_full_stable_witness :
  IsPinnedVersion "1.2.3+build.5" = true ∧ IsPinnedVersion "1.2.3-rc.1" = false ∧
  ∃ major minor patch build, wf (Full major minor patch [] build) = true ∧
    "v" +:+ "1.2.3+build.5" = show (Full major minor patch [] build).
Proof.
  split; [by vm_compute|]. split; [by vm_compute|].
  apply (IsPinnedVersion_full_stable "1.2.3+build.5"). by vm_compute.
Defined.

Lemma validated_folders_disjoint_witness :
  validatePackageIdentity "lib" "1.0.0" = None ∧ "lib" = "lib" ∧ "1.0.0" = "1.0.0".
Proof.
  split; [by vm_compute|].
  apply (validated_folders_disjoint "lib" "1.0.0" "lib" "1.0.0" "lib@1.0.0/a.js"); by vm_compute.
Defined.

Lemma mutableAliasPrefixes_cover_witness :
  mutableAliasPrefixes "lib" "1.2.3-rc.1" = ["lib@latest"; "lib@1"; "lib@1.2"].
Proof.
  apply (mutableAliasPrefixes_cover "lib" "1.2.3-rc.1" (Full "1" "2" "3" ["rc"; "1"] []));
    by vm_compute.
Defined.
