(* ===== verification/Compression.v ===== *)
(** Precompressed variants and integrity digests of archive entries
    (internal/content/compression.go, internal/content/integrity.go).

    The two compressors and the SHA-384 digest are parameters. *)
From S2P Require Import Prelude GoStrings GoFloat Zip Mime.
From Stdlib Require Import Ascii.

Definition Encoding := string.
Definition EncodingBrotli : Encoding := "br".
Definition EncodingGzip : Encoding := "gzip".

Definition compressionMinSize : Z := 1024.
Definition compressionMaxSize : Z := 8388608.

(** The float64 constant 0.8. *)
Definition compressionMinRatio : float64 := {| mant := 3602879701896397; expo := -52 |}.

Definition suffix (encoding : Encoding) : string :=
  if String.eqb encoding EncodingBrotli then ".br"
  else if String.eqb encoding EncodingGzip then ".gz"
  else "".

(** What a writer of the compressed form leaves in its buffer, or its error. *)
Class Compressors := {
  brotli_compress : string → string + string;
  gzip_compress : string → string + string;
}.

Class Digest := sha384 : string → string.

Definition compressible_types : list string :=
  ["application/javascript"; "application/json"; "application/manifest+json"; "application/xml";
   "application/xhtml+xml"; "image/svg+xml"; "application/wasm"].

Definition compressibleContentType `{MimeTable} (name : string) : string * bool :=
  let extension := ToLower (filepath_Ext name) in
  let contentType := TypeByExtension extension in
  let contentType :=
    if String.eqb contentType "" && String.eqb extension ".map" then "application/json"
    else contentType in
  if String.eqb contentType "" then ("", false)
  else
    match ParseMediaType contentType with
    | None => (contentType, false)
    | Some mediaType =>
        if HasPrefix mediaType "text/" then (contentType, true)
        else (contentType, bool_decide (mediaType ∈ compressible_types))
    end.

(** float64(len) <= compressionMinRatio*float64(size). *)
Definition worth_storing (compressed : string) (size : Z) : bool :=
  fleb (of_Z (Z.of_nat (String.length compressed))) (fmul compressionMinRatio (of_Z size)).

Section compression.
Context `{Compressors} `{Digest}.

Definition keep_variant (encoding : Encoding) (data : string) (size : Z)
    (variants : gmap Encoding string) : gmap Encoding string :=
  if worth_storing data size then <[encoding := data]> variants else variants.

(** The copy is cut one byte past the limit, which is how a larger entry is seen. *)
Definition compressVariants (file : ZipFile) : string + gmap Encoding string :=
  match zf_Open file with
  | inl err => inl err
  | inr src =>
      match copy_limited src (compressionMaxSize + 1) with
      | inl copyErr => inl copyErr
      | inr content =>
          match brotli_compress content, gzip_compress content with
          | inl brotliErr, _ => inl brotliErr
          | inr _, inl gzipErr => inl gzipErr
          | inr brotli, inr gzip =>
              let size := Z.of_nat (String.length content) in
              if (compressionMaxSize <? size)%Z then inr ∅
              else inr (keep_variant EncodingGzip gzip size (keep_variant EncodingBrotli brotli size ∅))
          end
      end
  end.

Definition show_size_error (file : ZipFile) (size : Z) : string :=
  "unexpected uncompressed size for " +:+ zf_Name file +:+ ": got " +:+ pretty size +:+
  ", want " +:+ pretty (zf_UncompressedSize64 file).

Definition fileIntegrity (file : ZipFile) : string + string :=
  match zf_Open file with
  | inl err => inl err
  | inr src =>
      let declared := zf_UncompressedSize64 file in
      if (MaxInt64 <=? declared)%Z then
        inl ("declared uncompressed size for " +:+ zf_Name file +:+ " is out of range: " +:+
             pretty declared)
      else
        match copy_limited src (declared + 1) with
        | inl err => inl err
        | inr content =>
            let size := Z.of_nat (String.length content) in
            if (size =? declared)%Z then inr ("sha384-" +:+ base64_encode (sha384 content))
            else inl (show_size_error file size)
        end
  end.
End compression.

(** ** Lemmas *)

Open Scope Z_scope.

(** On the sizes that are compressed, the float64 test is the exact ratio 4/5. *)
Lemma ratio_exact n size :
  0 ≤ n < 2 ^ 53 → 0 ≤ size ≤ compressionMaxSize →
  fleb (of_Z n) (fmul compressionMinRatio (of_Z size)) = (5 * n <=? 4 * size).
Proof.
  unfold compressionMaxSize. intros Hn Hs.
  destruct (of_Z_exact size) as [He Hm]; [lia|].
  unfold fmul, compressionMinRatio. simpl mant. simpl expo. rewrite Hm.
  set (k := - expo (of_Z size)). assert (Hk : 0 ≤ k) by lia.
  replace (-52 + expo (of_Z size)) with (- (52 + k)) by lia. rewrite Z.opp_involutive.
  rewrite (Z.max_l 0 (- _)), (Z.max_r 0 (52 + _)) by lia. rewrite Z.pow_0_r, Z.mul_1_r.
  pose proof (Z.pow_pos_nonneg 2 k) as Hpk.
  set (num := 3602879701896397 * (size * 2 ^ k)).
  assert (Hden : 2 ^ (52 + k) = 2 ^ 52 * 2 ^ k) by (apply pow2_split; lia).
  set (den := 2 ^ (52 + k)) in *.
  assert (Hd : 0 < den) by lia.
  destruct (Z.eq_dec size 0) as [->|Hnz].
  { unfold num. simpl. rewrite fleb_of_Z by (simpl; lia). simpl. rewrite Z.mul_1_r.
    destruct n; [done..|lia]. }
  unfold fround. destruct (Z.eqb_spec num 0) as [|_]; [nia|].
  assert (Hlead : last_exponent num den ≤ -28).
  { unfold last_exponent. pose proof (lead_exponent_upper num den 24). nia. }
  set (e := last_exponent num den) in *.
  rewrite (Z.max_r 0 (- e)), (Z.max_l 0 e) by lia. rewrite Z.pow_0_r, Z.mul_1_r.
  rewrite fleb_of_Z by (simpl; lia). simpl mant. simpl expo.
  set (K := 2 ^ (- e)). assert (HK : 2 ^ 28 ≤ K) by (apply Z.pow_le_mono_r; lia).
  pose proof (div_ne_error (num * K) den Hd) as Herr.
  destruct (Z.leb_spec (5 * n) (4 * size)) as [Hle|Hgt].
  - apply Z.leb_le, div_ne_ge; [done|]. unfold num. rewrite Hden. nia.
  - apply Z.leb_gt. apply Z.nle_gt. intros Hge.
    assert (H2 : 2 * (n * K * den) ≤ den + 2 * (num * K)) by nia.
    rewrite Hden in H2. unfold num in H2.
    assert (H3 : 2 * (n * K * 2 ^ 52) ≤ 2 ^ 52 + 2 * (3602879701896397 * size * K)) by nia.
    nia.
Qed.

(** A limited copy one byte past a bound sees whether the reader ends within it. *)
Lemma copy_limited_bound r bound content :
  0 ≤ bound → copy_limited r (bound + 1) = inr content →
  (Z.of_nat (String.length content) ≤ bound ∧ content = rd_data r ∧ rd_err r = None) ∨
  (Z.of_nat (String.length content) = bound + 1 ∧
   bound < Z.of_nat (String.length (rd_data r))).
Proof.
  unfold copy_limited, ReadAll. intros Hb H.
  destruct (Z.leb_spec (bound + 1) (Z.of_nat (String.length (rd_data r)))) as [Hle|Hgt].
  - right. injection H as <-. pose proof (str_take_drop (Z.to_nat (bound + 1)) (rd_data r)) as E.
    apply (f_equal String.length) in E. rewrite str_length_app, str_length_drop in E. lia.
  - left. destruct (rd_err r); [done|]. injection H as <-. split; [lia|done].
Qed.

Lemma copy_limited_within r bound :
  0 ≤ bound → rd_err r = None → Z.of_nat (String.length (rd_data r)) ≤ bound →
  copy_limited r (bound + 1) = inr (rd_data r).
Proof.
  unfold copy_limited, ReadAll. intros Hb -> Hl.
  by destruct (Z.leb_spec (bound + 1) (Z.of_nat (String.length (rd_data r)))); [lia|].
Qed.

Lemma worth_storing_exact data size :
  Z.of_nat (String.length data) < 2 ^ 53 → 0 ≤ size ≤ compressionMaxSize →
  worth_storing data size = true ↔ 5 * Z.of_nat (String.length data) ≤ 4 * size.
Proof. intros Hd Hs. unfold worth_storing. rewrite ratio_exact by lia. apply Z.leb_le. Qed.

Lemma suffix_cases encoding :
  encoding = EncodingBrotli ∨ encoding = EncodingGzip →
  suffix encoding = ".br" ∧ encoding = EncodingBrotli ∨
  suffix encoding = ".gz" ∧ encoding = EncodingGzip.
Proof. intros [-> | ->]; auto. Qed.

Section compression_properties.
Context `{Compressors} `{Digest}.

Lemma keep_variant_lookup e data size variants e' data' :
  keep_variant e data size variants !! e' = Some data' ↔
  (e' = e ∧ worth_storing data size = true ∧ data' = data) ∨
  (variants !! e' = Some data' ∧ (e' ≠ e ∨ worth_storing data size = false)).
Proof.
  unfold keep_variant. destruct (worth_storing data size).
  - rewrite lookup_insert_Some. naive_solver.
  - naive_solver.
Qed.

Lemma compressVariants_inv file variants :
  compressVariants file = inr variants →
  ∃ src content, zf_Open file = inr src ∧
    copy_limited src (compressionMaxSize + 1) = inr content ∧
    (compressionMaxSize < Z.of_nat (String.length content) ∧ variants = ∅ ∨
     Z.of_nat (String.length content) ≤ compressionMaxSize ∧
     ∃ brotli gzip, brotli_compress content = inr brotli ∧ gzip_compress content = inr gzip ∧
       let size := Z.of_nat (String.length content) in
       variants = keep_variant EncodingGzip gzip size (keep_variant EncodingBrotli brotli size ∅)).
Proof.
  unfold compressVariants. intros Hc. destruct (zf_Open file) as [|src]; [done|].
  destruct (copy_limited src _) as [|content] eqn:Hcopy; [done|].
  destruct (brotli_compress content) as [|brotli] eqn:Hb; [done|].
  destruct (gzip_compress content) as [|gzip] eqn:Hg; [done|]. exists src, content.
  destruct (Z.ltb_spec compressionMaxSize (Z.of_nat (String.length content))); simplify_eq;
    [by auto|]. split; [done|]. split; [done|]. right. eauto 10.
Qed.

(** Only worthwhile variants are kept.  When [compressVariants] succeeds, the
    variant of an encoding is the compressed content of the whole entry, kept exactly
    when the entry is at most 8 MiB and the compressed form at most four fifths of it;
    the float64 comparison of the source decides that ratio without rounding error. *)
Theorem compressVariants_worthwhile (file : ZipFile) (variants : gmap Encoding string) :
  compressVariants file = inr variants →
  ∃ src, zf_Open file = inr src ∧
    ∀ encoding data, Z.of_nat (String.length data) < 2 ^ 53 →
      variants !! encoding = Some data ↔
      rd_err src = None ∧
      Z.of_nat (String.length (rd_data src)) ≤ compressionMaxSize ∧
      5 * Z.of_nat (String.length data) ≤ 4 * Z.of_nat (String.length (rd_data src)) ∧
      (encoding = EncodingBrotli ∧ brotli_compress (rd_data src) = inr data ∨
       encoding = EncodingGzip ∧ gzip_compress (rd_data src) = inr data).
Proof.
  intros (src & content & Hopen & Hcopy & Hcase)%compressVariants_inv. exists src.
  split; [done|]. intros encoding data Hdata.
  assert (Hmax : 0 ≤ compressionMaxSize) by done.
  destruct (copy_limited_bound _ _ _ Hmax Hcopy) as [(Hl & -> & Herr)|[Hl Hgt]].
  - destruct Hcase as [[? _]|(_ & brotli & gzip & Hb & Hg & ->)]; [lia|].
    rewrite !keep_variant_lookup, lookup_empty, Hb, Hg.
    assert (Hne : EncodingGzip ≠ EncodingBrotli) by done.
    pose proof (worth_storing_exact data (Z.of_nat (String.length (rd_data src)))) as Hw.
    naive_solver lia.
  - destruct Hcase as [[_ ->]|[? _]]; [|lia]. rewrite lookup_empty. naive_solver lia.
Qed.

Lemma fileIntegrity_iff (file : ZipFile) (integrity : string) :
  0 ≤ zf_UncompressedSize64 file →
  fileIntegrity file = inr integrity ↔
  ∃ src, zf_Open file = inr src ∧ zf_UncompressedSize64 file < MaxInt64 ∧
    rd_err src = None ∧ Z.of_nat (String.length (rd_data src)) = zf_UncompressedSize64 file ∧
    integrity = "sha384-" +:+ base64_encode (sha384 (rd_data src)).
Proof.
  intros Hpos. unfold fileIntegrity. destruct (zf_Open file) as [|src]; [naive_solver|].
  destruct (Z.leb_spec MaxInt64 (zf_UncompressedSize64 file)) as [Hle|Hlt].
  { split; [done|]. intros (? & _ & ? & _). lia. }
  split.
  - destruct (copy_limited src _) as [|content] eqn:Hcopy; [done|].
    destruct (Z.eqb_spec (Z.of_nat (String.length content)) (zf_UncompressedSize64 file)); [|done].
    intros [= <-]. exists src.
    destruct (copy_limited_bound _ _ _ Hpos Hcopy) as [(_ & -> & Herr)|[? _]]; [done|lia].
  - intros (src' & [= <-] & _ & Herr & Hl & ->).
    rewrite copy_limited_within by (done || lia). by rewrite Hl, Z.eqb_refl.
Qed.

(** The digest covers exactly the declared content.  [fileIntegrity] answers an
    integrity value exactly when the entry opens, its declared size is below the int64
    bound, and its content ends without error at that size; the value is then the
    Base64 SHA-384 digest of that content. *)
Theorem fileIntegrity_exact (file : ZipFile) (integrity : string) :
  0 ≤ zf_UncompressedSize64 file →
  fileIntegrity file = inr integrity ↔
  ∃ src, zf_Open file = inr src ∧ zf_UncompressedSize64 file < MaxInt64 ∧
    rd_err src = None ∧ Z.of_nat (String.length (rd_data src)) = zf_UncompressedSize64 file ∧
    integrity = "sha384-" +:+ base64_encode (sha384 (rd_data src)).
Proof. apply fileIntegrity_iff. Qed.
End compression_properties.
Close Scope Z_scope.

(** ** Clients *)

(** What a client decodes a body with, by the value of Content-Encoding. *)
Class Decoders := {
  brotli_decode : string → option string;
  gzip_decode : string → option string;
}.

(** The compressors lose nothing. *)
Class CodecLaws `{Compressors} `{Decoders} := {
  brotli_decode_compress s d : brotli_compress s = inr d → brotli_decode d = Some s;
  gzip_decode_compress s d : gzip_compress s = inr d → gzip_decode d = Some s;
}.

Definition decode_body `{Decoders} (encoding : option Encoding) (body : string) : option string :=
  match encoding with
  | None => Some body
  | Some e =>
      if String.eqb e EncodingBrotli then brotli_decode body
      else if String.eqb e EncodingGzip then gzip_decode body
      else None
  end.

(** The variants of an entry decode to its content. *)
Lemma compressVariants_decode `{CodecLaws} file variants encoding data :
  compressVariants file = inr variants → variants !! encoding = Some data →
  ∃ src, zf_Open file = inr src ∧ decode_body (Some encoding) data = Some (rd_data src).
Proof.
  intros (src & content & Hopen & Hcopy & Hcase)%compressVariants_inv Hv. exists src. split; [done|].
  destruct Hcase as [[_ ->]|(Hl & brotli & gzip & Hb & Hg & ->)]; [by rewrite lookup_empty in Hv|].
  destruct (copy_limited_bound src compressionMaxSize content ltac:(done) Hcopy) as [(_ & -> & _)|[? _]]; [|lia].
  rewrite !keep_variant_lookup, lookup_empty in Hv. unfold decode_body.
  destruct Hv as [(-> & _ & ->)|[[(-> & _ & ->)|[? _]] _]]; [by apply gzip_decode_compress|by apply brotli_decode_compress|done].
Qed.

(** ** Compressors for examples *)

(** Every other byte. *)
Fixpoint halve (s : string) : string :=
  match s with
  | String a (String _ s) => String a (halve s)
  | _ => s
  end.

Fixpoint double (s : string) : string :=
  match s with String a s => String a (String a (double s)) | "" => "" end.

(** A text of pairs of the same byte is stored once per pair. *)
Definition pack (s : string) : string := if String.eqb s (double (halve s)) then "2" +:+ halve s else "1" +:+ s.

Definition unpack (s : string) : option string :=
  match s with
  | String a s => if Ascii.eqb a "2" then Some (double s) else if Ascii.eqb a "1" then Some s else None
  | "" => None
  end.

Lemma unpack_pack s : unpack (pack s) = Some s.
Proof. unfold pack. by destruct (String.eqb_spec s (double (halve s))) as [E|_]; [exact (f_equal Some (eq_sym E))|]. Qed.

Definition toy_compressors : Compressors :=
  {| brotli_compress s := inr ("b" +:+ pack s); gzip_compress s := inr (pack s) |}.

Definition toy_decoders : Decoders :=
  {| brotli_decode s := match s with String _ s => unpack s | "" => None end; gzip_decode := unpack |}.

Lemma toy_codec_laws : @CodecLaws toy_compressors toy_decoders.
Proof.
  split; intros s d [= <-]; [exact (unpack_pack s)|apply unpack_pack].
Qed.

Definition toy_digest : Digest := λ s, str_take 4 s.

#[local] Existing Instance toy_compressors.
#[local] Existing Instance toy_digest.

Lemma compressVariants_worthwhile_witness :
  compressVariants (text_file "a.js" "aabbaabb") = inr {["br" := "b2abab"; "gzip" := "2abab"]} ∧
  ({["br" := "b2abab"; "gzip" := "2abab"]} : gmap Encoding string) !! "br" = Some "b2abab" ∧
  (5 * 6 ≤ 4 * 8)%Z.
Proof.
  assert (E : compressVariants (text_file "a.js" "aabbaabb") =
    inr {["br" := "b2abab"; "gzip" := "2abab"]}) by now vm_compute.
  split; [exact E|].
  destruct (compressVariants_worthwhile _ _ E) as (src & Hopen & Hv).
  injection Hopen as <-. split; [now vm_compute|].
  apply (Hv "br" "b2abab"); now vm_compute.
Defined.

Lemma fileIntegrity_exact_witness :
  fileIntegrity (text_file "a.js" "alert") = inr "sha384-YWxlcg==" ∧
  ∃ src, zf_Open (text_file "a.js" "alert") = inr src ∧ rd_err src = None.
Proof.
  assert (E : fileIntegrity (text_file "a.js" "alert") = inr "sha384-YWxlcg==") by now vm_compute.
  split; [exact E|]. apply fileIntegrity_exact in E; [|now vm_compute].
  destruct E as (src & Hopen & _ & Herr & _). exists src. split; [exact Hopen|exact Herr].
Defined.
