(* ===== verification/Archive.v ===== *)
(** From the entries of an uploaded archive to the keys of its objects
    (internal/content/archive-keys.go): names are validated, ignored files dropped,
    a wrapper folder stripped, and the declared sizes checked against the limits.

    The Unicode normalisation (golang.org/x/text) and the gitignore matcher are
    parameters. *)
From S2P Require Import Prelude Order GoStrings Errors Zip.
From Stdlib Require Import Ascii.

Class Normalizer := NFC : string → string.

(** The matcher compiled from the lines of an ignore file. *)
Class IgnoreMatcher := MatchesPath : list string → string → bool.

Definition gimmeIgnoreName : string := ".gimmeignore".

Record archiveObject := {
  ao_key : string;
  ao_file : ZipFile;
}.

Record archiveFile := {
  af_name : string;
  af_original : string;
  af_file : ZipFile;
}.

Record archiveIgnore := {
  ai_file : archiveFile;
  ai_matchPrefix : string;
}.

(** A field that is not positive disables its check. *)
Record UploadLimits := {
  MaxSize : Z;
  MaxEntries : Z;
  MaxUncompressedSize : Z;
}.

Definition bad_request {A} (msg : string) : result A := fail BadRequest msg.

Definition isArchiveJunk (cleaned : string) : bool :=
  let '(firstSegment, _, _) := Cut cleaned "/" in
  String.eqb firstSegment "__MACOSX" || String.eqb (path_Base cleaned) ".DS_Store".

Definition escapes (cleaned : string) : bool :=
  String.eqb cleaned "." || String.eqb cleaned ".." || HasPrefix cleaned "../" ||
  HasPrefix cleaned "/".

Section archive.
Context `{Normalizer} `{IgnoreMatcher}.

(** One round of the loop: no entry, an entry, or the error. *)
Definition validated_entry (file : ZipFile) : result (option archiveFile) :=
  let original := zf_Name file in
  if IsDir file || HasSuffix original "/" then Ok None
  else if String.eqb original "" then bad_request "archive contains an empty entry name"
  else if HasPrefix original "/" then
    bad_request ("archive entry " +:+ Quote original +:+ " is an absolute path")
  else
    let cleaned := path_Clean (NFC original) in
    if escapes cleaned then
      bad_request ("archive entry " +:+ Quote original +:+ " escapes the package namespace")
    else if isArchiveJunk cleaned then Ok None
    else Ok (Some {| af_name := cleaned; af_original := original; af_file := file |}).

Fixpoint validate_loop (files : list ZipFile) : result (list archiveFile) :=
  match files with
  | [] => Ok []
  | file :: files =>
      (entry <-? validated_entry file;
       entries <-? validate_loop files;
       Ok (option_list entry ++ entries))%gimme
  end.

Definition validatedEntries (files : list ZipFile) : result (list archiveFile) :=
  (entries <-? validate_loop files;
   if (length entries =? 0)%nat then bad_request "archive contains no files" else Ok entries)%gimme.

Fixpoint common_folder (common : string) (entries : list archiveFile) : bool :=
  match entries with
  | [] => true
  | entry :: entries =>
      let '(root, _, found) := Cut (af_name entry) "/" in
      found && String.eqb root common && common_folder common entries
  end.

Definition singleTopLevelFolder (entries : list archiveFile) : string * bool :=
  match entries with
  | [] => ("", false)
  | entry :: rest =>
      let '(common, _, found) := Cut (af_name entry) "/" in
      if found && common_folder common rest then (common, true) else ("", false)
  end.

Definition named (name : string) (entry : archiveFile) : bool := String.eqb (af_name entry) name.

Definition findIgnoreFile (entries : list archiveFile) : option archiveIgnore :=
  match find (named gimmeIgnoreName) entries with
  | Some entry => Some {| ai_file := entry; ai_matchPrefix := "" |}
  | None =>
      let '(wrapper, hasWrapper) := singleTopLevelFolder entries in
      if negb hasWrapper then None
      else
        match find (named (wrapper +:+ "/" +:+ gimmeIgnoreName)) entries with
        | Some entry => Some {| ai_file := entry; ai_matchPrefix := wrapper +:+ "/" |}
        | None => None
        end
  end.

Definition readIgnorePatterns (file : archiveFile) : result (list string) :=
  match zf_Open (af_file file) with
  | inl err => fail InternalError ("error while opening " +:+ Quote (af_original file) +:+ ": " +:+ err)
  | inr reader =>
      match ReadAll reader with
      | inl err => fail InternalError ("error while reading " +:+ Quote (af_original file) +:+ ": " +:+ err)
      | inr contents => Ok (Split contents (byte 10))
      end
  end.

(** The entries the selected ignore file leaves. *)
Definition keep_entry (patterns : list string) (selected : archiveIgnore) (entry : archiveFile) : bool :=
  negb (String.eqb (af_name entry) (af_name (ai_file selected))) &&
  negb (MatchesPath patterns (TrimPrefix (af_name entry) (ai_matchPrefix selected))).

Definition applyIgnoreFile (entries : list archiveFile) : result (list archiveFile) :=
  match findIgnoreFile entries with
  | None => Ok entries
  | Some selected =>
      (patterns <-? readIgnorePatterns (ai_file selected);
       let kept := List.filter (keep_entry patterns selected) entries in
       if (length kept =? 0)%nat then bad_request "archive contains no files" else Ok kept)%gimme
  end.

Definition relative_path (wrapper : string) (stripWrapper : bool) (entry : archiveFile) : string :=
  if stripWrapper then TrimPrefix (af_name entry) (wrapper +:+ "/") else af_name entry.

(** The loop that builds the objects, with the original name of each key so far. *)
Fixpoint key_loop (prefix wrapper : string) (stripWrapper : bool)
    (originalByKey : gmap string string) (entries : list archiveFile) : result (list archiveObject) :=
  match entries with
  | [] => Ok []
  | entry :: entries =>
      let key := prefix +:+ relative_path wrapper stripWrapper entry in
      if negb (HasPrefix key prefix) then
        bad_request ("archive entry " +:+ Quote (af_original entry) +:+ " escapes the package namespace")
      else
        match originalByKey !! key with
        | Some previous =>
            bad_request ("archive entries " +:+ Quote previous +:+ " and " +:+
              Quote (af_original entry) +:+ " map to duplicate key " +:+ Quote key)
        | None =>
            (objects <-? key_loop prefix wrapper stripWrapper
                           (<[key := af_original entry]> originalByKey) entries;
             Ok ({| ao_key := key; ao_file := af_file entry |} :: objects))%gimme
        end
  end.

Definition objectKeys (entries : list archiveFile) (folderName : string) : result (list archiveObject) :=
  let '(wrapper, stripWrapper) := singleTopLevelFolder entries in
  key_loop (folderName +:+ "/") wrapper stripWrapper ∅ entries.

Definition archiveKeys (files : list ZipFile) (folderName : string) : result (list archiveObject) :=
  (validated <-? validatedEntries files;
   publishable <-? applyIgnoreFile validated;
   objectKeys publishable folderName)%gimme.
End archive.

(** Count and sum of the file entries; the sum stays at the largest uint64. *)
Definition count_entry (acc : Z * Z) (file : ZipFile) : Z * Z :=
  if IsDir file || HasSuffix (zf_Name file) "/" then acc
  else
    let '(entryCount, uncompressedSize) := acc in
    (entryCount + 1,
     if MaxUint64 - uncompressedSize <? zf_UncompressedSize64 file then MaxUint64
     else uncompressedSize + zf_UncompressedSize64 file)%Z.

Definition checkArchiveLimits (uploadLimits : UploadLimits) (files : list ZipFile) : option GimmeError :=
  let '(entryCount, uncompressedSize) := fold_left count_entry files (0, 0)%Z in
  if (0 <? MaxEntries uploadLimits)%Z && (MaxEntries uploadLimits <? entryCount)%Z then
    Some (NewBusinessError PayloadTooLarge
      (Some ("archive holds " +:+ pretty entryCount +:+ " entries, over the limit of " +:+
             pretty (MaxEntries uploadLimits) +:+ " (upload.max_entries)")))
  else if (0 <? MaxUncompressedSize uploadLimits)%Z &&
          (MaxUncompressedSize uploadLimits <? uncompressedSize)%Z then
    Some (NewBusinessError PayloadTooLarge
      (Some ("archive expands to " +:+ pretty uncompressedSize +:+ " bytes, over the limit of " +:+
             pretty (MaxUncompressedSize uploadLimits) +:+ " (upload.max_uncompressed_size)")))
  else None.

(** ** Specification *)

Definition safe_segment (s : string) : Prop :=
  s ≠ "" ∧ s ≠ "." ∧ s ≠ ".." ∧ char_free "/" s = true.

(** A relative path that stays below the directory it starts from. *)
Definition safe_path (p : string) : Prop := Forall safe_segment (Split p "/").

Definition file_entry (file : ZipFile) : bool := negb (IsDir file || HasSuffix (zf_Name file) "/").

(** ** Cleaned paths *)

(** Kept segments: safe ones above a block of "..". *)
Definition kept_shape (rooted : bool) (kept : list string) : Prop :=
  ∃ names n, kept = names ++ replicate n ".." ∧ Forall safe_segment names ∧
    (rooted = true → n = 0).

Lemma clean_segments_shape rooted segments kept :
  Forall (λ s, char_free "/" s = true) segments →
  kept_shape rooted kept → kept_shape rooted (clean_segments rooted kept segments).
Proof.
  intros Hfree. revert kept. induction Hfree as [|s segments Hs Hfree IH]; intros kept Hk; simpl; [done|].
  destruct (String.eqb_spec s ""); [by apply IH|].
  destruct (String.eqb_spec s "."); [by apply IH|]. simpl.
  destruct Hk as (names & n' & -> & Hnames & Hroot).
  destruct (String.eqb_spec s ".."); [|by apply IH; exists (s :: names), n'; repeat constructor].
  destruct names as [|top names]; simpl.
  - destruct n' as [|n']; simpl.
    + apply IH. destruct rooted; [by exists [], 0|]. exists [], 1. done.
    + apply IH. exists [], (S (S n')). repeat constructor. intros Hr. by specialize (Hroot Hr).
  - apply Forall_cons in Hnames as [Htop Hnames].
    destruct (String.eqb_spec top "..") as [->|_]; [by destruct Htop as (_ & _ & ? & _)|].
    apply IH. by exists names, n'.
Qed.

Lemma Split_slash_safe segs :
  segs ≠ [] → Forall safe_segment segs → Split (Join segs "/") "/" = segs.
Proof.
  intros Hne Hs. apply Split_Join; [done|]. eapply Forall_impl; [done|]. by intros s (_ & _ & _ & ?).
Qed.

(** A cleaned path that does not escape is safe. *)
Lemma path_Clean_safe p : escapes (path_Clean p) = false → safe_path (path_Clean p).
Proof.
  unfold escapes. intros Hesc. bool_hyps. unfold path_Clean in *.
  destruct (HasPrefix p "/") eqn:Hroot; [by rewrite HasPrefix_app in *|].
  destruct (clean_segments_shape false (Split p "/") []) as (names & n & Hk & Hnames & _).
  { apply Split_pieces_free. }
  { exists [], 0. done. }
  rewrite Hk, reverse_app, reverse_replicate in *.
  destruct n as [|n].
  - simpl in *. destruct (String.eqb_spec (Join (reverse names) "/") "") as [|Hne]; [done|].
    unfold safe_path. rewrite Split_slash_safe; [by apply Forall_reverse|..|by apply Forall_reverse].
    intros Hnil. by rewrite Hnil in Hne.
  - exfalso. cbn [replicate app] in *.
    destruct (replicate n ".." ++ reverse names) as [|s l]; [done|].
    rewrite Join_cons_cons in Hesc3.
    change (HasPrefix ("../" +:+ Join (s :: l) "/") "../" = false) in Hesc3.
    by rewrite HasPrefix_app in Hesc3.
Qed.

Lemma safe_path_Cut p root tail :
  safe_path p → Cut p "/" = (root, tail, true) →
  p = root +:+ "/" +:+ tail ∧ safe_segment root ∧ safe_path tail.
Proof.
  unfold safe_path. intros Hp [-> Hroot]%Cut_true. rewrite Split_app in Hp by done.
  apply Forall_cons in Hp as [? ?]. done.
Qed.

Lemma safe_path_nonempty p : safe_path p → p ≠ "".
Proof. intros Hp ->. by apply Forall_cons in Hp as [[? _] _]. Qed.

Lemma safe_path_relative p : safe_path p → HasPrefix p "/" = false.
Proof.
  intros Hp. apply HasPrefix_false. intros t ->. unfold safe_path in Hp.
  assert (Hsplit : Split ("/" +:+ t) "/" = "" :: Split t "/") by exact (Split_app "/" "" t eq_refl).
  rewrite Hsplit in Hp. by apply Forall_cons in Hp as [[? _] _].
Qed.

(** ** The wrapper folder *)

Lemma common_folder_spec common entries :
  common_folder common entries = true ↔
  Forall (λ entry, ∃ tail, Cut (af_name entry) "/" = (common, tail, true)) entries.
Proof.
  induction entries as [|entry entries IH]; simpl; [done|]. rewrite Forall_cons, <-IH.
  destruct (Cut (af_name entry) "/") as [[root tail] found]. rewrite !andb_true_iff, String.eqb_eq.
  naive_solver.
Qed.

Lemma singleTopLevelFolder_spec entries wrapper :
  singleTopLevelFolder entries = (wrapper, true) ↔
  entries ≠ [] ∧
  Forall (λ entry, ∃ tail, Cut (af_name entry) "/" = (wrapper, tail, true)) entries.
Proof.
  unfold singleTopLevelFolder. destruct entries as [|entry rest]; [naive_solver|].
  rewrite Forall_cons, <-common_folder_spec.
  destruct (Cut (af_name entry) "/") as [[common tail] found].
  destruct found; simpl; [|by split; [|intros (_ & [? [=]] & _)]].
  split.
  - destruct (common_folder common rest) eqn:E; [|done]. intros [= <-]. eauto.
  - intros (_ & [tail' [= -> ->]] & Hc). by rewrite Hc.
Qed.

(** ** Validated entries *)

Section archive_lemmas.
Context `{Normalizer} `{IgnoreMatcher}.

Lemma validated_entry_Some file entry :
  validated_entry file = Ok (Some entry) →
  file_entry file = true ∧ af_file entry = file ∧ af_original entry = zf_Name file ∧
  af_name entry = path_Clean (NFC (zf_Name file)) ∧ safe_path (af_name entry).
Proof.
  unfold validated_entry, file_entry. intros Hv.
  repeat (case_match; try done). simplify_eq/=.
  repeat split; try done. by apply path_Clean_safe.
Qed.

Lemma validated_entry_Fail file e : validated_entry file = Fail e → Kind e = BadRequest.
Proof.
  unfold validated_entry, bad_request, fail. intros Hv.
  repeat (case_match; try done); simplify_eq; done.
Qed.

(** The names that make an upload fail. *)
Definition rejected_name (file : ZipFile) : Prop :=
  file_entry file = true ∧
  (zf_Name file = "" ∨ HasPrefix (zf_Name file) "/" = true ∨
   escapes (path_Clean (NFC (zf_Name file))) = true).

Lemma validated_entry_rejects file :
  rejected_name file → ∃ e, validated_entry file = Fail e.
Proof.
  unfold rejected_name, file_entry, validated_entry. intros [Hf Hcase].
  apply negb_true_iff in Hf. rewrite Hf.
  destruct (String.eqb_spec (zf_Name file) ""); [by eexists|].
  destruct (HasPrefix (zf_Name file) "/"); [by eexists|].
  destruct Hcase as [?|[?|Hesc]]; [done..|]. rewrite Hesc. by eexists.
Qed.

Definition entry_of (file : ZipFile) : option archiveFile :=
  match validated_entry file with Ok entry => entry | Fail _ => None end.

Lemma validate_loop_Ok files entries :
  validate_loop files = Ok entries ↔
  Forall (λ file, ∃ entry, validated_entry file = Ok entry) files ∧ entries = omap entry_of files.
Proof.
  revert entries. induction files as [|file files IH]; intros entries; csimpl.
  - split; [by intros [= <-]|by intros [_ ->]].
  - rewrite Forall_cons. unfold entry_of at 1. destruct (validated_entry file) as [entry|e]; simpl.
    + destruct (validate_loop files) as [rest|e]; simpl.
      * split.
        -- intros [= <-]. destruct (proj1 (IH rest) eq_refl) as [HF ->].
           split; [by eauto|]. by destruct entry.
        -- intros [[_ HF] ->]. pose proof (proj2 (IH _) (conj HF eq_refl)) as [= ->].
           by destruct entry.
      * split; [done|]. intros [[_ HF] _]. by pose proof (proj2 (IH _) (conj HF eq_refl)).
    + split; [done|]. intros [[[? ?] _] _]. done.
Qed.

Lemma validate_loop_Fail files e : validate_loop files = Fail e → Kind e = BadRequest.
Proof.
  induction files as [|file files IH]; simpl; [done|].
  destruct (validated_entry file) eqn:Hv; simpl; [|intros [= ->]; by eapply validated_entry_Fail].
  destruct (validate_loop files); simpl; [done|]. auto.
Qed.

Lemma validatedEntries_Ok files entries :
  validatedEntries files = Ok entries ↔ validate_loop files = Ok entries ∧ entries ≠ [].
Proof.
  unfold validatedEntries. destruct (validate_loop files) as [l|e]; simpl; [|naive_solver].
  destruct l; naive_solver.
Qed.

Lemma entry_of_Some file entry :
  entry_of file = Some entry → validated_entry file = Ok (Some entry).
Proof. unfold entry_of. destruct (validated_entry file); naive_solver. Qed.

(** What is known of every validated entry. *)
Definition entry_ok (files : list ZipFile) (entry : archiveFile) : Prop :=
  af_file entry ∈ files ∧ file_entry (af_file entry) = true ∧
  af_name entry = path_Clean (NFC (zf_Name (af_file entry))) ∧ safe_path (af_name entry).

Lemma validatedEntries_entries files entries :
  validatedEntries files = Ok entries → Forall (entry_ok files) entries.
Proof.
  intros [[_ ->]%validate_loop_Ok _]%validatedEntries_Ok. apply Forall_forall.
  intros entry (file & Hin & He)%list_elem_of_omap.
  apply entry_of_Some, validated_entry_Some in He as (? & <- & _ & ? & ?). done.
Qed.

(** ** Publishable entries *)

Lemma applyIgnoreFile_Ok entries kept :
  applyIgnoreFile entries = Ok kept →
  kept = entries ∧ findIgnoreFile entries = None ∨
  ∃ selected patterns, findIgnoreFile entries = Some selected ∧
    readIgnorePatterns (ai_file selected) = Ok patterns ∧
    kept = List.filter (keep_entry patterns selected) entries ∧ kept ≠ [].
Proof.
  unfold applyIgnoreFile. destruct (findIgnoreFile entries) as [selected|]; [|naive_solver].
  intros (patterns & Hp & Hk)%result_bind_Ok. right. exists selected, patterns.
  destruct (List.filter _ entries); naive_solver.
Qed.

Lemma applyIgnoreFile_subset entries kept :
  applyIgnoreFile entries = Ok kept → entries ≠ [] →
  kept ≠ [] ∧ ∀ entry, entry ∈ kept → entry ∈ entries.
Proof.
  intros [[-> _]|(selected & patterns & _ & _ & -> & Hne)]%applyIgnoreFile_Ok Hne'; [done|].
  split; [done|]. intros entry Hin. apply list_elem_of_In, filter_In in Hin as [? _].
  by apply list_elem_of_In.
Qed.

(** ** Keys *)

Lemma key_loop_Ok prefix wrapper strip seen entries objects :
  key_loop prefix wrapper strip seen entries = Ok objects ↔
  map ao_file objects = map af_file entries ∧
  map ao_key objects = map (λ e, prefix +:+ relative_path wrapper strip e) entries ∧
  NoDup (map ao_key objects) ∧ Forall (λ k, seen !! k = None) (map ao_key objects).
Proof.
  revert seen objects. induction entries as [|entry entries IH]; intros seen objects; simpl.
  - split; [intros [= <-]; repeat constructor|]. intros (Hm & _). by destruct objects.
  - rewrite HasPrefix_app. simpl. set (key := prefix +:+ _).
    destruct (seen !! key) as [previous|] eqn:Hseen.
    + split; [done|]. intros (_ & Hk & _ & HF). exfalso. destruct objects as [|o objects]; [done|].
      simpl in *. injection Hk as Hk _. apply Forall_cons in HF as [HF _]. congruence.
    + rewrite result_bind_Ok. setoid_rewrite IH. split.
      * intros (rest & (Hf & Hk & Hnd & HF) & [= <-]). simpl. rewrite Hf, Hk.
        split; [done|]. split; [done|]. rewrite Hk in HF, Hnd. split.
        -- constructor; [|done]. intros Hin. rewrite Forall_forall in HF.
           specialize (HF _ Hin). simpl in HF. by rewrite lookup_insert_eq in HF.
        -- constructor; [done|]. eapply Forall_impl; [done|]. simpl.
           intros k. rewrite lookup_insert_None. by intros [? _].
      * intros (Hf & Hk & Hnd & HF). destruct objects as [|[k f] rest]; [done|]. simpl in *.
        injection Hf as -> Hf. injection Hk as -> Hk. apply NoDup_cons in Hnd as [Hni Hnd].
        apply Forall_cons in HF as [_ HF]. exists rest. split; [|done].
        repeat split; try done. apply Forall_forall. intros k Hin. rewrite lookup_insert_None.
        rewrite Forall_forall in HF. split; [by apply HF|]. by intros <-.
Qed.

Lemma relative_path_safe files entries wrapper strip :
  singleTopLevelFolder entries = (wrapper, strip) → Forall (entry_ok files) entries →
  Forall (λ e, safe_path (relative_path wrapper strip e)) entries.
Proof.
  intros Hw Hok. unfold relative_path. destruct strip.
  - apply singleTopLevelFolder_spec in Hw as [_ Hw]. rewrite Forall_forall in Hok, Hw |- *.
    intros entry Hin. destruct (Hw _ Hin) as [tail Hcut]. destruct (Hok _ Hin) as (_ & _ & _ & Hsafe).
    destruct (safe_path_Cut _ _ _ Hsafe Hcut) as (-> & _ & Htail).
    by rewrite <-str_app_assoc, TrimPrefix_app.
  - eapply Forall_impl; [done|]. by intros e (_ & _ & _ & ?).
Qed.
End archive_lemmas.

(** ** Limits *)

Open Scope Z_scope.

Definition declared_sizes (files : list ZipFile) : list Z :=
  map zf_UncompressedSize64 (List.filter file_entry files).

Definition sum_Z (l : list Z) : Z := foldr Z.add 0 l.

Lemma sum_Z_nonneg l : Forall (λ z, 0 ≤ z) l → 0 ≤ sum_Z l.
Proof. induction 1; simpl; lia. Qed.

Lemma declared_sizes_cons f files :
  declared_sizes (f :: files) =
  if IsDir f || HasSuffix (zf_Name f) "/" then declared_sizes files
  else zf_UncompressedSize64 f :: declared_sizes files.
Proof.
  unfold declared_sizes. cbn [List.filter]. unfold file_entry at 1.
  by destruct (IsDir f || HasSuffix (zf_Name f) "/").
Qed.

(** The saturating sum is the exact sum, cut at the largest uint64. *)
Lemma count_entries_spec files count total :
  Forall (λ f, 0 ≤ zf_UncompressedSize64 f ≤ MaxUint64) files → 0 ≤ total →
  fold_left count_entry files (count, Z.min total MaxUint64) =
  (count + Z.of_nat (length (declared_sizes files)),
   Z.min (total + sum_Z (declared_sizes files)) MaxUint64).
Proof.
  intros Hf. revert count total. induction Hf as [|f files Hf Hfs IH]; intros count total Htot.
  - simpl. by rewrite !Z.add_0_r.
  - rewrite declared_sizes_cons. cbn [fold_left]. unfold count_entry at 2.
    destruct (IsDir f || HasSuffix (zf_Name f) "/"); [by apply IH|].
    assert (Hsat : (if MaxUint64 - Z.min total MaxUint64 <? zf_UncompressedSize64 f then MaxUint64
                    else Z.min total MaxUint64 + zf_UncompressedSize64 f) =
                   Z.min (total + zf_UncompressedSize64 f) MaxUint64).
    { destruct (Z.ltb_spec (MaxUint64 - Z.min total MaxUint64) (zf_UncompressedSize64 f)); lia. }
    rewrite Hsat, IH by lia. cbn [length sum_Z foldr]. fold (sum_Z (declared_sizes files)).
    f_equal; [|f_equal]; lia.
Qed.

Lemma checkArchiveLimits_None limits files :
  Forall (λ f, 0 ≤ zf_UncompressedSize64 f ≤ MaxUint64) files →
  checkArchiveLimits limits files = None ↔
  (MaxEntries limits ≤ 0 ∨ Z.of_nat (length (declared_sizes files)) ≤ MaxEntries limits) ∧
  (MaxUncompressedSize limits ≤ 0 ∨
   Z.min (sum_Z (declared_sizes files)) MaxUint64 ≤ MaxUncompressedSize limits).
Proof.
  intros Hf. unfold checkArchiveLimits.
  change (0, 0) with (0, Z.min 0 MaxUint64). rewrite count_entries_spec by (done || lia).
  rewrite !Z.add_0_l.
  destruct (Z.ltb_spec 0 (MaxEntries limits));
    destruct (Z.ltb_spec (MaxEntries limits) (Z.of_nat (length (declared_sizes files))));
    simpl; try (split; [done|lia]);
    destruct (Z.ltb_spec 0 (MaxUncompressedSize limits));
    destruct (Z.ltb_spec (MaxUncompressedSize limits) (Z.min (sum_Z (declared_sizes files)) MaxUint64));
    simpl; split; try done; lia.
Qed.

Lemma checkArchiveLimits_Some limits files e :
  checkArchiveLimits limits files = Some e → Kind e = PayloadTooLarge.
Proof. unfold checkArchiveLimits. intros Hc. repeat (case_match; try done); by simplify_eq. Qed.
Close Scope Z_scope.

(** ** Properties *)

(** The path an entry is published under: its name, or what follows the folder all
    the entries of the archive are nested in. *)
Definition published_name (entries : list archiveFile) (entry : archiveFile) : string :=
  let '(wrapper, nested) := singleTopLevelFolder entries in
  if nested then (Cut (af_name entry) "/").1.2 else af_name entry.

Section archive_properties.
Context `{Normalizer} `{IgnoreMatcher}.

Lemma relative_path_published files entries wrapper strip :
  singleTopLevelFolder entries = (wrapper, strip) → Forall (entry_ok files) entries →
  ∀ entry, entry ∈ entries → relative_path wrapper strip entry = published_name entries entry.
Proof.
  intros Hw Hok entry Hin. unfold relative_path, published_name. rewrite Hw. destruct strip; [|done].
  apply singleTopLevelFolder_spec in Hw as [_ Hw]. rewrite Forall_forall in Hw.
  destruct (Hw _ Hin) as [tail Hcut]. rewrite Hcut. simpl.
  apply Cut_true in Hcut as [-> _]. 
  change (wrapper +:+ String "/" tail) with (wrapper +:+ "/" +:+ tail).
  by rewrite <-str_app_assoc, TrimPrefix_app.
Qed.

Lemma objectKeys_Ok files entries folder objects :
  Forall (entry_ok files) entries →
  objectKeys entries folder = Ok objects ↔
  map ao_file objects = map af_file entries ∧
  map ao_key objects = map (λ e, folder +:+ "/" +:+ published_name entries e) entries ∧
  NoDup (map ao_key objects).
Proof.
  intros Hok. unfold objectKeys.
  destruct (singleTopLevelFolder entries) as [wrapper strip] eqn:Hw. rewrite key_loop_Ok.
  assert (Hkeys : map (λ e, (folder +:+ "/") +:+ relative_path wrapper strip e) entries =
                  map (λ e, folder +:+ "/" +:+ published_name entries e) entries).
  { apply map_ext_in. intros entry Hin%list_elem_of_In.
    by rewrite str_app_assoc, (relative_path_published files _ _ _ Hw Hok). }
  rewrite Hkeys. split; [naive_solver|]. intros (? & ? & ?). repeat split; try done.
  apply Forall_forall. intros k _. apply lookup_empty.
Qed.

Lemma archiveKeys_spec (files : list ZipFile) (folder : string) objects :
  archiveKeys files folder = Ok objects →
  objects ≠ [] ∧ NoDup (map ao_key objects) ∧
  ∀ object, object ∈ objects →
    ao_file object ∈ files ∧ file_entry (ao_file object) = true ∧
    ∃ path, safe_path path ∧ ao_key object = folder +:+ "/" +:+ path.
Proof.
  unfold archiveKeys.
  intros (entries & Hv & (kept & Hk & Hkeys)%result_bind_Ok)%result_bind_Ok.
  pose proof (validatedEntries_entries _ _ Hv) as Hok.
  apply validatedEntries_Ok in Hv as [_ Hne].
  destruct (applyIgnoreFile_subset _ _ Hk Hne) as [Hkne Hsub].
  assert (Hok' : Forall (entry_ok files) kept).
  { apply Forall_forall. intros entry Hin. rewrite Forall_forall in Hok. auto. }
  pose proof (proj1 (objectKeys_Ok _ _ _ _ Hok') Hkeys) as (Hf & Hkey & Hnd).
  split; [by intros ->; destruct kept|]. split; [done|]. intros object Hin.
  apply list_elem_of_lookup in Hin as [i Hi].
  assert (He : ∃ entry, kept !! i = Some entry ∧ af_file entry = ao_file object ∧
                 ao_key object = folder +:+ "/" +:+ published_name kept entry).
  { assert (Hfi : map ao_file objects !! i = map af_file kept !! i) by by rewrite Hf.
    assert (Hki : map ao_key objects !! i =
      map (λ e, folder +:+ "/" +:+ published_name kept e) kept !! i) by by rewrite Hkey.
    rewrite !lookup_map, Hi in Hfi. rewrite !lookup_map, Hi in Hki.
    destruct (kept !! i) as [entry|]; [|done]. simpl in *. simplify_eq. by exists entry. }
  destruct He as (entry & Hentry%list_elem_of_lookup_2 & <- & Hkey').
  destruct (singleTopLevelFolder kept) as [wrapper strip] eqn:Hw.
  pose proof (relative_path_safe _ _ _ _ Hw Hok') as Hsafe.
  rewrite Forall_forall in Hsafe, Hok'. destruct (Hok' _ Hentry) as (? & ? & _ & _).
  split; [done|]. split; [done|]. exists (published_name kept entry). split; [|done].
  rewrite <-(relative_path_published files kept wrapper strip); [|done|by apply Forall_forall|done].
  by apply Hsafe.
Qed.

(** C12: published keys are confined and distinct.  When [archiveKeys] succeeds there is
    at least one object; the keys are pairwise distinct; and each is the package folder
    followed by a non-empty relative path without empty, "." or ".." segments, taken
    from a file entry of the archive. *)
Theorem archiveKeys_confined (files : list ZipFile) (folder : string) objects :
  archiveKeys files folder = Ok objects →
  objects ≠ [] ∧ NoDup (map ao_key objects) ∧
  ∀ object, object ∈ objects →
    ao_file object ∈ files ∧ file_entry (ao_file object) = true ∧
    ∃ path, safe_path path ∧ ao_key object = folder +:+ "/" +:+ path.
Proof. apply archiveKeys_spec. Qed.

(** An escaping name rejects the whole archive.  If some file entry has an empty
    name, an absolute name, or a name whose cleaned form leaves the package folder,
    [archiveKeys] fails with a bad request, whatever the other entries are. *)
Theorem archiveKeys_rejects_escape (files : list ZipFile) (folder : string) (file : ZipFile) :
  file ∈ files → rejected_name file →
  ∃ e, archiveKeys files folder = Fail e ∧ Kind e = BadRequest.
Proof.
  intros Hin Hrej. destruct (validated_entry_rejects _ Hrej) as [e He].
  unfold archiveKeys, validatedEntries.
  destruct (validate_loop files) as [entries|e'] eqn:Hloop; simpl.
  - apply validate_loop_Ok in Hloop as [HF _]. rewrite Forall_forall in HF.
    destruct (HF _ Hin) as [entry Hentry]. congruence.
  - exists e'. split; [done|]. by eapply validate_loop_Fail.
Qed.

(** An archive without an ignore file is published whole.  Its validated entries
    become, in order, the objects of the package, each under its cleaned name less the
    single folder that wraps the archive if there is one; the only other outcome is the
    failure of two entries with the same published name. *)
Theorem archiveKeys_whole (files : list ZipFile) (folder : string) entries :
  validatedEntries files = Ok entries → findIgnoreFile entries = None →
  (∃ objects, archiveKeys files folder = Ok objects ∧
     map ao_file objects = map af_file entries ∧
     map ao_key objects = map (λ e, folder +:+ "/" +:+ published_name entries e) entries) ↔
  NoDup (map (published_name entries) entries).
Proof.
  intros Hv Hnone. pose proof (validatedEntries_entries _ _ Hv) as Hok.
  unfold archiveKeys, applyIgnoreFile. rewrite Hv. simpl. rewrite Hnone. simpl.
  assert (Hnd : NoDup (map (λ e, folder +:+ "/" +:+ published_name entries e) entries) ↔
                NoDup (map (published_name entries) entries)).
  { rewrite <-(map_map (published_name entries) (λ p, folder +:+ "/" +:+ p)).
    apply NoDup_fmap. intros p q E. by rewrite <-!str_app_assoc, str_app_inj_l in E. }
  split.
  - intros (objects & Hkeys & _). apply (objectKeys_Ok files) in Hkeys as (_ & Hk & Hnd'); [|done].
    by rewrite Hk, Hnd in Hnd'.
  - intros Hnd'. exists (map (λ e, {| ao_key := folder +:+ "/" +:+ published_name entries e;
                                    ao_file := af_file e |}) entries).
    rewrite (objectKeys_Ok files), !map_map by done. simpl. by rewrite Hnd.
Qed.

(** An ignore file excludes exactly what it matches.  When the archive root holds a
    .gimmeignore, or the folder that wraps the whole archive does, the published files
    are those of the validated entries other than the ignore file that its patterns do
    not match, the names being taken relative to where the ignore file is. *)
Theorem archiveKeys_ignored (files : list ZipFile) (folder : string) entries ignore reader
    matchPrefix objects :
  validatedEntries files = Ok entries →
  (find (named gimmeIgnoreName) entries = Some ignore ∧ matchPrefix = "" ∨
   find (named gimmeIgnoreName) entries = None ∧
   ∃ wrapper, singleTopLevelFolder entries = (wrapper, true) ∧ matchPrefix = wrapper +:+ "/" ∧
     find (named (wrapper +:+ "/" +:+ gimmeIgnoreName)) entries = Some ignore) →
  zf_Open (af_file ignore) = inr reader →
  archiveKeys files folder = Ok objects →
  map ao_file objects =
    map af_file (List.filter (λ e, negb (String.eqb (af_name e) (af_name ignore)) &&
      negb (MatchesPath (Split (rd_data reader) (byte 10)) (TrimPrefix (af_name e) matchPrefix)))
      entries).
Proof.
  intros Hv Hfind Hopen Hkeys.
  assert (Hsel : findIgnoreFile entries = Some {| ai_file := ignore; ai_matchPrefix := matchPrefix |}).
  { unfold findIgnoreFile. destruct Hfind as [[-> ->]|(-> & wrapper & -> & -> & Hf)]; [done|].
    simpl. by rewrite Hf. }
  pose proof (validatedEntries_entries _ _ Hv) as Hok.
  unfold archiveKeys in Hkeys. rewrite Hv in Hkeys. simpl in Hkeys.
  apply result_bind_Ok in Hkeys as (kept & Hk & Hkeys).
  apply applyIgnoreFile_Ok in Hk as [[_ Hk]|(selected & patterns & Hk & Hp & -> & _)]; [congruence|].
  rewrite Hsel in Hk. injection Hk as <-. unfold readIgnorePatterns in Hp. simpl in Hp.
  rewrite Hopen in Hp. unfold ReadAll in Hp. destruct (rd_err reader); [done|]. injection Hp as <-.
  apply (objectKeys_Ok files) in Hkeys as (-> & _ & _); [done|].
  apply Forall_forall. intros e Hin%list_elem_of_In. apply filter_In in Hin as [Hin _].
  rewrite Forall_forall in Hok. by apply Hok, list_elem_of_In.
Qed.

(** C40: the upload limits are checked on exact totals.  For sizes in the uint64 range
    and a limit in the int64 range, an archive passes exactly when each enabled limit
    bounds the number of file entries, respectively the true sum of their declared
    sizes, even where that sum would overflow 64 bits; a refusal is the 413 error. *)
Theorem checkArchiveLimits_exact (limits : UploadLimits) (files : list ZipFile) :
  Forall (λ f, 0 ≤ zf_UncompressedSize64 f ≤ MaxUint64)%Z files →
  (MaxUncompressedSize limits ≤ MaxInt64)%Z →
  (checkArchiveLimits limits files = None ↔
   (MaxEntries limits ≤ 0 ∨ Z.of_nat (length (declared_sizes files)) ≤ MaxEntries limits)%Z ∧
   (MaxUncompressedSize limits ≤ 0 ∨
    sum_Z (declared_sizes files) ≤ MaxUncompressedSize limits)%Z) ∧
  ∀ e, checkArchiveLimits limits files = Some e → GetHTTPCode e = 413%Z.
Proof.
  intros Hf Hlim. split.
  - rewrite checkArchiveLimits_None by done.
    unfold MaxInt64, MaxUint64 in *. lia.
  - intros e He%checkArchiveLimits_Some. unfold GetHTTPCode. by rewrite He.
Qed.
End archive_properties.

(** ** The properties on archives *)

(** Names already normalised, and patterns that are whole paths. *)
Definition plain_names : Normalizer := λ s, s.
Definition whole_paths : IgnoreMatcher := λ patterns path, bool_decide (path ∈ patterns).

#[local] Existing Instance plain_names.
#[local] Existing Instance whole_paths.

Definition wrapped_archive : list ZipFile :=
  [text_file "dist/a.js" "1"; text_file "dist//lib/../b.css" "2"; text_file "__MACOSX/x" "3"].

Definition wrapped_entries : list archiveFile :=
  [{| af_name := "dist/a.js"; af_original := "dist/a.js"; af_file := text_file "dist/a.js" "1" |};
   {| af_name := "dist/b.css"; af_original := "dist//lib/../b.css";
      af_file := text_file "dist//lib/../b.css" "2" |}].

Definition ignored_archive : list ZipFile :=
  [text_file "dist/a.js" "1"; text_file "dist/.gimmeignore" "secret.txt"; text_file "dist/secret.txt" "2"].

Lemma archiveKeys_confined_witness :
  archiveKeys wrapped_archive "lib@1.0.0" =
    Ok [{| ao_key := "lib@1.0.0/a.js"; ao_file := text_file "dist/a.js" "1" |};
        {| ao_key := "lib@1.0.0/b.css"; ao_file := text_file "dist//lib/../b.css" "2" |}] ∧
  NoDup ["lib@1.0.0/a.js"; "lib@1.0.0/b.css"].
Proof.
  assert (E : archiveKeys wrapped_archive "lib@1.0.0" =
    Ok [{| ao_key := "lib@1.0.0/a.js"; ao_file := text_file "dist/a.js" "1" |};
        {| ao_key := "lib@1.0.0/b.css"; ao_file := text_file "dist//lib/../b.css" "2" |}])
    by now vm_compute.
  split; [exact E|]. exact (proj1 (proj2 (archiveKeys_confined _ _ _ E))).
Defined.

Lemma archiveKeys_rejects_escape_witness :
  ∃ e, archiveKeys [text_file "a.js" "1"; text_file "x/../../etc/passwd" "2"] "lib@1.0.0" = Fail e ∧
    Kind e = BadRequest.
Proof.
  apply (archiveKeys_rejects_escape _ _ (text_file "x/../../etc/passwd" "2")).
  - right. left.
  - split; [now vm_compute|]. right. right. now vm_compute.
Defined.

Lemma archiveKeys_whole_witness :
  ∃ objects, archiveKeys wrapped_archive "lib@1.0.0" = Ok objects ∧
    map ao_file objects = map af_file wrapped_entries ∧
    map ao_key objects = map (λ e, "lib@1.0.0" +:+ "/" +:+ published_name wrapped_entries e) wrapped_entries.
Proof.
  apply archiveKeys_whole; [now vm_compute..|].
  repeat constructor; set_solver.
Defined.

Lemma archiveKeys_ignored_witness :
  ∃ objects, archiveKeys ignored_archive "lib@1.0.0" = Ok objects ∧
    map ao_file objects = [text_file "dist/a.js" "1"].
Proof.
  eexists. split; [now vm_compute|].
  rewrite (archiveKeys_ignored ignored_archive "lib@1.0.0"
    (map (λ f, {| af_name := zf_Name f; af_original := zf_Name f; af_file := f |}) ignored_archive)
    {| af_name := "dist/.gimmeignore"; af_original := "dist/.gimmeignore";
       af_file := text_file "dist/.gimmeignore" "secret.txt" |}
    {| rd_data := "secret.txt"; rd_err := None |} "dist/"); [now vm_compute..| | |now vm_compute].
  - right. split; [now vm_compute|]. exists "dist". split; [now vm_compute|].
    split; now vm_compute.
  - now vm_compute.
Defined.

Lemma checkArchiveLimits_exact_witness :
  checkArchiveLimits {| MaxSize := 0; MaxEntries := 2; MaxUncompressedSize := 2 |} wrapped_archive ≠ None ∧
  checkArchiveLimits {| MaxSize := 0; MaxEntries := 3; MaxUncompressedSize := 3 |} wrapped_archive = None.
Proof.
  split; [now vm_compute|].
  apply checkArchiveLimits_exact; [|now vm_compute|].
  - repeat constructor; now vm_compute.
  - split; right; now vm_compute.
Defined.
