(* ===== verification/Cache.v ===== *)
(** The cache of resolved object paths (internal/cache): its interface, and its
    implementation over a Redis client, a package the sources only call.

    [RedisClient] has an operation per command the cache issues, and [RedisLaws] what
    Redis documents of them: in particular that a full SCAN iteration returns every
    element that stays in the keyspace from its start to its end.  Time does not
    pass inside an operation; between operations entries may expire. *)
From S2P Require Import Prelude GoStrings.
From Stdlib Require Import Ascii.

Record CacheEntry := { ObjectPath : string }.

(** ** The interface *)

Class CacheManager (K : Type) := {
  cm_Get : K → string → option CacheEntry;
  cm_Set : K → string → CacheEntry → Z → option string * K;
  cm_Delete : K → string → option string * K;
  cm_DeleteByPrefix : K → string → option string * K;
}.

(** A prefix without the characters that are special in a glob pattern. *)
Definition plain_prefix (prefix : string) : bool :=
  char_free "*" prefix && char_free "?" prefix && char_free "[" prefix && char_free "\" prefix.

Class CacheLaws (K : Type) `{CacheManager K} := {
  cm_view : K → gmap string CacheEntry;
  (** The entries the serialisation keeps. *)
  cm_storable : CacheEntry → Prop;
  cm_Get_ok k key entry : cm_Get k key = Some entry → cm_view k !! key = Some entry;
  cm_Set_spec k key entry ttl err k' :
    cm_Set k key entry ttl = (err, k') → cm_storable entry →
    (err = None → cm_view k' !! key = Some entry) ∧
    (cm_view k' !! key = Some entry ∨ cm_view k' !! key = cm_view k !! key);
  (** No operation of this state fails. *)
  cm_reliable : K → Prop;
  cm_Set_reliable k key entry ttl err k' :
    cm_Set k key entry ttl = (err, k') → cm_reliable k → cm_reliable k';
  cm_Set_frame k key entry ttl err k' key' :
    cm_Set k key entry ttl = (err, k') → key' ≠ key → cm_view k' !! key' = cm_view k !! key';
  cm_DeleteByPrefix_reliable k prefix :
    cm_reliable k → ∃ k', cm_DeleteByPrefix k prefix = (None, k') ∧ cm_reliable k';
  cm_DeleteByPrefix_spec k prefix err k' :
    cm_DeleteByPrefix k prefix = (err, k') → plain_prefix prefix = true →
    cm_view k' ⊆ cm_view k ∧
    (∀ key, HasPrefix key prefix = false → cm_view k' !! key = cm_view k !! key) ∧
    (err = None → ∀ key, HasPrefix key prefix = true → cm_view k' !! key = None);
}.

(** ** The Redis client *)

Inductive redis_reply := RedisNil | RedisErr (err : string) | RedisValue (value : string).

Class RedisClient (R : Type) := {
  redis_Get : R → string → redis_reply;
  redis_Set : R → string → string → Z → option string * R;
  redis_Del : R → list string → (string + Z) * R;
  redis_Scan : R → N → string → Z → string + (list string * N);
}.

Class RedisLaws (R : Type) `{RedisClient R} := {
  redis_view : R → gmap string string;
  (** Keys a SCAN iteration at this cursor has still to return, and an upper bound
      on its remaining calls. *)
  scan_left : R → N → string → Prop;
  scan_calls : R → N → nat;
  redis_Get_value r k v : redis_Get r k = RedisValue v → redis_view r !! k = Some v;
  redis_Get_nil r k : redis_Get r k = RedisNil → redis_view r !! k = None;
  redis_Set_spec r k v ttl err r' :
    redis_Set r k v ttl = (err, r') →
    (err = None → redis_view r' = <[k := v]> (redis_view r)) ∧
    (redis_view r' !! k = Some v ∨ redis_view r' !! k = redis_view r !! k) ∧
    ∀ k', k' ≠ k → redis_view r' !! k' = redis_view r !! k';
  redis_Del_spec r keys res r' :
    redis_Del r keys = (res, r') →
    redis_view r' ⊆ redis_view r ∧
    (∀ k, k ∉ keys → redis_view r' !! k = redis_view r !! k) ∧
    (∀ n k, res = inr n → k ∈ keys → redis_view r' !! k = None);
  redis_Del_scan r keys res r' c k :
    redis_Del r keys = (res, r') →
    scan_calls r' c ≤ scan_calls r c ∧ (scan_left r c k → is_Some (redis_view r' !! k) → scan_left r' c k);
  redis_reliable : R → Prop;
  redis_Set_reliable r k v ttl err r' : redis_Set r k v ttl = (err, r') → redis_reliable r → redis_reliable r';
  redis_Scan_reliable r c pattern count :
    redis_reliable r → ∃ page, redis_Scan r c pattern count = inr page;
  redis_Del_reliable r keys :
    redis_reliable r → ∃ n r', redis_Del r keys = (inr n, r') ∧ redis_reliable r';
  scan_start r k : is_Some (redis_view r !! k) → scan_left r 0 k;
  redis_Scan_spec r c prefix count keys next :
    redis_Scan r c (prefix +:+ "*") count = inr (keys, next) → plain_prefix prefix = true →
    (∀ k, k ∈ keys → HasPrefix k prefix = true) ∧
    (∀ k, scan_left r c k → is_Some (redis_view r !! k) → HasPrefix k prefix = true →
       k ∈ keys ∨ next ≠ 0%N ∧ scan_left r next k);
  redis_Scan_calls r c pattern count keys next :
    redis_Scan r c pattern count = inr (keys, next) → next ≠ 0%N →
    scan_calls r next < scan_calls r c;
}.

(** The JSON form of an entry; strings that are not valid UTF-8 do not survive it. *)
Class EntryCodec := {
  entry_Marshal : CacheEntry → string + string;
  entry_Unmarshal : string → option CacheEntry;
}.

Class EntryCodecLaws `{EntryCodec} := {
  entry_valid : CacheEntry → Prop;
  entry_roundtrip e : entry_valid e → ∃ data, entry_Marshal e = inr data ∧ entry_Unmarshal data = Some e;
}.

(** ** The Redis cache *)

Section redis_cache.
Context {R : Type} `{RedisClient R} `{EntryCodec}.

Record redisCache := { rc_client : R }.

Definition Get (r : redisCache) (key : string) : option CacheEntry :=
  match redis_Get (rc_client r) key with
  | RedisValue val => entry_Unmarshal val
  | _ => None
  end.

Definition Set_ (r : redisCache) (key : string) (entry : CacheEntry) (ttl : Z)
    : option string * redisCache :=
  match entry_Marshal entry with
  | inl err => (Some ("error serializing cache entry: " +:+ err), r)
  | inr data =>
      let '(err, client) := redis_Set (rc_client r) key data ttl in
      match err with
      | Some err => (Some ("error storing cache entry for key " +:+ key +:+ ": " +:+ err),
                     {| rc_client := client |})
      | None => (None, {| rc_client := client |})
      end
  end.

Definition Delete (r : redisCache) (key : string) : option string * redisCache :=
  match redis_Del (rc_client r) [key] with
  | (inl err, client) => (Some ("error deleting cache entry for key " +:+ key +:+ ": " +:+ err),
                          {| rc_client := client |})
  | (inr _, client) => (None, {| rc_client := client |})
  end.

(** The SCAN loop, a call per unit of fuel; [None] when the fuel runs out. *)
Fixpoint scan_loop (fuel : nat) (client : R) (prefix : string) (cursor : N)
    : option (option string * R) :=
  match fuel with
  | O => None
  | S fuel =>
      match redis_Scan client cursor (prefix +:+ "*") 100 with
      | inl err => Some (Some ("error scanning keys with prefix " +:+ prefix +:+ ": " +:+ err), client)
      | inr (keys, nextCursor) =>
          let '(res, client) := if (0 <? length keys)%nat then redis_Del client keys else (inr 0%Z, client) in
          match res with
          | inl err =>
              Some (Some ("error deleting keys with prefix " +:+ prefix +:+ ": " +:+ err), client)
          | inr _ =>
              if (nextCursor =? 0)%N then Some (None, client)
              else scan_loop fuel client prefix nextCursor
          end
      end
  end.
End redis_cache.
Arguments redisCache R : clear implicits.

(** Enough fuel for the loop: the bound on the calls of the iteration. *)
Definition DeleteByPrefix {R} `{RedisLaws R} (r : redisCache R) (prefix : string)
    : option string * redisCache R :=
  match scan_loop (S (scan_calls (rc_client r) 0)) (rc_client r) prefix 0 with
  | Some (err, client) => (err, {| rc_client := client |})
  | None => (Some "", r)
  end.

#[export] Instance redis_cache_manager {R} `{RedisLaws R} `{EntryCodec} :
    CacheManager (redisCache R) := {|
  cm_Get := Get;
  cm_Set := Set_;
  cm_Delete := Delete;
  cm_DeleteByPrefix := DeleteByPrefix;
|}.

(** ** Lemmas *)

Section redis_lemmas.
Context {R : Type} `{RedisLaws R}.

(** The loop ends within the calls the iteration has left. *)
Lemma scan_loop_terminates fuel r prefix cursor :
  scan_calls r cursor < fuel → is_Some (scan_loop fuel r prefix cursor).
Proof.
  revert r cursor. induction fuel as [|fuel IH]; intros r cursor Hf; [lia|]. simpl.
  destruct (redis_Scan r cursor (prefix +:+ "*") 100) as [err|[keys next]] eqn:Hscan; [by eexists|].
  destruct (if (0 <? length keys)%nat then redis_Del r keys else (inr 0%Z, r)) as [res r'] eqn:Hdel.
  destruct res; [by eexists|]. destruct (N.eqb_spec next 0) as [|Hnext]; [by eexists|].
  apply IH. pose proof (redis_Scan_calls _ _ _ _ _ _ Hscan Hnext) as Hlt.
  destruct (0 <? length keys)%nat; simplify_eq; [|lia].
  destruct (redis_Del_scan _ _ _ _ next "" Hdel). lia.
Qed.

Lemma scan_loop_spec fuel r prefix cursor err r' :
  plain_prefix prefix = true → scan_loop fuel r prefix cursor = Some (err, r') →
  redis_view r' ⊆ redis_view r ∧
  (∀ k, HasPrefix k prefix = false → redis_view r' !! k = redis_view r !! k) ∧
  (err = None → ∀ k, scan_left r cursor k → HasPrefix k prefix = true → redis_view r' !! k = None).
Proof.
  intros Hplain. revert r cursor. induction fuel as [|fuel IH]; intros r cursor; [done|]. simpl.
  destruct (redis_Scan r cursor (prefix +:+ "*") 100) as [e|[keys next]] eqn:Hscan.
  { intros [= <- <-]. naive_solver. }
  destruct (redis_Scan_spec _ _ _ _ _ _ Hscan Hplain) as [Hmatch Hleft].
  destruct (if (0 <? length keys)%nat then redis_Del r keys else (inr 0%Z, r)) as [res r1] eqn:Hdel.
  assert (Hstep : redis_view r1 ⊆ redis_view r ∧
    (∀ k, k ∉ keys → redis_view r1 !! k = redis_view r !! k) ∧
    (∀ n k, res = inr n → k ∈ keys → redis_view r1 !! k = None) ∧
    ∀ c k, scan_left r c k → is_Some (redis_view r1 !! k) → scan_left r1 c k).
  { destruct (Nat.ltb_spec 0 (length keys)) as [|Hnil].
    - destruct (redis_Del_spec _ _ _ _ Hdel) as (? & ? & ?). split_and!; try done.
      intros c k. apply (redis_Del_scan _ _ _ _ c k Hdel).
    - destruct keys; [|simpl in Hnil; lia]. simplify_eq. split_and!; try done.
      intros n k _ Hk. by apply not_elem_of_nil in Hk. }
  destruct Hstep as (Hsub & Hkeep & Hgone & Hscanleft).
  assert (Hframe : ∀ k, HasPrefix k prefix = false → redis_view r1 !! k = redis_view r !! k).
  { intros k Hk. apply Hkeep. intros Hin%Hmatch. congruence. }
  destruct res as [e|n]; [intros [= <- <-]; naive_solver|].
  destruct (N.eqb_spec next 0) as [->|Hnext].
  - intros [= <- <-]. split_and!; try done. intros _ k Hk Hp.
    destruct (redis_view r !! k) as [v|] eqn:Hv.
    + destruct (Hleft k Hk) as [Hin|[? _]]; [by eexists|done| |done]. by eapply Hgone.
    + destruct (redis_view r1 !! k) eqn:Hv1; [|done]. by apply (lookup_weaken _ _ _ _ Hv1) in Hsub; congruence.
  - intros Hloop. destruct (IH _ _ Hloop) as (Hsub' & Hframe' & Hgone').
    split; [by etrans|]. split; [intros k Hk; by rewrite Hframe', Hframe|].
    intros -> k Hk Hp. destruct (redis_view r1 !! k) as [v|] eqn:Hv1.
    + destruct (Hleft k Hk) as [Hin|[_ Hl]]; [by eexists (v); eapply lookup_weaken|done| |].
      * by rewrite (Hgone n k eq_refl Hin) in Hv1.
      * apply Hgone'; [done| |done]. apply Hscanleft; [done|by eexists].
    + destruct (redis_view r' !! k) eqn:Hv'; [|done].
      apply (lookup_weaken _ _ _ _ Hv') in Hsub'. congruence.
Qed.

Lemma DeleteByPrefix_loop (r : redisCache R) prefix :
  ∃ err client, DeleteByPrefix r prefix = (err, {| rc_client := client |}) ∧
    scan_loop (S (scan_calls (rc_client r) 0)) (rc_client r) prefix 0 = Some (err, client).
Proof.
  unfold DeleteByPrefix.
  destruct (scan_loop_terminates (S (scan_calls (rc_client r) 0)) (rc_client r) prefix 0)
    as [[err client] Hloop]; [lia|]. rewrite Hloop. by eexists _, _.
Qed.
End redis_lemmas.

(** ** The Redis cache keeps the promises of the interface *)

Section redis_laws.
Context {R : Type} `{RedisLaws R} `{EntryCodecLaws}.

Definition cache_view (r : redisCache R) : gmap string CacheEntry :=
  omap entry_Unmarshal (redis_view (rc_client r)).

Lemma cache_view_subseteq r r' :
  redis_view (rc_client r') ⊆ redis_view (rc_client r) → cache_view r' ⊆ cache_view r.
Proof. apply map_omap_mono. Qed.

Lemma cache_view_eq r r' k :
  redis_view (rc_client r') !! k = redis_view (rc_client r) !! k →
  cache_view r' !! k = cache_view r !! k.
Proof. unfold cache_view. rewrite !lookup_omap. by intros ->. Qed.

Lemma redis_Get_ok r key entry : Get r key = Some entry → cache_view r !! key = Some entry.
Proof.
  unfold Get, cache_view. rewrite lookup_omap.
  destruct (redis_Get (rc_client r) key) as [| |v] eqn:Hg; [done..|].
  by rewrite (redis_Get_value _ _ _ Hg).
Qed.

Lemma redis_Set_ok r key entry ttl err r' :
  Set_ r key entry ttl = (err, r') → entry_valid entry →
  (err = None → cache_view r' !! key = Some entry) ∧
  (cache_view r' !! key = Some entry ∨ cache_view r' !! key = cache_view r !! key).
Proof.
  unfold Set_. intros Hset (data & Hm & Hu)%entry_roundtrip. rewrite Hm in Hset.
  destruct (redis_Set (rc_client r) key data ttl) as [e c] eqn:Hs.
  destruct (redis_Set_spec _ _ _ _ _ _ Hs) as (Hok & Hkey & _).
  assert (r' = {| rc_client := c |}) as -> by (destruct e; by simplify_eq).
  assert (Hview : ∀ k v, redis_view c !! k = Some v → cache_view {| rc_client := c |} !! k = entry_Unmarshal v).
  { intros k v Hv. unfold cache_view. rewrite lookup_omap. simpl. by rewrite Hv. }
  split_and!.
  - intros ->. destruct e; [done|]. rewrite (Hview _ data); [done|].
    rewrite Hok by done. apply lookup_insert_eq.
  - destruct Hkey as [Hkey|Hkey]; [left; by rewrite (Hview _ _ Hkey)|right; by apply cache_view_eq].
Qed.

Lemma redis_Set_frame r key entry ttl err r' key' :
  Set_ r key entry ttl = (err, r') → key' ≠ key → cache_view r' !! key' = cache_view r !! key'.
Proof.
  unfold Set_. intros Hset Hne. destruct (entry_Marshal entry) as [|data]; [by simplify_eq|].
  destruct (redis_Set (rc_client r) key data ttl) as [e c] eqn:Hs.
  destruct (redis_Set_spec _ _ _ _ _ _ Hs) as (_ & _ & Hframe).
  assert (r' = {| rc_client := c |}) as -> by (destruct e; by simplify_eq).
  by apply cache_view_eq, Hframe.
Qed.

Lemma scan_loop_reliable fuel r prefix cursor err r' :
  redis_reliable r → scan_loop fuel r prefix cursor = Some (err, r') →
  err = None ∧ redis_reliable r'.
Proof.
  revert r cursor. induction fuel as [|fuel IH]; intros r cursor Hr; [done|]. simpl.
  destruct (redis_Scan_reliable r cursor (prefix +:+ "*") 100 Hr) as [[keys next] ->].
  destruct (0 <? length keys)%nat.
  - destruct (redis_Del_reliable r keys Hr) as (n & r1 & -> & Hr1).
    destruct (next =? 0)%N; [by intros [= <- <-]|]. by apply IH.
  - destruct (next =? 0)%N; [by intros [= <- <-]|]. by apply IH.
Qed.

Lemma redis_DeleteByPrefix_reliable (r : redisCache R) prefix :
  redis_reliable (rc_client r) →
  ∃ r', DeleteByPrefix r prefix = (None, r') ∧ redis_reliable (rc_client r').
Proof.
  intros Hr. destruct (DeleteByPrefix_loop r prefix) as (err & client & Hdel & Hloop).
  destruct (scan_loop_reliable _ _ _ _ _ _ Hr Hloop) as [-> Hr'].
  by exists {| rc_client := client |}.
Qed.

Lemma DeleteByPrefix_spec (r : redisCache R) (prefix : string) :
  plain_prefix prefix = true →
  ∃ err client,
    scan_loop (S (scan_calls (rc_client r) 0)) (rc_client r) prefix 0 = Some (err, client) ∧
    DeleteByPrefix r prefix = (err, {| rc_client := client |}) ∧
    cache_view {| rc_client := client |} ⊆ cache_view r ∧
    (∀ key, HasPrefix key prefix = false →
       cache_view {| rc_client := client |} !! key = cache_view r !! key) ∧
    (err = None → ∀ key, HasPrefix key prefix = true →
       cache_view {| rc_client := client |} !! key = None).
Proof.
  intros Hplain. destruct (DeleteByPrefix_loop r prefix) as (err & client & Hdel & Hloop).
  exists err, client. destruct (scan_loop_spec _ _ _ _ _ _ Hplain Hloop) as (Hsub & Hframe & Hgone).
  split_and!; try done.
  - by apply cache_view_subseteq.
  - intros key Hk. apply cache_view_eq, Hframe, Hk.
  - intros He key Hk. unfold cache_view. rewrite lookup_omap. simpl.
    destruct (redis_view client !! key) as [v|] eqn:Hv; [|done].
    pose proof (lookup_weaken _ _ _ _ Hv Hsub) as Hv0.
    rewrite (Hgone He key) in Hv; [done| |done]. apply scan_start. by eexists.
Qed.

(** C39: prefix invalidation is complete and terminates.  For a prefix without glob
    characters, [DeleteByPrefix] ends within the calls that the SCAN iteration allows;
    whatever it answers, no entry is added or changed and those outside the prefix all
    stay; and when it answers no error, no entry under the prefix is left. *)
Theorem DeleteByPrefix_complete (r : redisCache R) (prefix : string) :
  plain_prefix prefix = true →
  ∃ err client,
    scan_loop (S (scan_calls (rc_client r) 0)) (rc_client r) prefix 0 = Some (err, client) ∧
    DeleteByPrefix r prefix = (err, {| rc_client := client |}) ∧
    cache_view {| rc_client := client |} ⊆ cache_view r ∧
    (∀ key, HasPrefix key prefix = false →
       cache_view {| rc_client := client |} !! key = cache_view r !! key) ∧
    (err = None → ∀ key, HasPrefix key prefix = true →
       cache_view {| rc_client := client |} !! key = None).
Proof. apply DeleteByPrefix_spec. Qed.

Lemma redis_DeleteByPrefix_ok r prefix err r' :
  DeleteByPrefix r prefix = (err, r') → plain_prefix prefix = true →
  cache_view r' ⊆ cache_view r ∧
  (∀ key, HasPrefix key prefix = false → cache_view r' !! key = cache_view r !! key) ∧
  (err = None → ∀ key, HasPrefix key prefix = true → cache_view r' !! key = None).
Proof.
  intros Hdel Hplain. destruct (DeleteByPrefix_spec r prefix Hplain)
    as (err' & client & _ & Hdel' & Hspec). rewrite Hdel in Hdel'. by injection Hdel' as -> ->.
Qed.

#[export] Instance redis_cache_laws : CacheLaws (redisCache R).
Proof.
  refine {| cm_view := cache_view; cm_storable := entry_valid;
            cm_reliable r := redis_reliable (rc_client r) |}; simpl.
  - apply redis_Get_ok.
  - apply redis_Set_ok.
  - intros r k e ttl err r'. unfold Set_. destruct (entry_Marshal e); [by intros [= _ <-]|].
    destruct (redis_Set _ _ _ _) as [e' c] eqn:Hs. intros Hr.
    assert (r' = {| rc_client := c |}) as -> by (destruct e'; by simplify_eq). by eapply redis_Set_reliable.
  - apply redis_Set_frame.
  - apply redis_DeleteByPrefix_reliable.
  - apply redis_DeleteByPrefix_ok.
Defined.
End redis_laws.
