(* ===== verification/MemoryRedis.v ===== *)
(** A Redis client that keeps its keyspace in memory and scans it in two calls, the
    keys of even length first.  It satisfies the laws of the client; the witnesses
    of the development compute on it. *)
From S2P Require Import Prelude GoStrings Cache.
From Stdlib Require Import Ascii.

Record mem_redis := { mr_view : gmap string string; mr_fault : bool }.

Definition even_key (k : string) : bool := Nat.even (String.length k).

Definition matches (pattern k : string) : bool :=
  match CutSuffix pattern "*" with
  | (prefix, true) => HasPrefix k prefix
  | (_, false) => String.eqb k pattern
  end.

Definition scan_page (m : gmap string string) (even : bool) (pattern : string) : list string :=
  filter (λ k, even_key k = even ∧ matches pattern k = true) (elements (dom m)).

#[export] Instance mem_redis_client : RedisClient mem_redis := {|
  redis_Get r k :=
    if mr_fault r then RedisErr "down"
    else match mr_view r !! k with Some v => RedisValue v | None => RedisNil end;
  redis_Set r k v _ :=
    if mr_fault r then (Some "down", r)
    else (None, {| mr_view := <[k := v]> (mr_view r); mr_fault := mr_fault r |});
  redis_Del r keys :=
    if mr_fault r then (inl "down", r)
    else (inr (Z.of_nat (length keys)),
          {| mr_view := filter (λ kv, kv.1 ∉ keys) (mr_view r); mr_fault := mr_fault r |});
  redis_Scan r c pattern _ :=
    if mr_fault r then inl "down"
    else if (c =? 0)%N then inr (scan_page (mr_view r) true pattern, 1%N)
    else inr (scan_page (mr_view r) false pattern, 0%N);
|}.

Definition plain_codec : EntryCodec := {|
  entry_Marshal e := inr (ObjectPath e);
  entry_Unmarshal s := Some {| ObjectPath := s |};
|}.

Lemma elem_of_scan_page m even prefix k :
  k ∈ scan_page m even (prefix +:+ "*") ↔
  is_Some (m !! k) ∧ even_key k = even ∧ HasPrefix k prefix = true.
Proof.
  unfold scan_page, matches. rewrite CutSuffix_app, list_elem_of_filter, elem_of_elements, elem_of_dom.
  naive_solver.
Qed.

Lemma removed_lookup (m : gmap string string) (keys : list string) k :
  filter (λ kv, kv.1 ∉ keys) m !! k = if decide (k ∈ keys) then None else m !! k.
Proof.
  rewrite map_lookup_filter. case_decide; destruct (m !! k); simpl; try done;
    [by rewrite option_guard_False by tauto|by rewrite option_guard_True by done].
Qed.

#[export] Instance mem_redis_laws : RedisLaws mem_redis.
Proof.
  refine {| redis_view := mr_view;
            scan_left r c k := c = 0%N ∨ even_key k = false;
            redis_reliable r := mr_fault r = false;
            scan_calls r c := if (c =? 0)%N then 1 else 0 |}; simpl.
  - intros r k v. destruct (mr_fault r); [done|]. destruct (mr_view r !! k); naive_solver.
  - intros r k. destruct (mr_fault r); [done|]. destruct (mr_view r !! k); naive_solver.
  - intros r k v ttl err r'. destruct (mr_fault r); intros [= <- <-]; simpl.
    + naive_solver.
    + split; [done|]. rewrite lookup_insert_eq. split; [by left|].
      intros k' Hk. by rewrite lookup_insert_ne.
  - intros r keys res r'. destruct (mr_fault r); intros [= <- <-]; simpl; [naive_solver|].
    split; [apply map_filter_subseteq|]. setoid_rewrite removed_lookup.
    split; [intros k Hk; by rewrite decide_False|]. intros _ k _ Hk. by rewrite decide_True.
  - intros r keys res r' c k. destruct (mr_fault r); intros [= _ <-]; auto.
  - intros r k v ttl err r'. by destruct (mr_fault r) eqn:Hf; intros [= _ <-].
  - intros r c pattern count ->. destruct (c =? 0)%N; by eexists.
  - intros r keys ->. by eexists _, _.
  - auto.
  - intros r c prefix count keys next. destruct (mr_fault r); [done|].
    destruct (N.eqb_spec c 0) as [->|Hc]; intros [= <- <-] _; setoid_rewrite elem_of_scan_page.
    + split; [naive_solver|]. intros k _ Hk Hp. destruct (even_key k); [by left|]. right. auto.
    + split; [naive_solver|]. intros k [?|Hodd] Hk Hp; [done|]. by left.
  - intros r c pattern count keys next. destruct (mr_fault r); [done|].
    destruct (N.eqb_spec c 0) as [->|Hc]; intros [= <- <-]; [simpl; lia|done].
Defined.

Definition plain_codec_laws : @EntryCodecLaws plain_codec.
Proof. refine {| entry_valid _ := True |}. intros [p] _. by exists p. Defined.

(** A fault-free cache holding the given paths. *)
Definition cache_with (entries : list (string * string)) : redisCache mem_redis :=
  {| rc_client := {| mr_view := list_to_map entries; mr_fault := false |} |}.

#[local] Existing Instance plain_codec.
#[local] Existing Instance plain_codec_laws.

Definition demo_cache : redisCache mem_redis := cache_with
  [("lib@1/a.js", "lib@1.2.0/a.js"); ("lib@1.2/b.js", "lib@1.2.0/b.js"); ("lib@2/a.js", "lib@2.0.0/a.js")].

Lemma DeleteByPrefix_complete_witness :
  cache_view (DeleteByPrefix demo_cache "lib@1").2 !! "lib@1.2/b.js" = None ∧
  cache_view (DeleteByPrefix demo_cache "lib@1").2 !! "lib@2/a.js" =
    Some {| ObjectPath := "lib@2.0.0/a.js" |}.
Proof.
  assert (Hplain : plain_prefix "lib@1" = true) by now vm_compute.
  destruct (DeleteByPrefix_complete demo_cache "lib@1" Hplain)
    as (err & client & _ & Hdel & _ & Hframe & Hgone).
  assert (E : (DeleteByPrefix demo_cache "lib@1").1 = None) by now vm_compute.
  rewrite Hdel in E. simpl in E. rewrite Hdel. simpl. split.
  - apply Hgone; [exact E|now vm_compute].
  - rewrite Hframe; now vm_compute.
Defined.
