(* ===== verification/Service.v ===== *)
(** The state of the content service (internal/content/content-service.go) and the
    encoded variants of objects, which uploads, listings and requests share. *)
From S2P Require Import Prelude GoStrings Errors Zip Storage Compression Archive Cache.
From Stdlib Require Import Ascii.

(** Counters of internal/metrics that the service increments. *)
Record counters := {
  PackagesUploadedTotal : nat;
  PackagesDeletedTotal : nat;
  CacheHitsTotal : nat;
  CacheMissesTotal : nat;
}.

(** [cacheManager] is [None] when the cache is disabled. *)
Record ContentService (S K : Type) := {
  objectStorageManager : S;
  cacheManager : option K;
  cacheTTL : Z;
  uploadLimits : UploadLimits;
  compressionEnabled : bool;
  metrics : counters;
}.
Arguments objectStorageManager {S K} _.
Arguments cacheManager {S K} _.
Arguments cacheTTL {S K} _.
Arguments uploadLimits {S K} _.
Arguments compressionEnabled {S K} _.
Arguments metrics {S K} _.

Section service.
Context {S K : Type}.
Implicit Types svc : ContentService S K.

Definition no_counters : counters :=
  {| PackagesUploadedTotal := 0; PackagesDeletedTotal := 0; CacheHitsTotal := 0; CacheMissesTotal := 0 |}.

Definition WithCompression (enabled : bool) svc : ContentService S K :=
  {| objectStorageManager := objectStorageManager svc; cacheManager := cacheManager svc;
     cacheTTL := cacheTTL svc; uploadLimits := uploadLimits svc; compressionEnabled := enabled;
     metrics := metrics svc |}.

Definition NewContentService (osm : S) (cache : option K) (ttl : Z) (limits : UploadLimits)
    (opts : list (ContentService S K → ContentService S K)) : ContentService S K :=
  fold_left (λ svc opt, opt svc) opts
    {| objectStorageManager := osm; cacheManager := cache; cacheTTL := ttl; uploadLimits := limits;
       compressionEnabled := false; metrics := no_counters |}.

Definition set_store svc (osm : S) : ContentService S K :=
  {| objectStorageManager := osm; cacheManager := cacheManager svc; cacheTTL := cacheTTL svc;
     uploadLimits := uploadLimits svc; compressionEnabled := compressionEnabled svc;
     metrics := metrics svc |}.

Definition set_cache svc (cache : option K) : ContentService S K :=
  {| objectStorageManager := objectStorageManager svc; cacheManager := cache; cacheTTL := cacheTTL svc;
     uploadLimits := uploadLimits svc; compressionEnabled := compressionEnabled svc;
     metrics := metrics svc |}.

Definition count svc (f : counters → counters) : ContentService S K :=
  {| objectStorageManager := objectStorageManager svc; cacheManager := cacheManager svc;
     cacheTTL := cacheTTL svc; uploadLimits := uploadLimits svc;
     compressionEnabled := compressionEnabled svc; metrics := f (metrics svc) |}.
End service.

Definition inc_uploaded (c : counters) : counters :=
  {| PackagesUploadedTotal := 1 + PackagesUploadedTotal c; PackagesDeletedTotal := PackagesDeletedTotal c;
     CacheHitsTotal := CacheHitsTotal c; CacheMissesTotal := CacheMissesTotal c |}.
Definition inc_deleted (c : counters) : counters :=
  {| PackagesUploadedTotal := PackagesUploadedTotal c; PackagesDeletedTotal := 1 + PackagesDeletedTotal c;
     CacheHitsTotal := CacheHitsTotal c; CacheMissesTotal := CacheMissesTotal c |}.
Definition inc_hits (c : counters) : counters :=
  {| PackagesUploadedTotal := PackagesUploadedTotal c; PackagesDeletedTotal := PackagesDeletedTotal c;
     CacheHitsTotal := 1 + CacheHitsTotal c; CacheMissesTotal := CacheMissesTotal c |}.
Definition inc_misses (c : counters) : counters :=
  {| PackagesUploadedTotal := PackagesUploadedTotal c; PackagesDeletedTotal := PackagesDeletedTotal c;
     CacheHitsTotal := CacheHitsTotal c; CacheMissesTotal := 1 + CacheMissesTotal c |}.

(** ** Encoded variants *)

Definition encodings : list Encoding := [EncodingBrotli; EncodingGzip].

Section variants.
Context `{MimeTable}.

(** The loop over the encodings of [encodedVariantSource]: the entry of [files] that
    the key encodes. *)
Fixpoint variant_source {A} (files : gmap string A) (objectKey : string) (encs : list Encoding)
    : option A :=
  match encs with
  | [] => None
  | encoding :: encs =>
      match CutSuffix objectKey (suffix encoding) with
      | (_, false) => variant_source files objectKey encs
      | (sibling, true) =>
          match files !! sibling with
          | None => variant_source files objectKey encs
          | Some file =>
              if (compressibleContentType sibling).2 then Some file
              else variant_source files objectKey encs
          end
      end
  end.

Definition encodedVariantSource (files : gmap string ZipFile) (objectKey : string) : option ZipFile :=
  variant_source files objectKey encodings.

Fixpoint is_variant (key : string) (keys : gset string) (encs : list Encoding) : bool :=
  match encs with
  | [] => false
  | encoding :: encs =>
      match CutSuffix key (suffix encoding) with
      | (_, false) => is_variant key keys encs
      | (sibling, true) =>
          if negb (bool_decide (sibling ∈ keys)) then is_variant key keys encs
          else if (compressibleContentType sibling).2 then true
          else is_variant key keys encs
      end
  end.

Definition isEncodedVariant (key : string) (keys : gset string) : bool :=
  is_variant key keys encodings.

Definition archiveSuppliesVariants (keys : gmap string ZipFile) (objectKey : string) : bool :=
  forallb (λ encoding, bool_decide (is_Some (keys !! (objectKey +:+ suffix encoding)))) encodings.
End variants.

(** The encoded variants of compressible objects. *)
Definition variant_of `{MimeTable} (key sibling : string) : Prop :=
  (key = sibling +:+ ".br" ∨ key = sibling +:+ ".gz") ∧ (compressibleContentType sibling).2 = true.

Lemma elem_of_encodings e : e ∈ encodings ↔ e = EncodingBrotli ∨ e = EncodingGzip.
Proof. unfold encodings. rewrite !elem_of_cons, elem_of_nil. tauto. Qed.

(** A key encodes at most one other key. *)
Lemma suffix_inj k k' e e' :
  e ∈ encodings → e' ∈ encodings → k +:+ suffix e = k' +:+ suffix e' → k = k' ∧ e = e'.
Proof.
  rewrite !elem_of_encodings. intros He He' E.
  assert (Hlen : String.length (suffix e) = String.length (suffix e')).
  { destruct He as [-> | ->], He' as [-> | ->]; done. }
  destruct (str_app_inj k k' (suffix e) (suffix e')) as [-> Hs]; [|done|].
  - apply (f_equal String.length) in E. rewrite !str_length_app in E. lia.
  - split; [done|]. destruct He as [-> | ->], He' as [-> | ->]; done.
Qed.

Section variant_lemmas.
Context `{MimeTable}.

Lemma variant_of_iff key sibling :
  variant_of key sibling ↔
  ∃ e, e ∈ encodings ∧ key = sibling +:+ suffix e ∧ (compressibleContentType sibling).2 = true.
Proof.
  unfold variant_of. setoid_rewrite elem_of_encodings. split.
  - intros [[-> | ->] Hc]; [exists EncodingBrotli|exists EncodingGzip]; auto.
  - intros (e & [-> | ->] & -> & Hc); auto.
Qed.

Lemma variant_source_Some {A} (files : gmap string A) key encs file :
  (∀ e, e ∈ encs → e ∈ encodings) →
  variant_source files key encs = Some file ↔
  ∃ sibling e, e ∈ encs ∧ key = sibling +:+ suffix e ∧ files !! sibling = Some file ∧
    (compressibleContentType sibling).2 = true.
Proof.
  induction encs as [|e encs IH]; intros Hencs; simpl.
  - split; [done|]. intros (? & ? & ?%not_elem_of_nil & _). done.
  - assert (He : e ∈ encodings) by (apply Hencs; set_solver).
    assert (Hencs' : ∀ e', e' ∈ encs → e' ∈ encodings) by (intros; apply Hencs; set_solver).
    specialize (IH Hencs').
    assert (Hskip : ∀ P, (∀ sibling, key = sibling +:+ suffix e → files !! sibling = Some file →
        (compressibleContentType sibling).2 = true → P) →
      (P ↔ variant_source files key encs = Some file) →
      P ↔ ∃ sibling e', e' ∈ e :: encs ∧ key = sibling +:+ suffix e' ∧
        files !! sibling = Some file ∧ (compressibleContentType sibling).2 = true).
    { intros P HP Hiff. rewrite Hiff, IH. split; [set_solver|].
      intros (s & e' & [->|Hin]%elem_of_cons & Hk & Hs & Hc); [|eauto 10].
      apply IH, Hiff. by eapply HP. }
    destruct (CutSuffix key (suffix e)) as [sibling [|]] eqn:Hcut.
    + apply CutSuffix_true in Hcut.
      destruct (files !! sibling) as [file'|] eqn:Hs; [destruct (compressibleContentType sibling).2 eqn:Hc|].
      * split; [intros [= ->]; set_solver|]. intros (s & e' & Hin & Hk & Hs' & _).
        rewrite Hk in Hcut. apply suffix_inj in Hcut as [-> _]; [congruence|by apply Hencs|done].
      * apply Hskip; [|done]. intros s Hk Hs' Hc'. rewrite Hk in Hcut.
        apply suffix_inj in Hcut as [-> _]; [congruence|done..].
      * apply Hskip; [|done]. intros s Hk Hs' Hc'. rewrite Hk in Hcut.
        apply suffix_inj in Hcut as [-> _]; [congruence|done..].
    + apply CutSuffix_false in Hcut as [_ Hno]. apply Hskip; [|done].
      intros s Hk. by destruct (Hno s).
Qed.

Lemma encodedVariantSource_Some files key file :
  encodedVariantSource files key = Some file ↔
  ∃ sibling, variant_of key sibling ∧ files !! sibling = Some file.
Proof.
  unfold encodedVariantSource. rewrite variant_source_Some by done.
  setoid_rewrite variant_of_iff. naive_solver.
Qed.

(** The check of a listing is that of an upload, on the set of keys. *)
Lemma is_variant_source key keys encs :
  is_variant key keys encs =
  if variant_source (gset_to_gmap tt keys) key encs is Some _ then true else false.
Proof.
  induction encs as [|e encs IH]; simpl; [done|].
  destruct (CutSuffix key (suffix e)) as [sibling [|]]; [|done].
  rewrite lookup_gset_to_gmap. case_bool_decide as Hin; simpl.
  - rewrite option_guard_True by done. simpl. by destruct (compressibleContentType sibling).2.
  - by rewrite option_guard_False by done.
Qed.

Lemma isEncodedVariant_iff key keys :
  isEncodedVariant key keys = true ↔ ∃ sibling, sibling ∈ keys ∧ variant_of key sibling.
Proof.
  unfold isEncodedVariant. rewrite is_variant_source.
  setoid_rewrite variant_of_iff.
  destruct (variant_source (gset_to_gmap tt keys) key encodings) as [[]|] eqn:Hs.
  - split; [|done]. intros _. apply variant_source_Some in Hs as (s & e & He & Hk & Hs & Hc); [|done].
    rewrite lookup_gset_to_gmap in Hs.
    exists s. split; [|by eauto]. destruct (decide (s ∈ keys)); [done|].
    by rewrite option_guard_False in Hs.
  - split; [done|]. intros (s & Hin & e & He & Hk & Hc).
    assert (Hsome : variant_source (gset_to_gmap tt keys) key encodings = Some tt).
    { apply variant_source_Some; [done|]. exists s, e. split_and!; try done.
      rewrite lookup_gset_to_gmap. by rewrite option_guard_True. }
    congruence.
Qed.

Lemma archiveSuppliesVariants_true keys objectKey :
  archiveSuppliesVariants keys objectKey = true ↔
  ∀ e, e ∈ encodings → is_Some (keys !! (objectKey +:+ suffix e)).
Proof.
  unfold archiveSuppliesVariants. rewrite forallb_forall.
  setoid_rewrite bool_decide_eq_true. setoid_rewrite list_elem_of_In. done.
Qed.
End variant_lemmas.
