(* ===== verification/Upload.v ===== *)
(** Upload of a package (CreatePackage of internal/content/content-service.go): the
    checks that precede it, the pool of concurrent tasks that store the entries and
    their compressed variants, and the rollback of a partial upload.

    The pool is an errgroup, a package the sources only call: [step] interleaves the
    tasks, a transition per call a task makes, under the limit of the group and the
    slots for compression.  Each call to the storage is atomic.  A deterministic
    scheduler, [run], is one of the interleavings. *)
From S2P Require Import Prelude Order GoStrings Errors Semver Zip Storage Version Compression Archive.
From S2P Require Import Cache Service.
From Stdlib Require Import Ascii.

(** [zip.NewReader]: the entries of an archive, [None] when it cannot be read. *)
Class ZipFormat := zip_NewReader : string → Z → option (list ZipFile).

(** [runtime.NumCPU]. *)
Class Processors := NumCPU : nat.

(** A task of the pool: the position in the function that stores one entry. *)
Inductive task :=
  | Pending
  | Running
  | Hashed (integrity : string)
  | Waiting (integrity contentType : string)
  | Compressing (integrity contentType : string)
  | Uploading (integrity contentType : string) (todo : list (Encoding * string))
  | Finished (err : option string).

Record upload (T : Type) := {
  up_store : T;
  up_tasks : list task;
  (** Tokens of the group's semaphore and of the compression slots in use. *)
  up_active : nat;
  up_slots : nat;
  (** The first error a task returned. *)
  up_err : option string;
}.
Arguments up_store {T} _.
Arguments up_tasks {T} _.
Arguments up_active {T} _.
Arguments up_slots {T} _.
Arguments up_err {T} _.

Definition archive_files (objects : list archiveObject) : gmap string ZipFile :=
  fold_left (λ files object, <[ao_key object := ao_file object]> files) objects ∅.

Section upload.
Context {T : Type} `{ObjectStorageManager T} `{MimeTable} `{Compressors} `{Digest} `{Processors}.
Context (compression : bool) (objects : list archiveObject).

Definition group_limit : nat := NumCPU * 4.

Definition hash_source (object : archiveObject) : ZipFile :=
  default (ao_file object) (encodedVariantSource (archive_files objects) (ao_key object)).

(** The content type of the variants of an entry, when the task is to store some. *)
Definition wanted_variants (object : archiveObject) : option string :=
  let '(contentType, compressible) := compressibleContentType (zf_Name (ao_file object)) in
  let size := zf_UncompressedSize64 (ao_file object) in
  if negb compression || negb compressible || (size <? compressionMinSize)%Z ||
     (compressionMaxSize <? size)%Z then None
  else if archiveSuppliesVariants (archive_files objects) (ao_key object) then None
  else Some contentType.

(** The next call of a running task.  [order] is the order in which the map of
    variants is iterated; the result has the slots in use. *)
Definition task_step (order : gmap Encoding string → list (Encoding * string))
    (object : archiveObject) (t : task) (store : T) (slots : nat) : option (task * T * nat) :=
  match t with
  | Pending | Finished _ => None
  | Running =>
      Some (match fileIntegrity (hash_source object) with
            | inl hashErr => Finished (Some hashErr)
            | inr integrity => Hashed integrity
            end, store, slots)
  | Hashed integrity =>
      let '(err, store) := osm_AddObject store (ao_key object) (ao_file object) integrity in
      Some (match err with
            | Some err => Finished (Err err)
            | None =>
                match wanted_variants object with
                | None => Finished None
                | Some contentType => Waiting integrity contentType
                end
            end, store, slots)
  | Waiting integrity contentType =>
      if (slots <? NumCPU)%nat then Some (Compressing integrity contentType, store, 1 + slots) else None
  | Compressing integrity contentType =>
      Some (match compressVariants (ao_file object) with
            | inl err => Finished (Some err)
            | inr variants => Uploading integrity contentType (order variants)
            end, store, slots - 1)
  | Uploading integrity contentType [] => Some (Finished None, store, slots)
  | Uploading integrity contentType ((encoding, data) :: todo) =>
      let variantKey := ao_key object +:+ suffix encoding in
      if bool_decide (is_Some (archive_files objects !! variantKey)) then
        Some (Uploading integrity contentType todo, store, slots)
      else
        let '(err, store) := osm_AddBytes store variantKey data contentType integrity in
        Some (match err with
              | Some err => Finished (Err err)
              | None => Uploading integrity contentType todo
              end, store, slots)
  end.

Definition started (t : task) : bool := match t with Pending => false | _ => true end.
Definition finished (t : task) : bool := match t with Finished _ => true | _ => false end.

(** The group keeps the first error. *)
Definition record_error (err : option string) (t : task) : option string :=
  match err, t with
  | Some e, _ => Some e
  | None, Finished e => e
  | None, _ => None
  end.

(** A task that took its next call; a task that returns releases its token. *)
Definition after_task (u : upload T) (i : nat) (next : task * T * nat) : upload T :=
  let '(t, store, slots) := next in
  {| up_store := store; up_tasks := <[i := t]> (up_tasks u);
     up_active := if finished t then up_active u - 1 else up_active u;
     up_slots := slots; up_err := record_error (up_err u) t |}.

(** [eg.Go] for the entry [i]. *)
Definition after_go (u : upload T) (i : nat) : upload T :=
  {| up_store := up_store u; up_tasks := <[i := Running]> (up_tasks u);
     up_active := 1 + up_active u; up_slots := up_slots u; up_err := up_err u |}.

(** The loop calls [eg.Go] on the entries in order, and waits for a token. *)
Definition can_go (u : upload T) (i : nat) : Prop :=
  up_tasks u !! i = Some Pending ∧ forallb started (take i (up_tasks u)) = true ∧
  up_active u < group_limit.

Definition iteration (order : gmap Encoding string → list (Encoding * string)) : Prop :=
  ∀ m, order m ≡ₚ map_to_list m.

Inductive step : upload T → upload T → Prop :=
  | step_go u i : can_go u i → step u (after_go u i)
  | step_task u i object t order next :
      objects !! i = Some object → up_tasks u !! i = Some t → iteration order →
      task_step order object t (up_store u) (up_slots u) = Some next →
      step u (after_task u i next).

Definition start (store : T) : upload T :=
  {| up_store := store; up_tasks := map (λ _, Pending) objects; up_active := 0; up_slots := 0;
     up_err := None |}.

(** [eg.Wait] returns. *)
Definition all_finished (u : upload T) : bool := forallb finished (up_tasks u).

(** ** A scheduler *)

Definition try_task (u : upload T) (i : nat) : option (upload T) :=
  object ← objects !! i;
  t ← up_tasks u !! i;
  after_task u i <$> task_step map_to_list object t (up_store u) (up_slots u).

Definition try_go (u : upload T) (i : nat) : option (upload T) :=
  match up_tasks u !! i with
  | Some Pending =>
      if forallb started (take i (up_tasks u)) && (up_active u <? group_limit)%nat
      then Some (after_go u i) else None
  | _ => None
  end.

Fixpoint first_some {A B} (f : A → option B) (l : list A) : option B :=
  match l with
  | [] => None
  | x :: l => match f x with Some y => Some y | None => first_some f l end
  end.

Definition next_upload (u : upload T) : option (upload T) :=
  let indices := seq 0 (length objects) in
  match first_some (try_task u) indices with
  | Some u' => Some u'
  | None => first_some (try_go u) indices
  end.

Fixpoint run (fuel : nat) (u : upload T) : upload T :=
  match fuel with
  | O => u
  | S fuel => match next_upload u with Some u' => run fuel u' | None => u end
  end.

(** Calls a task has left, at most. *)
Definition task_rank (t : task) : nat :=
  match t with
  | Pending => 8
  | Running => 7
  | Hashed _ => 6
  | Waiting _ _ => 5
  | Compressing _ _ => 4
  | Uploading _ _ todo => 1 + length todo
  | Finished _ => 0
  end.

Definition rank (u : upload T) : nat := sum_list_with task_rank (up_tasks u).
End upload.

(** ** The operation *)

Section create_package.
Context {T K : Type} `{ObjectStorageManager T} `{MimeTable} `{Compressors} `{Digest} `{Processors}.
Context `{Semver} `{Normalizer} `{IgnoreMatcher} `{ZipFormat}.
Implicit Types svc : ContentService T K.

Definition payload_error (svc : ContentService T K) : string :=
  "upload exceeds the maximum request size of " +:+ pretty (MaxSize (uploadLimits svc)) +:+
  " bytes (upload.max_size)".

(** The checks before the first write: the objects to store, or the error. *)
Definition prepare svc (name version file : string) (fileSize : Z) : result (list archiveObject) :=
  match validatePackageIdentity name version with
  | Some err => fail BadRequest err
  | None =>
      if (0 <? MaxSize (uploadLimits svc))%Z && (MaxSize (uploadLimits svc) <? fileSize)%Z then
        fail PayloadTooLarge (payload_error svc)
      else
        match zip_NewReader file fileSize with
        | None => fail InternalError "error while reading zip file"
        | Some files =>
            match checkArchiveLimits (uploadLimits svc) files with
            | Some limitErr => Fail limitErr
            | None =>
                let folderName := folder_name name version in
                if osm_ObjectExists (objectStorageManager svc) folderName then
                  fail Conflict ("the package " +:+ folderName +:+ " already exists")
                else archiveKeys files folderName
            end
        end
  end.

Definition rollback_message (folderName uploadErr : string) (removed : bool) : string :=
  "error while uploading package files: " +:+ uploadErr +:+
  (if removed then ""
   else " (the partial upload could not be removed, delete it with DELETE /packages/" +:+
        folderName +:+ " before retrying)").

Definition rollbackPartialUpload svc (folderName uploadErr : string) : GimmeError * ContentService T K :=
  let '(rollbackErr, osm) := osm_RemoveObjects (objectStorageManager svc) (folderName +:+ "/") in
  let removed := match rollbackErr with None => true | Some _ => false end in
  (NewBusinessError InternalError (Some (rollback_message folderName uploadErr removed)),
   set_store svc osm).

(** What follows [eg.Wait]. *)
Definition conclude svc (folderName : string) (u : upload T) : option GimmeError * ContentService T K :=
  let svc := set_store svc (up_store u) in
  match up_err u with
  | Some err =>
      let '(e, svc) := rollbackPartialUpload svc folderName err in (Some e, svc)
  | None => (None, count svc inc_uploaded)
  end.

(** The outcomes of an upload, one per interleaving of its tasks. *)
Inductive CreatePackage svc (name version file : string) (fileSize : Z)
    : option GimmeError → ContentService T K → Prop :=
  | create_rejected e :
      prepare svc name version file fileSize = Fail e →
      CreatePackage svc name version file fileSize (Some e) svc
  | create_completed objects u :
      prepare svc name version file fileSize = Ok objects →
      rtc (step (compressionEnabled svc) objects) (start objects (objectStorageManager svc)) u →
      all_finished u = true →
      CreatePackage svc name version file fileSize
        (conclude svc (folder_name name version) u).1 (conclude svc (folder_name name version) u).2.

(** The outcome of the scheduler. *)
Definition create_package svc (name version file : string) (fileSize : Z)
    : option GimmeError * ContentService T K :=
  match prepare svc name version file fileSize with
  | Fail e => (Some e, svc)
  | Ok objects =>
      conclude svc (folder_name name version)
        (run (compressionEnabled svc) objects (8 * length objects)
           (start objects (objectStorageManager svc)))
  end.
End create_package.

(** ** Lemmas on the pool *)

Lemma sum_list_with_insert {A} (f : A → nat) l i x y :
  l !! i = Some x → sum_list_with f (<[i := y]> l) + f x = sum_list_with f l + f y.
Proof.
  revert i. induction l as [|z l IH]; intros [|i]; simpl; try done.
  - intros [= ->]. lia.
  - intros Hi. specialize (IH i Hi). lia.
Qed.

Lemma sum_list_with_lookup {A} (f : A → nat) l i x :
  l !! i = Some x → f x ≤ sum_list_with f l.
Proof.
  revert i. induction l as [|z l IH]; intros [|i]; simpl; try done.
  - intros [= ->]. lia.
  - intros Hi. specialize (IH i Hi). lia.
Qed.

Lemma sum_list_with_zero {A} (f : A → nat) l :
  sum_list_with f l = 0 ↔ ∀ x, x ∈ l → f x = 0.
Proof.
  induction l as [|x l IH]; simpl; [set_solver by done|].
  rewrite Nat.eq_add_0, IH. set_solver.
Qed.

Definition indicator (f : task → bool) (t : task) : nat := if f t then 1 else 0.

(** Tasks that hold a token of the group, and those that hold a compression slot. *)
Definition busy (t : task) : bool := started t && negb (finished t).
Definition compressing (t : task) : bool := match t with Compressing _ _ => true | _ => false end.

(** Closes the accounting goals of a single call. *)
Ltac counts := repeat split; intros; try done; lia.

Section pool.
Context {T : Type} `{ObjectStorageManager T} `{MimeTable} `{Compressors} `{Digest} `{Processors}.
Context (compression : bool) (objects : list archiveObject).
Implicit Types u : upload T.
Notation step := (step (T:=T) compression objects).

Definition counted u : Prop :=
  length (up_tasks u) = length objects ∧
  up_active u = sum_list_with (indicator busy) (up_tasks u) ∧ up_active u ≤ group_limit ∧
  up_slots u = sum_list_with (indicator compressing) (up_tasks u) ∧ up_slots u ≤ NumCPU.

Lemma task_step_counts order object t (store : T) slots t' store' slots' :
  task_step compression objects order object t store slots = Some (t', store', slots') →
  busy t = true ∧ started t' = true ∧ (compressing t = true → 0 < slots → slots' = slots - 1) ∧
  (slots ≤ NumCPU → slots' ≤ NumCPU) ∧
  (0 < slots ∨ compressing t = false →
   slots' + indicator compressing t = slots + indicator compressing t').
Proof.
  unfold indicator. destruct t as [| |g|g ct|g ct|g ct [|[e d] todo]|err]; simpl; try done.
  - intros [= <- _ <-]. destruct (fileIntegrity _); simpl; counts.
  - destruct (osm_AddObject store _ _ _) as [[e|] s']; intros [= <- _ <-]; simpl; [counts|].
    destruct (wanted_variants _ _ _); simpl; counts.
  - destruct (Nat.ltb_spec slots NumCPU); [|done]. intros [= <- _ <-]. simpl. counts.
  - intros [= <- _ <-]. destruct (compressVariants _); simpl; counts.
  - intros [= <- _ <-]. simpl. counts.
  - case_bool_decide; [intros [= <- _ <-]; simpl; counts|].
    destruct (osm_AddBytes store _ _ _ _) as [[err|] s']; intros [= <- _ <-]; simpl; counts.
Qed.

Lemma busy_started t : busy t = true → started t = true ∧ finished t = false.
Proof. unfold busy. intros Hb. by bool_hyps. Qed.

Lemma counted_step u u' : counted u → step u u' → counted u'.
Proof.
  unfold counted. intros (Hlen & Ha & Hal & Hs & Hsl) Hstep.
  destruct Hstep as [u i (Hi & _ & Hlt)|u i object t order [[t' store'] slots'] _ Hi _ Hnext]; simpl.
  - rewrite length_insert.
    pose proof (sum_list_with_insert (indicator busy) _ _ _ Running Hi).
    pose proof (sum_list_with_insert (indicator compressing) _ _ _ Running Hi).
    unfold indicator, busy in *. simpl in *. lia.
  - rewrite length_insert.
    destruct (task_step_counts _ _ _ _ _ _ _ _ Hnext) as (Hb & Hst & _ & Hle & Hcount).
    pose proof (sum_list_with_insert (indicator busy) _ _ _ t' Hi) as Hbusy.
    pose proof (sum_list_with_insert (indicator compressing) _ _ _ t' Hi) as Hcomp.
    assert (Hpos : 0 < up_slots u ∨ compressing t = false).
    { destruct (compressing t) eqn:Hc; [left|by right].
      pose proof (sum_list_with_lookup (indicator compressing) _ _ _ Hi) as Hl.
      unfold indicator at 1 in Hl. rewrite Hc in Hl. lia. }
    specialize (Hcount Hpos). specialize (Hle Hsl).
    assert (Hbt' : indicator busy t' = if finished t' then 0 else 1).
    { unfold indicator, busy. rewrite Hst. by destruct (finished t'). }
    assert (Hbt : indicator busy t = 1) by (unfold indicator; by rewrite Hb).
    rewrite Hbt, Hbt' in Hbusy. destruct (finished t'); lia.
Qed.

Lemma counted_start store : counted (start objects store).
Proof.
  unfold counted, start. simpl. rewrite length_map.
  assert (Hz : ∀ f, f Pending = 0 → sum_list_with f (map (λ _, Pending) objects) = 0).
  { intros f Hf. induction objects; simpl; [done|]. lia. }
  rewrite !Hz by done. lia.
Qed.

Lemma counted_reachable store u : rtc step (start objects store) u → counted u.
Proof.
  intros Hsteps. remember (start objects store) as u0 eqn:E.
  assert (Hc : counted u0) by (subst; apply counted_start). clear E.
  induction Hsteps as [|u1 u2 u3 Hstep _ IH]; [done|]. apply IH. by eapply counted_step.
Qed.

(** ** Termination and progress *)

Lemma variants_size file variants : compressVariants file = inr variants → size variants ≤ 2.
Proof.
  intros (src & content & _ & _ & [[_ ->]|(_ & brotli & gzip & _ & _ & ->)])%compressVariants_inv.
  - rewrite map_size_empty. lia.
  - unfold keep_variant. repeat case_goal; rewrite ?map_size_insert, ?map_size_empty;
      repeat case_match; simpl; lia.
Qed.

Lemma task_step_rank order object t (store : T) slots t' store' slots' :
  iteration order →
  task_step compression objects order object t store slots = Some (t', store', slots') →
  task_rank t' < task_rank t.
Proof.
  intros Horder. destruct t as [| |g|g ct|g ct|g ct [|[e d] todo]|err]; simpl; try done.
  - intros [= <- _ _]. destruct (fileIntegrity _); simpl; lia.
  - destruct (osm_AddObject store _ _ _) as [[e|] s']; intros [= <- _ _]; simpl; [lia|].
    destruct (wanted_variants _ _ _); simpl; lia.
  - destruct (Nat.ltb_spec slots NumCPU); [|done]. intros [= <- _ _]. simpl. lia.
  - intros [= <- _ _]. destruct (compressVariants _) as [|variants] eqn:Hc; simpl; [lia|].
    rewrite (Permutation_length (Horder variants)), length_map_to_list.
    pose proof (variants_size _ _ Hc). lia.
  - intros [= <- _ _]. simpl. lia.
  - case_bool_decide; [intros [= <- _ _]; simpl; lia|].
    destruct (osm_AddBytes store _ _ _ _) as [[err|] s']; intros [= <- _ _]; simpl; lia.
Qed.

Lemma step_rank u u' : step u u' → rank u' < rank u.
Proof.
  unfold rank. intros Hstep.
  destruct Hstep as [u i (Hi & _ & _)|u i object t order [[t' store'] slots'] _ Hi Ho Hnext]; simpl.
  - pose proof (sum_list_with_insert task_rank _ _ _ Running Hi) as E. simpl in E. lia.
  - pose proof (task_step_rank _ _ _ _ _ _ _ _ Ho Hnext).
    pose proof (sum_list_with_insert task_rank _ _ _ t' Hi). lia.
Qed.

Lemma first_some_is_Some {A B} (f : A → option B) l x :
  x ∈ l → is_Some (f x) → is_Some (first_some f l).
Proof.
  induction 1 as [x l|x y l Hin IH]; simpl; intros Hx.
  - destruct (f x); [by eexists|by destruct Hx].
  - destruct (f y); [by eexists|auto].
Qed.

Lemma first_some_Some {A B} (f : A → option B) l y :
  first_some f l = Some y → ∃ x, x ∈ l ∧ f x = Some y.
Proof.
  induction l as [|x l IH]; simpl; [done|]. destruct (f x) eqn:Hx.
  - intros [= ->]. exists x. set_solver.
  - intros (z & ? & ?)%IH. exists z. set_solver.
Qed.

Lemma next_upload_step u u' : next_upload compression objects u = Some u' → step u u'.
Proof.
  unfold next_upload. destruct (first_some (try_task compression objects u) _) as [u1|] eqn:Hf.
  - intros [= <-]. apply first_some_Some in Hf as (i & _ & Htry). unfold try_task in Htry.
    apply bind_Some in Htry as (object & Ho & (t & Ht & Hn)%bind_Some).
    apply fmap_Some in Hn as (next & Hn & ->).
    eapply step_task; [done|done| |done]. by intros m.
  - intros (i & _ & Htry)%first_some_Some. unfold try_go in Htry.
    destruct (up_tasks u !! i) as [[]|] eqn:Hi; try done.
    destruct (forallb started _ && _) eqn:Hc; [|done]. injection Htry as <-.
    apply andb_true_iff in Hc as [? ?%Nat.ltb_lt]. by apply step_go.
Qed.

Lemma task_lookup u i t :
  counted u → up_tasks u !! i = Some t → ∃ object, objects !! i = Some object ∧ i ∈ seq 0 (length objects).
Proof.
  intros (Hlen & _) Hi. pose proof (lookup_lt_Some _ _ _ Hi) as Hlt. rewrite Hlen in Hlt.
  destruct (lookup_lt_is_Some_2 objects i Hlt) as [object Ho]. exists object. split; [done|].
  apply elem_of_seq. lia.
Qed.

(** A task that is not waiting for a slot can take its call, and a waiting one too
    when a slot is free. *)
Lemma try_task_busy u i t :
  counted u → up_tasks u !! i = Some t → busy t = true →
  (∀ g ct, t = Waiting g ct → up_slots u < NumCPU) →
  is_Some (first_some (try_task compression objects u) (seq 0 (length objects))).
Proof.
  intros Hc Hi Hb Hw. destruct (task_lookup u i t Hc Hi) as (object & Ho & Hin).
  eapply first_some_is_Some; [exact Hin|]. unfold try_task. rewrite Ho. simpl. rewrite Hi. simpl.
  apply fmap_is_Some.
  destruct t as [| |g|g ct|g ct|g ct [|[e d] todo]|err]; simpl; try done; try by eexists.
  - destruct (osm_AddObject _ _ _ _). by eexists.
  - specialize (Hw g ct eq_refl). apply Nat.ltb_lt in Hw as ->. by eexists.
  - case_bool_decide; [by eexists|]. destruct (osm_AddBytes _ _ _ _ _). by eexists.
Qed.

Lemma first_pending l :
  (∃ t : task, t ∈ l ∧ t = Pending) →
  ∃ i, l !! i = Some Pending ∧ forallb started (take i l) = true.
Proof.
  induction l as [|t l IH]; intros (t' & Hin & ->); [by apply not_elem_of_nil in Hin|].
  destruct (started t) eqn:Hst.
  - destruct IH as (i & Hi & Ht); [|by exists (S i); simpl; rewrite Hst].
    exists Pending. split; [|done]. apply elem_of_cons in Hin as [<-|]; done.
  - exists 0. by destruct t.
Qed.

Lemma progress u :
  0 < NumCPU → counted u → all_finished u = false → is_Some (next_upload compression objects u).
Proof.
  intros Hcpu Hc Hnf. unfold next_upload.
  destruct (first_some (try_task compression objects u) (seq 0 (length objects))) eqn:Hf; [by eexists|].
  assert (Hstuck : ∀ i t, up_tasks u !! i = Some t → busy t = true →
            (∀ g ct, t = Waiting g ct → up_slots u < NumCPU) → False).
  { intros i t Hi Hb Hw. destruct (try_task_busy u i t Hc Hi Hb Hw). congruence. }
  pose proof Hc as (Hlen & Ha & _ & Hs & _).
  assert (Hslots : up_slots u = 0).
  { rewrite Hs. apply sum_list_with_zero. intros t [i Hi]%list_elem_of_lookup.
    unfold indicator. destruct (compressing t) eqn:Ht; [|done]. exfalso.
    apply (Hstuck i t Hi); [by destruct t|by destruct t]. }
  assert (Hidle : ∀ t, t ∈ up_tasks u → busy t = false).
  { intros t [i Hi]%list_elem_of_lookup. destruct (busy t) eqn:Hb; [|done]. exfalso.
    apply (Hstuck i t Hi Hb). lia. }
  destruct (first_pending (up_tasks u)) as (i & Hi & Htake).
  { apply not_true_iff_false in Hnf. unfold all_finished in Hnf. rewrite forallb_Forall in Hnf.
    apply not_Forall_Exists in Hnf; [|apply _]. apply Exists_exists in Hnf as (t & Hin & Ht).
    specialize (Hidle t Hin). exists t. split; [done|].
    simpl in Ht. destruct t; try done. }
  destruct (task_lookup u i Pending Hc Hi) as (_ & _ & Hin).
  eapply first_some_is_Some; [exact Hin|]. unfold try_go. rewrite Hi, Htake.
  assert (Hactive : up_active u = 0).
  { rewrite Ha. apply sum_list_with_zero. intros t Ht. unfold indicator. by rewrite Hidle. }
  rewrite Hactive. simpl.
  assert (0 < group_limit) as ->%Nat.ltb_lt by (unfold group_limit; lia). by eexists.
Qed.

Lemma run_spec fuel u :
  0 < NumCPU → counted u → rank u ≤ fuel →
  rtc step u (run compression objects fuel u) ∧
  all_finished (run compression objects fuel u) = true.
Proof.
  intros Hcpu. revert u. induction fuel as [|fuel IH]; intros u Hc Hr; simpl.
  - split; [done|]. destruct (all_finished u) eqn:Hf; [done|].
    destruct (progress u Hcpu Hc Hf) as [u' Hn%next_upload_step]. apply step_rank in Hn. lia.
  - destruct (next_upload compression objects u) as [u'|] eqn:Hn.
    + apply next_upload_step in Hn. pose proof (step_rank _ _ Hn).
      destruct (IH u') as [Hsteps Hfin]; [by eapply counted_step|lia|].
      split; [by eapply rtc_l|done].
    + split; [done|]. destruct (all_finished u) eqn:Hf; [done|].
      destruct (progress u Hcpu Hc Hf). congruence.
Qed.

Lemma rank_start (store : T) : rank (start objects store) = 8 * length objects.
Proof. unfold rank, start. simpl. induction objects as [|o l IH]; simpl in *; lia. Qed.
End pool.
