(* ===== verification/UploadSpec.v ===== *)
(** What an upload leaves in the bucket, for every interleaving of its tasks: the
    objects a successful upload stores, and that a failed one leaves nothing when its
    rollback succeeds. *)
From S2P Require Import Prelude Order GoStrings Errors Semver Zip Mime Storage Version Compression Archive.
From S2P Require Import Cache Service Upload MemoryClient MemoryRedis.
From Stdlib Require Import Ascii.

(** ** The objects of a package *)

Section contents.
Context `{MimeTable} `{Compressors} `{Digest}.
Context (compression : bool) (objects : list archiveObject).

Definition variant_object (contentType integrity data : string) : StoredObject :=
  {| so_data := data;
     so_options := {| ContentType := contentType; UserMetadata := integrity_metadata integrity |} |}.

(** A variant the task of an entry stores: one that is worthwhile, and that the
    archive does not bring itself. *)
Definition stored_variant (object : archiveObject) (contentType : string) (key data : string) : Prop :=
  wanted_variants compression objects object = Some contentType ∧
  ∃ variants encoding, compressVariants (ao_file object) = inr variants ∧
    variants !! encoding = Some data ∧ key = ao_key object +:+ suffix encoding ∧
    archive_files objects !! key = None.

(** The objects an entry of the archive stands for. *)
Definition expected (object : archiveObject) (key : string) (so : StoredObject) : Prop :=
  ∃ integrity, fileIntegrity (hash_source objects object) = inr integrity ∧
    (key = ao_key object ∧ so = entry_object (ao_file object) integrity ∨
     ∃ contentType data, stored_variant object contentType key data ∧
       so = variant_object contentType integrity data).

(** The keys the task of an entry writes. *)
Definition owned (object : archiveObject) (key : string) : Prop :=
  key = ao_key object ∨ ∃ contentType data, stored_variant object contentType key data.

(** What is known when a task is at a position, in a bucket. *)
Definition task_ok (object : archiveObject) (t : task) (view : gmap string StoredObject) : Prop :=
  let hashed integrity := fileIntegrity (hash_source objects object) = inr integrity in
  let stored integrity := view !! ao_key object = Some (entry_object (ao_file object) integrity) in
  match t with
  | Pending | Running | Finished (Some _) => True
  | Hashed integrity => hashed integrity
  | Waiting integrity contentType | Compressing integrity contentType =>
      hashed integrity ∧ stored integrity ∧
      wanted_variants compression objects object = Some contentType
  | Uploading integrity contentType todo =>
      hashed integrity ∧ stored integrity ∧
      wanted_variants compression objects object = Some contentType ∧
      ∃ variants, compressVariants (ao_file object) = inr variants ∧
        (∀ e d, (e, d) ∈ todo → variants !! e = Some d) ∧
        ∀ e d, variants !! e = Some d →
          (e, d) ∈ todo ∨ is_Some (archive_files objects !! (ao_key object +:+ suffix e)) ∨
          view !! (ao_key object +:+ suffix e) = Some (variant_object contentType integrity d)
  | Finished None =>
      (∃ integrity, hashed integrity) ∧ ∀ key so, expected object key so → view !! key = Some so
  end.
End contents.

(** ** Lemmas *)

Lemma archive_files_fold (objects : list archiveObject) (m : gmap string ZipFile) k f :
  NoDup (map ao_key objects) →
  fold_left (λ files object, <[ao_key object := ao_file object]> files) objects m !! k = Some f ↔
  (∃ object, object ∈ objects ∧ ao_key object = k ∧ ao_file object = f) ∨
  k ∉ map ao_key objects ∧ m !! k = Some f.
Proof.
  revert m. induction objects as [|o objects IH]; intros m; simpl; [set_solver|].
  intros [Ho Hnd]%NoDup_cons. rewrite IH, lookup_insert_Some by done. split.
  - intros [(o' & ? & ? & ?)|(Hk & [[<- <-]|[Hne Hm]])]; [left; set_solver|left; set_solver|].
    right. set_solver.
  - intros [(o' & [->|Hin]%elem_of_cons & <- & <-)|[Hk Hm]]; [|left; set_solver|set_solver].
    right. split; [done|]. by left.
Qed.

Lemma archive_files_Some objects k f :
  NoDup (map ao_key objects) →
  archive_files objects !! k = Some f ↔
  ∃ object, object ∈ objects ∧ ao_key object = k ∧ ao_file object = f.
Proof.
  intros Hnd. unfold archive_files. rewrite archive_files_fold by done.
  rewrite lookup_empty. naive_solver.
Qed.

Lemma compressVariants_keys `{Compressors} file variants e d :
  compressVariants file = inr variants → variants !! e = Some d → e ∈ encodings.
Proof.
  intros (src & content & _ & _ & Hcase)%compressVariants_inv Hd. rewrite elem_of_encodings.
  destruct Hcase as [[_ ->]|(_ & brotli & gzip & _ & _ & ->)]; [by rewrite lookup_empty in Hd|].
  rewrite !keep_variant_lookup, lookup_empty in Hd. naive_solver.
Qed.

Section contents_lemmas.
Context {T : Type} `{ManagerLaws T} `{Compressors} `{Digest} `{Processors}.
Context (compression : bool) (objects : list archiveObject).
Context (Hnodup : NoDup (map ao_key objects)).
Context (Hregular : ∀ object, object ∈ objects →
  IsDir (ao_file object) = false ∧ (0 ≤ FileSize (ao_file object))%Z).
Notation task_ok := (task_ok compression objects).
Notation owned := (owned compression objects).
Notation expected := (expected compression objects).

(** Different entries write different keys. *)
Lemma owned_disjoint o o' k :
  o ∈ objects → o' ∈ objects → owned o k → owned o' k → ao_key o = ao_key o'.
Proof.
  assert (Hmem : ∀ o, o ∈ objects → is_Some (archive_files objects !! ao_key o)).
  { intros o1 Ho1. exists (ao_file o1). apply archive_files_Some; eauto. }
  intros Ho Ho' [->|(ct & d & _ & vs & e & Hc & Hd & -> & Hnone)] Hown.
  - destruct Hown as [?|(ct & d & _ & vs & e & _ & _ & _ & Hnone)]; [done|].
    destruct (Hmem o Ho). congruence.
  - destruct Hown as [Heq|(ct' & d' & _ & vs' & e' & Hc' & Hd' & Heq & _)].
    + rewrite Heq in Hnone. destruct (Hmem o' Ho'). congruence.
    + apply suffix_inj in Heq as [? _]; [done|exact (compressVariants_keys _ _ _ _ Hc Hd)|exact (compressVariants_keys _ _ _ _ Hc' Hd')].
Qed.

Lemma expected_owned o k so : expected o k so → owned o k.
Proof. intros (g & _ & [[-> _]|(ct & d & Hv & _)]); [by left|right; eauto]. Qed.

Lemma task_ok_frame o t view view' :
  (∀ k, owned o k → view' !! k = view !! k) → task_ok o t view → task_ok o t view'.
Proof.
  intros Hframe. assert (Hkey : view' !! ao_key o = view !! ao_key o) by (apply Hframe; by left).
  destruct t as [| |g|g ct|g ct|g ct todo|[err|]]; simpl; rewrite ?Hkey; try done.
  - intros (? & ? & ? & vs & Hc & Htodo & Hvs). split_and!; try done. exists vs. split_and!; try done.
    intros e d Hd. destruct (Hvs e d Hd) as [?|[?|Hv]]; [by left|by right; left|].
    destruct (archive_files objects !! (ao_key o +:+ suffix e)) eqn:Hnone; [by right; left; eexists|].
    right; right. rewrite Hframe; [done|]. right. exists ct, d. split; [done|]. exists vs, e. done.
  - intros [? Hexp]. split; [done|]. intros k so Hso. rewrite Hframe by by eapply expected_owned.
    by apply Hexp.
Qed.

(** The entry and the worthwhile variants are all there is to expect. *)
Lemma finished_ok o g view :
  fileIntegrity (hash_source objects o) = inr g →
  view !! ao_key o = Some (entry_object (ao_file o) g) →
  (∀ ct vs e d, wanted_variants compression objects o = Some ct →
     compressVariants (ao_file o) = inr vs → vs !! e = Some d →
     archive_files objects !! (ao_key o +:+ suffix e) = None →
     view !! (ao_key o +:+ suffix e) = Some (variant_object ct g d)) →
  task_ok o (Finished None) view.
Proof.
  intros Hg Hstored Hvs. split; [by eexists|].
  intros k so (g' & Hg' & Hcase). rewrite Hg in Hg'. injection Hg' as <-.
  destruct Hcase as [[-> ->]|(ct & d & (Hw & vs & e & Hc & Hd & -> & Hnone) & ->)]; [done|].
  by eapply Hvs.
Qed.

(** A variant that is stored is no longer among those to store. *)
Lemma add_variant_ok o g ct e d todo (store : T) err s' :
  o ∈ objects → task_ok o (Uploading g ct ((e, d) :: todo)) (osm_view store) →
  archive_files objects !! (ao_key o +:+ suffix e) = None →
  osm_AddBytes store (ao_key o +:+ suffix e) d ct g = (err, s') →
  (err = None → task_ok o (Uploading g ct todo) (osm_view s')) ∧
  ∀ k, owned o k ∨ osm_view s' !! k = osm_view store !! k.
Proof.
  intros Ho (Hg & Hstored & Hw & vs & Hc & Htodo & Hvs) Hex Hadd.
  assert (Hed : vs !! e = Some d) by (apply Htodo; set_solver).
  assert (Hown : owned o (ao_key o +:+ suffix e)).
  { right. exists ct, d. split; [done|]. by exists vs, e. }
  split.
  2: { intros k. destruct (decide (k = ao_key o +:+ suffix e)) as [->|Hk]; [by left|right].
       by eapply osm_AddBytes_frame. }
  intros ->. pose proof (osm_AddBytes_ok _ _ _ _ _ _ Hadd) as Hview.
  assert (Hne : ao_key o +:+ suffix e ≠ ao_key o).
  { intros E. rewrite E in Hex. assert (is_Some (archive_files objects !! ao_key o)) as [? ?].
    { exists (ao_file o). apply archive_files_Some; eauto. }
    congruence. }
  assert (Hother : osm_view s' !! ao_key o = osm_view store !! ao_key o).
  { eapply osm_AddBytes_frame; [done|]. auto. }
  simpl. rewrite Hother. split_and!; try done. exists vs. split; [done|]. split; [set_solver|].
  intros e' d' Hd'. destruct (decide (e' = e)) as [->|Hne'].
  { assert (d' = d) as -> by congruence. right; right. by rewrite Hview, lookup_insert_eq. }
  destruct (Hvs e' d' Hd') as [[[= -> ->]|?]%elem_of_cons|[?|Hv]]; [done|by left|by right; left|].
  right; right. rewrite <-Hv. eapply osm_AddBytes_frame; [done|].
  intros E. apply suffix_inj in E as [_ ?]; [done|exact (compressVariants_keys _ _ _ _ Hc Hd')|exact (compressVariants_keys _ _ _ _ Hc Hed)].
Qed.

Lemma task_step_ok order o t (store : T) slots t' store' slots' :
  o ∈ objects → iteration order →
  task_step compression objects order o t store slots = Some (t', store', slots') →
  task_ok o t (osm_view store) →
  task_ok o t' (osm_view store') ∧
  ∀ k, owned o k ∨ osm_view store' !! k = osm_view store !! k.
Proof.
  intros Ho Horder. destruct (Hregular o Ho) as [Hdir Hsize].
  destruct t as [| |g|g ct|g ct|g ct [|[e d] todo]|err]; simpl; try done.
  - intros [= <- <- _] _. split; [|by right]. by destruct (fileIntegrity _) eqn:Hg.
  - destruct (osm_AddObject store (ao_key o) (ao_file o) g) as [err s'] eqn:Hadd.
    intros [= <- <- _] Hg. split.
    + destruct err as [err|].
      { destruct (osm_AddObject_err _ _ _ _ _ _ Hadd) as [msg ->]. done. }
      pose proof (osm_AddObject_ok _ _ _ _ _ Hadd Hdir Hsize) as Hview.
      assert (Hstored : osm_view s' !! ao_key o = Some (entry_object (ao_file o) g)).
      { rewrite Hview. apply lookup_insert_eq. }
      destruct (wanted_variants compression objects o) as [ct|] eqn:Hw; [done|].
      eapply finished_ok; [done..|]. by rewrite Hw.
    + intros k. destruct (decide (k = ao_key o)) as [->|Hk]; [left; by left|right].
      by eapply osm_AddObject_frame.
  - destruct (slots <? NumCPU)%nat; [|done]. intros [= <- <- _] ?. split; [done|by right].
  - intros [= <- <- _] (Hg & Hstored & Hw). split; [|by right].
    destruct (compressVariants (ao_file o)) as [err|vs] eqn:Hc; [done|]. simpl.
    split_and!; try done. exists vs. split; [done|].
    assert (Hin : ∀ e d, (e, d) ∈ order vs ↔ vs !! e = Some d).
    { intros e d. rewrite (Horder vs). apply elem_of_map_to_list. }
    setoid_rewrite Hin. auto.
  - intros [= <- <- _] (Hg & Hstored & Hw & vs & Hc & _ & Hvs). split; [|by right].
    eapply finished_ok; [done..|]. intros ct' vs' e d Hw' Hc' Hd Hnone.
    assert (ct' = ct ∧ vs' = vs) as [-> ->] by (split; congruence).
    destruct (Hvs e d Hd) as [Hin|[[? ?]|?]]; [by apply not_elem_of_nil in Hin|congruence|done].
  - intros Hstep Hok. case_bool_decide as Hex.
    + injection Hstep as <- <- _. split; [|by right].
      destruct Hok as (Hg & Hstored & Hw & vs & Hc & Htodo & Hvs). split_and!; try done. exists vs.
      split; [done|]. split; [set_solver|]. intros e' d' Hd'.
      destruct (Hvs e' d' Hd') as [[[= -> ->]|?]%elem_of_cons|?]; auto.
    + apply eq_None_not_Some in Hex.
      destruct (osm_AddBytes store (ao_key o +:+ suffix e) d ct g) as [err s'] eqn:Hadd.
      destruct (add_variant_ok _ _ _ _ _ _ _ _ _ Ho Hok Hex Hadd) as [Hnext Hframe].
      injection Hstep as <- <- _. split; [|done].
      destruct err as [err|]; [|by apply Hnext].
      by destruct (osm_AddBytes_err _ _ _ _ _ _ _ Hadd) as [msg ->].
Qed.

(** ** The invariant of the pool *)

Definition pool_inv (view0 : gmap string StoredObject) (u : upload T) : Prop :=
  (∀ i o t, objects !! i = Some o → up_tasks u !! i = Some t → task_ok o t (osm_view (up_store u))) ∧
  (∀ k, (∃ o, o ∈ objects ∧ owned o k) ∨ osm_view (up_store u) !! k = view0 !! k) ∧
  (up_err u = None → ∀ err, Finished (Some err) ∉ up_tasks u).

Lemma key_index i j o o' :
  objects !! i = Some o → objects !! j = Some o' → ao_key o = ao_key o' → i = j.
Proof.
  intros Hi Hj Hk. apply (NoDup_lookup _ i j (ao_key o) Hnodup).
  - by rewrite lookup_map, Hi.
  - by rewrite lookup_map, Hj, Hk.
Qed.

Lemma pool_inv_step view0 u u' :
  pool_inv view0 u → step compression objects u u' → pool_inv view0 u'.
Proof.
  intros (Htasks & Hview & Herr) Hstep.
  destruct Hstep as [u i (Hi & _ & _)|u i o t order [[t' store'] slots'] Ho Hi Horder Hnext]; simpl.
  - split; [|split; [done|]].
    + intros j o t Ho. simpl. intros [[-> [<- _]]|[_ Ht]]%list_lookup_insert_Some; [done|by eapply Htasks].
    + intros Hnone err Hin. simpl in *. apply list_elem_of_lookup in Hin as [j Hj].
      apply list_lookup_insert_Some in Hj as [[_ [? _]]|[_ Hj]]; [done|].
      by eapply Herr, list_elem_of_lookup_2.
  - pose proof (list_elem_of_lookup_2 _ _ _ Ho) as Hin.
    destruct (task_step_ok _ _ _ _ _ _ _ _ Hin Horder Hnext (Htasks _ _ _ Ho Hi)) as [Ht' Hframe].
    split; [|split]; simpl.
    + intros j o1 t1 Ho1 [[-> [<- _]]|[Hij Ht1]]%list_lookup_insert_Some.
      * assert (o1 = o) as -> by congruence. done.
      * apply (task_ok_frame _ _ (osm_view (up_store u))); [|by eapply Htasks].
        intros k Hk. destruct (Hframe k) as [Hown|?]; [|done]. exfalso. apply Hij.
        eapply key_index; [done..|].
        eapply owned_disjoint; [done| |done..]. by eapply list_elem_of_lookup_2.
    + intros k. destruct (Hview k) as [?|Hk]; [by left|].
      destruct (Hframe k) as [?|Hk']; [left; by exists o|right; congruence].
    + intros Hnone err Hfin. unfold record_error in Hnone. destruct (up_err u) eqn:Hu; [done|].
      apply list_elem_of_lookup in Hfin as [j Hj].
      apply list_lookup_insert_Some in Hj as [[_ [? _]]|[_ Hj]]; [by subst|].
      by eapply Herr, list_elem_of_lookup_2.
Qed.

Lemma pool_inv_reachable (store : T) u :
  rtc (step compression objects) (start objects store) u → pool_inv (osm_view store) u.
Proof.
  intros Hsteps. remember (start objects store) as u0 eqn:E.
  assert (Hinv : pool_inv (osm_view store) u0).
  { subst. split; [|split; [by right|]]; simpl.
    - intros i o t Ho. rewrite lookup_map, Ho. by intros [= <-].
    - intros _ err (o & ? & _)%elem_of_map_list. done. }
  clear E. induction Hsteps as [|u1 u2 u3 Hstep _ IH]; [done|]. by eapply IH, pool_inv_step.
Qed.

Lemma finished_task (u : upload T) i o :
  length (up_tasks u) = length objects → all_finished u = true → objects !! i = Some o →
  ∃ err, up_tasks u !! i = Some (Finished err).
Proof.
  intros Hlen Hfin Ho. destruct (lookup_lt_is_Some_2 (up_tasks u) i) as [t Ht].
  { rewrite Hlen. by eapply lookup_lt_Some. }
  unfold all_finished in Hfin. rewrite forallb_Forall, Forall_forall in Hfin.
  pose proof (Hfin t (list_elem_of_lookup_2 _ _ _ Ht)) as Ht'. exists (default None (match t with Finished e => Some e | _ => None end)).
  by destruct t.
Qed.

(** A pool that ended without an error stored what is expected, and nothing else. *)
Lemma pool_inv_success (view0 : gmap string StoredObject) (u : upload T) k :
  pool_inv view0 u → length (up_tasks u) = length objects → all_finished u = true → up_err u = None →
  (∀ o so, o ∈ objects → expected o k so → osm_view (up_store u) !! k = Some so) ∧
  ((∃ o so, o ∈ objects ∧ expected o k so) ∨ osm_view (up_store u) !! k = view0 !! k).
Proof.
  intros (Htasks & Hview & Hnoerr) Hlen Hfin Herr.
  assert (Hdone : ∀ o, o ∈ objects → task_ok o (Finished None) (osm_view (up_store u))).
  { intros o [i Ho]%list_elem_of_lookup. destruct (finished_task u i o Hlen Hfin Ho) as [err Ht].
    destruct err as [err|]; [|by eapply Htasks]. exfalso.
    by eapply Hnoerr, list_elem_of_lookup_2. }
  split.
  - intros o so Ho Hso. by apply (Hdone o Ho).
  - destruct (Hview k) as [(o & Ho & Hown)|?]; [|by right]. left.
    destruct (Hdone o Ho) as [[g Hg] _]. destruct Hown as [->|(ct & d & Hv)].
    + exists o, (entry_object (ao_file o) g). split; [done|]. exists g. auto.
    + exists o, (variant_object ct g d). split; [done|]. exists g. split; [done|]. right. by eexists _, _.
Qed.

Lemma pool_success (store : T) u k :
  rtc (step compression objects) (start objects store) u → all_finished u = true → up_err u = None →
  (∀ o so, o ∈ objects → expected o k so → osm_view (up_store u) !! k = Some so) ∧
  ((∃ o so, o ∈ objects ∧ expected o k so) ∨ osm_view (up_store u) !! k = osm_view store !! k).
Proof.
  intros Hsteps. pose proof (counted_reachable _ _ _ _ Hsteps) as (Hlen & _).
  by apply pool_inv_success; [apply pool_inv_reachable|].
Qed.
End contents_lemmas.

(** ** Properties *)

Section properties.
Context {T K : Type} `{ManagerLaws T} `{Compressors} `{Digest} `{Processors}.
Context `{Semver} `{Normalizer} `{IgnoreMatcher} `{ZipFormat}.
Implicit Types svc : ContentService T K.

Definition svc_view svc : gmap string StoredObject := osm_view (objectStorageManager svc).

(** The declared sizes of the archive fit an int64. *)
Definition sizes_regular (file : string) (fileSize : Z) : Prop :=
  ∀ files, zip_NewReader file fileSize = Some files →
    Forall (λ f, 0 ≤ zf_UncompressedSize64 f ≤ MaxInt64)%Z files.

Lemma prepare_Ok svc name version file fileSize objects :
  prepare svc name version file fileSize = Ok objects →
  validatePackageIdentity name version = None ∧
  osm_ObjectExists (objectStorageManager svc) (folder_name name version) = false ∧
  ∃ files, zip_NewReader file fileSize = Some files ∧
    checkArchiveLimits (uploadLimits svc) files = None ∧
    archiveKeys files (folder_name name version) = Ok objects.
Proof.
  unfold prepare. intros Hp.
  destruct (validatePackageIdentity name version); [done|].
  destruct (_ && _)%Z; [done|]. destruct (zip_NewReader file fileSize) as [files|]; [|done].
  destruct (checkArchiveLimits _ files) eqn:Hl; [done|].
  destruct (osm_ObjectExists _ _); [done|]. split; [done|]. split; [done|]. by exists files.
Qed.

Lemma prepare_some svc name version file fileSize objects :
  prepare svc name version file fileSize = Ok objects → objects ≠ [].
Proof. intros (_ & _ & files & _ & _ & Hkeys)%prepare_Ok. by destruct (archiveKeys_spec _ _ _ Hkeys). Qed.

(** The keys of an upload are below the folder of its version. *)
Lemma prepare_keys svc name version file fileSize objects o :
  prepare svc name version file fileSize = Ok objects → o ∈ objects →
  ∃ path, safe_path path ∧ ao_key o = folder_name name version +:+ "/" +:+ path.
Proof.
  intros (_ & _ & files & _ & _ & Hkeys)%prepare_Ok Ho.
  destruct (archiveKeys_spec _ _ _ Hkeys) as (_ & _ & Hobj). by destruct (Hobj o Ho) as (_ & _ & ?).
Qed.

Lemma prepare_below svc name version file fileSize objects o t :
  prepare svc name version file fileSize = Ok objects → o ∈ objects →
  HasPrefix (ao_key o +:+ t) (folder_name name version +:+ "/") = true.
Proof.
  intros Hp Ho. destruct (prepare_keys _ _ _ _ _ _ _ Hp Ho) as (path & _ & ->).
  rewrite !str_app_assoc, <-str_app_assoc. apply HasPrefix_app.
Qed.

Lemma prepare_objects svc name version file fileSize objects :
  sizes_regular file fileSize → prepare svc name version file fileSize = Ok objects →
  NoDup (map ao_key objects) ∧
  (∀ o, o ∈ objects → IsDir (ao_file o) = false ∧ (0 ≤ FileSize (ao_file o))%Z) ∧
  ∀ o k, o ∈ objects → owned (compressionEnabled svc) objects o k →
    HasPrefix k (folder_name name version +:+ "/") = true.
Proof.
  intros Hsizes Hprep. pose proof Hprep as (_ & _ & files & Hzip & _ & Hkeys)%prepare_Ok.
  destruct (archiveKeys_spec _ _ _ Hkeys) as (_ & Hnd & Hobj).
  specialize (Hsizes _ Hzip). rewrite Forall_forall in Hsizes.
  split; [done|]. split.
  - intros o Ho. destruct (Hobj o Ho) as (Hin & Hfile & _). split.
    + unfold file_entry in Hfile. apply negb_true_iff, orb_false_iff in Hfile as [? _]. done.
    + specialize (Hsizes _ Hin). unfold FileSize. rewrite to_int64_small by done. lia.
  - intros o k Ho Hown.
    destruct Hown as [->|(ct & d & _ & vs & e & _ & _ & -> & _)]; [|by eapply prepare_below].
    rewrite <-(str_app_nil_r (ao_key o)). by eapply prepare_below.
Qed.

Lemma absent_below svc name version k :
  osm_reliable (objectStorageManager svc) →
  osm_ObjectExists (objectStorageManager svc) (folder_name name version) = false →
  HasPrefix k (folder_name name version +:+ "/") = true → svc_view svc !! k = None.
Proof.
  intros Hrel Hex Hk. destruct (svc_view svc !! k) as [so|] eqn:Hso; [|done].
  rewrite (osm_Exists_complete _ _ k Hrel) in Hex; [done|by eexists|done].
Qed.

(** C6: an upload is all or nothing, in every interleaving.  When no listing fails and
    the declared sizes fit an int64, whatever the order in which the concurrent tasks
    run and the storage fails: nothing outside the folder of the package version
    changes; after a success the folder holds exactly the objects expected of the
    archive, the entries and their worthwhile variants; after a failure the bucket is as
    before, unless the rollback itself failed, which the error then says. *)
Theorem CreatePackage_atomic svc svc' (name version file : string) (fileSize : Z) err :
  osm_reliable (objectStorageManager svc) → sizes_regular file fileSize →
  CreatePackage svc name version file fileSize err svc' →
  (∀ k, HasPrefix k (folder_name name version +:+ "/") = false →
     svc_view svc' !! k = svc_view svc !! k) ∧
  match err with
  | None =>
      ∃ objects, prepare svc name version file fileSize = Ok objects ∧
        ∀ k so, HasPrefix k (folder_name name version +:+ "/") = true →
          svc_view svc' !! k = Some so ↔
          ∃ o, o ∈ objects ∧ expected (compressionEnabled svc) objects o k so
  | Some e =>
      svc_view svc' = svc_view svc ∨
      ∃ uploadErr, e = NewBusinessError InternalError
        (Some (rollback_message (folder_name name version) uploadErr false))
  end.
Proof.
  intros Hrel Hsizes Hcreate. destruct Hcreate as [e Hp|objects u Hp Hsteps Hfin].
  { split; [done|]. by left. }
  destruct (prepare_objects _ _ _ _ _ _ Hsizes Hp) as (Hnd & Hreg & Hbelow).
  pose proof (prepare_Ok _ _ _ _ _ _ Hp) as (_ & Hex & _).
  destruct (pool_inv_reachable _ _ Hnd Hreg _ _ Hsteps) as (_ & Hview & _).
  assert (Hout : ∀ k, HasPrefix k (folder_name name version +:+ "/") = false →
            osm_view (up_store u) !! k = svc_view svc !! k).
  { intros k Hk. destruct (Hview k) as [(o & Ho & Hown)|?]; [|done].
    specialize (Hbelow _ _ Ho Hown). congruence. }
  unfold conclude. destruct (up_err u) as [uploadErr|] eqn:Herr; simpl.
  - unfold rollbackPartialUpload. simpl.
    destruct (osm_RemoveObjects (up_store u) (folder_name name version +:+ "/"))
      as [rollbackErr store] eqn:Hrm. simpl. unfold svc_view at 1 3. simpl.
    destruct (osm_Remove_frame _ _ _ _ Hrm) as [_ Hframe]. split.
    + intros k Hk. rewrite Hframe by done. by apply Hout.
    + destruct rollbackErr as [re|]; [right; by exists uploadErr|left].
      rewrite (osm_Remove_ok _ _ _ Hrm). apply map_eq. intros k. rewrite map_lookup_filter.
      destruct (HasPrefix k (folder_name name version +:+ "/")) eqn:Hk.
      * rewrite (absent_below svc _ _ k Hrel Hex Hk).
        destruct (osm_view (up_store u) !! k); simpl; [|done].
        rewrite option_guard_False; [done|]. unfold not_below. simpl. congruence.
      * rewrite <-Hout by done. destruct (osm_view (up_store u) !! k); simpl; [|done].
        by rewrite option_guard_True.
  - unfold svc_view at 1 3. simpl. split; [done|]. exists objects. split; [done|].
    intros k so Hk. destruct (pool_success _ _ Hnd Hreg _ _ k Hsteps Hfin Herr) as [Hin Hcase].
    split; [|intros (o & Ho & Hso); by eapply Hin].
    intros Hso. destruct Hcase as [(o & so' & Ho & Hso')|Hsame].
    + specialize (Hin _ _ Ho Hso'). exists o. split; [done|]. congruence.
    + pose proof (absent_below svc _ _ k Hrel Hex Hk) as Hnone. unfold svc_view in Hnone. congruence.
Qed.

(** A published version is immutable.  When no listing fails and some object is
    stored under the folder of a package version, every upload of that version is
    refused and leaves the service as it was. *)
Theorem CreatePackage_immutable svc svc' (name version file : string) (fileSize : Z) err key :
  osm_reliable (objectStorageManager svc) →
  is_Some (svc_view svc !! key) → HasPrefix key (folder_name name version +:+ "/") = true →
  CreatePackage svc name version file fileSize err svc' →
  is_Some err ∧ svc' = svc.
Proof.
  intros Hrel Hkey Hp Hcreate. destruct Hcreate as [e Hprep|objects u Hprep _ _]; [done|].
  pose proof (prepare_Ok _ _ _ _ _ _ Hprep) as (_ & Hex & _).
  rewrite (absent_below svc _ _ key Hrel Hex Hp) in Hkey. by destruct Hkey.
Qed.

(** The pool is bounded.  In every state a run of the pool reaches, at most four
    tasks per processor hold a token of the group and at most one per processor
    compresses, and these counts are those of the semaphore and of the slots. *)
Theorem pool_bounded (compression : bool) (objects : list archiveObject) (store : T) u :
  rtc (step compression objects) (start objects store) u →
  sum_list_with (indicator busy) (up_tasks u) ≤ NumCPU * 4 ∧
  sum_list_with (indicator compressing) (up_tasks u) ≤ NumCPU ∧
  up_active u = sum_list_with (indicator busy) (up_tasks u) ∧
  up_slots u = sum_list_with (indicator compressing) (up_tasks u).
Proof.
  intros (_ & Ha & Hal & Hs & Hsl)%counted_reachable. unfold group_limit in Hal. lia.
Qed.

(** The pool terminates without deadlock.  With at least one processor, a reached
    state whose tasks have not all returned has a next step, and every step lowers a
    bound on the calls left that starts at eight per entry; so no run is infinite and
    none gets stuck. *)
Theorem pool_terminates (compression : bool) (objects : list archiveObject) (store : T) u :
  0 < NumCPU → rtc (step compression objects) (start objects store) u →
  (all_finished u = false → ∃ u', step compression objects u u') ∧
  (∀ u', step compression objects u u' → rank u' < rank u) ∧
  rank u ≤ 8 * length objects.
Proof.
  intros Hcpu Hsteps. pose proof (counted_reachable _ _ _ _ Hsteps) as Hc. split_and!.
  - intros Hf. destruct (progress compression objects u Hcpu Hc Hf) as [u' Hn].
    exists u'. by apply next_upload_step.
  - intros u'. apply step_rank.
  - rewrite <-(rank_start objects store). clear Hc. induction Hsteps as [|u1 u2 u3 Hstep _ IH]; [done|].
    apply step_rank in Hstep. lia.
Qed.

Lemma create_package_run svc (name version file : string) (fileSize : Z) :
  0 < NumCPU →
  CreatePackage svc name version file fileSize
    (create_package svc name version file fileSize).1
    (create_package svc name version file fileSize).2.
Proof.
  intros Hcpu. unfold create_package.
  destruct (prepare svc name version file fileSize) as [objects|e] eqn:Hp; [|by apply create_rejected].
  destruct (run_spec (compressionEnabled svc) objects (8 * length objects)
    (start objects (objectStorageManager svc)) Hcpu) as [Hsteps Hfin].
  - apply counted_start.
  - by rewrite rank_start.
  - by eapply create_completed.
Qed.

(** An upload has an outcome.  With at least one processor the scheduler ends within
    its fuel, eight steps per entry, and [create_package] is one of the outcomes of
    [CreatePackage]. *)
Theorem create_package_outcome svc (name version file : string) (fileSize : Z) :
  0 < NumCPU →
  CreatePackage svc name version file fileSize
    (create_package svc name version file fileSize).1
    (create_package svc name version file fileSize).2.
Proof. apply create_package_run. Qed.

(** The recorded digest is that of the decoded body.  Every object expected of an
    entry carries the SHA-384 digest of the content of the entry, or, for an encoded
    variant that the archive brings next to its original, of the content of the
    original; an entry that is not such a variant is stored byte for byte. *)
Theorem expected_integrity (compression : bool) (objects : list archiveObject) object key so :
  (0 ≤ zf_UncompressedSize64 (hash_source objects object))%Z →
  expected compression objects object key so →
  ∃ src, zf_Open (hash_source objects object) = inr src ∧ rd_err src = None ∧
    UserMetadata (so_options so) =
      {[ IntegrityMetadataKey := "sha384-" +:+ base64_encode (sha384 (rd_data src)) ]} ∧
    (encodedVariantSource (archive_files objects) (ao_key object) = None →
     key = ao_key object → so_data so = rd_data src).
Proof.
  intros Hpos (g & Hg & Hso). apply fileIntegrity_iff in Hg as (src & Hopen & Hmax & Herr & Hlen & ->); [|done].
  exists src. split; [done|]. split; [done|].
  assert (Hmeta : integrity_metadata ("sha384-" +:+ base64_encode (sha384 (rd_data src))) =
    {[ IntegrityMetadataKey := "sha384-" +:+ base64_encode (sha384 (rd_data src)) ]}) by done.
  split.
  - destruct Hso as [[_ ->]|(ct & d & _ & ->)]; simpl; by rewrite <-Hmeta.
  - intros Hnone ->. unfold hash_source in *. rewrite Hnone in *. simpl in *.
    destruct Hso as [[_ ->]|(ct & d & (_ & vs & e & Hc & Hd & E & _) & ->)].
    + unfold entry_object, entry_content. simpl. rewrite Hopen. unfold FileSize.
      rewrite to_int64_small, <-Hlen, Nat2Z.id by lia. apply str_take_all.
    + exfalso. pose proof (compressVariants_keys _ _ _ _ Hc Hd) as He.
      rewrite elem_of_encodings in He.
      apply (f_equal String.length) in E. rewrite str_length_app in E.
      destruct He as [-> | ->]; simpl in E; lia.
Qed.
End properties.

(** ** The properties on an upload *)

#[local] Existing Instance builtin_mime.
#[local] Existing Instance toy_compressors.
#[local] Existing Instance toy_digest.
#[local] Existing Instance plain_names.
#[local] Existing Instance whole_paths.

Definition two_processors : Processors := 2.
#[local] Existing Instance two_processors.

Fixpoint letters (n : nat) : string :=
  match n with O => "" | S n => String "a" (letters n) end.

(** A script worth compressing, and a style sheet that is too short. *)
Definition demo_files : list ZipFile :=
  [text_file "dist/a.js" (letters 1200); text_file "dist/b.css" "body{}"].

Definition demo_zip : ZipFormat := λ file _, if String.eqb file "demo" then Some demo_files else None.
#[local] Existing Instance demo_zip.

Definition demo_limits : UploadLimits := {| MaxSize := 100; MaxEntries := 10; MaxUncompressedSize := 5000 |}.

(** A service over a bucket with one package, whose uploads of [faults] fail. *)
Definition demo_service (faults : list string) :
    ContentService (Storage.objectStorageManager memory) (redisCache mem_redis) :=
  NewContentService
    (bucket_of {| mem_objects := {[ "lib@1.0.0/old.js" := plain "old" ]}; mem_put_faults := faults;
                  mem_remove_faults := []; mem_list_fault := false |})
    None 60 demo_limits [WithCompression true].

Lemma demo_reliable faults : osm_reliable (objectStorageManager (demo_service faults)).
Proof. now apply bucket_reliable. Qed.

Lemma demo_regular : sizes_regular "demo" 50.
Proof.
  intros files [= <-]. repeat constructor; now vm_compute.
Qed.

Definition demo_objects : list archiveObject :=
  [{| ao_key := "lib@2.0.0/a.js"; ao_file := text_file "dist/a.js" (letters 1200) |};
   {| ao_key := "lib@2.0.0/b.css"; ao_file := text_file "dist/b.css" "body{}" |}].

Lemma demo_cpus : 0 < NumCPU.
Proof. now apply Nat.ltb_lt. Qed.

Lemma CreatePackage_atomic_witness :
  (create_package (demo_service []) "lib" "2.0.0" "demo" 50).1 = None ∧
  elements (dom (svc_view (create_package (demo_service []) "lib" "2.0.0" "demo" 50).2)) ≡ₚ
    ["lib@1.0.0/old.js"; "lib@2.0.0/a.js"; "lib@2.0.0/a.js.br"; "lib@2.0.0/a.js.gz"; "lib@2.0.0/b.css"] ∧
  svc_view (create_package (demo_service ["lib@2.0.0/a.js.br"]) "lib" "2.0.0" "demo" 50).2 =
    svc_view (demo_service ["lib@2.0.0/a.js.br"]).
Proof.
  split; [now vm_compute|]. split.
  - apply (bool_decide_unpack _). now vm_compute.
  - destruct (CreatePackage_atomic (demo_service ["lib@2.0.0/a.js.br"]) _ "lib" "2.0.0" "demo" 50 _
      (demo_reliable _) demo_regular (create_package_run _ _ _ _ _ demo_cpus))
      as [_ Hcase].
    assert (E : (create_package (demo_service ["lib@2.0.0/a.js.br"]) "lib" "2.0.0" "demo" 50).1 =
      Some (NewBusinessError InternalError
        (Some (rollback_message "lib@2.0.0" "fail to put object lib@2.0.0/a.js.br in the object storage" true))))
      by now vm_compute.
    rewrite E in Hcase. destruct Hcase as [Hview|[uploadErr Herr]]; [exact Hview|].
    exfalso. injection Herr as Herr. unfold rollback_message in Herr.
    apply str_app_inj_l in Herr. apply (f_equal String.length) in Herr.
    rewrite !str_length_app in Herr. simpl in Herr. lia.
Defined.

Lemma CreatePackage_immutable_witness :
  is_Some (create_package (demo_service []) "lib" "1.0.0" "demo" 50).1 ∧
  (create_package (demo_service []) "lib" "1.0.0" "demo" 50).2 = demo_service [].
Proof.
  apply (CreatePackage_immutable (demo_service []) _ "lib" "1.0.0" "demo" 50 _ "lib@1.0.0/old.js"
    (demo_reliable _)).
  - eexists. now vm_compute.
  - now vm_compute.
  - apply create_package_run, demo_cpus.
Defined.

Definition demo_start : upload (Storage.objectStorageManager memory) :=
  start demo_objects (objectStorageManager (demo_service [])).

Lemma pool_bounded_witness :
  sum_list_with (indicator busy) (up_tasks (run true demo_objects 3 demo_start)) = 1 ∧
  sum_list_with (indicator busy) (up_tasks (run true demo_objects 16 demo_start)) ≤ NumCPU * 4.
Proof.
  split; [now vm_compute|].
  refine (proj1 (pool_bounded true demo_objects (objectStorageManager (demo_service []))
    (run true demo_objects 16 demo_start) _)).
  apply run_spec; [apply demo_cpus|apply counted_start|now apply Nat.leb_le].
Defined.

Lemma pool_terminates_witness : ∃ u', step true demo_objects demo_start u'.
Proof.
  apply (pool_terminates true demo_objects (objectStorageManager (demo_service [])) demo_start demo_cpus).
  - apply rtc_refl.
  - now vm_compute.
Defined.

Lemma create_package_outcome_witness :
  CreatePackage (demo_service []) "lib" "2.0.0" "demo" 50
    (create_package (demo_service []) "lib" "2.0.0" "demo" 50).1
    (create_package (demo_service []) "lib" "2.0.0" "demo" 50).2.
Proof. apply create_package_outcome, demo_cpus. Defined.

Lemma expected_integrity_witness :
  ∃ src, zf_Open (text_file "dist/b.css" "body{}") = inr src ∧ rd_data src = "body{}".
Proof.
  destruct (expected_integrity true demo_objects
    {| ao_key := "lib@2.0.0/b.css"; ao_file := text_file "dist/b.css" "body{}" |} "lib@2.0.0/b.css"
    (entry_object (text_file "dist/b.css" "body{}") "sha384-Ym9keQ==")) as (src & Hopen & _ & _ & Hdata).
  - now vm_compute.
  - exists "sha384-Ym9keQ==". split; [now vm_compute|]. now left.
  - exists src. split; [exact Hopen|].
    rewrite <-Hdata; [now vm_compute|now vm_compute|reflexivity].
Defined.

(** ** Divergence *)

(** A bucket whose listings fail counts as one without the version: the upload of a
    published version then goes through and replaces its files. *)
Theorem CreatePackage_overwrites_unlisted :
  let svc : ContentService (Storage.objectStorageManager memory) (redisCache mem_redis) :=
    NewContentService
      (bucket_of {| mem_objects := {[ "lib@2.0.0/b.css" := plain "published" ]}; mem_put_faults := [];
                    mem_remove_faults := []; mem_list_fault := true |})
      None 60 demo_limits [] in
  let outcome := create_package svc "lib" "2.0.0" "demo" 50 in
  outcome.1 = None ∧
  so_data <$> svc_view svc !! "lib@2.0.0/b.css" = Some "published" ∧
  so_data <$> svc_view outcome.2 !! "lib@2.0.0/b.css" = Some "body{}".
Proof. now vm_compute. Qed.
