(* ===== verification/Serve.v ===== *)
(** Requests on published packages (internal/content/content-service.go): GetFile with
    the cache of resolved paths and the choice of an encoded variant, the paginated
    listing GetFiles, and DeletePackage with its invalidation of the cache. *)
From S2P Require Import Prelude Order GoStrings Errors Semver Zip Storage Version Compression Archive.
From S2P Require Import Cache Service.
From Stdlib Require Import Ascii.

Record File := {
  Name : string;
  FSize : Z;
  Folder : bool;
}.

Record FileListing := {
  LVersion : string;
  Files : list File;
  Next : string;
  HasMore : bool;
  Total : nat;
  TotalKnown : bool;
}.

(** A listed file with the cursor that resumes just before it. *)
Notation pagedFile := (File * string)%type (only parsing).

Section serve.
Context {T K : Type} `{ObjectStorageManager T} `{CacheManager K} `{MimeTable} `{Semver}.
Implicit Types (svc : ContentService T K) (osm : T).

(** ** GetFile *)

Fixpoint try_encodings osm (objectPath : string) (accepted : list Encoding)
    : option (Object * Encoding) :=
  match accepted with
  | [] => None
  | encoding :: accepted =>
      match osm_GetObject osm (objectPath +:+ suffix encoding) with
      | Fail _ => try_encodings osm objectPath accepted
      | Ok obj =>
          match osm_Stat osm obj with
          | Some _ => Some (obj, encoding)
          | None => try_encodings osm objectPath accepted
          end
      end
  end.

Definition getEncodedObject osm (objectPath fileName : string) (accepted : list Encoding)
    : result (Object * Encoding) :=
  let '(_, compressible) := compressibleContentType fileName in
  let encoded := if compressible then try_encodings osm objectPath accepted else None in
  match encoded with
  | Some found => Ok found
  | None => (obj <-? osm_GetObject osm objectPath; Ok (obj, ""))%gimme
  end.

Definition version_valid (version : string) : bool :=
  String.eqb version latestVersionAlias || semver_IsValid ("v" +:+ version).

Definition cache_key (pkg version fileName : string) : string := folder_name pkg version +:+ fileName.

(** The path of the object a request is for. *)
Definition object_path osm (pkg version fileName : string) : string :=
  if IsPinnedVersion version then cache_key pkg version fileName
  else
    let '(resolvedVersion, found) := resolveVersion osm pkg version in
    let version := if found then resolvedVersion else version in
    folder_name pkg version +:+ "/" +:+ TrimLeft fileName "/".

Definition cache_lookup svc (key : string) : option CacheEntry :=
  match cacheManager svc with
  | None => None
  | Some cm => cm_Get cm key
  end.

Definition GetFile svc (pkg version fileName : string) (accepted : list Encoding)
    : result (Object * Encoding) * ContentService T K :=
  if negb (version_valid version) then
    (fail BadRequest "invalid version (asked version must be semver compatible)", svc)
  else
    let pinned := IsPinnedVersion version in
    let cacheKey := cache_key pkg version fileName in
    match (if pinned then None else cache_lookup svc cacheKey) with
    | Some entry =>
        let svc := count svc inc_hits in
        (getEncodedObject (objectStorageManager svc) (ObjectPath entry) fileName accepted, svc)
    | None =>
        let svc :=
          match cacheManager svc with
          | Some _ => if pinned then svc else count svc inc_misses
          | None => svc
          end in
        let objectPath := object_path (objectStorageManager svc) pkg version fileName in
        match getEncodedObject (objectStorageManager svc) objectPath fileName accepted with
        | Fail err => (Fail err, svc)
        | Ok found =>
            match cacheManager svc with
            | Some cm =>
                if pinned then (Ok found, svc)
                else
                  let '(_, cm) := cm_Set cm cacheKey {| ObjectPath := objectPath |} (cacheTTL svc) in
                  (Ok found, set_cache svc (Some cm))
            | None => (Ok found, svc)
            end
        end
    end.

(** ** GetFiles *)

Definition seedBoundaryKeys (after : string) : gset string :=
  if String.eqb after "" then ∅
  else
    {[ after ]} ∪
    list_to_set (omap (λ encoding, match CutSuffix after (suffix encoding) with
                                   | (sibling, true) => Some sibling
                                   | (_, false) => None
                                   end) encodings).

(** The loop over a page: stops once a file beyond the limit is collected. *)
Fixpoint collect_page (limit : nat) (keys : gset string) (cursor : string)
    (collected : list pagedFile) (objects : list ObjectInfo) : string * list pagedFile :=
  match objects with
  | [] => (cursor, collected)
  | object :: objects =>
      let previous := cursor in
      let cursor := Key object in
      if isEncodedVariant (Key object) keys then collect_page limit keys cursor collected objects
      else
        let file := {| Name := Key object; FSize := Size object; Folder := false |} in
        let collected := collected ++ [(file, previous)] in
        if (limit <? length collected)%nat then (cursor, collected)
        else collect_page limit keys cursor collected objects
  end.

(** The loop over the pages: what is collected, and whether the first page was the
    only one; [None] when the fuel runs out. *)
Fixpoint collect_pages (fuel : nat) osm (prefix after : string) (limit : nat)
    (keys : gset string) (cursor : string) (collected : list pagedFile)
    (singlePage firstFetch : bool) : option (list pagedFile * bool) :=
  if (limit <? length collected)%nat then Some (collected, singlePage)
  else
    match fuel with
    | O => None
    | S fuel =>
        let '(objects, hasMore) := osm_ListObjectsPage osm prefix cursor limit in
        let singlePage := (firstFetch && String.eqb after "" && negb hasMore) || singlePage in
        if (length objects =? 0)%nat then Some (collected, singlePage)
        else
          let keys := keys ∪ list_to_set (map Key objects) in
          let '(cursor, collected) := collect_page limit keys cursor collected objects in
          if negb hasMore then Some (collected, singlePage)
          else collect_pages fuel osm prefix after limit keys cursor collected singlePage false
    end.

Definition empty_listing (version : string) : FileListing :=
  {| LVersion := version; Files := []; Next := ""; HasMore := false; Total := 0; TotalKnown := false |}.

Definition make_listing (version : string) (limit : nat) (collected : list pagedFile)
    (singlePage : bool) : FileListing :=
  let hasMore := (limit <? length collected)%nat in
  let files := map fst (take limit collected) in
  {| LVersion := version;
     Files := files;
     Next := if hasMore then default "" (snd <$> collected !! limit) else "";
     HasMore := hasMore;
     Total := length files;
     TotalKnown := singlePage && negb hasMore |}.

(** Every round of the loop reads an object of the prefix, so there are no more than
    the listing has. *)
Definition listing_fuel osm (prefix : string) : nat := S (length (osm_ListObjects osm prefix)).

Definition GetFiles svc (pkg version after : string) (limit : nat) : option FileListing :=
  let osm := objectStorageManager svc in
  let '(listed, found) :=
    if IsPinnedVersion version then (version, true) else resolveVersion osm pkg version in
  if negb found then Some (empty_listing version)
  else
    let prefix := folder_name pkg listed +:+ "/" in
    '(collected, singlePage) ←
      collect_pages (listing_fuel osm prefix) osm prefix after limit (seedBoundaryKeys after) after
        [] false true;
    Some (make_listing listed limit collected singlePage).

(** ** DeletePackage *)

Definition invalidate (cm : K) (prefixes : list string) : K :=
  fold_left (λ cm prefix, (cm_DeleteByPrefix cm prefix).2) prefixes cm.

Definition DeletePackage svc (pkg version : string) : option GimmeError * ContentService T K :=
  match validatePackageIdentity pkg version with
  | Some err => (Some (NewBusinessError BadRequest (Some err)), svc)
  | None =>
      let prefix := folder_name pkg version in
      let '(err, osm) := osm_RemoveObjects (objectStorageManager svc) (prefix +:+ "/") in
      let svc := set_store svc osm in
      match err with
      | Some err => (Some err, svc)
      | None =>
          let svc :=
            match cacheManager svc with
            | None => svc
            | Some cm => set_cache svc (Some (invalidate cm (prefix :: mutableAliasPrefixes pkg version)))
            end in
          (None, count svc inc_deleted)
      end
  end.
End serve.
