(* ===== verification/ServeSpec.v ===== *)
(** What requests answer: a page of the listing shows the files after its cursor, and what
    it shows when variants do not follow their file; GetFile serves the object of the resolved version; DeletePackage removes
    one version and leaves no cache entry that points to it. *)
From S2P Require Import Prelude Order GoStrings Errors Semver Zip Storage Version Compression Archive.
From S2P Require Import Cache Service Serve MemoryClient MemoryRedis.
From Stdlib Require Import Ascii.

(** ** The listing, on keys *)

Section paging.
Context `{MimeTable}.

(** Each visible key with the key before it in the listing. *)
Fixpoint paged_keys (hidden : string → bool) (cursor : string) (keys : list string)
    : list (string * string) :=
  match keys with
  | [] => []
  | k :: keys => (if hidden k then [] else [(k, cursor)]) ++ paged_keys hidden k keys
  end.

Definition file_key (p : pagedFile) : string * string := (Name p.1, p.2).

Lemma default_last_cons (c k : string) l : default c (last (k :: l)) = default k (last l).
Proof. rewrite last_cons. by destruct (last l). Qed.

Lemma paged_keys_app hidden cursor l1 l2 :
  paged_keys hidden cursor (l1 ++ l2) =
  paged_keys hidden cursor l1 ++ paged_keys hidden (default cursor (last l1)) l2.
Proof.
  revert cursor. induction l1 as [|k l1 IH]; intros cursor; [done|]. simpl.
  rewrite IH, <-app_assoc. by rewrite default_last_cons.
Qed.

Lemma paged_keys_ext hidden hidden' cursor keys :
  (∀ k, k ∈ keys → hidden k = hidden' k) →
  paged_keys hidden cursor keys = paged_keys hidden' cursor keys.
Proof.
  revert cursor. induction keys as [|k keys IH]; intros cursor Hext; [done|]. simpl.
  rewrite (Hext k) by set_solver. rewrite (IH k); [done|]. set_solver.
Qed.

Lemma paged_keys_fst hidden cursor keys :
  map fst (paged_keys hidden cursor keys) = filter (λ k, hidden k = false) keys.
Proof.
  revert cursor. induction keys as [|k keys IH]; intros cursor; [done|]. simpl.
  rewrite map_app, IH, filter_cons. by destruct (hidden k).
Qed.

Lemma collect_page_spec limit keys cursor collected objects :
  length collected ≤ limit →
  let all := map file_key collected ++
    paged_keys (λ k, isEncodedVariant k keys) cursor (map Key objects) in
  ∃ cursor' collected', collect_page limit keys cursor collected objects = (cursor', collected') ∧
    map file_key collected' = take (S limit) all ∧
    (length all ≤ limit → cursor' = default cursor (last (map Key objects))).
Proof.
  revert cursor collected. induction objects as [|o objects IH]; intros cursor collected Hlen; simpl.
  { exists cursor, collected. rewrite app_nil_r, take_ge by (rewrite length_map; lia). done. }
  destruct (isEncodedVariant (Key o) keys); simpl.
  - destruct (IH (Key o) collected Hlen) as (c & l & -> & Hl & Hc). exists c, l.
    split; [done|]. split; [done|]. intros Hall. rewrite Hc by done.
    by rewrite default_last_cons.
  - set (f := {| Name := Key o; FSize := Size o; Folder := false |}).
    assert (Hf : map file_key (collected ++ [(f, cursor)]) = map file_key collected ++ [(Key o, cursor)])
      by by rewrite map_app.
    destruct (Nat.ltb_spec limit (length (collected ++ [(f, cursor)]))) as [Hlt|Hge].
    + exists (Key o), (collected ++ [(f, cursor)]). rewrite length_app in Hlt. simpl in Hlt.
      rewrite Hf. split; [done|]. split.
      * match goal with |- _ = take _ (?l ++ ?x :: ?r) => change (l ++ x :: r) with (l ++ [x] ++ r) end.
        rewrite app_assoc, take_app_length'; [done|]. rewrite length_app, length_map. simpl. lia.
      * intros Hall. rewrite length_app, length_map in Hall. simpl in Hall. lia.
    + destruct (IH (Key o) (collected ++ [(f, cursor)]) Hge) as (c & l & -> & Hl & Hc).
      exists c, l. rewrite Hf, <-app_assoc in Hl, Hc. split; [done|]. split; [done|].
      intros Hall. rewrite Hc by done.
      by rewrite default_last_cons.
Qed.
End paging.

Section listing.
Context {T : Type} `{ManagerLaws T}.
Implicit Types osm : T.

Definition stored_keys osm (prefix : string) : list string := map Key (osm_ListObjects osm prefix).

(** The stored keys after a cursor. *)
Definition keys_after osm (prefix cursor : string) : list string :=
  filter (λ k, cursor = "" ∨ str_lt cursor k) (stored_keys osm prefix).

Lemma keys_after_sorted osm prefix cursor :
  osm_reliable osm → StronglySorted str_lt (keys_after osm prefix cursor).
Proof. intros Hrel. by apply sorted_filter, osm_List_spec. Qed.

Lemma elem_of_keys_after osm prefix cursor k :
  osm_reliable osm →
  k ∈ keys_after osm prefix cursor ↔
  is_Some (osm_view osm !! k) ∧ HasPrefix k prefix = true ∧ (cursor = "" ∨ str_lt cursor k).
Proof.
  intros Hrel. unfold keys_after. rewrite list_elem_of_filter.
  destruct (osm_List_spec osm prefix Hrel) as [_ Hin]. unfold stored_keys. rewrite Hin. tauto.
Qed.

Lemma page_keys osm prefix cursor limit objects more :
  osm_reliable osm → osm_ListObjectsPage osm prefix cursor limit = (objects, more) →
  map Key objects = take limit (keys_after osm prefix cursor) ∧
  more = bool_decide (limit < length (keys_after osm prefix cursor)).
Proof.
  intros Hrel Hpage. destruct (osm_Page_spec osm prefix cursor limit Hrel) as (l & Hs & Hl & E).
  rewrite E in Hpage. injection Hpage as <- <-.
  assert (Hk : map Key l = keys_after osm prefix cursor).
  { apply sorted_keys_unique; [done|by apply keys_after_sorted|].
    intros k. by rewrite Hl, elem_of_keys_after. }
  rewrite <-Hk, firstn_map, length_map. done.
Qed.

Lemma prefix_key_nonempty k prefix : HasPrefix k prefix = true → prefix ≠ "" → k ≠ "".
Proof. intros [t ->]%HasPrefix_spec Hp E. by apply str_app_eq_nil in E as [? _]. Qed.

(** The keys after the last key of an initial segment are the rest. *)
Lemma keys_after_last osm prefix cursor l1 l2 k :
  osm_reliable osm → prefix ≠ "" → keys_after osm prefix cursor = l1 ++ l2 → last l1 = Some k →
  keys_after osm prefix k = l2.
Proof.
  intros Hrel Hp Hsplit Hk. pose proof (keys_after_sorted osm prefix cursor Hrel) as Hs.
  rewrite Hsplit in Hs. apply sorted_keys_unique; [by apply keys_after_sorted|by eapply StronglySorted_app_1_r|].
  intros x. rewrite elem_of_keys_after by done.
  rewrite (sorted_after l1 l2 k x Hs Hk), <-Hsplit, elem_of_keys_after by done.
  assert (Hkin : k ∈ keys_after osm prefix cursor).
  { rewrite Hsplit. apply elem_of_app. left. by apply last_Some_elem_of. }
  apply elem_of_keys_after in Hkin as (_ & Hkp & Hkc); [|done].
  pose proof (prefix_key_nonempty _ _ Hkp Hp). split.
  - intros (Hx & Hxp & [?|Hlt]); [done|]. split_and!; try done.
    destruct Hkc as [->|Hkc]; [by left|right]. by eapply str_compare_trans.
  - naive_solver.
Qed.

(** A key is hidden when it encodes a key of the boundary or a key of the listing. *)
Definition hidden_in (seeds : gset string) (keys : list string) (k : string) : bool :=
  isEncodedVariant k (seeds ∪ list_to_set keys).

(** The keys read so far decide what is hidden on the next page. *)
Lemma hidden_known seeds l1 l2 k :
  StronglySorted str_lt (l1 ++ l2) → k ∈ l1 →
  isEncodedVariant k (seeds ∪ list_to_set l1) = hidden_in seeds (l1 ++ l2) k.
Proof.
  intros Hs Hk. apply eq_iff_eq_true. unfold hidden_in. rewrite !isEncodedVariant_iff.
  setoid_rewrite elem_of_union. setoid_rewrite elem_of_list_to_set. split.
  - intros (s & [Hin|Hin] & Hv); exists s; set_solver.
  - intros (s & [Hin|Hin] & Hv); exists s; split; try done; [by left|right].
    eapply sorted_before; [done..|]. destruct Hv as [[-> | ->] _]; apply str_lt_app.
Qed.

(** What a round of the loop collects, in terms of the keys still to read. *)
Lemma collect_page_paged osm prefix after limit seeds read cursor collected objects more :
  osm_reliable osm → length collected ≤ limit →
  keys_after osm prefix after = read ++ keys_after osm prefix cursor →
  osm_ListObjectsPage osm prefix cursor limit = (objects, more) →
  let page := take limit (keys_after osm prefix cursor) in
  let all := map file_key collected ++ paged_keys (hidden_in seeds (keys_after osm prefix after)) cursor page in
  ∃ cursor' collected',
    collect_page limit ((seeds ∪ list_to_set read) ∪ list_to_set (map Key objects)) cursor collected objects
      = (cursor', collected') ∧
    map file_key collected' = take (S limit) all ∧
    (length all ≤ limit → cursor' = default cursor (last page)).
Proof.
  intros Hrel Hlen Hread Hpage page all.
  destruct (page_keys _ _ _ _ _ _ Hrel Hpage) as [Hobj _]. fold page in Hobj.
  set (rest := keys_after osm prefix cursor) in *.
  assert (Hsplit : rest = page ++ drop limit rest) by (unfold page; by rewrite take_drop).
  assert (Hpaged : paged_keys (λ k, isEncodedVariant k ((seeds ∪ list_to_set read) ∪ list_to_set (map Key objects)))
                     cursor (map Key objects) =
                   paged_keys (hidden_in seeds (keys_after osm prefix after)) cursor page).
  { rewrite Hobj. apply paged_keys_ext. intros k Hk.
    rewrite <-(assoc_L (∪)), <-list_to_set_app_L. rewrite Hread, Hsplit.
    rewrite app_assoc. apply hidden_known; [|set_solver].
    rewrite <-app_assoc, <-Hsplit, <-Hread. by apply keys_after_sorted. }
  destruct (collect_page_spec limit ((seeds ∪ list_to_set read) ∪ list_to_set (map Key objects))
    cursor collected objects Hlen) as (cursor' & collected' & Heq & Hcoll & Hcursor).
  rewrite Hpaged in Hcoll, Hcursor. rewrite Hobj in Hcursor.
  exists cursor', collected'. split; [exact Heq|]. split; [exact Hcoll|exact Hcursor].
Qed.

Lemma paged_keys_take hidden cursor keys n :
  paged_keys hidden cursor keys =
  paged_keys hidden cursor (take n keys) ++
  paged_keys hidden (default cursor (last (take n keys))) (drop n keys).
Proof. by rewrite <-paged_keys_app, take_drop. Qed.

(** The loop stops once a file beyond the limit is collected. *)
Lemma collect_pages_full fuel osm prefix after limit keys cursor collected single first :
  limit < length collected →
  collect_pages fuel osm prefix after limit keys cursor collected single first = Some (collected, single).
Proof. intros Hlt. destruct fuel; cbn [collect_pages]; by rewrite (proj2 (Nat.ltb_lt _ _)). Qed.

Lemma collect_pages_spec fuel osm prefix after limit seeds read cursor collected single first :
  osm_reliable osm → prefix ≠ "" → 0 < limit →
  keys_after osm prefix after = read ++ keys_after osm prefix cursor →
  length (keys_after osm prefix cursor) < fuel → length collected ≤ limit →
  ∃ collected' single',
    collect_pages fuel osm prefix after limit (seeds ∪ list_to_set read) cursor collected single first =
      Some (collected', single') ∧
    map file_key collected' = take (S limit) (map file_key collected ++
      paged_keys (hidden_in seeds (keys_after osm prefix after)) cursor (keys_after osm prefix cursor)) ∧
    single' = (first && String.eqb after "" &&
               negb (bool_decide (limit < length (keys_after osm prefix cursor))) || single).
Proof.
  intros Hrel Hprefix Hlimit. revert read cursor collected single first.
  induction fuel as [|fuel IH]; intros read cursor collected single first Hread Hfuel Hlen; [lia|].
  simpl. rewrite (proj2 (Nat.ltb_ge _ _)) by done.
  destruct (osm_ListObjectsPage osm prefix cursor limit) as [objects more] eqn:Hpage.
  destruct (page_keys _ _ _ _ _ _ Hrel Hpage) as [Hobj Hmore].
  set (rest := keys_after osm prefix cursor) in *.
  set (hidden := hidden_in seeds (keys_after osm prefix after)).
  destruct (Nat.eqb_spec (length objects) 0) as [Hnil|Hcons].
  { assert (Hrest : rest = []).
    { destruct objects; [|done]. simpl in Hobj. destruct rest; [done|]. by destruct limit; [lia|]. }
    eexists _, _. split; [done|]. rewrite Hrest. simpl. rewrite app_nil_r.
    rewrite take_ge by (rewrite length_map; lia). split; [done|].
    rewrite Hmore, Hrest. done. }
  set (page := take limit rest) in *.
  assert (Hsplit : rest = page ++ drop limit rest) by (unfold page; by rewrite take_drop).
  destruct (collect_page_paged osm prefix after limit seeds read cursor collected objects more Hrel Hlen Hread Hpage)
    as (cursor' & collected' & -> & Hcoll & Hcursor).
  fold rest in Hcoll, Hcursor. fold page hidden in Hcoll, Hcursor.
  pose proof (paged_keys_take hidden cursor rest limit) as Hall. fold page in Hall.
  destruct more; simpl.
  - symmetry in Hmore. apply bool_decide_eq_true in Hmore.
    destruct (last page) as [k|] eqn:Hlast.
    2: { apply last_None in Hlast. rewrite Hlast in Hobj. by destruct objects. }
    set (all := map file_key collected ++ paged_keys hidden cursor page) in *.
    destruct (Nat.le_gt_cases (length all) limit) as [Hle|Hgt].
    + simpl in Hcursor. rewrite (Hcursor Hle).
      pose proof (keys_after_last osm prefix cursor page _ k Hrel Hprefix Hsplit Hlast) as Hafter.
      rewrite Hobj. fold page. rewrite <-(assoc_L (∪)), <-list_to_set_app_L.
      rewrite take_ge in Hcoll by lia.
      destruct (IH (read ++ page) k collected'
        (first && String.eqb after "" && false || single) false) as (c & s & -> & Hc & Hs).
      * rewrite Hafter, <-app_assoc, <-Hsplit. done.
      * rewrite Hafter, length_drop. lia.
      * rewrite <-(length_map file_key), Hcoll. done.
      * exists c, s. split; [done|]. split.
        -- rewrite Hc, Hafter, Hcoll, Hall. unfold all. by rewrite <-app_assoc.
        -- rewrite Hs. simpl. rewrite !(bool_decide_eq_true_2 (limit < length rest)) by done. done.
    + rewrite collect_pages_full by (rewrite <-(length_map file_key), Hcoll, length_take; lia).
      eexists _, _. split; [done|]. split.
      * rewrite Hcoll, Hall, app_assoc. fold all. rewrite take_app_le by lia. done.
      * rewrite (bool_decide_eq_true_2 (limit < length rest)) by done. done.
  - symmetry in Hmore. apply bool_decide_eq_false in Hmore.
    assert (Hpage' : page = rest) by (apply take_ge; lia).
    eexists _, _. split; [done|]. rewrite Hcoll, Hpage'. split; [done|].
    by rewrite (bool_decide_eq_false_2 (limit < length rest)) by done.
Qed.
End listing.

(** A paged key comes with the key before it. *)
Lemma paged_keys_lookup hidden cursor keys i k prev :
  paged_keys hidden cursor keys !! i = Some (k, prev) →
  ∃ l1 l2, keys = l1 ++ k :: l2 ∧ prev = default cursor (last l1) ∧ hidden k = false ∧
    i = length (filter (λ k, hidden k = false) l1).
Proof.
  revert cursor i. induction keys as [|x keys IH]; intros cursor i; simpl; [done|].
  destruct (hidden x) eqn:Hx; simpl.
  - intros (l1 & l2 & -> & -> & Hk & ->)%IH. exists (x :: l1), l2.
    rewrite filter_cons_False by congruence. by rewrite default_last_cons.
  - destruct i as [|i]; simpl.
    + intros [= -> ->]. by exists [], keys.
    + intros (l1 & l2 & -> & -> & Hk & ->)%IH. exists (x :: l1), l2.
      rewrite filter_cons_True by done. by rewrite default_last_cons.
Qed.

(** The cursor before the i-th visible key resumes at it. *)
Lemma paged_keys_resume hidden cursor keys i k prev :
  StronglySorted str_lt keys → 0 < i → paged_keys hidden cursor keys !! i = Some (k, prev) →
  filter (str_lt prev) (filter (λ k, hidden k = false) keys) =
  drop i (filter (λ k, hidden k = false) keys).
Proof.
  intros Hs Hi (l1 & l2 & -> & -> & Hk & ->)%paged_keys_lookup.
  destruct (last l1) as [prev|] eqn:Hlast; [|apply last_None in Hlast as ->; simpl in Hi; lia].
  simpl. rewrite filter_app, drop_app_length, filter_app.
  assert (Hrest : ∀ x, x ∈ k :: l2 → str_lt prev x).
  { intros x Hx. by apply (sorted_after l1 (k :: l2) prev x Hs Hlast). }
  rewrite (filter_none (str_lt prev)).
  - simpl. apply filter_all. intros x [_ Hx]%list_elem_of_filter. auto.
  - intros x [_ Hx]%list_elem_of_filter Hlt.
    assert (Hx2 : x ∈ k :: l2) by (apply (sorted_after l1 (k :: l2) prev x Hs Hlast); set_solver).
    pose proof (sorted_nodup _ Hs) as Hnd. apply NoDup_app in Hnd as (_ & Hdis & _). by apply (Hdis x).
Qed.

Section serve_properties.
Context {T K : Type} `{ManagerLaws T} `{CacheLaws K} `{SemverLaws}.
Implicit Types svc : ContentService T K.

(** The version a listing is of. *)
Definition listed_version svc (pkg version : string) : option string :=
  if IsPinnedVersion version then Some version
  else
    let '(resolved, found) := resolveVersion (objectStorageManager svc) pkg version in
    if found then Some resolved else None.

(** The stored keys of a version after a cursor. *)
Definition listed_after (view : gmap string StoredObject) (prefix after k : string) : Prop :=
  is_Some (view !! k) ∧ HasPrefix k prefix = true ∧ (after = "" ∨ str_lt after k).

(** What the keys of one page show: those under the folder and after the cursor, but for the
    encoded variants of such a key, of the cursor and of the key that the cursor encodes. *)
Definition shown (view : gmap string StoredObject) (prefix after k : string) : Prop :=
  listed_after view prefix after k ∧
  ¬ ∃ sibling, variant_of k sibling ∧ (sibling ∈ seedBoundaryKeys after ∨ listed_after view prefix after sibling).

(** A file: not the encoded variant of another stored object. *)
Definition is_file (view : gmap string StoredObject) (k : string) : Prop :=
  ¬ ∃ sibling, variant_of k sibling ∧ is_Some (view !! sibling).

(** Every key that is named as a variant is one, and only variants of a file come between
    the file and its variants. *)
Definition variants_adjacent (view : gmap string StoredObject) (prefix : string) : Prop :=
  ∀ k sibling, is_Some (view !! k) → HasPrefix k prefix = true → variant_of k sibling →
    is_Some (view !! sibling) ∧
    ∀ c, is_Some (view !! c) → str_lt sibling c → str_lt c k → variant_of c sibling.

Lemma seedBoundary_iff after sibling :
  sibling ∈ seedBoundaryKeys after ↔
  after ≠ "" ∧ (sibling = after ∨ ∃ e, e ∈ encodings ∧ after = sibling +:+ suffix e).
Proof.
  unfold seedBoundaryKeys. destruct (String.eqb_spec after "") as [->|Hne]; [set_solver|].
  rewrite elem_of_union, elem_of_singleton, elem_of_list_to_set, list_elem_of_omap.
  assert (Hcut : ∀ e, match CutSuffix after (suffix e) with (s, true) => Some s | (_, false) => None end = Some sibling ↔
    after = sibling +:+ suffix e).
  { intros e. destruct (CutSuffix after (suffix e)) as [s []] eqn:Hc.
    - apply CutSuffix_true in Hc as ->. split; [by intros [= ->]|]. by intros ->%str_app_inj_r.
    - apply CutSuffix_false in Hc as [_ Hno]. split; [done|]. by intros ?%Hno. }
  setoid_rewrite Hcut. naive_solver.
Qed.

Lemma variant_seed c sibling : c ≠ "" → variant_of c sibling → sibling ∈ seedBoundaryKeys c.
Proof. intros Hne (e & He & Hc & _)%variant_of_iff. apply seedBoundary_iff. eauto. Qed.

(** An encoded variant in a folder has its file in the folder. *)
Lemma variant_prefix k sibling folder :
  variant_of k sibling → HasPrefix k (folder +:+ "/") = true → HasPrefix sibling (folder +:+ "/") = true.
Proof.
  intros (e & He & -> & _)%variant_of_iff [t Ht]%HasPrefix_spec. apply HasPrefix_spec.
  assert (Hfree : char_free "/" (suffix e) = true) by (by apply elem_of_encodings in He as [-> | ->]).
  rewrite str_app_assoc in Ht. revert folder Ht. induction sibling as [|a sibling IH]; intros [|b folder].
  - rewrite !str_app_nil_l. intros E. by rewrite E in Hfree.
  - rewrite str_app_nil_l. intros E. rewrite E in Hfree.
    apply char_free_app in Hfree as [_ Hfree]. by change (char_free "/" (String "/" t) = true) in Hfree.
  - rewrite !str_app_nil_l, str_app_cons. intros [= -> _]. by exists sibling.
  - rewrite !str_app_cons. intros [= -> Ht]. destruct (IH _ Ht) as [u ->]. by exists u.
Qed.

Lemma str_lt_total s t : str_lt s t ∨ s = t ∨ str_lt t s.
Proof.
  unfold str_lt. destruct (String.compare s t) eqn:E; [right; left; by apply String.compare_eq_iff|by left|right; right].
  by rewrite String.compare_antisym, E.
Qed.

(** What a page shows besides the files, and which files it does not show: a variant whose
    file is before the cursor but not the one the cursor stands for, and a file that is
    named as a variant of a missing one for which the cursor stands. *)
Lemma shown_files view folder after k :
  let prefix := folder +:+ "/" in
  (shown view prefix after k → listed_after view prefix after k ∧ (is_file view k ∨
     ∃ sibling, variant_of k sibling ∧ is_Some (view !! sibling) ∧ str_lt sibling after ∧
       sibling ∉ seedBoundaryKeys after)) ∧
  (listed_after view prefix after k → is_file view k → shown view prefix after k ∨
     ∃ sibling, variant_of k sibling ∧ view !! sibling = None ∧ sibling ∈ seedBoundaryKeys after).
Proof.
  intros prefix.
  assert (Hdec : ∀ keys : gset string, (∃ s, s ∈ keys ∧ variant_of k s) ∨ ¬ ∃ s, s ∈ keys ∧ variant_of k s).
  { intros keys. rewrite <- isEncodedVariant_iff. by destruct (isEncodedVariant k keys); [left|right]. }
  split.
  - intros [Hk Hno]. split; [done|]. destruct (Hdec (dom view)) as [(s & Hs%elem_of_dom & Hv)|Hnone].
    2: { left. intros (s & Hv & Hs). apply Hnone. exists s. by rewrite elem_of_dom. }
    right. exists s. split; [done|]. split; [done|].
    assert (Hseed : s ∉ seedBoundaryKeys after) by (intros Hin; apply Hno; exists s; auto).
    split; [|done]. destruct (decide (after = "")) as [->|Hne].
    { destruct Hno. exists s. split; [done|]. right. split; [done|]. split; [by eapply variant_prefix; [|apply Hk]|by left]. }
    destruct (str_lt_total s after) as [?|[->|Hlt]]; [done| |].
    + destruct Hseed. apply seedBoundary_iff. auto.
    + destruct Hno. exists s. split; [done|]. right. split; [done|]. split; [by eapply variant_prefix; [|apply Hk]|by right].
  - intros Hk Hfile. destruct (Hdec (seedBoundaryKeys after)) as [(s & Hs & Hv)|Hnone].
    + right. exists s. split; [done|]. split; [|done]. apply eq_None_not_Some. intros Hsome. apply Hfile. by exists s.
    + left. split; [done|]. intros (s & Hv & [Hs|[Hs _]]); [apply Hnone|apply Hfile]; by exists s.
Qed.

(** On the first page, and after a stored key when the variants are adjacent, exactly the
    files are shown. *)
Lemma shown_exactly view folder after k :
  let prefix := folder +:+ "/" in
  after = "" ∨ variants_adjacent view prefix ∧ is_Some (view !! after) →
  shown view prefix after k ↔ listed_after view prefix after k ∧ is_file view k.
Proof.
  intros prefix Hafter. destruct (shown_files view folder after k) as [Hshown Hfile]. fold prefix in Hshown, Hfile.
  split.
  - intros [Hk [?|(s & Hv & Hs & Hlt & Hseed)]]%Hshown; [done|]. exfalso.
    assert (Hne : after ≠ "") by (intros ->; by destruct s).
    destruct Hafter as [?|[Hadj Hat]]; [done|].
    destruct Hk as (Hk & Hp & [?|Hka]); [done|]. destruct (Hadj k s Hk Hp Hv) as [_ Hbetween].
    apply Hseed, variant_seed; [done|]. by apply Hbetween.
  - intros [Hk Hf]. destruct (Hfile Hk Hf) as [?|(s & Hv & Hnone & Hseed)]; [done|]. exfalso.
    destruct Hafter as [->|[Hadj _]]; [by apply seedBoundary_iff in Hseed as [? _]|].
    destruct Hk as (Hk & Hp & _). destruct (Hadj k s Hk Hp Hv) as [[so Hso] _]. congruence.
Qed.

(** The keys a listing shows after a cursor, in order. *)
Definition visible_keys (osm : T) (prefix after : string) : list string :=
  filter (λ k, hidden_in (seedBoundaryKeys after) (keys_after osm prefix after) k = false)
    (keys_after osm prefix after).

Lemma elem_of_visible (osm : T) prefix after k :
  osm_reliable osm → k ∈ visible_keys osm prefix after ↔ shown (osm_view osm) prefix after k.
Proof.
  intros Hrel. unfold visible_keys, shown, listed_after. rewrite list_elem_of_filter, elem_of_keys_after by done.
  assert (Hhid : hidden_in (seedBoundaryKeys after) (keys_after osm prefix after) k = false ↔
    ¬ ∃ sibling, variant_of k sibling ∧
    (sibling ∈ seedBoundaryKeys after ∨
     (is_Some (osm_view osm !! sibling) ∧ HasPrefix sibling prefix = true ∧
      (after = "" ∨ str_lt after sibling)))).
  { rewrite <-not_true_iff_false. apply not_iff_compat. unfold hidden_in.
    rewrite isEncodedVariant_iff. setoid_rewrite elem_of_union. setoid_rewrite elem_of_list_to_set.
    setoid_rewrite elem_of_keys_after; [|done]. naive_solver. }
  rewrite Hhid. tauto.
Qed.

Lemma listing_fuel_enough (osm : T) prefix after :
  length (keys_after osm prefix after) < listing_fuel osm prefix.
Proof.
  unfold listing_fuel, keys_after, stored_keys.
  pose proof (length_filter (λ k, after = "" ∨ str_lt after k) (map Key (osm_ListObjects osm prefix))) as Hl.
  rewrite length_map in Hl. lia.
Qed.

(** The cursor before a key that is not the first one is a stored key. *)
Lemma paged_keys_stored (osm : T) prefix after hidden i k prev :
  osm_reliable osm → 0 < i → paged_keys hidden after (keys_after osm prefix after) !! i = Some (k, prev) →
  is_Some (osm_view osm !! prev).
Proof.
  intros Hrel Hi (l1 & l2 & Hsplit & -> & _ & ->)%paged_keys_lookup.
  destruct (last l1) as [prev|] eqn:Hlast; [|apply last_None in Hlast as ->; simpl in Hi; lia].
  apply last_Some_elem_of in Hlast. cbn.
  assert (Hin : prev ∈ keys_after osm prefix after) by (rewrite Hsplit; set_solver).
  by apply elem_of_keys_after in Hin as (? & _).
Qed.

(** The page built from the first keys to show and the cursors before them. *)
Lemma make_listing_spec (osm : T) prefix after v limit collected single :
  osm_reliable osm → 0 < limit →
  map file_key collected =
    take (S limit) (paged_keys (hidden_in (seedBoundaryKeys after) (keys_after osm prefix after)) after
      (keys_after osm prefix after)) →
  (single = true → after = "") →
  let visible := visible_keys osm prefix after in
  let listing := make_listing v limit collected single in
  map Name (Files listing) = take limit visible ∧
  HasMore listing = bool_decide (limit < length visible) ∧
  (HasMore listing = true → is_Some (osm_view osm !! Next listing) ∧
     filter (str_lt (Next listing)) visible = drop limit visible) ∧
  (TotalKnown listing = true → after = "" ∧ Total listing = length visible).
Proof.
  intros Hrel Hlimit Hkeys Hsingle. unfold make_listing. cbn [Files HasMore Next TotalKnown Total].
  set (hidden := hidden_in (seedBoundaryKeys after) (keys_after osm prefix after)) in *.
  pose proof (keys_after_sorted osm prefix after Hrel) as Hsorted.
  pose proof (paged_keys_fst hidden after (keys_after osm prefix after)) as Hfst.
  change (visible_keys osm prefix after) with (filter (λ k, hidden k = false) (keys_after osm prefix after)).
  set (visible := filter (λ k, hidden k = false) (keys_after osm prefix after)) in *.
  assert (Hnames : map (λ p : pagedFile, Name p.1) collected = take (S limit) visible).
  { rewrite <-Hfst, firstn_map, <-Hkeys, map_map. done. }
  assert (Hlen : length collected = Nat.min (S limit) (length visible)).
  { by rewrite <-(length_map (λ p : pagedFile, Name p.1)), Hnames, length_take. }
  assert (Hmore : (limit <? length collected)%nat = bool_decide (limit < length visible)).
  { apply eq_iff_eq_true. rewrite Nat.ltb_lt, bool_decide_eq_true. lia. }
  split; [|split; [done|split]].
  - trans (take limit (map (λ p : pagedFile, Name p.1) collected)).
    { by rewrite firstn_map, map_map. }
    rewrite Hnames, take_take. f_equal. lia.
  - rewrite Hmore. intros Hlt. pose proof Hlt as Hlt'. apply bool_decide_eq_true in Hlt'.
    rewrite Hlt.
    destruct (lookup_lt_is_Some_2 collected limit) as [[f cur] Hf]; [lia|]. rewrite Hf. cbn [fmap option_fmap option_map default snd].
    assert (Hp : map file_key collected !! limit = Some (Name f, cur)) by by rewrite lookup_map, Hf.
    rewrite Hkeys, lookup_take_lt in Hp by lia.
    split; [by eapply paged_keys_stored|]. eapply paged_keys_resume; [done|done|exact Hp].
  - intros Ht. bool_hyps.
    assert (Hle : length visible ≤ limit) by (rewrite Hmore in *; bool_hyps; lia).
    split; [by apply Hsingle|]. rewrite length_map, length_take. lia.
Qed.

(** C27: a listing page is exact and resumes where it stopped.  For a positive [limit], when no
    listing fails, [GetFiles] ends; for a version that exists there is one sorted list of
    the keys to show, of which the page holds the first [limit]; [HasMore] says whether that
    left any out, [Next] is then a stored key and the keys after it are exactly the ones left
    out, and a total that is reported as known is the number of all of them.  The first
    page (no cursor) shows exactly the files of the version: the objects that are not the encoded
    variant of another stored object.  So does a page resumed after a stored key, for
    the files after this key, when every object of the version that is named as a variant has its file
    stored, with only variants of this file in between.  In general a resumed page takes as siblings only the keys after the cursor, the cursor, and the key
    it encodes: it can also show a variant whose file is before the cursor, and misses a
    file only if it is named as a variant of a missing object for which the cursor stands. *)
Theorem GetFiles_page svc (pkg version after : string) (limit : nat) :
  osm_reliable (objectStorageManager svc) → 0 < limit →
  ∃ listing, GetFiles svc pkg version after limit = Some listing ∧
    match listed_version svc pkg version with
    | None => Files listing = [] ∧ HasMore listing = false
    | Some v =>
        let view := osm_view (objectStorageManager svc) in
        let prefix := folder_name pkg v +:+ "/" in
        LVersion listing = v ∧
        ∃ visible, StronglySorted str_lt visible ∧
          (∀ k, k ∈ visible ↔ shown view prefix after k) ∧
          (after = "" ∨ variants_adjacent view prefix ∧ is_Some (view !! after) →
             ∀ k, k ∈ visible ↔ listed_after view prefix after k ∧ is_file view k) ∧
          (∀ k, k ∈ visible → listed_after view prefix after k ∧ (is_file view k ∨
             ∃ sibling, variant_of k sibling ∧ is_Some (view !! sibling) ∧ str_lt sibling after ∧
               sibling ∉ seedBoundaryKeys after)) ∧
          (∀ k, listed_after view prefix after k → is_file view k → k ∈ visible ∨
             ∃ sibling, variant_of k sibling ∧ view !! sibling = None ∧ sibling ∈ seedBoundaryKeys after) ∧
          map Name (Files listing) = take limit visible ∧
          HasMore listing = bool_decide (limit < length visible) ∧
          (HasMore listing = true → is_Some (view !! Next listing) ∧
             filter (str_lt (Next listing)) visible = drop limit visible) ∧
          (TotalKnown listing = true → after = "" ∧ Total listing = length visible)
    end.
Proof.
  intros Hrel Hlimit. unfold GetFiles, listed_version.
  destruct (if IsPinnedVersion version then (version, true)
            else resolveVersion (objectStorageManager svc) pkg version) as [v found] eqn:Hv.
  assert (Hlv : (if IsPinnedVersion version then Some version
    else let '(resolved, found) := resolveVersion (objectStorageManager svc) pkg version in
         if found then Some resolved else None) = if found then Some v else None).
  { destruct (IsPinnedVersion version); [by simplify_eq|]. by rewrite Hv. }
  rewrite Hlv. destruct found; cbn [negb]; [|by eexists].
  set (prefix := folder_name pkg v +:+ "/"). set (osm := objectStorageManager svc) in *.
  assert (Hprefix : prefix ≠ "") by (intros [_ ?]%str_app_eq_nil; done).
  destruct (collect_pages_spec (listing_fuel osm prefix) osm prefix after limit
    (seedBoundaryKeys after) [] after [] false true Hrel Hprefix Hlimit eq_refl
    (listing_fuel_enough osm prefix after) (Nat.le_0_l _)) as (collected & single & Hcoll & Hkeys & Hsingle).
  change (list_to_set []) with (∅ : gset string) in Hcoll.
  rewrite (right_id_L ∅ (∪)) in Hcoll. rewrite Hcoll. cbn [mbind option_bind].
  change (map file_key []) with (@nil (string * string)) in Hkeys. rewrite app_nil_l in Hkeys.
  eexists. split; [done|]. split; [done|].
  exists (visible_keys osm prefix after). split; [by apply sorted_filter, keys_after_sorted|].
  assert (Hvisible : ∀ k, k ∈ visible_keys osm prefix after ↔ shown (osm_view osm) prefix after k)
    by (intros k; by apply elem_of_visible).
  split; [done|]. split; [intros Hafter k; rewrite Hvisible; by apply shown_exactly|].
  split; [intros k ?%Hvisible; by apply shown_files|].
  split; [intros k ? ?; rewrite Hvisible; by apply shown_files|].
  apply make_listing_spec; [done|done|exact Hkeys|]. rewrite Hsingle, orb_false_r. intros Ht. by bool_hyps.
Qed.

(** ** GetFile *)

Lemma try_encodings_Some (osm : T) path accepted obj enc :
  try_encodings osm path accepted = Some (obj, enc) →
  object_key obj = path +:+ suffix enc ∧ enc ∈ accepted ∧ is_Some (osm_view osm !! object_key obj).
Proof.
  induction accepted as [|e accepted IH]; simpl; [done|].
  destruct (osm_GetObject osm (path +:+ suffix e)) as [o|err] eqn:Hget; [|intros ?%IH; set_solver].
  destruct (osm_Stat osm o) as [so|] eqn:Hstat; [|intros ?%IH; set_solver].
  intros [= <- <-]. split; [by eapply osm_Get_key|]. split; [set_solver|].
  exists so. by apply osm_Stat_ok.
Qed.

Lemma getEncodedObject_Ok (osm : T) path fileName accepted obj enc :
  getEncodedObject osm path fileName accepted = Ok (obj, enc) →
  object_key obj = path +:+ suffix enc ∧
  (enc = "" ∨ enc ∈ accepted ∧ (compressibleContentType fileName).2 = true ∧
              is_Some (osm_view osm !! object_key obj)).
Proof.
  unfold getEncodedObject. destruct (compressibleContentType fileName) as [ct compressible].
  destruct (if compressible then try_encodings osm path accepted else None) as [[o e]|] eqn:He.
  - intros [= <- <-]. destruct compressible; [|done].
    apply try_encodings_Some in He as (? & ? & ?). split; [done|]. by right.
  - intros (o & Hget & [= <- <-])%result_bind_Ok. rewrite str_app_nil_r.
    split; [by eapply osm_Get_key|]. by left.
Qed.

Lemma GetFile_object svc svc' (pkg version fileName : string) accepted obj enc :
  GetFile svc pkg version fileName accepted = (Ok (obj, enc), svc') →
  version_valid version = true ∧ objectStorageManager svc' = objectStorageManager svc ∧
  ∃ path, object_key obj = path +:+ suffix enc ∧
    (path = object_path (objectStorageManager svc) pkg version fileName ∨
     IsPinnedVersion version = false ∧
     ∃ cm, cacheManager svc = Some cm ∧
       cm_view cm !! cache_key pkg version fileName = Some {| ObjectPath := path |}) ∧
    (enc = "" ∨ enc ∈ accepted ∧ (compressibleContentType fileName).2 = true ∧
                is_Some (osm_view (objectStorageManager svc) !! object_key obj)).
Proof.
  unfold GetFile. destruct (version_valid version); simpl; [|done]. intros Hget.
  split; [done|].
  destruct (if IsPinnedVersion version then None else _) as [entry|] eqn:Hlookup.
  - injection Hget as Hget <-. split; [done|]. exists (ObjectPath entry).
    apply getEncodedObject_Ok in Hget as [Hkey Henc]. split; [done|]. split; [right|done].
    destruct (IsPinnedVersion version); [done|]. split; [done|].
    unfold cache_lookup in Hlookup. destruct (cacheManager svc) as [cm|]; [|done].
    exists cm. split; [done|]. apply cm_Get_ok in Hlookup. by destruct entry.
  - set (svc1 := match cacheManager svc with Some _ => _ | None => svc end) in Hget.
    assert (Hosm : objectStorageManager svc1 = objectStorageManager svc).
    { unfold svc1. by destruct (cacheManager svc), (IsPinnedVersion version). }
    clearbody svc1.
    rewrite Hosm in Hget.
    destruct (getEncodedObject _ _ fileName accepted) as [[o e]|err] eqn:Hobj; [|done].
    apply getEncodedObject_Ok in Hobj as [Hkey Henc].
    assert (Hres : o = obj ∧ e = enc ∧ objectStorageManager svc' = objectStorageManager svc).
    { destruct (cacheManager svc1); [|by simplify_eq].
      destruct (IsPinnedVersion version); [by simplify_eq|].
      destruct (cm_Set _ _ _ _). by simplify_eq. }
    destruct Hres as (-> & -> & ->). split; [done|]. eexists. split; [exact Hkey|]. split; [by left|done].
Qed.

(** A served object is the one asked for.  When [GetFile] answers an object, the
    version is "latest" or valid semver, the storage is unchanged, and the object is
    the file at the resolved path, or at the path the cache held for this request if
    the version is not pinned, or a variant of it that is stored, in an encoding the
    client accepts. *)
Theorem GetFile_serves svc svc' (pkg version fileName : string) accepted obj enc :
  GetFile svc pkg version fileName accepted = (Ok (obj, enc), svc') →
  version_valid version = true ∧ objectStorageManager svc' = objectStorageManager svc ∧
  ∃ path, object_key obj = path +:+ suffix enc ∧
    (path = object_path (objectStorageManager svc) pkg version fileName ∨
     IsPinnedVersion version = false ∧
     ∃ cm, cacheManager svc = Some cm ∧
       cm_view cm !! cache_key pkg version fileName = Some {| ObjectPath := path |}) ∧
    (enc = "" ∨ enc ∈ accepted ∧ (compressibleContentType fileName).2 = true ∧
                is_Some (osm_view (objectStorageManager svc) !! object_key obj)).
Proof. apply GetFile_object. Qed.

(** ** The cache in a history of the service *)

(** Names of packages have no "@", the file of a request begins with a slash, and its
    paths can be cached. *)
Definition cacheable (pkg fileName : string) : Prop :=
  char_free "@" pkg = true ∧ (∃ file, fileName = String "/" file) ∧
  ∀ version, cm_storable {| ObjectPath := folder_name pkg version +:+ "/" +:+ TrimLeft fileName "/" |}.

(** What may happen to the service between two observations: a request, a deletion, any
    change of the bucket, the expiry of entries. *)
Inductive serving : ContentService T K → ContentService T K → Prop :=
  | serve_get svc pkg version fileName accepted res svc' :
      cacheable pkg fileName → GetFile svc pkg version fileName accepted = (res, svc') →
      serving svc svc'
  | serve_delete svc pkg version err svc' :
      DeletePackage svc pkg version = (err, svc') → serving svc svc'
  | serve_store svc osm : serving svc (set_store svc osm)
  | serve_expire svc cm cm' :
      cacheManager svc = Some cm → cm_view cm' ⊆ cm_view cm → serving svc (set_cache svc (Some cm')).

(** The path of the file in the version asked for, or in one that the request selects. *)
Definition selected_path (pkg requested fileName path : string) : Prop :=
  ∃ version, path = folder_name pkg version +:+ "/" +:+ TrimLeft fileName "/" ∧
    (version = requested ∨ versionMatches version requested = true).

(** Every entry stands for a request that is not pinned, and points to a path it selects. *)
Definition entry_sound (key : string) (entry : CacheEntry) : Prop :=
  ∃ pkg requested file,
    char_free "@" pkg = true ∧ version_valid requested = true ∧ IsPinnedVersion requested = false ∧
    key = cache_key pkg requested (String "/" file) ∧
    selected_path pkg requested (String "/" file) (ObjectPath entry).

Definition cache_sound svc : Prop :=
  ∀ cm key entry, cacheManager svc = Some cm → cm_view cm !! key = Some entry → entry_sound key entry.

Lemma cache_sound_weaken svc svc' cm cm' :
  cache_sound svc → cacheManager svc = Some cm → cacheManager svc' = Some cm' →
  cm_view cm' ⊆ cm_view cm → cache_sound svc'.
Proof.
  intros Hsound Hcm Hcm' Hsub cm1 key entry Hcm1 Hkey. rewrite Hcm' in Hcm1. injection Hcm1 as <-.
  eapply Hsound; [done|]. by eapply lookup_weaken.
Qed.

Lemma object_path_unpinned (osm : T) pkg requested fileName :
  IsPinnedVersion requested = false → selected_path pkg requested fileName (object_path osm pkg requested fileName).
Proof.
  unfold object_path. intros ->.
  destruct (resolveVersion osm pkg requested) as [v [|]] eqn:Hres.
  - exists v. split; [done|]. right. by eapply resolveVersion_matches.
  - exists requested. auto.
Qed.

(** What a request stores keeps the cache sound. *)
Lemma Set_sound svc cm pkg version fileName path ttl err cm' :
  cache_sound svc → cacheManager svc = Some cm → cacheable pkg fileName →
  version_valid version = true → IsPinnedVersion version = false → selected_path pkg version fileName path →
  cm_Set cm (cache_key pkg version fileName) {| ObjectPath := path |} ttl = (err, cm') →
  cache_sound (set_cache svc (Some cm')).
Proof.
  intros Hsound Hcm (Hpkg & [file ->] & Hstorable) Hvalid Hpin Hpath Hset cm1 key entry [= <-] Hkey.
  destruct (decide (key = cache_key pkg version (String "/" file))) as [->|Hne].
  - pose proof Hpath as (v & Hp & _). rewrite Hp in Hset.
    destruct (cm_Set_spec _ _ _ _ _ _ Hset (Hstorable v)) as [_ [Hnew|Hold]].
    + rewrite Hnew in Hkey. injection Hkey as <-. exists pkg, version, file. by rewrite Hp in Hpath.
    + rewrite Hold in Hkey. by eapply Hsound.
  - rewrite (cm_Set_frame _ _ _ _ _ _ _ Hset Hne) in Hkey. by eapply Hsound.
Qed.

Lemma GetFile_cache_sound svc svc' pkg version fileName accepted res :
  cache_sound svc → cacheable pkg fileName →
  GetFile svc pkg version fileName accepted = (res, svc') → cache_sound svc'.
Proof.
  intros Hsound Hc. unfold GetFile.
  destruct (version_valid version) eqn:Hvalid; simpl; [|by intros [= _ <-]].
  destruct (if IsPinnedVersion version then None else _); [by intros [= _ <-]|].
  destruct (cacheManager svc) as [cm|] eqn:Hcm; simpl.
  2: { destruct (getEncodedObject _ _ _ _); [rewrite Hcm|]; by intros [= _ <-]. }
  destruct (IsPinnedVersion version) eqn:Hpin.
  { destruct (getEncodedObject _ _ _ _); [rewrite Hcm|]; by intros [= _ <-]. }
  cbn [objectStorageManager count cacheManager].
  destruct (getEncodedObject _ _ _ _); [rewrite Hcm|by intros [= _ <-]].
  destruct (cm_Set cm _ _ _) as [err cm'] eqn:Hset. intros [= _ <-].
  eapply (Set_sound (count svc inc_misses)); try done. by apply object_path_unpinned.
Qed.

(** ** DeletePackage *)

Lemma invalidate_subseteq (cm : K) prefixes :
  Forall (λ p, plain_prefix p = true) prefixes → cm_view (invalidate cm prefixes) ⊆ cm_view cm.
Proof.
  intros Hp. revert cm. induction Hp as [|p prefixes Hp _ IH]; intros cm; [done|].
  unfold invalidate in *. simpl. etrans; [apply IH|].
  destruct (cm_DeleteByPrefix cm p) as [err cm'] eqn:Hdel.
  by apply (cm_DeleteByPrefix_spec _ _ _ _ Hdel).
Qed.

Lemma invalidate_gone (cm : K) prefixes p key :
  Forall (λ p, plain_prefix p = true) prefixes → cm_reliable cm →
  p ∈ prefixes → HasPrefix key p = true → cm_view (invalidate cm prefixes) !! key = None.
Proof.
  intros Hp. revert cm. induction Hp as [|q prefixes Hq Hps IH]; intros cm Hrel Hin Hkey; [set_solver|].
  destruct (cm_DeleteByPrefix_reliable cm q Hrel) as (cm' & Hdel & Hrel').
  change (invalidate cm (q :: prefixes)) with (invalidate (cm_DeleteByPrefix cm q).2 prefixes).
  rewrite Hdel. simpl. apply elem_of_cons in Hin as [->|Hin]; [|by apply IH].
  destruct (cm_DeleteByPrefix_spec _ _ _ _ Hdel Hq) as (_ & _ & Hgone).
  pose proof (invalidate_subseteq cm' prefixes Hps) as Hsub.
  destruct (cm_view (invalidate cm' prefixes) !! key) eqn:Hv; [|done].
  pose proof (lookup_weaken _ _ _ _ Hv Hsub). by rewrite Hgone in *.
Qed.

Lemma plain_folder name version :
  packageNamePattern name = true →
  (∀ c, name_char c = false → c ≠ "+"%char → char_free c version = true) →
  plain_prefix (folder_name name version) = true.
Proof.
  intros Hn Hv. unfold plain_prefix, folder_name.
  rewrite !andb_true_iff, !char_free_app.
  repeat split; try (by apply name_char_free); by apply Hv.
Qed.

Lemma name_char_ident c : name_char c = false → ident_char c = false ∧ c ≠ "."%char.
Proof.
  unfold name_char, ident_char. rewrite !orb_false_iff, !Ascii.eqb_neq. tauto.
Qed.

Lemma core_plain c v :
  wf v = true → name_char c = false → c ≠ "+"%char →
  char_free c (sv_major v) = true ∧ char_free c (sv_major v +:+ "." +:+ sv_minor v) = true.
Proof.
  intros Hwf [Hc Hdot]%name_char_ident Hplus.
  assert (Hdigit : digit c = false) by (unfold ident_char in Hc; by apply orb_false_iff in Hc as [[? _]%orb_false_iff _]).
  assert (Hnum : ∀ s, number s = true → char_free c s = true) by (intros; by apply number_char_free).
  rewrite !char_free_app. assert (char_free c "." = true) by by apply char_free_cons.
  assert (char_free c "0" = true) by by apply Hnum.
  destruct v; simpl in *; bool_hyps; auto.
Qed.

Lemma alias_prefixes_plain pkg version :
  packageNamePattern pkg = true → isFullSemver version = true →
  Forall (λ p, plain_prefix p = true) (folder_name pkg version :: mutableAliasPrefixes pkg version).
Proof.
  intros Hn Hfull. pose proof Hfull as (v & Hwf & Hf & Hv)%isFullSemver_iff.
  destruct (mutableAliasPrefixes_spec pkg version v Hwf Hf Hv) as [-> _].
  repeat constructor; apply plain_folder; try done.
  - intros c Hc%name_char_ident Hplus. by apply full_char_free; [|apply Hc..|].
  - intros c Hc _. unfold latestVersionAlias. rewrite !char_free_cons.
    repeat split; intros E; subst c; done.
  - intros c Hc Hplus. by apply (core_plain c v).
  - intros c Hc Hplus. by apply (core_plain c v).
Qed.

Lemma GetFile_store svc pkg version file accepted res svc' :
  GetFile svc pkg version file accepted = (res, svc') →
  objectStorageManager svc' = objectStorageManager svc.
Proof.
  unfold GetFile. destruct (negb (version_valid version)); [by intros [= _ <-]|].
  destruct (if IsPinnedVersion version then None else _); [by intros [= _ <-]|].
  set (svc1 := match cacheManager svc with Some _ => _ | None => svc end).
  assert (Hosm : objectStorageManager svc1 = objectStorageManager svc).
  { unfold svc1. by destruct (cacheManager svc), (IsPinnedVersion version). }
  clearbody svc1.
  destruct (getEncodedObject _ _ file accepted) as [found|err]; [|by intros [= _ <-]].
  destruct (cacheManager svc1); [|by intros [= _ <-]].
  destruct (IsPinnedVersion version); [by intros [= _ <-]|].
  destruct (cm_Set _ _ _ _). by intros [= _ <-].
Qed.

(** A deletion touches nothing outside the folder of a valid version, and adds nothing. *)
Lemma DeletePackage_frame svc svc' pkg version err :
  DeletePackage svc pkg version = (err, svc') →
  osm_view (objectStorageManager svc') ⊆ osm_view (objectStorageManager svc) ∧
  ∀ k, (validatePackageIdentity pkg version = None ∧ HasPrefix k (folder_name pkg version +:+ "/") = true) ∨
    osm_view (objectStorageManager svc') !! k = osm_view (objectStorageManager svc) !! k.
Proof.
  unfold DeletePackage. destruct (validatePackageIdentity pkg version); [intros [= _ <-]; split; [done|by right]|].
  destruct (osm_RemoveObjects (objectStorageManager svc) (folder_name pkg version +:+ "/")) as [rerr osm] eqn:Hrm.
  destruct (osm_Remove_frame _ _ _ _ Hrm) as [Hsub Hframe]. intros Hdel.
  assert (Hosm : objectStorageManager svc' = osm).
  { destruct rerr; injection Hdel as _ <-; simpl; [done|]. by destruct (cacheManager svc). }
  rewrite Hosm. split; [done|]. intros k. destruct (HasPrefix k _) eqn:Hk; [by left|right]. by apply Hframe.
Qed.

(** A deletion removes one version and nothing else.  Whatever [DeletePackage]
    answers, the objects outside the folder of the version are untouched and none is
    added or changed; on success the identity was valid, the folder is empty and the
    deletion is counted; on an error the cache and the counters are as before. *)
Theorem DeletePackage_exact svc svc' (pkg version : string) err :
  DeletePackage svc pkg version = (err, svc') →
  let view := osm_view (objectStorageManager svc) in
  let view' := osm_view (objectStorageManager svc') in
  view' ⊆ view ∧
  (∀ k, HasPrefix k (folder_name pkg version +:+ "/") = false → view' !! k = view !! k) ∧
  match err with
  | None =>
      validatePackageIdentity pkg version = None ∧
      (∀ k, HasPrefix k (folder_name pkg version +:+ "/") = true → view' !! k = None) ∧
      metrics svc' = inc_deleted (metrics svc)
  | Some _ => cacheManager svc' = cacheManager svc ∧ metrics svc' = metrics svc
  end.
Proof.
  unfold DeletePackage. destruct (validatePackageIdentity pkg version); [by intros [= <- <-]|].
  destruct (osm_RemoveObjects (objectStorageManager svc) (folder_name pkg version +:+ "/"))
    as [rerr osm] eqn:Hrm.
  destruct (osm_Remove_frame _ _ _ _ Hrm) as [Hsub Hframe].
  destruct rerr as [e|]; [intros [= <- <-]; done|]. intros Hdel. injection Hdel as <- Hsvc.
  assert (Hview : osm_view (objectStorageManager svc') = osm_view osm).
  { rewrite <-Hsvc. simpl. by destruct (cacheManager svc). }
  cbn zeta. rewrite Hview. split; [done|]. split; [done|]. split; [done|]. split.
  - intros k Hk. rewrite (osm_Remove_ok _ _ _ Hrm), map_lookup_filter.
    destruct (osm_view (objectStorageManager svc) !! k); simpl; [|done].
    rewrite option_guard_False; [done|]. unfold not_below. simpl. congruence.
  - rewrite <-Hsvc. simpl. by destruct (cacheManager svc).
Qed.

Lemma DeletePackage_cache svc svc' pkg version err cm :
  DeletePackage svc pkg version = (err, svc') → cacheManager svc = Some cm →
  cacheManager svc' = Some cm ∨
  err = None ∧ packageNamePattern pkg = true ∧ isFullSemver version = true ∧
  cacheManager svc' = Some (invalidate cm (folder_name pkg version :: mutableAliasPrefixes pkg version)).
Proof.
  unfold DeletePackage. intros Hdel Hcm.
  destruct (validatePackageIdentity pkg version) eqn:Hval; [injection Hdel as _ <-; by left|].
  apply validated_iff in Hval as [? ?].
  destruct (osm_RemoveObjects _ _) as [[e|] osm]; [injection Hdel as _ <-; by left|].
  injection Hdel as <- <-. right. simpl. by rewrite Hcm.
Qed.

Lemma serving_sound svc svc' : cache_sound svc → serving svc svc' → cache_sound svc'.
Proof.
  intros Hsound Hstep.
  destruct Hstep as [svc pkg version fileName accepted res svc' Hc Hget|svc pkg version err svc' Hdel
    |svc osm|svc cm cm' Hcm Hsub].
  - by eapply GetFile_cache_sound.
  - destruct (cacheManager svc) as [cm|] eqn:Hcm.
    + destruct (DeletePackage_cache _ _ _ _ _ _ Hdel Hcm) as [Hcm'|(_ & Hn & Hf & Hcm')].
      * by apply (cache_sound_weaken svc svc' cm cm).
      * apply (cache_sound_weaken svc svc' cm _ Hsound Hcm Hcm').
        by apply invalidate_subseteq, alias_prefixes_plain.
    + intros cm1 key entry Hcm1 _. exfalso. unfold DeletePackage in Hdel.
      destruct (validatePackageIdentity pkg version); [injection Hdel as _ <-; congruence|].
      destruct (osm_RemoveObjects _ _) as [[e|] osm]; injection Hdel as _ <-; simpl in *; try congruence.
      rewrite Hcm in Hcm1. simpl in Hcm1. congruence.
  - done.
  - by eapply (cache_sound_weaken svc _ cm cm').
Qed.

Lemma serving_star_sound svc svc' : cache_sound svc → rtc serving svc svc' → cache_sound svc'.
Proof. intros Hs Hsteps. induction Hsteps; [done|]. eauto using serving_sound. Qed.

Lemma empty_cache_sound svc cm :
  cacheManager svc = Some cm → cm_view cm = ∅ → cache_sound svc.
Proof. intros Hcm Hempty cm' key entry Hcm' Hkey. simplify_eq. by rewrite Hempty, lookup_empty in Hkey. Qed.

(** The cache never mixes requests up.  In every state reached from an empty cache
    by requests, deletions, changes of the bucket and expiry, an entry is stored under
    the key of a request, and its path is the file of that request in the same package,
    in the version asked for or in a version that the request selects. *)
Theorem cache_entries_sound svc0 svc cm0 cm key entry :
  cacheManager svc0 = Some cm0 → cm_view cm0 = ∅ → rtc serving svc0 svc →
  cacheManager svc = Some cm → cm_view cm !! key = Some entry → entry_sound key entry.
Proof.
  intros Hcm0 Hempty Hsteps Hcm Hkey.
  by eapply (serving_star_sound svc0 svc); [eapply empty_cache_sound|..].
Qed.

Lemma valid_version_free c version :
  version_valid version = true → ident_char c = false → c ≠ "."%char → c ≠ "+"%char →
  char_free c version = true.
Proof.
  unfold version_valid. intros [->%String.eqb_eq|Hv]%orb_true_iff Hc Hdot Hplus; [|by apply valid_char_free].
  unfold latestVersionAlias. rewrite !char_free_cons. repeat split; intros E; subst c; done.
Qed.

Lemma below_folder (pkg version q v file : string) :
  packageNamePattern pkg = true → isFullSemver version = true → char_free "@" q = true → char_free "/" v = true →
  HasPrefix (folder_name q v +:+ "/" +:+ file) (folder_name pkg version +:+ "/") = true → q = pkg ∧ v = version.
Proof.
  intros Hname Hfull Hq Hv [t Ht]%HasPrefix_spec. unfold folder_name in Ht. rewrite !str_app_assoc in Ht.
  apply (char_free_sep_inj "@") in Ht as [-> Ht]; [|done|by apply name_char_free].
  by apply (char_free_sep_inj "/") in Ht as [-> _]; [|done|by apply full_char_free].
Qed.

Lemma matching_version_free v requested : versionMatches v requested = true → char_free "/" v = true.
Proof.
  intros Hm. destruct (versionMatches_valid _ _ Hm) as (w & Hwf & Hw & _).
  apply valid_char_free; [|done..]. apply IsValid_spec. eauto.
Qed.

(** A path below the folder of a version is selected by requests for this version only. *)
Lemma selected_below (pkg version q requested fileName path : string) :
  packageNamePattern pkg = true → isFullSemver version = true → char_free "@" q = true → version_valid requested = true →
  selected_path q requested fileName path → HasPrefix path (folder_name pkg version +:+ "/") = true →
  q = pkg ∧ (requested = version ∨ versionMatches version requested = true).
Proof.
  intros Hname Hfull Hq Hreq (v & -> & Hv) Hbelow. apply below_folder in Hbelow as [-> ->]; [|done..|].
  - split; [done|]. destruct Hv as [->|?]; auto.
  - destruct Hv as [->|Hm]; [by apply valid_version_free|by eapply matching_version_free].
Qed.

(** A key whose entry leads below a version is invalidated with the version. *)
Lemma stale_covered (pkg version key : string) entry :
  packageNamePattern pkg = true → isFullSemver version = true → entry_sound key entry →
  HasPrefix (ObjectPath entry) (folder_name pkg version +:+ "/") = true →
  ∃ p, p ∈ folder_name pkg version :: mutableAliasPrefixes pkg version ∧ HasPrefix key p = true.
Proof.
  intros Hname Hfull (q & requested & file & Hq & Hreq & _ & -> & Hpath) Hbelow.
  destruct (selected_below pkg version q requested _ _ Hname Hfull Hq Hreq Hpath Hbelow) as [-> Hv].
  destruct (decide (requested = version)) as [->|Hne].
  - exists (folder_name pkg version). split; [by left|apply HasPrefix_app].
  - destruct Hv as [?|Hm]; [done|].
    pose proof Hfull as (w & Hwf & Hf & Hw)%isFullSemver_iff.
    destruct (mutableAliasPrefixes_spec pkg version w Hwf Hf Hw) as [_ Hcover].
    exists (folder_name pkg requested). split; [right; by apply Hcover|apply HasPrefix_app].
Qed.

(** C11: no stale alias after a deletion.  From a state reached with the cache empty at
    first, when the cache answers and [DeletePackage] succeeds, no cache entry is left
    whose path lies under the deleted version, whichever alias it was stored for. *)
Theorem DeletePackage_no_stale svc0 svc svc' cm0 cm cm' (pkg version : string) key entry :
  cacheManager svc0 = Some cm0 → cm_view cm0 = ∅ → rtc serving svc0 svc →
  cacheManager svc = Some cm → cm_reliable cm →
  DeletePackage svc pkg version = (None, svc') →
  cacheManager svc' = Some cm' → cm_view cm' !! key = Some entry →
  HasPrefix (ObjectPath entry) (folder_name pkg version +:+ "/") = false.
Proof.
  intros Hcm0 Hempty Hsteps Hcm Hrel Hdel Hcm' Hkey.
  assert (Hsound : cache_sound svc) by by eapply serving_star_sound, Hsteps; eapply empty_cache_sound.
  assert (Hval : packageNamePattern pkg = true ∧ isFullSemver version = true).
  { apply validated_iff. unfold DeletePackage in Hdel. by destruct (validatePackageIdentity pkg version). }
  destruct Hval as [Hname Hfull].
  assert (Hcm1 : cm' = invalidate cm (folder_name pkg version :: mutableAliasPrefixes pkg version)).
  { unfold DeletePackage in Hdel. rewrite (proj2 (validated_iff pkg version)) in Hdel by done.
    destruct (osm_RemoveObjects _ _) as [[e|] osm]; [done|]. injection Hdel as <-.
    simpl in Hcm'. rewrite Hcm in Hcm'. by injection Hcm' as <-. }
  pose proof (alias_prefixes_plain pkg version Hname Hfull) as Hplain.
  pose proof (lookup_weaken _ _ _ _ Hkey (eq_ind_r (λ c, cm_view c ⊆ cm_view cm)
    (invalidate_subseteq cm _ Hplain) Hcm1)) as Hold.
  apply not_true_iff_false. intros Hbelow.
  destruct (stale_covered pkg version key entry Hname Hfull (Hsound _ _ _ Hcm Hold) Hbelow) as (p & Hp & Hkp).
  rewrite Hcm1 in Hkey. by rewrite (invalidate_gone cm _ p _ Hplain Hrel Hp Hkp) in Hkey.
Qed.
End serve_properties.

(** ** The properties on a service *)

#[local] Existing Instance builtin_mime.
#[local] Existing Instance plain_codec.
#[local] Existing Instance plain_codec_laws.

Notation demo := (ContentService (Storage.objectStorageManager memory) (redisCache mem_redis)) (only parsing).

Definition no_limits : UploadLimits := {| MaxSize := 0; MaxEntries := 0; MaxUncompressedSize := 0 |}.

Definition serving_demo (objects entries : list (string * string)) : demo :=
  NewContentService (bucket_with objects) (Some (cache_with entries)) 60 no_limits [].

Definition two_files : list (string * string) :=
  [("lib@1.0.0/a.js", "1"); ("lib@1.0.0/a.js.br", "2"); ("lib@1.2.0/a.js", "3")].

Lemma demo_bucket_reliable objects entries :
  osm_reliable (objectStorageManager (serving_demo objects entries)).
Proof. now apply bucket_reliable. Qed.

Lemma GetFiles_page_witness :
  ∃ listing, GetFiles (serving_demo two_files []) "lib" "1.0.0" "" 5 = Some listing ∧
    map Name (Files listing) = ["lib@1.0.0/a.js"] ∧ HasMore listing = false ∧
    LVersion listing = "1.0.0".
Proof.
  destruct (GetFiles_page (serving_demo two_files []) "lib" "1.0.0" "" 5
    (demo_bucket_reliable _ _) ltac:(lia)) as (listing & Hget & Hspec).
  assert (E : listed_version (serving_demo two_files []) "lib" "1.0.0" = Some "1.0.0") by now vm_compute.
  rewrite E in Hspec. destruct Hspec as (Hv & _). exists listing. split; [exact Hget|].
  assert (E2 : option_map (λ l, (map Name (Files l), HasMore l))
    (GetFiles (serving_demo two_files []) "lib" "1.0.0" "" 5) = Some (["lib@1.0.0/a.js"], false))
    by now vm_compute.
  rewrite Hget in E2. cbn [option_map] in E2. injection E2 as -> ->.
  split; [reflexivity|]. split; [reflexivity|exact Hv].
Defined.

Lemma GetFile_serves_witness :
  (GetFile (serving_demo two_files []) "lib" "1" "/a.js" ["br"]).1 =
    Ok ({| object_key := "lib@1.2.0/a.js" |}, "") ∧
  version_valid "1" = true.
Proof.
  assert (E : (GetFile (serving_demo two_files []) "lib" "1" "/a.js" ["br"]).1 =
    Ok ({| object_key := "lib@1.2.0/a.js" |}, "")) by now vm_compute.
  split; [exact E|].
  apply (GetFile_serves (serving_demo two_files [])
    (GetFile (serving_demo two_files []) "lib" "1" "/a.js" ["br"]).2 "lib" "1" "/a.js" ["br"]
    {| object_key := "lib@1.2.0/a.js" |} "").
  pose proof (surjective_pairing (GetFile (serving_demo two_files []) "lib" "1" "/a.js" ["br"])) as P.
  rewrite E in P. exact P.
Defined.

Definition warm_demo : demo := (GetFile (serving_demo two_files []) "lib" "1" "/a.js" []).2.

Lemma warm_demo_reached : rtc serving (serving_demo two_files []) warm_demo.
Proof.
  apply rtc_once. eapply (serve_get _ "lib" "1" "/a.js" []); [|apply surjective_pairing].
  split; [now vm_compute|]. split; [by eexists|]. intros version. exact I.
Qed.

(** A request for an alias that resolves to nothing leaves an entry, too. *)
Definition stale_demo : demo := (GetFile warm_demo "lib" "2" "/a.js" []).2.

Lemma stale_demo_reached : rtc serving (serving_demo two_files []) stale_demo.
Proof.
  eapply rtc_r; [apply warm_demo_reached|].
  eapply (serve_get _ "lib" "2" "/a.js" []); [|apply surjective_pairing].
  split; [now vm_compute|]. split; [by eexists|]. intros version. exact I.
Qed.

Lemma cache_entries_sound_witness :
  cache_view (cache_with [("lib@1/a.js", "lib@1.2.0/a.js")]) !! "lib@1/a.js" =
    Some {| ObjectPath := "lib@1.2.0/a.js" |} ∧
  entry_sound "lib@1/a.js" {| ObjectPath := "lib@1.2.0/a.js" |}.
Proof.
  split; [now vm_compute|].
  apply (cache_entries_sound (serving_demo two_files []) warm_demo (cache_with [])
    (cache_with [("lib@1/a.js", "lib@1.2.0/a.js")])).
  - reflexivity.
  - now vm_compute.
  - apply warm_demo_reached.
  - now vm_compute.
  - now vm_compute.
Defined.

Lemma DeletePackage_exact_witness :
  (DeletePackage warm_demo "lib" "1.2.0").1 = None ∧
  osm_view (objectStorageManager (DeletePackage warm_demo "lib" "1.2.0").2) !! "lib@1.0.0/a.js" =
    osm_view (objectStorageManager warm_demo) !! "lib@1.0.0/a.js".
Proof.
  split; [now vm_compute|].
  apply (DeletePackage_exact warm_demo _ "lib" "1.2.0" _ (surjective_pairing _)). now vm_compute.
Defined.

Lemma DeletePackage_no_stale_witness :
  (DeletePackage warm_demo "lib" "1.0.0").1 = None ∧
  cacheManager (DeletePackage warm_demo "lib" "1.0.0").2 = Some (cache_with []) ∧
  cacheManager (DeletePackage stale_demo "lib" "1.0.0").2 =
    Some (cache_with [("lib@2/a.js", "lib@2/a.js")]) ∧
  HasPrefix "lib@2/a.js" (folder_name "lib" "1.0.0" +:+ "/") = false.
Proof.
  split; [now vm_compute|]. split; [now vm_compute|].
  assert (E : cacheManager (DeletePackage stale_demo "lib" "1.0.0").2 =
    Some (cache_with [("lib@2/a.js", "lib@2/a.js")])) by now vm_compute.
  split; [exact E|].
  apply (DeletePackage_no_stale (serving_demo two_files []) stale_demo
    (DeletePackage stale_demo "lib" "1.0.0").2 (cache_with [])
    (cache_with [("lib@1/a.js", "lib@1.2.0/a.js"); ("lib@2/a.js", "lib@2/a.js")])
    (cache_with [("lib@2/a.js", "lib@2/a.js")]) "lib" "1.0.0" "lib@2/a.js"
    {| ObjectPath := "lib@2/a.js" |}); [reflexivity|now vm_compute|apply stale_demo_reached|
    now vm_compute|reflexivity|now vm_compute|exact E|now vm_compute].
Defined.

(** ** Divergences *)

(** The pagination of [GetFiles] can show an encoded variant as a file: the page that
    resumes after a.js-x knows nothing of a.js, which the page before showed. *)
Theorem GetFiles_variant_leak :
  let bucket := [("lib@1.0.0/a.js", "1"); ("lib@1.0.0/a.js-x", "2"); ("lib@1.0.0/a.js-y", "3");
                 ("lib@1.0.0/a.js.br", "4")] in
  let names after := option_map (λ l, (map Name (Files l), Next l))
    (GetFiles (serving_demo bucket []) "lib" "1.0.0" after 2) in
  names "" = Some (["lib@1.0.0/a.js"; "lib@1.0.0/a.js-x"], "lib@1.0.0/a.js-x") ∧
  names "lib@1.0.0/a.js-x" = Some (["lib@1.0.0/a.js-y"; "lib@1.0.0/a.js.br"], "").
Proof. now vm_compute. Qed.

(** It can also lose a file: with a.js.br and a.js.gz but no a.js in the archive, both are
    files, but the page that resumes after a.js.br takes a.js for an object. *)
Theorem GetFiles_variant_lost :
  let bucket := [("lib@1.0.0/a.js.br", "1"); ("lib@1.0.0/a.js.gz", "2"); ("lib@1.0.0/b.js", "3")] in
  let names after limit := option_map (λ l, (map Name (Files l), HasMore l, Next l))
    (GetFiles (serving_demo bucket []) "lib" "1.0.0" after limit) in
  names "" 3%nat = Some (["lib@1.0.0/a.js.br"; "lib@1.0.0/a.js.gz"; "lib@1.0.0/b.js"], false, "") ∧
  names "" 1%nat = Some (["lib@1.0.0/a.js.br"], true, "lib@1.0.0/a.js.br") ∧
  names "lib@1.0.0/a.js.br" 1%nat = Some (["lib@1.0.0/b.js"], false, "").
Proof. now vm_compute. Qed.
