(* ===== verification/InFlight.v ===== *)
(** Reads and deletions call by call (internal/content/content-service.go): GetFile and
    DeletePackage as threads, so that the calls of several requests, of one or several
    processes over one bucket and one cache, can interleave. *)
From S2P Require Import Prelude Threads GoStrings Errors Semver Zip Mime Storage Version Compression Archive Cache Service Serve.
From Stdlib Require Import Ascii.

Inductive file_request :=
  | Fetches (pkg version fileName : string) (accepted : list Encoding)
  | Removes (pkg version : string).

Inductive file_answer :=
  | Fetched (res : result (Object * Encoding))
  | Removed (err : option GimmeError).

Section in_flight.
Context {T K : Type} `{ObjectStorageManager T} `{CacheManager K} `{MimeTable} `{Semver}.
Notation service := (ContentService T K).
Notation task := (thread (ContentService T K) file_answer).
Implicit Types svc : service.

(** ** GetFile *)

(** The loop over the encodings: a GetObject and a Stat for each. *)
Fixpoint try_encodings_task (objectPath : string) (accepted : list Encoding) (none : task)
    (found : Object → Encoding → task) : task :=
  match accepted with
  | [] => none
  | encoding :: accepted =>
      Act id (λ svc,
        match osm_GetObject (objectStorageManager svc) (objectPath +:+ suffix encoding) with
        | Fail _ => try_encodings_task objectPath accepted none found
        | Ok obj =>
            Act id (λ svc,
              match osm_Stat (objectStorageManager svc) obj with
              | Some _ => found obj encoding
              | None => try_encodings_task objectPath accepted none found
              end)
        end)
  end.

Definition getEncodedObject_task (objectPath fileName : string) (accepted : list Encoding)
    (k : result (Object * Encoding) → task) : task :=
  let plain := Act id (λ svc, k (obj <-? osm_GetObject (objectStorageManager svc) objectPath; Ok (obj, ""))%gimme) in
  let '(_, compressible) := compressibleContentType fileName in
  if compressible then try_encodings_task objectPath accepted plain (λ obj encoding, k (Ok (obj, encoding)))
  else plain.

(** The look at the cache, which counts itself. *)
Definition counted_lookup (cacheKey : string) svc : service :=
  match cache_lookup svc cacheKey with
  | Some _ => count svc inc_hits
  | None => match cacheManager svc with Some _ => count svc inc_misses | None => svc end
  end.

Definition store_path (cacheKey objectPath : string) svc : service :=
  match cacheManager svc with
  | Some cm =>
      let '(_, cm) := cm_Set cm cacheKey {| ObjectPath := objectPath |} (cacheTTL svc) in set_cache svc (Some cm)
  | None => svc
  end.

(** From the resolution of the version on. *)
Definition resolve_task (pkg version fileName : string) (accepted : list Encoding) : task :=
  Act id (λ svc,
    let objectPath := object_path (objectStorageManager svc) pkg version fileName in
    getEncodedObject_task objectPath fileName accepted (λ res,
      match res with
      | Fail err => Done (Fetched (Fail err))
      | Ok found =>
          if IsPinnedVersion version then Done (Fetched (Ok found))
          else Act (store_path (cache_key pkg version fileName) objectPath) (λ _, Done (Fetched (Ok found)))
      end)).

Definition GetFile_task (pkg version fileName : string) (accepted : list Encoding) : task :=
  if negb (version_valid version) then
    Done (Fetched (fail BadRequest "invalid version (asked version must be semver compatible)"))
  else if IsPinnedVersion version then resolve_task pkg version fileName accepted
  else
    let cacheKey := cache_key pkg version fileName in
    Act (counted_lookup cacheKey) (λ svc,
      match cache_lookup svc cacheKey with
      | Some entry => getEncodedObject_task (ObjectPath entry) fileName accepted (λ res, Done (Fetched res))
      | None => resolve_task pkg version fileName accepted
      end).

(** ** DeletePackage *)

Definition delete_prefix (prefix : string) svc : service :=
  match cacheManager svc with
  | Some cm => set_cache svc (Some (cm_DeleteByPrefix cm prefix).2)
  | None => svc
  end.

Fixpoint invalidate_task (prefixes : list string) (k : task) : task :=
  match prefixes with
  | [] => k
  | prefix :: prefixes => Act (delete_prefix prefix) (λ _, invalidate_task prefixes k)
  end.

Definition DeletePackage_task (pkg version : string) : task :=
  match validatePackageIdentity pkg version with
  | Some err => Done (Removed (Some (NewBusinessError BadRequest (Some err))))
  | None =>
      let prefix := folder_name pkg version in
      Act (λ svc, set_store svc (osm_RemoveObjects (objectStorageManager svc) (prefix +:+ "/")).2) (λ svc,
        match (osm_RemoveObjects (objectStorageManager svc) (prefix +:+ "/")).1 with
        | Some err => Done (Removed (Some err))
        | None =>
            invalidate_task (prefix :: mutableAliasPrefixes pkg version)
              (Act (λ svc, count svc inc_deleted) (λ _, Done (Removed None)))
        end)
  end.

Definition file_task (r : file_request) : task :=
  match r with
  | Fetches pkg version fileName accepted => GetFile_task pkg version fileName accepted
  | Removes pkg version => DeletePackage_task pkg version
  end.

(** The operations of Serve.v. *)
Definition file_operation (r : file_request) svc : file_answer * service :=
  match r with
  | Fetches pkg version fileName accepted =>
      let '(res, svc) := GetFile svc pkg version fileName accepted in (Fetched res, svc)
  | Removes pkg version => let '(err, svc) := DeletePackage svc pkg version in (Removed err, svc)
  end.

(** ** A request alone *)

Lemma exec_try_encodings path accepted none found svc :
  exec (try_encodings_task path accepted none found) svc =
  match try_encodings (objectStorageManager svc) path accepted with
  | Some (obj, encoding) => exec (found obj encoding) svc
  | None => exec none svc
  end.
Proof.
  induction accepted as [|e accepted IH]; cbn [try_encodings_task try_encodings exec id]; [done|].
  destruct (osm_GetObject _ _) as [obj|err]; [|done]. cbn [exec id]. by destruct (osm_Stat _ obj).
Qed.

Lemma exec_getEncodedObject path fileName accepted k svc :
  exec (getEncodedObject_task path fileName accepted k) svc =
  exec (k (getEncodedObject (objectStorageManager svc) path fileName accepted)) svc.
Proof.
  unfold getEncodedObject_task, getEncodedObject. destruct (compressibleContentType fileName) as [ct [|]]; [|done].
  rewrite exec_try_encodings. by destruct (try_encodings _ path accepted) as [[obj e]|].
Qed.

Lemma exec_invalidate prefixes k svc :
  exec (invalidate_task prefixes k) svc =
  exec k (match cacheManager svc with Some cm => set_cache svc (Some (invalidate cm prefixes)) | None => svc end).
Proof.
  revert svc. induction prefixes as [|p prefixes IH]; intros svc; cbn [invalidate_task exec].
  - by destruct svc as [? [?|]].
  - rewrite IH. unfold delete_prefix. by destruct svc as [? [cm|]].
Qed.

(** A request that runs alone is the operation of the service. *)
Lemma exec_file_task r svc : exec (file_task r) svc = file_operation r svc.
Proof.
  destruct r as [pkg version fileName accepted|pkg version]; cbn [file_task file_operation].
  - unfold GetFile_task, GetFile. destruct (negb (version_valid version)); [done|].
    assert (Hresolve : ∀ svc, exec (resolve_task pkg version fileName accepted) svc =
      match getEncodedObject (objectStorageManager svc) (object_path (objectStorageManager svc) pkg version fileName)
              fileName accepted with
      | Fail err => (Fetched (Fail err), svc)
      | Ok found => (Fetched (Ok found), if IsPinnedVersion version then svc
          else store_path (cache_key pkg version fileName) (object_path (objectStorageManager svc) pkg version fileName) svc)
      end).
    { intros svc'. unfold resolve_task. cbn [exec id]. rewrite exec_getEncodedObject.
      destruct (getEncodedObject _ _ _ _); [|done]. by destruct (IsPinnedVersion version). }
    destruct (IsPinnedVersion version) eqn:Hpin.
    + rewrite Hresolve. destruct (cacheManager svc) eqn:Hcm; destruct (getEncodedObject _ _ _ _); by rewrite ?Hcm.
    + cbn [exec]. unfold counted_lookup. destruct (cache_lookup svc _) as [entry|] eqn:Hl; [by rewrite exec_getEncodedObject|].
      rewrite Hresolve. unfold store_path. destruct (cacheManager svc) eqn:Hcm; cbn [objectStorageManager cacheManager count];
        (destruct (getEncodedObject _ _ _ _); [|done]); rewrite Hcm; [|done]. by destruct (cm_Set _ _ _ _).
  - unfold DeletePackage_task, DeletePackage. destruct (validatePackageIdentity pkg version); [done|]. cbn [exec].
    destruct (osm_RemoveObjects _ _) as [[err|] osm]; [done|]. cbn [fst snd]. rewrite exec_invalidate.
    by destruct (cacheManager svc).
Qed.
End in_flight.
