(* ===== verification/InFlightSpec.v ===== *)
(** What reads and deletions promise when their calls interleave: the cache never mixes
    requests up, and a deleted version is forgotten unless a read of an alias had
    looked for its version before the deletion and stores what it found after it. *)
From S2P Require Import Prelude Threads GoStrings Errors Semver Zip Mime Storage Version Compression Archive.
From S2P Require Import Cache Service Serve ServeSpec InFlight MemoryClient MemoryRedis.
From Stdlib Require Import Ascii.

Section in_flight.
Context {T K : Type} `{ManagerLaws T} `{CacheLaws K} `{SemverLaws}.
Notation service := (ContentService T K).
Notation task := (thread (ContentService T K) file_answer).
Implicit Types svc : service.

(** The requests that reach the service: gin's file parameters begin with a slash. *)
Definition asked (r : file_request) : Prop :=
  match r with
  | Fetches pkg _ fileName _ => cacheable (K := K) pkg fileName
  | Removes _ _ => True
  end.

(** What happens to the state beside the requests: the bucket changes, entries expire. *)
Inductive outside : service → service → Prop :=
  | outside_store svc osm : outside svc (set_store svc osm)
  | outside_expire svc cm cm' :
      cacheManager svc = Some cm → cm_view cm' ⊆ cm_view cm → (cm_reliable cm → cm_reliable cm') →
      outside svc (set_cache svc (Some cm')).

(** ** What a call may do *)

Definition cache_reliable svc : Prop := ∀ cm, cacheManager svc = Some cm → cm_reliable cm.

(** Sound stays sound, and a cache that answers goes on. *)
Definition tidy svc svc' : Prop :=
  (cache_sound svc → cache_sound svc') ∧ (cache_reliable svc → cache_reliable svc').

Lemma tidy_same svc svc' : cacheManager svc' = cacheManager svc → tidy svc svc'.
Proof. intros E. split; intros Hs; unfold cache_sound, cache_reliable in *; by rewrite E. Qed.

Lemma tidy_shrink svc cm cm' :
  cacheManager svc = Some cm → cm_view cm' ⊆ cm_view cm → (cm_reliable cm → cm_reliable cm') →
  tidy svc (set_cache svc (Some cm')).
Proof.
  intros Hcm Hsub Hrel. split; [intros Hs; by eapply cache_sound_weaken|].
  intros Hr cm1 [= <-]. by apply Hrel, Hr.
Qed.

Lemma outside_tidy svc svc' : outside svc svc' → tidy svc svc'.
Proof. intros []; [by apply tidy_same|by eapply tidy_shrink]. Qed.

Lemma counted_lookup_cache key svc : cacheManager (counted_lookup key svc) = cacheManager svc.
Proof. unfold counted_lookup. destruct (cache_lookup svc key); [done|]. destruct (cacheManager svc) eqn:E; by rewrite ?E. Qed.

Lemma counted_lookup_store key svc : objectStorageManager (counted_lookup key svc) = objectStorageManager svc.
Proof. unfold counted_lookup. destruct (cache_lookup svc key); [done|]. by destruct (cacheManager svc). Qed.

Lemma delete_prefix_shrinks p svc :
  plain_prefix p = true → cacheManager (delete_prefix p svc) = None ∧ cacheManager svc = None ∨
  ∃ cm cm', cacheManager svc = Some cm ∧ delete_prefix p svc = set_cache svc (Some cm') ∧
    cm_view cm' ⊆ cm_view cm ∧
    (cm_reliable cm → cm_reliable cm' ∧ ∀ key, HasPrefix key p = true → cm_view cm' !! key = None).
Proof.
  intros Hp. unfold delete_prefix. destruct (cacheManager svc) as [cm|] eqn:Hcm; [right|by left].
  destruct (cm_DeleteByPrefix cm p) as [err cm'] eqn:Hdel.
  destruct (cm_DeleteByPrefix_spec _ _ _ _ Hdel Hp) as (Hsub & _ & Hgone). exists cm, cm'. split; [done|].
  split; [done|]. split; [done|]. intros Hrel. destruct (cm_DeleteByPrefix_reliable cm p Hrel) as (cm2 & Hdel' & Hrel').
  rewrite Hdel in Hdel'. injection Hdel' as -> ->. auto.
Qed.

Lemma delete_prefix_tidy p svc : plain_prefix p = true → tidy svc (delete_prefix p svc).
Proof.
  intros Hp. destruct (delete_prefix_shrinks p svc Hp) as [[? ?]|(cm & cm' & Hcm & -> & Hsub & Hrel)].
  - apply tidy_same. congruence.
  - eapply tidy_shrink; [done..|]. intros Hr. by apply Hrel.
Qed.

(** ** The calls of a request *)

Section calls.
Variable G : service → service → Prop.
Hypothesis G_refl : ∀ svc, G svc svc.

Lemma always_try path accepted none found :
  always G none → (∀ obj e, always G (found obj e)) → always G (try_encodings_task path accepted none found).
Proof.
  intros Hnone Hfound. induction accepted as [|e accepted IH]; [done|]. intros svc. split; [apply G_refl|].
  destruct (osm_GetObject _ _); [|done]. intros svc'. split; [apply G_refl|]. by destruct (osm_Stat _ _).
Qed.

Lemma always_encoded path fileName accepted k :
  (∀ res, always G (k res)) → always G (getEncodedObject_task path fileName accepted k).
Proof.
  intros Hk. assert (Hplain : always G (Act id (λ svc, k (obj <-? osm_GetObject (objectStorageManager svc) path; Ok (obj, ""))%gimme)))
    by (intros svc; by split; [apply G_refl|]).
  unfold getEncodedObject_task. destruct (compressibleContentType fileName) as [ct [|]]; [|done].
  apply always_try; [done|]. intros obj e. apply Hk.
Qed.

Lemma always_resolve pkg version fileName accepted :
  (IsPinnedVersion version = false → ∀ osm svc,
     G svc (store_path (cache_key pkg version fileName) (object_path osm pkg version fileName) svc)) →
  always G (resolve_task pkg version fileName accepted).
Proof.
  intros Hstore svc. split; [apply G_refl|]. apply always_encoded. intros [found|err]; [|done].
  destruct (IsPinnedVersion version); [done|]. intros svc'. split; [by apply Hstore|done].
Qed.

Lemma always_GetFile pkg version fileName accepted :
  (∀ svc, G svc (counted_lookup (cache_key pkg version fileName) svc)) →
  (version_valid version = true → IsPinnedVersion version = false → ∀ osm svc,
     G svc (store_path (cache_key pkg version fileName) (object_path osm pkg version fileName) svc)) →
  always G (GetFile_task pkg version fileName accepted).
Proof.
  intros Hlookup Hstore. unfold GetFile_task. destruct (version_valid version); cbn [negb]; [|done].
  assert (Hres : always G (resolve_task pkg version fileName accepted)) by by apply always_resolve, Hstore.
  destruct (IsPinnedVersion version); [done|]. intros svc. split; [apply Hlookup|].
  destruct (cache_lookup svc _); [by apply always_encoded|done].
Qed.

Lemma always_invalidate prefixes k :
  (∀ p svc, p ∈ prefixes → G svc (delete_prefix p svc)) → always G k → always G (invalidate_task prefixes k).
Proof.
  intros Hp Hk. induction prefixes as [|p prefixes IH]; [done|]. intros svc. split; [apply Hp; by left|].
  apply IH. intros q svc' Hq. apply Hp. by right.
Qed.

Lemma always_Delete pkg version :
  (∀ prefix svc, G svc (set_store svc (osm_RemoveObjects (objectStorageManager svc) prefix).2)) →
  (∀ p svc, plain_prefix p = true → G svc (delete_prefix p svc)) →
  (∀ svc, G svc (count svc inc_deleted)) → always G (DeletePackage_task pkg version).
Proof.
  intros Hremove Hprefix Hcount. unfold DeletePackage_task. destruct (validatePackageIdentity pkg version) eqn:Hval; [done|].
  apply validated_iff in Hval as [Hname Hfull]. intros svc. split; [apply Hremove|].
  destruct (osm_RemoveObjects _ _) as [[err|] osm]; [done|]. cbn [fst]. apply always_invalidate; [|by split].
  intros p svc' Hp. apply Hprefix. pose proof (alias_prefixes_plain pkg version Hname Hfull) as Hall. rewrite Forall_forall in Hall.
  by apply Hall.
Qed.
End calls.

(** What a read stores, in order. *)
Lemma store_tidy pkg version fileName path svc :
  cacheable (K := K) pkg fileName → version_valid version = true → IsPinnedVersion version = false →
  selected_path pkg version fileName path → tidy svc (store_path (cache_key pkg version fileName) path svc).
Proof.
  intros Hc Hvalid Hpin Hpath. unfold store_path. destruct (cacheManager svc) as [cm|] eqn:Hcm; [|done].
  destruct (cm_Set cm _ _ _) as [err cm'] eqn:Hset. split.
  - intros Hs. by eapply Set_sound.
  - intros Hr cm1 [= <-]. by eapply cm_Set_reliable, Hr.
Qed.

Lemma tidy_star svc svc' : rtc tidy svc svc' → tidy svc svc'.
Proof. intros Hs. induction Hs as [|s1 s2 s3 [Hs1 Hr1] _ [Hs2 Hr2]]; [done|]. split; auto. Qed.

(** Every call of a request is tidy. *)
Lemma task_tidy r : asked r → always tidy (file_task r).
Proof.
  destruct r as [pkg version fileName accepted|pkg version]; cbn [asked file_task].
  - intros Hc. apply always_GetFile; [done| |].
    + intros svc. apply tidy_same, counted_lookup_cache.
    + intros Hvalid Hpin osm svc. apply store_tidy; [done..|]. by apply object_path_unpinned.
  - intros _. apply always_Delete; [by intros; apply tidy_same| |by intros; apply tidy_same].
    intros p svc Hp. by apply delete_prefix_tidy.
Qed.

(** ** What a read answers *)

(** The path of a file for a request. *)
Definition path_for (pkg version fileName path : string) : Prop :=
  if IsPinnedVersion version then path = cache_key pkg version fileName else selected_path pkg version fileName path.

Lemma object_path_for (osm : T) pkg version fileName : path_for pkg version fileName (object_path osm pkg version fileName).
Proof.
  unfold path_for. destruct (IsPinnedVersion version) eqn:Hpin; [|by apply object_path_unpinned].
  unfold object_path. by rewrite Hpin.
Qed.

(** An entry under the key of a request is for that request. *)
Lemma entry_path_for pkg version fileName entry :
  cacheable (K := K) pkg fileName → version_valid version = true → IsPinnedVersion version = false →
  entry_sound (cache_key pkg version fileName) entry → path_for pkg version fileName (ObjectPath entry).
Proof.
  intros (Hpkg & [file ->] & _) Hvalid Hpin (pkg' & version' & file' & Hpkg' & Hvalid' & _ & E & Hpath).
  unfold cache_key, folder_name in E. rewrite !str_app_assoc in E.
  apply (char_free_sep_inj "@") in E as [-> E]; [|done..].
  apply (char_free_sep_inj "/") in E as [-> ->]; [|by apply valid_version_free..].
  unfold path_for. by rewrite Hpin.
Qed.

Definition reads_right (r : file_request) (a : file_answer) : Prop :=
  match r, a with
  | Fetches pkg version fileName accepted, Fetched (Ok (obj, enc)) =>
      version_valid version = true ∧ ∃ path, path_for pkg version fileName path ∧
        object_key obj = path +:+ suffix enc ∧ (enc = "" ∨ enc ∈ accepted)
  | _, _ => True
  end.

Lemma wp_try Q path accepted none found svc :
  (∀ svc', rtc tidy svc svc' → wp tidy Q none svc') →
  (∀ obj e svc', rtc tidy svc svc' → object_key obj = path +:+ suffix e → e ∈ accepted → wp tidy Q (found obj e) svc') →
  wp tidy Q (try_encodings_task path accepted none found) svc.
Proof.
  revert svc. induction accepted as [|e accepted IH]; intros svc Hnone Hfound; cbn [try_encodings_task]; [by apply Hnone|].
  assert (Hrest : ∀ svc', rtc tidy svc svc' → wp tidy Q (try_encodings_task path accepted none found) svc').
  { intros svc' Hs. apply IH; [intros svc2 Hs2; apply Hnone; by etrans|].
    intros obj e' svc2 Hs2 Hk He. apply Hfound; [by etrans|done|by right]. }
  intros svc' Hs. split; [by apply tidy_same|]. destruct (osm_GetObject _ _) as [obj|err] eqn:Hget; [|by apply Hrest].
  apply osm_Get_key in Hget. intros svc2 Hs2. split; [by apply tidy_same|].
  assert (Hs02 : rtc tidy svc svc2) by by etrans.
  destruct (osm_Stat _ obj); [|by apply Hrest]. apply Hfound; [done|done|by left].
Qed.

Lemma wp_encoded Q path fileName accepted k svc :
  (∀ res svc', rtc tidy svc svc' →
     (∀ obj enc, res = Ok (obj, enc) → object_key obj = path +:+ suffix enc ∧ (enc = "" ∨ enc ∈ accepted)) →
     wp tidy Q (k res) svc') →
  wp tidy Q (getEncodedObject_task path fileName accepted k) svc.
Proof.
  intros Hk. unfold getEncodedObject_task.
  set (plain := Act id _). assert (Hplain : ∀ svc', rtc tidy svc svc' → wp tidy Q plain svc').
  { intros svc1 Hs1 svc2 Hs2. split; [by apply tidy_same|]. apply Hk; [by etrans|]. intros obj enc Hres.
    destruct (osm_GetObject _ path) as [o|] eqn:Hget; [|done]. injection Hres as <- <-. rewrite str_app_nil_r.
    split; [by eapply osm_Get_key|by left]. }
  destruct (compressibleContentType fileName) as [ct [|]]; [|by apply Hplain].
  apply wp_try; [done|]. intros obj e svc' Hs Hkey He. apply Hk; [done|]. intros ? ? [= <- <-]. auto.
Qed.

Lemma wp_GetFile pkg version fileName accepted svc :
  cacheable (K := K) pkg fileName → cache_sound svc →
  wp tidy (λ a _, reads_right (Fetches pkg version fileName accepted) a) (GetFile_task pkg version fileName accepted) svc.
Proof.
  intros Hc Hsound. unfold GetFile_task. destruct (version_valid version) eqn:Hvalid; cbn [negb]; [|by intros svc' _].
  assert (Hanswer : ∀ path res svc', path_for pkg version fileName path →
    (∀ obj enc, res = Ok (obj, enc) → object_key obj = path +:+ suffix enc ∧ (enc = "" ∨ enc ∈ accepted)) →
    wp tidy (λ a _, reads_right (Fetches pkg version fileName accepted) a) (Done (Fetched res)) svc').
  { intros path res svc' Hpath Hres svc2 _. cbn. destruct res as [[obj enc]|]; [|done]. rewrite Hvalid.
    split; [done|]. exists path. split; [done|]. by apply Hres. }
  assert (Hresolve : ∀ svc', wp tidy (λ a _, reads_right (Fetches pkg version fileName accepted) a)
    (resolve_task pkg version fileName accepted) svc').
  { intros svc1 svc2 _. split; [by apply tidy_same|]. set (path := object_path _ _ _ _). cbv zeta.
    assert (Hpath : path_for pkg version fileName path) by apply object_path_for.
    apply wp_encoded. intros res svc3 _ Hres. destruct res as [found|err]; [|by apply (Hanswer path)].
    destruct (IsPinnedVersion version) eqn:Hpin; [by apply (Hanswer path)|]. intros svc4 _. split; [|by apply (Hanswer path)].
    apply store_tidy; [done..|]. unfold path_for in Hpath. by rewrite Hpin in Hpath. }
  destruct (IsPinnedVersion version) eqn:Hpin; [done|]. intros svc' Hs. split; [apply tidy_same, counted_lookup_cache|].
  destruct (cache_lookup svc' _) as [entry|] eqn:Hl; [|done]. apply wp_encoded. intros res svc2 _ Hres.
  apply (Hanswer (ObjectPath entry)); [|done]. apply entry_path_for; [done..|].
  unfold cache_lookup in Hl. destruct (cacheManager svc') as [cm|] eqn:Hcm; [|done]. apply cm_Get_ok in Hl.
  assert (Hsound' : cache_sound svc') by by apply (tidy_star _ _ Hs).
  by eapply Hsound'.
Qed.

Notation machine := (machine (ContentService T K) file_request file_answer).
Notation runs_to := (rtc (turn file_task outside asked)).

(** The service with no request yet, and its cache empty. *)
Definition idle svc : machine := {| shared := svc; requests := [] |}.

Lemma idle_tidy svc m : runs_to (idle svc) m → tidy svc (shared m).
Proof.
  intros Hrun. apply tidy_star.
  apply (machine_wp file_task tidy outside asked (λ _ _ _ _, True) (idle svc) m); [apply outside_tidy| |done|done].
  intros i r svc' Hr _ _. apply (always_wp tidy tidy); [done|]. by apply task_tidy.
Qed.

(** C10: interleaved reads are not mixed up.  From an empty cache, let any number of reads
    and deletions interleave call by call, while the bucket changes in any way and
    entries expire.  Every entry of the cache is then stored under the key of a read of an alias and
    leads to the file of that read, in the same package and in the version asked for or
    one that the alias selects; and a read that answers an object has a valid version
    and answers that file, as it is or in a coding the client accepts. *)
Theorem interleaved_reads_sound svc m cm :
  cacheManager svc = Some cm → cm_view cm = ∅ → runs_to (idle svc) m →
  cache_sound (shared m) ∧ ∀ i r a, answered m i = Some (r, a) → reads_right r a.
Proof.
  intros Hcm Hempty Hrun. assert (Hsound : cache_sound svc) by by eapply empty_cache_sound.
  split; [by apply (idle_tidy svc m)|]. intros i r a Ha.
  apply (machine_answer file_task tidy outside asked (λ _ r a _, reads_right r a) (idle svc) m i r a);
    [apply outside_tidy| |done|done|done].
  intros j q svc' Hq _ Hs. destruct q as [pkg version fileName accepted|pkg version].
  - apply wp_GetFile; [done|]. by apply (tidy_star _ _ Hs).
  - eapply wp_impl; [|apply (always_wp tidy tidy); [done|by apply task_tidy]]. done.
Qed.

(** ** A deletion *)

Section deletion.
Variables pkg version : string.
Hypothesis Hname : packageNamePattern pkg = true.
Hypothesis Hfull : isFullSemver version = true.
Let below (path : string) : Prop := HasPrefix path (folder_name pkg version +:+ "/") = true.

(** The bucket does not have the version. *)
Definition gone svc : Prop := ¬ stored_version (osm_view (objectStorageManager svc)) pkg version.

(** The keys of the cache whose entries lead below the version. *)
Definition stale svc (key : string) : Prop :=
  ∃ cm entry, cacheManager svc = Some cm ∧ cm_view cm !! key = Some entry ∧ below (ObjectPath entry).

(** Once the version is gone it stays gone, and no more entries lead below it. *)
Definition forgets svc svc' : Prop :=
  tidy svc svc' ∧ (gone svc → gone svc' ∧ ∀ key, stale svc' key → stale svc key).

Lemma forgets_star svc svc' : rtc forgets svc svc' → forgets svc svc'.
Proof.
  intros Hs. induction Hs as [|s1 s2 s3 [[Hs1 Hr1] Hg1] _ [[Hs2 Hr2] Hg2]]; [done|]. split; [split; auto|].
  intros Hg. destruct (Hg1 Hg) as [Hg' Hst1]. destruct (Hg2 Hg') as [? Hst2]. split; [done|]. intros key Hk. auto.
Qed.

Lemma forgets_same svc svc' :
  cacheManager svc' = cacheManager svc → objectStorageManager svc' = objectStorageManager svc → forgets svc svc'.
Proof.
  intros Hcm Hosm. split; [by apply tidy_same|]. unfold gone, stale. by rewrite Hcm, Hosm.
Qed.

Lemma stored_version_mono (m m' : gmap string StoredObject) :
  m' ⊆ m → stored_version m' pkg version → stored_version m pkg version.
Proof.
  intros Hsub (key & rest & [so Hso] & Hk). exists key, rest. split; [|done]. exists so. by eapply lookup_weaken.
Qed.

Lemma forgets_cache svc cm cm' :
  cacheManager svc = Some cm → tidy svc (set_cache svc (Some cm')) →
  (∀ key entry, cm_view cm' !! key = Some entry → below (ObjectPath entry) → cm_view cm !! key = Some entry) →
  forgets svc (set_cache svc (Some cm')).
Proof.
  intros Hcm Htidy Hkeep. split; [done|]. intros Hg. split; [done|]. intros key (cm1 & entry & [= <-] & Hk & Hb).
  exists cm, entry. auto.
Qed.

(** A read stores a path that is not below the version. *)
Lemma store_forgets pkg' version' fileName path svc :
  cacheable (K := K) pkg' fileName → version_valid version' = true → IsPinnedVersion version' = false →
  selected_path pkg' version' fileName path → ¬ below path →
  forgets svc (store_path (cache_key pkg' version' fileName) path svc).
Proof.
  intros Hc Hvalid Hpin Hpath Hnot. pose proof (store_tidy _ _ _ _ svc Hc Hvalid Hpin Hpath) as Htidy.
  unfold store_path in *. destruct (cacheManager svc) as [cm|] eqn:Hcm; [|by apply forgets_same].
  destruct (cm_Set cm _ _ _) as [err cm'] eqn:Hset. eapply forgets_cache; [done..|].
  intros key entry Hk Hb. destruct (decide (key = cache_key pkg' version' fileName)) as [->|Hne].
  - destruct Hpath as (v & Hp & _). destruct Hc as (_ & _ & Hstorable). rewrite Hp in Hset.
    destruct (cm_Set_spec _ _ _ _ _ _ Hset (Hstorable v)) as [_ [Hnew|Hold]]; [|congruence].
    rewrite Hnew in Hk. injection Hk as <-. cbn in Hb. rewrite <- Hp in Hb. done.
  - by rewrite (cm_Set_frame _ _ _ _ _ _ _ Hset Hne) in Hk.
Qed.

(** The requests that store no path below the version: deletions, reads of other packages
    and reads of pinned versions. *)
Definition unrelated (r : file_request) : Prop :=
  match r with
  | Fetches pkg' version' _ _ => pkg' = pkg → IsPinnedVersion version' = true
  | Removes _ _ => True
  end.

Lemma task_forgets r : asked r → unrelated r → always forgets (file_task r).
Proof.
  destruct r as [pkg' version' fileName accepted|pkg' version']; cbn [asked unrelated file_task].
  - intros Hc Hother. apply always_GetFile; [by intros; apply forgets_same| |].
    + intros svc. apply forgets_same; [apply counted_lookup_cache|apply counted_lookup_store].
    + intros Hvalid Hpin osm svc. pose proof (object_path_unpinned osm pkg' version' fileName Hpin) as Hpath.
      apply store_forgets; [done..|]. intros Hb.
      edestruct (selected_below pkg version pkg' version') as [E _]; [done|done|apply Hc|done..|].
      rewrite (Hother E) in Hpin. done.
  - intros _ _. apply always_Delete.
    + intros prefix svc. split; [by apply tidy_same|]. intros Hg. split; [|done].
      intros Hst. apply Hg. eapply stored_version_mono; [|exact Hst].
      destruct (osm_RemoveObjects _ prefix) as [err osm] eqn:Hrm. by apply (osm_Remove_frame _ _ _ _ Hrm).
    + intros p svc Hp. pose proof (delete_prefix_tidy p svc Hp) as Htidy.
      destruct (delete_prefix_shrinks p svc Hp) as [[? ?]|(cm & cm' & Hcm & E & Hsub & _)].
      * apply forgets_same; [congruence|]. unfold delete_prefix. by destruct (cacheManager svc).
      * rewrite E in *. eapply forgets_cache; [done..|]. intros key entry Hk _. by eapply lookup_weaken.
    + intros svc. by apply forgets_same.
Qed.

(** A read of an alias that looks for its version when the deleted one is gone. *)
Lemma resolved_elsewhere svc pkg' version' fileName :
  IsPinnedVersion version = true → gone svc →
  char_free "@" pkg' = true → version_valid version' = true → IsPinnedVersion version' = false →
  ¬ below (object_path (objectStorageManager svc) pkg' version' fileName).
Proof.
  intros Hpinned Hg Hpkg Hvalid Hpin. unfold object_path, below. rewrite Hpin.
  destruct (resolveVersion _ pkg' version') as [v [|]] eqn:Hres; intros Hb.
  - apply resolveVersion_stored in Hres as [Hst Hm].
    apply below_folder in Hb as [-> ->]; [|done..|by eapply matching_version_free]. by apply Hg.
  - apply below_folder in Hb as [-> ->]; [|done..|by apply valid_version_free]. congruence.
Qed.

Lemma wp_read_after pkg' version' fileName accepted svc :
  IsPinnedVersion version = true → cacheable (K := K) pkg' fileName → gone svc →
  wp forgets (λ _ _, True) (GetFile_task pkg' version' fileName accepted) svc.
Proof.
  intros Hpinned Hc Hg. unfold GetFile_task. destruct (version_valid version') eqn:Hvalid; cbn [negb]; [|done].
  assert (Hquiet : ∀ path k svc', (∀ res, always forgets (k res)) →
    wp forgets (λ _ _, True) (getEncodedObject_task path fileName accepted k) svc').
  { intros path k svc' Hk. apply (always_wp forgets forgets); [done|]. apply always_encoded; [|done].
    intros svc2. by apply forgets_same. }
  assert (Hresolve : ∀ svc', rtc forgets svc svc' → wp forgets (λ _ _, True) (resolve_task pkg' version' fileName accepted) svc').
  { intros svc1 Hs1 svc2 Hs2. split; [by apply forgets_same|]. apply Hquiet. intros [found|err]; [|done].
    destruct (IsPinnedVersion version') eqn:Hpin; [done|]. intros svc3. split; [|done].
    apply store_forgets; [done..|by apply object_path_unpinned|].
    apply resolved_elsewhere; [done| |apply Hc|done..]. apply (forgets_star svc); [by etrans|done]. }
  destruct (IsPinnedVersion version') eqn:Hpin; [by apply Hresolve|]. intros svc' Hs.
  assert (Hf : forgets svc' (counted_lookup (cache_key pkg' version' fileName) svc')).
  { apply forgets_same; [apply counted_lookup_cache|apply counted_lookup_store]. }
  split; [done|]. destruct (cache_lookup svc' _) as [entry|]; [by apply Hquiet|]. apply Hresolve. by eapply rtc_r.
Qed.

(** The rest of the deletion leaves no entry that leads below the version. *)
Lemma wp_invalidate prefixes svc :
  Forall (λ p, plain_prefix p = true) prefixes → gone svc → cache_reliable svc →
  (∀ key, stale svc key → ∃ p, p ∈ prefixes ∧ HasPrefix key p = true) →
  wp forgets (λ a svc, ∀ key, ¬ stale svc key)
    (invalidate_task prefixes (Act (λ svc, count svc inc_deleted) (λ _, Done (Removed None)))) svc.
Proof.
  intros Hplain. revert svc. induction Hplain as [|p prefixes Hp _ IH]; intros svc Hg Hrel Hcover; cbn [invalidate_task].
  - intros svc1 Hs1. split; [by apply forgets_same|]. intros svc2 Hs2 key Hk.
    assert (Hs : rtc forgets svc svc2).
    { etrans; [done|]. eapply rtc_l; [|done]. by apply forgets_same. }
    destruct (forgets_star _ _ Hs) as [_ Hst]. destruct (Hst Hg) as [_ Hsub]. destruct (Hcover key (Hsub key Hk)) as (p & Hp & _).
    by apply not_elem_of_nil in Hp.
  - intros svc1 Hs1. destruct (forgets_star _ _ Hs1) as [[_ Hrel1] Hst1]. destruct (Hst1 Hg) as [Hg1 Hsub1].
    pose proof (delete_prefix_tidy p svc1 Hp) as Htidy.
    destruct (delete_prefix_shrinks p svc1 Hp) as [[Hnone Hnone']|(cm & cm' & Hcm & E & Hsub & Hgone)].
    + split; [apply forgets_same; [congruence|]; unfold delete_prefix; by destruct (cacheManager svc1)|].
      apply IH; [unfold delete_prefix; by destruct (cacheManager svc1)|by intros cm Hcm; congruence|].
      intros key (cm & _ & Hcm & _). congruence.
    + rewrite E in *. assert (Hf : forgets svc1 (set_cache svc1 (Some cm'))).
      { eapply forgets_cache; [done..|]. intros key entry Hk _. by eapply lookup_weaken. }
      split; [done|]. destruct (Hgone (Hrel1 Hrel cm Hcm)) as [Hrel' Hgone'].
      apply IH; [done|by intros ? [= <-]|]. intros key Hk. pose proof Hk as (cm1 & entry & [= <-] & Hkey & _).
      destruct (Hcover key) as (q & [->|Hq]%elem_of_cons & Hkq); [|by rewrite Hgone' in Hkey|by exists q].
      apply Hsub1. by apply Hf.
Qed.

(** The bucket after the removal. *)
Lemma removed_gone svc osm :
  osm_view (objectStorageManager svc) !! folder_name pkg version = None →
  osm_RemoveObjects (objectStorageManager svc) (folder_name pkg version +:+ "/") = (None, osm) → gone (set_store svc osm).
Proof.
  intros Hfile Hrm. unfold gone. cbn [objectStorageManager set_store]. rewrite (osm_Remove_ok _ _ _ Hrm).
  intros (key & rest & [so [Hso Hnb]%map_lookup_filter_Some] & -> & _ & Hrest). unfold not_below in Hnb. cbn [fst] in Hnb.
  destruct Hrest as [->|[t ->]].
  - rewrite str_app_nil_r in Hso. unfold folder_name in Hfile. congruence.
  - unfold folder_name in Hnb. rewrite !str_app_assoc in Hnb.
    change (pkg +:+ "@" +:+ version +:+ String "/" t) with (pkg +:+ "@" +:+ version +:+ "/" +:+ t) in Hnb.
    rewrite <- (str_app_assoc version "/" t), <- !str_app_assoc, HasPrefix_app in Hnb. done.
Qed.
End deletion.

(** ** What is deleted is forgotten *)

(** A version that is gone is not published. *)
Definition unpublished (pkg version : string) svc svc' : Prop :=
  outside svc svc' ∧ (gone pkg version svc → gone pkg version svc').

Lemma unpublished_forgets pkg version svc svc' : unpublished pkg version svc svc' → forgets pkg version svc svc'.
Proof.
  intros [Hout Hgone]. split; [by apply outside_tidy|]. intros Hg. split; [by apply Hgone|].
  destruct Hout as [svc osm|svc cm cm' Hcm Hsub _]; [done|]. intros key (cm1 & entry & [= <-] & Hk & Hb).
  exists cm, entry. split; [done|]. split; [by eapply lookup_weaken|done].
Qed.

(** C9: a deleted version is forgotten.  Reads and deletions interleave call by call, from
    an empty cache that answers.  Suppose that when the deletion of a pinned version removes
    the objects, none is stored at the very key package@version and no read of an alias of
    this package is between its arrival and its answer; other requests may be anywhere.  When the deletion has answered
    without an error, and from then on until the version is published again, no entry
    of the cache leads below the version, whatever arrived in the meantime. *)
Theorem deleted_version_forgotten svc cm m1 m2 m3 i pkg version :
  cacheManager svc = Some cm → cm_view cm = ∅ → cm_reliable cm → runs_to (idle svc) m1 →
  IsPinnedVersion version = true → osm_view (objectStorageManager (shared m1)) !! folder_name pkg version = None →
  requests m1 !! i = Some (Removes pkg version, file_task (Removes pkg version)) →
  (∀ j r t, requests m1 !! j = Some (r, t) → unrelated pkg r ∨ t = file_task r ∨ ∃ a, t = Done a) →
  take_turn file_task m1 (Run i) = Some m2 →
  rtc (turn file_task (unpublished pkg version) asked) m2 m3 →
  answered m3 i = Some (Removes pkg version, Removed None) →
  ∀ key, ¬ stale pkg version (shared m3) key.
Proof.
  intros Hcm Hempty Hrel Hrun Hpin Hfile Hi Hothers Hturn Hlater Hanswer.
  destruct (idle_tidy svc m1 Hrun) as [Hsound Hreliable].
  assert (Hs1 : cache_sound (shared m1)) by (apply Hsound; by eapply empty_cache_sound).
  assert (Hr1 : cache_reliable (shared m1)) by (apply Hreliable; intros cm' Hcm'; congruence).
  assert (Hasked : ∀ j r t, requests m1 !! j = Some (r, t) → asked r) by (eapply machine_asked; [|exact Hrun]; done).
  cbn [take_turn] in Hturn. rewrite Hi in Hturn. cbn [file_task] in Hturn. unfold DeletePackage_task in Hturn.
  destruct (validatePackageIdentity pkg version) eqn:Hval; [done|]. apply validated_iff in Hval as [Hname Hfull].
  destruct (osm_RemoveObjects (objectStorageManager (shared m1)) (folder_name pkg version +:+ "/")) as [err osm] eqn:Hrm.
  cbn [fst snd] in Hturn. apply (inj Some) in Hturn as Hm2.
  assert (Hlt : i < length (requests m1)) by by eapply lookup_lt_Some.
  destruct err as [err|].
  { eapply (answered_stays file_task _ _ m2 m3 i _ (Removed (Some err))) in Hlater; [|by rewrite <- Hm2; apply list_lookup_insert_eq].
    unfold answered in Hanswer. rewrite Hlater in Hanswer. done. }
  assert (Hgone : gone pkg version (shared m2)) by (rewrite <- Hm2; by apply removed_gone).
  assert (Halways : ∀ j r t, requests m1 !! j = Some (r, t) → unrelated pkg r → always (forgets pkg version) t).
  { eapply (machine_always file_task outside asked (unrelated pkg) (forgets pkg version) (idle svc)); [|done|done].
    intros r. by apply task_forgets. }
  assert (Hstart : ∀ r s, asked r → gone pkg version s → wp (forgets pkg version) (λ _ _, True) (file_task r) s).
  { intros [pkg' version' fileName accepted|pkg' version'] s Hr Hg; [by apply wp_read_after|].
    apply (always_wp (forgets pkg version) (forgets pkg version)); [done|]. by apply task_forgets. }
  refine (machine_answer file_task (forgets pkg version) (unpublished pkg version) asked
    (λ j _ a s, j = i → a = Removed None → ∀ key, ¬ stale pkg version s key) m2 m3 i _ (Removed None)
    (unpublished_forgets pkg version) _ _ Hlater Hanswer eq_refl eq_refl).
  - intros j r s Hr Hj Hs. eapply wp_impl; [|apply Hstart; [done|]].
    + intros a s' _ ->. rewrite <- Hm2 in Hj. cbn [requests] in Hj. rewrite length_insert in Hj. lia.
    + by apply (forgets_star _ _ _ _ Hs).
  - intros j r t. rewrite <- Hm2. intros [(-> & Heq & _)|[Hne Hj]]%list_lookup_insert_Some.
    + apply (f_equal snd) in Heq as Ht. cbn [snd] in Ht. rewrite <- Ht.
      eapply wp_impl; [|apply (wp_invalidate pkg version)]; [by intros a s|by apply alias_prefixes_plain|by rewrite Hm2|done|].
      intros key (cm' & entry & Hcm' & Hk & Hb). apply (stale_covered _ _ _ entry); [done..| |done]. by apply (Hs1 cm').
    + eapply wp_impl; [by intros a s _ ->|]. rewrite Hm2. destruct (Hothers j r t Hj) as [Hun|[->|[a ->]]]; [|by apply Hstart; [eapply Hasked|]|done].
      eapply (always_wp (forgets pkg version) (forgets pkg version)); [done|]. by eapply Halways.
Qed.
End in_flight.

(** ** Concrete runs *)

#[local] Existing Instance builtin_mime.
#[local] Existing Instance plain_codec.
#[local] Existing Instance plain_codec_laws.

Notation demo_machine := (machine (ContentService (Storage.objectStorageManager memory) (redisCache mem_redis)) file_request file_answer).

Definition two_versions : demo_machine := idle (serving_demo two_files []).

Definition play_turns (xs : list (tick file_request)) (m : demo_machine) : demo_machine :=
  default m (schedule file_task xs m).

Lemma play_turns_run env ok xs m :
  Forall ok (arrivals xs) → is_Some (schedule file_task xs m) → rtc (turn file_task env ok) m (play_turns xs m).
Proof. intros Hok [m' Hm']. apply (schedule_turns _ _ _ xs); [done|]. unfold play_turns. by rewrite Hm'. Qed.

Definition read_alias : file_request := Fetches "lib" "1" "/a.js" [].

Lemma alias_asked : asked (K := redisCache mem_redis) read_alias.
Proof. split; [done|]. split; [by eexists|done]. Qed.

(** The paths of the cache, and the answers so far. *)
Definition cached_paths (m : demo_machine) : list (string * string) :=
  match cacheManager (shared m) with
  | Some cm => map (λ '(k, e), (k, ObjectPath e)) (map_to_list (cache_view cm))
  | None => []
  end.

(** A read of an alias has looked for its version when the version is deleted, and stores its path
    after the deletion has answered.  The next read of the alias answers the path of
    the deleted object, which is not there, though another version matches. *)
Definition overtaken : list (tick file_request) :=
  [Arrive read_alias; Run 0; Run 0; Arrive (Removes "lib" "1.2.0"); Run 1; Run 1; Run 1; Run 1; Run 1; Run 1; Run 0; Run 0].

Definition overtaken_machine : demo_machine := play_turns overtaken two_versions.
Definition read_again : demo_machine := play_turns [Arrive read_alias; Run 2; Run 2] overtaken_machine.

Theorem stale_alias_race :
  rtc (turn file_task outside asked) two_versions read_again ∧
  answered overtaken_machine 1 = Some (Removes "lib" "1.2.0", Removed None) ∧
  cached_paths overtaken_machine = [("lib@1/a.js", "lib@1.2.0/a.js")] ∧
  answered read_again 2 = Some (read_alias, Fetched (Ok ({| object_key := "lib@1.2.0/a.js" |}, ""))) ∧
  osm_Stat (objectStorageManager (shared read_again)) {| object_key := "lib@1.2.0/a.js" |} = None ∧
  resolveVersion (objectStorageManager (shared read_again)) "lib" "1" = ("1.0.0", true).
Proof.
  split; [|by vm_compute]. etrans; apply play_turns_run; try by (repeat constructor; apply alias_asked).
  - apply (bool_decide_unpack _). vm_compute. exact I.
  - apply (bool_decide_unpack _). vm_compute. exact I.
Qed.

Lemma interleaved_reads_sound_witness :
  cached_paths overtaken_machine = [("lib@1/a.js", "lib@1.2.0/a.js")] ∧
  ∃ path, selected_path "lib" "1" "/a.js" path ∧ "lib@1.2.0/a.js" = path +:+ suffix "".
Proof.
  split; [vm_compute; reflexivity|].
  assert (Hrun : rtc (turn file_task outside asked) two_versions overtaken_machine).
  { apply play_turns_run; [repeat constructor; apply alias_asked|]. apply (bool_decide_unpack _). vm_compute. exact I. }
  destruct (interleaved_reads_sound (serving_demo two_files []) overtaken_machine (cache_with [])) as [_ Hright];
    [reflexivity|vm_compute; reflexivity|exact Hrun|].
  destruct (Hright 0 read_alias (Fetched (Ok ({| object_key := "lib@1.2.0/a.js" |}, "")))) as (_ & path & Hpath & Hkey & _).
  - vm_compute. reflexivity.
  - exists path. split; [exact Hpath|exact Hkey].
Defined.

Lemma default_Some {A} (d : A) (o : option A) : is_Some o → o = Some (default d o).
Proof. by intros [a ->]. Qed.

Lemma answered_done (m : demo_machine) i r t :
  requests m !! i = Some (r, t) → is_Some (answered m i) → ∃ a, t = Done a.
Proof. unfold answered. intros ->. destruct t; [by eexists|by intros []]. Qed.

(** The alias is read before the deletion, and again while it goes on. *)
Definition before_deletion : list (tick file_request) :=
  [Arrive read_alias; Run 0; Run 0; Run 0; Run 0; Arrive (Fetches "lib" "1.2.0" "/a.js" []); Run 1].
Definition during_deletion : list (tick file_request) :=
  [Arrive read_alias; Run 3; Run 2; Run 3; Run 2; Run 1; Run 2; Run 2;
   Arrive read_alias; Run 4; Run 4; Run 2; Run 4; Run 4].

Definition alias_read : demo_machine := play_turns before_deletion two_versions.
Definition deletion_arrived : demo_machine :=
  {| shared := shared alias_read; requests := requests alias_read ++ [(Removes "lib" "1.2.0", file_task (Removes "lib" "1.2.0"))] |}.
Definition deletion_started : demo_machine := default deletion_arrived (take_turn file_task deletion_arrived (Run 2)).
Definition deletion_answered : demo_machine := play_turns during_deletion deletion_started.

Lemma alias_read_requests :
  map fst (requests alias_read) = [read_alias; Fetches "lib" "1.2.0" "/a.js" []] ∧ is_Some (answered deletion_arrived 0).
Proof. split; [vm_compute; reflexivity|]. apply (bool_decide_unpack _). vm_compute. exact I. Qed.

Lemma deletion_arrives : rtc (turn file_task outside asked) two_versions deletion_arrived.
Proof.
  eapply rtc_r; [apply play_turns_run|by apply turn_start].
  - apply Forall_cons_2; [apply alias_asked|]. apply Forall_cons_2; [|constructor].
    split; [done|]. split; [by eexists|done].
  - apply (bool_decide_unpack _). vm_compute. exact I.
Qed.

Lemma deletion_arrived_requests j r t :
  requests deletion_arrived !! j = Some (r, t) →
  unrelated "lib" r ∨ t = file_task r ∨ ∃ a, t = Done a.
Proof.
  intros Hj. pose proof (f_equal (fmap fst) Hj) as Hr. rewrite <- list_lookup_fmap in Hr.
  change (requests deletion_arrived) with (requests alias_read ++ [(Removes "lib" "1.2.0", file_task (Removes "lib" "1.2.0"))]) in Hr.
  rewrite fmap_app in Hr. change (fst <$> requests alias_read) with (map fst (requests alias_read)) in Hr.
  rewrite (proj1 alias_read_requests) in Hr. destruct j as [|j].
  - right. right. apply (answered_done _ 0 r t Hj), alias_read_requests.
  - clear Hj. left. destruct j as [|[|j]]; [..|discriminate Hr]; injection Hr as <-; [intros _; reflexivity|exact I].
Qed.

Lemma deletion_arrived_last :
  requests deletion_arrived !! 2 = Some (Removes "lib" "1.2.0", file_task (Removes "lib" "1.2.0")).
Proof.
  cbn [requests deletion_arrived]. assert (Hlen : length (requests alias_read) = 2).
  { rewrite <- (length_map fst). by rewrite (proj1 alias_read_requests). }
  rewrite lookup_app_r by lia. by rewrite Hlen.
Qed.

Lemma deleted_version_forgotten_witness :
  cached_paths deletion_arrived = [("lib@1/a.js", "lib@1.2.0/a.js")] ∧
  answered deletion_answered 3 = Some (read_alias, Fetched (Ok ({| object_key := "lib@1.2.0/a.js" |}, ""))) ∧
  cached_paths deletion_answered = [("lib@1/a.js", "lib@1.0.0/a.js")] ∧
  ∀ key, ¬ stale "lib" "1.2.0" (shared deletion_answered) key.
Proof.
  split; [vm_compute; reflexivity|]. split; [vm_compute; reflexivity|]. split; [vm_compute; reflexivity|].
  apply (deleted_version_forgotten (serving_demo two_files []) (cache_with []) deletion_arrived deletion_started deletion_answered
    2 "lib" "1.2.0").
  - reflexivity.
  - vm_compute. reflexivity.
  - vm_compute. reflexivity.
  - exact deletion_arrives.
  - reflexivity.
  - vm_compute. reflexivity.
  - exact deletion_arrived_last.
  - exact deletion_arrived_requests.
  - apply default_Some. apply (bool_decide_unpack _). vm_compute. exact I.
  - apply play_turns_run; [repeat constructor; apply alias_asked|]. apply (bool_decide_unpack _). vm_compute. exact I.
  - vm_compute. reflexivity.
Defined.
