(* ===== verification/Concurrent.v ===== *)
(** Requests in flight: the server handles requests concurrently (a goroutine of net/http
    each), and the uploads of CreatePackage, the deletions and the reads share one bucket.

    A [system] is the content service and the uploads it has received, each at its own
    position in CreatePackage.  [moves] takes one call of one of the requests: the checks
    of an upload with their look at the bucket, a call of a task of its pool, the return
    of [eg.Wait], its rollback, a deletion, a read.  The events say which. *)
From S2P Require Import Prelude GoStrings Errors Semver Zip Storage Version Compression Archive.
From S2P Require Import Cache Service Upload Serve.
From Stdlib Require Import Ascii.

(** Where an upload is: in its pool, after the pool with an error, or answered.  The
    [up_store] of a pool is the bucket as the upload last left it. *)
Inductive phase (T : Type) :=
  | Storing (pool : upload T)
  | RollingBack (uploadErr : string)
  | Replied (err : option GimmeError).
Arguments Storing {T} pool.
Arguments RollingBack {T} uploadErr.
Arguments Replied {T} err.

Record publication (T : Type) := {
  pb_Name : string;
  pb_Version : string;
  pb_Objects : list archiveObject;
  pb_Phase : phase T;
}.
Arguments pb_Name {T} _.
Arguments pb_Version {T} _.
Arguments pb_Objects {T} _.
Arguments pb_Phase {T} _.

Definition pb_Folder {T} (p : publication T) : string := folder_name (pb_Name p) (pb_Version p).

Definition set_phase {T} (p : publication T) (ph : phase T) : publication T :=
  {| pb_Name := pb_Name p; pb_Version := pb_Version p; pb_Objects := pb_Objects p; pb_Phase := ph |}.

(** The upload has started and not answered yet. *)
Definition in_flight {T} (p : publication T) : bool :=
  match pb_Phase p with Replied _ => false | _ => true end.

Record system (T K : Type) := {
  sy_Content : ContentService T K;
  sy_Uploads : list (publication T);
}.
Arguments sy_Content {T K} _.
Arguments sy_Uploads {T K} _.

Inductive event :=
  | Publish (name version file : string) (fileSize : Z)
  | Work (i : nat)
  | Wait (i : nat)
  | Rollback (i : nat)
  | Remove (pkg version : string)
  | Fetch (pkg version fileName : string) (accepted : list Encoding).

(** The events that are calls of the upload [i]. *)
Definition own (i : nat) (e : event) : bool :=
  match e with Work j | Wait j | Rollback j => (i =? j)%nat | _ => false end.

Section moves.
Context {T K : Type} `{ObjectStorageManager T} `{MimeTable} `{Compressors} `{Digest} `{Processors}.
Context `{Semver} `{Normalizer} `{IgnoreMatcher} `{ZipFormat} `{CacheManager K}.
Implicit Types (svc : ContentService T K) (y : system T K) (p : publication T).

Definition bucket y : T := objectStorageManager (sy_Content y).

(** The upload after its checks. *)
Definition arrive svc (name version file : string) (fileSize : Z) : publication T :=
  match prepare svc name version file fileSize with
  | Fail e => {| pb_Name := name; pb_Version := version; pb_Objects := []; pb_Phase := Replied (Some e) |}
  | Ok objects =>
      {| pb_Name := name; pb_Version := version; pb_Objects := objects;
         pb_Phase := Storing (start objects (objectStorageManager svc)) |}
  end.

(** The pool of an upload, over the bucket as it is now. *)
Definition over (pool : upload T) (store : T) : upload T :=
  {| up_store := store; up_tasks := up_tasks pool; up_active := up_active pool; up_slots := up_slots pool;
     up_err := up_err pool |}.

Definition update y svc (i : nat) (p : publication T) : system T K :=
  {| sy_Content := svc; sy_Uploads := <[i := p]> (sy_Uploads y) |}.

(** What follows [eg.Wait] up to the next call. *)
Definition after_wait svc (pool : upload T) : phase T * ContentService T K :=
  match up_err pool with
  | Some uploadErr => (RollingBack uploadErr, svc)
  | None => (Replied None, count svc inc_uploaded)
  end.

Inductive moves : event → system T K → system T K → Prop :=
  | move_publish y name version file fileSize :
      moves (Publish name version file fileSize) y
        {| sy_Content := sy_Content y;
           sy_Uploads := sy_Uploads y ++ [arrive (sy_Content y) name version file fileSize] |}
  | move_work y i p pool pool' :
      sy_Uploads y !! i = Some p → pb_Phase p = Storing pool →
      step (compressionEnabled (sy_Content y)) (pb_Objects p) (over pool (bucket y)) pool' →
      moves (Work i) y (update y (set_store (sy_Content y) (up_store pool')) i (set_phase p (Storing pool')))
  | move_wait y i p pool ph svc :
      sy_Uploads y !! i = Some p → pb_Phase p = Storing pool → all_finished pool = true →
      after_wait (sy_Content y) pool = (ph, svc) →
      moves (Wait i) y (update y svc i (set_phase p ph))
  | move_rollback y i p uploadErr err svc :
      sy_Uploads y !! i = Some p → pb_Phase p = RollingBack uploadErr →
      rollbackPartialUpload (sy_Content y) (pb_Folder p) uploadErr = (err, svc) →
      moves (Rollback i) y (update y svc i (set_phase p (Replied (Some err))))
  | move_remove y pkg version err svc :
      DeletePackage (sy_Content y) pkg version = (err, svc) →
      moves (Remove pkg version) y {| sy_Content := svc; sy_Uploads := sy_Uploads y |}
  | move_fetch y pkg version fileName accepted res svc :
      GetFile (sy_Content y) pkg version fileName accepted = (res, svc) →
      moves (Fetch pkg version fileName accepted) y {| sy_Content := svc; sy_Uploads := sy_Uploads y |}.

(** The system after an event, the pools scheduled by [next_upload]. *)
Definition try_move (e : event) y : option (system T K) :=
  match e with
  | Publish name version file fileSize =>
      Some {| sy_Content := sy_Content y;
              sy_Uploads := sy_Uploads y ++ [arrive (sy_Content y) name version file fileSize] |}
  | Work i =>
      p ← sy_Uploads y !! i;
      match pb_Phase p with
      | Storing pool =>
          pool' ← next_upload (compressionEnabled (sy_Content y)) (pb_Objects p) (over pool (bucket y));
          Some (update y (set_store (sy_Content y) (up_store pool')) i (set_phase p (Storing pool')))
      | _ => None
      end
  | Wait i =>
      p ← sy_Uploads y !! i;
      match pb_Phase p with
      | Storing pool =>
          if all_finished pool then
            let '(ph, svc) := after_wait (sy_Content y) pool in Some (update y svc i (set_phase p ph))
          else None
      | _ => None
      end
  | Rollback i =>
      p ← sy_Uploads y !! i;
      match pb_Phase p with
      | RollingBack uploadErr =>
          let '(err, svc) := rollbackPartialUpload (sy_Content y) (pb_Folder p) uploadErr in
          Some (update y svc i (set_phase p (Replied (Some err))))
      | _ => None
      end
  | Remove pkg version =>
      Some {| sy_Content := (DeletePackage (sy_Content y) pkg version).2; sy_Uploads := sy_Uploads y |}
  | Fetch pkg version fileName accepted =>
      Some {| sy_Content := (GetFile (sy_Content y) pkg version fileName accepted).2; sy_Uploads := sy_Uploads y |}
  end.

Fixpoint play (es : list event) y : option (system T K) :=
  match es with
  | [] => Some y
  | e :: es => y' ← try_move e y; play es y'
  end.

(** Runs, and runs whose every event satisfies a condition on the state it finds. *)
Inductive runs (ok : event → system T K → Prop) : system T K → system T K → Prop :=
  | runs_nil y : runs ok y y
  | runs_snoc y1 y2 y3 e : runs ok y1 y2 → ok e y2 → moves e y2 y3 → runs ok y1 y3.

Lemma runs_trans ok y1 y2 y3 : runs ok y1 y2 → runs ok y2 y3 → runs ok y1 y3.
Proof. intros H12 H23. induction H23; [done|]. by econstructor; [apply IHruns|..]. Qed.

Lemma runs_impl (ok ok' : event → system T K → Prop) y1 y2 :
  (∀ e y, ok e y → ok' e y) → runs ok y1 y2 → runs ok' y1 y2.
Proof. intros Himpl Hruns. induction Hruns; [constructor|]. econstructor; eauto. Qed.

Lemma try_move_moves e y y' : try_move e y = Some y' → moves e y y'.
Proof.
  destruct e as [name version file fileSize|i|i|i|pkg version|pkg version fileName accepted]; cbn.
  - intros [= <-]. constructor.
  - intros (p & Hi & Hp)%bind_Some. destruct (pb_Phase p) as [pool| |] eqn:Hph; [|done..].
    apply bind_Some in Hp as (pool' & Hn%next_upload_step & [= <-]). by eapply move_work.
  - intros (p & Hi & Hp)%bind_Some. destruct (pb_Phase p) as [pool| |] eqn:Hph; [|done..].
    destruct (all_finished pool) eqn:Hfin; [|done]. destruct (after_wait _ pool) as [ph svc] eqn:Hw. injection Hp as <-.
    by eapply move_wait.
  - intros (p & Hi & Hp)%bind_Some. destruct (pb_Phase p) as [|uploadErr|] eqn:Hph; [done| |done].
    destruct (rollbackPartialUpload _ _ _) as [err svc] eqn:Hrb. injection Hp as <-. by eapply move_rollback.
  - intros [= <-]. by eapply move_remove, surjective_pairing.
  - intros [= <-]. by eapply move_fetch, surjective_pairing.
Qed.

Lemma runs_cons ok e y y1 y2 : try_move e y = Some y1 → ok e y → runs ok y1 y2 → runs ok y y2.
Proof.
  intros Hmove%try_move_moves Hok Hruns. apply (runs_trans ok y y1); [|done].
  econstructor; [constructor|done..].
Qed.

Lemma play_runs (ok : event → system T K → Prop) es y y' :
  (∀ e y, e ∈ es → ok e y) → play es y = Some y' → runs ok y y'.
Proof.
  revert y. induction es as [|e es IH]; intros y Hok; cbn; [intros [= <-]; constructor|].
  intros (y1 & Hmove & Hplay)%bind_Some. eapply runs_cons; [done|apply Hok; by left|].
  apply IH; [|done]. intros e' y2 He. apply Hok. by right.
Qed.
End moves.
