(* ===== verification/ConcurrentSpec.v ===== *)
(** What the uploads of a package promise when other requests run at the same time, and
    what they do not when the same version is published twice at once. *)
From S2P Require Import Prelude Order GoStrings Errors Semver Zip Storage Version Compression Archive.
From S2P Require Import Cache Service Upload UploadSpec Serve ServeSpec Concurrent MemoryClient MemoryRedis.
From Stdlib Require Import Ascii.

Section concurrent.
Context {T K : Type} `{ManagerLaws T} `{Compressors} `{Digest} `{Processors}.
Context `{SemverLaws} `{Normalizer} `{IgnoreMatcher} `{ZipFormat} `{CacheManager K}.
Implicit Types (svc : ContentService T K) (y : system T K) (p : publication T).

Definition view y : gmap string StoredObject := osm_view (bucket y).

(** A key below the folder of a package version. *)
Definition below (folder k : string) : Prop := HasPrefix k (folder +:+ "/") = true.

(** ** What an upload in flight keeps *)

(** The uploads in flight have a valid identity, and write below its folder only. *)
Definition placed p : Prop :=
  in_flight p = true →
  validatePackageIdentity (pb_Name p) (pb_Version p) = None ∧
  ∀ o, o ∈ pb_Objects p → ∃ path, safe_path path ∧ ao_key o = pb_Folder p +:+ "/" +:+ path.

Lemma placed_below p o t : placed p → in_flight p = true → o ∈ pb_Objects p → below (pb_Folder p) (ao_key o +:+ t).
Proof.
  intros Hp Hf Ho. destruct (Hp Hf) as [_ Hkeys]. destruct (Hkeys o Ho) as (path & _ & ->). unfold below.
  rewrite !str_app_assoc, <-str_app_assoc. apply HasPrefix_app.
Qed.

Lemma arrive_placed svc name version file fileSize : placed (arrive svc name version file fileSize).
Proof.
  unfold placed, arrive. destruct (prepare _ _ _ _ _) as [objects|e] eqn:Hp; [|done]. intros _. cbn.
  split; [by eapply prepare_Ok|]. intros o Ho. by eapply prepare_keys.
Qed.

Lemma set_phase_placed p ph : in_flight p = true → placed p → placed (set_phase p ph).
Proof. intros Hf Hp _. apply (Hp Hf). Qed.

(** A call of a task changes the keys of its entry only. *)
Lemma task_step_frame compression objects order o t (store : T) slots t' store' slots' k :
  task_step compression objects order o t store slots = Some (t', store', slots') →
  (∃ s, k = ao_key o +:+ s) ∨ osm_view store' !! k = osm_view store !! k.
Proof.
  destruct t as [| |g|g ct|g ct|g ct [|[e d] todo]|err]; simpl; try done; try by intros [= _ <- _]; right.
  - destruct (osm_AddObject store _ _ _) as [err s'] eqn:Hadd. intros [= _ <- _].
    destruct (decide (k = ao_key o)) as [->|Hne]; [left; exists ""; by rewrite str_app_nil_r|right].
    by eapply osm_AddObject_frame.
  - destruct (slots <? NumCPU)%nat; [|done]. by intros [= _ <- _]; right.
  - case_bool_decide; [by intros [= _ <- _]; right|].
    destruct (osm_AddBytes store _ _ _ _) as [err s'] eqn:Hadd. intros [= _ <- _].
    destruct (decide (k = ao_key o +:+ suffix e)) as [->|Hne]; [left; by eexists|right].
    by eapply osm_AddBytes_frame.
Qed.

Lemma step_frame compression objects (u u' : upload T) k :
  step compression objects u u' →
  (∃ o s, o ∈ objects ∧ k = ao_key o +:+ s) ∨ osm_view (up_store u') !! k = osm_view (up_store u) !! k.
Proof.
  intros Hstep. destruct Hstep as [u i _|u i o t order [[t' store'] slots'] Ho _ _ Hnext]; [by right|]. cbn.
  destruct (task_step_frame _ _ _ _ _ _ _ _ _ _ k Hnext) as [[s ->]|?]; [left|by right].
  exists o, s. split; [by eapply list_elem_of_lookup_2|done].
Qed.

Lemma work_frame y p pool pool' k :
  placed p → pb_Phase p = Storing pool →
  step (compressionEnabled (sy_Content y)) (pb_Objects p) (over pool (bucket y)) pool' →
  below (pb_Folder p) k ∨ osm_view (up_store pool') !! k = view y !! k.
Proof.
  intros Hplaced Hph Hstep. destruct (step_frame _ _ _ _ k Hstep) as [(o & s & Ho & ->)|?]; [left|by right].
  apply placed_below; [done|by unfold in_flight; rewrite Hph|done].
Qed.

Lemma rollback_frame svc folder uploadErr err svc' :
  rollbackPartialUpload svc folder uploadErr = (err, svc') →
  svc_view svc' ⊆ svc_view svc ∧ ∀ k, below folder k ∨ svc_view svc' !! k = svc_view svc !! k.
Proof.
  unfold rollbackPartialUpload. destruct (osm_RemoveObjects _ _) as [rerr osm] eqn:Hrm. intros [= _ <-].
  apply osm_Remove_frame in Hrm as [Hsub Hframe]. split; [done|]. intros k. unfold below.
  destruct (HasPrefix k _) eqn:Hk; [by left|right]. by apply Hframe.
Qed.

(** ** Published versions *)

(** The condition under which the version in [folder] stays as it is: listings do not fail
    when an upload of this version arrives, and the version is not deleted. *)
Definition undisturbed (folder : string) (e : event) y : Prop :=
  match e with
  | Publish name version _ _ => folder_name name version = folder → osm_reliable (bucket y)
  | Remove pkg version => folder_name pkg version ≠ folder
  | _ => True
  end.

(** The version has an object, and no upload of it is in flight. *)
Record settled (folder : string) y : Prop := {
  settled_object : ∃ k, below folder k ∧ is_Some (view y !! k);
  settled_placed : Forall placed (sy_Uploads y);
  settled_alone : Forall (λ p, in_flight p = true → pb_Folder p ≠ folder) (sy_Uploads y);
}.

Lemma below_same name version name' version' k :
  validatePackageIdentity name version = None → validatePackageIdentity name' version' = None →
  below (folder_name name version) k → below (folder_name name' version') k →
  folder_name name version = folder_name name' version'.
Proof.
  intros [? ?]%validated_iff [? ?]%validated_iff Hk Hk'.
  by destruct (folder_inj name version name' version' k) as [-> ->].
Qed.

Lemma arrive_alone y name version file fileSize folder :
  (folder_name name version = folder → osm_reliable (bucket y)) →
  (∃ k, below folder k ∧ is_Some (view y !! k)) →
  in_flight (arrive (sy_Content y) name version file fileSize) = true →
  folder_name name version ≠ folder.
Proof.
  intros Hrel (k & Hk & Hobj) Hf Heq. specialize (Hrel Heq). subst folder. unfold arrive in Hf.
  destruct (prepare _ _ _ _ _) as [objects|e] eqn:Hp; [|done]. apply prepare_Ok in Hp as (_ & Hex & _).
  pose proof (absent_below (sy_Content y) _ _ k Hrel Hex Hk) as Hnone. destruct Hobj as [so Hso].
  unfold view, bucket in Hso. unfold svc_view in Hnone. congruence.
Qed.

Lemma arrive_folder svc name version file fileSize :
  pb_Folder (arrive svc name version file fileSize) = folder_name name version.
Proof. unfold arrive, pb_Folder. by destruct (prepare _ _ _ _ _). Qed.

(** The keys of [folder] are the same. *)
Definition same_below (folder : string) (m m' : gmap string StoredObject) : Prop :=
  ∀ k, below folder k → m' !! k = m !! k.

Lemma settled_update folder y (svc : ContentService T K) i p ph :
  sy_Uploads y !! i = Some p → in_flight p = true → settled folder y →
  same_below folder (view y) (svc_view svc) → settled folder (update y svc i (set_phase p ph)).
Proof.
  intros Hi Hf [(k & Hk & Hobj) Hplaced Halone] Hsame. split.
  - exists k. split; [done|]. change (is_Some (svc_view svc !! k)). by rewrite (Hsame k Hk).
  - apply Forall_insert; [done|]. apply set_phase_placed; [done|]. by eapply Forall_lookup_1.
  - apply Forall_insert; [done|]. intros _. by apply (Forall_lookup_1 _ _ _ _ Halone Hi).
Qed.

Lemma moves_settled name version e y y' :
  let folder := folder_name name version in
  validatePackageIdentity name version = None →
  settled folder y → undisturbed folder e y → moves e y y' →
  settled folder y' ∧ same_below folder (view y) (view y').
Proof.
  intros folder Hval Hset Hok Hmove.
  assert (Hother : ∀ p i k, sy_Uploads y !! i = Some p → in_flight p = true → below folder k → ¬ below (pb_Folder p) k).
  { intros p i k Hi Hf Hk Hk'. destruct (Forall_lookup_1 _ _ _ _ (settled_placed _ _ Hset) Hi Hf) as [Hid _].
    by apply (Forall_lookup_1 _ _ _ _ (settled_alone _ _ Hset) Hi Hf), (below_same _ _ _ _ k). }
  destruct Hmove as [y name' version' file fileSize|y i p pool pool' Hi Hph Hstep|y i p pool ph svc Hi Hph _ Hw
    |y i p uploadErr err svc Hi Hph Hrb|y pkg version' err svc Hdel|y pkg version' fileName accepted res svc Hget].
  - split; [|done]. destruct Hset as [Hobj Hplaced Halone]. split; [done| |].
    + apply Forall_app. split; [done|]. apply Forall_singleton, arrive_placed.
    + apply Forall_app. split; [done|]. apply Forall_singleton. rewrite arrive_folder. by apply arrive_alone.
  - assert (Hf : in_flight p = true) by (unfold in_flight; by rewrite Hph).
    assert (Hsame : same_below folder (view y) (osm_view (up_store pool'))).
    { intros k Hk. pose proof (Forall_lookup_1 _ _ _ _ (settled_placed _ _ Hset) Hi) as Hplaced.
      destruct (work_frame y p pool pool' k Hplaced Hph Hstep) as [Hk'|?]; [|done]. by destruct (Hother p i k). }
    split; [by apply settled_update|done].
  - assert (Hf : in_flight p = true) by (unfold in_flight; by rewrite Hph).
    assert (Hsvc : svc_view svc = view y).
    { unfold after_wait in Hw. by destruct (up_err pool); injection Hw as _ <-. }
    assert (Hsame : same_below folder (view y) (svc_view svc)) by (intros k _; by rewrite Hsvc).
    split; [by apply settled_update|done].
  - assert (Hf : in_flight p = true) by (unfold in_flight; by rewrite Hph).
    apply rollback_frame in Hrb as [_ Hframe].
    assert (Hsame : same_below folder (view y) (svc_view svc)).
    { intros k Hk. destruct (Hframe k) as [Hk'|?]; [|done]. by destruct (Hother p i k). }
    split; [by apply settled_update|done].
  - apply DeletePackage_frame in Hdel as [_ Hframe].
    assert (Hsame : same_below folder (view y) (svc_view svc)).
    { intros k Hk. destruct (Hframe k) as [(Hid & Hk')|?]; [|done].
      destruct Hok. symmetry. by eapply (below_same name version). }
    split; [|done]. destruct Hset as [(k & Hk & Hobj) Hplaced Halone]. split; [|done..].
    exists k. split; [done|]. change (is_Some (svc_view svc !! k)). by rewrite (Hsame k Hk).
  - apply GetFile_store in Hget. unfold same_below, view, bucket. cbn. rewrite Hget. split; [|done].
    destruct Hset as [(k & Hk & Hobj) Hplaced Halone]. split; [|done..]. exists k. unfold view, bucket. cbn. by rewrite Hget.
Qed.

Lemma runs_settled name version y y' :
  let folder := folder_name name version in
  validatePackageIdentity name version = None →
  runs (undisturbed folder) y y' → settled folder y →
  settled folder y' ∧ same_below folder (view y) (view y').
Proof.
  intros folder Hval Hruns Hset. induction Hruns as [|y1 y2 y3 e _ IH Hok Hmove]; [done|].
  destruct (IH Hset) as [Hset2 Hsame2]. destruct (moves_settled name version e y2 y3 Hval Hset2 Hok Hmove) as [? Hsame3].
  split; [done|]. intros k Hk. by rewrite (Hsame3 k Hk), (Hsame2 k Hk).
Qed.

(** ** Uploads that do not meet *)

Definition rest (folder : string) (m : gmap string StoredObject) : gmap string StoredObject :=
  filter (not_below (folder +:+ "/")) m.

Lemma rest_below folder m k : below folder k → rest folder m !! k = None.
Proof.
  intros Hk. unfold rest. rewrite map_lookup_filter. destruct (m !! k); [|done]. cbn.
  rewrite option_guard_False; [done|]. unfold not_below, below in *. cbn [fst]. congruence.
Qed.

Lemma rest_other folder m k : ¬ below folder k → rest folder m !! k = m !! k.
Proof.
  intros Hk. unfold rest. rewrite map_lookup_filter. destruct (m !! k); [|done]. cbn.
  rewrite option_guard_True; [done|]. unfold not_below. cbn [fst]. by apply not_true_is_false.
Qed.

Lemma rest_same folder m m' : (∀ k, below folder k ∨ m' !! k = m !! k) → rest folder m' = rest folder m.
Proof.
  intros Hframe. apply map_eq. intros k. destruct (decide (HasPrefix k (folder +:+ "/") = true)) as [Hk|Hk].
  - by rewrite !rest_below.
  - rewrite !rest_other by done. by destruct (Hframe k).
Qed.

(** An upload in its pool: its folder holds what its tasks have stored, and nothing else. *)
Record storing p (pool : upload T) y : Prop := {
  storing_some : pb_Objects p ≠ [];
  storing_keys : NoDup (map ao_key (pb_Objects p));
  storing_regular : ∀ o, o ∈ pb_Objects p → IsDir (ao_file o) = false ∧ (0 ≤ FileSize (ao_file o))%Z;
  storing_counted : counted (pb_Objects p) (over pool (bucket y));
  storing_pool : pool_inv (compressionEnabled (sy_Content y)) (pb_Objects p) (rest (pb_Folder p) (view y))
    (over pool (bucket y));
}.

Lemma owned_below compression p o k :
  placed p → in_flight p = true → o ∈ pb_Objects p → owned compression (pb_Objects p) o k → below (pb_Folder p) k.
Proof.
  intros Hp Hf Ho Hown. destruct Hown as [->|(ct & d & _ & vs & e & _ & _ & -> & _)]; [|by apply placed_below].
  rewrite <- (str_app_nil_r (ao_key o)). by apply placed_below.
Qed.

Lemma storing_frame p pool y y' :
  placed p → in_flight p = true → storing p pool y → same_below (pb_Folder p) (view y) (view y') →
  compressionEnabled (sy_Content y') = compressionEnabled (sy_Content y) → storing p pool y'.
Proof.
  intros Hp Hf [Hsome Hnd Hreg Hc (Htasks & Hview & Herr)] Hsame Hcomp. split; [done..|]. rewrite Hcomp.
  split; [|split; [|done]].
  - intros i o t Ho Ht. apply (task_ok_frame _ _ _ _ (view y)); [|by eapply Htasks].
    intros k Hk. apply Hsame. eapply owned_below; [done..| |done]. by eapply list_elem_of_lookup_2.
  - intros k. destruct (Hview k) as [?|Hk]; [by left|right].
    destruct (decide (HasPrefix k (pb_Folder p +:+ "/") = true)) as [Hb|Hb].
    + rewrite rest_below in Hk |- * by done. change (view y' !! k = None). rewrite (Hsame k Hb). exact Hk.
    + by rewrite rest_other by done.
Qed.

Lemma over_store (pool : upload T) : over pool (up_store pool) = pool.
Proof. by destruct pool. Qed.

Lemma storing_work p pool pool' y i :
  placed p → pb_Phase p = Storing pool → storing p pool y →
  step (compressionEnabled (sy_Content y)) (pb_Objects p) (over pool (bucket y)) pool' →
  storing (set_phase p (Storing pool')) pool'
    (update y (set_store (sy_Content y) (up_store pool')) i (set_phase p (Storing pool'))).
Proof.
  intros Hp Hph [Hsome Hnd Hreg Hc Hinv] Hstep. split; cbn; [done..| |].
  - unfold bucket. cbn. rewrite over_store. by eapply counted_step.
  - unfold bucket, view, bucket. cbn. rewrite over_store.
    change (pb_Folder (set_phase p _)) with (pb_Folder p).
    rewrite (rest_same _ (view y)); [by eapply pool_inv_step|].
    intros k. by eapply work_frame.
Qed.

Lemma arrive_storing svc name version file fileSize pool (uploads : list (publication T)) :
  osm_reliable (objectStorageManager svc) → sizes_regular file fileSize →
  pb_Phase (arrive svc name version file fileSize) = Storing pool →
  storing (arrive svc name version file fileSize) pool {| sy_Content := svc; sy_Uploads := uploads |}.
Proof.
  unfold arrive. intros Hrel Hsizes. destruct (prepare _ _ _ _ _) as [objects|e] eqn:Hp; [|done]. cbn. intros [= <-].
  destruct (prepare_objects _ _ _ _ _ _ Hsizes Hp) as (Hnd & Hreg & _).
  pose proof (prepare_Ok _ _ _ _ _ _ Hp) as (_ & Hex & _).
  split; cbn; [by eapply prepare_some|done|done|apply counted_start|].
  change (over (start objects _) _) with (start objects (objectStorageManager svc)).
  assert (Hrest : rest (folder_name name version) (osm_view (objectStorageManager svc)) = osm_view (objectStorageManager svc)).
  { apply map_eq. intros k. destruct (decide (HasPrefix k (folder_name name version +:+ "/") = true)) as [Hk|Hk].
    - rewrite rest_below by done. symmetry. by eapply (absent_below svc).
    - by apply rest_other. }
  change (rest _ _) with (rest (folder_name name version) (osm_view (objectStorageManager svc))).
  rewrite Hrest. apply pool_inv_reachable; [done..|apply rtc_refl].
Qed.

(** Two uploads in flight never have the same version, and a version is not deleted while
    it is uploaded; listings do not fail when an upload arrives. *)
Definition orderly (e : event) y : Prop :=
  match e with
  | Publish name version file fileSize =>
      osm_reliable (bucket y) ∧ sizes_regular file fileSize ∧
      Forall (λ p, in_flight p = true → pb_Folder p ≠ folder_name name version) (sy_Uploads y)
  | Remove pkg version => Forall (λ p, in_flight p = true → pb_Folder p ≠ folder_name pkg version) (sy_Uploads y)
  | _ => True
  end.

Record apart y : Prop := {
  apart_placed : Forall placed (sy_Uploads y);
  apart_folders : ∀ i j p q, sy_Uploads y !! i = Some p → sy_Uploads y !! j = Some q →
    in_flight p = true → in_flight q = true → pb_Folder p = pb_Folder q → i = j;
  apart_storing : ∀ i p pool, sy_Uploads y !! i = Some p → pb_Phase p = Storing pool → storing p pool y;
}.

Lemma storing_flight p pool : pb_Phase p = Storing pool → in_flight p = true.
Proof. unfold in_flight. by intros ->. Qed.

Lemma rolling_flight p err : pb_Phase p = RollingBack err → in_flight p = true.
Proof. unfold in_flight. by intros ->. Qed.

(** A change below the folder of one upload is not seen by the others. *)
Lemma apart_others y (m : gmap string StoredObject) i j p q :
  apart y → sy_Uploads y !! i = Some p → sy_Uploads y !! j = Some q → in_flight p = true → in_flight q = true →
  i ≠ j → (∀ k, below (pb_Folder p) k ∨ m !! k = view y !! k) → same_below (pb_Folder q) (view y) m.
Proof.
  intros [Hplaced Hfold _] Hi Hj Hp Hq Hij Hframe k Hk. destruct (Hframe k) as [Hk'|?]; [|done].
  destruct (Forall_lookup_1 _ _ _ _ Hplaced Hi Hp) as [Hidp _].
  destruct (Forall_lookup_1 _ _ _ _ Hplaced Hj Hq) as [Hidq _].
  destruct Hij. eapply Hfold; [done..|]. by eapply below_same.
Qed.

Lemma apart_update y (svc : ContentService T K) i p ph :
  apart y → sy_Uploads y !! i = Some p → in_flight p = true →
  compressionEnabled svc = compressionEnabled (sy_Content y) →
  (∀ k, below (pb_Folder p) k ∨ svc_view svc !! k = view y !! k) →
  (∀ pool, ph = Storing pool → storing (set_phase p ph) pool (update y svc i (set_phase p ph))) →
  apart (update y svc i (set_phase p ph)).
Proof.
  intros Hap Hi Hp Hcomp Hframe Hown. pose proof Hap as [Hplaced Hfold Hst]. split; cbn.
  - apply Forall_insert; [done|]. apply set_phase_placed; [done|]. by eapply Forall_lookup_1.
  - assert (Hlook : ∀ j q, <[i := set_phase p ph]> (sy_Uploads y) !! j = Some q → in_flight q = true →
      ∃ q', sy_Uploads y !! j = Some q' ∧ in_flight q' = true ∧ pb_Folder q' = pb_Folder q).
    { intros j q [[-> [<- _]]|[_ Hj]]%list_lookup_insert_Some Hq; eauto. }
    intros j1 j2 q1 q2 Hq1 Hq2 Hf1 Hf2 Heq.
    destruct (Hlook _ _ Hq1 Hf1) as (q1' & ? & ? & E1). destruct (Hlook _ _ Hq2 Hf2) as (q2' & ? & ? & E2).
    apply (Hfold j1 j2 q1' q2'); congruence.
  - intros j q pool [[-> [<- _]]|[Hij Hj]]%list_lookup_insert_Some Hph; [by apply Hown|].
    apply (storing_frame q pool y); [by eapply Forall_lookup_1|by eapply storing_flight|by eapply Hst| |done].
    apply (apart_others y (svc_view svc) i j p q); try done. by eapply storing_flight.
Qed.

Lemma apart_arrive y name version file fileSize :
  apart y → orderly (Publish name version file fileSize) y →
  apart {| sy_Content := sy_Content y; sy_Uploads := sy_Uploads y ++ [arrive (sy_Content y) name version file fileSize] |}.
Proof.
  intros [Hplaced Hfold Hst] (Hrel & Hsizes & Halone). set (a := arrive _ _ _ _ _). split; cbn.
  - apply Forall_app. split; [done|]. apply Forall_singleton, arrive_placed.
  - assert (Hlast : ∀ j q, sy_Uploads y !! j = Some q → in_flight q = true → pb_Folder q = pb_Folder a → False).
    { intros j q Hj Hq. unfold a. rewrite arrive_folder. by apply (Forall_lookup_1 _ _ _ _ Halone Hj). }
    intros i j p q [[_ Hi]|[-> <-]]%lookup_snoc_Some [[_ Hj]|[-> <-]]%lookup_snoc_Some Hp Hq Heq;
      [by eapply Hfold|by edestruct Hlast..|done].
  - intros i p pool [[_ Hi]|[_ <-]]%lookup_snoc_Some Hph; [by destruct (Hst i p pool Hi Hph)|by apply arrive_storing].
Qed.

(** The service changes, no upload takes a step. *)
Lemma apart_content y (svc : ContentService T K) :
  apart y → compressionEnabled svc = compressionEnabled (sy_Content y) →
  (∀ p k, p ∈ sy_Uploads y → in_flight p = true → below (pb_Folder p) k → svc_view svc !! k = view y !! k) →
  apart {| sy_Content := svc; sy_Uploads := sy_Uploads y |}.
Proof.
  intros [Hplaced Hfold Hst] Hcomp Hframe. split; [done..|]. cbn. intros i p pool Hi Hph.
  apply (storing_frame p pool y); [by eapply Forall_lookup_1|by eapply storing_flight|by eapply Hst| |done].
  intros k Hk. apply (Hframe p k); [by eapply list_elem_of_lookup_2|by eapply storing_flight|done].
Qed.

Lemma DeletePackage_compression svc svc' pkg version err :
  DeletePackage svc pkg version = (err, svc') → compressionEnabled svc' = compressionEnabled svc.
Proof.
  unfold DeletePackage. destruct (validatePackageIdentity _ _); [by intros [= _ <-]|].
  destruct (osm_RemoveObjects _ _) as [[e|] osm]; intros [= _ <-]; [done|]. simpl. by destruct (cacheManager svc).
Qed.

Lemma GetFile_compression svc svc' pkg version file accepted res :
  GetFile svc pkg version file accepted = (res, svc') → compressionEnabled svc' = compressionEnabled svc.
Proof.
  unfold GetFile. destruct (negb _); [by intros [= _ <-]|]. destruct (if _ : bool then None else _); [by intros [= _ <-]|].
  destruct (cacheManager svc) eqn:Hcm; destruct (IsPinnedVersion version); cbn; rewrite ?Hcm;
    destruct (getEncodedObject _ _ _ _); try by intros [= _ <-].
  destruct (cm_Set _ _ _ _). by intros [= _ <-].
Qed.

Lemma moves_apart e y y' : apart y → orderly e y → moves e y y' → apart y'.
Proof.
  intros Hap Hok Hmove.
  destruct Hmove as [y name version file fileSize|y i p pool pool' Hi Hph Hstep|y i p pool ph svc Hi Hph Hfin Hw
    |y i p uploadErr err svc Hi Hph Hrb|y pkg version err svc Hdel|y pkg version fileName accepted res svc Hget].
  - by apply apart_arrive.
  - pose proof (Forall_lookup_1 _ _ _ _ (apart_placed _ Hap) Hi) as Hp.
    apply apart_update; [done..|by eapply storing_flight|done|intros k; by eapply work_frame|].
    intros pool1 [= <-]. apply (storing_work p pool); [done..|by eapply apart_storing|done].
  - unfold after_wait in Hw. apply apart_update; [done..|by eapply storing_flight| | |];
      destruct (up_err pool); injection Hw as <- <-; try done; by right.
  - pose proof (rollback_frame _ _ _ _ _ Hrb) as [_ Hframe].
    apply apart_update; [done..|by eapply rolling_flight| |done|done].
    unfold rollbackPartialUpload in Hrb. destruct (osm_RemoveObjects _ _). by injection Hrb as _ <-.
  - apply apart_content; [done|by eapply DeletePackage_compression|]. intros p k Hp Hf Hk.
    destruct (DeletePackage_frame _ _ _ _ _ Hdel) as [_ Hframe]. destruct (Hframe k) as [[Hid Hk']|?]; [|done].
    cbn in Hok. rewrite Forall_forall in Hok. destruct (Hok p Hp Hf).
    pose proof (apart_placed _ Hap) as Hplaced. rewrite Forall_forall in Hplaced.
    destruct (Hplaced p Hp Hf) as [Hid' _]. by eapply below_same.
  - apply apart_content; [done|by eapply GetFile_compression|]. intros p k _ _ _.
    unfold svc_view, view, bucket. by rewrite (GetFile_store _ _ _ _ _ _ _ Hget).
Qed.

Lemma runs_apart y0 y :
  Forall (λ p, in_flight p = false) (sy_Uploads y0) → runs orderly y0 y → apart y.
Proof.
  intros Hidle Hruns. induction Hruns as [y0|y0 y1 y2 e _ IH Hok Hmove]; [|by eapply moves_apart; [apply IH|..]].
  assert (Hno : ∀ i p, sy_Uploads y0 !! i = Some p → in_flight p = true → False).
  { intros i p Hi Hf. pose proof (Forall_lookup_1 _ _ _ _ Hidle Hi). cbn in *. congruence. }
  split.
  - apply Forall_lookup. intros i p Hi Hf. by destruct (Hno i p).
  - intros i j p q Hi _ Hf. by destruct (Hno i p).
  - intros i p pool Hi Hph%storing_flight. by destruct (Hno i p).
Qed.

(** The folder of an upload holds exactly what is expected of its archive. *)
Definition whole (compression : bool) p (m : gmap string StoredObject) : Prop :=
  ∀ k so, below (pb_Folder p) k →
    m !! k = Some so ↔ ∃ o, o ∈ pb_Objects p ∧ expected compression (pb_Objects p) o k so.

Lemma storing_whole p pool y :
  placed p → in_flight p = true → storing p pool y → all_finished pool = true → up_err pool = None →
  whole (compressionEnabled (sy_Content y)) p (view y).
Proof.
  intros Hp Hf [_ Hnd Hreg (Hlen & _) Hinv] Hfin Herr k so Hk.
  destruct (pool_inv_success _ _ _ _ k Hinv Hlen Hfin Herr) as [Hin Hcase].
  split; [|intros (o & Ho & Hso); by eapply Hin]. intros Hso. destruct Hcase as [(o & so' & Ho & Hso')|Hsame].
  - exists o. split; [done|]. specialize (Hin _ _ Ho Hso'). change (view y !! k = Some so') in Hin. congruence.
  - rewrite rest_below in Hsame by done. change (view y !! k = None) in Hsame. congruence.
Qed.

(** The objects of the entries of an upload are stored. *)
Definition entries_stored p (m : gmap string StoredObject) : Prop :=
  ∀ o, o ∈ pb_Objects p → ∃ g, m !! ao_key o = Some (entry_object (ao_file o) g).

(** What a pool that returned without an error expects of its entries. *)
Lemma storing_expected p pool y o :
  storing p pool y → all_finished pool = true → up_err pool = None → o ∈ pb_Objects p →
  ∃ g, expected (compressionEnabled (sy_Content y)) (pb_Objects p) o (ao_key o) (entry_object (ao_file o) g).
Proof.
  intros [_ Hnd Hreg (Hlen & _) (Htasks & _ & Hnoerr)] Hfin Herr [j Hj]%list_elem_of_lookup.
  destruct (finished_task _ (over pool (bucket y)) j o Hlen Hfin Hj) as [[err|] Ht].
  { exfalso. eapply (Hnoerr Herr), list_elem_of_lookup_2, Ht. }
  destruct (Htasks _ _ _ Hj Ht) as [[g Hg] _]. exists g, g. auto.
Qed.

Lemma wait_inv y y1 i p :
  sy_Uploads y !! i = Some p → moves (Wait i) y y1 →
  ∃ pool ph svc, pb_Phase p = Storing pool ∧ all_finished pool = true ∧ after_wait (sy_Content y) pool = (ph, svc) ∧
    y1 = update y svc i (set_phase p ph) ∧ sy_Uploads y1 !! i = Some (set_phase p ph).
Proof.
  intros Hi Hmove. inversion Hmove as [| |? ? q pool ph svc Hq Hph Hfin Hw| | |]; subst.
  assert (q = p) as -> by congruence. exists pool, ph, svc. split_and!; try done. cbn.
  apply list_lookup_insert_eq. by eapply lookup_lt_Some.
Qed.

Lemma wait_whole y0 y y1 i p p1 :
  Forall (λ p, in_flight p = false) (sy_Uploads y0) → runs orderly y0 y → sy_Uploads y !! i = Some p →
  moves (Wait i) y y1 → sy_Uploads y1 !! i = Some p1 → pb_Phase p1 = Replied None →
  whole (compressionEnabled (sy_Content y)) p (view y1) ∧ entries_stored p (view y1) ∧ settled (pb_Folder p) y1 ∧
  placed p ∧ in_flight p = true ∧ NoDup (map ao_key (pb_Objects p)).
Proof.
  intros Hidle Hruns Hi Hmove Hi1 Hph1. pose proof (runs_apart _ _ Hidle Hruns) as Hap.
  destruct (wait_inv _ _ _ _ Hi Hmove) as (pool & ph & svc & Hph & Hfin & Hw & -> & E).
  rewrite E in Hi1. injection Hi1 as <-. cbn in Hph1. subst ph.
  pose proof (Forall_lookup_1 _ _ _ _ (apart_placed _ Hap) Hi) as Hp. pose proof (storing_flight _ _ Hph) as Hf.
  pose proof (apart_storing _ Hap _ _ _ Hi Hph) as Hst.
  unfold after_wait in Hw. destruct (up_err pool) as [err|] eqn:Herr; [done|]. injection Hw as <-.
  change (view (update y _ i _)) with (view y).
  pose proof (storing_whole _ _ _ Hp Hf Hst Hfin Herr) as Hwhole.
  assert (Hkey : ∀ o, o ∈ pb_Objects p → below (pb_Folder p) (ao_key o)).
  { intros o Ho. rewrite <- (str_app_nil_r (ao_key o)). by apply placed_below. }
  assert (Hent : entries_stored p (view y)).
  { intros o Ho. destruct (storing_expected _ _ _ o Hst Hfin Herr Ho) as [g Hg]. exists g.
    apply Hwhole; [by apply Hkey|]. by exists o. }
  split; [done|]. split; [done|]. split; [|split; [done|split; [done|apply (storing_keys _ _ _ Hst)]]]. split.
  - destruct (pb_Objects p) as [|o l] eqn:Hl; [by destruct (storing_some _ _ _ Hst)|].
    destruct (Hent o) as [g Hg]; [rewrite Hl; by left|]. exists (ao_key o). split; [apply Hkey; by left|by eexists].
  - apply Forall_insert; [apply apart_placed, Hap|]. by apply set_phase_placed.
  - apply Forall_lookup. cbn. intros j q [[_ [<- _]]|[Hij Hj]]%list_lookup_insert_Some Hq1; [done|].
    intros Heq. apply Hij. by eapply (apart_folders _ Hap).
Qed.

Lemma rollback_empty svc folder uploadErr err svc' :
  rollbackPartialUpload svc folder uploadErr = (err, svc') →
  (∀ k, below folder k → svc_view svc' !! k = None) ∨
  ∃ uploadErr, err = NewBusinessError InternalError (Some (rollback_message folder uploadErr false)).
Proof.
  unfold rollbackPartialUpload. destruct (osm_RemoveObjects _ _) as [[e|] osm] eqn:Hrm; intros [= <- <-].
  - right. by eexists.
  - left. intros k Hk. unfold svc_view. cbn. rewrite (osm_Remove_ok _ _ _ Hrm). by apply rest_below.
Qed.

(** C8: uploads of different versions do not see each other.  Any number of uploads, deletions
    and reads run at once, a call at a time in any order, none of them for a version that
    is being uploaded, and the listings made when an upload arrives do not fail.  Then
    an upload changes nothing outside the folder of its version, at any of its calls;
    when its pool ends without an error, the folder holds exactly what is expected
    of its archive, as if it had been alone; otherwise it rolls back, and its folder is
    empty when it answers, unless the answer says that the removal failed. *)
Theorem publications_isolated y0 y y' i p e :
  Forall (λ p, in_flight p = false) (sy_Uploads y0) → runs orderly y0 y →
  sy_Uploads y !! i = Some p → moves e y y' →
  (own i e = true → ∀ k, ¬ below (pb_Folder p) k → view y' !! k = view y !! k) ∧
  (e = Wait i → ∃ p', sy_Uploads y' !! i = Some p' ∧
     ((∃ uploadErr, pb_Phase p' = RollingBack uploadErr) ∨
      pb_Phase p' = Replied None ∧ whole (compressionEnabled (sy_Content y)) p (view y'))) ∧
  (e = Rollback i → ∃ p' err, sy_Uploads y' !! i = Some p' ∧ pb_Phase p' = Replied (Some err) ∧
     ((∀ k, below (pb_Folder p) k → view y' !! k = None) ∨
      ∃ uploadErr, err = NewBusinessError InternalError (Some (rollback_message (pb_Folder p) uploadErr false)))).
Proof.
  intros Hidle Hruns Hi Hmove. pose proof (runs_apart _ _ Hidle Hruns) as Hap.
  pose proof (Forall_lookup_1 _ _ _ _ (apart_placed _ Hap) Hi) as Hp. split; [|split].
  - intros He k Hk.
    destruct Hmove as [|y j q pool pool' Hj Hph Hstep|y j q pool ph svc Hj Hph Hfin Hw|y j q uploadErr err svc Hj Hph Hrb| |];
      try done; apply Nat.eqb_eq in He as ->.
    + assert (q = p) as -> by congruence. by destruct (work_frame y p pool pool' k Hp Hph Hstep).
    + unfold after_wait in Hw. destruct (up_err pool); by injection Hw as _ <-.
    + assert (q = p) as -> by congruence. apply rollback_frame in Hrb as [_ Hframe]. by destruct (Hframe k).
  - intros ->. destruct (wait_inv _ _ _ _ Hi Hmove) as (pool & ph & svc & Hph & Hfin & Hw & Hy & Hi').
    exists (set_phase p ph). split; [done|]. unfold after_wait in Hw.
    destruct (up_err pool) as [uploadErr|] eqn:Herr; injection Hw as <- <-; [left; by eexists|right]. split; [done|].
    rewrite Hy. change (view (update y _ _ _)) with (view y).
    apply (storing_whole _ pool); [done|by eapply storing_flight|by eapply apart_storing|done..].
  - intros ->. inversion Hmove as [| | |? ? q uploadErr err svc Hq Hph Hrb| |]; subst.
    assert (q = p) as -> by congruence. exists (set_phase p (Replied (Some err))), err.
    split; [cbn; apply list_lookup_insert_eq; by eapply lookup_lt_Some|]. split; [done|].
    change (view (update y svc _ _)) with (svc_view svc). by eapply rollback_empty.
Qed.

(** C7: a published version stays as it was published.  When the pool of an upload ends without
    an error, in a run from a state with no upload in flight in which two uploads in flight never
    have the same version, no version is deleted while it is uploaded, the declared sizes of entries are
    below 2^63 and no listing fails when an upload arrives, the folder of the version holds
    exactly what is expected of its archive from then on, whatever requests run at the same
    time, until the version is deleted or the listing of another upload of this version
    fails; and while listings do not fail every later upload of this version is refused. *)
Theorem published_for_good y0 y y1 y2 i p p1 :
  Forall (λ p, in_flight p = false) (sy_Uploads y0) → runs orderly y0 y → sy_Uploads y !! i = Some p →
  moves (Wait i) y y1 → sy_Uploads y1 !! i = Some p1 → pb_Phase p1 = Replied None →
  runs (undisturbed (pb_Folder p)) y1 y2 →
  whole (compressionEnabled (sy_Content y)) p (view y2) ∧
  (osm_reliable (bucket y2) → ∀ file fileSize, ∃ e,
     arrive (sy_Content y2) (pb_Name p) (pb_Version p) file fileSize =
       {| pb_Name := pb_Name p; pb_Version := pb_Version p; pb_Objects := []; pb_Phase := Replied (Some e) |}).
Proof.
  intros Hidle Hruns Hi Hmove Hi1 Hph1 Hlater.
  destruct (wait_whole _ _ _ _ _ _ Hidle Hruns Hi Hmove Hi1 Hph1) as (Hwhole & _ & Hset & Hplaced & Hf & _).
  destruct (Hplaced Hf) as [Hval _].
  destruct (runs_settled _ _ _ _ Hval Hlater Hset) as [Hset2 Hsame]. split.
  - intros k so Hk. rewrite (Hsame k Hk). by apply Hwhole.
  - intros Hrel file fileSize. unfold arrive. destruct (prepare _ _ _ _ _) as [objects|e] eqn:Hp; [|by exists e].
    destruct (arrive_alone y2 (pb_Name p) (pb_Version p) file fileSize (pb_Folder p) (λ _, Hrel)
      (settled_object _ _ Hset2)); [|done]. unfold arrive. by rewrite Hp.
Qed.

(** ** Progress *)

(** The calls an upload has left, at most. *)
Definition flight_rank p : nat :=
  match pb_Phase p with
  | Storing pool => 2 + rank pool
  | RollingBack _ => 1
  | Replied _ => 0
  end.

(** The semaphores of a pool are as its tasks say, and its calls are bounded. *)
Definition sound_pool p : Prop :=
  (∀ pool (store : T), pb_Phase p = Storing pool → counted (pb_Objects p) (over pool store)) ∧
  flight_rank p ≤ 2 + 8 * length (pb_Objects p).

(** A call of an upload brings it nearer to its answer. *)
Lemma own_rank y i p e y' :
  sy_Uploads y !! i = Some p → moves e y y' → own i e = true →
  ∃ p', sy_Uploads y' !! i = Some p' ∧ flight_rank p' < flight_rank p.
Proof.
  intros Hi Hmove Hown. pose proof (lookup_lt_Some _ _ _ Hi) as Hlt.
  destruct Hmove as [|y j q pool pool' Hj Hph Hstep|y j q pool ph svc Hj Hph Hfin Hw|y j q uploadErr err svc Hj Hph Hrb| |];
    try done; apply Nat.eqb_eq in Hown as <-; assert (q = p) as -> by congruence; cbn;
    rewrite list_lookup_insert_eq by done; (eexists; split; [done|]); unfold flight_rank at 2; rewrite Hph; cbn.
  - apply step_rank in Hstep. change (rank (over pool (bucket y))) with (rank pool) in Hstep. lia.
  - unfold after_wait in Hw. destruct (up_err pool); injection Hw as <- _; cbn; lia.
  - lia.
Qed.

Lemma other_same y i p e y' :
  sy_Uploads y !! i = Some p → moves e y y' → own i e = false → sy_Uploads y' !! i = Some p.
Proof.
  intros Hi Hmove Hown.
  destruct Hmove; cbn in *; try apply Nat.eqb_neq in Hown; rewrite ?list_lookup_insert_ne by done; [|done..].
  by apply lookup_app_l_Some.
Qed.

Lemma moves_sound e y y' :
  Forall sound_pool (sy_Uploads y) → moves e y y' → Forall sound_pool (sy_Uploads y').
Proof.
  intros Hs Hmove.
  destruct Hmove as [y name version file fileSize|y i p pool pool' Hi Hph Hstep|y i p pool ph svc Hi Hph Hfin Hw
    |y i p uploadErr err svc Hi Hph Hrb|y pkg version err svc Hdel|y pkg version fileName accepted res svc Hget]; cbn; try done.
  - apply Forall_app. split; [done|]. apply Forall_singleton. unfold sound_pool, arrive.
    destruct (prepare _ _ _ _ _) as [objects|e]; [|by split; [|cbn; lia]]. split.
    + intros pool store [= <-]. apply (counted_start objects store).
    + unfold flight_rank. cbn [pb_Phase pb_Objects]. rewrite rank_start. lia.
  - destruct (Forall_lookup_1 _ _ _ _ Hs Hi) as [Hc Hr]. apply Forall_insert; [done|]. split; cbn.
    + intros pool1 store [= <-]. apply (counted_step _ _ _ pool') in Hstep; [exact Hstep|]. by apply Hc.
    + apply step_rank in Hstep. change (rank (over pool (bucket y))) with (rank pool) in Hstep.
      unfold flight_rank in *. rewrite Hph in Hr. cbn in *. lia.
  - apply Forall_insert; [done|]. unfold after_wait in Hw.
    destruct (up_err pool); injection Hw as <- _; split; cbn; try done; lia.
  - apply Forall_insert; [done|]. split; [done|cbn; lia].
Qed.

Lemma runs_sound ok y0 y :
  Forall (λ p, in_flight p = false) (sy_Uploads y0) → runs ok y0 y → Forall sound_pool (sy_Uploads y).
Proof.
  intros Hidle Hruns. induction Hruns as [y0|y0 y1 y2 e _ IH _ Hmove]; [|by eapply moves_sound; [apply IH|]].
  eapply Forall_impl; [exact Hidle|]. intros p Hp. unfold sound_pool, flight_rank, in_flight in *.
  destruct (pb_Phase p); try done. split; [done|lia].
Qed.

(** C23: no upload is ever blocked.  With at least one processor, in every state that requests
    lead to, an upload in flight has a next call; each of its own calls lowers a bound on
    those left, eight per entry and two more, and the calls of the other requests leave it
    as it is.  So an upload that is scheduled answers, whatever the others do. *)
Theorem uploads_progress y0 y i p :
  0 < NumCPU → Forall (λ p, in_flight p = false) (sy_Uploads y0) → runs (λ _ _, True) y0 y →
  sy_Uploads y !! i = Some p →
  (in_flight p = true → ∃ e y', own i e = true ∧ moves e y y') ∧
  (∀ e y', moves e y y' → ∃ p', sy_Uploads y' !! i = Some p' ∧
     if own i e then flight_rank p' < flight_rank p else p' = p) ∧
  flight_rank p ≤ 2 + 8 * length (pb_Objects p).
Proof.
  intros Hcpu Hidle Hruns Hi. pose proof (runs_sound _ _ _ Hidle Hruns) as Hs.
  destruct (Forall_lookup_1 _ _ _ _ Hs Hi) as [Hc Hr]. split; [|split; [|done]].
  - intros Hf. destruct (pb_Phase p) as [pool|uploadErr|err] eqn:Hph; [| |unfold in_flight in Hf; by rewrite Hph in Hf].
    + destruct (all_finished pool) eqn:Hfin.
      * destruct (after_wait (sy_Content y) pool) as [ph svc] eqn:Hw. eexists (Wait i), _. split; [apply Nat.eqb_refl|].
        by eapply move_wait.
      * destruct (progress (compressionEnabled (sy_Content y)) (pb_Objects p) (over pool (bucket y)) Hcpu)
          as [pool' Hn%next_upload_step]; [by apply Hc|done|].
        eexists (Work i), _. split; [apply Nat.eqb_refl|]. by eapply move_work.
    + destruct (rollbackPartialUpload (sy_Content y) (pb_Folder p) uploadErr) as [err svc] eqn:Hrb.
      eexists (Rollback i), _. split; [apply Nat.eqb_refl|]. by eapply move_rollback.
  - intros e y' Hmove. destruct (own i e) eqn:Hown; [by eapply own_rank|]. exists p. split; [by eapply other_same|done].
Qed.

(** ** An upload alone *)

Lemma set_store_same svc : set_store svc (objectStorageManager svc) = svc.
Proof. by destruct svc. Qed.

Definition only svc p : system T K := {| sy_Content := svc; sy_Uploads := [p] |}.

Lemma only_moves svc p e y' :
  own 0 e = true → moves e (only svc p) y' → ∃ svc' ph, y' = only svc' (set_phase p ph) ∧
  match pb_Phase p with
  | Storing pool =>
      (∃ pool', step (compressionEnabled svc) (pb_Objects p) (over pool (objectStorageManager svc)) pool' ∧
        ph = Storing pool' ∧ svc' = set_store svc (up_store pool')) ∨
      all_finished pool = true ∧ after_wait svc pool = (ph, svc')
  | RollingBack uploadErr => ∃ err, rollbackPartialUpload svc (pb_Folder p) uploadErr = (err, svc') ∧ ph = Replied (Some err)
  | Replied _ => False
  end.
Proof.
  intros Hown Hmove.
  inversion Hmove as [|? j q pool pool' Hj Hph Hstep|? j q pool ph svc1 Hj Hph Hfin Hw|? j q uploadErr err svc1 Hj Hph Hrb| |];
    subst; try done; apply Nat.eqb_eq in Hown as <-; injection Hj as <-; rewrite Hph.
  - exists (set_store svc (up_store pool')), (Storing pool'). split; [done|]. left. eauto.
  - exists svc1, ph. split; [done|]. by right.
  - exists svc1, (Replied (Some err)). split; [done|]. eauto.
Qed.

Lemma only_work svc p pool pool' :
  pb_Phase p = Storing pool →
  step (compressionEnabled svc) (pb_Objects p) (over pool (objectStorageManager svc)) pool' →
  moves (Work 0) (only svc p) (only (set_store svc (up_store pool')) (set_phase p (Storing pool'))).
Proof. exact (move_work (only svc p) 0 p pool pool' eq_refl). Qed.

Lemma only_wait svc p pool ph svc' :
  pb_Phase p = Storing pool → all_finished pool = true → after_wait svc pool = (ph, svc') →
  moves (Wait 0) (only svc p) (only svc' (set_phase p ph)).
Proof. exact (move_wait (only svc p) 0 p pool ph svc' eq_refl). Qed.

Lemma only_rollback svc p uploadErr err svc' :
  pb_Phase p = RollingBack uploadErr → rollbackPartialUpload svc (pb_Folder p) uploadErr = (err, svc') →
  moves (Rollback 0) (only svc p) (only svc' (set_phase p (Replied (Some err)))).
Proof. exact (move_rollback (only svc p) 0 p uploadErr err svc' eq_refl). Qed.

Section alone.
Context svc (name version file : string) (fileSize : Z) (objects : list archiveObject).
Context (Hprepare : prepare svc name version file fileSize = Ok objects).

Let arrived : publication T := arrive svc name version file fileSize.
Let started_pool := start objects (objectStorageManager svc).

Lemma arrived_eq : arrived =
  {| pb_Name := name; pb_Version := version; pb_Objects := objects; pb_Phase := Storing started_pool |}.
Proof. unfold arrived, arrive. by rewrite Hprepare. Qed.

(** The states of an upload that runs alone, and what CreatePackage says of them. *)
Inductive alone_at : system T K → Prop :=
  | alone_storing pool :
      rtc (step (compressionEnabled svc) objects) started_pool pool →
      alone_at (only (set_store svc (up_store pool)) (set_phase arrived (Storing pool)))
  | alone_failed pool uploadErr :
      rtc (step (compressionEnabled svc) objects) started_pool pool → all_finished pool = true →
      up_err pool = Some uploadErr →
      alone_at (only (set_store svc (up_store pool)) (set_phase arrived (RollingBack uploadErr)))
  | alone_done err svc' :
      CreatePackage svc name version file fileSize err svc' →
      alone_at (only svc' (set_phase arrived (Replied err))).

Lemma alone_step e y y' : alone_at y → own 0 e = true → moves e y y' → alone_at y'.
Proof.
  intros Hat Hown Hmove.
  destruct Hat as [pool Hsteps|pool uploadErr Hsteps Hfin Herr|err svc1 Hdone];
    destruct (only_moves _ _ _ _ Hown Hmove) as (svc' & ph & -> & Hcase); cbn in Hcase; [| |done].
  - destruct Hcase as [(pool' & Hstep & -> & ->)|(Hfin & Hw)].
    + rewrite over_store in Hstep. rewrite arrived_eq in Hstep.
      apply alone_storing. by eapply rtc_r.
    + unfold after_wait in Hw. destruct (up_err pool) as [uploadErr|] eqn:Herr; injection Hw as <- <-.
      * by apply alone_failed.
      * apply alone_done.
        pose proof (create_completed svc name version file fileSize objects pool Hprepare Hsteps Hfin) as Hc.
        unfold conclude in Hc. by rewrite Herr in Hc.
  - destruct Hcase as (err & Hrb & ->). apply alone_done.
    pose proof (create_completed svc name version file fileSize objects pool Hprepare Hsteps Hfin) as Hc.
    unfold conclude in Hc. rewrite Herr in Hc. change (pb_Folder _) with (pb_Folder arrived) in Hrb.
    rewrite arrived_eq in Hrb. unfold pb_Folder in Hrb. cbn in Hrb. by rewrite Hrb in Hc.
Qed.

Notation own_runs := (runs (λ e _, own 0 e = true)).

Lemma alone_runs y : own_runs (only svc arrived) y → alone_at y.
Proof.
  intros Hruns. remember (only svc arrived) as y0 eqn:E. induction Hruns as [y0|y0 y1 y2 e _ IH Hok Hmove].
  - subst. pose proof (alone_storing started_pool (rtc_refl _ _)) as Hat. unfold started_pool in Hat at 1. cbn in Hat.
    rewrite set_store_same in Hat. by rewrite arrived_eq in Hat |- *.
  - by eapply alone_step; [apply IH| |].
Qed.

Lemma alone_pool pool :
  rtc (step (compressionEnabled svc) objects) started_pool pool →
  own_runs (only svc arrived) (only (set_store svc (up_store pool)) (set_phase arrived (Storing pool))).
Proof.
  revert pool. apply (rtc_ind_r (λ pool, own_runs (only svc arrived)
    (only (set_store svc (up_store pool)) (set_phase arrived (Storing pool))))); [|intros pool pool' Hsteps Hstep IH].
  - unfold started_pool at 1. cbn. rewrite set_store_same, arrived_eq. constructor.
  - eapply (runs_snoc _ _ _ _ (Work 0)); [exact IH|done|].
    assert (Hs : step (compressionEnabled svc) (pb_Objects arrived) (over pool (up_store pool)) pool')
      by (rewrite over_store; by rewrite arrived_eq).
    exact (only_work (set_store svc (up_store pool)) (set_phase arrived (Storing pool)) pool pool' eq_refl Hs).
Qed.

Lemma alone_complete err svc' :
  CreatePackage svc name version file fileSize err svc' →
  own_runs (only svc arrived) (only svc' (set_phase arrived (Replied err))).
Proof.
  intros Hc. destruct Hc as [e Hp|objects' pool Hp Hsteps Hfin]; [congruence|].
  assert (objects' = objects) as -> by congruence. apply alone_pool in Hsteps.
  unfold conclude. destruct (up_err pool) as [uploadErr|] eqn:Herr.
  - destruct (rollbackPartialUpload _ _ _) as [err svc'] eqn:Hrb. cbn.
    set (svc1 := set_store svc (up_store pool)) in *.
    assert (Hw : after_wait svc1 pool = (RollingBack uploadErr, svc1)) by (unfold after_wait; by rewrite Herr).
    pose proof (only_wait svc1 (set_phase arrived (Storing pool)) pool _ _ eq_refl Hfin Hw) as Hwait.
    assert (Hrb' : rollbackPartialUpload svc1 (pb_Folder (set_phase arrived (RollingBack uploadErr))) uploadErr = (err, svc'))
      by (change (pb_Folder _) with (pb_Folder arrived); by rewrite arrived_eq).
    pose proof (only_rollback svc1 (set_phase arrived (RollingBack uploadErr)) uploadErr err svc' eq_refl Hrb') as Hroll.
    exact (runs_snoc _ _ _ _ (Rollback 0) (runs_snoc _ _ _ _ (Wait 0) Hsteps eq_refl Hwait) eq_refl Hroll).
  - set (svc1 := set_store svc (up_store pool)) in *.
    assert (Hw : after_wait svc1 pool = (Replied None, count svc1 inc_uploaded)) by (unfold after_wait; by rewrite Herr).
    pose proof (only_wait svc1 (set_phase arrived (Storing pool)) pool _ _ eq_refl Hfin Hw) as Hwait.
    exact (runs_snoc _ _ _ _ (Wait 0) Hsteps eq_refl Hwait).
Qed.
End alone.

(** Calls one at a time are CreatePackage.  When an upload runs with no other request, the
    states in which it has answered are exactly the outcomes of CreatePackage: a refused
    upload answers at once, and an accepted one in each way its pool, its wait and its
    rollback can go. *)
Theorem alone_exact svc (name version file : string) (fileSize : Z) err svc' :
  CreatePackage svc name version file fileSize err svc' ↔
  runs (λ e _, own 0 e = true) (only svc (arrive svc name version file fileSize))
    (only svc' (set_phase (arrive svc name version file fileSize) (Replied err))).
Proof.
  destruct (prepare svc name version file fileSize) as [objects|e] eqn:Hp.
  - split; [by apply alone_complete with objects|]. intros Hruns.
    apply (alone_runs _ _ _ _ _ _ Hp) in Hruns. inversion Hruns; by subst.
  - assert (Ha : arrive svc name version file fileSize =
      {| pb_Name := name; pb_Version := version; pb_Objects := []; pb_Phase := Replied (Some e) |})
      by (unfold arrive; by rewrite Hp).
    split.
    + intros Hc. destruct Hc as [e' Hp'|objects u Hp' _ _]; [|congruence].
      assert (e' = e) as -> by congruence. rewrite Ha. constructor.
    + intros Hruns. remember (only svc (arrive _ _ _ _ _)) as y0 eqn:E. remember (only svc' _) as y' eqn:E'.
      destruct Hruns as [y|y1 y2 y3 ev Hruns Hok Hmove].
      * rewrite E in E'. injection E' as -> Hph. rewrite Ha in Hph. injection Hph as <-. by apply create_rejected.
      * exfalso. clear E'. subst y1. assert (Hstuck : y2 = only svc (arrive svc name version file fileSize)).
        { remember (only svc _) as z eqn:Ez in Hruns |- *. clear Hmove. induction Hruns as [|z1 z2 z3 ev' _ IH Hok' Hmove']; [done|].
          specialize (IH Ez). subst z2 z1. apply only_moves in Hmove' as (? & ? & _ & Hcase); [|done]. by rewrite Ha in Hcase. }
        subst y2. apply only_moves in Hmove as (? & ? & _ & Hcase); [|done]. by rewrite Ha in Hcase.
Qed.
End concurrent.

(** ** Concrete runs *)

#[local] Existing Instance builtin_mime.
#[local] Existing Instance plain_codec.
#[local] Existing Instance toy_compressors.
#[local] Existing Instance toy_digest.
#[local] Existing Instance plain_names.
#[local] Existing Instance whole_paths.
#[local] Existing Instance two_processors.

(** Archives that make different packages. *)
Definition two_zips : ZipFormat := λ file _,
  if String.eqb file "one" then Some [text_file "dist/a.css" "a{}"]
  else if String.eqb file "two" then Some [text_file "dist/b.css" "b{}"; text_file "dist/c.css" "c{}"]
  else if String.eqb file "three" then Some [text_file "index.html" "hi"; text_file "js/app.js" "1;"]
  else if String.eqb file "four" then Some [text_file "dist/a.js" (letters 1200)]
  else None.
#[local] Existing Instance two_zips.

Notation demo_system := (system (Storage.objectStorageManager memory) (redisCache mem_redis)).

Definition quiet_system (faults : list string) : demo_system :=
  {| sy_Content := demo_service faults; sy_Uploads := [] |}.

(** The phase of each upload, and the contents of the bucket. *)
Definition observed (y : demo_system) : list (string * option GimmeError) * list (string * string) :=
  (omap (λ p, match pb_Phase p with Replied err => Some (pb_Folder p, err) | _ => None end) (sy_Uploads y),
   map (λ ko, (ko.1, so_data ko.2)) (map_to_list (view y))).

Lemma small_archives file : sizes_regular file 50.
Proof.
  intros files. unfold zip_NewReader, two_zips.
  repeat case_match; intros [= <-]; repeat constructor; now vm_compute.
Qed.

(** One version published twice at once.  Both uploads find the bucket without it.  In the
    first run both are answered with a success, and the folder has the files of the two
    archives; in the second run the first is answered with a success and the second
    fails, and its rollback removes the files of the first. *)
Definition race : list event :=
  [Publish "lib" "2.0.0" "one" 50; Publish "lib" "2.0.0" "two" 50] ++
  repeat (Work 0) 3 ++ [Wait 0] ++ repeat (Work 1) 6 ++ [Wait 1].

Theorem racing_uploads :
  (∃ y, runs (λ _ _, True) (quiet_system []) y ∧
     observed y = ([("lib@2.0.0", None); ("lib@2.0.0", None)],
       [("lib@1.0.0/old.js", "old"); ("lib@2.0.0/c.css", "c{}"); ("lib@2.0.0/a.css", "a{}"); ("lib@2.0.0/b.css", "b{}")])) ∧
  (∃ y err, runs (λ _ _, True) (quiet_system ["lib@2.0.0/c.css"]) y ∧
     observed y = ([("lib@2.0.0", None); ("lib@2.0.0", Some err)], [("lib@1.0.0/old.js", "old")])).
Proof.
  split.
  - destruct (play race (quiet_system [])) as [y|] eqn:Hplay; [|exfalso; revert Hplay; now vm_compute].
    exists y. split; [by eapply play_runs; [|exact Hplay]|]. revert Hplay. vm_compute. by intros [= <-].
  - destruct (play (race ++ [Rollback 1]) (quiet_system ["lib@2.0.0/c.css"])) as [y|] eqn:Hplay;
      [|exfalso; revert Hplay; now vm_compute].
    exists y. eexists. split; [by eapply play_runs; [|exact Hplay]|]. revert Hplay. vm_compute. by intros [= <-].
Qed.

Lemma quiet_idle faults : Forall (λ p, in_flight p = false) (sy_Uploads (quiet_system faults)).
Proof. constructor. Qed.

(** Two uploads of different versions; the second one fails. *)
Definition both : list event := [Publish "lib" "2.0.0" "one" 50; Publish "app" "1.0.0" "two" 50].

Definition some_system (y : option demo_system) : demo_system := default (quiet_system []) y.

Definition both_arrived : demo_system := some_system (play both (quiet_system ["app@1.0.0/c.css"])).

(** The calls of both, one after the other. *)
Definition interleaved : list event :=
  [Work 0; Work 1; Work 0; Work 1; Work 1; Work 1; Work 0; Work 1; Work 1; Wait 1].

Definition both_done : demo_system := some_system (play interleaved both_arrived).

Lemma both_runs : runs orderly (quiet_system ["app@1.0.0/c.css"]) both_done.
Proof.
  eapply (runs_cons _ (Publish "lib" "2.0.0" "one" 50)); [reflexivity|split; [apply demo_reliable|split; [apply small_archives|constructor]]|].
  eapply (runs_cons _ (Publish "app" "1.0.0" "two" 50)); [reflexivity|split; [now apply bucket_reliable|split; [apply small_archives|]]|].
  - repeat constructor; now vm_compute.
  - apply (play_runs _ interleaved); [|now vm_compute].
    intros e y He. repeat (apply elem_of_cons in He as [->|He]; [done|]). by apply elem_of_nil in He.
Qed.

(** The package that [both_done] has published, and the other one, about to roll back. *)
Definition first_upload : publication (Storage.objectStorageManager memory) :=
  default (arrive (sy_Content both_done) "lib" "2.0.0" "one" 50) (sy_Uploads both_done !! 0).
Definition second_upload : publication (Storage.objectStorageManager memory) :=
  default (arrive (sy_Content both_done) "app" "1.0.0" "two" 50) (sy_Uploads both_done !! 1).

(** The first upload is answered, then a second upload of the version arrives, the other upload
    rolls back, its version is deleted, and the package is read. *)
Definition answered : demo_system := some_system (try_move (Wait 0) both_done).
Definition later_events : list event := [Rollback 1; Remove "app" "1.0.0"; Fetch "lib" "2.0.0" "/a.css" []].
Definition contested : demo_system := some_system (try_move (Publish "lib" "2.0.0" "two" 50) answered).
Definition much_later : demo_system := some_system (play later_events contested).

Lemma first_lookup : sy_Uploads both_done !! 0 = Some first_upload.
Proof. now vm_compute. Qed.

Lemma second_lookup : sy_Uploads both_done !! 1 = Some second_upload.
Proof. now vm_compute. Qed.

Lemma answered_move : moves (Wait 0) both_done answered.
Proof. apply try_move_moves. now vm_compute. Qed.

Lemma answered_phase p1 : sy_Uploads answered !! 0 = Some p1 → pb_Phase p1 = Replied None.
Proof.
  assert (E : pb_Phase <$> sy_Uploads answered !! 0 = Some (Replied None)) by now vm_compute.
  intros Hp. rewrite Hp in E. by injection E.
Qed.

Lemma publications_isolated_witness :
  (∀ so, view answered !! "lib@2.0.0/a.css" = Some so ↔
     ∃ o, o ∈ pb_Objects first_upload ∧ expected true (pb_Objects first_upload) o "lib@2.0.0/a.css" so) ∧
  view (some_system (try_move (Rollback 1) both_done)) !! "lib@2.0.0/a.css" =
    view both_done !! "lib@2.0.0/a.css".
Proof.
  assert (Hr : moves (Rollback 1) both_done (some_system (try_move (Rollback 1) both_done)))
    by now apply try_move_moves; vm_compute.
  destruct (publications_isolated _ _ _ _ _ _ (quiet_idle _) both_runs first_lookup answered_move) as (_ & Hwait & _).
  destruct (publications_isolated _ _ _ _ _ _ (quiet_idle _) both_runs second_lookup Hr) as (Hframe & _).
  split.
  - destruct (Hwait eq_refl) as (p' & Hp' & [[err Herr]|[_ Hwhole]]).
    + exfalso. rewrite (answered_phase _ Hp') in Herr. discriminate Herr.
    + intros so. apply (Hwhole "lib@2.0.0/a.css" so). vm_compute. reflexivity.
  - apply Hframe; [reflexivity|]. vm_compute. discriminate.
Defined.

Lemma published_for_good_witness :
  (∀ so, view much_later !! "lib@2.0.0/a.css" = Some so ↔
     ∃ o, o ∈ pb_Objects first_upload ∧ expected true (pb_Objects first_upload) o "lib@2.0.0/a.css" so) ∧
  ∃ e, pb_Phase (arrive (sy_Content much_later) "lib" "2.0.0" "one" 50) = Replied (Some e).
Proof.
  assert (Hlater : runs (undisturbed (pb_Folder first_upload)) answered much_later).
  { eapply (runs_cons _ (Publish "lib" "2.0.0" "two" 50) _ contested); [vm_compute; reflexivity|intros _; apply (store_reliable (bucket answered)); vm_compute; reflexivity|].
    apply (play_runs _ later_events); [|vm_compute; reflexivity].
    intros e y He. repeat (apply elem_of_cons in He as [->|He]; [vm_compute; first [exact I|discriminate]|]). by apply elem_of_nil in He. }
  assert (Hsome : is_Some (sy_Uploads answered !! 0)) by (apply lookup_lt_is_Some; vm_compute; lia).
  destruct Hsome as [p1 Hp1].
  destruct (published_for_good _ _ _ much_later _ _ _ (quiet_idle _) both_runs first_lookup answered_move Hp1 (answered_phase _ Hp1) Hlater)
    as [Hwhole Hrefused].
  split; [intros so; apply Hwhole; vm_compute; reflexivity|].
  destruct (Hrefused ltac:(apply (store_reliable (bucket much_later)); vm_compute; reflexivity) "one"%string 50%Z) as [e He]. exists e.
  exact (f_equal pb_Phase He).
Defined.

Lemma uploads_progress_witness :
  (∃ e y', own 1 e = true ∧ moves e both_done y') ∧ flight_rank second_upload ≤ 18.
Proof.
  destruct (uploads_progress (quiet_system ["app@1.0.0/c.css"]) both_done 1 second_upload) as (Hnext & _ & Hbound).
  - now apply Nat.ltb_lt.
  - apply quiet_idle.
  - eapply runs_impl; [|apply both_runs]. done.
  - apply second_lookup.
  - split; [apply Hnext; now vm_compute|exact Hbound].
Defined.
