(* ===== verification/ParseFloat.v ===== *)
(** Decimal and hexadecimal numbers as strconv.ParseFloat reads them for float64:
    signs, digits with underscores, exponents, infinities and NaN, rounded to the
    nearest float64. *)
From S2P Require Import Prelude GoStrings GoFloat.
From Stdlib Require Import Ascii.
Open Scope Z_scope.

Inductive parsed_float :=
  | PFinite (neg : bool) (f : float64)
  | PInf (neg : bool)
  | PNaN.

(** The digits read so far: their value and number without leading zeros, the position
    of the decimal point, and whether a point, a digit, an underscore was seen. *)
Record mantissa := {
  m_value : Z;
  m_nd : Z;
  m_dp : Z;
  m_dot : bool;
  m_digits : bool;
  m_under : bool;
}.

Definition no_mantissa : mantissa :=
  {| m_value := 0; m_nd := 0; m_dp := 0; m_dot := false; m_digits := false; m_under := false |}.

Definition digit_value (hex : bool) (c : ascii) : option Z :=
  let n := Z.of_nat (nat_of_ascii (lower_ascii c)) in
  if (48 <=? n) && (n <=? 57) then Some (n - 48)
  else if hex && (97 <=? n) && (n <=? 102) then Some (n - 87)
  else None.

Definition push_digit (hex : bool) (m : mantissa) (d : Z) : mantissa :=
  if (d =? 0) && (m_nd m =? 0) then
    {| m_value := m_value m; m_nd := m_nd m; m_dp := m_dp m - 1; m_dot := m_dot m;
       m_digits := true; m_under := m_under m |}
  else
    {| m_value := m_value m * (if hex then 16 else 10) + d; m_nd := m_nd m + 1; m_dp := m_dp m;
       m_dot := m_dot m; m_digits := true; m_under := m_under m |}.

Fixpoint read_mantissa (hex : bool) (m : mantissa) (s : string) : mantissa * string :=
  match s with
  | EmptyString => (m, "")
  | String c s' =>
      if Ascii.eqb c "_" then
        read_mantissa hex {| m_value := m_value m; m_nd := m_nd m; m_dp := m_dp m; m_dot := m_dot m;
                             m_digits := m_digits m; m_under := true |} s'
      else if Ascii.eqb c "." then
        if m_dot m then (m, s)
        else read_mantissa hex {| m_value := m_value m; m_nd := m_nd m; m_dp := m_nd m; m_dot := true;
                                  m_digits := m_digits m; m_under := m_under m |} s'
      else
        match digit_value hex c with
        | None => (m, s)
        | Some d => read_mantissa hex (push_digit hex m d) s'
        end
  end.

(** The digits of an exponent; the value stops growing past 10000. *)
Fixpoint read_exponent (e : Z) (under : bool) (s : string) : Z * bool * string :=
  match s with
  | EmptyString => (e, under, "")
  | String c s' =>
      if Ascii.eqb c "_" then read_exponent e true s'
      else
        match digit_value false c with
        | None => (e, under, s)
        | Some d => read_exponent (if e <? 10000 then e * 10 + d else e) under s'
        end
  end.

(** An underscore only separates digits, or a base prefix and a digit. *)
Inductive seen := SawStart | SawDigit | SawUnder | SawOther.

Fixpoint underscores_ok (hex : bool) (i : seen) (s : string) : bool :=
  match s with
  | EmptyString => match i with SawUnder => false | _ => true end
  | String c s =>
      match digit_value hex c with
      | Some _ => underscores_ok hex SawDigit s
      | None =>
          if Ascii.eqb c "_" then
            match i with SawDigit => underscores_ok hex SawUnder s | _ => false end
          else match i with SawUnder => false | _ => underscores_ok hex SawOther s end
      end
  end.

(** A sign and what follows. *)
Definition split_sign (s : string) : bool * string :=
  match s with
  | String "+" s' => (false, s')
  | String "-" s' => (true, s')
  | _ => (false, s)
  end.

Definition underscoreOK (s : string) : bool :=
  let '(_, s) := split_sign s in
  match s with
  | String "0" (String c s') =>
      let c := lower_ascii c in
      if Ascii.eqb c "b" || Ascii.eqb c "o" || Ascii.eqb c "x" then
        underscores_ok (Ascii.eqb c "x") SawDigit s'
      else underscores_ok false SawStart s
  | _ => underscores_ok false SawStart s
  end.

(** Infinities and NaN. *)
Definition special (s : string) : option parsed_float :=
  let '(neg, t) := split_sign s in
  let t := str_map lower_ascii t in
  if String.eqb t "inf" || String.eqb t "infinity" then Some (PInf neg)
  else if String.eqb (str_map lower_ascii s) "nan" then Some PNaN
  else None.

(** 0.d1d2... times 10^dp for the digits of [m]: zero below the least float64, [None]
    for an overflow. *)
Definition decimal_value (m : mantissa) (dp : Z) : option float64 :=
  if m_value m =? 0 then Some (fround 0 1)
  else if 310 <? dp then None
  else if dp <? -330 then Some (fround 0 1)
  else
    let e := dp - m_nd m in
    let f := fround (m_value m * 10 ^ Z.max 0 e) (10 ^ Z.max 0 (- e)) in
    if is_huge f then None else Some f.

(** The hexadecimal digits, the exponent being that of 2. *)
Definition hex_value (m : mantissa) (dp : Z) : option float64 :=
  let e := dp - 4 * m_nd m in
  let f := fround (m_value m * 2 ^ Z.max 0 e) (2 ^ Z.max 0 (- e)) in
  if is_huge f then None else Some f.

(** The optional exponent: its value, whether it has underscores, and the rest. *)
Definition read_optional_exponent (hex : bool) (s : string) : option (Z * bool * string) :=
  let without := if hex then None else Some (0, false, s) in
  match s with
  | String c s' =>
      if Ascii.eqb (lower_ascii c) (if hex then "p" else "e")%char then
        let '(neg, digits) := split_sign s' in
        match digits with
        | String d _ =>
            match digit_value false d with
            | None => None
            | Some _ =>
                let '(e, under, rest) := read_exponent 0 false digits in
                Some (if neg then - e else e, under, rest)
            end
        | EmptyString => None
        end
      else without
  | EmptyString => without
  end.

(** A base prefix 0x with something after it. *)
Definition split_hex (s : string) : bool * string :=
  match s with
  | String "0" (String c (String d s')) =>
      if Ascii.eqb (lower_ascii c) "x" then (true, String d s') else (false, s)
  | _ => (false, s)
  end.

(** [strconv.ParseFloat(s, 64)]; [None] is a syntax or a range error. *)
Definition ParseFloat (s : string) : option parsed_float :=
  match special s with
  | Some f => Some f
  | None =>
      let '(neg, t) := split_sign s in
      let '(hex, t) := split_hex t in
      let '(m, t) := read_mantissa hex no_mantissa t in
      if negb (m_digits m) then None
      else
        let dp := if m_dot m then m_dp m else m_nd m in
        let dp := if hex then dp * 4 else dp in
        '(e, under, rest) ← read_optional_exponent hex t;
        if (m_under m || under) && negb (underscoreOK s) then None
        else if negb (String.eqb rest "") then None
        else
          f ← (if hex then hex_value m (dp + e) else decimal_value m (dp + e));
          Some (PFinite neg f)
  end.
Close Scope Z_scope.

(** ** Results are not negative *)

Definition nonneg (f : float64) : Prop := (0 ≤ mant f)%Z.

Lemma fround_nonneg num den : (0 ≤ num)%Z → (0 < den)%Z → nonneg (fround num den).
Proof.
  intros Hn Hd. unfold nonneg, fround. destruct (Z.eqb_spec num 0); [done|]. simpl.
  pose proof (pow2_pos (last_exponent num den)). pose proof (pow2_pos (- last_exponent num den)).
  apply div_ne_ge; nia.
Qed.

Lemma digit_value_nonneg hex c d : digit_value hex c = Some d → (0 ≤ d)%Z.
Proof.
  unfold digit_value. set (n := Z.of_nat _). destruct (_ && _)%Z eqn:E; [intros [= <-]; bool_hyps; lia|].
  destruct (_ && _ && _)%Z eqn:E2; [intros [= <-]; bool_hyps; lia|done].
Qed.

Lemma read_mantissa_nonneg hex m s :
  (0 ≤ m_value m)%Z → (0 ≤ m_value (read_mantissa hex m s).1)%Z.
Proof.
  revert m. induction s as [|c s IH]; intros m Hm; simpl; [done|].
  destruct (Ascii.eqb c "_"); [by apply IH|]. destruct (Ascii.eqb c ".").
  - destruct (m_dot m); [done|by apply IH].
  - destruct (digit_value hex c) as [d|] eqn:Hd; [|done]. apply digit_value_nonneg in Hd.
    apply IH. unfold push_digit. case_goal; simpl; [done|]. destruct hex; lia.
Qed.

Lemma scaled_nonneg m b e den :
  (0 ≤ m → 0 < b → 0 < den → nonneg (fround (m * b ^ Z.max 0 e) den))%Z.
Proof.
  intros Hm Hb Hd. apply fround_nonneg; [|done]. apply Z.mul_nonneg_nonneg; [done|].
  apply Z.pow_nonneg. lia.
Qed.

Lemma hex_value_nonneg m dp f : (0 ≤ m_value m)%Z → hex_value m dp = Some f → nonneg f.
Proof.
  unfold hex_value. intros Hm. destruct (is_huge _); [done|]. intros [= <-].
  apply scaled_nonneg; [done|lia|]. apply Z.pow_pos_nonneg; lia.
Qed.

Lemma decimal_value_nonneg m dp f : (0 ≤ m_value m)%Z → decimal_value m dp = Some f → nonneg f.
Proof.
  unfold decimal_value. intros Hm. destruct (_ =? 0)%Z; [by intros [= <-]|].
  destruct (310 <? dp)%Z; [done|]. destruct (dp <? -330)%Z; [by intros [= <-]|].
  destruct (is_huge _); [done|]. intros [= <-].
  apply scaled_nonneg; [done|lia|]. apply Z.pow_pos_nonneg; lia.
Qed.

Lemma ParseFloat_nonneg s neg f : ParseFloat s = Some (PFinite neg f) → nonneg f.
Proof.
  unfold ParseFloat. destruct (special s) as [g|] eqn:Hsp.
  { intros [= ->]. unfold special in Hsp. destruct (split_sign s). repeat case_match; done. }
  destruct (split_sign s) as [n t]. destruct (split_hex t) as [hex t'].
  pose proof (read_mantissa_nonneg hex no_mantissa t' ltac:(simpl; lia)) as Hm.
  destruct (read_mantissa hex no_mantissa t') as [m rest]. simpl in Hm.
  destruct (m_digits m); simpl; [|done]. destruct (read_optional_exponent hex rest) as [[[e u] r]|]; simpl; [|done].
  destruct (_ && negb (underscoreOK s)); [done|]. destruct (negb _); [done|].
  destruct hex.
  - destruct (hex_value m _) eqn:Hv; simpl; [|done]. intros [= _ <-]. by eapply hex_value_nonneg, Hv.
  - destruct (decimal_value m _) eqn:Hv; simpl; [|done]. intros [= _ <-].
    by eapply decimal_value_nonneg, Hv.
Qed.
