(* ===== verification/Negotiation.v ===== *)
(** Content negotiation (api/content-negotiation.go): the Accept-Encoding header, by the
    rules of RFC 9110 section 12.5.3. *)
From S2P Require Import Prelude GoStrings GoFloat ParseFloat Zip Compression Service.
From Stdlib Require Import Ascii.

Record acceptedEncodings := {
  encodings_ : list Encoding;
  identity : bool;
}.

Definition fzero : float64 := {| mant := 0; expo := 0 |}.
Definition fone : float64 := {| mant := 1; expo := 0 |}.

(** A qvalue: a number that is not NaN, not negative and at most one. *)
Definition parse_qvalue (value : string) (found : bool) : option float64 :=
  match ParseFloat (TrimSpace value) with
  | Some (PFinite neg f) =>
      if negb found || (neg && fltb fzero f) || fltb fone f then None else Some f
  | _ => None
  end.

(** The loop over the parameters of a coding: its quality, [None] when one is invalid. *)
Fixpoint parse_parameters (quality : float64) (parameters : list string) : option float64 :=
  match parameters with
  | [] => Some quality
  | parameter :: parameters =>
      let '(name, value, found) := Cut (TrimSpace parameter) "=" in
      if negb (EqualFold name "q") then parse_parameters quality parameters
      else
        match parse_qvalue value found with
        | None => None
        | Some parsed => parse_parameters parsed parameters
        end
  end.

(** One part of the header: a coding with its quality, or nothing. *)
Definition parse_coding (part : string) : option (string * float64) :=
  let segments := Split (TrimSpace part) ";" in
  let token := ToLower (TrimSpace (first_piece segments)) in
  match parse_parameters fone (tail segments) with
  | None => None
  | Some quality => if String.eqb token "" then None else Some (token, quality)
  end.

(** The best quality of each coding. *)
Definition add_coding (qualities : gmap string float64) (coding : string * float64)
    : gmap string float64 :=
  let '(token, quality) := coding in
  match qualities !! token with
  | Some current =>
      if fleb quality current then qualities else <[token := quality]> qualities
  | None => <[token := quality]> qualities
  end.

Definition add_part (qualities : gmap string float64) (part : string) : gmap string float64 :=
  match parse_coding part with
  | None => qualities
  | Some coding => add_coding qualities coding
  end.

Definition resolve (qualities : gmap string float64) (token : string) : option float64 :=
  match qualities !! token with
  | Some named => Some named
  | None => qualities !! "*"
  end.

Definition preference (qualities : gmap string float64) (encoding : Encoding)
    : option (Encoding * float64) :=
  match resolve qualities encoding with
  | None => None
  | Some quality => if feqb quality fzero then None else Some (encoding, quality)
  end.

(** [sort.SliceStable] by decreasing quality. *)
Fixpoint insert_preference (p : Encoding * float64) (l : list (Encoding * float64))
    : list (Encoding * float64) :=
  match l with
  | [] => [p]
  | q :: l => if fltb p.2 q.2 then q :: insert_preference p l else p :: q :: l
  end.

Definition sort_preferences (l : list (Encoding * float64)) : list (Encoding * float64) :=
  foldr insert_preference [] l.

Definition parseAcceptEncoding (header : string) : acceptedEncodings :=
  if String.eqb (TrimSpace header) "" then {| encodings_ := []; identity := true |}
  else
    let qualities := fold_left add_part (Split header ",") ∅ in
    let identity :=
      match resolve qualities "identity" with
      | None => true
      | Some quality => fltb fzero quality
      end in
    let preferences := omap (preference qualities) encodings in
    {| encodings_ := map fst (sort_preferences preferences); identity := identity |}.

(** ** Specification *)

(** The well-formed entries of a header. *)
Definition codings (header : string) : list (string * float64) := omap parse_coding (Split header ",").

Definition named (header : string) (token : string) : Prop := ∃ q, (token, q) ∈ codings header.

Definition positive (q : float64) : Prop := fltb fzero q = true.

(** A coding is acceptable when an entry names it with a positive quality, or no entry
    names it and one for "*" has a positive quality. *)
Definition acceptable (header token : string) : Prop :=
  (∃ q, (token, q) ∈ codings header ∧ positive q) ∨
  ¬ named header token ∧ ∃ q, ("*", q) ∈ codings header ∧ positive q.

(** The weight of a coding: the best quality of the entries that name it, or of the
    entries for "*". *)
Definition best (header token : string) (q : float64) : Prop :=
  (token, q) ∈ codings header ∧ ∀ q', (token, q') ∈ codings header → fleb q' q = true.

Definition weight (header token : string) (q : float64) : Prop :=
  best header token q ∨ ¬ named header token ∧ best header "*" q.

(** ** Lemmas *)

Lemma str_rev_app_free c s acc :
  char_free c (str_rev_app s acc) = true ↔ char_free c s = true ∧ char_free c acc = true.
Proof.
  revert acc. induction s as [|a s IH]; intros acc; simpl; [naive_solver|].
  rewrite IH, !char_free_cons. tauto.
Qed.

Lemma str_rev_free c s : char_free c (str_rev s) = true ↔ char_free c s = true.
Proof. unfold str_rev. rewrite str_rev_app_free. naive_solver. Qed.

Lemma trim_left_any_free c fuel encs s :
  Forall (λ e, char_free c e = true) encs →
  char_free c (trim_left_any fuel encs s) = true → char_free c s = true.
Proof.
  intros Hencs. revert s. induction fuel as [|fuel IH]; intros s; simpl; [done|].
  destruct (filter _ encs) as [|e l] eqn:Hf; [done|].
  assert (He : e ∈ filter (λ e, HasPrefix s e = true) encs) by (rewrite Hf; set_solver).
  apply list_elem_of_filter in He as [[t ->]%HasPrefix_spec Hin].
  rewrite str_drop_app. intros Ht%IH. apply char_free_app. split; [|done].
  rewrite Forall_forall in Hencs. auto.
Qed.

Lemma TrimSpace_empty_free c s :
  Forall (λ e, char_free c e = true) space_encodings → TrimSpace s = "" → char_free c s = true.
Proof.
  intros Hsp Ht. unfold TrimSpace in Ht.
  assert (Hrev : Forall (λ e, char_free c e = true) (map str_rev space_encodings)).
  { apply Forall_forall. intros e (e' & -> & Hin)%elem_of_map_list. rewrite Forall_forall in Hsp.
    by apply str_rev_free, Hsp. }
  set (left := trim_left_any _ space_encodings s) in *.
  assert (Hleft : char_free c left = true).
  { apply str_rev_free. eapply (trim_left_any_free _ _ _ _ Hrev).
    apply str_rev_free. rewrite Ht. done. }
  exact (trim_left_any_free _ _ _ _ Hsp Hleft).
Qed.

Lemma blank_codings header : TrimSpace header = "" → codings header = [].
Proof.
  intros Ht. unfold codings. rewrite Split_free.
  - simpl. unfold parse_coding. by rewrite Ht.
  - apply TrimSpace_empty_free; [|done]. unfold space_encodings. repeat constructor.
Qed.

Lemma fzero_le f : nonneg f → fleb fzero f = true.
Proof.
  unfold nonneg, fleb, scaled. intros Hf. simpl. apply Z.leb_le.
  apply Z.mul_nonneg_nonneg; [done|]. apply Z.pow_nonneg. lia.
Qed.

Lemma parse_parameters_nonneg params q q' :
  nonneg q → parse_parameters q params = Some q' → nonneg q'.
Proof.
  revert q. induction params as [|p params IH]; intros q Hq; simpl; [by intros [= <-]|].
  destruct (Cut (TrimSpace p) "=") as [[name value] found]. destruct (negb _); [by apply IH|].
  unfold parse_qvalue. destruct (ParseFloat (TrimSpace value)) as [[neg f| |]|] eqn:Hp; try done.
  destruct (_ || _ || _); [done|]. apply IH. by eapply ParseFloat_nonneg.
Qed.

Lemma codings_nonneg header token q : (token, q) ∈ codings header → nonneg q.
Proof.
  unfold codings. intros (part & _ & Hp)%list_elem_of_omap. unfold parse_coding in Hp.
  destruct (parse_parameters fone _) as [q'|] eqn:Hq; [|done].
  destruct (String.eqb _ ""); [done|]. injection Hp as _ <-.
  by eapply parse_parameters_nonneg, Hq.
Qed.

(** ** The table of qualities *)

Definition best_of (l : list (string * float64)) (token : string) (q : float64) : Prop :=
  (token, q) ∈ l ∧ ∀ q', (token, q') ∈ l → fleb q' q = true.

Lemma add_coding_best l qualities token q coding :
  (∀ t r, qualities !! t = Some r → best_of l t r) →
  (∀ t, qualities !! t = None → ∀ r, (t, r) ∉ l) →
  (add_coding qualities coding !! token = Some q → best_of (l ++ [coding]) token q) ∧
  (add_coding qualities coding !! token = None → ∀ r, (token, r) ∉ l ++ [coding]).
Proof.
  intros Hbest Hnone. destruct coding as [t r]. unfold add_coding, best_of.
  destruct (decide (token = t)) as [->|Hne].
  - destruct (qualities !! t) as [c|] eqn:Hc.
    + destruct (Hbest _ _ Hc) as [Hin Hmax]. destruct (fleb r c) eqn:Hle.
      * rewrite Hc. split; [|done]. intros [= <-]. split; [set_solver|].
        intros q' [?|[= ->]%list_elem_of_singleton]%elem_of_app; auto.
      * rewrite lookup_insert_eq. split; [|done]. intros [= <-]. split; [set_solver|].
        intros q' [Hq'|[= ->]%list_elem_of_singleton]%elem_of_app; [|apply fleb_refl].
        apply fleb_trans with c; [by apply Hmax|]. destruct (fleb_total r c); congruence.
    + rewrite lookup_insert_eq. split; [|done]. intros [= <-]. split; [set_solver|].
      intros q' [Hq'|[= ->]%list_elem_of_singleton]%elem_of_app; [|apply fleb_refl].
      by destruct (Hnone _ Hc q').
  - assert (Hsame : ∀ m : gmap string float64, (∀ x, m = <[t := x]> qualities ∨ m = qualities → m !! token = qualities !! token)).
    { intros m x [->| ->]; [by rewrite lookup_insert_ne|done]. }
    assert (Hlook : (match qualities !! t with
      | Some current => if fleb r current then qualities else <[t := r]> qualities
      | None => <[t := r]> qualities end) !! token = qualities !! token).
    { apply (Hsame _ r). destruct (qualities !! t); [case_goal|]; auto. }
    rewrite Hlook. split.
    + intros Hq%Hbest. destruct Hq as [? Hmax]. split; [set_solver|].
      intros q' [?|[= -> _]%list_elem_of_singleton]%elem_of_app; [by apply Hmax|done].
    + intros Hn q' [Hin|[= -> _]%list_elem_of_singleton]%elem_of_app; [by eapply Hnone|done].
Qed.

Lemma qualities_spec l :
  (∀ t r, fold_left add_coding l ∅ !! t = Some r → best_of l t r) ∧
  (∀ t, fold_left add_coding l ∅ !! t = None → ∀ r, (t, r) ∉ l).
Proof.
  induction l as [|coding l [IHs IHn]] using rev_ind.
  - simpl. split; intros t; rewrite lookup_empty; [done|]. intros _ r. apply not_elem_of_nil.
  - rewrite fold_left_app. simpl. split; intros t.
    + intros r. by apply add_coding_best.
    + by eapply (add_coding_best l _ t fzero).
Qed.

Lemma fold_parts parts m :
  fold_left add_part parts m = fold_left add_coding (omap parse_coding parts) m.
Proof.
  revert m. induction parts as [|p parts IH]; intros m; csimpl; [done|].
  rewrite IH. unfold add_part. by destruct (parse_coding p).
Qed.

Definition header_qualities (header : string) : gmap string float64 :=
  fold_left add_part (Split header ",") ∅.

Lemma header_quality header token :
  match header_qualities header !! token with
  | Some q => best header token q
  | None => ¬ named header token
  end.
Proof.
  unfold header_qualities. rewrite fold_parts. fold (codings header).
  destruct (qualities_spec (codings header)) as [Hs Hn].
  destruct (_ !! token) eqn:E; [by apply Hs|]. intros [q Hq]. by eapply Hn.
Qed.

Lemma best_named header token q : best header token q → named header token.
Proof. intros [? _]. by exists q. Qed.

Lemma best_positive header token q :
  best header token q → positive q ↔ ∃ q', (token, q') ∈ codings header ∧ positive q'.
Proof.
  intros [Hin Hmax]. split; [eauto|]. intros (q' & Hq' & Hpos). unfold positive in *.
  rewrite fltb_iff in *. specialize (Hmax _ Hq'). apply not_true_iff_false. intros Hle.
  pose proof (fleb_trans _ _ _ Hmax Hle). congruence.
Qed.

Lemma resolve_acceptable header token :
  match resolve (header_qualities header) token with
  | Some q => weight header token q ∧ (positive q ↔ acceptable header token) ∧ nonneg q
  | None => ¬ named header token ∧ ¬ named header "*"
  end.
Proof.
  unfold resolve, weight, acceptable.
  pose proof (header_quality header token) as Ht. pose proof (header_quality header "*") as Hw.
  destruct (header_qualities header !! token) as [q|].
  - split; [by left|]. split; [|by eapply codings_nonneg, Ht].
    rewrite (best_positive _ _ _ Ht). pose proof (best_named _ _ _ Ht). tauto.
  - destruct (header_qualities header !! "*") as [q|]; [|done].
    split; [by right|]. split; [|by eapply codings_nonneg, Hw].
    rewrite (best_positive _ _ _ Hw). split; [by right|].
    intros [(q' & Hq' & _)|[_ ?]]; [|done]. destruct Ht. by exists q'.
Qed.

Lemma positive_iff q : nonneg q → positive q ↔ feqb q fzero = false.
Proof.
  intros Hq. unfold positive. rewrite fltb_iff. unfold feqb. rewrite (fzero_le _ Hq), andb_true_r. done.
Qed.

(** ** Sorting *)

Lemma insert_preference_perm p l : insert_preference p l ≡ₚ p :: l.
Proof.
  induction l as [|q l IH]; simpl; [done|]. case_goal; [|done]. rewrite IH. constructor.
Qed.

Lemma sort_preferences_perm l : sort_preferences l ≡ₚ l.
Proof. induction l as [|p l IH]; simpl; [done|]. by rewrite insert_preference_perm, IH. Qed.

Lemma sort_two p q :
  sort_preferences [p; q] = if fltb p.2 q.2 then [q; p] else [p; q].
Proof. done. Qed.

Lemma elem_of_preferences header e q :
  (e, q) ∈ omap (preference (header_qualities header)) encodings ↔
  e ∈ encodings ∧ resolve (header_qualities header) e = Some q ∧ acceptable header e.
Proof.
  rewrite list_elem_of_omap. unfold preference. split.
  - intros (e' & He & Hp). pose proof (resolve_acceptable header e') as Hr.
    destruct (resolve (header_qualities header) e') as [q'|] eqn:Hq; [|done].
    destruct (feqb q' fzero) eqn:Hz; [done|]. injection Hp as -> ->.
    destruct Hr as (_ & Hpos & Hnn). split; [done|]. split; [done|]. by apply Hpos, positive_iff.
  - intros (He & Hq & Ha). exists e. split; [done|]. rewrite Hq.
    pose proof (resolve_acceptable header e) as Hr. rewrite Hq in Hr. destruct Hr as (_ & Hpos & Hnn).
    apply Hpos, positive_iff in Ha as ->; done.
Qed.

Lemma parse_unfold header :
  encodings_ (parseAcceptEncoding header) =
    map fst (sort_preferences (omap (preference (header_qualities header)) encodings)) ∧
  identity (parseAcceptEncoding header) =
    match resolve (header_qualities header) "identity" with
    | None => true
    | Some quality => fltb fzero quality
    end.
Proof.
  unfold parseAcceptEncoding. destruct (String.eqb_spec (TrimSpace header) "") as [Ht|]; [|done].
  apply blank_codings in Ht. unfold header_qualities. rewrite fold_parts.
  fold (codings header). rewrite Ht. done.
Qed.

(** ** Properties *)

Lemma parse_acceptable (header : string) :
  let accepted := parseAcceptEncoding header in
  NoDup (encodings_ accepted) ∧
  (∀ e, e ∈ encodings_ accepted ↔ e ∈ encodings ∧ acceptable header e) ∧
  (identity accepted = true ↔
   acceptable header "identity" ∨ ¬ named header "identity" ∧ ¬ named header "*").
Proof.
  destruct (parse_unfold header) as [Henc Hid]. cbn zeta. rewrite Henc, Hid. split; [|split].
  - rewrite sort_preferences_perm.
    unfold encodings. cbn [omap list_omap].
    unfold preference. by repeat case_match; simplify_eq/=; repeat constructor; set_solver.
  - intros e. rewrite elem_of_map_list. setoid_rewrite sort_preferences_perm. split.
    + intros ([e' q] & -> & Hin). apply elem_of_preferences in Hin as (? & _ & ?). done.
    + intros [He Ha]. pose proof (resolve_acceptable header e) as Hr.
      destruct (resolve (header_qualities header) e) as [q|] eqn:Hq.
      * exists (e, q). split; [done|]. by apply elem_of_preferences.
      * exfalso. destruct Hr as [Hn Hs], Ha as [(q & Hin & _)|[_ (q & Hin & _)]].
        -- apply Hn. by exists q.
        -- apply Hs. by exists q.
  - pose proof (resolve_acceptable header "identity") as Hr.
    destruct (resolve (header_qualities header) "identity") as [q|].
    + destruct Hr as (Hw & Hpos & _). fold (positive q). rewrite Hpos. split; [by left|].
      intros [?|[Hn Hs]]; [done|]. exfalso. destruct Hw as [Hb|[_ Hb]].
      * apply Hn. by eapply best_named.
      * apply Hs. by eapply best_named.
    + split; [by right|done].
Qed.

(** C38: exactly the acceptable codings are offered.  For every header, a stored encoding
    is among the accepted ones, once, exactly when an entry names it with a positive
    quality, or none names it and a "*" entry has a positive quality; and the unencoded
    form may be served exactly when the same holds of "identity", or when neither
    "identity" nor "*" has an entry. *)
Theorem parseAcceptEncoding_acceptable (header : string) :
  let accepted := parseAcceptEncoding header in
  NoDup (encodings_ accepted) ∧
  (∀ e, e ∈ encodings_ accepted ↔ e ∈ encodings ∧ acceptable header e) ∧
  (identity accepted = true ↔
   acceptable header "identity" ∨ ¬ named header "identity" ∧ ¬ named header "*").
Proof. apply parse_acceptable. Qed.

Lemma weight_resolve header token q :
  resolve (header_qualities header) token = Some q → ∀ q', weight header token q' →
  fleb q q' = true ∧ fleb q' q = true.
Proof.
  intros Hq q' Hw'. pose proof (resolve_acceptable header token) as Hr. rewrite Hq in Hr.
  destruct Hr as (Hw & _). destruct Hw as [Hb|[Hn Hb]], Hw' as [Hb'|[Hn' Hb']].
  - destruct Hb, Hb'. auto.
  - destruct Hn'. by eapply best_named.
  - destruct Hn. by eapply best_named.
  - destruct Hb, Hb'. auto.
Qed.

(** The preferred coding comes first.  When both encodings are accepted, the weight
    of the first one, the best quality of its entries or else of the "*" entries, is at
    least that of the second, and Brotli comes first on equal weights. *)
Theorem parseAcceptEncoding_preference (header : string) e1 e2 q1 q2 :
  encodings_ (parseAcceptEncoding header) = [e1; e2] →
  weight header e1 q1 → weight header e2 q2 →
  fleb q2 q1 = true ∧ (fleb q1 q2 = true → e1 = EncodingBrotli).
Proof.
  destruct (parse_unfold header) as [-> _]. intros Hl Hw1 Hw2.
  assert (Hpref : ∃ qb qg, omap (preference (header_qualities header)) encodings =
      [(EncodingBrotli, qb); (EncodingGzip, qg)] ∧
    resolve (header_qualities header) EncodingBrotli = Some qb ∧
    resolve (header_qualities header) EncodingGzip = Some qg).
  { revert Hl. unfold encodings. cbn [omap list_omap]. unfold preference.
    destruct (resolve _ EncodingBrotli) as [qb|]; destruct (resolve _ EncodingGzip) as [qg|];
      simpl; repeat case_match; simplify_eq/=; try done. eauto. }
  destruct Hpref as (qb & qg & Hpref & Hqb & Hqg). rewrite Hpref, sort_two in Hl.
  destruct (fltb _ _) eqn:Hlt; simpl in Hl; injection Hl as <- <-; simpl in Hlt.
  - destruct (weight_resolve _ _ _ Hqg _ Hw1) as [Hg Hg'], (weight_resolve _ _ _ Hqb _ Hw2) as [Hb Hb'].
    apply fltb_iff in Hlt. split.
    + destruct (fleb_total qg qb) as [|Hle]; [congruence|].
      by apply (fleb_trans _ qb), (fleb_trans _ qg).
    + intros Hle. exfalso. assert (fleb qg qb = true); [|congruence].
      by apply (fleb_trans _ q1), (fleb_trans _ q2).
  - destruct (weight_resolve _ _ _ Hqb _ Hw1) as [Hb Hb'], (weight_resolve _ _ _ Hqg _ Hw2) as [Hg Hg'].
    split; [|done]. unfold fltb in Hlt. apply negb_false_iff in Hlt.
    by apply (fleb_trans _ qg), (fleb_trans _ qb).
Qed.

Lemma parseAcceptEncoding_preference_witness :
  encodings_ (parseAcceptEncoding "gzip, br;q=0.5, identity;q=0") = [EncodingGzip; EncodingBrotli] ∧
  identity (parseAcceptEncoding "gzip, br;q=0.5, identity;q=0") = false ∧
  fleb {| mant := 4503599627370496; expo := -53 |} fone = true.
Proof.
  assert (E : encodings_ (parseAcceptEncoding "gzip, br;q=0.5, identity;q=0") = [EncodingGzip; EncodingBrotli])
    by now vm_compute.
  split; [exact E|]. split; [now vm_compute|].
  assert (Hc : codings "gzip, br;q=0.5, identity;q=0" =
    [("gzip", fone); ("br", {| mant := 4503599627370496; expo := -53 |}); ("identity", fzero)])
    by now vm_compute.
  refine (proj1 (parseAcceptEncoding_preference _ _ _ fone _ E _ _)); left; unfold best; rewrite Hc.
  - split; [apply elem_of_cons; left; reflexivity|].
    intros q' [[= ->]|[[=]|[[=]|[]%elem_of_nil]%elem_of_cons]%elem_of_cons]%elem_of_cons.
    now vm_compute.
  - split; [apply elem_of_cons; right; apply elem_of_cons; left; reflexivity|].
    intros q' [[=]|[[= ->]|[[=]|[]%elem_of_nil]%elem_of_cons]%elem_of_cons]%elem_of_cons.
    now vm_compute.
Defined.
