(* ===== verification/TokenStore.v ===== *)
(** API tokens (internal/auth/token-store.go): the entries, and the interface of the
    stores that keep them.

    An instant is the number of nanoseconds since Go's zero time, so that the zero
    value of a [time.Time] is 0.  [TokenStoreLaws] is what a store promises to the
    authentication manager, in terms of [ts_tokens], the entries by ID. *)
From S2P Require Import Prelude GoStrings.
From Stdlib Require Import Ascii.

Definition time := Z.
Bind Scope Z_scope with time.

Definition IsZero (t : time) : bool := (t =? 0)%Z.
Definition Before (t u : time) : bool := (t <? u)%Z.
Definition Hour : Z := 3600000000000.

Record TokenEntry := {
  ID : string;
  Name : string;
  TokenHash : string;
  CreatedAt : time;
  ExpiresAt : time;
  RevokedAt : time;
}.

#[export] Instance TokenEntry_eq_dec : EqDecision TokenEntry.
Proof. solve_decision. Defined.

Definition IsRevoked (e : TokenEntry) : bool := negb (IsZero (RevokedAt e)).

Definition IsExpired (now : time) (e : TokenEntry) : bool :=
  negb (IsZero (ExpiresAt e)) && Before (ExpiresAt e) now.

Definition IsValid (now : time) (e : TokenEntry) : bool :=
  negb (IsRevoked e) && negb (IsExpired now e).

(** The entry after [entry.RevokedAt = time.Now().UTC()]. *)
Definition revoked_at (now : time) (e : TokenEntry) : TokenEntry :=
  {| ID := ID e; Name := Name e; TokenHash := TokenHash e; CreatedAt := CreatedAt e;
     ExpiresAt := ExpiresAt e; RevokedAt := now |}.

(** The newest entries first: the order of the [slices.SortFunc] calls of the stores. *)
Definition newer (a b : TokenEntry) : Prop := (CreatedAt b ≤ CreatedAt a)%Z.

#[export] Instance newer_dec : RelDecision newer.
Proof. intros a b. apply Z.le_dec. Defined.

#[export] Instance newer_total : Total newer.
Proof. intros a b. unfold newer. lia. Qed.

#[export] Instance newer_trans : Transitive newer.
Proof. intros a b c. unfold newer. lia. Qed.

Definition sort_newest (l : list TokenEntry) : list TokenEntry := merge_sort newer l.

(** ** The interface *)

(** [ts_Purge] is what the store does on its own as time passes: the background
    sweeps of the file and PostgreSQL stores, the eviction of the keys of the Redis store. *)
Class TokenStore (T : Type) := {
  ts_Save : T → TokenEntry → option string * T;
  ts_GetByHash : T → string → option TokenEntry * T;
  ts_List : T → list TokenEntry * T;
  ts_Revoke : T → time → string → bool * T;
  ts_Delete : T → string → bool * T;
  ts_Purge : T → time → T;
}.

(** No stored entry has the ID or the hash of [e]: IDs are UUIDs and hashes are
    digests of random tokens. *)
Definition fresh_token (tokens : gmap string TokenEntry) (e : TokenEntry) : Prop :=
  tokens !! ID e = None ∧ ∀ id e', tokens !! id = Some e' → TokenHash e' ≠ TokenHash e.

(** encoding/json writes the instants of the years up to 9999. *)
Definition json_time (t : time) : bool := bool_decide (0 ≤ t < 315537897600000000000)%Z.

Definition Microsecond : Z := 1000.
Definition Millisecond : Z := 1000000.

(** The clock shows an instant that every store can keep and that is not the zero one. *)
Definition clock_ok (now : time) : bool := json_time now && bool_decide (Microsecond ≤ now)%Z.

(** What a store keeps of an entry: a text column or a JSON string keeps valid UTF-8,
    and a PostgreSQL timestamp keeps microseconds. *)
Record stored_as (e e' : TokenEntry) : Prop := {
  stored_ID : ID e' = ID e;
  stored_Name : ValidString (Name e) = true → Name e' = Name e;
  stored_TokenHash : TokenHash e' = TokenHash e;
  stored_RevokedAt : RevokedAt e' = 0%Z ↔ RevokedAt e = 0%Z;
  stored_no_expiry : ExpiresAt e' = 0%Z ↔ ExpiresAt e = 0%Z;
  stored_ExpiresAt : (ExpiresAt e - Microsecond < ExpiresAt e' ≤ ExpiresAt e)%Z;
}.

(** A store may drop entries by itself, but only entries that can expire. *)
Definition lapsed (m m' : gmap string TokenEntry) : Prop :=
  m' ⊆ m ∧ ∀ id e, m !! id = Some e → m' !! id = None → ExpiresAt e ≠ 0%Z.

(** The instants of a machine and of the service behind a store agree up to this bound. *)
Definition purge_slack : Z := 2 * Millisecond.

Class TokenStoreLaws (T : Type) `{TokenStore T} := {
  ts_tokens : T → gmap string TokenEntry;
  ts_inv : T → Prop;
  (** The service behind the store answers at once from here on, and its indexes are complete. *)
  ts_reliable : T → Prop;
  (** The entry is one the store can keep, and its ID and hash are in none of its indexes. *)
  ts_fresh : T → TokenEntry → Prop;
  ts_inv_ID t id e : ts_inv t → ts_tokens t !! id = Some e → ID e = id;
  ts_inv_hash t id1 id2 e1 e2 :
    ts_inv t → ts_tokens t !! id1 = Some e1 → ts_tokens t !! id2 = Some e2 →
    TokenHash e1 = TokenHash e2 → id1 = id2;
  ts_fresh_token t e : ts_inv t → ts_fresh t e → fresh_token (ts_tokens t) e;
  ts_Save_spec t e err t' :
    ts_inv t → ts_fresh t e → ts_Save t e = (err, t') →
    ts_inv t' ∧ (ts_reliable t → ts_reliable t') ∧
    ∃ m, lapsed (ts_tokens t) m ∧ (ts_reliable t → m = ts_tokens t) ∧
      ((∃ e', stored_as e e' ∧ ts_tokens t' = <[ID e := e']> m) ∨ err ≠ None ∧ ts_tokens t' = m);
  ts_GetByHash_spec t hash r t' :
    ts_inv t → ts_GetByHash t hash = (r, t') →
    ts_inv t' ∧ (ts_reliable t → ts_reliable t' ∧ ts_tokens t' = ts_tokens t) ∧
    lapsed (ts_tokens t) (ts_tokens t') ∧
    (∀ e, r = Some e → ∃ id, ts_tokens t !! id = Some e ∧ TokenHash e = hash) ∧
    (ts_reliable t → r = None →
       ∀ id e, ts_tokens t !! id = Some e → RevokedAt e = 0%Z → TokenHash e ≠ hash);
  ts_List_spec t l t' :
    ts_inv t → ts_List t = (l, t') →
    ts_inv t' ∧ (ts_reliable t → ts_reliable t' ∧ ts_tokens t' = ts_tokens t) ∧
    lapsed (ts_tokens t) (ts_tokens t') ∧
    Sorted newer l ∧ (∀ e, e ∈ l → ∃ id, ts_tokens t !! id = Some e) ∧
    (ts_reliable t → l ≡ₚ (map_to_list (ts_tokens t)).*2);
  ts_Revoke_spec t now id found t' :
    ts_inv t → clock_ok now = true → ts_Revoke t now id = (found, t') →
    ts_inv t' ∧ (ts_reliable t → ts_reliable t') ∧
    ∃ m, lapsed (ts_tokens t) m ∧ (ts_reliable t → m = ts_tokens t) ∧
      ((∃ e e', m !! id = Some e ∧ stored_as (revoked_at now e) e' ∧ ts_tokens t' = <[id := e']> m ∧
         (ts_reliable t → found = true)) ∨
       found = false ∧ ts_tokens t' = m ∧ (ts_reliable t → m !! id = None));
  ts_Delete_spec t id found t' :
    ts_inv t → ts_Delete t id = (found, t') →
    ts_inv t' ∧ (ts_reliable t → ts_reliable t') ∧
    ∃ m, lapsed (ts_tokens t) m ∧ (ts_reliable t → m = ts_tokens t) ∧
      (is_Some (m !! id) ∧ ts_tokens t' = delete id m ∧ (ts_reliable t → found = true) ∨
       found = false ∧ ts_tokens t' = m ∧ (ts_reliable t → m !! id = None));
  ts_Purge_spec t now :
    ts_inv t →
    ts_inv (ts_Purge t now) ∧ (ts_reliable t → ts_reliable (ts_Purge t now)) ∧
    lapsed (ts_tokens t) (ts_tokens (ts_Purge t now)) ∧
    (ts_reliable t → ∀ id e, ts_tokens t !! id = Some e → (now + purge_slack ≤ ExpiresAt e)%Z →
       ts_tokens (ts_Purge t now) !! id = Some e);
}.

(** ** Lemmas *)

Lemma IsValid_spec now e :
  IsValid now e = true ↔ RevokedAt e = 0%Z ∧ (ExpiresAt e = 0%Z ∨ (now ≤ ExpiresAt e)%Z).
Proof.
  unfold IsValid, IsRevoked, IsExpired, IsZero, Before.
  destruct (Z.eqb_spec (RevokedAt e) 0), (Z.eqb_spec (ExpiresAt e) 0),
    (Z.ltb_spec (ExpiresAt e) now); simpl; split; intros; naive_solver lia.
Qed.

Lemma stored_as_refl e : stored_as e e.
Proof. split; try done. unfold Microsecond. lia. Qed.

Lemma lapsed_refl m : lapsed m m.
Proof. split; [done|]. intros. congruence. Qed.

Lemma lapsed_trans m1 m2 m3 : lapsed m1 m2 → lapsed m2 m3 → lapsed m1 m3.
Proof.
  intros [H12 Hx12] [H23 Hx23]. split; [by etrans|]. intros id e He Hnone.
  destruct (m2 !! id) as [e'|] eqn:He'; [|by eapply Hx12].
  assert (e' = e) as -> by (pose proof (lookup_weaken _ _ _ _ He' H12); congruence). by eapply Hx23.
Qed.

Lemma lapsed_lookup m m' id e : lapsed m m' → m' !! id = Some e → m !! id = Some e.
Proof. intros [H _] He. by eapply lookup_weaken. Qed.

Lemma lapsed_delete m m' id : lapsed m m' → lapsed (delete id m) (delete id m').
Proof.
  intros [H Hx]. split; [by apply delete_mono|]. intros id' e [Hne He]%lookup_delete_Some.
  rewrite lookup_delete_ne by done. by apply Hx.
Qed.

Lemma clock_ok_nonzero now : clock_ok now = true → now ≠ 0%Z.
Proof. unfold clock_ok, Microsecond. intros [_ ?%bool_decide_eq_true]%andb_true_iff. lia. Qed.

Lemma revoked_at_invalid now now' e : now ≠ 0%Z → IsValid now' (revoked_at now e) = false.
Proof.
  intros Hnow. destruct (IsValid now' (revoked_at now e)) eqn:Hv; [|done].
  apply IsValid_spec in Hv as [Hr _]. done.
Qed.

Lemma expired_invalid now e : IsExpired now e = true → IsValid now e = false.
Proof. unfold IsValid. intros ->. by rewrite andb_false_r. Qed.

Lemma sort_newest_sorted l : Sorted newer (sort_newest l).
Proof. apply Sorted_merge_sort, _. Qed.

Lemma sort_newest_perm l : sort_newest l ≡ₚ l.
Proof. apply merge_sort_Permutation. Qed.
