(* ===== verification/FileStore.v ===== *)
(** The file-backed token store (internal/auth/file-token-store.go).

    The two maps hold pointers to shared entries, so they are maps to locations of
    a heap: Save and load put one pointer in both maps, and Revoke, which writes
    through the pointer of [byID], is seen through [byHash].  The disk is a map of
    files by path; what the machine decides (the iteration order of a map, random
    bytes, the suffix of the temporary file, the faults of each system call) is read
    from the environment, an [env] per flush or listing.  HKDF and AES-GCM are the
    class [TokenCrypto], and encoding/json's form of a token list the class [TokensCodec]. *)
From S2P Require Import Prelude GoStrings TokenStore.
From Stdlib Require Import Ascii.

Class TokenCrypto := {
  (** The bytes read from hkdf.New(sha256.New, secret, salt, info). *)
  hkdf_read : string → string → string → nat → string + string;
  (** gcm.Seal and gcm.Open without additional data, by key and nonce. *)
  gcm_Seal : string → string → string → string;
  gcm_Open : string → string → string → string + string;
}.

Class TokenCryptoLaws `{TokenCrypto} := {
  hkdf_length secret salt info n k : hkdf_read secret salt info n = inr k → String.length k = n;
  gcm_Open_Seal k nonce plain : gcm_Open k nonce (gcm_Seal k nonce plain) = inr plain;
}.

Class TokensCodec := {
  tokens_Marshal : list TokenEntry → string + string;
  tokens_Unmarshal : string → string + list TokenEntry;
}.

Definition valid_text (e : TokenEntry) : bool :=
  ValidString (ID e) && ValidString (Name e) && ValidString (TokenHash e).

Definition storable (e : TokenEntry) : bool :=
  valid_text e && json_time (CreatedAt e) && json_time (ExpiresAt e) && json_time (RevokedAt e).

Class TokensCodecLaws `{TokensCodec} := {
  tokens_Marshal_ok l : Forall (λ e, storable e = true) l → ∃ data, tokens_Marshal l = inr data;
  tokens_roundtrip l data :
    tokens_Marshal l = inr data → Forall (λ e, valid_text e = true) l →
    tokens_Unmarshal data = inr l;
}.

(** ** The machine *)

Notation Disk := (gmap string string).

(** What the machine decides during one operation: [Some] and [inl] are errors. *)
Record env := {
  ev_order : list nat;
  ev_nonce : string + string;
  ev_temp : string + string;
  ev_write : option (nat * string);
  ev_sync : option string;
  ev_close : option string;
  ev_rename : option string;
  ev_remove_fails : bool;
}.

(** An iteration order: the entries whose positions are drawn come first. *)
Fixpoint pick {A} (order : list nat) (l : list A) : list A :=
  match order with
  | [] => l
  | c :: order =>
      match l !! (c mod length l)%nat with
      | Some x => x :: pick order (delete (c mod length l)%nat l)
      | None => l
      end
  end.

(** [filepath.Dir] on Unix. *)
Fixpoint dir_part (s : string) : string :=
  match s with
  | "" => ""
  | String a t => if Contains s "/" then String a (dir_part t) else ""
  end.

Definition filepath_Dir (path : string) : string := path_Clean (dir_part path).

(** The name os.CreateTemp builds for the pattern [".gimme-tokens-*.tmp"]. *)
Definition temp_name (path random : string) : string :=
  let dir := filepath_Dir path in
  (if HasSuffix dir "/" then dir else dir +:+ "/") +:+ ".gimme-tokens-" +:+ random +:+ ".tmp".

Definition hkdfInfo : string := "gimme-file-token-store-v1".

(** ** The store *)

Definition loc := nat.

Record FileTokenStore := {
  byID : gmap string loc;
  byHash : gmap string loc;
  heap : gmap loc TokenEntry;
  next : loc;
  closed : bool;
  filePath : string;
  key : string;
  disk : Disk;
  moment : nat;
}.

Section file_store.
Context `{TokenCrypto} `{TokensCodec}.
(** The environment of each moment of the machine. *)
Variable machine : nat → env.

Implicit Types s : FileTokenStore.

Definition with_maps s (ids hashes : gmap string loc) (h : gmap loc TokenEntry) (n : loc) : FileTokenStore :=
  {| byID := ids; byHash := hashes; heap := h; next := n; closed := closed s; filePath := filePath s;
     key := key s; disk := disk s; moment := moment s |}.

Definition with_disk s (d : Disk) : FileTokenStore :=
  {| byID := byID s; byHash := byHash s; heap := heap s; next := next s; closed := closed s;
     filePath := filePath s; key := key s; disk := d; moment := S (moment s) |}.

Definition deriveAESKey (masterSecret : string) : string + string :=
  hkdf_read masterSecret "" hkdfInfo 32.

(** [aes.NewCipher] accepts keys of 16, 24 and 32 bytes. *)
Definition NewCipher (k : string) : option string :=
  if bool_decide (String.length k ∈ [16; 24; 32]) then None
  else Some "crypto/aes: invalid key size"%string.

Definition NonceSize : nat := 12.

Definition encrypt (k : string) (nonce : string + string) (plain : string) : string + string :=
  match NewCipher k, nonce with
  | Some err, _ => inl err
  | None, inl err => inl err
  | None, inr nonce => inr (nonce +:+ gcm_Seal k nonce plain)
  end.

Definition decrypt (k data : string) : string + string :=
  match NewCipher k with
  | Some err => inl err
  | None =>
      if (String.length data <? NonceSize)%nat then inl "ciphertext too short"%string
      else gcm_Open k (str_take NonceSize data) (str_drop NonceSize data)
  end.

(** [cp := *e; s.byID[e.ID] = &cp; s.byHash[e.TokenHash] = &cp] *)
Definition put_entry s (e : TokenEntry) : FileTokenStore :=
  with_maps s (<[ID e := next s]> (byID s)) (<[TokenHash e := next s]> (byHash s))
    (<[next s := e]> (heap s)) (S (next s)).

(** The copies of the entries of [byID], in the order of the iteration. *)
Definition entries s : list TokenEntry :=
  pick (ev_order (machine (moment s))) (omap (λ '(_, l), heap s !! l) (map_to_list (byID s))).

(** The writes of flush: its error and the contents of the disk after each system
    call, the last one first. *)
Definition write_file (ev : env) (path data : string) (d : Disk) : option string * list Disk :=
  match ev_temp ev with
  | inl err => (Some ("create temp file: " +:+ err), [d])
  | inr random =>
      let tmp := temp_name path random in
      if bool_decide (is_Some (d !! tmp)) then (Some "create temp file: file exists"%string, [d])
      else
        let d1 := <[tmp := ""]> d in
        let Remove (d : Disk) := if ev_remove_fails ev then d else delete tmp d in
        match ev_write ev with
        | Some (n, err) =>
            let d2 := <[tmp := str_take n data]> d1 in
            (Some ("write temp file: " +:+ err), [Remove d2; d2; d1; d])
        | None =>
            let d2 := <[tmp := data]> d1 in
            match ev_sync ev, ev_close ev, ev_rename ev with
            | Some err, _, _ => (Some ("sync temp file: " +:+ err), [Remove d2; d2; d1; d])
            | None, Some err, _ => (Some ("close temp file: " +:+ err), [Remove d2; d2; d1; d])
            | None, None, Some err => (Some ("rename: " +:+ err), [Remove d2; d2; d1; d])
            | None, None, None => (None, [<[path := data]> (delete tmp d2); d2; d1; d])
            end
        end
  end.

(** The bytes flush writes. *)
Definition flush_data s : string + string :=
  match tokens_Marshal (entries s) with
  | inl err => inl ("marshal: " +:+ err)
  | inr plain =>
      match encrypt (key s) (ev_nonce (machine (moment s))) plain with
      | inl err => inl ("encrypt: " +:+ err)
      | inr data => inr data
      end
  end.

Definition flush_trace s : option string * list Disk :=
  match flush_data s with
  | inl err => (Some err, [disk s])
  | inr data => write_file (machine (moment s)) (filePath s) data (disk s)
  end.

Definition flush s : option string * FileTokenStore :=
  let '(err, trace) := flush_trace s in (err, with_disk s (default (disk s) (head trace))).

(** [read_err] is an error of os.ReadFile other than a missing file. *)
Definition load (read_err : option string) s : string + FileTokenStore :=
  match read_err, disk s !! filePath s with
  | Some err, _ => inl err
  | None, None => inr s
  | None, Some data =>
      match decrypt (key s) data with
      | inl err => inl ("decrypt: " +:+ err)
      | inr plain =>
          match tokens_Unmarshal plain with
          | inl err => inl ("unmarshal: " +:+ err)
          | inr tokens => inr (foldl put_entry s tokens)
          end
      end
  end.

Definition NewFileTokenStore (masterSecret path : string) (read_err : option string)
    (d : Disk) (m : nat) : string + FileTokenStore :=
  match deriveAESKey masterSecret with
  | inl err => inl ("file-token-store: failed to derive key: " +:+ err)
  | inr k =>
      match load read_err
              {| byID := ∅; byHash := ∅; heap := ∅; next := 0%nat; closed := false; filePath := path;
                 key := k; disk := d; moment := m |} with
      | inl err => inl ("file-token-store: failed to load " +:+ Quote path +:+ ": " +:+ err)
      | inr s => inr s
      end
  end.

(** One round of the loop of purgeExpired, and whether it removed the entry. *)
Definition purge_entry (now : time) (acc : bool * FileTokenStore) (id : string) : bool * FileTokenStore :=
  let '(removed, s) := acc in
  match byID s !! id ≫= λ l, heap s !! l with
  | Some e =>
      if IsExpired now e
      then (true, with_maps s (delete id (byID s)) (delete (TokenHash e) (byHash s)) (heap s) (next s))
      else acc
  | None => acc
  end.

Definition purgeExpired s (now : time) : FileTokenStore :=
  let ids := pick (ev_order (machine (moment s))) (map_to_list (byID s)).*1 in
  let '(removed, s) := foldl (purge_entry now) (false, s) ids in
  if removed then (flush s).2 else s.

Definition Close s : FileTokenStore :=
  if closed s then s
  else
    {| byID := byID s; byHash := byHash s; heap := heap s; next := next s; closed := true;
       filePath := filePath s; key := key s; disk := disk s; moment := moment s |}.

(** A tick of the ticker of purgeLoop, which stops once the store is closed. *)
Definition purge_tick s (now : time) : FileTokenStore := if closed s then s else purgeExpired s now.

Definition Save s (entry : TokenEntry) : option string * FileTokenStore :=
  match flush (put_entry s entry) with
  | (Some err, s) => (Some ("file-token-store: Save flush: " +:+ err), s)
  | (None, s) => (None, s)
  end.

Definition GetByHash s (hash : string) : option TokenEntry :=
  byHash s !! hash ≫= λ l, heap s !! l.

Definition List s : list TokenEntry := sort_newest (entries s).

Definition Revoke s (now : time) (id : string) : bool * FileTokenStore :=
  match byID s !! id with
  | None => (false, s)
  | Some l =>
      (true, (flush (with_maps s (byID s) (byHash s) (alter (revoked_at now) l (heap s)) (next s))).2)
  end.

Definition Delete s (id : string) : bool * FileTokenStore :=
  match byID s !! id with
  | None => (false, s)
  | Some l =>
      let hashes := match heap s !! l with
                    | Some e => delete (TokenHash e) (byHash s)
                    | None => byHash s
                    end in
      (true, (flush (with_maps s (delete id (byID s)) hashes (heap s) (next s))).2)
  end.

End file_store.

(** ** The contents of a store *)

Definition tokens (s : FileTokenStore) : gmap string TokenEntry := omap (λ l, heap s !! l) (byID s).

(** The two maps hold the same pointers, each under the fields of its entry. *)
Record wf (s : FileTokenStore) : Prop := {
  wf_id id l : byID s !! id = Some l →
    ∃ e, heap s !! l = Some e ∧ ID e = id ∧ byHash s !! TokenHash e = Some l;
  wf_hash h l : byHash s !! h = Some l →
    ∃ e, heap s !! l = Some e ∧ TokenHash e = h ∧ byID s !! ID e = Some l;
  wf_next l : is_Some (heap s !! l) → (l < next s)%nat;
}.

Lemma pick_perm {A} order (l : list A) : pick order l ≡ₚ l.
Proof.
  revert l. induction order as [|c order IH]; intros l; [done|].
  cbn [pick]. destruct (l !! (c mod length l)%nat) as [x|] eqn:Hx; [|done].
  rewrite IH. symmetry. by apply delete_Permutation.
Qed.

Section contents.
Implicit Types s : FileTokenStore.

Lemma tokens_lookup s id e : tokens s !! id = Some e ↔ ∃ l, byID s !! id = Some l ∧ heap s !! l = Some e.
Proof. unfold tokens. rewrite lookup_omap, bind_Some. naive_solver. Qed.

Lemma tokens_ID s id e : wf s → tokens s !! id = Some e → ID e = id.
Proof. intros Hwf (l & Hl & He)%tokens_lookup. destruct (wf_id s Hwf id l Hl) as (e' & ? & ? & ?). congruence. Qed.

(** The pointer of an entry is the one both maps hold. *)
Lemma tokens_pointer s id e :
  wf s → tokens s !! id = Some e →
  ∃ l, heap s !! l = Some e ∧ byID s !! id = Some l ∧ byHash s !! TokenHash e = Some l.
Proof.
  intros Hwf (l & Hl & He)%tokens_lookup. destruct (wf_id s Hwf id l Hl) as (e' & ? & ? & ?).
  exists l. naive_solver congruence.
Qed.

Lemma tokens_hash s id1 id2 e1 e2 :
  wf s → tokens s !! id1 = Some e1 → tokens s !! id2 = Some e2 → TokenHash e1 = TokenHash e2 → id1 = id2.
Proof.
  intros Hwf H1 H2 Heq.
  destruct (tokens_pointer s id1 e1 Hwf H1) as (l1 & ? & ? & Hh1).
  destruct (tokens_pointer s id2 e2 Hwf H2) as (l2 & ? & ? & Hh2).
  rewrite Heq in Hh1. assert (l1 = l2) as -> by congruence. assert (e1 = e2) as -> by congruence.
  transitivity (ID e2); [symmetry|]; by apply (tokens_ID s).
Qed.

Lemma byID_tokens s id l : wf s → byID s !! id = Some l → is_Some (tokens s !! id).
Proof. intros Hwf Hl. destruct (wf_id s Hwf id l Hl) as (e & ? & _). exists e. apply tokens_lookup. eauto. Qed.

Lemma byID_None s id : wf s → byID s !! id = None ↔ tokens s !! id = None.
Proof.
  intros Hwf. split; intros Hn.
  - unfold tokens. by rewrite lookup_omap, Hn.
  - destruct (byID s !! id) as [l|] eqn:Hl; [|done].
    apply byID_tokens in Hl as [e He]; [|done]. congruence.
Qed.

Lemma GetByHash_iff s hash e :
  wf s → GetByHash s hash = Some e ↔ ∃ id, tokens s !! id = Some e ∧ TokenHash e = hash.
Proof.
  intros Hwf. unfold GetByHash. rewrite bind_Some. split.
  - intros (l & Hl & He). destruct (wf_hash s Hwf hash l Hl) as (e' & ? & ? & ?).
    exists (ID e). rewrite tokens_lookup. naive_solver congruence.
  - intros (id & Ht & <-). destruct (tokens_pointer s id e Hwf Ht) as (l & ? & _ & ?). eauto.
Qed.

Lemma with_disk_wf s d : wf s → wf (with_disk s d).
Proof. by intros []; split. Qed.

Lemma with_disk_tokens s d : tokens (with_disk s d) = tokens s.
Proof. done. Qed.

Lemma put_entry_wf s e : wf s → fresh_token (tokens s) e → wf (put_entry s e).
Proof.
  intros Hwf [Hid Hhash]. apply byID_None in Hid; [|done].
  assert (Hnext : ∀ l, is_Some (heap s !! l) → l ≠ next s) by (intros l ?%(wf_next s Hwf); lia).
  split; cbn.
  - intros id l [[<- <-]|[Hne Hl]]%lookup_insert_Some.
    + exists e. by rewrite !lookup_insert_eq.
    + destruct (wf_id s Hwf id l Hl) as (e' & He' & <- & Hh).
      exists e'. rewrite lookup_insert_ne by (apply not_eq_sym, Hnext; eauto).
      rewrite lookup_insert_ne; [done|]. apply not_eq_sym, (Hhash (ID e')), tokens_lookup. eauto.
  - intros h l [[<- <-]|[Hne Hl]]%lookup_insert_Some.
    + exists e. by rewrite !lookup_insert_eq.
    + destruct (wf_hash s Hwf h l Hl) as (e' & He' & <- & Hh).
      exists e'. rewrite !lookup_insert_ne; [done|..|apply not_eq_sym, Hnext; eauto].
      congruence.
  - intros l [e' [[<- <-]|[Hne Hl]]%lookup_insert_Some]; [lia|].
    assert (l < next s)%nat by (eapply wf_next; eauto). lia.
Qed.

Lemma put_entry_tokens s e : wf s → tokens (put_entry s e) = <[ID e := e]> (tokens s).
Proof.
  intros Hwf. apply map_eq. intros id. unfold tokens. cbn [byID heap put_entry with_maps].
  rewrite lookup_omap. destruct (decide (id = ID e)) as [->|Hne].
  - rewrite !lookup_insert_eq. cbn [mbind option_bind]. by rewrite lookup_insert_eq.
  - rewrite !lookup_insert_ne by done. rewrite lookup_omap.
    destruct (byID s !! id) as [l|] eqn:Hl; [|done]. cbn.
    rewrite lookup_insert_ne; [done|].
    destruct (wf_id s Hwf id l Hl) as (e' & He' & _).
    assert (l < next s)%nat by (eapply wf_next; eauto). lia.
Qed.

Lemma empty_wf path k d m :
  wf {| byID := ∅; byHash := ∅; heap := ∅; next := 0%nat; closed := false; filePath := path; key := k;
        disk := d; moment := m |}.
Proof. split; cbn; intros *; rewrite ?lookup_empty; [done|done|intros []; done]. Qed.

Lemma revoke_wf s now id l :
  wf s → byID s !! id = Some l →
  wf (with_maps s (byID s) (byHash s) (alter (revoked_at now) l (heap s)) (next s)).
Proof.
  intros Hwf Hl.
  assert (Halter : ∀ l' e, heap s !! l' = Some e →
    ∃ e', alter (revoked_at now) l (heap s) !! l' = Some e' ∧ ID e' = ID e ∧ TokenHash e' = TokenHash e).
  { intros l' e He. destruct (decide (l = l')) as [->|Hne].
    - exists (revoked_at now e). by rewrite lookup_alter_eq, He.
    - exists e. by rewrite lookup_alter_ne. }
  split; cbn.
  - intros id' l' Hl'. destruct (wf_id s Hwf id' l' Hl') as (e & He & <- & Hh).
    destruct (Halter l' e He) as (e' & ? & ? & Hhash'). exists e'. by rewrite Hhash'.
  - intros h l' Hl'. destruct (wf_hash s Hwf h l' Hl') as (e & He & <- & Hh).
    destruct (Halter l' e He) as (e' & ? & Hid' & ?). exists e'. by rewrite Hid'.
  - intros l' Hl'. apply (wf_next s Hwf). apply lookup_alter_is_Some in Hl'. done.
Qed.

Lemma revoke_tokens s now id l :
  wf s → byID s !! id = Some l →
  tokens (with_maps s (byID s) (byHash s) (alter (revoked_at now) l (heap s)) (next s))
  = alter (revoked_at now) id (tokens s).
Proof.
  intros Hwf Hl. apply map_eq. intros id'. unfold tokens. cbn [byID heap with_maps].
  rewrite lookup_omap. destruct (decide (id = id')) as [<-|Hne].
  - rewrite lookup_alter_eq, lookup_omap, Hl. cbn. by rewrite lookup_alter_eq.
  - rewrite lookup_alter_ne, lookup_omap by done.
    destruct (byID s !! id') as [l'|] eqn:Hl'; [|done]. cbn.
    rewrite lookup_alter_ne; [done|]. intros <-.
    destruct (wf_id s Hwf id l Hl) as (e1 & ? & ? & _), (wf_id s Hwf id' l Hl') as (e2 & ? & ? & _). congruence.
Qed.

(** Removing an entry from both maps. *)
Lemma remove_wf s id e :
  wf s → tokens s !! id = Some e →
  wf (with_maps s (delete id (byID s)) (delete (TokenHash e) (byHash s)) (heap s) (next s)).
Proof.
  intros Hwf He. split; cbn.
  - intros id' l' [Hne Hl']%lookup_delete_Some.
    destruct (wf_id s Hwf id' l' Hl') as (e' & He' & <- & Hh).
    exists e'. split; [done|split; [done|]]. apply lookup_delete_Some. split; [|done].
    intros Heq. apply Hne. eapply (tokens_hash s); eauto. apply tokens_lookup. eauto.
  - intros h l' [Hne Hl']%lookup_delete_Some.
    destruct (wf_hash s Hwf h l' Hl') as (e' & He' & <- & Hh).
    exists e'. split; [done|split; [done|]]. apply lookup_delete_Some. split; [|done].
    intros ->. apply Hne. f_equal. assert (tokens s !! ID e' = Some e') by (apply tokens_lookup; eauto). congruence.
  - apply (wf_next s Hwf).
Qed.

Lemma remove_tokens s id hashes :
  tokens (with_maps s (delete id (byID s)) hashes (heap s) (next s)) = delete id (tokens s).
Proof. unfold tokens. cbn [byID heap with_maps]. apply omap_delete. Qed.

End contents.

(** ** The operations *)

Lemma omap_to_list {A B} (f : A → option B) (m : gmap string A) :
  (map_to_list (omap f m)).*2 ≡ₚ omap (λ '(_, x), f x) (map_to_list m).
Proof.
  induction m as [|i x m Hi IH] using map_ind.
  { by rewrite omap_empty, !map_to_list_empty. }
  rewrite map_to_list_insert by done. cbn [omap list_omap].
  destruct (f x) as [y|] eqn:Hy.
  - rewrite (omap_insert_Some f m i x y) by done.
    rewrite map_to_list_insert by (by rewrite lookup_omap, Hi). cbn. by rewrite IH.
  - rewrite (omap_insert_None f m i x) by done.
    rewrite delete_id by (by rewrite lookup_omap, Hi). done.
Qed.

Section operations.
Context `{TokenCrypto} `{TokensCodec}.
Variable machine : nat → env.
Implicit Types s : FileTokenStore.

Lemma entries_perm s : entries machine s ≡ₚ (map_to_list (tokens s)).*2.
Proof. unfold entries. by rewrite pick_perm, <- omap_to_list. Qed.

Lemma elem_of_entries s e : e ∈ entries machine s ↔ ∃ id, tokens s !! id = Some e.
Proof.
  rewrite entries_perm, list_elem_of_fmap. split.
  - intros ([id e'] & -> & Hin%elem_of_map_to_list). eauto.
  - intros (id & Hin%elem_of_map_to_list). by exists (id, e).
Qed.

Lemma flush_with_disk s : ∃ err d, flush machine s = (err, with_disk s d).
Proof. unfold flush. destruct (flush_trace machine s) as [err trace]. eauto. Qed.

Lemma flush_tokens s : tokens (flush machine s).2 = tokens s.
Proof. by destruct (flush_with_disk s) as (err & d & ->). Qed.

Lemma flush_wf s : wf s → wf (flush machine s).2.
Proof. destruct (flush_with_disk s) as (err & d & ->). apply with_disk_wf. Qed.

Lemma Save_spec s e err s' :
  wf s → fresh_token (tokens s) e → Save machine s e = (err, s') →
  wf s' ∧ tokens s' = <[ID e := e]> (tokens s).
Proof.
  intros Hwf Hfresh. unfold Save.
  destruct (flush_with_disk (put_entry s e)) as (err' & d & ->).
  assert (wf (put_entry s e)) by by apply put_entry_wf.
  destruct err'; intros [= <- <-];
    (split; [by apply with_disk_wf|rewrite with_disk_tokens; by apply put_entry_tokens]).
Qed.

Lemma Revoke_spec s now id found s' :
  wf s → Revoke machine s now id = (found, s') →
  wf s' ∧ tokens s' = alter (revoked_at now) id (tokens s) ∧ (found = true ↔ is_Some (tokens s !! id)).
Proof.
  intros Hwf. unfold Revoke. destruct (byID s !! id) as [l|] eqn:Hl; intros [= <- <-].
  - split; [|split].
    + apply flush_wf. by eapply revoke_wf.
    + rewrite flush_tokens. by apply revoke_tokens.
    + split; [intros _|done]. by eapply byID_tokens.
  - apply byID_None in Hl; [|done]. split; [done|split].
    + symmetry. apply map_eq. intros id'. destruct (decide (id = id')) as [<-|Hne].
      * by rewrite lookup_alter_eq, Hl.
      * by rewrite lookup_alter_ne.
    + rewrite Hl. split; [done|by intros []].
Qed.

Lemma Delete_spec s id found s' :
  wf s → Delete machine s id = (found, s') →
  wf s' ∧ tokens s' = delete id (tokens s) ∧ (found = true ↔ is_Some (tokens s !! id)).
Proof.
  intros Hwf. unfold Delete. destruct (byID s !! id) as [l|] eqn:Hl; intros [= <- <-].
  - destruct (byID_tokens s id l Hwf Hl) as [e He].
    destruct (tokens_pointer s id e Hwf He) as (l' & He' & ? & _). assert (l' = l) as -> by congruence.
    rewrite He', He. split; [|split].
    + apply flush_wf. by apply remove_wf.
    + rewrite flush_tokens. apply remove_tokens.
    + by eauto.
  - apply byID_None in Hl; [|done]. split; [done|split].
    + by rewrite delete_id.
    + rewrite Hl. split; [done|by intros []].
Qed.

(** ** The purge *)

Lemma purge_removed now ids s : (foldl (purge_entry now) (true, s) ids).1 = true.
Proof. revert s. induction ids as [|id ids IH]; intros s; [done|]. cbn. repeat case_match; apply IH. Qed.

Lemma filter_skip now id ids (m : gmap string TokenEntry) :
  (∀ e, m !! id = Some e → IsExpired now e = false) →
  filter (λ '(i, e), i ∈ ids → IsExpired now e = false) m
  = filter (λ '(i, e), i ∈ id :: ids → IsExpired now e = false) m.
Proof.
  intros Hid. apply map_eq. intros i. apply option_eq. intros x.
  rewrite !map_lookup_filter_Some, elem_of_cons. split; [|naive_solver].
  intros [Hi Hx]. split; [done|]. intros [->|Hin]; [by apply Hid|by apply Hx].
Qed.

Lemma purge_loop now ids s removed removed' s' :
  wf s → NoDup ids → foldl (purge_entry now) (removed, s) ids = (removed', s') →
  wf s' ∧ tokens s' = filter (λ '(id, e), id ∈ ids → IsExpired now e = false) (tokens s) ∧
  (removed' = false → s' = s).
Proof.
  revert removed s. induction ids as [|id ids IH]; intros removed s Hwf Hnd.
  { cbn. intros [= <- <-]. split; [done|split; [|done]].
    symmetry. apply map_filter_id. intros i e _ Hi. by apply elem_of_nil in Hi. }
  apply NoDup_cons in Hnd as [Hnotin Hnd]. cbn [foldl purge_entry].
  replace (byID s !! id ≫= (λ l, heap s !! l)) with (tokens s !! id) by (unfold tokens; by rewrite lookup_omap).
  destruct (tokens s !! id) as [e|] eqn:He; [destruct (IsExpired now e) eqn:Hexp|].
  - intros Hrun. pose proof (remove_wf s id e Hwf He) as Hwf1.
    epose proof (purge_removed now ids _) as Htrue.
    rewrite Hrun in Htrue. cbn in Htrue. subst removed'.
    apply IH in Hrun as (Hwf' & -> & _); [|done..]. split; [done|split; [|done]].
    rewrite remove_tokens. apply map_eq. intros i. apply option_eq. intros x.
    rewrite !map_lookup_filter_Some, lookup_delete_Some, elem_of_cons. split.
    + intros [[Hne Hi] Hx]. split; [done|]. intros [->|Hin]; [done|by apply Hx].
    + intros [Hi Hx]. split; [split; [|done]|auto]. intros <-.
      assert (x = e) as -> by congruence. rewrite Hx in Hexp by auto. done.
  - intros (Hwf' & -> & Hsame)%IH; [|done..]. split; [done|split; [|done]].
    apply filter_skip. intros e' ?. congruence.
  - intros (Hwf' & -> & Hsame)%IH; [|done..]. split; [done|split; [|done]].
    apply filter_skip. intros e' ?. congruence.
Qed.

Lemma purge_loop_same now ids s removed removed' s' :
  foldl (purge_entry now) (removed, s) ids = (removed', s') →
  key s' = key s ∧ filePath s' = filePath s ∧ disk s' = disk s ∧ moment s' = moment s.
Proof.
  revert removed s. induction ids as [|id ids IH]; intros removed s; [by intros [= _ <-]|].
  cbn [foldl purge_entry]. repeat case_match; by intros ?%IH.
Qed.

Lemma purge_ids_nodup s : NoDup (pick (ev_order (machine (moment s))) (map_to_list (byID s)).*1).
Proof. rewrite pick_perm. apply NoDup_fst_map_to_list. Qed.

Lemma purge_ids s (P : TokenEntry → Prop) `{∀ e, Decision (P e)} :
  wf s →
  filter (λ '(id, e), id ∈ pick (ev_order (machine (moment s))) (map_to_list (byID s)).*1 → P e) (tokens s)
  = filter (λ '(_, e), P e) (tokens s).
Proof.
  intros Hwf. apply map_filter_ext. intros id e He. split; [|by intros].
  intros HP. apply HP. rewrite pick_perm. apply list_elem_of_fmap.
  destruct (tokens_pointer s id e Hwf He) as (l & _ & Hl & _).
  exists (id, l). split; [done|]. by apply elem_of_map_to_list.
Qed.

Lemma purgeExpired_spec s now :
  wf s →
  wf (purgeExpired machine s now) ∧
  tokens (purgeExpired machine s now) = filter (λ '(_, e), IsExpired now e = false) (tokens s).
Proof.
  intros Hwf. unfold purgeExpired.
  destruct (foldl (purge_entry now) (false, s) _) as [removed s'] eqn:Hrun.
  apply purge_loop in Hrun as (Hwf' & Htok & _); [|done|apply purge_ids_nodup].
  rewrite purge_ids in Htok by done. rewrite <- Htok.
  destruct removed; [|done]. split; [by apply flush_wf|apply flush_tokens].
Qed.

End operations.

(** ** The writes of flush *)

Section writes.
Context `{TokenCrypto} `{TokensCodec}.
Variable machine : nat → env.
Implicit Types s : FileTokenStore.

Lemma HasSuffix_temp_name path random : HasSuffix (temp_name path random) ".tmp" = true.
Proof. unfold temp_name. rewrite <- str_app_assoc, <- str_app_assoc. apply HasSuffix_app. Qed.

Lemma temp_name_ne path random : HasSuffix path ".tmp" = false → temp_name path random ≠ path.
Proof. intros Hno Heq. pose proof (HasSuffix_temp_name path random) as Hs. by rewrite Heq, Hno in Hs. Qed.

(** Every disk of the trace differs from the first one at the temporary file alone,
    except the last one of a write that succeeds. *)
Lemma write_file_spec ev path data d err trace :
  write_file ev path data d = (err, trace) → HasSuffix path ".tmp" = false →
  (∃ last rest, trace = last :: rest ∧
     (err = None → last = <[path := data]> d) ∧
     (∀ d', d' ∈ rest ∨ err ≠ None ∧ d' = last → ∀ p, (∀ random, p ≠ temp_name path random) → d' !! p = d !! p)).
Proof.
  intros Hw Hno. unfold write_file in Hw.
  destruct (ev_temp ev) as [e|random]; [simplify_eq|].
  { eexists _, _. split; [done|]. split; [done|]. intros d' [Hd'|[_ ->]]; [by apply elem_of_nil in Hd'|done]. }
  case_bool_decide as Hex; [simplify_eq|].
  { eexists _, _. split; [done|]. split; [done|]. intros d' [Hd'|[_ ->]]; [by apply elem_of_nil in Hd'|done]. }
  assert (Hins : ∀ x y p, (∀ random, p ≠ temp_name path random) →
    <[temp_name path random := x]> (<[temp_name path random := y]> d) !! p = d !! p ∧
    (if ev_remove_fails ev then <[temp_name path random := x]> (<[temp_name path random := y]> d)
     else delete (temp_name path random) (<[temp_name path random := x]> (<[temp_name path random := y]> d))) !! p
    = d !! p ∧ <[temp_name path random := y]> d !! p = d !! p).
  { intros x y p Hp. assert (Hne : temp_name path random ≠ p) by (intros Heq; by apply (Hp random)).
    destruct (ev_remove_fails ev); rewrite ?lookup_delete_ne by exact Hne; rewrite !lookup_insert_ne by exact Hne; done. }
  destruct (ev_write ev) as [[n e]|]; [|destruct (ev_sync ev); [|destruct (ev_close ev); [|destruct (ev_rename ev)]]];
    injection Hw as <- <-; eexists _, _; (split; [done|]); (split; [try done|]);
    try (intros d' Hd' p Hp; rewrite ?elem_of_cons, elem_of_nil in Hd'; destruct (Hins data "" p Hp) as (? & ? & ?);
         try destruct (Hins (str_take n data) "" p Hp) as (? & ? & ?); naive_solver).
  intros _. f_equal. rewrite delete_insert_eq, delete_insert_eq. apply delete_id.
  by apply eq_None_not_Some.
Qed.

Lemma flush_trace_spec s err trace :
  HasSuffix (filePath s) ".tmp" = false → flush_trace machine s = (err, trace) →
  (∀ d, d ∈ trace → ∀ p, (∀ random, p ≠ temp_name (filePath s) random) →
     d !! p = disk s !! p ∨ p = filePath s ∧ ∃ data, flush_data machine s = inr data ∧ d !! p = Some data) ∧
  (if err then default (disk s) (head trace) !! filePath s = disk s !! filePath s
   else ∃ data, flush_data machine s = inr data ∧ head trace = Some (<[filePath s := data]> (disk s))).
Proof.
  intros Hno. unfold flush_trace. destruct (flush_data machine s) as [e|data].
  { intros [= <- <-]. split; [|done]. intros d ->%list_elem_of_singleton. auto. }
  intros Hw. destruct (write_file_spec _ _ _ _ _ _ Hw Hno) as (last & rest & -> & Hok & Hold).
  assert (Hpath : ∀ random, filePath s ≠ temp_name (filePath s) random)
    by (intros random Heq; by apply (temp_name_ne (filePath s) random)).
  split.
  - intros d [->|Hin]%elem_of_cons p Hp; [|left; apply Hold; auto].
    destruct err as [e|]; [left; apply Hold; auto|]. rewrite Hok by done.
    destruct (decide (p = filePath s)) as [->|Hne]; [right|left].
    + split; [done|]. exists data. by rewrite lookup_insert_eq.
    + by rewrite lookup_insert_ne.
  - destruct err as [e|]; cbn; [by apply Hold; auto|]. exists data. by rewrite Hok.
Qed.

(** C30: FileTokenStore.flush replaces the token file, whose path does not end in ".tmp",
    atomically.  At every moment
    of the write, also when a system call fails or the process stops there, the token
    file holds its previous content or the whole new one; files that are not the store's
    temporary file or its token file are never touched.  When flush returns an error
    the token file has kept its content at the end; when it returns nil the disk is the
    previous one with the new content in the token file, and no temporary file is left. *)
Theorem flush_atomic s err trace :
  HasSuffix (filePath s) ".tmp" = false → flush_trace machine s = (err, trace) →
  (∀ d, d ∈ trace → ∀ p, (∀ random, p ≠ temp_name (filePath s) random) →
     d !! p = disk s !! p ∨ p = filePath s ∧ ∃ data, flush_data machine s = inr data ∧ d !! p = Some data) ∧
  (if err then default (disk s) (head trace) !! filePath s = disk s !! filePath s
   else ∃ data, flush_data machine s = inr data ∧ head trace = Some (<[filePath s := data]> (disk s))).
Proof. apply flush_trace_spec. Qed.

End writes.

(** ** Restarts *)

(** The operations that change the store. *)
Inductive operation :=
  | OpSave (e : TokenEntry)
  | OpRevoke (now : time) (id : string)
  | OpDelete (id : string)
  | OpPurge (now : time).

Section restart.
Context `{TokenCrypto} `{TokensCodec}.
Context `{!TokenCryptoLaws} `{!TokensCodecLaws}.
Variable machine : nat → env.
Variable secret : string.
Implicit Types s : FileTokenStore.

Definition apply_operation s (o : operation) : FileTokenStore :=
  match o with
  | OpSave e => (Save machine s e).2
  | OpRevoke now id => (Revoke machine s now id).2
  | OpDelete id => (Delete machine s id).2
  | OpPurge now => purgeExpired machine s now
  end.

(** The machine has no fault at this moment, and the temporary name is not taken. *)
Definition calm s : Prop :=
  let ev := machine (moment s) in
  (∃ nonce, ev_nonce ev = inr nonce ∧ String.length nonce = NonceSize) ∧
  (∃ random, ev_temp ev = inr random ∧ disk s !! temp_name (filePath s) random = None) ∧
  ev_write ev = None ∧ ev_sync ev = None ∧ ev_close ev = None ∧ ev_rename ev = None.

Definition operation_ok s (o : operation) : Prop :=
  match o with
  | OpSave e => fresh_token (tokens s) e ∧ storable e = true
  | OpRevoke now _ => json_time now = true
  | _ => True
  end.

(** A sequence of operations on a machine without faults. *)
Inductive calm_run : FileTokenStore → list operation → FileTokenStore → Prop :=
  | calm_nil s : calm_run s [] s
  | calm_cons s o os s' :
      calm s → operation_ok s o → calm_run (apply_operation s o) os s' → calm_run s (o :: os) s'.

(** A new process that opens the token file of [s] has the tokens of [s]. *)
Definition persisted s : Prop :=
  ∃ s', NewFileTokenStore secret (filePath s) None (disk s) (moment s) = inr s' ∧
        wf s' ∧ tokens s' = tokens s.

Definition all_storable s : Prop := map_Forall (λ _ e, storable e = true) (tokens s).

Record sound s : Prop := {
  sound_wf : wf s;
  sound_storable : all_storable s;
  sound_key : deriveAESKey secret = inr (key s);
  sound_path : HasSuffix (filePath s) ".tmp" = false;
  sound_persisted : persisted s;
}.

Lemma decrypt_encrypt k nonce plain data :
  String.length nonce = NonceSize → encrypt k (inr nonce) plain = inr data → decrypt k data = inr plain.
Proof.
  unfold encrypt, decrypt. intros Hlen. destruct (NewCipher k); [done|]. intros [= <-].
  rewrite str_length_app, <- Hlen.
  destruct (Nat.ltb_spec (String.length nonce + String.length (gcm_Seal k nonce plain)) (String.length nonce)); [lia|].
  rewrite str_take_app, str_drop_app. apply gcm_Open_Seal.
Qed.

Lemma load_tokens s l :
  wf s → NoDup (map ID l) → NoDup (map TokenHash l) →
  (∀ e, e ∈ l → fresh_token (tokens s) e) →
  wf (foldl put_entry s l) ∧
  ∀ id e, tokens (foldl put_entry s l) !! id = Some e ↔ tokens s !! id = Some e ∨ e ∈ l ∧ ID e = id.
Proof.
  revert s. induction l as [|e l IH]; intros s Hwf Hids Hhashes Hfresh.
  { split; [done|]. intros id e. rewrite elem_of_nil. naive_solver. }
  cbn [map] in Hids, Hhashes. apply NoDup_cons in Hids as [Hid Hids], Hhashes as [Hhash Hhashes].
  assert (Hnew : fresh_token (tokens s) e) by (apply Hfresh; by left).
  assert (He : ∀ e', e' ∈ l → ID e' ≠ ID e ∧ TokenHash e' ≠ TokenHash e).
  { intros e' Hin. split; intros Heq; [apply Hid|apply Hhash]; apply elem_of_map_list; by exists e'. }
  destruct (IH (put_entry s e)) as [Hwf' Htok]; [by apply put_entry_wf|done|done| |].
  { intros e' Hin. rewrite put_entry_tokens by done. destruct (He e' Hin) as [Hi Hh].
    destruct (Hfresh e') as [Hn Hu]; [by right|]. split.
    - by rewrite lookup_insert_ne.
    - intros id x [[<- <-]|[_ Hx]]%lookup_insert_Some; [by apply not_eq_sym|by apply (Hu id)]. }
  split; [done|]. intros id x. cbn [foldl]. rewrite Htok, put_entry_tokens, elem_of_cons by done.
  rewrite lookup_insert_Some. destruct Hnew as [Hn _]. split; [naive_solver|].
  intros [Hx|[[->|Hin] <-]]; [|by auto|by auto].
  left. right. split; [|done]. intros <-. congruence.
Qed.

Lemma entries_nodup s : wf s → NoDup (map ID (entries machine s)) ∧ NoDup (map TokenHash (entries machine s)).
Proof.
  intros Hwf.
  assert (Hperm : ∀ f : TokenEntry → string,
    (∀ i1 i2 e1 e2, tokens s !! i1 = Some e1 → tokens s !! i2 = Some e2 → f e1 = f e2 → i1 = i2) →
    NoDup (map f (entries machine s))).
  { intros f Hinj. change (map f) with (fmap (M:=list) f). rewrite entries_perm, <- list_fmap_compose.
    apply NoDup_fmap_2_strong; [|apply NoDup_map_to_list].
    intros [i1 e1] [i2 e2] Ha%elem_of_map_to_list Hb%elem_of_map_to_list Heq.
    assert (i1 = i2) as -> by by eapply Hinj. congruence. }
  split; apply Hperm.
  - intros i1 i2 e1 e2 Ha Hb Heq. by rewrite <- (tokens_ID s i1 e1), <- (tokens_ID s i2 e2), Heq.
  - intros i1 i2 e1 e2 Ha Hb Heq. by eapply tokens_hash.
Qed.

Lemma flush_data_ok s : wf s → all_storable s → deriveAESKey secret = inr (key s) → calm s →
  ∃ plain data, flush_data machine s = inr data ∧ decrypt (key s) data = inr plain ∧
    tokens_Unmarshal plain = inr (entries machine s).
Proof.
  intros Hwf Hst Hkey ((nonce & Hnonce & Hlen) & _). unfold flush_data.
  assert (Hall : Forall (λ e, storable e = true) (entries machine s)).
  { apply Forall_forall. intros e (id & He)%elem_of_entries. by eapply Hst. }
  destruct (tokens_Marshal_ok _ Hall) as [plain Hplain]. rewrite Hplain, Hnonce.
  assert (Hcipher : NewCipher (key s) = None).
  { unfold NewCipher. apply hkdf_length in Hkey. rewrite Hkey. by rewrite bool_decide_eq_true_2 by set_solver. }
  destruct (encrypt (key s) (inr nonce) plain) as [err|data] eqn:Hdata.
  { exfalso. unfold encrypt in Hdata. by rewrite Hcipher in Hdata. }
  exists plain, data. split; [done|]. split; [by eapply decrypt_encrypt|].
  apply tokens_roundtrip; [done|]. eapply Forall_impl; [done|].
  intros e. cbn. unfold storable. rewrite !andb_true_iff. tauto.
Qed.

Lemma flush_calm s : HasSuffix (filePath s) ".tmp" = false → calm s →
  ∀ data, flush_data machine s = inr data →
  (flush machine s).2 = with_disk s (<[filePath s := data]> (disk s)).
Proof.
  intros Hno (_ & (random & Ht & Hfree) & Hw & Hs & Hc & Hr) data Hdata.
  unfold flush. destruct (flush_trace machine s) as [err trace] eqn:Htrace.
  pose proof (flush_trace_spec machine s err trace Hno Htrace) as [_ Hend].
  unfold flush_trace, write_file in Htrace. rewrite Hdata, Ht, Hw, Hs, Hc, Hr in Htrace.
  rewrite bool_decide_eq_false_2 in Htrace by (rewrite Hfree; by intros []).
  injection Htrace as <- <-. destruct Hend as (data' & Hd & Hhead).
  rewrite Hdata in Hd. injection Hd as <-. cbn in Hhead |- *. by injection Hhead as ->.
Qed.

Lemma flush_sound s :
  wf s → all_storable s → deriveAESKey secret = inr (key s) → HasSuffix (filePath s) ".tmp" = false →
  calm s → sound (flush machine s).2.
Proof.
  intros Hwf Hst Hkey Hno Hcalm.
  destruct (flush_data_ok s Hwf Hst Hkey Hcalm) as (plain & data & Hdata & Hdec & Hun).
  rewrite (flush_calm s Hno Hcalm data Hdata).
  split; [by apply with_disk_wf|done..|]. unfold persisted, NewFileTokenStore.
  cbn [filePath disk with_disk moment]. rewrite Hkey. unfold load. cbn [disk filePath key].
  rewrite lookup_insert_eq, Hdec, Hun.
  destruct (entries_nodup s Hwf) as [Hids Hhashes].
  epose proof (load_tokens _ (entries machine s) (empty_wf _ _ _ _) Hids Hhashes) as [Hwf' Htok].
  { intros e _. split; [done|]. intros id e' He. apply tokens_lookup in He as (l & Hl & _). done. }
  eexists. split; [done|]. split; [exact Hwf'|]. apply map_eq. intros id. apply option_eq. intros e.
  rewrite Htok, elem_of_entries, with_disk_tokens. split.
  - intros [(l & Hl & _)%tokens_lookup|[[id' He] <-]]; [done|].
    assert (ID e = id') as -> by (by apply (tokens_ID s)). done.
  - intros He. right. split; [by eauto|by apply (tokens_ID s)].
Qed.

(** The store an operation hands to flush is as sound as the one it started from. *)
Lemma apply_operation_sound s o :
  sound s → calm s → operation_ok s o → sound (apply_operation s o).
Proof.
  intros [Hwf Hst Hkey Hno Hper] Hcalm Hok. destruct o as [e|now id|id|now]; cbn [apply_operation].
  - destruct Hok as [Hfresh He]. unfold Save.
    assert (Hs : sound (flush machine (put_entry s e)).2).
    { apply flush_sound; [by apply put_entry_wf| |done..].
      intros id x. rewrite put_entry_tokens by done. intros [[_ <-]|[_ Hx]]%lookup_insert_Some; [done|by eapply Hst]. }
    by destruct (flush machine (put_entry s e)) as [[err|] s'].
  - unfold Revoke. destruct (byID s !! id) as [l|] eqn:Hl; [|by split]. cbn [snd].
    apply flush_sound; [by eapply revoke_wf| |done..].
    intros id' x. rewrite (revoke_tokens s now id l) by done. intros Hx.
    apply lookup_alter_Some in Hx as [(_ & e & He & ->)|[_ Hx]]; [|by eapply Hst].
    apply Hst in He. cbn in Hok, He. unfold storable in *. cbn. rewrite !andb_true_iff in *. tauto.
  - unfold Delete. destruct (byID s !! id) as [l|] eqn:Hl; [|by split]. cbn [snd].
    destruct (byID_tokens s id l Hwf Hl) as [e He].
    destruct (tokens_pointer s id e Hwf He) as (l' & He' & ? & _). assert (l' = l) as -> by congruence.
    rewrite He'. apply flush_sound; [by apply remove_wf| |done..].
    intros id' x. rewrite remove_tokens. intros [_ Hx]%lookup_delete_Some. by eapply Hst.
  - unfold purgeExpired. destruct (foldl (purge_entry now) (false, s) _) as [removed s'] eqn:Hrun.
    pose proof Hrun as Hsame. apply purge_loop_same in Hsame as (Hk & Hf & Hd & Hm).
    apply purge_loop in Hrun as (Hwf' & Htok & Hid); [|done|apply purge_ids_nodup].
    destruct removed; [|rewrite Hid by done; by split]. cbn [snd].
    apply flush_sound; [done| |congruence..|].
    + intros id x. rewrite Htok, map_lookup_filter_Some. intros [Hx _]. by eapply Hst.
    + unfold calm in *. by rewrite Hm, Hf, Hd.
Qed.

Lemma calm_run_sound s os s' : calm_run s os s' → sound s → sound s'.
Proof. induction 1; [done|]. intros Hs. apply IHcalm_run. by apply apply_operation_sound. Qed.

Lemma new_store_sound path d m s :
  HasSuffix path ".tmp" = false → d !! path = None →
  NewFileTokenStore secret path None d m = inr s → sound s ∧ tokens s = ∅.
Proof.
  intros Hno Hd. unfold NewFileTokenStore. destruct (deriveAESKey secret) as [err|k] eqn:Hkey; [done|].
  unfold load. cbn [disk filePath]. rewrite Hd. intros [= <-].
  assert (Hwf : ∀ m', wf {| byID := ∅; byHash := ∅; heap := ∅; next := 0%nat; closed := false; filePath := path;
    key := k; disk := d; moment := m' |}) by (intros; apply empty_wf).
  split; [|apply omap_empty]. split; [apply Hwf| |done|done|].
  - intros id e (l & Hl & _)%tokens_lookup. done.
  - unfold persisted, NewFileTokenStore, load. cbn [filePath disk]. rewrite Hkey, Hd. eauto.
Qed.

(** C28: the tokens of the file store survive a restart.  Take a store opened on a
    missing token file whose path does not end in ".tmp", and any sequence of Save, Revoke, Delete
    and purge calls on a machine without faults, where each saved entry has an ID and a hash that
    no entry of the store has, texts that are valid UTF-8, and instants that JSON can write
    (years up to 9999), like the instants of the revocations.  A process that then opens the token file with the same secret has
    exactly the tokens of the store: IDs, hashes, expiries and revocations, whatever
    order the maps were iterated in. *)
Theorem restart_exact path d m s os s' :
  HasSuffix path ".tmp" = false → d !! path = None →
  NewFileTokenStore secret path None d m = inr s → calm_run s os s' →
  ∃ s'', NewFileTokenStore secret (filePath s') None (disk s') (moment s') = inr s'' ∧
         wf s'' ∧ tokens s'' = tokens s'.
Proof.
  intros Hno Hd Hnew Hrun. apply new_store_sound in Hnew as [Hs _]; [|done..].
  by apply (calm_run_sound s os s').
Qed.

End restart.

(** ** Refinement *)

(** What an operation does to the entries by ID. *)
Definition abstract_operation (m : gmap string TokenEntry) (o : operation) : gmap string TokenEntry :=
  match o with
  | OpSave e => <[ID e := e]> m
  | OpRevoke now id => alter (revoked_at now) id m
  | OpDelete id => delete id m
  | OpPurge now => filter (λ '(_, e), IsExpired now e = false) m
  end.

Section refinement.
Context `{TokenCrypto} `{TokensCodec}.
Variable machine : nat → env.
Implicit Types s : FileTokenStore.

Lemma List_newest_first s :
  Sorted newer (List machine s) ∧ List machine s ≡ₚ (map_to_list (tokens s)).*2.
Proof.
  unfold List. split; [apply sort_newest_sorted|]. by rewrite sort_newest_perm, entries_perm.
Qed.

Lemma apply_operation_spec s o :
  wf s → (∀ e, o = OpSave e → fresh_token (tokens s) e) →
  wf (apply_operation machine s o) ∧
  tokens (apply_operation machine s o) = abstract_operation (tokens s) o.
Proof.
  intros Hwf Hfresh. destruct o as [e|now id|id|now]; cbn [apply_operation abstract_operation].
  - destruct (Save machine s e) as [err s'] eqn:Hs. by apply Save_spec in Hs; [|done|apply Hfresh].
  - destruct (Revoke machine s now id) as [found s'] eqn:Hs. apply Revoke_spec in Hs; [|done]. naive_solver.
  - destruct (Delete machine s id) as [found s'] eqn:Hs. apply Delete_spec in Hs; [|done]. naive_solver.
  - by apply purgeExpired_spec.
Qed.

(** C29: the file store is a map of entries by ID.  Whatever the machine does (map
    orders, failing writes), Save inserts the entry, Revoke marks it, Delete removes it
    and the purge removes exactly the expired entries (a saved entry has an ID and a hash that
    no other one has); a lookup by hash then sees the
    entry with this hash as the map has it, so a token revoked or deleted by its ID is
    revoked or gone for the lookups by hash too; and List returns every entry once,
    the newest first. *)
Theorem FileTokenStore_refines s o :
  wf s → (∀ e, o = OpSave e → fresh_token (tokens s) e) →
  let s' := apply_operation machine s o in
  let m' := abstract_operation (tokens s) o in
  wf s' ∧
  (∀ hash e, GetByHash s' hash = Some e ↔ ∃ id, m' !! id = Some e ∧ TokenHash e = hash) ∧
  Sorted newer (List machine s') ∧ List machine s' ≡ₚ (map_to_list m').*2.
Proof.
  intros Hwf Hfresh s' m'. destruct (apply_operation_spec s o Hwf Hfresh) as [Hwf' Htok].
  split; [done|]. unfold m'. rewrite <- Htok. split; [|apply List_newest_first].
  intros hash e. by apply GetByHash_iff.
Qed.

(** *** The interface *)

#[export] Instance file_store : TokenStore FileTokenStore := {
  ts_Save := Save machine;
  ts_GetByHash s hash := (GetByHash s hash, s);
  ts_List s := (List machine s, with_disk s (disk s));
  ts_Revoke := Revoke machine;
  ts_Delete := Delete machine;
  ts_Purge := purgeExpired machine;
}.

#[export] Instance file_store_laws : TokenStoreLaws FileTokenStore.
Proof.
  refine {| ts_tokens := tokens; ts_inv := wf; ts_reliable := λ _, True;
            ts_fresh s e := fresh_token (tokens s) e |}.
  - apply tokens_ID.
  - apply tokens_hash.
  - done.
  - intros s e err s' Hwf Hfresh Hs. destruct (Save_spec machine s e err s') as [? Htok]; auto.
    split; [done|split; [done|]]. exists (tokens s). split; [apply lapsed_refl|]. split; [done|].
    left. exists e. split; [apply stored_as_refl|done].
  - intros s hash r s' Hwf [= <- <-]. split; [done|split; [done|split; [apply lapsed_refl|split]]].
    + intros e. by apply GetByHash_iff.
    + intros _ Hnone id e He _ Heq.
      assert (GetByHash s hash = Some e) by (apply GetByHash_iff; eauto). congruence.
  - intros s l s' Hwf [= <- <-]. destruct (List_newest_first s) as [Hsorted Hperm].
    split; [by apply with_disk_wf|]. split; [done|]. split; [apply lapsed_refl|]. split; [done|].
    split; [|done]. intros e. rewrite Hperm, list_elem_of_fmap.
    intros ([id e'] & -> & He%elem_of_map_to_list). eauto.
  - intros s now id found s' Hwf _ Hs. apply Revoke_spec in Hs as (? & -> & Hf); [|done].
    split; [done|split; [done|]]. exists (tokens s). split; [apply lapsed_refl|split; [done|]].
    destruct found.
    + left. destruct Hf as [[e He] _]; [done|]. exists e, (revoked_at now e).
      split; [done|split; [apply stored_as_refl|split; [|done]]].
      apply map_eq. intros id'. destruct (decide (id = id')) as [<-|].
      * by rewrite lookup_alter_eq, lookup_insert_eq, He.
      * by rewrite lookup_alter_ne, lookup_insert_ne.
    + right. assert (tokens s !! id = None) as Hn by (apply eq_None_not_Some; naive_solver).
      split; [done|split; [|done]]. apply map_eq. intros id'. destruct (decide (id = id')) as [<-|].
      * by rewrite lookup_alter_eq, Hn.
      * by rewrite lookup_alter_ne.
  - intros s id found s' Hwf Hs. apply Delete_spec in Hs as (? & -> & Hf); [|done].
    split; [done|split; [done|]]. exists (tokens s). split; [apply lapsed_refl|split; [done|]].
    destruct found; [left; naive_solver|right].
    assert (tokens s !! id = None) as Hn by (apply eq_None_not_Some; naive_solver).
    by rewrite delete_id.
  - intros s now Hwf. destruct (purgeExpired_spec machine s now Hwf) as [? Htok].
    cbn [ts_Purge file_store]. rewrite Htok. split; [done|split; [done|split]].
    + split; [apply map_filter_subseteq|]. intros id e He Hnone Hx.
      rewrite map_lookup_filter_None in Hnone. destruct Hnone as [?|Hnone]; [congruence|].
      apply (Hnone e He). unfold IsExpired, IsZero. by rewrite Hx.
    + intros _ id e He Hx. apply map_lookup_filter_Some. split; [done|].
      unfold IsExpired, Before, purge_slack, Millisecond in *.
      destruct (Z.ltb_spec (ExpiresAt e) now); [lia|]. by rewrite andb_false_r.
Defined.

End refinement.

(** ** An instance *)

#[export] Instance TokenEntry_countable : Countable TokenEntry.
Proof.
  refine (inj_countable'
    (λ e, (ID e, Name e, TokenHash e, (CreatedAt e, ExpiresAt e, RevokedAt e)))
    (λ '(i, n, h, (c, x, r)), {| ID := i; Name := n; TokenHash := h; CreatedAt := c; ExpiresAt := x;
       RevokedAt := r |}) _).
  by intros [].
Defined.

Fixpoint positive_bits (p : positive) : string :=
  match p with
  | xH => ""
  | xO p => String "0" (positive_bits p)
  | xI p => String "1" (positive_bits p)
  end.

Fixpoint bits_positive (s : string) : positive :=
  match s with
  | "" => xH
  | String a s => if decide (a = "1"%char) then xI (bits_positive s) else xO (bits_positive s)
  end.

Lemma bits_positive_bits p : bits_positive (positive_bits p) = p.
Proof. induction p as [p IH|p IH|]; cbn; by rewrite ?IH. Qed.

(** A textual form of the entries, and a cipher that prefixes the key and the nonce. *)
Definition bit_codec : TokensCodec :=
  {| tokens_Marshal l := inr (positive_bits (encode l));
     tokens_Unmarshal data := from_option inr (inl "bad JSON"%string) (decode (bits_positive data)) |}.

Definition prefix_cipher : TokenCrypto :=
  {| hkdf_read secret salt info n :=
       if (String.length secret <? n)%nat then inl "short"%string else inr (str_take n secret);
     gcm_Seal k nonce plain := (k +:+ nonce) +:+ plain;
     gcm_Open k nonce data :=
       if HasPrefix data (k +:+ nonce) then inr (TrimPrefix data (k +:+ nonce)) else inl "authentication"%string |}.

#[local] Existing Instance bit_codec.
#[local] Existing Instance prefix_cipher.

Lemma bit_codec_laws : TokensCodecLaws.
Proof.
  split.
  - intros l _. eexists. done.
  - intros l data [= <-] _. cbn. by rewrite bits_positive_bits, decode_encode.
Qed.

Lemma prefix_cipher_laws : TokenCryptoLaws.
Proof.
  split.
  - intros secret salt info n k. cbv [hkdf_read prefix_cipher]. destruct (Nat.ltb_spec (String.length secret) n) as [|Hle]; [done|].
    intros [= <-]. pose proof (str_take_drop n secret) as Hsplit.
    apply (f_equal String.length) in Hsplit. rewrite str_length_app, str_length_drop in Hsplit. lia.
  - intros k nonce plain. cbv [gcm_Open gcm_Seal prefix_cipher]. by rewrite HasPrefix_app, TrimPrefix_app.
Qed.

#[local] Existing Instance bit_codec_laws.
#[local] Existing Instance prefix_cipher_laws.

Definition quiet_env : env :=
  {| ev_order := [1%nat]; ev_nonce := inr "0123456789ab"%string; ev_temp := inr "42"%string; ev_write := None;
     ev_sync := None; ev_close := None; ev_rename := None; ev_remove_fails := false |}.

Definition full_disk_env : env :=
  {| ev_order := []; ev_nonce := inr "0123456789ab"%string; ev_temp := inr "42"%string;
     ev_write := Some (5%nat, "no space left on device"%string); ev_sync := None; ev_close := None;
     ev_rename := None; ev_remove_fails := false |}.

Definition demo_secret : string := "0123456789abcdef0123456789abcdef-secret".

Definition demo_entry (id hash : string) (created : time) : TokenEntry :=
  {| ID := id; Name := "ci"; TokenHash := hash; CreatedAt := created; ExpiresAt := 5000%Z; RevokedAt := 0%Z |}.

Definition demo_store : FileTokenStore :=
  {| byID := ∅; byHash := ∅; heap := ∅; next := 0%nat; closed := false; filePath := "data/tokens.enc";
     key := "0123456789abcdef0123456789abcdef"; disk := {[ "data/other" := "x"%string ]}; moment := 0%nat |}.

Definition saved_store : FileTokenStore :=
  (Save (λ _, quiet_env) demo_store (demo_entry "a" "h1" 10)).2.

Lemma demo_store_fresh e : fresh_token (tokens demo_store) e.
Proof.
  split; [apply eq_None_not_Some; intros [e' He]|intros id e' He]; by apply tokens_lookup in He as (l & Hl & _).
Qed.

Lemma saved_store_wf : wf saved_store.
Proof.
  apply (apply_operation_spec (λ _, quiet_env) demo_store (OpSave (demo_entry "a" "h1" 10))).
  - apply empty_wf.
  - intros e _. apply demo_store_fresh.
Qed.

(** Saving on a full disk: the old content of the token file stays. *)
Lemma flush_atomic_witness :
  ∃ err trace, flush_trace (λ _, full_disk_env) saved_store = (Some err, trace) ∧ length trace = 4%nat ∧
    default (disk saved_store) (head trace) !! "data/tokens.enc" = disk saved_store !! "data/tokens.enc".
Proof.
  destruct (flush_trace (λ _, full_disk_env) saved_store) as [err trace] eqn:Ht.
  assert (Hlen : length (flush_trace (λ _, full_disk_env) saved_store).2 = 4%nat) by now vm_compute.
  assert (Herr : (flush_trace (λ _, full_disk_env) saved_store).1
    = Some "write temp file: no space left on device"%string) by now vm_compute.
  rewrite Ht in Hlen, Herr. cbn [fst snd] in Hlen, Herr. subst err.
  assert (Hp : HasSuffix (filePath saved_store) ".tmp" = false) by now vm_compute.
  destruct (flush_atomic (λ _, full_disk_env) saved_store _ trace Hp Ht) as [_ Hend].
  eexists _, trace. split; [done|]. split; [done|]. exact Hend.
Defined.

Lemma FileTokenStore_refines_witness :
  let s' := apply_operation (λ _, full_disk_env) saved_store (OpRevoke 77 "a") in
  GetByHash saved_store "h1" = Some (demo_entry "a" "h1" 10) ∧
  (∃ e, GetByHash s' "h1" = Some e ∧ RevokedAt e = 77%Z).
Proof.
  intros s'. split; [now vm_compute|].
  destruct (FileTokenStore_refines (λ _, full_disk_env) saved_store (OpRevoke 77 "a")) as (_ & Hget & _).
  - apply saved_store_wf.
  - done.
  - exists (revoked_at 77 (demo_entry "a" "h1" 10)). split; [|done].
    apply Hget. exists "a"%string. split; [now vm_compute|done].
Defined.

Lemma restart_exact_witness :
  let s' := (Revoke (λ _, quiet_env) saved_store 77 "a").2 in
  ∃ s'', NewFileTokenStore demo_secret "data/tokens.enc" None (disk s') 2 = inr s'' ∧
         tokens s'' = tokens s' ∧ size (tokens s') = 1%nat.
Proof.
  intros s'.
  destruct (restart_exact (λ _, quiet_env) demo_secret "data/tokens.enc" (disk demo_store) 0 demo_store
    [OpSave (demo_entry "a" "h1" 10); OpRevoke 77 "a"] s') as (s'' & Hnew & _ & Htok).
  - now vm_compute.
  - now vm_compute.
  - now vm_compute.
  - apply calm_cons.
    { split_and!; [exists "0123456789ab"%string|exists "42"%string|..]; now vm_compute. }
    { split; [apply demo_store_fresh|now vm_compute]. }
    apply calm_cons.
    { split_and!; [exists "0123456789ab"%string|exists "42"%string|..]; now vm_compute. }
    { now vm_compute. }
    apply calm_nil.
  - exists s''. split; [exact Hnew|]. split; [exact Htok|]. now vm_compute.
Defined.
