(* ===== verification/AuthManager.v ===== *)
(** API tokens in use: the authentication manager (internal/auth/auth-manager.go)
    and the admin API over it (api/admin-controller.go).

    The manager is defined over the interface [TokenStore].  A call that draws
    random bytes, a UUID or the time takes them as arguments ([draws]); SHA-256
    is the class [Sha256].  The binding of a JSON request body is the argument of
    createToken, [None] when gin refuses the body. *)
From S2P Require Import Prelude GoStrings Errors TokenStore.
From Stdlib Require Import Ascii.

(** The 32 bytes of the digest. *)
Class Sha256 := { Sum256 : string → string }.

(** [hex.EncodeToString] *)
Fixpoint EncodeToString (s : string) : string :=
  match s with
  | "" => ""
  | String a s =>
      let n := nat_of_ascii a in
      String (hex_digit (n / 16)) (String (hex_digit (n mod 16)) (EncodeToString s))
  end.

(** ** time.Parse with the layout 2006-01-02 *)

Definition date_digit (a : ascii) : option Z :=
  let n := Z.of_nat (nat_of_ascii a) in
  if (48 <=? n)%Z && (n <=? 57)%Z then Some (n - 48)%Z else None.

(** The number written by exactly [n] digits, and the text after them. *)
Fixpoint fixed_number (n : nat) (acc : Z) (s : string) : option (Z * string) :=
  match n, s with
  | O, _ => Some (acc, s)
  | S n, String a s => d ← date_digit a; fixed_number n (acc * 10 + d) s
  | S _, "" => None
  end.

Definition skip_dash (s : string) : option string :=
  match s with
  | String a s => if Ascii.eqb a "-" then Some s else None
  | "" => None
  end.

Definition leap (y : Z) : bool :=
  ((y mod 4 =? 0) && (negb (y mod 100 =? 0) || (y mod 400 =? 0)))%Z.

Definition days_in (y m : Z) : Z :=
  (if m =? 2 then if leap y then 29 else 28
   else if bool_decide (m ∈ [4; 6; 9; 11]) then 30 else 31)%Z.

Fixpoint days_before_month (y : Z) (m : nat) : Z :=
  match m with
  | O | 1%nat => 0%Z
  | S m => (days_before_month y m + days_in y (Z.of_nat m))%Z
  end.

(** The instant at which a day starts, in UTC. *)
Definition Date (y m d : Z) : time :=
  ((365 * (y - 1) + (y - 1) / 4 - (y - 1) / 100 + (y - 1) / 400
    + days_before_month y (Z.to_nat m) + (d - 1)) * 24 * Hour)%Z.

Definition parse_date (s : string) : option time :=
  '(y, s) ← fixed_number 4 0 s;
  s ← skip_dash s;
  '(m, s) ← fixed_number 2 0 s;
  s ← skip_dash s;
  '(d, s) ← fixed_number 2 0 s;
  if ((1 <=? m) && (m <=? 12) && (1 <=? d) && (d <=? days_in y m))%Z && String.eqb s ""
  then Some (Date y m d) else None.

(** ** The manager *)

Definition tokenPrefix : string := "gim_".
Definition tokenRawBytes : nat := 32.

(** The random bytes ([inl] is an error of the source), the UUID, and the instants
    of the three [time.Now()] calls of CreateToken. *)
Record draws := {
  dr_bytes : string + string;
  dr_uuid : string;
  dr_until : time;
  dr_default : time;
  dr_created : time;
}.

Inductive auth_outcome := Next | AbortWithStatus (status : Z).

Section auth_manager.
Context {T : Type} `{TokenStore T} `{Sha256}.

Record AuthManager := { store : T }.

Definition NewAuthManager (t : T) : AuthManager := {| store := t |}.

Definition hashToken (rawToken : string) : string := EncodeToString (Sum256 rawToken).

Definition generateOpaqueToken (bytes : string + string) : string + string * string :=
  match bytes with
  | inl err => inl ("failed to generate random bytes: " +:+ err)
  | inr buf =>
      let rawToken := tokenPrefix +:+ EncodeToString buf in inr (rawToken, hashToken rawToken)
  end.

Definition expiry (dr : draws) (expirationDate : string) : result time :=
  if (0 <? String.length expirationDate)%nat then
    match parse_date expirationDate with
    | None => fail BadRequest "invalid expiration date format, expected YYYY-MM-DD"
    | Some end_ =>
        if (end_ - dr_until dr <=? 0)%Z
        then fail BadRequest "expiration date must be greater than the current date"
        else Ok end_
    end
  else Ok (dr_default dr + 90 * 24 * Hour)%Z.

Definition CreateToken (am : AuthManager) (dr : draws) (name expirationDate : string)
    : result (TokenEntry * string) * AuthManager :=
  match expiry dr expirationDate with
  | Fail e => (Fail e, am)
  | Ok expiresAt =>
      match generateOpaqueToken (dr_bytes dr) with
      | inl _ => (fail InternalError "error generating token", am)
      | inr (rawToken, tokenHash) =>
          let entry := {| ID := dr_uuid dr; Name := name; TokenHash := tokenHash;
                          CreatedAt := dr_created dr; ExpiresAt := expiresAt; RevokedAt := 0%Z |} in
          match ts_Save (store am) entry with
          | (Some _, t) => (fail InternalError "error while saving token", {| store := t |})
          | (None, t) => (Ok (entry, rawToken), {| store := t |})
          end
      end
  end.

Definition ListTokens (am : AuthManager) : list TokenEntry * AuthManager :=
  let '(l, t) := ts_List (store am) in (l, {| store := t |}).

Definition RevokeToken (am : AuthManager) (now : time) (id : string) : bool * AuthManager :=
  let '(revoked, t) := ts_Revoke (store am) now id in (revoked, {| store := t |}).

Definition extractToken (authHeader : string) : string :=
  match SplitN2 authHeader " " with
  | [scheme; token] => if EqualFold scheme "Bearer" then token else ""
  | _ => ""
  end.

(** [now] is the time at which IsExpired reads the clock. *)
Definition AuthenticateMiddleware (am : AuthManager) (now : time) (authorization : string)
    : auth_outcome * AuthManager :=
  let rawToken := extractToken authorization in
  if String.eqb rawToken "" then (AbortWithStatus 401, am)
  else
    match ts_GetByHash (store am) (hashToken rawToken) with
    | (None, t) => (AbortWithStatus 401, {| store := t |})
    | (Some entry, t) =>
        (if IsValid now entry then Next else AbortWithStatus 401, {| store := t |})
    end.

(** ** The admin API *)

Record createTokenRequest := { rq_Name : string; rq_ExpirationDate : string }.

Definition maxTokenNameLength : nat := 255.

Definition validate (req : createTokenRequest) : option GimmeError :=
  if (String.length (rq_Name req) =? 0)%nat then
    Some (NewBusinessError BadRequest (Some "access token name is required"))
  else if (maxTokenNameLength <? String.length (rq_Name req))%nat then
    Some (NewBusinessError BadRequest
      (Some ("access token name must not exceed " +:+ pretty maxTokenNameLength +:+ " characters")))
  else None.

Record tokenResponse := {
  rs_ID : string;
  rs_Name : string;
  rs_Token : string;
  rs_CreatedAt : time;
  rs_ExpiresAt : time;
}.

Inductive admin_body := ErrorBody (message : string) | TokenBody (token : tokenResponse) | NoBody
  | AdminPage (tokens : list TokenEntry).

Definition getAdmin (am : AuthManager) : Z * admin_body * AuthManager :=
  let '(tokens, am) := ListTokens am in (200%Z, AdminPage tokens, am).

Definition createToken (am : AuthManager) (dr : draws) (body : option createTokenRequest)
    : Z * admin_body * AuthManager :=
  match body with
  | None => (400%Z, ErrorBody "invalid request body", am)
  | Some request =>
      match validate request with
      | Some e => (GetHTTPCode e, ErrorBody (Error e), am)
      | None =>
          match CreateToken am dr (rq_Name request) (rq_ExpirationDate request) with
          | (Fail e, am) => (GetHTTPCode e, ErrorBody (Error e), am)
          | (Ok (entry, rawToken), am) =>
              (201%Z, TokenBody {| rs_ID := ID entry; rs_Name := Name entry; rs_Token := rawToken;
                 rs_CreatedAt := CreatedAt entry; rs_ExpiresAt := ExpiresAt entry |}, am)
          end
      end
  end.

Definition deleteToken (am : AuthManager) (now : time) (id : string) : Z * admin_body * AuthManager :=
  match RevokeToken am now id with
  | (false, am) => (404%Z, ErrorBody "token not found", am)
  | (true, am) => (204%Z, NoBody, am)
  end.

End auth_manager.
Arguments AuthManager T : clear implicits.

(** ** Authentication *)

(** The Authorization header presents this token. *)
Definition bears (authorization token : string) : Prop :=
  token ≠ "" ∧ ∃ scheme, authorization = scheme +:+ " " +:+ token ∧
    char_free " " scheme = true ∧ EqualFold scheme "Bearer" = true.

Lemma extractToken_bears authorization token :
  token ≠ "" → extractToken authorization = token ↔ bears authorization token.
Proof.
  intros Hne. unfold extractToken, bears.
  destruct (Contains authorization " ") eqn:Hc.
  - apply Contains_true in Hc as (scheme & rest & -> & Hfree). rewrite SplitN2_app by done.
    split.
    + destruct (EqualFold scheme "Bearer") eqn:Hs; intros Heq; [|by subst].
      subst rest. split; [done|]. exists scheme. done.
    + intros [_ (scheme' & Heq & Hfree' & Hs')].
      apply char_free_sep_inj in Heq as [-> ->]; [|done..]. by rewrite Hs'.
  - assert (Hfree : char_free " " authorization = true).
    { unfold Contains in Hc. by apply negb_false_iff in Hc. }
    rewrite SplitN2_free by done. split; [by intros <-|].
    intros [_ (scheme & -> & _ & _)]. rewrite char_free_app in Hfree. by destruct Hfree.
Qed.

Lemma bears_unique authorization token token' :
  bears authorization token → bears authorization token' → token = token'.
Proof.
  intros Hb Hb'. pose proof Hb as [Hne _]. pose proof Hb' as [Hne' _].
  apply extractToken_bears in Hb; [|done]. apply extractToken_bears in Hb'; [|done]. congruence.
Qed.

Section authentication.
Context {T : Type} `{TokenStoreLaws T} `{Sha256}.
Implicit Types (am : AuthManager T) (t : T).

(** The entry stored for this token. *)
Definition stored_token t (token : string) (e : TokenEntry) : Prop :=
  ∃ id, ts_tokens t !! id = Some e ∧ TokenHash e = hashToken token.

Lemma stored_token_unique t token e1 e2 :
  ts_inv t → stored_token t token e1 → stored_token t token e2 → e1 = e2.
Proof.
  intros Hinv (id1 & He1 & Hh1) (id2 & He2 & Hh2).
  assert (id1 = id2) as -> by (eapply ts_inv_hash; eauto; congruence). congruence.
Qed.

(** A call that only reads: no entry appears or changes, those without an expiry stay,
    and a store that answers keeps them all. *)
Definition untouched am am' : Prop :=
  lapsed (ts_tokens (store am)) (ts_tokens (store am')) ∧
  (ts_reliable (store am) → ts_reliable (store am') ∧ ts_tokens (store am') = ts_tokens (store am)).

Lemma untouched_refl am : untouched am am.
Proof. split; [apply lapsed_refl|done]. Qed.

Lemma authenticate_spec am now authorization outcome am' :
  ts_inv (store am) → AuthenticateMiddleware am now authorization = (outcome, am') →
  (outcome = Next ∨ outcome = AbortWithStatus 401) ∧
  (outcome = Next → ∃ token e, bears authorization token ∧ stored_token (store am) token e ∧
     RevokedAt e = 0%Z ∧ (ExpiresAt e = 0%Z ∨ (now ≤ ExpiresAt e)%Z)) ∧
  (ts_reliable (store am) → ∀ token e, bears authorization token → stored_token (store am) token e →
     RevokedAt e = 0%Z → (ExpiresAt e = 0%Z ∨ (now ≤ ExpiresAt e)%Z) → outcome = Next) ∧
  ts_inv (store am') ∧ untouched am am'.
Proof.
  intros Hinv. unfold AuthenticateMiddleware.
  destruct (String.eqb_spec (extractToken authorization) "") as [Hempty|Hne].
  { intros [= <- <-]. split; [by right|]. split; [done|]. split.
    - intros _ token e Hb. pose proof Hb as [Hne _]. apply extractToken_bears in Hb; [congruence|done].
    - split; [done|apply untouched_refl]. }
  assert (Hb : bears authorization (extractToken authorization)) by exact (proj1 (extractToken_bears _ _ Hne) eq_refl).
  destruct (ts_GetByHash (store am) _) as [r t'] eqn:Hget.
  destruct (ts_GetByHash_spec _ _ _ _ Hinv Hget) as (Hinv' & Hrel' & Hlapsed & Hsome & Hnone).
  destruct r as [e|]; intros [= <- <-]; cbn [store].
  - destruct (Hsome e eq_refl) as (id & He & Hh).
    split; [destruct (IsValid now e); auto|]. split; [|split; [|done]].
    + destruct (IsValid now e) eqn:Hv; [intros _|done]. apply IsValid_spec in Hv as [Hr Hx].
      exists (extractToken authorization), e. split; [done|]. split; [by exists id|done].
    + intros _ token e' Hb' Hst Hr Hx. pose proof Hb' as [Hne' _].
      apply extractToken_bears in Hb'; [|done]. rewrite <- Hb' in Hst.
      assert (e' = e) as -> by (apply (stored_token_unique (store am) (extractToken authorization)); [done|done|by exists id]).
      by rewrite (proj2 (IsValid_spec now e)).
  - split; [by right|]. split; [done|]. split; [|done].
    intros Hrel token e Hb' (id & He & Hh) Hr _. pose proof Hb' as [Hne' _].
    apply extractToken_bears in Hb'; [|done]. exfalso.
    apply (Hnone Hrel eq_refl id e He); congruence.
Qed.

(** C17: AuthenticateMiddleware lets a request through exactly when it should.  A request
    passes only if its Authorization header is "Bearer", in any case, a space and a
    non-empty token whose SHA-256 digest is the hash of a stored entry that is neither
    revoked nor expired; with a store that answers, every such request passes.  All
    the others are answered with 401.  No stored token appears or changes, and a store
    that answers keeps them all. *)
Theorem authenticate_exact am now authorization outcome am' :
  ts_inv (store am) → AuthenticateMiddleware am now authorization = (outcome, am') →
  (outcome = Next ∨ outcome = AbortWithStatus 401) ∧
  (outcome = Next → ∃ token e, bears authorization token ∧ stored_token (store am) token e ∧
     RevokedAt e = 0%Z ∧ (ExpiresAt e = 0%Z ∨ (now ≤ ExpiresAt e)%Z)) ∧
  (ts_reliable (store am) → ∀ token e, bears authorization token → stored_token (store am) token e →
     RevokedAt e = 0%Z → (ExpiresAt e = 0%Z ∨ (now ≤ ExpiresAt e)%Z) → outcome = Next) ∧
  ts_inv (store am') ∧ untouched am am'.
Proof. apply authenticate_spec. Qed.

(** ** Creation *)

Lemma EncodeToString_length s : String.length (EncodeToString s) = 2 * String.length s.
Proof. induction s as [|a s IH]; [done|]. cbn. rewrite IH. lia. Qed.

Lemma expiry_future dr date expires :
  expiry dr date = Ok expires →
  (date = "" ∧ expires = (dr_default dr + 90 * 24 * Hour)%Z) ∨
  (parse_date date = Some expires ∧ (dr_until dr < expires)%Z).
Proof.
  unfold expiry. destruct (Nat.ltb_spec 0 (String.length date)) as [Hpos|Hzero].
  - destruct (parse_date date) as [end_|]; [|done].
    destruct (Z.leb_spec (end_ - dr_until dr) 0); [done|]. intros [= <-]. right. split; [done|lia].
  - intros [= <-]. left. split; [|done]. apply str_length_zero. lia.
Qed.

(** The store can keep the entry of a creation, and the UUID and the digest drawn for
    it are not in use. *)
Definition fresh_draws t (dr : draws) (date : string) : Prop :=
  ∀ buf e, dr_bytes dr = inr buf → ID e = dr_uuid dr →
    TokenHash e = hashToken (tokenPrefix +:+ EncodeToString buf) → CreatedAt e = dr_created dr →
    expiry dr date = Ok (ExpiresAt e) → RevokedAt e = 0%Z → ts_fresh t e.

(** The store of [am'] is the one of [am] after [e] was put in, up to what a store
    loses of an entry and to the entries that lapsed. *)
Definition created_in am am' (e : TokenEntry) : Prop :=
  ∃ m e', lapsed (ts_tokens (store am)) m ∧ (ts_reliable (store am) → m = ts_tokens (store am)) ∧
    stored_as e e' ∧ ts_tokens (store am) !! ID e = None ∧ ts_tokens (store am') = <[ID e := e']> m.

Lemma CreateToken_spec am dr name date res am' :
  ts_inv (store am) → fresh_draws (store am) dr date → CreateToken am dr name date = (res, am') →
  ts_inv (store am') ∧ (ts_reliable (store am) → ts_reliable (store am')) ∧
  match res with
  | Ok (e, rawToken) =>
      ∃ buf, dr_bytes dr = inr buf ∧ rawToken = tokenPrefix +:+ EncodeToString buf ∧
        expiry dr date = Ok (ExpiresAt e) ∧
        e = {| ID := dr_uuid dr; Name := name; TokenHash := hashToken rawToken; CreatedAt := dr_created dr;
               ExpiresAt := ExpiresAt e; RevokedAt := 0%Z |} ∧
        created_in am am' e
  | Fail err =>
      (∃ msg, expiry dr date = fail BadRequest msg ∧ err = NewBusinessError BadRequest (Some msg) ∧ am' = am) ∨
      (∃ expires, expiry dr date = Ok expires ∧ Kind err = InternalError ∧
         (untouched am am' ∨
          ∃ buf e, dr_bytes dr = inr buf ∧ TokenHash e = hashToken (tokenPrefix +:+ EncodeToString buf) ∧
            ID e = dr_uuid dr ∧ created_in am am' e))
  end.
Proof.
  intros Hinv Hfresh. unfold CreateToken.
  destruct (expiry dr date) as [expires|err] eqn:Hx.
  2: { intros [= <- <-]. split; [done|]. split; [done|]. left. unfold expiry in Hx.
       repeat case_match; unfold fail in Hx; simplify_eq; eauto. }
  unfold generateOpaqueToken. destruct (dr_bytes dr) as [err|buf] eqn:Hbytes.
  { intros [= <- <-]. split; [done|]. split; [done|]. right. exists expires.
    split; [done|]. split; [done|]. left. apply untouched_refl. }
  destruct (ts_Save (store am) _) as [err t'] eqn:Hsave.
  assert (Hf : ts_fresh (store am)
    {| ID := dr_uuid dr; Name := name; TokenHash := hashToken (tokenPrefix +:+ EncodeToString buf);
       CreatedAt := dr_created dr; ExpiresAt := expires; RevokedAt := 0%Z |}) by by apply (Hfresh buf).
  destruct (ts_fresh_token _ _ Hinv Hf) as [Hnew _].
  apply ts_Save_spec in Hsave as (Hinv' & Hrel & m & Hm & Heq & Htok); [|done|done].
  destruct err as [err|]; intros [= <- <-]; (split; [done|]); (split; [done|]); cbn [store].
  - right. exists expires. split; [done|]. split; [done|].
    destruct Htok as [(e' & He' & Htok)|[_ Htok]].
    + right. eexists buf, _. split; [done|]. split; [|split; [|by exists m, e']]; done.
    + left. unfold untouched. cbn [store]. rewrite Htok. auto.
  - exists buf. destruct Htok as [(e' & He' & Htok)|[Hne _]]; [|done].
    split; [done|]. split; [done|]. split; [done|]. split; [done|]. by exists m, e'.
Qed.

(** The entry a creation stores is found under its token. *)
Lemma created_in_stored am am' e token :
  created_in am am' e → TokenHash e = hashToken token →
  ∃ e', stored_as e e' ∧ ts_tokens (store am') !! ID e = Some e' ∧ stored_token (store am') token e'.
Proof.
  intros (m & e' & _ & _ & He' & _ & Htok) Hh. exists e'. split; [done|].
  assert (Hl : ts_tokens (store am') !! ID e = Some e') by by rewrite Htok, lookup_insert_eq.
  split; [done|]. exists (ID e). split; [done|]. rewrite (stored_TokenHash _ _ He'). done.
Qed.

(** Every other entry was there before. *)
Lemma created_in_other am am' e id x :
  created_in am am' e → id ≠ ID e → ts_tokens (store am') !! id = Some x → ts_tokens (store am) !! id = Some x.
Proof.
  intros (m & e' & Hm & _ & _ & _ & ->) Hne. rewrite lookup_insert_ne by done. by apply lapsed_lookup.
Qed.

(** A token that CreateToken returns works until it expires.  The raw token is
    "gim_" and the hexadecimal form of the random bytes; its entry has the given name, no
    revocation, and an expiry later than the present: the requested day or, without
    one, 90 days after the present.  The store then holds this entry, with the digest in
    place of the raw token, beside some of the previous ones; a request with "Bearer" and
    the token passes up to the expiry, to the microsecond that a store may lose, and is
    refused with 401 after it. *)
Theorem created_token_works am dr name date e rawToken am' :
  ts_inv (store am) → fresh_draws (store am) dr date → (0 < dr_default dr)%Z →
  CreateToken am dr name date = (Ok (e, rawToken), am') →
  created_in am am' e ∧
  TokenHash e = hashToken rawToken ∧ Name e = name ∧ RevokedAt e = 0%Z ∧
  (∃ buf, dr_bytes dr = inr buf ∧ rawToken = "gim_" +:+ EncodeToString buf) ∧
  (date = "" ∧ ExpiresAt e = (dr_default dr + 90 * 24 * Hour)%Z ∨
   parse_date date = Some (ExpiresAt e) ∧ (dr_until dr < ExpiresAt e)%Z) ∧
  (∀ now, ts_reliable (store am') → (now + Microsecond ≤ ExpiresAt e)%Z →
     (AuthenticateMiddleware am' now ("Bearer " +:+ rawToken)).1 = Next) ∧
  (∀ now, (ExpiresAt e < now)%Z → ExpiresAt e ≠ 0%Z →
     (AuthenticateMiddleware am' now ("Bearer " +:+ rawToken)).1 = AbortWithStatus 401).
Proof.
  intros Hinv Hfresh Hpos Hcreate.
  destruct (CreateToken_spec _ _ _ _ _ _ Hinv Hfresh Hcreate)
    as (Hinv' & _ & buf & Hbuf & -> & Hx & He & Hin).
  destruct (created_in_stored _ _ _ (tokenPrefix +:+ EncodeToString buf) Hin) as (e' & Hs & _ & Hst); [by rewrite He|].
  assert (Hb : bears ("Bearer " +:+ (tokenPrefix +:+ EncodeToString buf)) (tokenPrefix +:+ EncodeToString buf)).
  { split; [done|]. by exists "Bearer"%string. }
  pose proof (stored_ExpiresAt _ _ Hs) as Hxs.
  split; [done|]. split; [by rewrite He|]. split; [by rewrite He|]. split; [by rewrite He|].
  split; [by exists buf|]. split; [by apply expiry_future|]. split; intros now.
  - intros Hrel Hnow. destruct (AuthenticateMiddleware am' now _) as [o am2] eqn:Ha.
    destruct (authenticate_spec _ _ _ _ _ Hinv' Ha) as (_ & _ & Hyes & _).
    apply (Hyes Hrel _ e' Hb Hst); [apply (stored_RevokedAt _ _ Hs); by rewrite He|right; lia].
  - intros Hnow Hnz. destruct (AuthenticateMiddleware am' now _) as [o am2] eqn:Ha.
    destruct (authenticate_spec _ _ _ _ _ Hinv' Ha) as ([->| ->] & Hno & _ & _); [|done].
    destruct (Hno eq_refl) as (token & e2 & Hb' & Hst' & _ & Hx').
    assert (token = tokenPrefix +:+ EncodeToString buf) as -> by (by eapply bears_unique).
    assert (e2 = e') as -> by by eapply stored_token_unique.
    destruct Hx' as [Hz|]; [by apply (stored_no_expiry _ _ Hs) in Hz|lia].
Qed.

(** ** Revocation *)

(** What may happen to the manager: requests to the API in any order, and the store's own purges. *)
Inductive auth_event :=
  | EvCreate (dr : draws) (name date : string)
  | EvList
  | EvRevoke (now : time) (id : string)
  | EvAuthenticate (now : time) (authorization : string)
  | EvPurge (now : time).

Definition handle am (ev : auth_event) : AuthManager T :=
  match ev with
  | EvCreate dr name date => (CreateToken am dr name date).2
  | EvList => (ListTokens am).2
  | EvRevoke now id => (RevokeToken am now id).2
  | EvAuthenticate now authorization => (AuthenticateMiddleware am now authorization).2
  | EvPurge now => {| store := ts_Purge (store am) now |}
  end.

(** The clock shows a sane instant, and random draws are new and do not hit the
    digest [hash]. *)
Definition event_ok (hash : string) am (ev : auth_event) : Prop :=
  match ev with
  | EvCreate dr _ date => fresh_draws (store am) dr date ∧
      ∀ buf, dr_bytes dr = inr buf → hashToken (tokenPrefix +:+ EncodeToString buf) ≠ hash
  | EvRevoke now _ => clock_ok now = true
  | _ => True
  end.

Inductive run (hash : string) : AuthManager T → list auth_event → AuthManager T → Prop :=
  | run_nil am : run hash am [] am
  | run_cons am ev evs am' : event_ok hash am ev → run hash (handle am ev) evs am' → run hash am (ev :: evs) am'.

(** Whatever entry has this hash is revoked. *)
Definition dead (hash : string) am : Prop :=
  ts_inv (store am) ∧
  ∀ id e, ts_tokens (store am) !! id = Some e → TokenHash e = hash → RevokedAt e ≠ 0%Z.

Lemma dead_lapsed hash am am' :
  ts_inv (store am') → lapsed (ts_tokens (store am)) (ts_tokens (store am')) → dead hash am → dead hash am'.
Proof. intros Hinv' Hl [_ Hdead]. split; [done|]. intros id e He. eapply Hdead, lapsed_lookup; eauto. Qed.

Lemma revoke_dead hash am now id found am' :
  dead hash am → clock_ok now = true → RevokeToken am now id = (found, am') → dead hash am'.
Proof.
  intros [Hinv Hdead] Hnow. unfold RevokeToken.
  destruct (ts_Revoke (store am) now id) as [found' t'] eqn:Hr. intros [= -> <-].
  apply ts_Revoke_spec in Hr as (Hinv' & _ & m & Hm & _ & Hcase); [|done..].
  split; [done|]. cbn [store]. intros id' x Hx Hh.
  destruct Hcase as [(e & e' & He & Hs & Htok & _)|(_ & Htok & _)]; rewrite Htok in Hx.
  - apply lookup_insert_Some in Hx as [[<- <-]|[_ Hx]]; [|by eapply Hdead; [eapply lapsed_lookup|]].
    rewrite (stored_RevokedAt _ _ Hs). by apply clock_ok_nonzero.
  - by eapply Hdead; [eapply lapsed_lookup|].
Qed.

Lemma handle_dead hash am ev : dead hash am → event_ok hash am ev → dead hash (handle am ev).
Proof.
  intros Hd Hok. pose proof Hd as [Hinv Hdead].
  destruct ev as [dr name date| |now id|now authorization|now]; cbn [handle].
  - destruct Hok as [Hfresh Hnew]. destruct (CreateToken am dr name date) as [res am'] eqn:Hc.
    destruct (CreateToken_spec _ _ _ _ _ _ Hinv Hfresh Hc) as (Hinv' & _ & Hres). cbn [snd].
    assert (Hins : ∀ x buf, dr_bytes dr = inr buf →
      TokenHash x = hashToken (tokenPrefix +:+ EncodeToString buf) → created_in am am' x → dead hash am').
    { intros x buf Hbuf Hx Hin. split; [done|]. intros id e He Hh.
      destruct (decide (id = ID x)) as [->|Hne]; [|by eapply Hdead; [eapply created_in_other|]].
      exfalso. destruct (created_in_stored _ _ _ _ Hin Hx) as (e' & Hs & He' & _).
      apply (Hnew buf Hbuf). rewrite <- Hx, <- Hh, <- (stored_TokenHash _ _ Hs). congruence. }
    destruct res as [[e raw]|err].
    + destruct Hres as (buf & Hbuf & -> & _ & He & Hin). apply (Hins e buf); [done| |done]. by rewrite He.
    + destruct Hres as [(msg & _ & _ & ->)|(expires & _ & _ & [Hl|(buf & x & Hbuf & Hx & _ & Hin)])]; [done| |].
      * destruct Hl. by eapply dead_lapsed.
      * by apply (Hins x buf).
  - unfold ListTokens. destruct (ts_List (store am)) as [l t'] eqn:Hl.
    destruct (ts_List_spec _ _ _ Hinv Hl) as (? & _ & Hlapsed & _). by apply (dead_lapsed hash am).
  - destruct (RevokeToken am now id) as [found am'] eqn:Hr. by eapply revoke_dead.
  - destruct (AuthenticateMiddleware am now authorization) as [o am'] eqn:Ha.
    destruct (authenticate_spec _ _ _ _ _ Hinv Ha) as (_ & _ & _ & ? & Hlapsed & _). by apply (dead_lapsed hash am).
  - destruct (ts_Purge_spec (store am) now Hinv) as (? & _ & Hlapsed & _). by apply (dead_lapsed hash am).
Qed.

Lemma run_dead hash am evs am' : run hash am evs am' → dead hash am → dead hash am'.
Proof. induction 1; [done|]. intros Hd. apply IHrun. by apply handle_dead. Qed.

Lemma revoked_dead am now id e am1 :
  ts_inv (store am) → clock_ok now = true → ts_tokens (store am) !! id = Some e →
  RevokeToken am now id = (true, am1) → dead (TokenHash e) am1.
Proof.
  intros Hinv Hnow He. unfold RevokeToken.
  destruct (ts_Revoke (store am) now id) as [found t'] eqn:Hr. intros [= -> <-].
  apply ts_Revoke_spec in Hr as (Hinv' & _ & m & Hm & _ & Hcase); [|done..].
  destruct Hcase as [(x & x' & Hx & Hs & Htok & _)|(? & _)]; [|done].
  split; [done|]. cbn [store]. rewrite Htok. intros id' y Hy Hh.
  apply lookup_insert_Some in Hy as [[<- <-]|[Hne Hy]].
  - rewrite (stored_RevokedAt _ _ Hs). by apply clock_ok_nonzero.
  - exfalso. apply Hne. apply (lapsed_lookup _ _ _ _ Hm) in Hy.
    by apply (ts_inv_hash (store am) id id' e y).
Qed.

(** C18: a revocation is for ever.  Once RevokeToken has answered true for the ID of a
    token, then after any further sequence of creations, listings, revocations,
    authentications and purges a request that presents this token is answered with 401. *)
Theorem revoked_for_ever am now id token e am1 evs am2 later authorization :
  ts_inv (store am) → clock_ok now = true → ts_tokens (store am) !! id = Some e → TokenHash e = hashToken token →
  RevokeToken am now id = (true, am1) → run (hashToken token) am1 evs am2 →
  bears authorization token →
  (AuthenticateMiddleware am2 later authorization).1 = AbortWithStatus 401.
Proof.
  intros Hinv Hnow He Hh Hrev Hrun Hb.
  assert (Hdead : dead (hashToken token) am1) by (rewrite <- Hh; by eapply revoked_dead).
  apply (run_dead _ _ _ _ Hrun) in Hdead as [Hinv2 Hdead].
  destruct (AuthenticateMiddleware am2 later authorization) as [o am3] eqn:Ha.
  destruct (authenticate_spec _ _ _ _ _ Hinv2 Ha) as ([->| ->] & Hno & _); [|done].
  destruct (Hno eq_refl) as (token' & e' & Hb' & (id' & He' & Hh') & Hr' & _).
  exfalso. apply (Hdead id' e'); [done| |done]. rewrite Hh'. f_equal.
  by apply (bears_unique authorization).
Qed.

(** ** Availability *)

(** The entry is stored and not revoked in a store that answers. *)
Definition alive (e : TokenEntry) am : Prop :=
  ts_inv (store am) ∧ ts_reliable (store am) ∧ ts_tokens (store am) !! ID e = Some e ∧ RevokedAt e = 0%Z.

(** Nobody revokes the entry, and the purges come before its expiry. *)
Definition spares (e : TokenEntry) am (ev : auth_event) : Prop :=
  match ev with
  | EvCreate dr _ date => fresh_draws (store am) dr date
  | EvRevoke now id => clock_ok now = true ∧ id ≠ ID e
  | EvPurge now => ExpiresAt e = 0%Z ∨ (now + purge_slack ≤ ExpiresAt e)%Z
  | _ => True
  end.

Inductive sparing_run (e : TokenEntry) : AuthManager T → list auth_event → AuthManager T → Prop :=
  | sparing_nil am : sparing_run e am [] am
  | sparing_cons am ev evs am' :
      spares e am ev → sparing_run e (handle am ev) evs am' → sparing_run e am (ev :: evs) am'.

Lemma create_alive e am dr name date :
  alive e am → fresh_draws (store am) dr date → alive e (CreateToken am dr name date).2.
Proof.
  intros (Hinv & Hrel & He & Hr) Hfresh. destruct (CreateToken am dr name date) as [res am'] eqn:Hc.
  destruct (CreateToken_spec _ _ _ _ _ _ Hinv Hfresh Hc) as (Hinv' & Hrel' & Hres). cbn [snd].
  split; [done|]. split; [auto|]. split; [|done].
  assert (Hin : ∀ x, created_in am am' x → ts_tokens (store am') !! ID e = Some e).
  { intros x (m & x' & _ & Hm & _ & Hnew & ->). rewrite (Hm Hrel), lookup_insert_ne; [done|congruence]. }
  destruct res as [[x raw]|err].
  - destruct Hres as (buf & _ & _ & _ & _ & Hx). by eapply Hin.
  - destruct Hres as [(msg & _ & _ & ->)|(x & _ & _ & [[_ Hsame]|(buf & y & _ & _ & _ & Hy)])]; [done| |by eapply Hin].
    by destruct (Hsame Hrel) as [_ ->].
Qed.

Lemma revoke_alive e am now id :
  alive e am → clock_ok now = true → id ≠ ID e → alive e (RevokeToken am now id).2.
Proof.
  intros (Hinv & Hrel & He & Hr) Hnow Hne. unfold RevokeToken.
  destruct (ts_Revoke (store am) now id) as [found t'] eqn:Hrev.
  apply ts_Revoke_spec in Hrev as (Hinv' & Hrel' & m & _ & Hm & Hcase); [|done..].
  split; [done|]. split; [auto|]. split; [|done]. cbn [store snd]. rewrite (Hm Hrel) in Hcase.
  destruct Hcase as [(x & x' & _ & _ & -> & _)|(_ & -> & _)]; [|done]. by rewrite lookup_insert_ne.
Qed.

Lemma handle_alive e am ev : alive e am → spares e am ev → alive e (handle am ev).
Proof.
  intros Halive Hok. pose proof Halive as (Hinv & Hrel & He & Hr).
  destruct ev as [dr name date| |now id|now authorization|now]; cbn [handle].
  - by apply create_alive.
  - unfold ListTokens. destruct (ts_List (store am)) as [l t'] eqn:Hl.
    destruct (ts_List_spec _ _ _ Hinv Hl) as (? & Hsame & _). destruct (Hsame Hrel) as [? Htok].
    unfold alive. cbn [store snd]. by rewrite Htok.
  - destruct Hok. by apply revoke_alive.
  - destruct (AuthenticateMiddleware am now authorization) as [o am'] eqn:Ha.
    destruct (authenticate_spec _ _ _ _ _ Hinv Ha) as (_ & _ & _ & ? & _ & Hsame). destruct (Hsame Hrel) as [? Htok].
    unfold alive. cbn [snd]. by rewrite Htok.
  - destruct (ts_Purge_spec (store am) now Hinv) as (? & Hrel' & [_ Hnone] & Hstay).
    split; [done|]. split; [auto|]. split; [|done]. cbn [store spares] in *. destruct Hok as [Hz|]; [|auto].
    destruct (ts_tokens (ts_Purge (store am) now) !! ID e) as [e'|] eqn:He'; [|by destruct (Hnone _ _ He He')].
    pose proof (lapsed_lookup _ _ _ _ (proj1 (proj2 (proj2 (ts_Purge_spec (store am) now Hinv)))) He'). congruence.
Qed.

Lemma sparing_run_alive e am evs am' : sparing_run e am evs am' → alive e am → alive e am'.
Proof. induction 1; [done|]. intros Hd. apply IHsparing_run. by apply handle_alive. Qed.

(** C19: a token that nobody revokes stays usable.  Take a store that answers and holds an
    entry that is not revoked.  After any sequence of creations, listings, authentications,
    revocations of other tokens and purges before its expiry, a request that presents
    the token of this entry passes until the entry expires. *)
Theorem live_token_passes am e evs am' token authorization now :
  ts_inv (store am) → ts_reliable (store am) → stored_token (store am) token e → RevokedAt e = 0%Z →
  sparing_run e am evs am' → bears authorization token →
  (ExpiresAt e = 0%Z ∨ (now ≤ ExpiresAt e)%Z) →
  (AuthenticateMiddleware am' now authorization).1 = Next.
Proof.
  intros Hinv Hrel (id & He & Hh) Hr Hrun Hb Hx.
  assert (ID e = id) as <- by by apply (ts_inv_ID (store am)).
  apply sparing_run_alive in Hrun as (Hinv' & Hrel' & He' & _); [|done].
  destruct (AuthenticateMiddleware am' now authorization) as [o am2] eqn:Ha.
  destruct (authenticate_spec _ _ _ _ _ Hinv' Ha) as (_ & _ & Hyes & _).
  apply (Hyes Hrel' token e); [done|by exists (ID e)|done..].
Qed.

End authentication.

(** ** The admin API *)

Section admin.
Context {T : Type} `{TokenStoreLaws T} `{Sha256}.
Implicit Types am : AuthManager T.

(** The requests the API refuses. *)
Definition bad_request (dr : draws) (body : option createTokenRequest) : Prop :=
  match body with
  | None => True
  | Some req =>
      rq_Name req = "" ∨ 255 < String.length (rq_Name req) ∨
      ∀ expires, expiry dr (rq_ExpirationDate req) ≠ Ok expires
  end.

(** The entry that a request creates from these random bytes, up to this expiry. *)
Definition requested_entry (dr : draws) (req : createTokenRequest) (buf : string) (expires : time) : TokenEntry :=
  {| ID := dr_uuid dr; Name := rq_Name req; TokenHash := hashToken (tokenPrefix +:+ EncodeToString buf);
     CreatedAt := dr_created dr; ExpiresAt := expires; RevokedAt := 0%Z |}.

(** How the store answers to the entry of a request: [None], or the error of Save. *)
Definition save_result am dr req : option string → Prop := λ err,
  ∃ buf expires, dr_bytes dr = inr buf ∧ expiry dr (rq_ExpirationDate req) = Ok expires ∧
    (ts_Save (store am) (requested_entry dr req buf expires)).1 = err.

Lemma validate_spec req :
  match validate req with
  | Some e => GetHTTPCode e = 400%Z ∧ (rq_Name req = "" ∨ 255 < String.length (rq_Name req))
  | None => rq_Name req ≠ "" ∧ String.length (rq_Name req) ≤ 255
  end.
Proof.
  unfold validate, maxTokenNameLength. pose proof (str_length_zero (rq_Name req)) as Hzero.
  destruct (Nat.eqb_spec (String.length (rq_Name req)) 0); [split; [done|left; tauto]|].
  destruct (Nat.ltb_spec 255 (String.length (rq_Name req))); [split; [done|by right]|].
  split; [tauto|lia].
Qed.

(** Which of its three ends a creation comes to. *)
Lemma CreateToken_ends am dr req res am' :
  CreateToken am dr (rq_Name req) (rq_ExpirationDate req) = (res, am') →
  match res with
  | Ok (e, raw) => ∃ buf, raw = tokenPrefix +:+ EncodeToString buf ∧ dr_bytes dr = inr buf ∧
      expiry dr (rq_ExpirationDate req) = Ok (ExpiresAt e) ∧ e = requested_entry dr req buf (ExpiresAt e) ∧
      save_result am dr req None
  | Fail err =>
      (∀ expires, expiry dr (rq_ExpirationDate req) ≠ Ok expires) ∧ GetHTTPCode err = 400%Z ∧ am' = am ∨
      (∃ expires, expiry dr (rq_ExpirationDate req) = Ok expires) ∧ GetHTTPCode err = 500%Z ∧
      ((∃ failure, dr_bytes dr = inl failure) ∧ am' = am ∨ ∃ failure, save_result am dr req (Some failure))
  end.
Proof.
  unfold CreateToken. destruct (expiry dr _) as [expires|err] eqn:Hx.
  2: { intros [= <- <-]. left. split; [done|]. split; [|done].
       unfold expiry in Hx. repeat case_match; unfold fail in Hx; by simplify_eq. }
  unfold generateOpaqueToken. destruct (dr_bytes dr) as [failure|buf] eqn:Hbytes.
  { intros [= <- <-]. right. split; [by eexists|]. split; [done|]. left. eauto. }
  change {| ID := _ |} with (requested_entry dr req buf expires).
  assert (Hsave : ∀ r, (ts_Save (store am) (requested_entry dr req buf expires)).1 = r → save_result am dr req r)
    by (intros r Hr; by exists buf, expires).
  destruct (ts_Save (store am) (requested_entry dr req buf expires)) as [[failure|] t]; intros [= <- <-].
  - right. split; [by eexists|]. split; [done|]. right. exists failure. by apply Hsave.
  - exists buf. do 4 (split; [done|]). by apply Hsave.
Qed.

(** The answer shows the raw token, and the store holds its entry, by the digest only. *)
Definition token_issued am am' dr req (answer : admin_body) : Prop :=
  ∃ token buf e, answer = TokenBody token ∧ dr_bytes dr = inr buf ∧
    rs_Token token = tokenPrefix +:+ EncodeToString buf ∧
    expiry dr (rq_ExpirationDate req) = Ok (rs_ExpiresAt token) ∧ created_in am am' e ∧ ID e = rs_ID token ∧
    TokenHash e = hashToken (rs_Token token) ∧ Name e = rq_Name req ∧ ExpiresAt e = rs_ExpiresAt token.

Lemma createToken_cases am dr body status answer am' :
  ts_inv (store am) →
  (∀ req, body = Some req → fresh_draws (store am) dr (rq_ExpirationDate req)) →
  createToken am dr body = (status, answer, am') →
  (status = 400%Z ∧ bad_request dr body ∧ am' = am ∧ ∃ message, answer = ErrorBody message) ∨
  ∃ req, body = Some req ∧ ¬ bad_request dr body ∧
    ((status = 500%Z ∧ (∃ message, answer = ErrorBody message) ∧
        ((∃ failure, dr_bytes dr = inl failure) ∧ am' = am ∨ ∃ failure, save_result am dr req (Some failure))) ∨
     status = 201%Z ∧ save_result am dr req None ∧ token_issued am am' dr req answer).
Proof.
  intros Hinv Hfresh. destruct body as [req|]; cbn [createToken bad_request]; [|intros [= <- <- <-]; left; eauto].
  pose proof (validate_spec req) as Hv. destruct (validate req) as [e|].
  { destruct Hv as [-> Hname]. intros [= <- <- <-]. left. split_and!; eauto; tauto. }
  destruct Hv as [Hne Hlen].
  destruct (CreateToken am dr (rq_Name req) (rq_ExpirationDate req)) as [res am1] eqn:Hc.
  destruct (CreateToken_spec _ _ _ _ _ _ Hinv (Hfresh req eq_refl) Hc) as (_ & _ & Hres).
  apply CreateToken_ends in Hc.
  destruct res as [[e raw]|err]; intros [= <- <- <-].
  - right. exists req. split; [done|]. destruct Hres as (buf & Hbuf & Hraw & Hx & He & Hin).
    split; [intros [?|[?|Hno]]; [done|lia|by destruct (Hno (ExpiresAt e))]|]. right.
    destruct Hc as (_ & _ & _ & _ & _ & Hsave). do 2 (split; [done|]). eexists _, buf, e.
    split; [done|]. cbn [rs_ID rs_Token rs_ExpiresAt]. do 5 (split; [done|]). by rewrite He.
  - destruct Hc as [(Hx & -> & ->)|((expires & Hx) & -> & Hwhy)]; [left; split_and!; eauto|].
    right. exists req. split; [done|]. split; [intros [?|[?|Hno]]; [done|lia|by destruct (Hno expires)]|]. left. eauto.
Qed.

(** C36: the answers of POST /tokens.  400 exactly to the requests it must refuse (a body gin
    does not bind, a name that is empty or longer than 255 bytes, an expiration date
    that is malformed or not in the future), without touching the store; 500 exactly when
    the request is good but the random source fails, which leaves the store alone, or the Save of
    the store reports an error; otherwise, that is exactly when the random source and
    the store succeed on a good request, 201 with the raw token, "gim_" and the hexadecimal
    form of the random bytes, whose entry is then stored under the answered ID by its digest
    only, with the name and the expiry asked for.  Only 201 answers a token.  (The store
    is in a state its operations lead to, and the UUID and the bytes drawn are not used yet.) *)
Theorem createToken_answers am dr body status answer am' :
  ts_inv (store am) →
  (∀ req, body = Some req → fresh_draws (store am) dr (rq_ExpirationDate req)) →
  createToken am dr body = (status, answer, am') →
  (status = 201 ∨ status = 400 ∨ status = 500)%Z ∧
  (status = 400%Z ↔ bad_request dr body) ∧
  (status = 400%Z → am' = am) ∧
  (status = 500%Z ↔ ∃ req, body = Some req ∧ ¬ bad_request dr body ∧
     ((∃ failure, dr_bytes dr = inl failure) ∨ ∃ failure, save_result am dr req (Some failure))) ∧
  ((∃ failure, dr_bytes dr = inl failure) → am' = am) ∧
  (status = 201%Z ↔ ∃ req, body = Some req ∧ ¬ bad_request dr body ∧ save_result am dr req None) ∧
  (status = 201%Z → ∃ req, body = Some req ∧ token_issued am am' dr req answer) ∧
  (status ≠ 201%Z → ∃ message, answer = ErrorBody message).
Proof.
  intros Hinv Hfresh Hcreate.
  assert (Hone : ∀ req r r', save_result am dr req r → save_result am dr req r' → r = r').
  { intros req r r' (b & x & Hb & Hx & <-) (b' & x' & Hb' & Hx' & <-). congruence. }
  assert (Hbytes : ∀ req r failure, save_result am dr req r → dr_bytes dr = inl failure → False).
  { intros req r failure (b & x & Hb & _) Hf. congruence. }
  destruct (createToken_cases _ _ _ _ _ _ Hinv Hfresh Hcreate)
    as [(-> & Hbad & -> & Hmsg)|(req & -> & Hgood & [(-> & Hmsg & Hwhy)|(-> & Hsave & Htoken)])].
  - split; [auto|]. split; [done|]. split; [done|]. split; [split; [done|by intros (? & _ & ? & _)]|]. split; [done|].
    split; [split; [done|by intros (? & _ & ? & _)]|]. done.
  - split; [auto|]. do 2 (split; [done|]). split; [split; [intros _|done]|].
    { exists req. do 2 (split; [done|]). destruct Hwhy as [[? _]|?]; auto. }
    split; [intros [f Hf]; destruct Hwhy as [[_ ?]|[f' Hs]]; [done|by destruct (Hbytes _ _ _ Hs Hf)]|].
    split; [split; [done|intros (r & [= <-] & _ & Hs)]|done].
    destruct Hwhy as [[[f Hf] _]|[f Hf]]; [by destruct (Hbytes _ _ _ Hs Hf)|by pose proof (Hone _ _ _ Hs Hf)].
  - split; [auto|]. do 2 (split; [done|]). split; [split; [done|intros (r & [= <-] & _ & Hwhy)]|].
    { destruct Hwhy as [[f Hf]|[f Hf]]; [by destruct (Hbytes _ _ _ Hsave Hf)|by pose proof (Hone _ _ _ Hsave Hf)]. }
    split; [intros [f Hf]; by destruct (Hbytes _ _ _ Hsave Hf)|]. split; [split; [eauto|done]|]. split; [eauto|done].
Qed.

End admin.
