(* ===== verification/AuthFile.v ===== *)
(** The authentication manager over the file store: the theorems of AuthManager.v at
    concrete requests, with an injective stand-in for SHA-256 and the cipher and codec
    of FileStore.v. *)
From S2P Require Import Prelude GoStrings Errors TokenStore FileStore AuthManager.

Definition plain_digest : Sha256 := {| Sum256 s := s |}.

#[local] Existing Instance plain_digest.
#[local] Existing Instance bit_codec.
#[local] Existing Instance prefix_cipher.

Definition quiet : nat → env := λ _, quiet_env.

#[local] Instance quiet_store : TokenStore FileTokenStore := file_store quiet.
#[local] Instance quiet_laws : TokenStoreLaws FileTokenStore := file_store_laws quiet.

Definition demo_manager : AuthManager FileTokenStore := NewAuthManager demo_store.

Definition demo_draws : draws :=
  {| dr_bytes := inr "xyz"%string; dr_uuid := "u1"; dr_until := 1000%Z; dr_default := 1000%Z; dr_created := 1000%Z |}.

(** 1970-01-02 *)
Definition demo_date : string := "1970-01-02".

Definition demo_token : string := "gim_78797a".

Definition created : AuthManager FileTokenStore := (CreateToken demo_manager demo_draws "ci" demo_date).2.

Definition created_entry : TokenEntry :=
  {| ID := "u1"; Name := "ci"; TokenHash := hashToken demo_token; CreatedAt := 1000%Z;
     ExpiresAt := (719163 * 24 * Hour)%Z; RevokedAt := 0%Z |}.

Lemma demo_inv : ts_inv (store demo_manager).
Proof. change (wf demo_store). apply empty_wf. Qed.

Lemma demo_fresh_draws date : fresh_draws (store demo_manager) demo_draws date.
Proof. intros buf e _ _ _ _ _ _. apply demo_store_fresh. Qed.

Lemma created_eq : CreateToken demo_manager demo_draws "ci" demo_date = (Ok (created_entry, demo_token), created).
Proof. now vm_compute. Qed.

Lemma created_inv : ts_inv (store created).
Proof.
  destruct (CreateToken_spec demo_manager demo_draws "ci" demo_date _ _
    demo_inv (demo_fresh_draws _) created_eq) as [Hinv _]. exact Hinv.
Qed.

Lemma demo_bears : bears ("bearer " +:+ demo_token) demo_token.
Proof. split; [done|]. exists "bearer"%string. now vm_compute. Qed.

Lemma authenticate_exact_witness :
  (AuthenticateMiddleware created 2000 ("bearer " +:+ demo_token)).1 = Next.
Proof.
  destruct (AuthenticateMiddleware created 2000 ("bearer " +:+ demo_token)) as [outcome am'] eqn:Ha.
  destruct (authenticate_exact _ _ _ _ _ created_inv Ha) as (_ & _ & Hyes & _).
  apply (Hyes I demo_token created_entry).
  - apply demo_bears.
  - exists "u1"%string. split; [|done].
    change (tokens (store created) !! "u1" = Some created_entry). now vm_compute.
  - done.
  - right. clear. now vm_compute.
Defined.

Lemma created_token_works_witness :
  (AuthenticateMiddleware created (719163 * 24 * Hour - Microsecond) ("Bearer " +:+ demo_token)).1 = Next ∧
  (AuthenticateMiddleware created (719163 * 24 * Hour + 1) ("Bearer " +:+ demo_token)).1 = AbortWithStatus 401.
Proof.
  destruct (created_token_works demo_manager demo_draws "ci" demo_date created_entry demo_token created)
    as (_ & _ & _ & _ & _ & _ & Hbefore & Hafter).
  - apply demo_inv.
  - apply demo_fresh_draws.
  - now vm_compute.
  - apply created_eq.
  - split.
    + apply Hbefore; [exact I|]. now vm_compute.
    + apply Hafter; now vm_compute.
Defined.

(** Another token is created after the revocation. *)
Definition other_draws : draws :=
  {| dr_bytes := inr "abc"%string; dr_uuid := "u2"; dr_until := 1000%Z; dr_default := 1000%Z; dr_created := 1000%Z |}.

Definition revoked : AuthManager FileTokenStore := (RevokeToken created 3000 "u1").2.

Lemma revoked_for_ever_witness :
  (AuthenticateMiddleware (handle revoked (EvCreate other_draws "ci2" demo_date)) 4000 ("bearer " +:+ demo_token)).1
  = AbortWithStatus 401.
Proof.
  apply (revoked_for_ever created 3000 "u1" demo_token created_entry revoked
    [EvCreate other_draws "ci2" demo_date] _ 4000 ("bearer " +:+ demo_token)).
  - apply created_inv.
  - now vm_compute.
  - change (tokens (store created) !! "u1" = Some created_entry). now vm_compute.
  - done.
  - now vm_compute.
  - apply run_cons; [|apply run_nil]. split.
    + intros buf e [= <-] Hid Hhash _ _ _.
      assert (Htok : tokens (store revoked) = {[ "u1" := revoked_at 3000 created_entry ]}) by now vm_compute.
      change (fresh_token (tokens (store revoked)) e). rewrite Htok. split.
      * rewrite Hid. vm_compute. reflexivity.
      * intros id e' [<- <-]%lookup_singleton_Some. rewrite Hhash. clear. now vm_compute.
    + intros buf [= <-]. now vm_compute.
  - apply demo_bears.
Defined.

(** A request without a name is refused, a good one is answered with its token. *)
Lemma createToken_answers_witness :
  bad_request demo_draws (Some {| rq_Name := ""; rq_ExpirationDate := demo_date |}) ∧
  ∃ token am, createToken demo_manager demo_draws (Some {| rq_Name := "ci"; rq_ExpirationDate := demo_date |})
    = (201%Z, TokenBody token, am) ∧ rs_Token token = demo_token.
Proof.
  split.
  - apply (createToken_answers demo_manager demo_draws (Some {| rq_Name := ""; rq_ExpirationDate := demo_date |})
      400 (ErrorBody "access token name is required") demo_manager demo_inv (λ _ _, demo_fresh_draws _)).
    + now vm_compute.
    + done.
  - destruct (createToken demo_manager demo_draws (Some {| rq_Name := "ci"; rq_ExpirationDate := demo_date |}))
      as [[status answer] am] eqn:Hc.
    assert (status = 201%Z) as -> by (apply (f_equal (λ x, x.1.1)) in Hc; etrans; [symmetry; exact Hc|vm_compute; reflexivity]).
    destruct (createToken_answers demo_manager demo_draws (Some {| rq_Name := "ci"; rq_ExpirationDate := demo_date |})
      _ _ _ demo_inv (λ _ _, demo_fresh_draws _) Hc) as (_ & _ & _ & _ & _ & _ & Hissued & _).
    destruct (Hissued eq_refl) as (req & _ & token & buf & e & -> & Hbuf & Htoken & _). exists token, am.
    split; [done|]. rewrite Htoken. injection Hbuf as <-. vm_compute. reflexivity.
Defined.

(** A random source that fails is answered 500, and the store is left alone. *)
Lemma createToken_no_randomness :
  let dr := {| dr_bytes := inl "entropy"%string; dr_uuid := "u1"; dr_until := 1000%Z; dr_default := 1000%Z;
               dr_created := 1000%Z |} in
  createToken demo_manager dr (Some {| rq_Name := "ci"; rq_ExpirationDate := demo_date |})
  = (500%Z, ErrorBody "error generating token", demo_manager).
Proof. now vm_compute. Qed.

(** Another token is created, an unknown one revoked and the expired ones purged. *)
Definition busy_day : list auth_event := [EvRevoke 3000 "u9"; EvAuthenticate 3000 "Basic x"; EvList; EvPurge 4000].

Lemma live_token_passes_witness :
  (AuthenticateMiddleware (foldl handle created busy_day) 5000 ("bearer " +:+ demo_token)).1 = Next.
Proof.
  apply (live_token_passes created created_entry busy_day _ demo_token ("bearer " +:+ demo_token)).
  - apply created_inv.
  - exact I.
  - exists "u1"%string. split; [|done].
    change (tokens (store created) !! "u1" = Some created_entry). now vm_compute.
  - done.
  - apply sparing_cons; [split; now vm_compute|]. apply sparing_cons; [done|].
    apply sparing_cons; [done|]. apply sparing_cons; [|apply sparing_nil].
    right. clear. now vm_compute.
  - apply demo_bears.
  - right. clear. now vm_compute.
Defined.
