(* ===== verification/AuthProvider.v ===== *)
(** The protection of the admin routes: the interface of the authentication providers
    (internal/auth/auth-provider.go), the basic provider
    (internal/auth/basic-auth-provider.go), and the routes of api/admin-controller.go
    behind the middleware of a provider.

    A request is what gin has read of it; [rq_Cookies] holds the unescaped values.  A
    middleware either lets the request through, with what it puts in the context of
    gin, or answers it and aborts. *)
From S2P Require Import Prelude GoStrings Errors TokenStore AuthManager.
From Stdlib Require Import Ascii.

(** ** encoding/base64 *)

Definition letters : string := "ABCDEFGHIJKLMNOPQRSTUVWXYZabcdefghijklmnopqrstuvwxyz0123456789".
Definition StdAlphabet : string := letters +:+ "+/".
Definition URLAlphabet : string := letters +:+ "-_".

Definition sextet (alphabet : string) (n : nat) : ascii := default "A"%char (String.get n alphabet).

(** Three bytes to four characters; [padding] follows an incomplete group. *)
Fixpoint base64 (alphabet padding : string) (s : string) : string :=
  let c n := sextet alphabet n in
  match s with
  | "" => ""
  | String a "" =>
      let a := nat_of_ascii a in
      String (c (a / 4)) (String (c (a mod 4 * 16)) (padding +:+ padding))
  | String a (String b "") =>
      let '(a, b) := (nat_of_ascii a, nat_of_ascii b) in
      String (c (a / 4)) (String (c (a mod 4 * 16 + b / 16)) (String (c (b mod 16 * 4)) padding))
  | String x (String y (String z s)) =>
      let '(a, b, d) := (nat_of_ascii x, nat_of_ascii y, nat_of_ascii z) in
      String (c (a / 4)) (String (c (a mod 4 * 16 + b / 16)) (String (c (b mod 16 * 4 + d / 64))
        (String (c (d mod 64)) (base64 alphabet padding s))))
  end.

Definition StdEncode (s : string) : string := base64 StdAlphabet "=" s.
Definition RawURLEncode (s : string) : string := base64 URLAlphabet "" s.

(** ** Requests and answers *)

Record WebRequest := {
  rq_Path : string;
  rq_Headers : gmap string string;
  rq_Cookies : gmap string string;
  rq_Params : gmap string string;
}.

(** [c.GetHeader] and [c.Query] are empty when the key is absent; [c.Cookie] is an error. *)
Definition web_header (r : WebRequest) (k : string) : string := default "" (rq_Headers r !! k).
Definition web_query (r : WebRequest) (k : string) : string := default "" (rq_Params r !! k).
Definition web_cookie (r : WebRequest) (k : string) : option string := rq_Cookies r !! k.

Inductive web_answer :=
  | WebStatus (status : Z)
  | WebError (status : Z) (message : string)
  | WebRedirect (status : Z) (location : string).

Record identity := { id_Sub : string; id_Email : string; id_Name : string }.

Inductive login_outcome :=
  | Continue (who : option identity)
  | Abort (answer : web_answer).

(** [RegisterRoutes] gives the methods and paths it adds to the router. *)
Class AuthProvider (A : Type) := {
  LoginMiddleware : A → time → WebRequest → login_outcome;
  RegisterRoutes : A → list (string * string);
}.

(** ** Basic authentication *)

(** The users that gin.BasicAuth accepts for an Authorization header. *)
Class GinBasicAuth := { gin_BasicAuth : gmap string string → string → option string }.

(** The header of RFC 7617 for a user and a password. *)
Definition authorizationHeader (user password : string) : string :=
  "Basic " +:+ StdEncode (user +:+ ":" +:+ password).

(** Gin refuses an account whose user is empty. *)
Class GinBasicAuthLaws `{GinBasicAuth} := {
  gin_BasicAuth_spec accounts header user :
    gin_BasicAuth accounts header = Some user →
    ∃ password, accounts !! user = Some password ∧ header = authorizationHeader user password;
  gin_BasicAuth_accepts accounts user password :
    user ≠ "" → accounts !! user = Some password → is_Some (gin_BasicAuth accounts (authorizationHeader user password));
}.

Record BasicAuthProvider := { accounts : gmap string string }.

Definition NewBasicAuthProvider (user password : string) : BasicAuthProvider :=
  {| accounts := {[ user := password ]} |}.

Definition basic_LoginMiddleware `{GinBasicAuth} (p : BasicAuthProvider) (r : WebRequest) : login_outcome :=
  match gin_BasicAuth (accounts p) (web_header r "Authorization") with
  | Some _ => Continue None
  | None => Abort (WebStatus 401)
  end.

#[export] Instance basic_provider `{GinBasicAuth} : AuthProvider BasicAuthProvider := {
  LoginMiddleware p _ r := basic_LoginMiddleware p r;
  RegisterRoutes _ := [];
}.

Lemma basic_LoginMiddleware_exact `{GinBasicAuthLaws} user password r :
  user ≠ "" →
  (∃ who, basic_LoginMiddleware (NewBasicAuthProvider user password) r = Continue who) ↔
  web_header r "Authorization" = authorizationHeader user password.
Proof.
  intros Hne. unfold basic_LoginMiddleware, NewBasicAuthProvider. cbn [accounts].
  destruct (gin_BasicAuth _ _) as [u|] eqn:Hg; split.
  - intros _. apply gin_BasicAuth_spec in Hg as (pw & [<- <-]%lookup_singleton_Some & ->). done.
  - eauto.
  - by intros [? ?].
  - intros Hheader. rewrite Hheader in Hg.
    destruct (gin_BasicAuth_accepts {[ user := password ]} user password); [done|by simplify_map_eq|congruence].
Qed.

(** ** The admin routes *)

Inductive admin_route :=
  | GetAdmin
  | PostToken (body : option createTokenRequest)
  | DeleteToken (id : string).

Inductive admin_answer :=
  | LoginAnswer (answer : web_answer)
  | Handled (status : Z) (body : admin_body).

Section admin_routes.
Context {A T : Type} `{AuthProvider A} `{TokenStore T} `{Sha256}.

(** A request to an admin route: the middleware of the provider, then the handler. *)
Definition handle_admin (provider : A) (am : AuthManager T) (now : time) (dr : draws) (r : WebRequest)
    (route : admin_route) : admin_answer * AuthManager T :=
  match LoginMiddleware provider now r with
  | Abort answer => (LoginAnswer answer, am)
  | Continue _ =>
      let '(status, body, am) :=
        match route with
        | GetAdmin => getAdmin am
        | PostToken body => createToken am dr body
        | DeleteToken id => deleteToken am now id
        end in
      (Handled status body, am)
  end.

Lemma handle_admin_aborted provider am now dr r route answer am' :
  handle_admin provider am now dr r route = (LoginAnswer answer, am') →
  am' = am ∧ LoginMiddleware provider now r = Abort answer.
Proof.
  unfold handle_admin. destruct (LoginMiddleware provider now r) as [who|a]; [|by intros [= <- <-]].
  by destruct (match route with GetAdmin => _ | PostToken _ => _ | DeleteToken _ => _ end) as [[? ?] ?].
Qed.

Lemma handle_admin_handled provider am now dr r route status body am' :
  handle_admin provider am now dr r route = (Handled status body, am') →
  ∃ who, LoginMiddleware provider now r = Continue who.
Proof.
  unfold handle_admin. destruct (LoginMiddleware provider now r) as [who|a]; [|done]. eauto.
Qed.
End admin_routes.
