(* ===== verification/Oidc.v ===== *)
(** The OpenID Connect provider (internal/auth/oidc-provider.go): the login flow, the
    session cookie it ends with, and the middleware that checks the cookie.

    golang-jwt is the class [JWT], golang.org/x/oauth2 and go-oidc are the class
    [OIDCLibrary].  A handler that draws random bytes or reads the clock takes them as
    arguments; the random bytes are [inl] when the source fails. *)
From S2P Require Import Prelude GoStrings TokenStore AuthProvider.
From Stdlib Require Import Ascii.

Definition sessionCookieName : string := "gimme_session".
Definition stateCookieName : string := "gimme_oidc_state".
Definition nonceCookieName : string := "gimme_oidc_nonce".
Definition sessionCookieTTL : Z := 8 * Hour.
Definition sessionJWTIssuer : string := "gimme".
Definition sessionJWTAudience : string := "gimme-admin".

Definition Second : Z := 1000000000.

(** ** Libraries *)

(** The claims, with those of the embedded jwt.RegisteredClaims. *)
Record oidcClaims := {
  Email : string;
  FullName : string;
  Issuer : string;
  Subject : string;
  Audience : list string;
  ClaimsExpiresAt : option time;
  NotBefore : option time;
  IssuedAt : option time;
  JwtID : string;
}.

(** A [*jwt.SigningMethodHMAC] or another method, with the name of the algorithm. *)
Inductive signing_method := SigningMethodHMAC (alg : string) | OtherMethod (alg : string).

Definition SigningMethodHS256 : signing_method := SigningMethodHMAC "HS256".

Definition alg (m : signing_method) : string :=
  match m with SigningMethodHMAC a | OtherMethod a => a end.

(** [ParseWithClaims now text keyFunc] is an error, or the claims and [token.Valid]. *)
Class JWT := {
  NewNumericDate : time → time;
  SignedString : signing_method → oidcClaims → string → string + string;
  ParseWithClaims : time → string → (signing_method → string + string) → string + oidcClaims * bool;
  VerifyIssuer : oidcClaims → string → bool → bool;
  VerifyAudience : oidcClaims → string → bool → bool;
}.

(** The exp, iat and nbf claims, when present, allow this instant. *)
Definition time_valid (now : time) (c : oidcClaims) : Prop :=
  (∀ t, ClaimsExpiresAt c = Some t → now < t)%Z ∧ (∀ t, IssuedAt c = Some t → t ≤ now)%Z ∧
  (∀ t, NotBefore c = Some t → t ≤ now)%Z.

(** Every text of the claims is UTF-8. *)
Definition valid_claims (c : oidcClaims) : bool :=
  forallb ValidString ([Email c; FullName c; Issuer c; Subject c; JwtID c] ++ Audience c).

Record oauth2Config (E : Type) := {
  oc_ClientID : string;
  oc_ClientSecret : string;
  oc_RedirectURL : string;
  oc_Endpoint : E;
  oc_Scopes : list string;
}.
Arguments oc_ClientID {E}.
Arguments oc_RedirectURL {E}.

Class OIDCLibrary := {
  provider : Type;
  endpoint : Type;
  verifier : Type;
  oauth2_token : Type;
  id_token : Type;
  oidc_NewProvider : string → string + provider;
  Endpoint : provider → endpoint;
  Verifier : provider → string → verifier;
  (** The URL for a state and a nonce parameter. *)
  AuthCodeURL : oauth2Config endpoint → string → string → string;
  Exchange : oauth2Config endpoint → string → string + oauth2_token;
  (** [Extra("id_token")], when it is a string. *)
  Extra_id_token : oauth2_token → option string;
  Verify : verifier → time → string → string + id_token;
  Nonce : id_token → string;
  Claims : id_token → string + oidcClaims;
}.

(** ** Cookies *)

Inductive SameSite := SameSiteDefault | SameSiteLax.

Record Cookie := {
  ck_Name : string;
  ck_Value : string;
  ck_MaxAge : Z;
  ck_Path : string;
  ck_Domain : string;
  ck_Secure : bool;
  ck_HttpOnly : bool;
  ck_SameSite : SameSite;
}.

(** The Set-Cookie headers of a response, in order, and its answer. *)
Record web_response := { rp_Cookies : list Cookie; rp_Answer : web_answer }.

(** ** The provider *)

Section oidc.
Context `{OIDCLibrary} `{JWT}.

Record OIDCProvider := {
  oauth2_config : oauth2Config endpoint;
  id_verifier : verifier;
  signingSecret : string;
  secureCookies : bool;
}.

Definition NewOIDCProvider (issuer clientID clientSecret redirectURL secret : string) (secure : bool)
    : string + OIDCProvider :=
  match oidc_NewProvider issuer with
  | inl err => inl ("OIDC discovery failed for issuer " +:+ Quote issuer +:+ ": " +:+ err)
  | inr pr =>
      inr {| oauth2_config := {| oc_ClientID := clientID; oc_ClientSecret := clientSecret;
               oc_RedirectURL := redirectURL; oc_Endpoint := Endpoint pr;
               oc_Scopes := ["openid"; "profile"; "email"] |};
             id_verifier := Verifier pr clientID;
             signingSecret := secret; secureCookies := secure |}
  end.

Implicit Types p : OIDCProvider.

(** *** The middleware *)

Fixpoint contains_text (s sub : string) : bool :=
  HasPrefix s sub || match s with String _ s => contains_text s sub | "" => false end.

Definition rejectUnauthenticated (r : WebRequest) : web_answer :=
  let isAPIPath := HasPrefix (rq_Path r) "/tokens" in
  let acceptsJSON := contains_text (web_header r "Accept") "application/json" in
  if isAPIPath || acceptsJSON then WebError 401 "unauthenticated" else WebRedirect 302 "/auth/login".

Definition keyFunc p (m : signing_method) : string + string :=
  match m with
  | SigningMethodHMAC _ => inr (signingSecret p)
  | OtherMethod a => inl ("unexpected signing method: " +:+ a)
  end.

Definition oidc_LoginMiddleware p (now : time) (r : WebRequest) : login_outcome :=
  match web_cookie r sessionCookieName with
  | None => Abort (rejectUnauthenticated r)
  | Some cookie =>
      match ParseWithClaims now cookie (keyFunc p) with
      | inl _ => Abort (rejectUnauthenticated r)
      | inr (claims, valid) =>
          if negb valid then Abort (rejectUnauthenticated r)
          else if negb (VerifyIssuer claims sessionJWTIssuer true) ||
                  negb (VerifyAudience claims sessionJWTAudience true)
          then Abort (rejectUnauthenticated r)
          else Continue (Some {| id_Sub := Subject claims; id_Email := Email claims; id_Name := FullName claims |})
      end
  end.

#[export] Instance oidc_provider : AuthProvider OIDCProvider := {
  LoginMiddleware := oidc_LoginMiddleware;
  RegisterRoutes _ := [("GET", "/auth/login"); ("GET", "/auth/callback")];
}.

(** *** The flow *)

Definition generateRandomState (draw : string + string) : string + string :=
  match draw with
  | inl err => inl err
  | inr b => inr (RawURLEncode b)
  end.

(** [c.SetCookie] with the path, domain and HttpOnly arguments of the file. *)
Definition SetCookie p (site : SameSite) (name value : string) (maxAge : Z) : Cookie :=
  {| ck_Name := name; ck_Value := value; ck_MaxAge := maxAge; ck_Path := "/"; ck_Domain := "";
     ck_Secure := secureCookies p; ck_HttpOnly := true; ck_SameSite := site |}.

Definition handleLogin p (draw_state draw_nonce : string + string) : web_response :=
  let failed := {| rp_Cookies := []; rp_Answer := WebError 500 "internal error" |} in
  match generateRandomState draw_state with
  | inl _ => failed
  | inr state =>
      match generateRandomState draw_nonce with
      | inl _ => failed
      | inr nonce =>
          {| rp_Cookies := [SetCookie p SameSiteLax stateCookieName state 300;
                            SetCookie p SameSiteLax nonceCookieName nonce 300];
             rp_Answer := WebRedirect 302 (AuthCodeURL (oauth2_config p) state nonce) |}
      end
  end.

Definition session_claims (now : time) (sub email name : string) : oidcClaims := {|
  Email := email; FullName := name; Issuer := sessionJWTIssuer; Subject := sub;
  Audience := [sessionJWTAudience];
  ClaimsExpiresAt := Some (NewNumericDate (now + sessionCookieTTL));
  NotBefore := None; IssuedAt := Some (NewNumericDate now); JwtID := "" |}.

Definition issueSessionCookie p (now : time) (sub email name : string) : string + string :=
  SignedString SigningMethodHS256 (session_claims now sub email name) (signingSecret p).

Definition clear_cookies p : list Cookie :=
  [SetCookie p SameSiteDefault stateCookieName "" (-1); SetCookie p SameSiteDefault nonceCookieName "" (-1)].

Definition stateOK (r : WebRequest) : bool :=
  match web_cookie r stateCookieName with
  | Some stateCookie => String.eqb stateCookie (web_query r "state")
  | None => false
  end.

Definition nonceOK (r : WebRequest) (nonce : string) : bool :=
  match web_cookie r nonceCookieName with
  | Some nonceCookie => negb (String.eqb nonceCookie "") && String.eqb nonce nonceCookie
  | None => false
  end.

(** The clock when the ID token is verified and when the session is issued. *)
Definition handleCallback p (verified issued : time) (r : WebRequest) : web_response :=
  let cleared a := {| rp_Cookies := clear_cookies p; rp_Answer := a |} in
  if negb (stateOK r) then cleared (WebError 400 "invalid state")
  else
    match Exchange (oauth2_config p) (web_query r "code") with
    | inl _ => cleared (WebError 502 "token exchange failed")
    | inr oauth2Token =>
        match Extra_id_token oauth2Token with
        | None => cleared (WebError 500 "id_token missing")
        | Some rawIDToken =>
            match Verify (id_verifier p) verified rawIDToken with
            | inl _ => cleared (WebError 401 "id_token verification failed")
            | inr idToken =>
                if negb (nonceOK r (Nonce idToken)) then cleared (WebError 400 "invalid nonce")
                else
                  match Claims idToken with
                  | inl _ => cleared (WebError 500 "internal error")
                  | inr idClaims =>
                      match issueSessionCookie p issued (Subject idClaims) (Email idClaims) (FullName idClaims) with
                      | inl _ => cleared (WebError 500 "internal error")
                      | inr sessionJWT =>
                          {| rp_Cookies := clear_cookies p ++
                               [SetCookie p SameSiteLax sessionCookieName sessionJWT (sessionCookieTTL / Second)];
                             rp_Answer := WebRedirect 302 "/admin" |}
                      end
                  end
            end
        end
    end.
End oidc.
