(* ===== verification/OidcSpec.v ===== *)
(** What the OpenID Connect provider guarantees: which requests its middleware lets
    through, when a callback issues a session, and how long a login lasts in a browser.

    [JWTLaws] is what golang-jwt documents for HS256 sessions, and [OIDCLibraryLaws] what
    encoding/json does to the texts of an ID token; [jwt_verifies k m c s] says that the text [s]
    carries the claims [c], signed with the method [m] under the key [k]. *)
From S2P Require Import Prelude GoStrings TokenStore FileStore AuthProvider Oidc.
From Stdlib Require Import Ascii ZifyNat.

Definition numeric_dates `{JWT} (c : oidcClaims) : Prop :=
  (∀ t, ClaimsExpiresAt c = Some t → ∃ t', t = NewNumericDate t') ∧
  (∀ t, IssuedAt c = Some t → ∃ t', t = NewNumericDate t') ∧
  (∀ t, NotBefore c = Some t → ∃ t', t = NewNumericDate t').

Class JWTLaws `{JWT} := {
  jwt_verifies : string → signing_method → oidcClaims → string → Prop;
  (** Dates are truncated to the second. *)
  NewNumericDate_spec t : (0 ≤ t → t - Second < NewNumericDate t ≤ t)%Z;
  (** Any key signs with HMAC-SHA256, and JSON keeps the claims. *)
  SignedString_ok c k :
    valid_claims c = true → numeric_dates c → ∃ s, SignedString SigningMethodHS256 c k = inr s;
  SignedString_spec c k s :
    valid_claims c = true → numeric_dates c → SignedString SigningMethodHS256 c k = inr s →
    jwt_verifies k SigningMethodHS256 c s;
  ParseWithClaims_sound now s keyf c valid :
    ParseWithClaims now s keyf = inr (c, valid) →
    valid = true ∧ time_valid now c ∧ ∃ m k, keyf m = inr k ∧ jwt_verifies k m c s;
  ParseWithClaims_complete now s keyf m k c :
    keyf m = inr k → jwt_verifies k m c s → time_valid now c → ParseWithClaims now s keyf = inr (c, true);
  jwt_verifies_claims k m m' c c' s : jwt_verifies k m c s → jwt_verifies k m' c' s → c = c';
  VerifyIssuer_spec c iss : iss ≠ "" → VerifyIssuer c iss true = true ↔ Issuer c = iss;
  VerifyAudience_spec c aud : aud ≠ "" → VerifyAudience c aud true = true ↔ aud ∈ Audience c;
}.

(** The claims of an ID token are decoded by encoding/json, which makes every string valid
    UTF-8. *)
Class OIDCLibraryLaws `{OIDCLibrary} := {
  Claims_valid idToken c : Claims idToken = inr c → valid_claims c = true;
}.

(** ** Random states *)

Definition url_safe (a : ascii) : bool := negb (char_free a URLAlphabet).

Lemma sextet_safe n : (n < 64)%nat → url_safe (sextet URLAlphabet n) = true.
Proof.
  intros Hn. assert (Hall : forallb (λ n, url_safe (sextet URLAlphabet n)) (seq 0 64) = true) by now vm_compute.
  rewrite forallb_forall in Hall. apply Hall, in_seq. lia.
Qed.

Lemma sextet_inj n m : (n < 64)%nat → (m < 64)%nat → sextet URLAlphabet n = sextet URLAlphabet m → n = m.
Proof.
  intros Hn Hm Heq.
  assert (Hall : forallb (λ n, forallb (λ m, (n =? m)%nat || negb (Ascii.eqb (sextet URLAlphabet n) (sextet URLAlphabet m)))
    (seq 0 64)) (seq 0 64) = true) by now vm_compute.
  rewrite forallb_forall in Hall. specialize (Hall n). rewrite forallb_forall in Hall.
  specialize (Hall ltac:(apply in_seq; lia) m ltac:(apply in_seq; lia)).
  rewrite Heq, Ascii.eqb_refl, orb_false_r in Hall. by apply Nat.eqb_eq.
Qed.

(** Arithmetic on the values of the bytes in the goal. *)
Ltac byte_lia :=
  repeat match goal with
  | a : ascii |- _ => pose proof (nat_ascii_bounded a); remember (nat_of_ascii a) in *; clear dependent a
  end;
  zify; Z.to_euclidean_division_equations; lia.

Lemma three_bytes_ind (P : string → Prop) :
  P "" → (∀ a, P (String a "")) → (∀ a b, P (String a (String b ""))) →
  (∀ a b c s, P s → P (String a (String b (String c s)))) → ∀ s, P s.
Proof.
  intros H0 Ha Hb Hc s. remember (String.length s) as n eqn:Hn. revert s Hn.
  induction (lt_wf n) as [n _ IH]. intros [|a [|b [|c s]]] ->; auto. apply Hc, (IH (String.length s)); cbn; lia.
Qed.

Lemma RawURLEncode_safe s : str_forall url_safe (RawURLEncode s) = true.
Proof.
  unfold RawURLEncode. induction s as [|a|a b|a b c s IH] using three_bytes_ind; [done|..];
    cbn [base64 str_forall String.append]; rewrite ?IH, !sextet_safe; try done; try clear IH s; byte_lia.
Qed.

Lemma RawURLEncode_length s : String.length (RawURLEncode s) = ((String.length s * 4 + 2) / 3)%nat.
Proof.
  unfold RawURLEncode. induction s as [|a|a b|a b c s IH] using three_bytes_ind; [done..|].
  cbn [base64 String.length]. rewrite IH. clear a b c IH. zify. Z.to_euclidean_division_equations. lia.
Qed.

Lemma byte_eq a b : nat_of_ascii a = nat_of_ascii b → a = b.
Proof. intros Heq. by rewrite <- (ascii_nat_embedding a), Heq, ascii_nat_embedding. Qed.

#[local] Opaque Nat.div Nat.modulo.

(** Nothing of the random bytes is lost. *)
Lemma RawURLEncode_inj s t : RawURLEncode s = RawURLEncode t → s = t.
Proof.
  unfold RawURLEncode. revert t.
  induction s as [|a|a b|a b c s IH] using three_bytes_ind; intros [|x [|y [|z t]]]; cbn [base64 String.append]; try done.
  all: intros Heq; injection Heq; clear Heq; intros.
  all: repeat match goal with
       | E : sextet _ _ = sextet _ _ |- _ => apply sextet_inj in E; [|byte_lia..]
       end.
  all: repeat f_equal; try (by apply IH); apply byte_eq; byte_lia.
Qed.

#[local] Transparent Nat.div Nat.modulo.

(** ** The browser *)

(** The cookies of the site with the instants at which they expire. *)
Notation Jar := (gmap string (string * option time)).

Definition store_cookie (now : time) (jar : Jar) (c : Cookie) : Jar :=
  if (ck_MaxAge c <? 0)%Z then delete (ck_Name c) jar
  else <[ck_Name c := (ck_Value c, if (ck_MaxAge c =? 0)%Z then None else Some (now + ck_MaxAge c * Second)%Z)]> jar.

Definition receive (now : time) (jar : Jar) (r : web_response) : Jar := foldl (store_cookie now) jar (rp_Cookies r).

Definition sent (now : time) (jar : Jar) : gmap string string :=
  omap (λ '((value, deadline) : string * option time), match deadline with
                              | Some t => if (now <? t)%Z then Some value else None
                              | None => Some value
                              end) jar.

Lemma store_cookie_set now jar c :
  (0 < ck_MaxAge c)%Z →
  store_cookie now jar c = <[ck_Name c := (ck_Value c, Some (now + ck_MaxAge c * Second)%Z)]> jar.
Proof.
  intros Hpos. unfold store_cookie. destruct (Z.ltb_spec (ck_MaxAge c) 0); [lia|].
  by destruct (Z.eqb_spec (ck_MaxAge c) 0); [lia|].
Qed.

Lemma sent_lookup now (jar : Jar) name value (t : time) :
  jar !! name = Some (value, Some t) → (now < t)%Z → sent now jar !! name = Some value.
Proof.
  intros Hj Ht. unfold sent. rewrite lookup_omap, Hj. cbn. by apply Z.ltb_lt in Ht as ->.
Qed.

(** ** The middleware *)

Section oidc.
Context `{OIDCLibrary} `{!OIDCLibraryLaws} `{JWTLaws}.
Implicit Types p : OIDCProvider.

Definition who_of (c : oidcClaims) : identity :=
  {| id_Sub := Subject c; id_Email := Email c; id_Name := FullName c |}.

(** The text is a session of the provider at this instant. *)
Definition session_of p (now : time) (cookie : string) (c : oidcClaims) : Prop :=
  (∃ a, jwt_verifies (signingSecret p) (SigningMethodHMAC a) c cookie) ∧ time_valid now c ∧
  Issuer c = sessionJWTIssuer ∧ sessionJWTAudience ∈ Audience c.

Lemma keyFunc_inr p m k : keyFunc p m = inr k → k = signingSecret p ∧ ∃ a, m = SigningMethodHMAC a.
Proof. destruct m; [|done]. intros [= <-]. eauto. Qed.

Lemma LoginMiddleware_session p now r :
  match oidc_LoginMiddleware p now r with
  | Continue who => ∃ cookie c, web_cookie r sessionCookieName = Some cookie ∧ session_of p now cookie c ∧
                      who = Some (who_of c)
  | Abort a => a = rejectUnauthenticated r ∧
      ∀ cookie c, web_cookie r sessionCookieName = Some cookie → ¬ session_of p now cookie c
  end.
Proof.
  unfold oidc_LoginMiddleware. destruct (web_cookie r sessionCookieName) as [cookie|]; [|done].
  destruct (ParseWithClaims now cookie (keyFunc p)) as [err|[c valid]] eqn:Hparse.
  { split; [done|]. intros cookie' c [= <-] ([a Hver] & Htime & _).
    by rewrite (ParseWithClaims_complete now cookie (keyFunc p) (SigningMethodHMAC a) (signingSecret p) c) in Hparse. }
  apply ParseWithClaims_sound in Hparse as (-> & Htime & m & k & [-> [a ->]]%keyFunc_inr & Hver). cbn [negb].
  destruct (VerifyIssuer c sessionJWTIssuer true) eqn:Hiss; cbn [negb orb].
  - destruct (VerifyAudience c sessionJWTAudience true) eqn:Haud; cbn [negb].
    + apply VerifyIssuer_spec in Hiss; [|done]. apply VerifyAudience_spec in Haud; [|done].
      exists cookie, c. unfold session_of. eauto 10.
    + split; [done|]. intros cookie' c' [= <-] ([a' Hver'] & _ & _ & Hin).
      rewrite (jwt_verifies_claims _ _ _ _ _ _ Hver' Hver), <- VerifyAudience_spec in Hin by done. congruence.
  - split; [done|]. intros cookie' c' [= <-] ([a' Hver'] & _ & Hin & _).
    rewrite (jwt_verifies_claims _ _ _ _ _ _ Hver' Hver), <- VerifyIssuer_spec in Hin by done. congruence.
Qed.

(** C32: the session middleware lets a request through exactly with a session.  A request
    passes, as the subject, email and name of the claims, exactly when its session
    cookie is a token signed with an HMAC method under the secret of the provider, whose
    times allow this instant and whose issuer and audience are those of Gimme.  The
    others are answered 401 below /tokens or to a client that accepts JSON, and
    redirected to the login page otherwise. *)
Theorem LoginMiddleware_exact p now r :
  (∀ who, oidc_LoginMiddleware p now r = Continue who ↔
     ∃ cookie c, web_cookie r sessionCookieName = Some cookie ∧ session_of p now cookie c ∧ who = Some (who_of c)) ∧
  (∀ answer, oidc_LoginMiddleware p now r = Abort answer →
     (answer = WebError 401 "unauthenticated" ↔
        HasPrefix (rq_Path r) "/tokens" = true ∨ contains_text (web_header r "Accept") "application/json" = true) ∧
     (answer = WebError 401 "unauthenticated" ∨ answer = WebRedirect 302 "/auth/login")).
Proof.
  pose proof (LoginMiddleware_session p now r) as Hspec.
  destruct (oidc_LoginMiddleware p now r) as [who|a]; split; try done.
  - intros who'. split; [by intros [= <-]|]. intros (cookie & c & Hc & [[m Hver] _] & ->).
    destruct Hspec as (cookie' & c' & Hc' & [[m' Hver'] _] & ->).
    assert (cookie' = cookie) as -> by congruence. by rewrite (jwt_verifies_claims _ _ _ _ _ _ Hver Hver').
  - intros who. split; [done|]. intros (cookie & c & Hc & Hs & _). by destruct (proj2 Hspec cookie c Hc).
  - intros a' [= <-]. destruct Hspec as [-> _]. unfold rejectUnauthenticated.
    destruct (HasPrefix _ _), (contains_text _ _); cbn; naive_solver.
Qed.

(** ** The callback *)

(** What the identity provider and the browser have shown when a session is issued. *)
Record authenticated p (verified : time) (r : WebRequest) (c : oidcClaims) : Prop := {
  auth_state : web_cookie r stateCookieName = Some (web_query r "state");
  auth_token : ∃ tok raw idToken,
    Exchange (oauth2_config p) (web_query r "code") = inr tok ∧ Extra_id_token tok = Some raw ∧
    Verify (id_verifier p) verified raw = inr idToken ∧
    Nonce idToken ≠ "" ∧ web_cookie r nonceCookieName = Some (Nonce idToken) ∧ Claims idToken = inr c;
}.

(** The session cookie for the claims of an ID token. *)
Definition session_cookie p (text : string) : Cookie := {|
  ck_Name := "gimme_session"; ck_Value := text; ck_MaxAge := 28800; ck_Path := "/"; ck_Domain := "";
  ck_Secure := secureCookies p; ck_HttpOnly := true; ck_SameSite := SameSiteLax |}.

Lemma stateOK_spec r : stateOK r = true ↔ web_cookie r stateCookieName = Some (web_query r "state").
Proof.
  unfold stateOK. destruct (web_cookie r stateCookieName); [|done]. rewrite String.eqb_eq. naive_solver.
Qed.

Lemma nonceOK_spec r nonce : nonceOK r nonce = true ↔ nonce ≠ "" ∧ web_cookie r nonceCookieName = Some nonce.
Proof.
  unfold nonceOK. destruct (web_cookie r nonceCookieName) as [s|]; [|naive_solver].
  rewrite andb_true_iff, negb_true_iff, String.eqb_eq, String.eqb_neq. naive_solver.
Qed.

(** A refusal: what the response is, and that a later hypothesis contradicts [authenticated]. *)
Ltac refused :=
  right; eexists _, _; split; [|split; [reflexivity|]]; [lia|];
  intros ? ? [?%stateOK_spec (? & ? & ? & ? & ? & ? & ? & ? & ?)];
  match goal with H1 : ?n ≠ "", H2 : web_cookie _ nonceCookieName = Some ?n |- _ =>
    pose proof (proj2 (nonceOK_spec _ _) (conj H1 H2)) end;
  simplify_eq; congruence.

(** The two ways a callback ends. *)
Lemma handleCallback_ends p verified issued r :
  (∃ c text, authenticated p verified r c ∧
     issueSessionCookie p issued (Subject c) (Email c) (FullName c) = inr text ∧
     handleCallback p verified issued r =
       {| rp_Cookies := clear_cookies p ++ [session_cookie p text]; rp_Answer := WebRedirect 302 "/admin" |}) ∨
  (∃ status msg, (400 ≤ status)%Z ∧
     handleCallback p verified issued r = {| rp_Cookies := clear_cookies p; rp_Answer := WebError status msg |} ∧
     ∀ c text, authenticated p verified r c →
       issueSessionCookie p issued (Subject c) (Email c) (FullName c) ≠ inr text).
Proof.
  unfold handleCallback. cbv zeta.
  destruct (stateOK r) eqn:Hstate; cbn [negb]; [|refused].
  destruct (Exchange _ _) as [err|tok] eqn:Hx; [refused|].
  destruct (Extra_id_token tok) as [raw|] eqn:Hraw; [|refused].
  destruct (Verify _ _ raw) as [err|idt] eqn:Hv; [refused|].
  destruct (nonceOK r (Nonce idt)) eqn:Hnonce; cbn [negb]; [|refused].
  destruct (Claims idt) as [err|c] eqn:Hc; [refused|].
  destruct (issueSessionCookie _ _ _ _ _) as [err|text] eqn:Hi; [refused|].
  left. exists c, text. split; [|done]. apply stateOK_spec in Hstate. apply nonceOK_spec in Hnonce as [? ?].
  split; [done|]. eauto 12.
Qed.

Lemma authenticated_unique p verified r c c' : authenticated p verified r c → authenticated p verified r c' → c = c'.
Proof. intros [_ (? & ? & ? & ? & ? & ? & ? & ? & ?)] [_ (? & ? & ? & ? & ? & ? & ? & ? & ?)]. congruence. Qed.

Lemma clear_cookies_names p ck : ck ∈ clear_cookies p → ck_Name ck ≠ sessionCookieName.
Proof. unfold clear_cookies. intros Hin. repeat (apply elem_of_cons in Hin as [->|Hin]; [now vm_compute|]). by apply elem_of_nil in Hin. Qed.

Lemma clear_cookies_received p now jar l :
  (∀ ck, ck ∈ l → ck_Name ck = sessionCookieName) →
  ∀ name, name = stateCookieName ∨ name = nonceCookieName →
  foldl (store_cookie now) jar (clear_cookies p ++ l) !! name = None.
Proof.
  intros Hl name Hname. rewrite foldl_app.
  assert (Hclear : foldl (store_cookie now) jar (clear_cookies p) !! name = None).
  { unfold clear_cookies. cbn. rewrite !lookup_delete_None. naive_solver. }
  revert Hclear. generalize (foldl (store_cookie now) jar (clear_cookies p)) as j.
  induction l as [|ck l IH]; cbn; [done|]. intros j Hj. apply IH; [intros; apply Hl; by right|].
  assert (ck_Name ck ≠ name) by (rewrite (Hl ck) by left; destruct Hname as [-> | ->]; now vm_compute).
  unfold store_cookie. destruct (ck_MaxAge ck <? 0)%Z; [by rewrite lookup_delete_ne|by rewrite lookup_insert_ne].
Qed.

(** C24: a session is issued only to an authenticated user.  A callback sets the session
    cookie exactly when the state cookie equals the state of the query, the code was
    exchanged for a token whose ID token the verifier accepts, the nonce of this ID token
    is not empty and equals the nonce cookie, and signing succeeds; the cookie then holds
    a session for the subject of that ID token, is HttpOnly, SameSite=Lax, Secure as
    configured, and lives 8 hours, and the browser is sent to /admin.  Every other callback is
    answered with an error.  In both cases the state and nonce cookies are cleared. *)
Theorem handleCallback_session p verified issued r ck :
  let response := handleCallback p verified issued r in
  (ck ∈ rp_Cookies response ∧ ck_Name ck = sessionCookieName ↔
     ∃ c text, authenticated p verified r c ∧ ck = session_cookie p text ∧
       SignedString SigningMethodHS256 (session_claims issued (Subject c) (Email c) (FullName c)) (signingSecret p)
         = inr text) ∧
  (rp_Answer response = WebRedirect 302 "/admin" ↔
     ∃ ck, ck ∈ rp_Cookies response ∧ ck_Name ck = sessionCookieName) ∧
  (rp_Answer response = WebRedirect 302 "/admin" ∨
     ∃ status msg, rp_Answer response = WebError status msg ∧ (400 ≤ status)%Z) ∧
  (∀ jar now, receive now jar response !! stateCookieName = None ∧ receive now jar response !! nonceCookieName = None).
Proof.
  cbv zeta. destruct (handleCallback_ends p verified issued r) as [(c & text & Ha & Hi & ->)|(status & msg & Hs & -> & Hno)].
  - cbn [rp_Cookies rp_Answer]. split; [split|split; [|split; [by left|]]].
    + intros [[Hin|Hin]%elem_of_app Hname]; [by apply clear_cookies_names in Hin|].
      apply list_elem_of_singleton in Hin as ->. eauto.
    + intros (c' & text' & Ha' & -> & Hi'). rewrite (authenticated_unique _ _ _ _ _ Ha' Ha) in Hi'.
      unfold issueSessionCookie in Hi. assert (text' = text) as -> by congruence.
      split; [apply elem_of_app; right; by left|done].
    + split; [intros _|done]. exists (session_cookie p text). split; [apply elem_of_app; right; by left|done].
    + intros jar now. split; apply clear_cookies_received; (try by intros ck' ->%list_elem_of_singleton); auto.
  - cbn [rp_Cookies rp_Answer]. split; [split|split; [|split; [by right; eauto|]]].
    + intros [Hin Hname]. by apply clear_cookies_names in Hin.
    + intros (c & text & Ha & _ & Hi). by destruct (Hno c text Ha).
    + split; [done|]. intros (ck' & Hin & Hname). by apply clear_cookies_names in Hin.
    + intros jar now. unfold receive. cbn [rp_Cookies]. rewrite <- (app_nil_r (clear_cookies p)).
      split; apply clear_cookies_received; (try by intros ck' ?%elem_of_nil); auto.
Qed.

(** ** A login in a browser *)

Lemma session_claims_dates now sub email name : numeric_dates (session_claims now sub email name).
Proof. split_and!; cbn; intros t Ht; simplify_eq; eauto. Qed.

Lemma session_claims_valid c now :
  valid_claims c = true → valid_claims (session_claims now (Subject c) (Email c) (FullName c)) = true.
Proof.
  unfold valid_claims. rewrite !forallb_forall. intros Hc text Hin. cbn in Hin.
  destruct Hin as [<-|[<-|[<-|[<-|[<-|[<-|[]]]]]]]; try done; apply Hc; cbn; tauto.
Qed.

Lemma session_issued p now c :
  valid_claims c = true →
  ∃ text, issueSessionCookie p now (Subject c) (Email c) (FullName c) = inr text ∧
    jwt_verifies (signingSecret p) SigningMethodHS256 (session_claims now (Subject c) (Email c) (FullName c)) text.
Proof.
  intros Hvalid%(session_claims_valid _ now).
  pose proof (session_claims_dates now (Subject c) (Email c) (FullName c)) as Hdates.
  destruct (SignedString_ok _ (signingSecret p) Hvalid Hdates) as [text Ht]. exists text. split; [done|]. by apply SignedString_spec.
Qed.

(** How long the claims of a session are accepted, to the second. *)
Lemma session_times now sub email name t :
  (0 ≤ now)%Z →
  (now ≤ t ≤ now + sessionCookieTTL - Second → time_valid t (session_claims now sub email name))%Z ∧
  (now + sessionCookieTTL ≤ t → ¬ time_valid t (session_claims now sub email name))%Z.
Proof.
  intros Hnow. assert (Httl : (sessionCookieTTL = 28800 * Second ∧ 0 < Second)%Z) by now vm_compute.
  pose proof (NewNumericDate_spec now Hnow). pose proof (NewNumericDate_spec (now + sessionCookieTTL)).
  split.
  - intros Ht. split_and!; cbn; intros t' E; simplify_eq; lia.
  - intros Ht [Hx _]. specialize (Hx _ eq_refl). lia.
Qed.

(** What the browser holds after the callback. *)
Lemma session_received p now jar text :
  receive now jar {| rp_Cookies := clear_cookies p ++ [session_cookie p text]; rp_Answer := WebRedirect 302 "/admin" |}
    !! sessionCookieName = Some (text, Some (now + sessionCookieTTL)%Z).
Proof.
  unfold receive. cbn [rp_Cookies]. rewrite foldl_app. cbn [foldl]. rewrite store_cookie_set by done.
  apply lookup_insert_eq.
Qed.

Lemma session_accepted p now issued r sub email name text :
  (0 ≤ issued)%Z → web_cookie r sessionCookieName = Some text →
  jwt_verifies (signingSecret p) SigningMethodHS256 (session_claims issued sub email name) text →
  (issued ≤ now ≤ issued + sessionCookieTTL - Second)%Z →
  oidc_LoginMiddleware p now r = Continue (Some {| id_Sub := sub; id_Email := email; id_Name := name |}).
Proof.
  intros Hpos Hc Hver Ht. pose proof (LoginMiddleware_session p now r) as Hspec.
  assert (Hs : session_of p now text (session_claims issued sub email name)).
  { split; [by eexists|]. split; [by apply session_times|]. split; [done|]. by left. }
  destruct (oidc_LoginMiddleware p now r) as [who|a]; [|by destruct (proj2 Hspec _ _ Hc Hs)].
  destruct Hspec as (text' & c & Hc' & [[m Hver'] _] & ->). assert (text' = text) as -> by congruence.
  by rewrite (jwt_verifies_claims _ _ _ _ _ _ Hver' Hver).
Qed.

Lemma session_refused p now issued r sub email name text :
  (0 ≤ issued)%Z → (∀ t, web_cookie r sessionCookieName = Some t → t = text) →
  jwt_verifies (signingSecret p) SigningMethodHS256 (session_claims issued sub email name) text →
  (issued + sessionCookieTTL ≤ now)%Z →
  oidc_LoginMiddleware p now r = Abort (rejectUnauthenticated r).
Proof.
  intros Hpos Hc Hver Ht. pose proof (LoginMiddleware_session p now r) as Hspec.
  destruct (oidc_LoginMiddleware p now r) as [who|a]; [|by destruct Hspec as [-> _]].
  destruct Hspec as (text' & c & Hc' & [[m Hver'] [Hvalid _]] & _). rewrite (Hc _ Hc') in Hver'.
  rewrite (jwt_verifies_claims _ _ _ _ _ _ Hver' Hver) in Hvalid. by apply session_times in Hvalid.
Qed.

(** The state and the nonce that the browser brings back within their five minutes. *)
Lemma login_cookies p b1 b2 t0 jar t1 r :
  rq_Cookies r = sent t1 (receive t0 jar (handleLogin p (inr b1) (inr b2))) → (t1 < t0 + 300 * Second)%Z →
  web_cookie r stateCookieName = Some (RawURLEncode b1) ∧ web_cookie r nonceCookieName = Some (RawURLEncode b2).
Proof.
  intros Hr Ht. unfold web_cookie. rewrite Hr. unfold receive, handleLogin. cbn [generateRandomState rp_Cookies foldl].
  rewrite !store_cookie_set by done. split; apply sent_lookup with (t0 + 300 * Second)%Z; try done.
  - rewrite lookup_insert_ne by (now vm_compute). apply lookup_insert_eq.
  - apply lookup_insert_eq.
Qed.

(** C25: a login gives a session of eight hours.  Let a browser visit the login page, whose
    16 random bytes twice give a state and a nonce of 22 URL-safe characters, and come back
    from the identity provider within five minutes, sending the cookies it received, with
    that state and a code that is exchanged for an ID token that verifies, has that nonce
    and has claims that can be read.  The callback sends it to /admin, and from then on the
    middleware lets its requests through as that user, whatever the characters of the name,
    for eight hours (to the second), as long as the browser sends the cookies of the login;
    after eight hours no request passes with this session, even if the cookie is kept
    longer than the browser should. *)
Theorem login_flow p b1 b2 t0 jar t1 r tok raw idToken c :
  let visit := handleLogin p (inr b1) (inr b2) in
  let jar1 := receive t0 jar visit in
  let response := handleCallback p t1 t1 r in
  let jar2 := receive t1 jar1 response in
  String.length b1 = 16 → String.length b2 = 16 →
  (0 ≤ t0 ≤ t1)%Z → (t1 < t0 + 300 * Second)%Z → rq_Cookies r = sent t1 jar1 →
  web_query r "state" = RawURLEncode b1 →
  Exchange (oauth2_config p) (web_query r "code") = inr tok → Extra_id_token tok = Some raw →
  Verify (id_verifier p) t1 raw = inr idToken → Nonce idToken = RawURLEncode b2 →
  Claims idToken = inr c →
  rp_Answer visit = WebRedirect 302 (AuthCodeURL (oauth2_config p) (RawURLEncode b1) (RawURLEncode b2)) ∧
  (String.length (RawURLEncode b1) = 22 ∧ str_forall url_safe (RawURLEncode b1) = true) ∧
  rp_Answer response = WebRedirect 302 "/admin" ∧
  (∀ t r', (t1 ≤ t ≤ t1 + sessionCookieTTL - Second)%Z → rq_Cookies r' = sent t jar2 →
     LoginMiddleware p t r' = Continue (Some (who_of c))) ∧
  (∀ t r', (t1 + sessionCookieTTL ≤ t)%Z →
     (∀ text, web_cookie r' sessionCookieName = Some text → Some text = fst <$> jar2 !! sessionCookieName) →
     LoginMiddleware p t r' = Abort (rejectUnauthenticated r')).
Proof.
  intros visit jar1 response jar2 Hb1 Hb2 Ht0 Ht1 Hr Hstate Hx Hraw Hv Hn Hc.
  destruct (login_cookies p b1 b2 t0 jar t1 r Hr Ht1) as [Hsc Hnc].
  assert (Hauth : authenticated p t1 r c).
  { split; [congruence|]. exists tok, raw, idToken. split_and!; try done; [|congruence]. rewrite Hn.
    intros E. apply (f_equal String.length) in E. rewrite RawURLEncode_length, Hb2 in E. done. }
  destruct (session_issued p t1 c (Claims_valid _ _ Hc)) as (text & Hissue & Hver).
  assert (Hresponse : response = {| rp_Cookies := clear_cookies p ++ [session_cookie p text];
                                    rp_Answer := WebRedirect 302 "/admin" |}).
  { unfold response. destruct (handleCallback_ends p t1 t1 r) as [(c' & text' & Ha' & Hi' & ->)|(? & ? & _ & _ & Hno)].
    - rewrite (authenticated_unique _ _ _ _ _ Ha' Hauth) in Hi'. congruence.
    - by destruct (Hno c text Hauth). }
  assert (Hjar2 : jar2 !! sessionCookieName = Some (text, Some (t1 + sessionCookieTTL)%Z)).
  { unfold jar2. rewrite Hresponse. apply session_received. }
  split; [done|]. split; [split; [by rewrite RawURLEncode_length, Hb1|apply RawURLEncode_safe]|].
  split; [by rewrite Hresponse|]. split.
  - intros t r' Ht Hr'. apply (session_accepted p t t1 r' _ _ _ text); [lia| |done..].
    unfold web_cookie. rewrite Hr'. apply (sent_lookup _ _ _ _ _ Hjar2).
    assert (0 < Second)%Z by (now vm_compute). lia.
  - intros t r' Ht Hr'. apply (session_refused p t t1 r' (Subject c) (Email c) (FullName c) text); [lia| |done..].
    intros text' Ht'. apply Hr' in Ht'.
    assert (Some text' = Some text) by (rewrite Ht'; exact (f_equal (fmap fst) Hjar2)). congruence.
Qed.

(** The key function asserts an HMAC method, not HS256. *)
Lemma LoginMiddleware_hs512 p now r cookie c :
  web_cookie r sessionCookieName = Some cookie →
  jwt_verifies (signingSecret p) (SigningMethodHMAC "HS512") c cookie →
  time_valid now c → Issuer c = sessionJWTIssuer → sessionJWTAudience ∈ Audience c →
  oidc_LoginMiddleware p now r = Continue (Some (who_of c)).
Proof.
  intros Hc Hver Ht Hi Ha. pose proof (LoginMiddleware_session p now r) as Hspec.
  assert (Hs : session_of p now cookie c) by (split_and!; [by eexists|done..]).
  destruct (oidc_LoginMiddleware p now r) as [who|a]; [|by destruct (proj2 Hspec _ _ Hc Hs)].
  destruct Hspec as (cookie' & c' & Hc' & [[m Hver'] _] & ->). assert (cookie' = cookie) as -> by congruence.
  by rewrite (jwt_verifies_claims _ _ _ _ _ _ Hver' Hver).
Qed.
End oidc.

(** ** A concrete provider *)

#[local] Instance signing_method_eq_dec : EqDecision signing_method.
Proof. solve_decision. Defined.

#[local] Instance signing_method_countable : Countable signing_method.
Proof.
  refine (inj_countable' (λ m, match m with SigningMethodHMAC a => inl a | OtherMethod a => inr a end)
    (λ x, match x with inl a => SigningMethodHMAC a | inr a => OtherMethod a end) _).
  by intros [].
Defined.

#[local] Instance oidcClaims_eq_dec : EqDecision oidcClaims.
Proof. solve_decision. Defined.

#[local] Instance oidcClaims_countable : Countable oidcClaims.
Proof.
  refine (inj_countable'
    (λ c, (Email c, FullName c, Issuer c, (Subject c, Audience c, JwtID c), (ClaimsExpiresAt c, NotBefore c, IssuedAt c)))
    (λ '(e, n, i, (s, a, j), (x, b, t)), {| Email := e; FullName := n; Issuer := i; Subject := s; Audience := a;
       ClaimsExpiresAt := x; NotBefore := b; IssuedAt := t; JwtID := j |}) _).
  by intros [].
Defined.

Definition time_validb (now : time) (c : oidcClaims) : bool :=
  match ClaimsExpiresAt c with Some t => (now <? t)%Z | None => true end &&
  match IssuedAt c with Some t => (t <=? now)%Z | None => true end &&
  match NotBefore c with Some t => (t <=? now)%Z | None => true end.

(** A token shows its key, its method and its claims. *)
#[local] Instance bit_jwt : JWT := {
  NewNumericDate t := (t / Second * Second)%Z;
  SignedString m c k := inr (positive_bits (encode (k, m, c)));
  ParseWithClaims now s keyf :=
    match decode (bits_positive s) with
    | Some (k, m, c) =>
        match keyf m with
        | inl err => inl err
        | inr k' => if bool_decide (k = k') && time_validb now c then inr (c, true) else inl "invalid token"
        end
    | None => inl "malformed token"
    end;
  VerifyIssuer c iss _ := String.eqb (Issuer c) iss;
  VerifyAudience c aud _ := bool_decide (aud ∈ Audience c);
}.

Lemma time_validb_spec now c : time_validb now c = true ↔ time_valid now c.
Proof.
  unfold time_validb, time_valid. destruct (ClaimsExpiresAt c), (IssuedAt c), (NotBefore c);
    rewrite ?andb_true_iff, ?Z.ltb_lt, ?Z.leb_le; split; intros; naive_solver.
Qed.

#[local] Instance bit_jwt_laws : JWTLaws.
Proof.
  refine {| jwt_verifies k m c s := decode (bits_positive s) = Some (k, m, c) |}.
  - intros t _. cbn. pose proof (Z.div_mod t Second). pose proof (Z.mod_pos_bound t Second). unfold Second in *. lia.
  - intros c k _ _. by eexists.
  - intros c k s _ _ [= <-]. by rewrite bits_positive_bits, decode_encode.
  - intros now s keyf c valid. cbn. destruct (decode _) as [[[k m] c']|]; [|done].
    destruct (keyf m) as [|k'] eqn:Hk; [done|].
    destruct (bool_decide_reflect (k = k')) as [->|]; cbn [andb]; [|done].
    destruct (time_validb now c') eqn:Ht; [|done]. intros [= <- <-]. split; [done|].
    split; [by apply time_validb_spec|]. eauto.
  - intros now s keyf m k c Hk Hd Ht. cbn. rewrite Hd, Hk, bool_decide_true by done. cbn.
    by apply time_validb_spec in Ht as ->.
  - intros k m m' c c' s. congruence.
  - intros c iss _. apply String.eqb_eq.
  - intros c aud _. apply bool_decide_eq_true.
Defined.

Definition ann : oidcClaims := {|
  Email := "ann@example.org"; FullName := "Ann Müller"; Issuer := "https://idp"; Subject := "42"; Audience := ["gimme"];
  ClaimsExpiresAt := None; NotBefore := None; IssuedAt := None; JwtID := "" |}.

Definition demo_nonce : string := RawURLEncode "fedcba9876543210".

(** An identity provider with one user and one code. *)
#[local] Instance demo_library : OIDCLibrary := {
  provider := string; endpoint := string; verifier := string; oauth2_token := string; id_token := string;
  oidc_NewProvider issuer := inr issuer; Endpoint pr := pr; Verifier _ client := client;
  AuthCodeURL cfg state nonce := "https://idp?state=" +:+ state +:+ "&nonce=" +:+ nonce;
  Exchange _ code := if String.eqb code "good" then inr "id"%string else inl "bad code"%string;
  Extra_id_token tok := Some tok;
  Verify _ _ _ := inr demo_nonce;
  Nonce t := t; Claims _ := inr ann;
}.

#[local] Instance demo_library_laws : OIDCLibraryLaws.
Proof. split. by intros idToken c [= <-]. Defined.

Definition demo_oidc : OIDCProvider := {|
  oauth2_config := {| oc_ClientID := "gimme"; oc_ClientSecret := "s"; oc_RedirectURL := "https://cdn/auth/callback";
                      oc_Endpoint := "https://idp"; oc_Scopes := ["openid"] |};
  id_verifier := "gimme"; signingSecret := "k"; secureCookies := true |}.

Definition demo_jar : Jar :=
  receive 0 ∅ (handleLogin demo_oidc (inr "0123456789abcdef"%string) (inr "fedcba9876543210"%string)).

Definition demo_callback : WebRequest := {|
  rq_Path := "/auth/callback"; rq_Headers := ∅; rq_Cookies := sent Second demo_jar;
  rq_Params := {[ "state" := RawURLEncode "0123456789abcdef"; "code" := "good" ]} |}.

Definition logged_in : Jar := receive Second demo_jar (handleCallback demo_oidc Second Second demo_callback).

Definition admin_page (now : time) : WebRequest :=
  {| rq_Path := "/admin"; rq_Headers := ∅; rq_Cookies := sent now logged_in; rq_Params := ∅ |}.

Lemma login_flow_witness :
  rp_Answer (handleCallback demo_oidc Second Second demo_callback) = WebRedirect 302 "/admin" ∧
  LoginMiddleware demo_oidc (5 * Hour) (admin_page (5 * Hour)) = Continue (Some (who_of ann)).
Proof.
  destruct (login_flow demo_oidc "0123456789abcdef" "fedcba9876543210" 0 ∅ Second demo_callback "id" "id"
    demo_nonce ann) as (_ & _ & Hdone & Hpass & _); [now vm_compute..|].
  split; [exact Hdone|]. apply Hpass; [now vm_compute|done].
Defined.

(** After eight hours the browser sends no cookie; a replayed one is refused. *)
Lemma LoginMiddleware_exact_witness :
  let replay := {| rq_Path := "/tokens"; rq_Headers := ∅; rq_Cookies := sent Second logged_in; rq_Params := ∅ |} in
  (∃ cookie c, web_cookie replay sessionCookieName = Some cookie ∧ session_of demo_oidc Second cookie c ∧
     Some (who_of ann) = Some (who_of c)) ∧
  oidc_LoginMiddleware demo_oidc (9 * Hour) replay = Abort (WebError 401 "unauthenticated").
Proof.
  intros replay. destruct (LoginMiddleware_exact demo_oidc Second replay) as [Hpass _].
  destruct (LoginMiddleware_exact demo_oidc (9 * Hour) replay) as [_ Habort]. split.
  - apply Hpass. now vm_compute.
  - assert (Ha : oidc_LoginMiddleware demo_oidc (9 * Hour) replay = Abort (rejectUnauthenticated replay)) by now vm_compute.
    destruct (Habort _ Ha) as [[_ Hjson] _]. rewrite Ha. rewrite Hjson; [reflexivity|left; now vm_compute].
Defined.

Lemma handleCallback_session_witness :
  ∃ c text, authenticated demo_oidc Second demo_callback c ∧
    SignedString SigningMethodHS256 (session_claims Second (Subject c) (Email c) (FullName c)) "k" = inr text.
Proof.
  destruct (handleCallback_session demo_oidc Second Second demo_callback
    (List.last (rp_Cookies (handleCallback demo_oidc Second Second demo_callback)) (session_cookie demo_oidc "")))
    as [[Hissued _] _].
  destruct Hissued as (c & text & Ha & _ & Ht).
  - split; [|now vm_compute]. apply list_elem_of_In. vm_compute. tauto.
  - exists c, text. split; [exact Ha|exact Ht].
Defined.
