(* ===== verification/RedisServer.v ===== *)
(** The Redis server behind the token store, and the calls go-redis makes to it.

    [exec_command] is what Redis documents of the commands the store issues, on a
    keyspace with deadlines; a server is any state whose commands agree with it
    ([RedisServerLaws]).  A call of the client is a batch of requests: before it takes effect
    time passes, earlier attempts may have been executed in part although their replies
    were lost (the client retries), and in the end either the whole batch is executed
    and its replies arrive, or the client reports an error ([delivery]). *)
From S2P Require Import Prelude GoStrings TokenStore.

Inductive rvalue := RString (v : string) | RSet (members : gset string).

(** A value, and the millisecond after which it expires. *)
Record rkey := { rk_value : rvalue; rk_deadline : option Z }.

Notation Keyspace := (gmap string rkey).

Inductive command :=
  | GET (k : string)
  | SET (k v : string) (px : option Z)
  | DEL (k : string)
  | SADD (k m : string)
  | SREM (k m : string)
  | SMEMBERS (k : string)
  | PTTL (k : string).

Inductive reply := Status | Nil | Bulk (v : string) | Int (n : Z) | Members (l : list string)
  | ReplyErr (err : string).

Definition wrong_type : string := "WRONGTYPE Operation against a key holding the wrong kind of value".

Definition set_members (ks : Keyspace) (k : string) : option (gset string) :=
  match ks !! k with
  | None => Some ∅
  | Some e => match rk_value e with RSet m => Some m | RString _ => None end
  end.

(** The commands, at the millisecond [now] of the server's clock. *)
Definition exec_command (now : Z) (ks : Keyspace) (c : command) : reply * Keyspace :=
  match c with
  | GET k =>
      match ks !! k with
      | None => (Nil, ks)
      | Some e => (match rk_value e with RString v => Bulk v | RSet _ => ReplyErr wrong_type end, ks)
      end
  | SET k v px => (Status, <[k := {| rk_value := RString v; rk_deadline := Z.add now <$> px |}]> ks)
  | DEL k => (Int (if ks !! k then 1 else 0), delete k ks)
  | SADD k m =>
      match set_members ks k with
      | None => (ReplyErr wrong_type, ks)
      | Some s =>
          (Int (if decide (m ∈ s) then 0 else 1),
           <[k := {| rk_value := RSet ({[m]} ∪ s); rk_deadline := ks !! k ≫= rk_deadline |}]> ks)
      end
  | SREM k m =>
      match set_members ks k with
      | None => (ReplyErr wrong_type, ks)
      | Some s =>
          if decide (m ∈ s) then
            (Int 1, if decide (s ∖ {[m]} = ∅) then delete k ks
                    else <[k := {| rk_value := RSet (s ∖ {[m]}); rk_deadline := ks !! k ≫= rk_deadline |}]> ks)
          else (Int 0, ks)
      end
  | SMEMBERS k =>
      match set_members ks k with
      | None => (ReplyErr wrong_type, ks)
      | Some s => (Members (elements s), ks)
      end
  | PTTL k =>
      match ks !! k with
      | None => (Int (-2), ks)
      | Some e => (Int (match rk_deadline e with None => -1 | Some d => Z.max 0 (d - now) end), ks)
      end
  end%Z.

(** A key is there up to the millisecond of its deadline. *)
Definition due (now : Z) (e : rkey) : bool :=
  match rk_deadline e with None => false | Some d => (d <? now)%Z end.

Definition live (now : Z) (ks : Keyspace) : Keyspace := filter (λ '(_, e), due now e = false) ks.

Class RedisServer (D : Type) := {
  redis_call : D → command → reply * D;
  (** Time passes until this millisecond. *)
  redis_tick : D → Z → D;
}.

(** The members of a set come in any order. *)
Definition same_reply (r r' : reply) : Prop :=
  match r, r' with
  | Members l, Members l' => l ≡ₚ l'
  | _, _ => r = r'
  end.

Class RedisServerLaws (D : Type) `{RedisServer D} := {
  keyspace : D → Keyspace;
  server_now : D → Z;
  redis_call_spec d c :
    same_reply (redis_call d c).1 (exec_command (server_now d) (keyspace d) c).1 ∧
    keyspace (redis_call d c).2 = (exec_command (server_now d) (keyspace d) c).2 ∧
    server_now (redis_call d c).2 = server_now d;
  redis_tick_spec d t :
    server_now (redis_tick d t) = Z.max (server_now d) t ∧
    keyspace (redis_tick d t) = live (server_now (redis_tick d t)) (keyspace d);
}.

(** ** The client *)

Record delivery := {
  dl_elapsed : N;
  dl_attempts : list nat;
  dl_error : option string;
}.

(** The server, the time in nanoseconds, and the number of calls made so far. *)
Record redis_client (D : Type) := {
  server : D;
  clock : time;
  calls : nat;
}.
Arguments server {D}.
Arguments clock {D}.
Arguments calls {D}.

Section client.
Context {D : Type} `{RedisServer D}.
Variable network : nat → delivery.

Definition request : Type := D → reply * D.

Definition run_requests (rs : list request) (d : D) : list reply * D :=
  foldl (λ '(replies, d) r, let '(a, d) := r d in (replies ++ [a], d)) ([], d) rs.

(** The first error among the replies. *)
Fixpoint reply_error (l : list reply) : option string :=
  match l with
  | [] => None
  | ReplyErr err :: _ => Some err
  | _ :: l => reply_error l
  end.

Definition pass (c : redis_client D) (elapsed : N) : redis_client D :=
  let now := (clock c + Z.of_N elapsed)%Z in
  {| server := redis_tick (server c) (now / Millisecond); clock := now; calls := calls c |}.

Definition transmit (c : redis_client D) (rs : list request) : option string * list reply * redis_client D :=
  let dl := network (calls c) in
  let c := pass c (dl_elapsed dl) in
  let d := foldl (λ d n, (run_requests (take n rs) d).2) (server c) (dl_attempts dl) in
  match dl_error dl with
  | Some err => (Some err, [], {| server := d; clock := clock c; calls := S (calls c) |})
  | None =>
      let '(replies, d) := run_requests rs d in
      (reply_error replies, replies, {| server := d; clock := clock c; calls := S (calls c) |})
  end.

(** Every call from here on is answered at once and without a retry. *)
Definition prompt (c : redis_client D) : Prop :=
  ∀ n, (calls c ≤ n)%nat → network n = {| dl_elapsed := 0; dl_attempts := []; dl_error := None |}.
End client.

(** ** Lemmas *)

Section server.
Implicit Types ks : Keyspace.

Lemma live_lookup now ks k e : live now ks !! k = Some e ↔ ks !! k = Some e ∧ due now e = false.
Proof. unfold live. by rewrite map_lookup_filter_Some. Qed.

Lemma live_subseteq now ks : live now ks ⊆ ks.
Proof. apply map_filter_subseteq. Qed.

Lemma live_all now ks : (∀ k e, ks !! k = Some e → due now e = false) → live now ks = ks.
Proof. intros Hall. apply map_filter_id. intros k e. apply Hall. Qed.

Lemma live_not_due now ks k e : live now ks !! k = Some e → due now e = false.
Proof. by intros [_ ?]%live_lookup. Qed.
End server.

Section client_laws.
Context {D : Type} `{RedisServerLaws D}.
Variable network : nat → delivery.
Implicit Types (c : redis_client D) (ks : Keyspace).

Definition view c : Keyspace := keyspace (server c).

(** The client and the server have one clock, and no key is overdue. *)
Definition on_time c : Prop :=
  server_now (server c) = (clock c / Millisecond)%Z ∧
  ∀ k e, view c !! k = Some e → due (server_now (server c)) e = false.

(** What a request does to the keyspace at a given millisecond. *)
Definition effect : Type := Z → Keyspace → reply * Keyspace.

Record implements (r : @request D) (g : effect) : Prop := {
  implements_reply d : same_reply (r d).1 (g (server_now d) (keyspace d)).1;
  implements_keyspace d : keyspace (r d).2 = (g (server_now d) (keyspace d)).2;
  implements_now d : server_now (r d).2 = server_now d;
}.

Lemma call_implements cmd : implements (λ d, redis_call d cmd) (λ now ks, exec_command now ks cmd).
Proof. split; intros d; by destruct (redis_call_spec d cmd) as (? & ? & ?). Qed.

Definition run_effects (now : Z) (gs : list effect) (ks : Keyspace) : list reply * Keyspace :=
  foldl (λ '(replies, ks) g, let '(a, ks) := g now ks in (replies ++ [a], ks)) ([], ks) gs.

Lemma run_requests_acc rs gs d acc acc' :
  Forall2 implements rs gs → Forall2 same_reply acc acc' →
  let run := foldl (λ '(replies, d) r, let '(a, d) := r d in (replies ++ [a], d)) (acc, d) rs in
  let spec := foldl (λ '(replies, ks) g, let '(a, ks) := g (server_now d) ks in (replies ++ [a], ks))
                (acc', keyspace d) gs in
  Forall2 same_reply run.1 spec.1 ∧ keyspace run.2 = spec.2 ∧ server_now run.2 = server_now d.
Proof.
  intros Himp. revert d acc acc'. induction Himp as [|r g rs gs Hr Himp IH]; intros d acc acc' Hacc; [done|].
  cbn [foldl]. destruct Hr as [Hrep Hks Hnow]. specialize (Hrep d). specialize (Hks d). specialize (Hnow d).
  destruct (r d) as [a d1], (g (server_now d) (keyspace d)) as [b ks1] eqn:Hg. cbn [fst snd] in *.
  destruct (IH d1 (acc ++ [a]) (acc' ++ [b])) as (H1 & H2 & H3).
  { apply Forall2_app; [done|]. by repeat constructor. }
  rewrite Hks, Hnow in *. split; [done|]. split; [done|]. congruence.
Qed.

Lemma run_requests_effects rs gs d :
  Forall2 implements rs gs →
  Forall2 same_reply (run_requests rs d).1 (run_effects (server_now d) gs (keyspace d)).1 ∧
  keyspace (run_requests rs d).2 = (run_effects (server_now d) gs (keyspace d)).2 ∧
  server_now (run_requests rs d).2 = server_now d.
Proof. intros Himp. by apply run_requests_acc. Qed.

(** A property that each effect keeps is kept by any run of them. *)
Lemma run_effects_keep (P : Keyspace → Prop) now gs ks :
  (∀ g ks, g ∈ gs → P ks → P (g now ks).2) → P ks → P (run_effects now gs ks).2.
Proof.
  intros Hstep HP. unfold run_effects.
  assert (Hacc : ∀ acc, P (foldl (λ '(replies, ks) g, let '(a, ks) := g now ks in (replies ++ [a], ks)) (acc, ks) gs).2);
    [|apply Hacc].
  revert ks HP. induction gs as [|g gs IH]; intros ks HP acc; [done|]. cbn [foldl].
  destruct (g now ks) as [a ks'] eqn:Hg. apply IH; [by intros; apply Hstep; [right|]|].
  specialize (Hstep g ks). rewrite Hg in Hstep. apply Hstep; [by left|done].
Qed.

Lemma pass_spec c elapsed :
  on_time c → let c' := pass c elapsed in
  on_time c' ∧ (clock c ≤ clock c')%Z ∧ view c' = live (server_now (server c')) (view c) ∧
  (elapsed = 0%N → view c' = view c).
Proof.
  intros [Hnow Hdue] c'. destruct (redis_tick_spec (server c) ((clock c + Z.of_N elapsed) / Millisecond)) as [Ht Hks].
  assert (Hle : (server_now (server c) ≤ (clock c + Z.of_N elapsed) / Millisecond)%Z).
  { rewrite Hnow. apply Z.div_le_mono; [done|lia]. }
  assert (Hnow' : server_now (server c') = (clock c' / Millisecond)%Z).
  { change (server_now (server c')) with (server_now (redis_tick (server c) ((clock c + Z.of_N elapsed) / Millisecond))).
    rewrite Ht. by apply Z.max_r. }
  split; [|split; [unfold c'; cbn [clock pass]; lia|split; [exact Hks|]]].
  - split; [done|]. intros k e. unfold view. cbn [server c' pass]. rewrite Hks. apply live_not_due.
  - intros ->. change (view c') with (keyspace (redis_tick (server c) ((clock c + Z.of_N 0) / Millisecond))).
    rewrite Hks. apply live_all. intros k e He. rewrite Ht.
    replace ((clock c + Z.of_N 0) / Millisecond)%Z with (server_now (server c)) by (rewrite Hnow; f_equal; lia).
    rewrite Z.max_id. by eapply Hdue.
Qed.

(** An effect that leaves no key overdue. *)
Definition none_due (now : Z) ks : Prop := ∀ k e, ks !! k = Some e → due now e = false.
Definition timely (g : effect) : Prop := ∀ now ks, none_due now ks → none_due now (g now ks).2.

Lemma run_requests_now rs gs d : Forall2 implements rs gs → server_now (run_requests rs d).2 = server_now d.
Proof. intros Himp. by apply (run_requests_effects rs gs). Qed.

Lemma attempts_spec rs gs ns d (P : Keyspace → Prop) :
  Forall2 implements rs gs → P (keyspace d) →
  (∀ g ks, g ∈ gs → P ks → P (g (server_now d) ks).2) →
  let d' := foldl (λ d n, (run_requests (take n rs) d).2) d ns in
  server_now d' = server_now d ∧ P (keyspace d').
Proof.
  intros Himp. revert d. induction ns as [|n ns IH]; intros d HP Hstep; [done|]. cbn [foldl].
  assert (Himp' : Forall2 implements (take n rs) (take n gs)) by by apply Forall2_take.
  destruct (run_requests_effects (take n rs) (take n gs) d Himp') as (_ & Hks & Hnow).
  destruct (IH (run_requests (take n rs) d).2) as [Hnow' HP'].
  - rewrite Hks. apply run_effects_keep; [|done]. intros g ks Hg. apply Hstep. by eapply elem_of_take in Hg as (? & ? & _); eapply list_elem_of_lookup_2.
  - by rewrite Hnow.
  - by rewrite Hnow' in *.
Qed.

(** What a call does: a property of the keyspace that each request keeps holds at the end,
    and if the replies arrive they are those of a run of the whole batch. *)
Lemma transmit_spec c rs gs err replies c' :
  on_time c → Forall2 implements rs gs → Forall timely gs →
  transmit network c rs = (err, replies, c') →
  let now := server_now (server c') in
  on_time c' ∧ (clock c ≤ clock c')%Z ∧
  (prompt network c → prompt network c' ∧ live now (view c) = view c ∧ err = reply_error replies ∧
     Forall2 same_reply replies (run_effects now gs (view c)).1 ∧ view c' = (run_effects now gs (view c)).2) ∧
  ∀ P : Keyspace → Prop, P (live now (view c)) → (∀ g ks, g ∈ gs → P ks → P (g now ks).2) →
    P (view c') ∧
    (err = None → ∃ ks, P ks ∧ reply_error replies = None ∧
       Forall2 same_reply replies (run_effects now gs ks).1 ∧ view c' = (run_effects now gs ks).2).
Proof.
  intros Htime Himp Htimely. unfold transmit.
  destruct (pass_spec c (dl_elapsed (network (calls c))) Htime) as (Htime1 & Hle & Hview & Hzero).
  set (c1 := pass c _) in *. set (d1 := foldl _ (server c1) _).
  assert (Hd1 : ∀ P : Keyspace → Prop, P (view c1) →
    (∀ g ks, g ∈ gs → P ks → P (g (server_now (server c1)) ks).2) →
    server_now d1 = server_now (server c1) ∧ P (keyspace d1)) by (intros; by apply (attempts_spec rs gs)).
  assert (Hnow1 : server_now d1 = server_now (server c1)) by (destruct (Hd1 (λ _, True)) as [? _]; done).
  assert (Hkeep : ∀ g ks, g ∈ gs → none_due (server_now (server c1)) ks →
    none_due (server_now (server c1)) (g (server_now (server c1)) ks).2).
  { intros g ks Hg. apply (proj1 (Forall_forall _ _) Htimely g Hg). }
  destruct (Hd1 (none_due (server_now (server c1)))) as [_ Hdue1]; [exact (proj2 Htime1)|done|].
  destruct (run_requests_effects rs gs d1 Himp) as (Hrep & Hks & Hnow2). rewrite Hnow1 in *.
  destruct (dl_error (network (calls c))) as [e|] eqn:He.
  - intros [= <- <- <-]. cbn [server clock]. unfold on_time, view in *. cbn [server clock calls] in *.
    rewrite Hnow1. split; [split; [apply Htime1|exact Hdue1]|]. split; [done|]. split.
    + intros Hp. rewrite (Hp (calls c)) in He; done.
    + intros P HP Hstep. rewrite <- Hview in HP. split; [by apply Hd1|done].
  - destruct (run_requests rs d1) as [replies' d2]. intros [= <- <- <-]. cbn [fst snd] in *.
    unfold on_time, view in *. cbn [server clock calls] in *. rewrite Hnow2.
    split; [split; [apply Htime1|]|split; [done|split]].
    + rewrite Hks. by apply run_effects_keep.
    + intros Hp. split; [intros n Hn; apply Hp; cbn in Hn; lia|].
      assert (Hsame : keyspace (server c1) = keyspace (server c)) by (apply Hzero; by rewrite (Hp (calls c) (le_n _))).
      split; [by rewrite <- Hview|]. split; [done|].
      unfold d1 in Hks, Hrep. rewrite (Hp (calls c) (le_n _)) in Hks, Hrep. cbn [dl_attempts foldl] in *.
      rewrite <- Hsame. split; done.
    + intros P HP Hstep. rewrite <- Hview in HP. destruct (Hd1 P HP Hstep) as [_ HP1]. split.
      * rewrite Hks. by apply run_effects_keep.
      * intros Herr. by exists (keyspace d1).
Qed.

End client_laws.
