(* ===== verification/RedisStore.v ===== *)
(** The Redis token store (internal/auth/redis-token-store.go).

    A token is a JSON value under "token:" and its ID, with an expiry aligned to the
    token's; a reverse index under "token:hash:" and the hash holds the ID, and the set
    "token:__index__" all the IDs.  [tokens] is what the keyspace holds; [wf] says that
    the two indexes never point to a wrong entry, which every operation keeps whatever the
    network does, and [complete] that they miss none, which holds as long as it does not
    fail.  The JSON form of an entry is the class [RedisCodec]. *)
From S2P Require Import Prelude GoStrings TokenStore RedisServer.
From Stdlib Require Import Ascii.

Definition tokenKeyPrefix : string := "token:".
Definition tokenIndexKey : string := "token:__index__".
Definition tokenHashPrefix : string := "token:hash:".

Record redisTokenEntry := {
  re_ID : string;
  re_Name : string;
  re_TokenHash : string;
  re_CreatedAt : time;
  re_ExpiresAt : time;
  re_RevokedAt : time;
}.

Definition toRedisEntry (e : TokenEntry) : redisTokenEntry :=
  {| re_ID := ID e; re_Name := Name e; re_TokenHash := TokenHash e; re_CreatedAt := CreatedAt e;
     re_ExpiresAt := ExpiresAt e; re_RevokedAt := RevokedAt e |}.

Definition fromRedisEntry (r : redisTokenEntry) : TokenEntry :=
  {| ID := re_ID r; Name := re_Name r; TokenHash := re_TokenHash r; CreatedAt := re_CreatedAt r;
     ExpiresAt := re_ExpiresAt r; RevokedAt := re_RevokedAt r |}.

(** The characters of UUIDs and of digests. *)
Definition hex_char (a : ascii) : bool :=
  let n := nat_of_ascii a in ((48 <=? n) && (n <=? 57) || (97 <=? n) && (n <=? 102))%nat.
Definition hex_text (s : string) : bool := str_forall hex_char s.
Definition uuid_text (s : string) : bool := str_forall (λ a, hex_char a || Ascii.eqb a "-") s.

Class RedisCodec := {
  redis_Marshal : redisTokenEntry → string + string;
  redis_Unmarshal : string → string + redisTokenEntry;
}.

(** encoding/json writes instants up to the year 9999 and reads them back; it keeps
    valid UTF-8, and what it decodes into a struct is an object or null. *)
Class RedisCodecLaws `{RedisCodec} := {
  redis_Marshal_ok r :
    json_time (re_CreatedAt r) = true → json_time (re_ExpiresAt r) = true → json_time (re_RevokedAt r) = true →
    ∃ data, redis_Marshal r = inr data;
  redis_roundtrip r data :
    redis_Marshal r = inr data → ValidString (re_ID r) = true → ValidString (re_TokenHash r) = true →
    ∃ name, redis_Unmarshal data = inr {| re_ID := re_ID r; re_Name := name; re_TokenHash := re_TokenHash r;
        re_CreatedAt := re_CreatedAt r; re_ExpiresAt := re_ExpiresAt r; re_RevokedAt := re_RevokedAt r |} ∧
      (ValidString (re_Name r) = true → name = re_Name r);
  redis_Unmarshal_object s : uuid_text s = true → ∃ err, redis_Unmarshal s = inl err;
}.

(** [time.Until], which saturates at the bounds of time.Duration. *)
Definition maxDuration : Z := 9223372036854775807.
Definition Until (now t : time) : Z := Z.max (- maxDuration - 1) (Z.min maxDuration (t - now)).

(** The milliseconds go-redis sends for an expiration. *)
Definition format_ttl (ttl : Z) : Z := if (ttl <? Millisecond)%Z then 1 else (ttl / Millisecond)%Z.

Section redis_store.
Context {D : Type} `{RedisServer D} `{RedisCodec}.
Variable network : nat → delivery.

Definition RedisTokenStore : Type := redis_client D.

Implicit Types s : RedisTokenStore.

Definition key (id : string) : string := tokenKeyPrefix +:+ id.
Definition hashKey (hash : string) : string := tokenHashPrefix +:+ hash.

Definition send s (cmds : list command) : option string * list reply * RedisTokenStore :=
  transmit network s (map (λ c d, redis_call d c) cmds).

Definition Save s (entry : TokenEntry) : option string * RedisTokenStore :=
  match redis_Marshal (toRedisEntry entry) with
  | inl err => (Some ("redis-token-store: failed to marshal entry: " +:+ err), s)
  | inr data =>
      let ttl := if IsZero (ExpiresAt entry) then 0%Z else Until (clock s) (ExpiresAt entry) in
      if negb (IsZero (ExpiresAt entry)) && (ttl <=? 0)%Z then
        (Some "redis-token-store: token is already expired"%string, s)
      else
        let px := if (0 <? ttl)%Z then Some (format_ttl ttl) else None in
        match send s [SET (key (ID entry)) data px; SET (hashKey (TokenHash entry)) (ID entry) px;
                      SADD tokenIndexKey (ID entry)] with
        | (Some err, _, s) => (Some ("redis-token-store: failed to save entry: " +:+ err), s)
        | (None, _, s) => (None, s)
        end
  end.

Definition getByID s (id : string) : option TokenEntry * RedisTokenStore :=
  let '(err, replies, s) := send s [GET (key id)] in
  match err, replies with
  | None, [Bulk data] =>
      match redis_Unmarshal data with
      | inl _ => (None, s)
      | inr r => (Some (fromRedisEntry r), s)
      end
  | _, _ => (None, s)
  end.

Definition GetByHash s (hash : string) : option TokenEntry * RedisTokenStore :=
  let '(err, replies, s) := send s [GET (hashKey hash)] in
  match err, replies with
  | None, [Bulk id] =>
      match getByID s id with
      | (Some entry, s) => (Some entry, s)
      | (None, s) => let '(_, _, s) := send s [SREM tokenIndexKey id] in (None, s)
      end
  | _, _ => (None, s)
  end.

(** The loop of List over the IDs of the index. *)
Fixpoint list_entries s (ids : list string) (entries : list TokenEntry) : list TokenEntry * RedisTokenStore :=
  match ids with
  | [] => (entries, s)
  | id :: ids =>
      match getByID s id with
      | (Some entry, s) => list_entries s ids (entries ++ [entry])
      | (None, s) => let '(_, _, s) := send s [SREM tokenIndexKey id] in list_entries s ids entries
      end
  end.

Definition List s : list TokenEntry * RedisTokenStore :=
  let '(err, replies, s) := send s [SMEMBERS tokenIndexKey] in
  match err, replies with
  | None, [Members ids] =>
      let '(entries, s) := list_entries s ids [] in (sort_newest entries, s)
  | _, _ => ([], s)
  end.

(** The Lua script: it runs on the server as one command, and an error of a call ends it. *)
Definition revokeScript (k payload : string) : @request D := λ d,
  match redis_call d (PTTL k) with
  | (Int pttl, d) =>
      if (pttl =? -2)%Z then (Int 0, d)
      else
        match redis_call d (SET k payload (if (0 <? pttl)%Z then Some pttl else None)) with
        | (ReplyErr err, d) => (ReplyErr err, d)
        | (_, d) => (Int 1, d)
        end
  | (r, d) => (r, d)
  end.

Definition Revoke s (now : time) (id : string) : bool * RedisTokenStore :=
  match getByID s id with
  | (None, s) => (false, s)
  | (Some entry, s) =>
      match redis_Marshal (toRedisEntry (revoked_at now entry)) with
      | inl _ => (false, s)
      | inr data =>
          match transmit network s [revokeScript (key id) data] with
          | (None, [Int result], s) => (negb (result =? 0)%Z, s)
          | (_, _, s) => (false, s)
          end
      end
  end.

Definition Delete s (id : string) : bool * RedisTokenStore :=
  match getByID s id with
  | (None, s) => (false, s)
  | (Some entry, s) =>
      match send s [DEL (key id); DEL (hashKey (TokenHash entry)); SREM tokenIndexKey id] with
      | (None, Int deleted :: _, s) => ((0 <? deleted)%Z, s)
      | (_, _, s) => (false, s)
      end
  end.

(** Redis evicts the keys whose time has come; Close has no effect. *)
Definition evict s (now : time) : RedisTokenStore :=
  pass s (Z.to_N (now - clock s)).
End redis_store.
Arguments RedisTokenStore D : clear implicits.
