(* ===== verification/RedisSpec.v ===== *)
(** What the Redis token store promises: it implements the interface of TokenStore.v,
    whatever part of its commands the server executes and whenever keys expire. *)
From S2P Require Import Prelude GoStrings TokenStore RedisServer RedisStore.
From Stdlib Require Import Ascii.

Lemma key_inj i j : key i = key j ↔ i = j.
Proof. apply str_app_inj_l. Qed.

Lemma hashKey_inj g h : hashKey g = hashKey h ↔ g = h.
Proof. apply str_app_inj_l. Qed.

Lemma hashKey_key h : hashKey h = key ("hash:" +:+ h).
Proof. done. Qed.

Lemma index_key : tokenIndexKey = key "__index__".
Proof. done. Qed.

Lemma hashKey_index h : hashKey h ≠ tokenIndexKey.
Proof. done. Qed.

Lemma hash_not_uuid h : uuid_text ("hash:" +:+ h) = false.
Proof. done. Qed.

Lemma index_not_uuid : uuid_text "__index__" = false.
Proof. done. Qed.

Lemma key_hashKey i h : uuid_text i = true → key i ≠ hashKey h.
Proof. intros Hi. rewrite hashKey_key, key_inj. intros ->. done. Qed.

Lemma key_not_index i : uuid_text i = true → key i ≠ tokenIndexKey.
Proof. intros Hi. rewrite index_key, key_inj. intros ->. done. Qed.

Lemma hex_valid s : hex_text s = true → ValidString s = true.
Proof.
  intros Hs. apply ascii_valid. revert Hs. apply str_forall_impl. intros a. unfold hex_char. cbv zeta.
  rewrite orb_true_iff, !andb_true_iff, !Nat.leb_le, Nat.ltb_lt. lia.
Qed.

Lemma uuid_valid s : uuid_text s = true → ValidString s = true.
Proof.
  intros Hs. apply ascii_valid. revert Hs. apply str_forall_impl. intros a. unfold hex_char. cbv zeta.
  rewrite !orb_true_iff, !andb_true_iff, !Nat.leb_le, Nat.ltb_lt. intros [?|Ha]; [lia|].
  by apply Ascii.eqb_eq in Ha as ->; vm_compute; lia.
Qed.

(** ** The contents of the keyspace *)

Section contents.
Context `{RedisCodec}.
Implicit Types ks L : Keyspace.

Definition decode (k : rkey) : option TokenEntry :=
  match rk_value k with
  | RString v => match redis_Unmarshal v with inr r => Some (fromRedisEntry r) | inl _ => None end
  | RSet _ => None
  end.

Definition tokens_of ks : gmap string TokenEntry :=
  list_to_map (omap (λ '(k, v), if HasPrefix k tokenKeyPrefix
                                then pair (TrimPrefix k tokenKeyPrefix) <$> decode v else None)
                    (map_to_list ks)).

Definition index ks : gset string := default ∅ (set_members ks tokenIndexKey).

Lemma tokens_at ks id : tokens_of ks !! id = ks !! key id ≫= decode.
Proof.
  apply option_eq. intros e. rewrite bind_Some. unfold tokens_of.
  assert (Hin : ∀ e, (id, e) ∈ omap (λ '(k, v), if HasPrefix k tokenKeyPrefix
      then pair (TrimPrefix k tokenKeyPrefix) <$> decode v else None) (map_to_list ks) ↔
    ∃ k, ks !! key id = Some k ∧ decode k = Some e).
  { intros e'. rewrite list_elem_of_omap. split.
    - intros ([k v] & Hk%elem_of_map_to_list & Hv). destruct (HasPrefix k tokenKeyPrefix) eqn:Hp; [|done].
      apply HasPrefix_spec in Hp as [i ->]. rewrite TrimPrefix_app in Hv.
      destruct (decode v) eqn:Hd; cbn in Hv; simplify_eq. eauto.
    - intros (k & Hk & Hd). exists (key id, k). rewrite elem_of_map_to_list. split; [done|].
      unfold key. by rewrite HasPrefix_app, TrimPrefix_app, Hd. }
  split.
  - intros He%elem_of_list_to_map_2. by apply Hin.
  - intros He. apply elem_of_list_to_map_1'; [|by apply Hin].
    intros y Hy%Hin. naive_solver congruence.
Qed.

Lemma tokens_Some ks id e : tokens_of ks !! id = Some e ↔ ∃ k, ks !! key id = Some k ∧ decode k = Some e.
Proof. by rewrite tokens_at, bind_Some. Qed.

(** A stored entry under its ID, and its expiry against the deadline of its key. *)
Record good_entry (id : string) (k : rkey) (e : TokenEntry) : Prop := {
  good_uuid : uuid_text id = true;
  good_ID : ID e = id;
  good_hash : hex_text (TokenHash e) = true;
  good_times : json_time (CreatedAt e) = true ∧ json_time (ExpiresAt e) = true ∧ json_time (RevokedAt e) = true;
  good_deadline d : rk_deadline k = Some d →
    ExpiresAt e ≠ 0%Z ∧ (ExpiresAt e < (d + 2) * Millisecond)%Z;
}.

Definition index_ok ks : Prop :=
  ∀ k, ks !! tokenIndexKey = Some k → rk_deadline k = None ∧ ∃ m, rk_value k = RSet m.

Record wf ks : Prop := {
  wf_entry id k e : ks !! key id = Some k → decode k = Some e → good_entry id k e;
  wf_unique id1 id2 e1 e2 : tokens_of ks !! id1 = Some e1 → tokens_of ks !! id2 = Some e2 →
    TokenHash e1 = TokenHash e2 → id1 = id2;
  wf_hash h k id e : ks !! hashKey h = Some k → rk_value k = RString id →
    tokens_of ks !! id = Some e → TokenHash e = h;
  wf_index : index_ok ks;
}.

(** The index has every ID, and the reverse index every hash of an entry that is not
    revoked, for as long as the entry. *)
Definition complete ks : Prop :=
  ∀ id k e, ks !! key id = Some k → decode k = Some e →
    id ∈ index ks ∧
    (RevokedAt e = 0%Z → ∃ kh, ks !! hashKey (TokenHash e) = Some kh ∧ rk_value kh = RString id ∧
       rk_deadline kh = rk_deadline k).

Lemma tokens_uuid ks id e : wf ks → tokens_of ks !! id = Some e → uuid_text id = true ∧ ID e = id.
Proof. intros Hwf (k & Hk & Hd)%tokens_Some. by destruct (wf_entry _ Hwf _ _ _ Hk Hd). Qed.

Lemma set_members_index ks : index_ok ks → set_members ks tokenIndexKey = Some (index ks).
Proof.
  intros Hok. unfold index, set_members. destruct (ks !! tokenIndexKey) as [k|] eqn:Hk; [|done].
  destruct (Hok k Hk) as [_ [m ->]]. done.
Qed.

(** Keys may go, and the index may shrink. *)
Definition shrinks L ks : Prop :=
  (∀ k v, k ≠ tokenIndexKey → ks !! k = Some v → L !! k = Some v) ∧ index_ok ks.

Lemma shrinks_tokens L ks : shrinks L ks → tokens_of ks ⊆ tokens_of L.
Proof.
  intros [Hsub Hok]. apply map_subseteq_spec. intros id e (k & Hk & Hd)%tokens_Some.
  apply tokens_Some. exists k. split; [|done]. apply Hsub; [|done].
  intros Hi. rewrite Hi in Hk. destruct (Hok k Hk) as [_ [m Hm]]. unfold decode in Hd. by rewrite Hm in Hd.
Qed.

Lemma shrinks_wf L ks : shrinks L ks → wf L → wf ks.
Proof.
  intros Hsh Hwf. pose proof (shrinks_tokens _ _ Hsh) as Htok. destruct Hsh as [Hsub Hok]. split; [..|done].
  - intros id k e Hk Hd. assert (He : tokens_of L !! id = Some e).
    { eapply lookup_weaken; [|done]. apply tokens_Some. eauto. }
    apply (wf_entry L Hwf); [|done]. apply Hsub; [|done]. apply key_not_index.
    by apply (tokens_uuid L id e).
  - intros id1 id2 e1 e2 H1 H2. apply (wf_unique L Hwf); by eapply lookup_weaken.
  - intros h k id e Hk Hv He. eapply (wf_hash L Hwf); [apply Hsub| |eapply lookup_weaken]; done.
Qed.

Lemma live_shrinks now ks : wf ks → shrinks ks (live now ks).
Proof.
  intros Hwf. split; [by intros k v _ [? _]%live_lookup|].
  intros k [Hk _]%live_lookup. by apply (wf_index ks Hwf).
Qed.

(** Only entries that expire are dropped with time. *)
Lemma live_lapsed now ks : wf ks → lapsed (tokens_of ks) (tokens_of (live now ks)).
Proof.
  intros Hwf. split; [by apply shrinks_tokens, live_shrinks|].
  intros id e He Hnone. apply tokens_Some in He as (k & Hk & Hd).
  destruct (due now k) eqn:Hdue.
  - unfold due in Hdue. destruct (rk_deadline k) as [d|] eqn:Hdl; [|done].
    by apply (good_deadline _ _ _ (wf_entry ks Hwf _ _ _ Hk Hd) d).
  - assert (tokens_of (live now ks) !! id = Some e); [|congruence].
    apply tokens_Some. exists k. by rewrite live_lookup.
Qed.

Lemma live_index now ks : wf ks → index (live now ks) = index ks.
Proof.
  intros Hwf. unfold index, set_members. destruct (ks !! tokenIndexKey) as [k|] eqn:Hk.
  - assert (live now ks !! tokenIndexKey = Some k) as ->; [|done]. apply live_lookup. split; [done|].
    destruct (wf_index ks Hwf k Hk) as [Hdl _]. unfold due. by rewrite Hdl.
  - destruct (live now ks !! tokenIndexKey) as [k|] eqn:Hk'; [|done]. apply live_lookup in Hk' as [? _]. congruence.
Qed.

Lemma live_complete now ks : wf ks → complete ks → complete (live now ks).
Proof.
  intros Hwf Hc id k e [Hk Hdue]%live_lookup Hd. destruct (Hc id k e Hk Hd) as [Hin Hkh].
  rewrite live_index by done. split; [done|]. intros Hr. destruct (Hkh Hr) as (kh & Hh & Hv & Hdl).
  exists kh. split; [|done]. apply live_lookup. split; [done|]. unfold due in *. by rewrite Hdl.
Qed.
End contents.

(** ** Calls that read *)

Section operations.
Context {D : Type} `{RedisServerLaws D} `{RedisCodecLaws}.
Variable network : nat → delivery.
Implicit Types (s : RedisTokenStore D) (ks L : Keyspace).

Definition inv s : Prop := on_time s ∧ wf (view s).
Definition reliable s : Prop := prompt network s ∧ complete (view s).

Definition command_effect (c : command) : effect := λ now ks, exec_command now ks c.

Definition positive_ttl (c : command) : Prop :=
  match c with SET _ _ (Some px) => (0 ≤ px)%Z | _ => True end.

Lemma command_timely c : positive_ttl c → timely (command_effect c).
Proof.
  intros Hpos now ks Hdue k' e. unfold command_effect. destruct c as [k|k v px|k|k m|k m|k|k]; cbn [exec_command snd].
  - destruct (ks !! k); apply Hdue.
  - intros [[<- <-]|[_ He]]%lookup_insert_Some; [|by eapply Hdue].
    unfold due. destruct px as [px|]; cbn in *; [lia|done].
  - intros [_ He]%lookup_delete_Some. by eapply Hdue.
  - destruct (set_members ks k); [|apply Hdue]. cbn [snd].
    intros [[<- <-]|[_ He]]%lookup_insert_Some; [|by eapply Hdue].
    unfold due. cbn. destruct (ks !! k) as [x|] eqn:Hk; [|done]. by apply (Hdue k).
  - destruct (set_members ks k); [|apply Hdue]. case_decide; [|apply Hdue]. cbn [snd]. case_decide.
    + intros [_ He]%lookup_delete_Some. by eapply Hdue.
    + intros [[<- <-]|[_ He]]%lookup_insert_Some; [|by eapply Hdue].
      unfold due. cbn. destruct (ks !! k) as [x|] eqn:Hk; [|done]. by apply (Hdue k).
  - destruct (set_members ks k); apply Hdue.
  - destruct (ks !! k); apply Hdue.
Qed.

Lemma send_spec s cmds err replies s' :
  on_time s → Forall positive_ttl cmds → send network s cmds = (err, replies, s') →
  let now := server_now (server s') in
  let run := run_effects now (map command_effect cmds) in
  on_time s' ∧ (clock s ≤ clock s')%Z ∧
  (prompt network s → prompt network s' ∧ live now (view s) = view s ∧ err = reply_error replies ∧
     Forall2 same_reply replies (run (view s)).1 ∧ view s' = (run (view s)).2) ∧
  ∀ P : Keyspace → Prop, P (live now (view s)) →
    (∀ c ks, c ∈ cmds → P ks → P (exec_command now ks c).2) →
    P (view s') ∧
    (err = None → ∃ ks, P ks ∧ reply_error replies = None ∧
       Forall2 same_reply replies (run ks).1 ∧ view s' = (run ks).2).
Proof.
  intros Htime Hpos Hsend now run. unfold send in Hsend.
  assert (Himp : Forall2 implements (map (λ c d, redis_call d c) cmds) (map command_effect cmds)).
  { apply Forall2_fmap, Forall_Forall2_diag, Forall_true. intros c. apply call_implements. }
  assert (Htimely : Forall timely (map command_effect cmds)).
  { apply Forall_fmap. by eapply Forall_impl; [done|]; intros c; apply command_timely. }
  destruct (transmit_spec network s _ _ _ _ _ Htime Himp Htimely Hsend) as (? & ? & ? & Hkeep).
  split; [done|]. split; [done|]. split; [done|]. intros P HP Hstep. apply Hkeep; [done|].
  intros g ks Hg. apply elem_of_map_list in Hg as (c & -> & Hc). by apply Hstep.
Qed.

(** What a call that reads does to the store: it may tidy the index. *)
Record reads s s' : Prop := {
  reads_inv : inv s';
  reads_shrinks : shrinks (view s) (view s');
  reads_lapsed : lapsed (tokens_of (view s)) (tokens_of (view s'));
  reads_reliable : reliable s → reliable s' ∧ tokens_of (view s') = tokens_of (view s);
}.

Lemma reads_trans s1 s2 s3 : reads s1 s2 → reads s2 s3 → reads s1 s3.
Proof.
  intros [Hi1 [Hs1 Hok1] Hl1 Hr1] [Hi2 [Hs2 Hok2] Hl2 Hr2]. split; [done|split; eauto|by eapply lapsed_trans|].
  intros Hrel. destruct (Hr1 Hrel) as [Hrel2 <-]. destruct (Hr2 Hrel2) as [Hrel3 <-]. done.
Qed.

(** A command that only looks. *)
Lemma look_spec s c err replies s' :
  inv s → (∀ now ks, (exec_command now ks c).2 = ks) → positive_ttl c →
  send network s [c] = (err, replies, s') →
  reads s s' ∧ view s' = live (server_now (server s')) (view s) ∧
  (prompt network s → prompt network s' ∧ err = reply_error replies ∧ view s' = view s) ∧
  (err = None ∨ prompt network s → ∃ r, replies = [r] ∧
     same_reply r (exec_command (server_now (server s')) (view s') c).1).
Proof.
  intros [Htime Hwf] Hlook Hpos Hsend. apply send_spec in Hsend; [|done|by constructor].
  cbv zeta in Hsend. set (now := server_now (server s')) in *. destruct Hsend as (Htime' & _ & Hprompt & Hkeep).
  destruct (Hkeep (λ ks, ks = live now (view s))) as [Hview Hrep].
  { done. } { intros x ks ->%list_elem_of_singleton ->. apply Hlook. }
  assert (Hp : prompt network s → prompt network s' ∧ view s' = view s).
  { intros Hp. destruct (Hprompt Hp) as (? & Hlive & _). by rewrite Hview, Hlive. }
  assert (Hreply : ∀ ks, Forall2 same_reply replies (run_effects now (map command_effect [c]) ks).1 →
    ∃ r, replies = [r] ∧ same_reply r (exec_command now ks c).1).
  { intros ks HF. unfold run_effects in HF. cbn in HF. unfold command_effect in HF.
    destruct (exec_command now ks c) as [a ks']. cbn in HF. apply Forall2_cons_inv_r in HF as (r & l & Hr & Hl & ->).
    apply Forall2_nil_inv_r in Hl as ->. by exists r. }
  split; [|split; [done|split]].
  - split.
    + split; [done|]. rewrite Hview. by eapply shrinks_wf; [apply live_shrinks|].
    + rewrite Hview. by apply live_shrinks.
    + rewrite Hview. by apply live_lapsed.
    + intros [Hpr Hc]. destruct (Hp Hpr) as [? Heq]. unfold reliable. by rewrite Heq.
  - intros Hpr. destruct (Hp Hpr). by destruct (Hprompt Hpr) as (_ & _ & ? & _).
  - intros [Herr|Hpr].
    + destruct (Hrep Herr) as (ks & -> & _ & HF & _). rewrite Hview. by apply Hreply.
    + destruct (Hprompt Hpr) as (_ & _ & _ & HF & _). destruct (Hp Hpr) as [_ ->]. by apply Hreply.
Qed.

Lemma getByID_spec s id r s' :
  inv s → getByID network s id = (r, s') →
  reads s s' ∧ view s' = live (server_now (server s')) (view s) ∧
  (prompt network s → prompt network s' ∧ view s' = view s ∧ r = tokens_of (view s) !! id) ∧
  ∀ e, r = Some e → tokens_of (view s') !! id = Some e.
Proof.
  intros Hinv. unfold getByID. destruct (send network s [GET (key id)]) as [[err replies] s1] eqn:Hsend.
  apply look_spec in Hsend as (Hreads & Hview & Hprompt & Hreply); [|done| |done].
  2: { intros now ks. cbn. by destruct (ks !! key id). }
  assert (Hans : ∀ r1, match err, replies with
      | None, [Bulk data] => match redis_Unmarshal data with
                             | inl _ => (None, s1) | inr r => (Some (fromRedisEntry r), s1) end
      | _, _ => (None, s1) end = (r1, s') → s' = s1 ∧
      (∀ e, r1 = Some e → tokens_of (view s1) !! id = Some e) ∧
      (prompt network s → r1 = tokens_of (view s1) !! id)).
  { intros r1 Hr. destruct err as [err|].
    - injection Hr as <- <-. split; [done|]. split; [done|]. intros Hp.
      destruct (Hreply (or_intror Hp)) as (a & -> & Ha). destruct (Hprompt Hp) as (_ & Herr & _).
      rewrite tokens_at. cbn in Ha, Herr. destruct (view s1 !! key id) as [k|]; [|by destruct a].
      cbn. unfold decode. destruct (rk_value k); [by destruct a|done].
    - destruct (Hreply (or_introl eq_refl)) as (a & -> & Ha). rewrite tokens_at. cbn in Ha.
      destruct (view s1 !! key id) as [k|]; cbn in Ha |- *; [|destruct a; cbn in Ha; simplify_eq; naive_solver].
      unfold decode. destruct (rk_value k) as [v|m]; [|destruct a; cbn in Ha; simplify_eq; naive_solver].
      destruct a; cbn in Ha; simplify_eq. destruct (redis_Unmarshal _); injection Hr as <- <-; naive_solver. }
  intros Hr. apply Hans in Hr as (-> & Hsome & Hp). split; [done|]. split; [done|]. split; [|done].
  intros Hpr. destruct (Hprompt Hpr) as (? & _ & Hsame). split; [done|]. split; [done|].
  rewrite <- Hsame. auto.
Qed.

(** *** The index *)

Lemma tokens_same ks L :
  (∀ k, k ≠ tokenIndexKey → ks !! k = L !! k) → index_ok ks → index_ok L → tokens_of ks = tokens_of L.
Proof.
  intros Hkeys Hok HokL. apply map_eq. intros id. rewrite !tokens_at.
  destruct (decide (key id = tokenIndexKey)) as [Heq|Hne]; [|by rewrite Hkeys].
  rewrite Heq. assert (Hnone : ∀ ks', index_ok ks' → ks' !! tokenIndexKey ≫= decode = None); [|by rewrite !Hnone].
  intros ks' Hok'. destruct (ks' !! tokenIndexKey) as [k|] eqn:Hk; [|done].
  destruct (Hok' k Hk) as [_ [m Hm]]. cbn. unfold decode. by rewrite Hm.
Qed.

Lemma index_insert ks m :
  index_ok ks →
  let ks' := <[tokenIndexKey := {| rk_value := RSet m; rk_deadline := ks !! tokenIndexKey ≫= rk_deadline |}]> ks in
  index_ok ks' ∧ index ks' = m.
Proof.
  intros Hok ks'. split.
  - intros k. unfold ks'. rewrite lookup_insert_eq. intros [= <-]. cbn. split; [|by eauto].
    destruct (ks !! tokenIndexKey) as [k|] eqn:Hk; [|done]. by apply (Hok k).
  - unfold index, set_members, ks'. by rewrite lookup_insert_eq.
Qed.

Lemma srem_spec now ks id :
  index_ok ks → let ks' := (exec_command now ks (SREM tokenIndexKey id)).2 in
  (∀ k, k ≠ tokenIndexKey → ks' !! k = ks !! k) ∧ index_ok ks' ∧ index ks' = index ks ∖ {[id]} ∧
  ∃ n, (exec_command now ks (SREM tokenIndexKey id)).1 = Int n.
Proof.
  intros Hok. cbn [exec_command]. rewrite (set_members_index ks Hok). case_decide as Hin; cbn [fst snd].
  - case_decide as Hempty; cbn [fst snd].
    + split; [intros k Hk; by rewrite lookup_delete_ne|]. split.
      { intros k Hk. by rewrite lookup_delete_eq in Hk. }
      split; [|eauto]. unfold index at 1, set_members. by rewrite lookup_delete_eq, Hempty.
    + split; [intros k Hk; by rewrite lookup_insert_ne|].
      destruct (index_insert ks (index ks ∖ {[id]}) Hok) as [? ->]. eauto.
  - split; [done|]. split; [done|]. split; [set_solver|eauto].
Qed.

Lemma sadd_spec now ks id :
  index_ok ks → let ks' := (exec_command now ks (SADD tokenIndexKey id)).2 in
  (∀ k, k ≠ tokenIndexKey → ks' !! k = ks !! k) ∧ index_ok ks' ∧ index ks' = {[id]} ∪ index ks ∧
  ∃ n, (exec_command now ks (SADD tokenIndexKey id)).1 = Int n.
Proof.
  intros Hok. cbn [exec_command]. rewrite (set_members_index ks Hok). cbn [fst snd].
  split; [intros k Hk; by rewrite lookup_insert_ne|].
  destruct (index_insert ks ({[id]} ∪ index ks) Hok) as [? ->]. eauto.
Qed.

(** Removing an ID that has no token from the index. *)
Lemma tidy_spec s id err replies s' :
  inv s → send network s [SREM tokenIndexKey id] = (err, replies, s') →
  inv s' ∧ shrinks (view s) (view s') ∧ lapsed (tokens_of (view s)) (tokens_of (view s')) ∧
  (tokens_of (view s) !! id = None → reliable s →
     reliable s' ∧ tokens_of (view s') = tokens_of (view s)).
Proof.
  intros [Htime Hwf] Hsend. apply send_spec in Hsend; [|done|by constructor].
  cbv zeta in Hsend. set (now := server_now (server s')) in *. destruct Hsend as (Htime' & _ & Hprompt & Hkeep).
  set (L := live now (view s)) in *.
  assert (HL : shrinks (view s) L) by by apply live_shrinks.
  destruct (Hkeep (λ ks, (∀ k, k ≠ tokenIndexKey → ks !! k = L !! k) ∧ index_ok ks)) as [[Hkeys Hok] _].
  { split; [done|apply HL]. }
  { intros c ks ->%list_elem_of_singleton [Hks Hok]. destruct (srem_spec now ks id Hok) as (Hk & ? & _).
    split; [|done]. intros k Hne. by rewrite Hk, Hks. }
  assert (Htok : tokens_of (view s') = tokens_of L) by (apply tokens_same; [done|done|apply HL]).
  assert (Hsh : shrinks (view s) (view s')).
  { split; [|done]. intros k v Hne Hv. rewrite Hkeys in Hv by done. by apply HL. }
  split; [split; [done|by eapply shrinks_wf]|]. split; [done|].
  split; [rewrite Htok; by apply live_lapsed|]. intros Hgone [Hp Hc]. destruct (Hprompt Hp) as (Hp' & Hlive & _ & _ & Hrun).
  assert (HLs : L = view s) by exact Hlive. rewrite Htok, HLs.
  split; [|done]. split; [done|]. unfold run_effects in Hrun. cbn [map foldl] in Hrun.
  destruct (srem_spec now (view s) id (wf_index _ Hwf)) as (Hk & _ & Hidx & _).
  unfold command_effect in Hrun. destruct (exec_command now (view s) (SREM tokenIndexKey id)) as [a ks1].
  cbn [fst snd] in *. rewrite Hrun. intros i k e Hi Hd.
  assert (He : tokens_of (view s) !! i = Some e).
  { rewrite <- HLs, <- Htok. apply tokens_Some. rewrite Hrun. eauto. }
  rewrite Hk in Hi by by apply key_not_index, (tokens_uuid (view s) i e). destruct (Hc i k e Hi Hd) as [Hin Hkh].
  rewrite Hidx. split; [|intros Hr; rewrite Hk by apply hashKey_index; auto].
  assert (i ≠ id) by (intros ->; congruence). set_solver.
Qed.

(** The call that tidies the index after a lookup that found nothing. *)
Lemma reads_tidy s s1 id err replies s2 :
  reads s s1 → (reliable s → tokens_of (view s1) !! id = None) →
  send network s1 [SREM tokenIndexKey id] = (err, replies, s2) → reads s s2.
Proof.
  intros [Hinv [Hsub Hok] Hl Hrel] Hgone Hsend.
  destruct (tidy_spec _ _ _ _ _ Hinv Hsend) as (Hinv2 & [Hsub2 Hok2] & Hl2 & Hrel2).
  split; [done|split; eauto|by eapply lapsed_trans|].
  intros Hr. destruct (Hrel Hr) as [Hr1 <-]. auto.
Qed.

Lemma GetByHash_redis s hash r s' :
  inv s → GetByHash network s hash = (r, s') →
  reads s s' ∧
  (∀ e, r = Some e → ∃ id, tokens_of (view s) !! id = Some e ∧ TokenHash e = hash) ∧
  (reliable s → r = None → ∀ id e, tokens_of (view s) !! id = Some e → RevokedAt e = 0%Z → TokenHash e ≠ hash).
Proof.
  intros Hinv. unfold GetByHash. destruct (send network s [GET (hashKey hash)]) as [[err replies] s1] eqn:Hsend.
  apply look_spec in Hsend as (Hreads & Hview & Hprompt & Hreply); [|done| |done].
  2: { intros now ks. cbn. by destruct (ks !! hashKey hash). }
  (** What a token with this hash says of the first answer. *)
  assert (Hhit : reliable s → ∀ id e, tokens_of (view s) !! id = Some e → RevokedAt e = 0%Z → TokenHash e = hash →
    err = None ∧ replies = [Bulk id]).
  { intros [Hp Hc] id e He Hr <-. apply tokens_Some in He as (k & Hk & Hd).
    destruct (Hc id k e Hk Hd) as [_ Hkh]. destruct (Hkh Hr) as (kh & Hh & Hv & _).
    destruct (Hprompt Hp) as (_ & -> & Hsame). destruct (Hreply (or_intror Hp)) as (a & -> & Ha).
    rewrite Hsame in Ha. cbn in Ha. rewrite Hh, Hv in Ha. destruct a; cbn in Ha; simplify_eq; auto. }
  assert (Hbulk : ∀ id, err = None → replies = [Bulk id] →
    ∃ k, view s1 !! hashKey hash = Some k ∧ rk_value k = RString id).
  { intros id Herr ->. destruct (Hreply (or_introl Herr)) as (a & [= <-] & Ha). cbn in Ha.
    destruct (view s1 !! hashKey hash) as [k|]; [|done]. cbn in Ha. destruct (rk_value k) eqn:Hv; [|done].
    injection Ha as ->. eauto. }
  assert (Hmiss : ∀ r2 s2, (err ≠ None ∨ ∀ id, replies ≠ [Bulk id]) → (@None TokenEntry, s1) = (r2, s2) →
    reads s s2 ∧ (∀ e, r2 = Some e → ∃ id, tokens_of (view s) !! id = Some e ∧ TokenHash e = hash) ∧
    (reliable s → r2 = None → ∀ id e, tokens_of (view s) !! id = Some e → RevokedAt e = 0%Z → TokenHash e ≠ hash)).
  { intros r2 s2 Hno [= <- <-]. split; [done|]. split; [done|]. intros Hrel _ id e He Hr Hh.
    destruct (Hhit Hrel id e He Hr Hh) as [? ?]. naive_solver. }
  destruct err as [err|]; [apply Hmiss; by left|].
  destruct replies as [|[| |id| | |] [|]]; try (apply Hmiss; right; by intros ? [=]). clear Hmiss.
  destruct (Hbulk id eq_refl eq_refl) as (k & Hk & Hv).
  destruct (getByID network s1 id) as [[entry|] s2] eqn:Hget;
    destruct (getByID_spec _ _ _ _ (reads_inv _ _ Hreads) Hget) as (Hreads2 & Hview2 & Hprompt2 & Hsome).
  - intros [= <- <-]. split; [by eapply reads_trans|]. split; [|done]. intros e [= <-].
    assert (He1 : tokens_of (view s1) !! id = Some entry) by (eapply lapsed_lookup; [apply Hreads2|auto]).
    exists id. split; [eapply lapsed_lookup; [apply Hreads|done]|].
    eapply (wf_hash _ (proj2 (reads_inv _ _ Hreads))); done.
  - destruct (send network s2 [SREM tokenIndexKey id]) as [[err3 replies3] s3] eqn:Hsend3. intros [= <- <-].
    assert (Hgone : reliable s → tokens_of (view s1) !! id = None ∧ tokens_of (view s2) !! id = None).
    { intros Hrel. destruct (reads_reliable _ _ Hreads Hrel) as [[Hp1 _] _].
      destruct (Hprompt2 Hp1) as (_ & -> & <-). done. }
    split; [|split; [done|]].
    + eapply reads_tidy; [by eapply reads_trans| |done]. intros Hrel. by apply Hgone.
    + intros Hrel _ i e He Hr Hh. destruct (Hhit Hrel i e He Hr Hh) as [_ [= <-]].
      destruct (reads_reliable _ _ Hreads Hrel) as [_ Htok]. destruct (Hgone Hrel) as [Hnone _].
      rewrite Htok in Hnone. congruence.
Qed.

(** *** List *)

Lemma reads_refl s : inv s → reads s s.
Proof. intros Hinv. split; [done|split; [done|apply Hinv]|apply lapsed_refl|done]. Qed.

Lemma omap_lookup_perm (m : gmap string TokenEntry) (ids : list string) :
  NoDup ids → (∀ id, is_Some (m !! id) → id ∈ ids) → omap (λ id, m !! id) ids ≡ₚ (map_to_list m).*2.
Proof.
  intros Hnd Hdom.
  assert (Hpairs : omap (λ id, pair id <$> m !! id) ids ≡ₚ map_to_list m).
  { apply NoDup_Permutation; [|apply NoDup_map_to_list|].
    - apply (NoDup_fmap_1 fst). clear Hdom. induction ids as [|id ids IH]; [constructor|].
      apply NoDup_cons in Hnd as [Hid Hnd]. cbn. destruct (m !! id) as [e|]; cbn; [|by apply IH].
      apply NoDup_cons. split; [|by apply IH]. rewrite list_elem_of_fmap. intros ([i x] & -> & Hin).
      apply list_elem_of_omap in Hin as (j & Hj & Heq). destruct (m !! j); simplify_eq/=. done.
    - intros [id e]. rewrite list_elem_of_omap, elem_of_map_to_list. split.
      + intros (i & _ & Hi). destruct (m !! i) eqn:Hm; simplify_eq/=. done.
      + intros He. exists id. rewrite He. split; [apply Hdom; eauto|done]. }
  rewrite <- Hpairs. clear. induction ids as [|id ids IH]; [done|]. cbn.
  destruct (m !! id); cbn; [by constructor|done].
Qed.

Lemma list_entries_spec s ids acc l s' :
  inv s → list_entries network s ids acc = (l, s') →
  reads s s' ∧ ∃ l', l = acc ++ l' ∧
    (∀ e, e ∈ l' → ∃ id, tokens_of (view s) !! id = Some e) ∧
    (reliable s → l' = omap (λ id, tokens_of (view s) !! id) ids).
Proof.
  revert s acc. induction ids as [|id ids IH]; intros s acc Hinv; cbn [list_entries].
  { intros [= <- <-]. split; [by apply reads_refl|]. exists []. rewrite app_nil_r. set_solver. }
  destruct (getByID network s id) as [[entry|] s1] eqn:Hget;
    destruct (getByID_spec _ _ _ _ Hinv Hget) as (Hreads & _ & Hprompt & Hsome).
  - intros Hl. destruct (IH s1 _ (reads_inv _ _ Hreads) Hl) as (Hreads2 & l' & -> & Hin & Hall).
    split; [by eapply reads_trans|]. exists (entry :: l'). rewrite <- app_assoc. split; [done|].
    assert (Hlap := reads_lapsed _ _ Hreads). split.
    + intros e [->|He]%elem_of_cons; [exists id; by eapply lapsed_lookup; [|apply Hsome]|].
      destruct (Hin e He) as [i Hi]. exists i. by eapply lapsed_lookup.
    + intros Hrel. destruct (reads_reliable _ _ Hreads Hrel) as [Hrel1 Htok]. cbn.
      destruct (Hprompt (proj1 Hrel)) as (_ & _ & <-). by rewrite (Hall Hrel1), Htok.
  - destruct (send network s1 [SREM tokenIndexKey id]) as [[err replies] s2] eqn:Hsend. intros Hl.
    assert (Hreads2 : reads s s2).
    { eapply reads_tidy; [done| |done]. intros Hrel. destruct (Hprompt (proj1 Hrel)) as (_ & -> & <-). done. }
    destruct (IH s2 _ (reads_inv _ _ Hreads2) Hl) as (Hreads3 & l' & -> & Hin & Hall).
    split; [by eapply reads_trans|]. exists l'. split; [done|]. split.
    + intros e He. destruct (Hin e He) as [i Hi]. exists i. by eapply lapsed_lookup; [apply Hreads2|].
    + intros Hrel. destruct (reads_reliable _ _ Hreads2 Hrel) as [Hrel2 Htok]. cbn.
      destruct (Hprompt (proj1 Hrel)) as (_ & _ & <-). by rewrite (Hall Hrel2), Htok.
Qed.

Lemma List_redis s l s' :
  inv s → List network s = (l, s') →
  reads s s' ∧ Sorted newer l ∧ (∀ e, e ∈ l → ∃ id, tokens_of (view s) !! id = Some e) ∧
  (reliable s → l ≡ₚ (map_to_list (tokens_of (view s))).*2).
Proof.
  intros Hinv. unfold List. destruct (send network s [SMEMBERS tokenIndexKey]) as [[err replies] s1] eqn:Hsend.
  apply look_spec in Hsend as (Hreads & _ & Hprompt & Hreply); [|done| |done].
  2: { intros now ks. cbn. by destruct (set_members ks tokenIndexKey). }
  assert (Hind : err = None ∨ prompt network s → ∃ ids, replies = [Members ids] ∧ ids ≡ₚ elements (index (view s1))).
  { intros Hor. destruct (Hreply Hor) as (a & -> & Ha). cbn in Ha.
    rewrite (set_members_index (view s1) (wf_index _ (proj2 (reads_inv _ _ Hreads)))) in Ha. cbn in Ha.
    destruct a; try done. eauto. }
  assert (Hans : (err = None ∧ ∃ ids, replies = [Members ids] ∧ ids ≡ₚ elements (index (view s1))) ∨
    err ≠ None ∧ ¬ reliable s).
  { destruct err as [err|]; [right|left; auto]. split; [done|]. intros [Hp _].
    destruct (Hind (or_intror Hp)) as (ids & -> & _). by destruct (Hprompt Hp) as (_ & ? & _). }
  destruct Hans as [(-> & ids & -> & Hids)|[Herr Hno]].
  - destruct (list_entries network s1 ids []) as [entries s2] eqn:Hl.
    destruct (list_entries_spec _ _ _ _ _ (reads_inv _ _ Hreads) Hl) as (Hreads2 & l' & -> & Hin & Hall).
    intros [= <- <-]. split; [by eapply reads_trans|]. split; [apply sort_newest_sorted|]. split.
    + intros e. rewrite sort_newest_perm. intros He. destruct (Hin e He) as [id Hid]. exists id.
      by eapply lapsed_lookup; [apply Hreads|].
    + intros Hrel. destruct (reads_reliable _ _ Hreads Hrel) as [Hrel1 Htok]. rewrite sort_newest_perm. cbn.
      rewrite (Hall Hrel1), Htok. apply omap_lookup_perm.
      * rewrite Hids. apply NoDup_elements.
      * intros id [e He]. rewrite Hids, elem_of_elements. rewrite <- Htok in He.
        apply tokens_Some in He as (k & Hk & Hd). by apply (proj2 Hrel1 id k e).
  - destruct err as [err|]; [|done]. intros [= <- <-]. split; [done|]. split; [constructor|].
    split; [set_solver|done].
Qed.

(** *** Save *)

(** The store can keep the entry: its ID and hash are those CreateToken makes, it lives
    at most the 292 years of a time.Duration, and neither index knows it. *)
Record fresh s (e : TokenEntry) : Prop := {
  fresh_uuid : uuid_text (ID e) = true;
  fresh_hex : hex_text (TokenHash e) = true;
  fresh_times : json_time (CreatedAt e) = true ∧ json_time (ExpiresAt e) = true ∧ json_time (RevokedAt e) = true;
  fresh_lifetime : (ExpiresAt e - clock s ≤ maxDuration)%Z;
  fresh_entry : fresh_token (tokens_of (view s)) e;
  fresh_reference h k : view s !! hashKey h = Some k → rk_value k ≠ RString (ID e);
}.

(** The keyspaces between [L] and the end of the commands of Save. *)
Record save_reached (e : TokenEntry) (new ref : rkey) L ks : Prop := {
  sv_other k : k ≠ key (ID e) → k ≠ hashKey (TokenHash e) → k ≠ tokenIndexKey → ks !! k = L !! k;
  sv_token : ks !! key (ID e) = L !! key (ID e) ∨ ks !! key (ID e) = Some new;
  sv_hash : ks !! hashKey (TokenHash e) = L !! hashKey (TokenHash e) ∨ ks !! hashKey (TokenHash e) = Some ref;
  sv_index_ok : index_ok ks;
  sv_index : index ks = index L ∨ index ks = {[ID e]} ∪ index L;
}.

Lemma insert_index_ok ks k v : k ≠ tokenIndexKey → index_ok ks → index_ok (<[k := v]> ks) ∧ index (<[k := v]> ks) = index ks.
Proof.
  intros Hne Hok. unfold index_ok, index, set_members. rewrite lookup_insert_ne by done. done.
Qed.

Lemma save_step e data px now L ks c :
  let new := {| rk_value := RString data; rk_deadline := Z.add now <$> px |} in
  let ref := {| rk_value := RString (ID e); rk_deadline := Z.add now <$> px |} in
  uuid_text (ID e) = true →
  c ∈ [SET (key (ID e)) data px; SET (hashKey (TokenHash e)) (ID e) px; SADD tokenIndexKey (ID e)] →
  save_reached e new ref L ks → save_reached e new ref L (exec_command now ks c).2.
Proof.
  intros new ref Hu Hc [Ho Ht Hh Hok Hi].
  pose proof (key_hashKey _ (TokenHash e) Hu) as Hkh. pose proof (key_not_index _ Hu) as Hki.
  pose proof (hashKey_index (TokenHash e)) as Hhi.
  rewrite !elem_of_cons, elem_of_nil in Hc. destruct Hc as [->|[->|[->|[]]]].
  - destruct (insert_index_ok ks (key (ID e)) new Hki Hok) as [Hok' Hi']. cbn [exec_command snd].
    split; [intros k ???; rewrite lookup_insert_ne; auto| | |done|by unfold new in Hi'; rewrite Hi'].
    + right. by rewrite lookup_insert_eq.
    + rewrite lookup_insert_ne by done. done.
  - destruct (insert_index_ok ks (hashKey (TokenHash e)) ref Hhi Hok) as [Hok' Hi']. cbn [exec_command snd].
    split; [intros k ???; rewrite lookup_insert_ne; auto| | |done|by unfold ref in Hi'; rewrite Hi'].
    + rewrite lookup_insert_ne by done. done.
    + right. by rewrite lookup_insert_eq.
  - destruct (sadd_spec now ks (ID e) Hok) as (Hk & Hok' & Hi' & _).
    split; [intros k ???; rewrite Hk by done; auto| | |done|].
    + by rewrite Hk.
    + by rewrite Hk.
    + rewrite Hi'. right. destruct Hi as [->| ->]; set_solver.
Qed.

Lemma decode_not_uuid ks id k : wf ks → uuid_text id = false → ks !! key id = Some k → decode k = None.
Proof.
  intros Hwf Hu Hk. destruct (decode k) eqn:Hd; [|done].
  destruct (wf_entry _ Hwf _ _ _ Hk Hd). congruence.
Qed.

Lemma decode_uuid_text k id : rk_value k = RString id → uuid_text id = true → decode k = None.
Proof. intros Hv [err He]%redis_Unmarshal_object. unfold decode. by rewrite Hv, He. Qed.

Lemma index_undecoded ks k : index_ok ks → ks !! tokenIndexKey = Some k → decode k = None.
Proof. intros Hok Hk. destruct (Hok k Hk) as [_ [m Hm]]. unfold decode. by rewrite Hm. Qed.

Lemma save_tokens e e' new ref L ks :
  wf L → uuid_text (ID e) = true → decode new = Some e' → rk_value ref = RString (ID e) →
  save_reached e new ref L ks →
  (ks !! key (ID e) = L !! key (ID e) → tokens_of ks = tokens_of L) ∧
  (ks !! key (ID e) = Some new → tokens_of ks = <[ID e := e']> (tokens_of L)).
Proof.
  intros Hwf Hu Hnew Href [Ho Ht Hh Hok Hi].
  assert (Hothers : ∀ i, i ≠ ID e → tokens_of ks !! i = tokens_of L !! i).
  { intros i Hne. rewrite !tokens_at. destruct (decide (key i = tokenIndexKey)) as [Heq|Hni].
    - rewrite Heq. destruct (ks !! tokenIndexKey) as [k|] eqn:Hk, (L !! tokenIndexKey) as [k'|] eqn:Hk'; cbn;
        rewrite ?(index_undecoded ks k), ?(index_undecoded L k'); by try apply (wf_index L Hwf).
    - destruct (decide (key i = hashKey (TokenHash e))) as [Heq|Hnh].
      + rewrite Heq. destruct Hh as [->| ->]; [done|]. cbn. rewrite (decode_uuid_text ref (ID e)) by done.
        destruct (L !! hashKey (TokenHash e)) as [k|] eqn:Hk; [|done]. cbn. symmetry.
        rewrite <- Heq in Hk. eapply decode_not_uuid; [done| |done].
        rewrite hashKey_key, key_inj in Heq. by rewrite Heq.
      + rewrite Ho; [done|by rewrite key_inj|done..]. }
  split; intros Heq; apply map_eq; intros i; (destruct (decide (i = ID e)) as [->|Hne]; [|rewrite ?lookup_insert_ne by done; auto]).
  - by rewrite !tokens_at, Heq.
  - by rewrite tokens_at, Heq, lookup_insert_eq.
Qed.

Lemma save_wf e e' new ref L ks :
  wf L → decode new = Some e' → good_entry (ID e) new e' → TokenHash e' = TokenHash e →
  rk_value ref = RString (ID e) → fresh_token (tokens_of L) e →
  (∀ h k, L !! hashKey h = Some k → rk_value k ≠ RString (ID e)) →
  save_reached e new ref L ks → wf ks.
Proof.
  intros Hwf Hnew Hgood Hhash Href [Hid Hfresh] Hnoref Hsv.
  pose proof (good_uuid _ _ _ Hgood) as Hu.
  destruct (save_tokens e e' new ref L ks Hwf Hu Hnew Href Hsv) as [Hold Hins].
  assert (Htok : tokens_of ks = tokens_of L ∨ tokens_of ks = <[ID e := e']> (tokens_of L)).
  { destruct (sv_token _ _ _ _ _ Hsv); auto. }
  assert (Hlook : ∀ i x, tokens_of ks !! i = Some x → (i = ID e ∧ x = e') ∨ i ≠ ID e ∧ tokens_of L !! i = Some x).
  { intros i x. destruct Htok as [->| ->]; [|rewrite lookup_insert_Some; naive_solver].
    intros Hx. right. split; [congruence|done]. }
  destruct Hsv as [Ho Ht Hh Hok Hi]. split; [..|done].
  - intros i k x Hk Hd. assert (Hx : tokens_of ks !! i = Some x) by (apply tokens_Some; eauto).
    destruct (Hlook i x Hx) as [[-> ->]|[Hne HxL]].
    + destruct Ht as [Ht|Ht]; rewrite Ht in Hk; [|by injection Hk as <-].
      exfalso. rewrite tokens_at, Hk in Hid. cbn in Hid. congruence.
    + apply (wf_entry L Hwf); [|done]. destruct (tokens_uuid L i x Hwf HxL) as [Hui _].
      rewrite <- Ho; [done|by rewrite key_inj|by apply key_hashKey|by apply key_not_index].
  - intros i j x y [[-> ->]|[? Hx]]%Hlook [[-> ->]|[? Hy]]%Hlook Heq; [done| | |by eapply (wf_unique L Hwf)].
    + destruct (Hfresh j y Hy). congruence.
    + destruct (Hfresh i x Hx). congruence.
  - intros h k i x Hk Hv Hx. destruct (decide (h = TokenHash e)) as [->|Hne].
    + destruct Hh as [Hh|Hh]; rewrite Hh in Hk.
      * destruct (Hlook i x Hx) as [[-> ->]|[_ HxL]]; [by destruct (Hnoref _ _ Hk)|by eapply (wf_hash L Hwf)].
      * injection Hk as <-. assert (i = ID e) as -> by congruence.
        destruct (Hlook _ x Hx) as [[_ ->]|[? _]]; [done..].
    + assert (HkL : L !! hashKey h = Some k).
      { rewrite <- Ho; [done|by apply not_eq_sym, key_hashKey|by rewrite hashKey_inj|apply hashKey_index]. }
      destruct (Hlook i x Hx) as [[-> ->]|[_ HxL]]; [by destruct (Hnoref _ _ HkL)|by eapply (wf_hash L Hwf)].
Qed.

Lemma ttl_positive ttl : (0 < ttl)%Z → (0 < format_ttl ttl)%Z.
Proof.
  unfold format_ttl, Millisecond. intros ?. destruct (Z.ltb_spec ttl 1000000); [lia|].
  assert (1 ≤ ttl / 1000000)%Z by (apply Z.div_le_lower_bound; lia). lia.
Qed.

(** The key of a token is evicted at most two milliseconds before the token expires. *)
Lemma ttl_deadline now now' x :
  (now ≤ now')%Z → (x - now ≤ maxDuration)%Z → (0 < Until now x)%Z →
  (x < (now' / Millisecond + format_ttl (Until now x) + 2) * Millisecond)%Z.
Proof.
  intros Hle Hmax Hpos.
  assert (Hu : Until now x = (x - now)%Z) by (unfold Until, maxDuration in *; lia).
  rewrite Hu in *. unfold format_ttl, Millisecond.
  pose proof (Z.div_mod now' 1000000). pose proof (Z.mod_pos_bound now' 1000000).
  pose proof (Z.div_mod (x - now) 1000000). pose proof (Z.mod_pos_bound (x - now) 1000000).
  destruct (Z.ltb_spec (x - now) 1000000); lia.
Qed.

Lemma save_run e data px now ks :
  uuid_text (ID e) = true → index_ok ks →
  let run := run_effects now (map command_effect
    [SET (key (ID e)) data px; SET (hashKey (TokenHash e)) (ID e) px; SADD tokenIndexKey (ID e)]) ks in
  run.2 !! key (ID e) = Some {| rk_value := RString data; rk_deadline := Z.add now <$> px |} ∧
  run.2 !! hashKey (TokenHash e) = Some {| rk_value := RString (ID e); rk_deadline := Z.add now <$> px |} ∧
  index run.2 = {[ID e]} ∪ index ks ∧ reply_error run.1 = None.
Proof.
  intros Hu Hok. cbv zeta.
  set (new := {| rk_value := RString data; rk_deadline := Z.add now <$> px |}).
  set (ref := {| rk_value := RString (ID e); rk_deadline := Z.add now <$> px |}).
  set (ks2 := <[hashKey (TokenHash e) := ref]> (<[key (ID e) := new]> ks)).
  assert (Hrun : ∀ c, run_effects now (map command_effect
      [SET (key (ID e)) data px; SET (hashKey (TokenHash e)) (ID e) px; c]) ks
    = ([Status; Status; (exec_command now ks2 c).1], (exec_command now ks2 c).2)).
  { intros c. unfold run_effects, command_effect. cbn [map foldl exec_command app].
    fold new ref ks2. by destruct (exec_command now ks2 c). }
  rewrite Hrun. cbn [fst snd].
  pose proof (key_not_index _ Hu) as Hki. pose proof (hashKey_index (TokenHash e)) as Hhi.
  pose proof (key_hashKey _ (TokenHash e) Hu) as Hkh.
  destruct (insert_index_ok ks (key (ID e)) new Hki Hok) as [Hok1 Hi1].
  destruct (insert_index_ok _ (hashKey (TokenHash e)) ref Hhi Hok1) as [Hok2 Hi2].
  destruct (sadd_spec now ks2 (ID e) Hok2) as (Hk & _ & Hi3 & n & Hn).
  rewrite Hn, !Hk, Hi3 by done. unfold ks2. rewrite Hi2, Hi1.
  by rewrite lookup_insert_eq, lookup_insert_ne, lookup_insert_eq by done.
Qed.

Lemma run_error_agrees l l' : Forall2 same_reply l l' → reply_error l = reply_error l'.
Proof. induction 1 as [|a b l l' Hab _ IH]; [done|]. destruct a, b; cbn in Hab |- *; simplify_eq; done. Qed.

Lemma save_complete e e' new ref L ks :
  wf L → complete L → uuid_text (ID e) = true → fresh_token (tokens_of L) e →
  decode new = Some e' → TokenHash e' = TokenHash e →
  rk_value ref = RString (ID e) → rk_deadline ref = rk_deadline new →
  ks !! key (ID e) = Some new → ks !! hashKey (TokenHash e) = Some ref → index ks = {[ID e]} ∪ index L →
  save_reached e new ref L ks → complete ks.
Proof.
  intros Hwf Hc Hu [_ Hfresh] Hnew Hh' Hrv Hrd Hkt Hkh Hidx Hsv i k x Hk Hd. rewrite Hidx.
  destruct (decide (i = ID e)) as [->|Hne].
  - rewrite Hkt in Hk. injection Hk as <-. assert (x = e') as -> by congruence.
    split; [set_solver|]. intros _. exists ref. rewrite Hh'. done.
  - destruct (save_tokens e e' new ref L ks Hwf Hu Hnew Hrv Hsv) as [_ Hins].
    assert (Hx : tokens_of L !! i = Some x).
    { assert (He : tokens_of ks !! i = Some x) by (apply tokens_Some; eauto).
      rewrite (Hins Hkt), lookup_insert_ne in He by done. done. }
    destruct (tokens_uuid L i x Hwf Hx) as [Hui _].
    assert (HkL : L !! key i = Some k).
    { rewrite <- (sv_other _ _ _ _ _ Hsv); [done|by rewrite key_inj|by apply key_hashKey|by apply key_not_index]. }
    destruct (Hc i k x HkL Hd) as [Hin Href]. split; [set_solver|]. intros Hr.
    destruct (Href Hr) as (kh & Hlh & Hv). exists kh.
    rewrite (sv_other _ _ _ _ _ Hsv); [done| |rewrite hashKey_inj; by eapply Hfresh|apply hashKey_index].
    by apply not_eq_sym, key_hashKey.
Qed.

(** What a write does to the entries: [change] on those that have not lapsed, or nothing. *)
Definition writes s s' (done : Prop) (change : gmap string TokenEntry → gmap string TokenEntry → Prop) : Prop :=
  inv s' ∧ (reliable s → reliable s') ∧
  ∃ m, lapsed (tokens_of (view s)) m ∧ (reliable s → m = tokens_of (view s)) ∧
    (change m (tokens_of (view s')) ∨ ¬ done ∧ tokens_of (view s') = m).

Lemma writes_nothing s (done : Prop) change : inv s → ¬ done → writes s s done change.
Proof. intros Hinv Hno. split; [done|]. split; [done|]. exists (tokens_of (view s)). split; [apply lapsed_refl|]. auto. Qed.

Lemma stored_entry e r :
  hex_text (TokenHash e) = true → uuid_text (ID e) = true →
  (∃ name, r = {| re_ID := ID e; re_Name := name; re_TokenHash := TokenHash e; re_CreatedAt := CreatedAt e;
     re_ExpiresAt := ExpiresAt e; re_RevokedAt := RevokedAt e |} ∧ (ValidString (Name e) = true → name = Name e)) →
  stored_as e (fromRedisEntry r).
Proof. intros Hhex Hu (name & -> & Hname). split; cbn; try done. unfold Microsecond. lia. Qed.

Lemma marshal_entry e data :
  redis_Marshal (toRedisEntry e) = inr data → uuid_text (ID e) = true → hex_text (TokenHash e) = true →
  ∃ e', (∀ k, rk_value k = RString data → decode k = Some e') ∧ stored_as e e' ∧
    CreatedAt e' = CreatedAt e ∧ ExpiresAt e' = ExpiresAt e ∧ RevokedAt e' = RevokedAt e.
Proof.
  intros Hm Hu Hhex. destruct (redis_roundtrip _ _ Hm) as (name & Hun & Hname).
  { cbn. by apply uuid_valid. } { cbn. by apply hex_valid. }
  eexists. split; [intros k Hv; unfold decode; by rewrite Hv, Hun|]. split; [|done].
  apply stored_entry; [done..|]. exists name. done.
Qed.

Lemma Save_redis s e err s' :
  inv s → fresh s e → Save network s e = (err, s') →
  writes s s' (err = None) (λ m m', ∃ e', stored_as e e' ∧ m' = <[ID e := e']> m).
Proof.
  intros Hinv Hfresh. pose proof Hinv as [Htime Hwf]. unfold Save.
  destruct (redis_Marshal (toRedisEntry e)) as [msg|data] eqn:Hm.
  { intros [= <- <-]. by apply writes_nothing. }
  cbv zeta. set (ttl := if IsZero (ExpiresAt e) then 0%Z else Until (clock s) (ExpiresAt e)).
  destruct (negb (IsZero (ExpiresAt e)) && (ttl <=? 0)%Z) eqn:Hexp.
  { intros [= <- <-]. by apply writes_nothing. }
  set (px := if (0 <? ttl)%Z then Some (format_ttl ttl) else None).
  destruct Hfresh as [Hu Hhex Htimes Hlife [Hid Hnohash] Hnoref].
  destruct (send network s _) as [[err1 replies] s1] eqn:Hsend. intros Hret.
  assert (s' = s1 ∧ (err = None ↔ err1 = None)) as [-> Herr] by (destruct err1; simplify_eq; done). clear Hret.
  apply send_spec in Hsend; [|done|].
  2: { repeat constructor; cbn; unfold px; destruct (Z.ltb_spec 0 ttl); try done;
       by apply Z.lt_le_incl, ttl_positive. }
  cbv zeta in Hsend. set (now := server_now (server s1)) in *. set (L := live now (view s)) in *.
  set (new := {| rk_value := RString data; rk_deadline := Z.add now <$> px |}).
  set (ref := {| rk_value := RString (ID e); rk_deadline := Z.add now <$> px |}).
  destruct Hsend as (Htime1 & Hclock & Hprompt & Hkeep).
  destruct (marshal_entry e data Hm Hu Hhex) as (e' & Hdec & Hst & HC & HX & HR).
  assert (HL : shrinks (view s) L) by by apply live_shrinks.
  assert (HwfL : wf L) by by eapply shrinks_wf.
  assert (HfL : fresh_token (tokens_of L) e).
  { pose proof (shrinks_tokens _ _ HL) as Hsub. split; [by eapply lookup_weaken_None|].
    intros i x Hx. eapply Hnohash, lookup_weaken; done. }
  assert (HrefL : ∀ h k, L !! hashKey h = Some k → rk_value k ≠ RString (ID e)).
  { intros h k [Hk _]%live_lookup. by eapply Hnoref. }
  assert (Hgood : good_entry (ID e) new e').
  { split; [done|by rewrite (stored_ID _ _ Hst)|by rewrite (stored_TokenHash _ _ Hst)|by rewrite HC, HX, HR|].
    intros d. unfold new, px. cbn [rk_deadline]. destruct (Z.ltb_spec 0 ttl) as [Hpos|]; [|done].
    intros [= <-]. rewrite HX. unfold ttl, IsZero in *. destruct (Z.eqb_spec (ExpiresAt e) 0); [lia|].
    split; [done|]. unfold now. rewrite (proj1 Htime1). by apply ttl_deadline. }
  destruct (Hkeep (save_reached e new ref L)) as [Hsv Hdone].
  { split; auto. apply HL. }
  { intros c ks Hc. by apply save_step. }
  destruct (save_tokens e e' new ref L (view s1) HwfL Hu) as [Hold Hins]; [by apply Hdec|done..|].
  assert (Hfull : (∃ ks, save_reached e new ref L ks ∧ view s1 = (run_effects now (map command_effect
       [SET (key (ID e)) data px; SET (hashKey (TokenHash e)) (ID e) px; SADD tokenIndexKey (ID e)]) ks).2) →
     view s1 !! key (ID e) = Some new).
  { intros (ks & Hks & ->). by apply save_run, (sv_index_ok _ _ _ _ _ Hks). }
  split; [split; [done|]|split].
  - eapply (save_wf e e' new ref L); try done; [by apply Hdec|by rewrite (stored_TokenHash _ _ Hst)].
  - intros [Hp Hc]. destruct (Hprompt Hp) as (Hp1 & Hlive & _ & _ & Hrun). split; [done|].
    destruct (save_run e data px now (view s) Hu (wf_index _ Hwf)) as (Ht & Hh & Hi & _). rewrite <- Hrun in Ht, Hh, Hi.
    assert (HLs : L = view s) by exact Hlive.
    eapply (save_complete e e' new ref L); try done; rewrite ?HLs; try done; [by apply Hdec|by rewrite (stored_TokenHash _ _ Hst)].
  - exists (tokens_of L). split; [by apply live_lapsed|]. split.
    { intros [Hp _]. destruct (Hprompt Hp) as (_ & Hlive & _). by f_equal. }
    destruct (sv_token _ _ _ _ _ Hsv) as [Heq|Heq]; [|left; eauto].
    destruct err1 as [msg|]; [right; split; [naive_solver|auto]|left].
    exists e'. split; [done|]. apply Hins, Hfull. destruct (Hdone eq_refl) as (ks & ? & _ & _ & ?). eauto.
Qed.

(** *** Revoke *)

Definition script_effect (k payload : string) : effect := λ now ks,
  match exec_command now ks (PTTL k) with
  | (Int pttl, ks) =>
      if (pttl =? -2)%Z then (Int 0, ks)
      else
        match exec_command now ks (SET k payload (if (0 <? pttl)%Z then Some pttl else None)) with
        | (ReplyErr err, ks) => (ReplyErr err, ks)
        | (_, ks) => (Int 1, ks)
        end
  | (r, ks) => (r, ks)
  end.

Lemma script_implements k payload : implements (revokeScript (D := D) k payload) (script_effect k payload).
Proof.
  assert (Hall : ∀ d, same_reply (revokeScript k payload d).1 (script_effect k payload (server_now d) (keyspace d)).1 ∧
    keyspace (revokeScript k payload d).2 = (script_effect k payload (server_now d) (keyspace d)).2 ∧
    server_now (revokeScript k payload d).2 = server_now d); [|by split; intros d; destruct (Hall d) as (? & ? & ?)].
  intros d. unfold revokeScript, script_effect. destruct (redis_call_spec d (PTTL k)) as (Hr & Hks & Hnow).
  assert (Hp : ∃ n, exec_command (server_now d) (keyspace d) (PTTL k) = (Int n, keyspace d)).
  { cbn. destruct (keyspace d !! k); eauto. }
  destruct Hp as [n Hp]. rewrite Hp in *. destruct (redis_call d (PTTL k)) as [a d1]. cbn [fst snd] in *.
  destruct a; cbn in Hr; simplify_eq. destruct (n =? -2)%Z; [done|].
  match goal with |- context [redis_call d1 ?c] => destruct (redis_call_spec d1 c) as (Hr2 & Hks2 & Hnow2);
    destruct (redis_call d1 c) as [a2 d2] end.
  cbn [exec_command fst snd] in *. rewrite Hnow, Hks in *. by destruct a2.
Qed.

(** The script keeps the deadline, except in the last millisecond, when it drops it. *)
Lemma script_spec k payload now ks :
  none_due now ks →
  script_effect k payload now ks =
  match ks !! k with
  | None => (Int 0, ks)
  | Some e => (Int 1, <[k := {| rk_value := RString payload;
        rk_deadline := match rk_deadline e with
                       | Some d => if (now <? d)%Z then Some d else None
                       | None => None
                       end |}]> ks)
  end.
Proof.
  intros Hdue. unfold script_effect. cbn [exec_command]. destruct (ks !! k) as [e|] eqn:He; [|done].
  pose proof (Hdue k e He) as Hd. unfold due in Hd. destruct (rk_deadline e) as [d|]; [|done].
  apply Z.ltb_ge in Hd. rewrite Z.max_r by lia. destruct (Z.eqb_spec (d - now) (-2)); [lia|].
  destruct (Z.ltb_spec now d), (Z.ltb_spec 0 (d - now)); try lia; [|done].
  cbn. do 5 f_equal. lia.
Qed.

Lemma script_timely k payload : timely (script_effect k payload).
Proof.
  intros now ks Hdue. rewrite script_spec by done. destruct (ks !! k) as [e|] eqn:He; [|done]. cbn [snd].
  intros k' x [[<- <-]|[_ Hx]]%lookup_insert_Some; [|by eapply Hdue].
  unfold due. cbn. destruct (rk_deadline e) as [d|]; [|done]. destruct (Z.ltb_spec now d); lia.
Qed.

(** The script keeps the deadline of a key, unless it runs in its last millisecond: PTTL
    is then 0 and the key loses its deadline. *)
Definition kept_deadline (now : Z) (dl dl' : option Z) : Prop := dl' = dl ∨ dl' = None ∧ dl = Some now.

Lemma script_deadline now (x : rkey) dl :
  due now {| rk_value := rk_value x; rk_deadline := dl |} = false →
  kept_deadline now (rk_deadline x) dl →
  kept_deadline now (rk_deadline x) match dl with Some d => if (now <? d)%Z then Some d else None | None => None end.
Proof.
  unfold due, kept_deadline. cbn. destruct dl as [d|]; [|done]. intros Hd%Z.ltb_ge [Hx|[? _]]; [|done].
  destruct (Z.ltb_spec now d); [by left|]. right. split; [done|]. rewrite <- Hx. f_equal. lia.
Qed.

(** The keyspaces before and after the script. *)
Definition revoke_reached (k payload : string) (now : Z) L ks : Prop :=
  none_due now ks ∧
  (ks = L ∨ ∃ x dl, L !! k = Some x ∧ kept_deadline now (rk_deadline x) dl ∧
     ks = <[k := {| rk_value := RString payload; rk_deadline := dl |}]> L).

Lemma revoke_step k payload now L ks :
  revoke_reached k payload now L ks → revoke_reached k payload now L (script_effect k payload now ks).2.
Proof.
  intros [Hdue Hks]. split; [by apply script_timely|]. rewrite script_spec by done.
  destruct Hks as [->|(x & dl & Hx & Hdl & ->)].
  - destruct (L !! k) as [x|] eqn:Hx; [|by left]. right. eexists x, _. split; [done|]. split; [|done].
    apply script_deadline; [by apply (Hdue k x)|by left].
  - rewrite lookup_insert_eq. cbn [snd rk_deadline]. right. eexists x, _. split; [done|].
    rewrite insert_insert_eq. split; [|done]. apply script_deadline; [|done].
    specialize (Hdue k). rewrite lookup_insert_eq in Hdue. by specialize (Hdue _ eq_refl).
Qed.

Lemma revoked_tokens_of k id payload e' L ks dl :
  uuid_text id = true → k = {| rk_value := RString payload; rk_deadline := dl |} → decode k = Some e' →
  ks = <[key id := k]> L → tokens_of ks = <[id := e']> (tokens_of L).
Proof.
  intros Hu -> Hd ->. apply map_eq. intros i. rewrite tokens_at. destruct (decide (i = id)) as [->|Hne].
  - rewrite !lookup_insert_eq. done.
  - rewrite !lookup_insert_ne, tokens_at by by rewrite ?key_inj. done.
Qed.

(** An entry replaced by one with the same ID and hash. *)
Lemma replace_wf id x e k e' L :
  wf L → L !! key id = Some x → decode x = Some e → decode k = Some e' →
  good_entry id k e' → TokenHash e' = TokenHash e → wf (<[key id := k]> L).
Proof.
  intros Hwf Hx He Hk Hgood Hh. pose proof (good_uuid _ _ _ Hgood) as Hu.
  assert (Hlook : ∀ i y, tokens_of (<[key id := k]> L) !! i = Some y →
    ∃ y', tokens_of L !! i = Some y' ∧ TokenHash y' = TokenHash y).
  { intros i y. rewrite tokens_at. destruct (decide (i = id)) as [->|Hne].
    - rewrite lookup_insert_eq. cbn. rewrite Hk. intros [= <-]. exists e. rewrite tokens_at, Hx. done.
    - rewrite lookup_insert_ne by by rewrite key_inj. rewrite <- tokens_at. eauto. }
  split.
  - intros i y z. destruct (decide (i = id)) as [->|Hne].
    + rewrite lookup_insert_eq. intros [= <-] Hd. assert (z = e') as -> by congruence. done.
    + rewrite lookup_insert_ne by by rewrite key_inj. apply (wf_entry L Hwf).
  - intros i j y z Hy Hz Heq. destruct (Hlook i y Hy) as (y' & Hy' & ?), (Hlook j z Hz) as (z' & Hz' & ?).
    apply (wf_unique L Hwf i j y' z'); [done..|congruence].
  - intros h kh i y. rewrite lookup_insert_ne by by apply key_hashKey. intros Hkh Hv Hy.
    destruct (Hlook i y Hy) as (y' & Hy' & <-). by eapply (wf_hash L Hwf).
  - apply insert_index_ok; [by apply key_not_index|apply Hwf].
Qed.

Lemma replace_complete id x e k e' L :
  complete L → L !! key id = Some x → decode x = Some e → decode k = Some e' →
  uuid_text id = true → RevokedAt e' ≠ 0%Z → complete (<[key id := k]> L).
Proof.
  intros Hc Hx He Hk Hu Hr i y z. assert (Hidx : index (<[key id := k]> L) = index L).
  { unfold index, set_members. by rewrite lookup_insert_ne by by apply key_not_index. }
  rewrite Hidx. destruct (decide (i = id)) as [->|Hne].
  - rewrite lookup_insert_eq. intros [= <-] Hd. assert (z = e') as -> by congruence.
    split; [by destruct (Hc id x e Hx He)|done].
  - rewrite lookup_insert_ne by by rewrite key_inj. intros Hy Hd. destruct (Hc i y z Hy Hd) as [? Hkh].
    split; [done|]. intros Hz. rewrite lookup_insert_ne by by apply key_hashKey. auto.
Qed.

(** What a write by ID does: it changes the entry, and a store that answers says so; or it
    finds nothing. *)
Definition answers s s' (id : string) (found : bool)
    (change : gmap string TokenEntry → gmap string TokenEntry → Prop) : Prop :=
  inv s' ∧ (reliable s → reliable s') ∧
  ∃ m, lapsed (tokens_of (view s)) m ∧ (reliable s → m = tokens_of (view s)) ∧
    ((is_Some (m !! id) ∧ change m (tokens_of (view s')) ∧ (reliable s → found = true)) ∨
     found = false ∧ tokens_of (view s') = m ∧ (reliable s → m !! id = None)).

Lemma answers_missing s s' id change :
  inv s → getByID network s id = (None, s') → answers s s' id false change.
Proof.
  intros Hinv Hget. destruct (getByID_spec _ _ _ _ Hinv Hget) as (Hreads & _ & Hprompt & _).
  split; [apply Hreads|]. split; [apply Hreads|]. exists (tokens_of (view s')).
  split; [apply Hreads|]. split; [apply Hreads|]. right. split; [done|]. split; [done|].
  intros [Hp _]. destruct (Hprompt Hp) as (_ & -> & ->). done.
Qed.

(** After the lookup the entry is there; what follows answers for the whole call. *)
Lemma answers_found s s1 s2 id e found change :
  inv s → getByID network s id = (Some e, s1) → answers s1 s2 id found change → answers s s2 id found change.
Proof.
  intros Hinv Hget (Hinv2 & Hrel2 & m & Hm & Hrm & Hcase).
  destruct (getByID_spec _ _ _ _ Hinv Hget) as (Hreads & _ & _ & _).
  assert (Hrel : reliable s → reliable s1 ∧ tokens_of (view s1) = tokens_of (view s)) by apply Hreads.
  split; [done|]. split; [intros Hr; by apply Hrel2, Hrel|].
  exists m. split; [by eapply lapsed_trans; [apply Hreads|]|].
  split; [intros Hr; destruct (Hrel Hr) as [? <-]; auto|].
  destruct Hcase as [(? & ? & Hf)|(? & ? & Hn)]; [left|right]; (split; [done|split; [done|]]); intros Hr;
    [apply Hf|apply Hn]; by apply Hrel.
Qed.

(** The keyspace after the script has replaced the value of a token. *)
Lemma revoked_keyspace L id x e data e' dl :
  wf L → L !! key id = Some x → decode x = Some e → (dl = rk_deadline x ∨ dl = None) →
  (∀ k, rk_value k = RString data → decode k = Some e') → ID e' = id → TokenHash e' = TokenHash e →
  ExpiresAt e' = ExpiresAt e → RevokedAt e' ≠ 0%Z →
  json_time (CreatedAt e') = true ∧ json_time (ExpiresAt e') = true ∧ json_time (RevokedAt e') = true →
  let ks := <[key id := {| rk_value := RString data; rk_deadline := dl |}]> L in
  wf ks ∧ tokens_of ks = <[id := e']> (tokens_of L) ∧ (complete L → complete ks).
Proof.
  intros Hwf Hx Hd Hdl Hdec Hid Hh HX Hr Htimes ks.
  pose proof (wf_entry L Hwf id x e Hx Hd) as [Hu _ Hhex _ Hdead].
  assert (Hk : decode {| rk_value := RString data; rk_deadline := dl |} = Some e') by by apply Hdec.
  split; [|split].
  - eapply replace_wf; [done..| |done]. split; [done|done|by rewrite Hh|done|].
    cbn. rewrite HX. destruct Hdl as [->| ->]; [done|by intros].
  - by eapply revoked_tokens_of.
  - intros Hc. by eapply replace_complete.
Qed.

(** What the call of the script may find: the key was there and is rewritten, or nothing
    happens, and then a reply says that the key is not there. *)
Lemma script_call s id data err result s' :
  inv s → transmit network s [revokeScript (key id) data] = (err, result, s') →
  let L := live (server_now (server s')) (view s) in
  on_time s' ∧
  (prompt network s → prompt network s' ∧ L = view s ∧
     (is_Some (view s !! key id) → err = None ∧ result = [Int 1])) ∧
  ((∃ x dl, L !! key id = Some x ∧ kept_deadline (server_now (server s')) (rk_deadline x) dl ∧
      view s' = <[key id := {| rk_value := RString data; rk_deadline := dl |}]> L) ∨
   view s' = L ∧ (err = None → result = [Int 0] ∧ L !! key id = None)).
Proof.
  intros [Htime Hwf] Hsend.
  eapply (transmit_spec network s _ [script_effect (key id) data]) in Hsend;
    [|done|by repeat constructor; apply script_implements|by repeat constructor; apply script_timely].
  cbv zeta in Hsend |- *. set (now := server_now (server s')) in *. set (L := live now (view s)) in *.
  destruct Hsend as (Htime' & _ & Hprompt & Hkeep).
  destruct (Hkeep (revoke_reached (key id) data now L)) as [[_ Hks] Hdone].
  { split; [|by left]. intros k x. apply live_not_due. }
  { intros g ks ->%list_elem_of_singleton. apply revoke_step. }
  assert (Hrun : ∀ ks, none_due now ks → run_effects now [script_effect (key id) data] ks =
    (match ks !! key id with None => [Int 0] | Some _ => [Int 1] end, (script_effect (key id) data now ks).2)).
  { intros ks Hdks. unfold run_effects. cbn [foldl]. rewrite script_spec by done. by destruct (ks !! key id). }
  assert (Hone : ∀ l n, Forall2 same_reply l [Int n] → l = [Int n]).
  { intros l n Hl. apply Forall2_cons_inv_r in Hl as (r & l' & Hr & Hl' & ->). apply Forall2_nil_inv_r in Hl' as ->.
    by destruct r; cbn in Hr; simplify_eq. }
  split; [done|]. split.
  - intros Hp. destruct (Hprompt Hp) as (? & Hlive & Herr & HF & _). split; [done|]. split; [done|].
    intros [x Hx]. rewrite Hrun, Hx in HF by (rewrite <- Hlive; intros k y; apply live_not_due).
    apply Hone in HF as ->. done.
  - destruct Hks as [HL|(x & dl & Hx & Hdl & Hnew)]; [|left; eauto].
    destruct err as [err|]; [right; split; done|]. destruct (Hdone eq_refl) as (ks & Hreach & _ & HF & Hview).
    destruct (L !! key id) as [x|] eqn:Hx.
    + destruct Hreach as [Hdks Hks]. rewrite Hrun in Hview by done. cbn [snd] in Hview.
      rewrite script_spec in Hview by done. left. destruct Hks as [->|(z & dl & Hz & Hdl & ->)].
      * rewrite Hx in Hview. cbn [snd] in Hview. eexists x, _. split; [done|].
        split; [|exact Hview]. apply script_deadline; [by apply (Hdks (key id) x)|by left].
      * pose proof (Hdks (key id)) as Hdue'. rewrite lookup_insert_eq in Hdue'. specialize (Hdue' _ eq_refl).
        rewrite lookup_insert_eq in Hview. cbn [snd rk_deadline] in Hview. rewrite insert_insert_eq in Hview.
        eexists x, _. split; [done|]. split; [|exact Hview]. assert (z = x) as -> by congruence.
        by apply script_deadline.
    + right. split; [done|]. intros _. split; [|done]. destruct Hreach as [Hdks [->|(y & dl & Hy & _)]]; [|congruence].
      rewrite Hrun, Hx in HF by done. by apply Hone.
Qed.

Lemma Revoke_redis s now id found s' :
  inv s → clock_ok now = true → Revoke network s now id = (found, s') →
  answers s s' id found
    (λ m m', ∃ x x', m !! id = Some x ∧ stored_as (revoked_at now x) x' ∧ m' = <[id := x']> m).
Proof.
  intros Hinv Hnow. unfold Revoke. destruct (getByID network s id) as [[e|] s1] eqn:Hget.
  2: { intros [= <- <-]. by apply answers_missing. }
  intros Hrest. eapply answers_found; [done..|].
  destruct (getByID_spec _ _ _ _ Hinv Hget) as (Hreads & _ & _ & Hsome). specialize (Hsome e eq_refl).
  pose proof (reads_inv _ _ Hreads) as Hinv1. apply tokens_Some in Hsome as (k & Hk & Hd).
  destruct (wf_entry _ (proj2 Hinv1) _ _ _ Hk Hd) as [Hu Hid Hhex (HtC & HtX & HtR) _].
  pose proof (clock_ok_nonzero now Hnow) as Hnz. apply andb_true_iff in Hnow as [Hjson _].
  destruct (redis_Marshal_ok (toRedisEntry (revoked_at now e))) as [data Hm]; [done..|].
  rewrite Hm in Hrest. destruct (marshal_entry _ _ Hm) as (e' & Hdec & Hst & HC & HX & HR); [by cbn; rewrite Hid|done|].
  cbn in HC, HX, HR. pose proof (stored_ID _ _ Hst) as Hid'. cbn in Hid'.
  pose proof (stored_TokenHash _ _ Hst) as Hh'. cbn in Hh'.
  destruct (transmit network s1 _) as [[err result] s2] eqn:Hsend.
  assert (found = (match err, result with None, [Int n] => negb (n =? 0)%Z | _, _ => false end) ∧ s' = s2) as [-> ->].
  { destruct err; [by simplify_eq|]. destruct result as [|[] [|]]; by simplify_eq. }
  clear Hrest. destruct (script_call _ _ _ _ _ _ Hinv1 Hsend) as (Htime2 & Hprompt & Hcase).
  set (L := live _ (view s1)) in *.
  assert (HwfL : wf L) by (eapply shrinks_wf; [apply live_shrinks|]; apply Hinv1).
  assert (Hlap : lapsed (tokens_of (view s1)) (tokens_of L)) by apply live_lapsed, Hinv1.
  assert (HrelL : reliable s1 → tokens_of L = tokens_of (view s1)) by (intros [Hp _]; by destruct (Hprompt Hp) as (_ & -> & _)).
  destruct Hcase as [(x & dl & Hx & Hdl & Hview)|[Hview Hgone]].
  - assert (Hdx : decode x = Some e) by (apply live_lookup in Hx as [Hx _]; congruence).
    assert (Hdl' : dl = rk_deadline x ∨ dl = None) by (destruct Hdl as [?|[? _]]; auto).
    destruct (revoked_keyspace L id x e data e' dl) as (Hwf' & Htok & Hcomp); try done; [congruence|by rewrite HR|by rewrite HC, HX, HR|].
    rewrite <- Hview in *. split; [done|]. split.
    { intros [Hp Hc]. destruct (Hprompt Hp) as (? & HLs & _). split; [done|]. apply Hcomp. by rewrite HLs. }
    exists (tokens_of L). split; [done|]. split; [done|]. left.
    assert (HeL : tokens_of L !! id = Some e) by (apply tokens_Some; eauto).
    split; [eauto|]. split; [eauto 6|]. intros [Hp _]. destruct (Hprompt Hp) as (_ & _ & Hres).
    destruct Hres as [-> ->]; [eauto|done].
  - rewrite <- Hview in *. split; [done|].
    assert (Hno : ¬ reliable s1).
    { intros [Hp _]. destruct (Hprompt Hp) as (_ & HLs & Hres). destruct Hres as [-> ->]; [eauto|]. by destruct (Hgone eq_refl). }
    split; [done|]. exists (tokens_of (view s2)). split; [done|]. split; [done|]. right.
    split; [|done]. destruct err; [done|]. by destruct (Hgone eq_refl) as [-> _].
Qed.

(** *** Delete *)

(** The keyspaces between [L] and the end of the commands of Delete. *)
Record delete_reached (id hash : string) L ks : Prop := {
  dl_other k : k ≠ key id → k ≠ hashKey hash → k ≠ tokenIndexKey → ks !! k = L !! k;
  dl_token : ks !! key id = L !! key id ∨ ks !! key id = None;
  dl_hash : ks !! hashKey hash = L !! hashKey hash ∨ ks !! hashKey hash = None;
  dl_index_ok : index_ok ks;
  dl_index : index L ∖ {[id]} ⊆ index ks;
}.

Lemma delete_index_ok ks k : k ≠ tokenIndexKey → index_ok ks → index_ok (delete k ks) ∧ index (delete k ks) = index ks.
Proof.
  intros Hne Hok. unfold index_ok, index, set_members. rewrite lookup_delete_ne by done. done.
Qed.

Lemma delete_step id hash now L ks c :
  uuid_text id = true → c ∈ [DEL (key id); DEL (hashKey hash); SREM tokenIndexKey id] →
  delete_reached id hash L ks → delete_reached id hash L (exec_command now ks c).2.
Proof.
  intros Hu Hc [Ho Ht Hh Hok Hi].
  pose proof (key_hashKey _ hash Hu) as Hkh. pose proof (key_not_index _ Hu) as Hki.
  pose proof (hashKey_index hash) as Hhi.
  rewrite !elem_of_cons, elem_of_nil in Hc. destruct Hc as [->|[->|[->|[]]]].
  - destruct (delete_index_ok ks (key id) Hki Hok) as [Hok' Hi']. cbn [exec_command snd].
    split; [intros k ???; rewrite lookup_delete_ne; auto| | |done|by rewrite Hi'].
    + right. by rewrite lookup_delete_eq.
    + by rewrite lookup_delete_ne.
  - destruct (delete_index_ok ks (hashKey hash) Hhi Hok) as [Hok' Hi']. cbn [exec_command snd].
    split; [intros k ???; rewrite lookup_delete_ne; auto| | |done|by rewrite Hi'].
    + by rewrite lookup_delete_ne.
    + right. by rewrite lookup_delete_eq.
  - destruct (srem_spec now ks id Hok) as (Hk & Hok' & Hi' & _).
    split; [intros k ???; rewrite Hk by done; auto| | |done|rewrite Hi'; set_solver].
    + by rewrite Hk.
    + by rewrite Hk.
Qed.

Lemma delete_reached_shrinks id hash L ks : delete_reached id hash L ks → shrinks L ks.
Proof.
  intros [Ho Ht Hh Hok _]. split; [|done]. intros k v Hne Hv.
  destruct (decide (k = key id)) as [->|]; [destruct Ht; congruence|].
  destruct (decide (k = hashKey hash)) as [->|]; [destruct Hh; congruence|]. by rewrite <- Ho.
Qed.

Lemma delete_tokens id hash L ks :
  wf L → uuid_text id = true → delete_reached id hash L ks →
  (ks !! key id = L !! key id → tokens_of ks = tokens_of L) ∧
  (ks !! key id = None → tokens_of ks = delete id (tokens_of L)).
Proof.
  intros Hwf Hu Hdl. pose proof Hdl as [Ho Ht Hh Hok _].
  assert (Hothers : ∀ i, i ≠ id → tokens_of ks !! i = tokens_of L !! i).
  { intros i Hne. destruct (tokens_of L !! i) as [x|] eqn:Hx.
    - destruct (tokens_uuid L i x Hwf Hx) as [Hui _]. rewrite <- Hx, !tokens_at, Ho; [done| | |].
      + by rewrite key_inj.
      + by apply key_hashKey.
      + by apply key_not_index.
    - destruct (tokens_of ks !! i) as [x|] eqn:Hy; [|done].
      pose proof (lookup_weaken _ _ _ _ Hy (shrinks_tokens _ _ (delete_reached_shrinks _ _ _ _ Hdl))). congruence. }
  split; intros Heq; apply map_eq; intros i; (destruct (decide (i = id)) as [->|Hne]; [|rewrite ?lookup_delete_ne by done; auto]).
  - by rewrite !tokens_at, Heq.
  - by rewrite tokens_at, Heq, lookup_delete_eq.
Qed.

Lemma delete_complete id e L ks :
  wf L → complete L → tokens_of L !! id = Some e → delete_reached id (TokenHash e) L ks →
  ks !! key id = None → complete ks.
Proof.
  intros Hwf Hc He Hdl Hgone i k x Hk Hd. destruct (decide (i = id)) as [->|Hne]; [congruence|].
  destruct (tokens_uuid L id e Hwf He) as [Hu _].
  assert (Hx : tokens_of L !! i = Some x).
  { eapply lookup_weaken; [|apply shrinks_tokens; by eapply delete_reached_shrinks]. apply tokens_Some. eauto. }
  destruct (tokens_uuid L i x Hwf Hx) as [Hui _]. pose proof Hx as (k' & Hk' & Hd')%tokens_Some.
  assert (HkL : L !! key i = Some k).
  { rewrite <- (dl_other _ _ _ _ Hdl); [done|by rewrite key_inj|by apply key_hashKey|by apply key_not_index]. }
  destruct (Hc i k x HkL Hd) as [Hin Href]. split; [apply (dl_index _ _ _ _ Hdl); set_solver|].
  intros Hr. destruct (Href Hr) as (kh & Hkh & Hv). exists kh.
  rewrite (dl_other _ _ _ _ Hdl); [done| |rewrite hashKey_inj|apply hashKey_index].
  - by apply not_eq_sym, key_hashKey.
  - intros Heq. apply Hne. by apply (wf_unique L Hwf i id x e).
Qed.

Lemma delete_run id hash now ks :
  uuid_text id = true → index_ok ks →
  let run := run_effects now (map command_effect [DEL (key id); DEL (hashKey hash); SREM tokenIndexKey id]) ks in
  run.2 !! key id = None ∧
  ∃ n m, run.1 = [Int (if ks !! key id then 1 else 0); Int n; Int m].
Proof.
  intros Hu Hok. cbv zeta.
  pose proof (key_not_index _ Hu) as Hki. pose proof (hashKey_index hash) as Hhi.
  pose proof (key_hashKey _ hash Hu) as Hkh.
  destruct (delete_index_ok ks (key id) Hki Hok) as [Hok1 _].
  destruct (delete_index_ok _ (hashKey hash) Hhi Hok1) as [Hok2 _].
  destruct (srem_spec now _ id Hok2) as (Hk & _ & _ & m & Hm).
  set (ks2 := delete (hashKey hash) (delete (key id) ks)) in *.
  assert (Hrun : ∀ c, run_effects now (map command_effect [DEL (key id); DEL (hashKey hash); c]) ks
    = ([Int (if ks !! key id then 1 else 0); Int (if delete (key id) ks !! hashKey hash then 1 else 0);
        (exec_command now ks2 c).1], (exec_command now ks2 c).2)).
  { intros c. unfold run_effects, command_effect. cbn [map foldl exec_command app].
    fold ks2. by destruct (exec_command now ks2 c). }
  rewrite Hrun, Hm. cbn [fst snd]. split; [|eauto].
  rewrite Hk by done. unfold ks2. by rewrite lookup_delete_ne, lookup_delete_eq.
Qed.

Lemma same_reply_ints l l' : Forall2 same_reply l l' → Forall (λ r, ∃ n, r = Int n) l' → l = l'.
Proof.
  induction 1 as [|a b l l' Hab Hl IH]; intros HF; [done|]. apply Forall_cons in HF as [[n ->] HF].
  rewrite IH by done. f_equal. by destruct a.
Qed.

Lemma Delete_redis s id found s' :
  inv s → Delete network s id = (found, s') → answers s s' id found (λ m m', m' = delete id m).
Proof.
  intros Hinv. unfold Delete. destruct (getByID network s id) as [[e|] s1] eqn:Hget.
  2: { intros [= <- <-]. by apply answers_missing. }
  intros Hrest. eapply answers_found; [done..|].
  destruct (getByID_spec _ _ _ _ Hinv Hget) as (Hreads & _ & _ & Hsome). specialize (Hsome e eq_refl).
  destruct (reads_inv _ _ Hreads) as [Htime1 Hwf1]. destruct (tokens_uuid _ _ _ Hwf1 Hsome) as [Hu _].
  destruct (send network s1 _) as [[err replies] s2] eqn:Hsend.
  assert (found = (match err, replies with None, Int n :: _ => (0 <? n)%Z | _, _ => false end) ∧ s' = s2) as [-> ->].
  { destruct err; [by simplify_eq|]. destruct replies as [|[] ?]; by simplify_eq. }
  clear Hrest. apply send_spec in Hsend; [|done|by repeat constructor]. cbv zeta in Hsend.
  set (now := server_now (server s2)) in *. set (L := live now (view s1)) in *.
  destruct Hsend as (Htime2 & _ & Hprompt & Hkeep).
  assert (HwfL : wf L) by (eapply shrinks_wf; [by apply live_shrinks|done]).
  destruct (Hkeep (delete_reached id (TokenHash e) L)) as [Hdl Hdone].
  { split; auto; [apply HwfL|set_solver]. } { intros c ks Hc. by apply delete_step. }
  destruct (delete_tokens id (TokenHash e) L (view s2) HwfL Hu Hdl) as [Hsame Hgone].
  assert (Hreply : ∀ ks, index_ok ks →
    Forall2 same_reply replies (run_effects now (map command_effect
      [DEL (key id); DEL (hashKey (TokenHash e)); SREM tokenIndexKey id]) ks).1 →
    ∃ n m, replies = [Int (if ks !! key id then 1 else 0); Int n; Int m]).
  { intros ks Hok HF. destruct (delete_run id (TokenHash e) now ks Hu Hok) as (_ & n & m & Hr). rewrite Hr in HF.
    apply same_reply_ints in HF as ->; [eauto|by repeat (constructor; [eauto|])]. }
  assert (Hrel : reliable s1 → reliable s2 ∧ L = view s1 ∧ view s2 !! key id = None ∧ err = None ∧
    ∃ n m, replies = [Int 1; Int n; Int m]).
  { intros [Hp Hc]. destruct (Hprompt Hp) as (Hp2 & Hlive & Herr & HF & Hview).
    destruct (delete_run id (TokenHash e) now (view s1) Hu (wf_index _ Hwf1)) as (Hnone & n & m & Hr).
    rewrite <- Hview in Hnone. apply Hreply in HF as (n' & m' & Hl); [|apply Hwf1].
    apply tokens_Some in Hsome as (k & Hk & Hd). rewrite Hk in Hl. subst replies. split_and!; eauto.
    split; [done|]. assert (HLs : L = view s1) by exact Hlive. rewrite <- HLs in *.
      eapply delete_complete; [done|exact Hc| |exact Hdl|done]. apply tokens_Some. eauto. }
  split; [split; [done|by eapply shrinks_wf; [eapply delete_reached_shrinks|]]|]. split; [intros Hr; by apply Hrel|].
  exists (tokens_of L). split; [by apply live_lapsed|]. split; [intros (_ & HLs & _)%Hrel; by f_equal|].
  assert (Hnone : err = None → view s2 !! key id = None ∧
    (L !! key id = None → ∃ n m, replies = [Int 0; Int n; Int m])).
  { intros Herr. destruct (Hdone Herr) as (ks & Hks & _ & HF & ->). split; [by apply delete_run, (dl_index_ok _ _ _ _ Hks)|].
    intros HL. apply Hreply in HF as (n & m & Hl); [|by eapply dl_index_ok].
    assert (ks !! key id = None) as Hkn by (destruct (dl_token _ _ _ _ Hks); congruence). rewrite Hkn in Hl. eauto. }
  destruct (L !! key id) as [k|] eqn:HLk.
  - assert (HeL : tokens_of L !! id = Some e).
    { apply tokens_Some. exists k. split; [done|]. apply live_lookup in HLk as [Hk _].
      apply tokens_Some in Hsome as (k' & ? & ?). congruence. }
    destruct (dl_token _ _ _ _ Hdl) as [Heq|Heq].
    + right. assert (Hfalse : err ≠ None) by (intros Herr; destruct (Hnone Herr) as [? _]; congruence).
      destruct err; [|done]. split; [done|]. split; [apply Hsame; congruence|].
      intros (_ & _ & _ & ? & _)%Hrel. done.
    + left. split; [eauto|]. split; [auto|]. by intros (_ & _ & _ & -> & n & m & ->)%Hrel.
  - right. split; [|split].
    + destruct err; [done|]. destruct (Hnone eq_refl) as [_ Hl]. by destruct (Hl eq_refl) as (n & m & ->).
    + apply Hsame. destruct (dl_token _ _ _ _ Hdl); congruence.
    + intros _. by rewrite tokens_at, HLk.
Qed.

(** *** Time *)

Lemma evict_redis s now :
  inv s → let s' := evict s now in
  inv s' ∧ (reliable s → reliable s') ∧ lapsed (tokens_of (view s)) (tokens_of (view s')) ∧
  ∀ id e, tokens_of (view s) !! id = Some e → (now + purge_slack ≤ ExpiresAt e)%Z →
    tokens_of (view s') !! id = Some e.
Proof.
  intros [Htime Hwf] s'. destruct (pass_spec s (Z.to_N (now - clock s)) Htime) as (Htime' & Hle & Hview & _).
  fold (evict s now) s' in Htime', Hle, Hview.
  split; [split; [done|rewrite Hview; by eapply shrinks_wf; [apply live_shrinks|]]|].
  split; [intros [Hp Hc]; split; [exact Hp|rewrite Hview; by apply live_complete]|].
  rewrite Hview. split; [by apply live_lapsed|]. intros id e (k & Hk & Hd)%tokens_Some Hx.
  apply tokens_Some. exists k. split; [|done]. apply live_lookup. split; [done|].
  destruct Htime as [Hnow Hdue]. unfold due. destruct (rk_deadline k) as [d|] eqn:Hdl; [|done].
  destruct (wf_entry _ Hwf _ _ _ Hk Hd) as [_ _ _ _ Hdead]. destruct (Hdead d Hdl) as [_ Hlt].
  pose proof (Hdue _ _ Hk) as Hd0. unfold due in Hd0. rewrite Hdl in Hd0. apply Z.ltb_ge in Hd0. apply Z.ltb_ge.
  rewrite (proj1 Htime'). assert (Hclock : clock s' = Z.max (clock s) now).
  { unfold s', evict, pass. cbn [clock]. lia. }
  rewrite Hclock. destruct (Z.max_spec (clock s) now) as [[_ ->]|[_ ->]]; [|lia].
  unfold purge_slack, Millisecond in *.
  pose proof (Z.div_mod now 1000000). pose proof (Z.mod_pos_bound now 1000000). lia.
Qed.

(** *** The interface *)

#[export] Instance redis_store : TokenStore (RedisTokenStore D) := {
  ts_Save := Save network;
  ts_GetByHash := GetByHash network;
  ts_List := List network;
  ts_Revoke := Revoke network;
  ts_Delete := Delete network;
  ts_Purge := evict;
}.

#[export] Instance redis_store_laws : TokenStoreLaws (RedisTokenStore D).
Proof.
  refine {| ts_tokens s := tokens_of (view s); ts_inv := inv; ts_reliable := reliable; ts_fresh := fresh |}.
  - intros s id e [_ Hwf] He. by apply (tokens_uuid _ _ _ Hwf).
  - intros s id1 id2 e1 e2 [_ Hwf]. by apply wf_unique.
  - intros s e _ Hf. apply Hf.
  - intros s e err s' Hinv Hf Hs. destruct (Save_redis _ _ _ _ Hinv Hf Hs) as (? & ? & m & ? & ? & Hcase).
    split; [done|split; [done|]]. exists m. naive_solver.
  - intros s hash r s' Hinv Hg. destruct (GetByHash_redis _ _ _ _ Hinv Hg) as ([] & ? & ?). auto.
  - intros s l s' Hinv Hl. destruct (List_redis _ _ _ Hinv Hl) as ([] & ? & ? & ?). auto 10.
  - intros s now id found s' Hinv Hnow Hr. destruct (Revoke_redis _ _ _ _ _ Hinv Hnow Hr) as (? & ? & m & ? & ? & Hcase).
    split; [done|split; [done|]]. exists m. split; [done|split; [done|]].
    destruct Hcase as [(_ & (x & x' & ? & ? & ?) & ?)|?]; [left; eauto 8|by right].
  - intros s id found s' Hinv Hd. destruct (Delete_redis _ _ _ _ Hinv Hd) as (? & ? & m & ? & ? & Hcase).
    split; [done|split; [done|]]. exists m. naive_solver.
  - intros s now Hinv. destruct (evict_redis s now Hinv) as (? & ? & ? & ?). auto.
Defined.

End operations.
