(* ===== verification/RedisTokens.v ===== *)
(** The theorems about the Redis token store, and a server in memory on which their
    witnesses compute.

    The store is used by several calls, any of which may fail, be retried or be overtaken
    by an eviction.  [becomes] is what each operation is meant to do to the map of entries. *)
From S2P Require Import Prelude GoStrings TokenStore RedisServer RedisStore RedisSpec.
From S2P Require FileStore.
From Stdlib Require Import Ascii.

Inductive redis_operation :=
  | RedisSave (e : TokenEntry)
  | RedisLookup (hash : string)
  | RedisList
  | RedisRevoke (now : time) (id : string)
  | RedisDelete (id : string)
  | RedisTime (now : time).

Section theorems.
Context {D : Type} `{RedisServerLaws D} `{RedisCodecLaws}.
Variable network : nat → delivery.
Implicit Types s : RedisTokenStore D.

Definition apply_redis s (o : redis_operation) : RedisTokenStore D :=
  match o with
  | RedisSave e => (Save network s e).2
  | RedisLookup hash => (GetByHash network s hash).2
  | RedisList => (List network s).2
  | RedisRevoke now id => (Revoke network s now id).2
  | RedisDelete id => (Delete network s id).2
  | RedisTime now => evict s now
  end.

Definition operation_ok s (o : redis_operation) : Prop :=
  match o with
  | RedisSave e => fresh s e
  | RedisRevoke now _ => clock_ok now = true
  | _ => True
  end.

(** What an operation is meant to do to the entries, at the time [now]. *)
Definition becomes (now : time) (o : redis_operation) (m m' : gmap string TokenEntry) : Prop :=
  match o with
  | RedisSave e =>
      if negb (IsZero (ExpiresAt e)) && (ExpiresAt e <=? now)%Z then m' = m
      else ∃ e', stored_as e e' ∧ m' = <[ID e := e']> m
  | RedisRevoke at_ id =>
      match m !! id with
      | None => m' = m
      | Some x => ∃ x', stored_as (revoked_at at_ x) x' ∧ m' = <[id := x']> m
      end
  | RedisDelete id => m' = delete id m
  | _ => m' = m
  end.

Definition expired (now : time) (e : TokenEntry) : bool := negb (IsZero (ExpiresAt e)) && (ExpiresAt e <=? now)%Z.

Definition lifetime (now : time) (e : TokenEntry) : Z := if IsZero (ExpiresAt e) then 0 else Until now (ExpiresAt e).

(** Save on an entry it can marshal. *)
Lemma Save_unfold s e :
  fresh s e → ∃ data, redis_Marshal (toRedisEntry e) = inr data ∧
    Save network s e =
      if expired (clock s) e then (Some "redis-token-store: token is already expired"%string, s)
      else
        let px := if (0 <? lifetime (clock s) e)%Z then Some (format_ttl (lifetime (clock s) e)) else None in
        match send network s [SET (key (ID e)) data px; SET (hashKey (TokenHash e)) (ID e) px;
                              SADD tokenIndexKey (ID e)] with
        | (Some err, _, s) => (Some ("redis-token-store: failed to save entry: " +:+ err), s)
        | (None, _, s) => (None, s)
        end.
Proof.
  intros [_ _ Htimes _ _ _]. unfold Save.
  destruct (redis_Marshal_ok (toRedisEntry e)) as [data Hm]; [apply Htimes..|].
  exists data. split; [done|]. rewrite Hm. cbv zeta. fold (lifetime (clock s) e).
  assert (Hexp : negb (IsZero (ExpiresAt e)) && (lifetime (clock s) e <=? 0)%Z = expired (clock s) e); [|by rewrite Hexp].
  unfold expired, lifetime. destruct (IsZero (ExpiresAt e)); [done|]. cbn. apply Bool.eq_iff_eq_true.
  rewrite !Z.leb_le. unfold Until, maxDuration. lia.
Qed.

Lemma positive_px (ttl : Z) k v : positive_ttl (SET k v (if (0 <? ttl)%Z then Some (format_ttl ttl) else None)).
Proof. cbn. destruct (Z.ltb_spec 0 ttl); [|done]. by apply Z.lt_le_incl, ttl_positive. Qed.

Lemma Save_prompt s e :
  inv s → fresh s e → prompt network s → expired (clock s) e = false → (Save network s e).1 = None.
Proof.
  intros [Htime Hwf] Hfresh Hp Hexp. pose proof (fresh_uuid _ _ Hfresh) as Hu.
  destruct (Save_unfold s e Hfresh) as (data & _ & ->). rewrite Hexp. cbv zeta.
  destruct (send network s _) as [[err replies] s1] eqn:Hsend.
  apply send_spec in Hsend as (_ & _ & Hprompt & _);
    [|done|constructor; [apply positive_px|constructor; [apply positive_px|by repeat constructor]]].
  destruct (Hprompt Hp) as (_ & _ & -> & HF & _). rewrite (run_error_agrees _ _ HF).
  edestruct (save_run e data) as (_ & _ & _ & ->); [done|by apply wf_index|done].
Qed.

Lemma apply_save s e :
  inv s → fresh s e →
  let s' := (Save network s e).2 in
  inv s' ∧ (reliable network s → reliable network s') ∧
  ∃ m, lapsed (tokens_of (view s)) m ∧
    (becomes (clock s) (RedisSave e) m (tokens_of (view s')) ∨ tokens_of (view s') = m) ∧
    (reliable network s → becomes (clock s) (RedisSave e) m (tokens_of (view s')) ∧ m = tokens_of (view s)).
Proof.
  intros Hinv Hok. cbn [becomes]. fold (expired (clock s) e).
  destruct (expired (clock s) e) eqn:Hexp.
  - destruct (Save_unfold s e Hok) as (data & _ & ->). rewrite Hexp. cbn [snd]. split; [done|split; [done|]].
    exists (tokens_of (view s)). split; [apply lapsed_refl|]. auto.
  - pose proof (Save_prompt s e Hinv Hok) as Hprompt. destruct (Save network s e) as [err s'] eqn:Hs.
    destruct (Save_redis _ _ _ _ _ Hinv Hok Hs) as (? & ? & m & ? & Hm & Hcase). cbn [fst snd] in *.
    split; [done|split; [done|]]. exists m. split; [done|].
    destruct Hcase as [Hc|[Hno Hc]]; [by auto|]. split; [by right|]. intros Hr. destruct Hno. exact (Hprompt (proj1 Hr) Hexp).
Qed.

Lemma apply_redis_spec s o :
  inv s → operation_ok s o →
  let s' := apply_redis s o in
  inv s' ∧ (reliable network s → reliable network s') ∧
  ∃ m, lapsed (tokens_of (view s)) m ∧
    (becomes (clock s) o m (tokens_of (view s')) ∨ tokens_of (view s') = m) ∧
    (reliable network s → becomes (clock s) o m (tokens_of (view s')) ∧
       ((∀ now, o ≠ RedisTime now) → m = tokens_of (view s))).
Proof.
  intros Hinv Hok. destruct o as [e|hash| |now id|id|now]; cbn [apply_redis operation_ok] in *; cbv zeta.
  - destruct (apply_save s e Hinv Hok) as (? & ? & m & ? & ? & Hr). split; [done|split; [done|]].
    exists m. split; [done|split; [done|]]. intros Hrel. destruct (Hr Hrel). auto.
  - destruct (GetByHash network s hash) as [r s'] eqn:Hs.
    destruct (GetByHash_redis _ _ _ _ _ Hinv Hs) as ([? _ ? Hr] & _). cbn [snd].
    split; [done|split; [intros Hx; by apply Hr|]]. exists (tokens_of (view s')). cbn.
    split; [done|split; [by left|]]. intros Hx. split; [done|]. intros _. by apply Hr.
  - destruct (List network s) as [r s'] eqn:Hs.
    destruct (List_redis _ _ _ _ Hinv Hs) as ([? _ ? Hr] & _). cbn [snd].
    split; [done|split; [intros Hx; by apply Hr|]]. exists (tokens_of (view s')). cbn.
    split; [done|split; [by left|]]. intros Hx. split; [done|]. intros _. by apply Hr.
  - destruct (Revoke network s now id) as [found s'] eqn:Hs.
    destruct (Revoke_redis _ _ _ _ _ _ Hinv Hok Hs) as (? & ? & m & ? & Hm & Hcase). cbn [snd].
    split; [done|split; [done|]]. exists m. split; [done|]. cbn [becomes].
    destruct Hcase as [(_ & (x & x' & Hx & Hst & Heq) & _)|(_ & Heq & Hnone)].
    + rewrite Hx. split; [left; eauto|]. split; [eauto|auto].
    + split; [auto|]. intros Hr. rewrite (Hnone Hr). auto.
  - destruct (Delete network s id) as [found s'] eqn:Hs.
    destruct (Delete_redis _ _ _ _ _ Hinv Hs) as (? & ? & m & ? & Hm & Hcase). cbn [snd].
    split; [done|split; [done|]]. exists m. split; [done|]. cbn [becomes].
    destruct Hcase as [(_ & Heq & _)|(_ & Heq & Hnone)]; [by auto|].
    split; [auto|]. intros Hr. rewrite delete_id by auto. auto.
  - destruct (evict_redis network s now Hinv) as (? & ? & ? & _). split; [done|split; [done|]].
    exists (tokens_of (view (evict s now))). cbn. split; [done|]. split; [auto|]. intros _. split; [done|].
    intros Hno. by destruct (Hno now).
Qed.

(** C20: the Redis store is a map of entries by ID, whatever the network and the clock do.
    Calls may fail before or after the server has run a part of their commands, they may be
    retried, and keys may expire between any two of them; still each operation has its
    effect on the entries or none, apart from entries with an expiry that lapse, and the reverse
    index never answers with the entry of another hash.  From the moment calls are
    answered, if the indexes are complete then every operation has its effect, they stay
    complete, and every entry that is not revoked is found by its hash. *)
Theorem RedisTokenStore_refines s o :
  inv s → operation_ok s o →
  let s' := apply_redis s o in
  inv s' ∧
  (∃ m, lapsed (tokens_of (view s)) m ∧
    (becomes (clock s) o m (tokens_of (view s')) ∨ tokens_of (view s') = m) ∧
    (reliable network s → becomes (clock s) o m (tokens_of (view s')) ∧
       ((∀ now, o ≠ RedisTime now) → m = tokens_of (view s)))) ∧
  (∀ hash e, (GetByHash network s' hash).1 = Some e →
     ∃ id, tokens_of (view s') !! id = Some e ∧ TokenHash e = hash) ∧
  (reliable network s → reliable network s' ∧
     ∀ id e, tokens_of (view s') !! id = Some e → RevokedAt e = 0%Z →
       (GetByHash network s' (TokenHash e)).1 = Some e).
Proof.
  intros Hinv Hok s'. destruct (apply_redis_spec s o Hinv Hok) as (Hinv' & Hrel & Hm). fold s' in Hinv', Hrel, Hm.
  split; [done|]. split; [done|]. split.
  - intros hash e He. destruct (GetByHash network s' hash) as [r s2] eqn:Hg.
    destruct (GetByHash_redis _ _ _ _ _ Hinv' Hg) as (_ & Hsome & _). auto.
  - intros Hr. split; [auto|]. intros id e He Hz. destruct (GetByHash network s' (TokenHash e)) as [r s2] eqn:Hg.
    destruct (GetByHash_redis _ _ _ _ _ Hinv' Hg) as (_ & Hsome & Hnone). cbn.
    destruct r as [e'|]; [|by destruct (Hnone (Hrel Hr) eq_refl id e He Hz)].
    destruct (Hsome e' eq_refl) as (id' & He' & Hh).
    assert (id' = id) as -> by by eapply (wf_unique _ (proj2 Hinv')). congruence.
Qed.

(** ** Expiry *)

Lemma transmit_clock s rs : prompt network s → clock (transmit network s rs).2 = clock s.
Proof.
  intros Hp. unfold transmit. rewrite (Hp (calls s) (le_n _)). cbn [dl_elapsed dl_attempts dl_error].
  destruct (run_requests rs _). cbn [snd clock pass]. lia.
Qed.

Lemma Save_keys s e s' :
  inv s → fresh s e → Save network s e = (None, s') →
  let px := if (0 <? lifetime (clock s) e)%Z then Some (format_ttl (lifetime (clock s) e)) else None in
  on_time s' ∧ (clock s ≤ clock s')%Z ∧ (prompt network s → clock s' = clock s) ∧ expired (clock s) e = false ∧
  (∃ data, view s' !! key (ID e) = Some {| rk_value := RString data; rk_deadline := Z.add (server_now (server s')) <$> px |}) ∧
  view s' !! hashKey (TokenHash e) =
    Some {| rk_value := RString (ID e); rk_deadline := Z.add (server_now (server s')) <$> px |}.
Proof.
  intros [Htime Hwf] Hfresh. pose proof (fresh_uuid _ _ Hfresh) as Hu.
  destruct (Save_unfold s e Hfresh) as (data & _ & ->). destruct (expired (clock s) e) eqn:Hexp; [done|]. cbv zeta.
  set (cmds := [_; _; _]). destruct (send network s cmds) as [[err replies] s1] eqn:Hsend.
  destruct err; [done|]. intros [= <-].
  assert (Hclock : prompt network s → clock s1 = clock s).
  { intros Hp. pose proof (transmit_clock s (map (λ c d, redis_call d c) cmds) Hp) as Hc.
    unfold send in Hsend. by rewrite Hsend in Hc. }
  apply send_spec in Hsend as (Htime1 & Hle & _ & Hkeep);
    [|done|constructor; [apply positive_px|constructor; [apply positive_px|by repeat constructor]]].
  destruct (Hkeep index_ok) as [_ Hdone].
  { by apply live_shrinks. }
  { intros c ks Hc Hok. unfold cmds in Hc. rewrite !elem_of_cons, elem_of_nil in Hc. destruct Hc as [->|[->|[->|[]]]].
    - by apply insert_index_ok; [apply key_not_index|].
    - by apply insert_index_ok; [apply hashKey_index|].
    - by apply sadd_spec. }
  destruct (Hdone eq_refl) as (ks & Hok & _ & _ & Hview).
  destruct (save_run e data (if (0 <? lifetime (clock s) e)%Z then Some (format_ttl (lifetime (clock s) e)) else None)
    (server_now (server s1)) ks Hu Hok) as (Hk & Hh & _). fold cmds in Hk, Hh. rewrite <- Hview in Hk, Hh. eauto 10.
Qed.

(** The expiry of the keys follows the expiry of the token.  When Save succeeds at once on a token
    that expires, its key and the key of its hash get the same deadline: within two
    milliseconds before the expiry of the token, and after it only if the token had
    less than a millisecond to live.  When Revoke answers true, whatever the network does,
    the key of the token has the deadline it had, unless the script ran in its last
    millisecond, when the key is left without a deadline. *)
Theorem token_ttl s e s1 now id s2 s3 :
  inv s → fresh s e → ExpiresAt e ≠ 0%Z → prompt network s → Save network s e = (None, s1) →
  inv s2 → clock_ok now = true → Revoke network s2 now id = (true, s3) →
  (∃ d, (∃ data, view s1 !! key (ID e) = Some {| rk_value := RString data; rk_deadline := Some d |}) ∧
     view s1 !! hashKey (TokenHash e) = Some {| rk_value := RString (ID e); rk_deadline := Some d |} ∧
     (ExpiresAt e - 2 * Millisecond < d * Millisecond ≤ Z.max (ExpiresAt e) (clock s + Millisecond))%Z) ∧
  (∃ k k', view s2 !! key id = Some k ∧ view s3 !! key id = Some k' ∧
     kept_deadline (server_now (server s3)) (rk_deadline k) (rk_deadline k')).
Proof.
  intros Hinv Hfresh Hx Hp Hsave Hinv2 Hnow Hrev. split.
  - destruct (Save_keys s e s1 Hinv Hfresh Hsave) as ([Hnow1 _] & _ & Hclock & Hexp & (data & Hk) & Hh).
    specialize (Hclock Hp). pose proof (fresh_lifetime _ _ Hfresh) as Hlife. unfold expired, lifetime, IsZero in *.
    destruct (Z.eqb_spec (ExpiresAt e) 0); [done|]. cbn in Hexp. apply Z.leb_gt in Hexp.
    assert (Hu : Until (clock s) (ExpiresAt e) = (ExpiresAt e - clock s)%Z) by (unfold Until, maxDuration in *; lia).
    pose proof (ttl_deadline (clock s) (clock s) (ExpiresAt e) (Z.le_refl _) Hlife) as Hlow.
    rewrite Hu in *. destruct (Z.ltb_spec 0 (ExpiresAt e - clock s)); [|lia]. cbn [fmap option_fmap option_map] in Hk, Hh.
    eexists. split; [eauto|]. split; [done|]. rewrite Hnow1, Hclock. split; [by specialize (Hlow ltac:(lia)); lia|].
    unfold format_ttl, Millisecond. pose proof (Z.mul_div_le (clock s) 1000000).
    pose proof (Z.mul_div_le (ExpiresAt e - clock s) 1000000).
    destruct (Z.ltb_spec (ExpiresAt e - clock s) 1000000); lia.
  - unfold Revoke in Hrev. destruct (getByID network s2 id) as [[x|] s4] eqn:Hget; [|done].
    destruct (getByID_spec _ _ _ _ _ Hinv2 Hget) as (Hreads & Hlive & _ & _).
    destruct (redis_Marshal _) as [err|data]; [done|].
    destruct (transmit network s4 _) as [[err result] s5] eqn:Hsend.
    destruct err; [done|]. destruct result as [|[| | |n| |] [|]]; simplify_eq.
    destruct (script_call _ _ _ _ _ _ _ (reads_inv _ _ _ Hreads) Hsend) as (_ & _ & [(k & dl & Hk & Hdl & Hview)|[_ Hno]]).
    + exists k. eexists. rewrite Hview, lookup_insert_eq. split; [|by split].
      apply live_lookup in Hk as [Hk _]. rewrite Hlive in Hk. by apply live_lookup in Hk as [Hk _].
    + destruct (Hno eq_refl) as [[= ->] _]. done.
Qed.

End theorems.

(** ** A server in memory *)

Record memory_server := { ms_keys : Keyspace; ms_now : Z }.

#[export] Instance memory_redis : RedisServer memory_server := {
  redis_call d c := let '(r, ks) := exec_command (ms_now d) (ms_keys d) c in (r, {| ms_keys := ks; ms_now := ms_now d |});
  redis_tick d t := {| ms_keys := live (Z.max (ms_now d) t) (ms_keys d); ms_now := Z.max (ms_now d) t |};
}.

#[export] Instance memory_redis_laws : RedisServerLaws memory_server.
Proof.
  refine {| keyspace := ms_keys; server_now := ms_now |}; [|by split].
  intros d c. cbn. destruct (exec_command (ms_now d) (ms_keys d) c) as [r ks]. cbn. split; [by destruct r; cbn|done].
Defined.

#[local] Existing Instance FileStore.TokenEntry_countable.

(** A brace and a textual form of the entry. *)
Definition brace_codec : RedisCodec :=
  {| redis_Marshal r := inr ("{" +:+ FileStore.positive_bits (countable.encode (fromRedisEntry r)));
     redis_Unmarshal s :=
       if HasPrefix s "{" then
         from_option (λ e, inr (toRedisEntry e)) (inl "bad JSON"%string)
           (countable.decode (A := TokenEntry) (FileStore.bits_positive (TrimPrefix s "{")))
       else inl "bad JSON"%string |}.

#[local] Existing Instance brace_codec.

Lemma brace_codec_laws : RedisCodecLaws.
Proof.
  split.
  - intros r _ _ _. eexists. done.
  - intros r data [= <-] _ _. exists (re_Name r). split; [|done].
    cbn -[HasPrefix TrimPrefix]. rewrite HasPrefix_app, TrimPrefix_app, FileStore.bits_positive_bits, countable.decode_encode.
    by destruct r.
  - intros s Hs. cbn -[HasPrefix TrimPrefix]. destruct (HasPrefix s "{") eqn:Hp; [|eauto].
    apply HasPrefix_spec in Hp as [t ->]. done.
Qed.

#[local] Existing Instance brace_codec_laws.

Definition fine : delivery := {| dl_elapsed := 0; dl_attempts := []; dl_error := None |}.

(** A network that loses one reply: the batch is executed and reported as failed. *)
Definition lost (n : nat) : nat → delivery := λ i,
  if (i =? n)%nat then {| dl_elapsed := 7; dl_attempts := [3%nat]; dl_error := Some "i/o timeout"%string |} else fine.

(** The clock shows 2026-01-01. *)
Definition demo_clock : time := 63902908800000000000.

Definition empty_redis : RedisTokenStore memory_server :=
  {| server := {| ms_keys := ∅; ms_now := demo_clock / Millisecond |}; clock := demo_clock; calls := 0%nat |}.

(** A token that lives for an hour. *)
Definition hour_token : TokenEntry :=
  {| ID := "a0-b1"; Name := "ci"; TokenHash := "c0ffee"; CreatedAt := demo_clock;
     ExpiresAt := demo_clock + Hour; RevokedAt := 0 |}.

Definition redis_with_token : RedisTokenStore memory_server := (Save (λ _, fine) empty_redis hour_token).2.

Lemma empty_redis_inv : inv empty_redis.
Proof.
  split; [by split|]. by split.
Qed.

Lemma empty_redis_fresh : fresh empty_redis hour_token.
Proof.
  by split.
Qed.

Lemma redis_with_token_inv : inv redis_with_token.
Proof. by apply (apply_redis_spec (λ _, fine) empty_redis (RedisSave hour_token)), empty_redis_fresh; apply empty_redis_inv. Qed.

(** The reply to a revocation is lost: the caller hears of a failure, the token is revoked. *)
Lemma RedisTokenStore_refines_witness :
  let s' := apply_redis (lost 2) redis_with_token (RedisRevoke (demo_clock + 5) "a0-b1") in
  (Revoke (lost 2) redis_with_token (demo_clock + 5) "a0-b1").1 = false ∧
  inv s' ∧ ∃ id, tokens_of (view s') !! id = Some (revoked_at (demo_clock + 5) hour_token).
Proof.
  intros s'.
  destruct (RedisTokenStore_refines (lost 2) redis_with_token (RedisRevoke (demo_clock + 5) "a0-b1")) as (Hinv & _ & Hget & _).
  - apply redis_with_token_inv.
  - now vm_compute.
  - split; [now vm_compute|]. split; [exact Hinv|].
    destruct (Hget "c0ffee"%string (revoked_at (demo_clock + 5) hour_token)) as (id & He & _); [now vm_compute|].
    exists id. exact He.
Defined.

Lemma token_ttl_witness :
  ∃ d k', view redis_with_token !! key "a0-b1" = Some {| rk_value := rk_value k'; rk_deadline := Some d |} ∧
    (ExpiresAt hour_token - 2 * Millisecond < d * Millisecond)%Z.
Proof.
  destruct (token_ttl (λ _, fine) empty_redis hour_token redis_with_token (demo_clock + 5) "a0-b1"
    redis_with_token (Revoke (λ _, fine) redis_with_token (demo_clock + 5) "a0-b1").2) as [(d & [data Hk] & _ & Hd) _].
  - apply empty_redis_inv.
  - apply empty_redis_fresh.
  - done.
  - done.
  - now vm_compute.
  - apply redis_with_token_inv.
  - now vm_compute.
  - now vm_compute.
  - exists d, {| rk_value := RString data; rk_deadline := Some d |}. split; [exact Hk|apply Hd].
Defined.

(** One failed GET during List: the live token leaves the index for good, so that later
    calls of List miss it while its hash still authenticates. *)
Lemma List_forgets_live_token :
  let s' := (List (lost 2) redis_with_token).2 in
  (List (λ _, fine) s').1 = [] ∧ (GetByHash (λ _, fine) s' "c0ffee").1 = Some hour_token.
Proof. now vm_compute. Qed.

(** Revoke in the last millisecond of the key makes the key permanent. *)
Lemma Revoke_drops_ttl :
  let s := evict redis_with_token (demo_clock + Hour) in
  (Revoke (λ _, fine) s (demo_clock + Hour) "a0-b1").1 = true ∧
  rk_deadline <$> view (Revoke (λ _, fine) s (demo_clock + Hour) "a0-b1").2 !! key "a0-b1" = Some None.
Proof. now vm_compute. Qed.
