(* ===== verification/RedisReplicas.v ===== *)
(** Replicas of the program over one Redis server (internal/auth/redis-token-store.go): the
    operations of RedisStore.v as threads, whose commands interleave with those of
    other replicas one by one, also inside a pipeline; only a script is one step. *)
From S2P Require Import Prelude Threads GoStrings TokenStore RedisServer RedisStore RedisSpec.
From Stdlib Require Import Ascii.

(** What a replica is asked, and what it answers. *)
Inductive token_request :=
  | Saves (entry : TokenEntry)
  | Looks (hash : string)
  | Lists
  | Revokes (now : time) (id : string)
  | Deletes (id : string).

Inductive token_answer :=
  | Saved (err : option string)
  | Looked (entry : option TokenEntry)
  | Listed (entries : list TokenEntry)
  | Revoked (found : bool)
  | Deleted (found : bool).

Section replicas.
Context {D : Type} `{RedisServer D} `{RedisCodec}.
Variable network : nat → delivery.

(** The state: the server, the time, and the calls made so far by all replicas. *)
Notation world := (RedisTokenStore D).
Notation task := (thread (RedisTokenStore D) token_answer).

Definition set_server (c : world) (d : D) : world := {| server := d; clock := clock c; calls := calls c |}.

(** ** Calls *)

(** The requests of a batch, one by one. *)
Fixpoint each (rs : list (@request D)) (acc : list reply) (k : list reply → task) : task :=
  match rs with
  | [] => k acc
  | r :: rs => Act (λ c, set_server c (r (server c)).2) (λ c, each rs (acc ++ [(r (server c)).1]) k)
  end.

(** The attempts whose replies are lost. *)
Fixpoint lost_attempts (ns : list nat) (rs : list (@request D)) (k : task) : task :=
  match ns with
  | [] => k
  | n :: ns => each (take n rs) [] (λ _, lost_attempts ns rs k)
  end.

Definition next_call (c : world) : world :=
  let c' := pass c (dl_elapsed (network (calls c))) in
  {| server := server c'; clock := clock c'; calls := S (calls c) |}.

Definition transmit_task (rs : list (@request D)) (k : option string → list reply → task) : task :=
  Act next_call (λ c,
    let dl := network (calls c) in
    lost_attempts (dl_attempts dl) rs
      match dl_error dl with
      | Some err => k (Some err) []
      | None => each rs [] (λ replies, k (reply_error replies) replies)
      end).

Definition send_task (cmds : list command) (k : option string → list reply → task) : task :=
  transmit_task (map (λ c d, redis_call d c) cmds) k.

(** ** Operations *)

Definition Save_task (entry : TokenEntry) : task :=
  match redis_Marshal (toRedisEntry entry) with
  | inl err => Done (Saved (Some ("redis-token-store: failed to marshal entry: " +:+ err)))
  | inr data =>
      Act id (λ c,
        let ttl := if IsZero (ExpiresAt entry) then 0%Z else Until (clock c) (ExpiresAt entry) in
        if negb (IsZero (ExpiresAt entry)) && (ttl <=? 0)%Z then
          Done (Saved (Some "redis-token-store: token is already expired"%string))
        else
          let px := if (0 <? ttl)%Z then Some (format_ttl ttl) else None in
          send_task [SET (key (ID entry)) data px; SET (hashKey (TokenHash entry)) (ID entry) px;
                     SADD tokenIndexKey (ID entry)]
            (λ err _, Done (Saved (match err with
                                   | Some err => Some ("redis-token-store: failed to save entry: " +:+ err)
                                   | None => None
                                   end))))
  end.

Definition getByID_task (id : string) (k : option TokenEntry → task) : task :=
  send_task [GET (key id)] (λ err replies,
    match err, replies with
    | None, [Bulk data] =>
        match redis_Unmarshal data with
        | inl _ => k None
        | inr r => k (Some (fromRedisEntry r))
        end
    | _, _ => k None
    end).

Definition GetByHash_task (hash : string) : task :=
  send_task [GET (hashKey hash)] (λ err replies,
    match err, replies with
    | None, [Bulk id] =>
        getByID_task id (λ found,
          match found with
          | Some entry => Done (Looked (Some entry))
          | None => send_task [SREM tokenIndexKey id] (λ _ _, Done (Looked None))
          end)
    | _, _ => Done (Looked None)
    end).

Fixpoint list_entries_task (ids : list string) (entries : list TokenEntry) (k : list TokenEntry → task) : task :=
  match ids with
  | [] => k entries
  | id :: ids =>
      getByID_task id (λ found,
        match found with
        | Some entry => list_entries_task ids (entries ++ [entry]) k
        | None => send_task [SREM tokenIndexKey id] (λ _ _, list_entries_task ids entries k)
        end)
  end.

Definition List_task : task :=
  send_task [SMEMBERS tokenIndexKey] (λ err replies,
    match err, replies with
    | None, [Members ids] => list_entries_task ids [] (λ entries, Done (Listed (sort_newest entries)))
    | _, _ => Done (Listed [])
    end).

Definition Revoke_task (now : time) (id : string) : task :=
  getByID_task id (λ found,
    match found with
    | None => Done (Revoked false)
    | Some entry =>
        match redis_Marshal (toRedisEntry (revoked_at now entry)) with
        | inl _ => Done (Revoked false)
        | inr data =>
            transmit_task [revokeScript (key id) data] (λ err replies,
              match err, replies with
              | None, [Int result] => Done (Revoked (negb (result =? 0)%Z))
              | _, _ => Done (Revoked false)
              end)
        end
    end).

Definition Delete_task (id : string) : task :=
  getByID_task id (λ found,
    match found with
    | None => Done (Deleted false)
    | Some entry =>
        send_task [DEL (key id); DEL (hashKey (TokenHash entry)); SREM tokenIndexKey id] (λ err replies,
          match err, replies with
          | None, Int deleted :: _ => Done (Deleted (0 <? deleted)%Z)
          | _, _ => Done (Deleted false)
          end)
    end).

Definition task_of (r : token_request) : task :=
  match r with
  | Saves entry => Save_task entry
  | Looks hash => GetByHash_task hash
  | Lists => List_task
  | Revokes now id => Revoke_task now id
  | Deletes id => Delete_task id
  end.

(** The operations of RedisStore.v. *)
Definition token_operation (r : token_request) (c : world) : token_answer * world :=
  match r with
  | Saves entry => let '(err, c) := Save network c entry in (Saved err, c)
  | Looks hash => let '(found, c) := GetByHash network c hash in (Looked found, c)
  | Lists => let '(entries, c) := List network c in (Listed entries, c)
  | Revokes now id => let '(found, c) := Revoke network c now id in (Revoked found, c)
  | Deletes id => let '(found, c) := Delete network c id in (Deleted found, c)
  end.

(** ** A replica alone *)

Lemma exec_each rs acc k c :
  exec (each rs acc k) c =
  let '(replies, d) := foldl (λ '(replies, d) r, let '(a, d) := r d in (replies ++ [a], d)) (acc, server c) rs in
  exec (k replies) (set_server c d).
Proof.
  revert acc c. induction rs as [|r rs IH]; intros acc c; cbn [each exec foldl]; [by destruct c|].
  rewrite IH. cbn. by destruct (r (server c)) as [a d].
Qed.

Lemma exec_batch rs k c :
  exec (each rs [] k) c = let '(replies, d) := run_requests rs (server c) in exec (k replies) (set_server c d).
Proof. apply exec_each. Qed.

Lemma exec_lost ns rs k c :
  exec (lost_attempts ns rs k) c =
  exec k (set_server c (foldl (λ d n, (run_requests (take n rs) d).2) (server c) ns)).
Proof.
  revert c. induction ns as [|n ns IH]; intros c; cbn [lost_attempts foldl]; [by destruct c|].
  rewrite exec_batch. destruct (run_requests (take n rs) (server c)) as [replies d]. by rewrite IH.
Qed.

Lemma exec_transmit rs k c :
  exec (transmit_task rs k) c =
  let '(err, replies, c) := transmit network c rs in exec (k err replies) c.
Proof.
  unfold transmit_task. cbn [exec]. rewrite exec_lost. unfold transmit. cbv zeta.
  destruct (dl_error (network (calls c))) as [err|]; [done|]. rewrite exec_batch. cbn [server set_server next_call].
  by destruct (run_requests rs _) as [replies d].
Qed.

Lemma exec_send cmds k c :
  exec (send_task cmds k) c = let '(err, replies, c) := send network c cmds in exec (k err replies) c.
Proof. apply exec_transmit. Qed.

Lemma exec_getByID id k c :
  exec (getByID_task id k) c = let '(found, c) := getByID network c id in exec (k found) c.
Proof.
  unfold getByID_task, getByID. rewrite exec_send. destruct (send network c _) as [[err replies] c1].
  destruct err, replies as [|[] [|]]; try done. by destruct (redis_Unmarshal v).
Qed.

Lemma exec_list_entries ids entries k c :
  exec (list_entries_task ids entries k) c =
  let '(entries, c) := list_entries network c ids entries in exec (k entries) c.
Proof.
  revert entries c. induction ids as [|id ids IH]; intros entries c; cbn [list_entries_task list_entries]; [done|].
  rewrite exec_getByID. destruct (getByID network c id) as [[e|] c1]; [apply IH|].
  rewrite exec_send. destruct (send network c1 _) as [[err replies] c2]. apply IH.
Qed.

(** A request that runs alone is the operation of the store. *)
Lemma exec_task_of r c : exec (task_of r) c = token_operation r c.
Proof.
  destruct r as [entry|hash| |now id|id]; cbn [task_of token_operation].
  - unfold Save_task, Save. destruct (redis_Marshal _) as [err|data]; [done|]. cbn [exec id].
    cbv zeta. destruct (negb _ && _); [done|]. rewrite exec_send.
    destruct (send network c _) as [[err replies] c1]. by destruct err.
  - unfold GetByHash_task, GetByHash. rewrite exec_send. destruct (send network c _) as [[err replies] c1].
    destruct err, replies as [|[] [|]]; try done. rewrite exec_getByID.
    destruct (getByID network c1 v) as [[e|] c2]; [done|]. rewrite exec_send.
    by destruct (send network c2 _) as [[err replies] c3].
  - unfold List_task, List. rewrite exec_send. destruct (send network c _) as [[err replies] c1].
    destruct err, replies as [|[] [|]]; try done. rewrite exec_list_entries.
    by destruct (list_entries network c1 l []).
  - unfold Revoke_task, Revoke. rewrite exec_getByID. destruct (getByID network c id) as [[e|] c1]; [|done].
    destruct (redis_Marshal _) as [err|data]; [done|]. rewrite exec_transmit.
    destruct (transmit network c1 _) as [[err replies] c2]. by destruct err, replies as [|[] [|]].
  - unfold Delete_task, Delete. rewrite exec_getByID. destruct (getByID network c id) as [[e|] c1]; [|done].
    rewrite exec_send. destruct (send network c1 _) as [[err replies] c2]. by destruct err, replies as [|[] ?].
Qed.
End replicas.
