(* ===== verification/RedisReplicasSpec.v ===== *)
(** What the Redis token store promises when any number of replicas use one server: a
    revocation that has been answered holds for all of them. *)
From S2P Require Import Prelude Threads GoStrings TokenStore RedisServer RedisStore RedisSpec RedisReplicas RedisTokens.
From Stdlib Require Import Ascii.

(** ** The keyspace *)

Section contents.
Context `{RedisCodecLaws}.
Variable id : string.
Implicit Types ks : Keyspace.

(** A stored entry is under its ID, and the entry [id] is revoked. *)
Definition filed (i : string) (e : TokenEntry) : Prop :=
  uuid_text i = true ∧ ID e = i ∧ hex_text (TokenHash e) = true.
Definition sound ks : Prop := ∀ i e, tokens_of ks !! i = Some e → filed i e.
Definition revoked ks : Prop := ∀ e, tokens_of ks !! id = Some e → RevokedAt e ≠ 0%Z.

(** An entry that may be stored: what is stored under [id] is revoked. *)
Definition storable (i : string) (e : TokenEntry) : Prop := filed i e ∧ (i = id → RevokedAt e ≠ 0%Z).

Definition harmless ks ks' : Prop := sound ks → sound ks' ∧ (revoked ks → revoked ks').

Lemma harmless_shrink ks ks' : tokens_of ks' ⊆ tokens_of ks → harmless ks ks'.
Proof.
  intros Hsub Hs. split; [intros i e He; by eapply Hs, lookup_weaken|]. intros Hr e He. by eapply Hr, lookup_weaken.
Qed.

Lemma harmless_refl ks : harmless ks ks.
Proof. by apply harmless_shrink. Qed.

Lemma tokens_insert ks k v i :
  tokens_of (<[k := v]> ks) !! i = if decide (k = key i) then decode v else tokens_of ks !! i.
Proof. rewrite !tokens_at. case_decide as Hk; [by rewrite Hk, lookup_insert_eq|by rewrite lookup_insert_ne]. Qed.

Lemma harmless_insert ks k v :
  (∀ i e, k = key i → decode v = Some e → storable i e) → harmless ks (<[k := v]> ks).
Proof.
  intros Hv Hs. split; [intros i e|intros Hr e]; rewrite tokens_insert; case_decide as Hk; try by eauto.
  - intros He. by apply (Hv i e Hk He).
  - intros He. by apply (Hv id e Hk He).
Qed.

Lemma harmless_delete ks k : harmless ks (delete k ks).
Proof.
  apply harmless_shrink, map_subseteq_spec. intros i e. rewrite !tokens_at.
  intros (v & [_ Hv]%lookup_delete_Some & Hd)%bind_Some. by rewrite Hv.
Qed.

Lemma live_harmless now ks : harmless ks (live now ks).
Proof.
  apply harmless_shrink, map_subseteq_spec. intros i e. rewrite !tokens_at.
  intros (v & [Hv _]%live_lookup & Hd)%bind_Some. by rewrite Hv.
Qed.

(** A text that may be stored under a key. *)
Definition storable_text (k v : string) : Prop :=
  ∀ i x e, k = key i → rk_value x = RString v → decode x = Some e → storable i e.

Definition storable_command (c : command) : Prop :=
  match c with SET k v _ => storable_text k v | _ => True end.

Lemma command_harmless now ks c : storable_command c → harmless ks (exec_command now ks c).2.
Proof.
  destruct c as [k|k v px|k|k m|k m|k|k]; cbn [storable_command exec_command]; intros Hc.
  - destruct (ks !! k); apply harmless_refl.
  - apply harmless_insert. intros i e Hk. by apply Hc.
  - apply harmless_delete.
  - destruct (set_members ks k); [|apply harmless_refl]. by apply harmless_insert.
  - destruct (set_members ks k) as [s|]; [|apply harmless_refl]. case_decide; [|apply harmless_refl]. cbn [snd].
    case_decide; [apply harmless_delete|by apply harmless_insert].
  - destruct (set_members ks k); apply harmless_refl.
  - destruct (ks !! k); apply harmless_refl.
Qed.

(** The script writes the payload, and says so, or it changes nothing. *)
Lemma script_cases k payload now ks :
  script_effect k payload now ks = (Int 0, ks) ∨
  ∃ px, script_effect k payload now ks = (Int 1, <[k := {| rk_value := RString payload; rk_deadline := px |}]> ks).
Proof.
  unfold script_effect. cbn [exec_command].
  destruct (ks !! k) as [x|]; [|by left]. cbn [fst snd].
  destruct (match rk_deadline x with None => _ | Some d => _ end =? -2)%Z; [by left|]. right. by eexists.
Qed.

(** The text of an entry. *)
Lemma marshal_storable e data k :
  redis_Marshal (toRedisEntry e) = inr data → filed (ID e) e → (ID e = id → RevokedAt e ≠ 0%Z) → k = key (ID e) →
  storable_text k data.
Proof.
  intros Hm (Hu & _ & Hhex) Hr -> i x y <-%key_inj Hx Hd.
  destruct (marshal_entry e data Hm Hu Hhex) as (e' & Hdec & Hst & _ & _ & HR).
  assert (y = e') as -> by (rewrite (Hdec x Hx) in Hd; congruence). unfold storable, filed.
  rewrite (stored_ID _ _ Hst), (stored_TokenHash _ _ Hst), HR. done.
Qed.

(** The text of an ID decodes to nothing. *)
Lemma reference_storable k i : uuid_text i = true → storable_text k i.
Proof. intros Hu j x e _ Hx. by rewrite (decode_uuid_text x i). Qed.

Lemma wf_sound ks : wf ks → sound ks.
Proof. intros Hwf i e (k & Hk & Hd)%tokens_Some. by destruct (wf_entry ks Hwf i k e Hk Hd). Qed.
End contents.

(** ** The calls *)

Section replicas.
Context {D : Type} `{RedisServerLaws D} `{RedisCodecLaws}.
Variable network : nat → delivery.
Variable id : string.
Notation world := (RedisTokenStore D).
Notation task := (thread (RedisTokenStore D) token_answer).
Implicit Types (c : world) (Q : token_answer → world → Prop).

(** What the replicas, and time, may do. *)
Definition rely c c' : Prop := harmless id (view c) (view c').

Lemma rely_star c c' : rtc rely c c' → rely c c'.
Proof.
  intros Hrtc. induction Hrtc as [c|c c1 c2 Hstep _ IH]; [apply harmless_refl|]. intros Hs.
  destruct (Hstep Hs) as [Hs1 Hr1]. destruct (IH Hs1) as [Hs2 Hr2]. auto.
Qed.

Lemma rely_sound c c' : rtc rely c c' → sound (view c) → sound (view c').
Proof. intros Hc Hs. by apply (rely_star _ _ Hc). Qed.

Lemma rely_revoked c c' : rtc rely c c' → sound (view c) → revoked id (view c) → revoked id (view c').
Proof. intros Hc Hs. by apply (rely_star _ _ Hc). Qed.

Lemma pass_rely c n : rely c (pass c n).
Proof.
  unfold rely, view, pass. cbn [server].
  destruct (redis_tick_spec (server c) ((clock c + Z.of_N n) / Millisecond)) as [_ ->]. apply live_harmless.
Qed.

(** A request that does no harm from [since] on, and what its reply tells, which stays
    true. *)
Definition lasting (φ : reply → world → Prop) : Prop := ∀ a c c', sound (view c) → rely c c' → φ a c → φ a c'.
Definition does (since : world) (φ : reply → world → Prop) (r : @request D) : Prop := ∀ c, rtc rely since c →
  let c' := set_server c (r (server c)).2 in rely c c' ∧ φ (r (server c)).1 c'.

Lemma lasting_star φ a c c' : lasting φ → rtc rely c c' → sound (view c) → φ a c → φ a c'.
Proof.
  intros Hφ Hrtc. induction Hrtc as [|c c1 c2 Hstep _ IH]; [done|]. intros Hs Ha. apply IH; [by apply Hstep|].
  by apply (Hφ a c).
Qed.

Lemma does_later c c' φ rs : rtc rely c c' → Forall (does c φ) rs → Forall (does c' φ) rs.
Proof. intros Hc Hrs. eapply Forall_impl; [done|]. intros r Hr c2 Hc2. apply Hr. by etrans. Qed.

Lemma does_impl c (φ ψ : reply → world → Prop) rs :
  (∀ a c, φ a c → ψ a c) → Forall (does c φ) rs → Forall (does c ψ) rs.
Proof.
  intros Himpl Hrs. eapply Forall_impl; [done|]. intros r Hr c' Hc'. destruct (Hr c' Hc') as [? ?]. split; [done|].
  by apply Himpl.
Qed.

Lemma wp_each φ Q rs acc k c :
  lasting φ → Forall (does c φ) rs → sound (view c) →
  (∀ replies c', rtc rely c c' → Forall (λ a, φ a c') replies → wp rely Q (k (acc ++ replies)) c') →
  wp rely Q (each rs acc k) c.
Proof.
  intros Hφ. revert acc c. induction rs as [|r rs IH]; intros acc c Hrs Hs Hk; cbn [each wp].
  - rewrite <- (app_nil_r acc). by apply Hk.
  - apply Forall_cons in Hrs as [Hr Hrs]. intros c' Hc'. destruct (Hr c' Hc') as [Hrely Ha]. split; [done|].
    set (c1 := set_server c' _) in *. assert (Hc1 : rtc rely c c1) by by eapply rtc_r.
    assert (Hs1 : sound (view c1)) by by eapply rely_sound.
    apply IH; [by eapply does_later|done|]. intros replies c2 Hc2 Hreplies. rewrite <- app_assoc.
    apply Hk; [by etrans|]. constructor; [|done]. by eapply lasting_star.
Qed.

Lemma wp_lost Q ns rs k c :
  Forall (does c (λ _ _, True)) rs → sound (view c) → (∀ c', rtc rely c c' → wp rely Q k c') →
  wp rely Q (lost_attempts ns rs k) c.
Proof.
  revert c. induction ns as [|n ns IH]; intros c Hrs Hs Hk; cbn [lost_attempts]; [by apply Hk|].
  apply (wp_each (λ _ _, True)); [done|by apply Forall_take|done|]. intros replies c' Hc' _.
  apply IH; [by eapply does_later|by eapply rely_sound|]. intros c2 Hc2. apply Hk. by etrans.
Qed.

Lemma wp_transmit φ Q rs k c :
  lasting φ → Forall (does c φ) rs → sound (view c) →
  (∀ err replies c', rtc rely c c' → (err = None → Forall (λ a, φ a c') replies) → wp rely Q (k err replies) c') →
  wp rely Q (transmit_task network rs k) c.
Proof.
  intros Hφ Hrs Hs Hk. unfold transmit_task. cbn [wp]. intros c' Hc'.
  assert (Hstep : rely c' (next_call network c')) by apply pass_rely. split; [done|].
  assert (Hc1 : rtc rely c (next_call network c')) by by eapply rtc_r.
  apply wp_lost; [by eapply does_impl, does_later|by eapply rely_sound|]. intros c2 Hc2.
  assert (Hc02 : rtc rely c c2) by by etrans. destruct (dl_error _) as [err|]; [by apply Hk|].
  apply (wp_each φ); [done|by eapply does_later|by eapply rely_sound|]. intros replies c3 Hc3 Hreplies.
  apply Hk; [by etrans|done].
Qed.

(** ** The commands *)

Lemma command_rely cmd c :
  storable_command id cmd → rely c (set_server c (redis_call (server c) cmd).2).
Proof.
  intros Hcmd. unfold rely, view. cbn [server set_server].
  destruct (redis_call_spec (server c) cmd) as (_ & -> & _). by apply command_harmless.
Qed.

Lemma wp_send Q cmds k c :
  Forall (storable_command id) cmds → sound (view c) →
  (∀ err replies c', rtc rely c c' → wp rely Q (k err replies) c') →
  wp rely Q (send_task network cmds k) c.
Proof.
  intros Hcmds Hs Hk. apply (wp_transmit (λ _ _, True)); [done| |done|by intros; apply Hk].
  apply Forall_fmap. eapply Forall_impl; [done|]. intros cmd Hcmd c' _. split; [|done]. by apply command_rely.
Qed.

(** What a lookup finds: an entry as it is filed, revoked if the revocation of [id] came
    before. *)
Definition found (since : world) (i : string) (e : TokenEntry) : Prop :=
  filed i e ∧ (revoked id (view since) → i = id → RevokedAt e ≠ 0%Z).

Definition decoded (data : string) : option TokenEntry :=
  match redis_Unmarshal data with inr r => Some (fromRedisEntry r) | inl _ => None end.

Lemma get_does since i :
  sound (view since) →
  does since (λ a _, ∀ data e, a = Bulk data → decoded data = Some e → found since i e) (λ d, redis_call d (GET (key i))).
Proof.
  intros Hs c Hc c'. split; [by apply command_rely|]. intros data e Ha Hd.
  destruct (redis_call_spec (server c) (GET (key i))) as (Hreply & _ & _). cbn [exec_command] in Hreply.
  rewrite Ha in Hreply. assert (He : tokens_of (view c) !! i = Some e).
  { rewrite tokens_at. unfold view. destruct (keyspace (server c) !! key i) as [x|]; [|done]. cbn in *. unfold decode.
    destruct (rk_value x) as [v|]; cbn in Hreply; [|done]. by injection Hreply as <-. }
  split; [by apply (rely_sound _ _ Hc)|]. intros Hr ->. by apply (rely_revoked _ _ Hc Hs Hr).
Qed.

Lemma wp_getByID Q i k c :
  sound (view c) → (∀ r c', rtc rely c c' → (∀ e, r = Some e → found c i e) → wp rely Q (k r) c') →
  wp rely Q (getByID_task network i k) c.
Proof.
  intros Hs Hk. unfold getByID_task, send_task. cbn [map].
  eapply wp_transmit; [|constructor; [by apply get_does|constructor]|done|].
  { by intros a c1 c2 _ _. }
  intros err replies c' Hc' Ha.
  assert (Hnone : wp rely Q (k None) c') by by apply Hk.
  destruct err, replies as [|[] [|]]; try done. specialize (Ha eq_refl). apply Forall_cons in Ha as [Ha _].
  destruct (redis_Unmarshal v) as [err|r] eqn:Hu; [done|]. apply Hk; [done|]. intros e [= <-].
  apply (Ha v); [done|]. unfold decoded. by rewrite Hu.
Qed.

(** The script that revokes [i]: when it answers that it has written, the entry [id] is
    revoked if it is that one. *)
Lemma script_does since i e data :
  redis_Marshal (toRedisEntry e) = inr data → filed i e → RevokedAt e ≠ 0%Z →
  does since (λ a c, sound (view c) → ∀ n, a = Int n → n ≠ 0%Z → i = id → revoked id (view c))
    (revokeScript (key i) data).
Proof.
  intros Hm Hfiled Hr c _ c'. assert (Hid : ID e = i) by apply Hfiled. destruct Hfiled as (Hu & _ & Hhex).
  assert (Hview : view c' = (script_effect (key i) data (server_now (server c)) (view c)).2 ∧
    same_reply (revokeScript (key i) data (server c)).1
      (script_effect (key i) data (server_now (server c)) (view c)).1).
  { unfold c', view. cbn [server set_server]. split; apply script_implements. }
  destruct Hview as [Hview Hreply].
  assert (Htext : storable_text id (key i) data).
  { eapply (marshal_storable id e); [done| |done|by rewrite Hid]. rewrite Hid. done. }
  destruct (script_cases (key i) data (server_now (server c)) (view c)) as [E|[px E]]; rewrite E in Hview, Hreply;
    cbn [fst snd] in *.
  - split; [unfold rely; rewrite Hview; apply harmless_refl|]. intros _ n Ha. rewrite Ha in Hreply. cbn in Hreply. congruence.
  - split.
    + unfold rely. rewrite Hview. apply harmless_insert. intros j x Hk Hd. by apply (Htext j {| rk_value := RString data; rk_deadline := px |}).
    + intros _ n _ _ -> x. rewrite Hview, tokens_insert, decide_True by done. intros Hx.
      by apply (Htext id {| rk_value := RString data; rk_deadline := px |}).
Qed.

(** ** The operations *)

(** What an answer promises, to a request that came after the revocation ([late]) or
    not. *)
Definition promised (late : bool) (r : token_request) (a : token_answer) (c : world) : Prop :=
  match a with
  | Looked (Some e) => late = true → ID e = id → RevokedAt e ≠ 0%Z
  | Listed l => late = true → ∀ e, e ∈ l → ID e = id → RevokedAt e ≠ 0%Z
  | Revoked true => ∀ now, r = Revokes now id → sound (view c) → revoked id (view c)
  | _ => True
  end.

(** New tokens get fresh IDs, and the clock does not read Go's zero time. *)
Definition sane_request (r : token_request) : Prop :=
  match r with
  | Saves e => filed (ID e) e ∧ ID e ≠ id
  | Revokes now _ => now ≠ 0%Z
  | _ => True
  end.

Lemma found_late (late : bool) since i e :
  (late = true → revoked id (view since)) → found since i e → late = true → ID e = id → RevokedAt e ≠ 0%Z.
Proof. intros Hlate [(_ & <- & _) Hr] Hl. by apply Hr, Hlate. Qed.

Lemma wp_quiet late r a c :
  match a with Looked (Some _) | Listed _ | Revoked true => False | _ => True end →
  wp rely (promised late r) (Done a) c.
Proof. intros Ha c' _. by destruct a as [| [|] | |[|]|]. Qed.

Lemma wp_Save late c e :
  sound (view c) → filed (ID e) e → ID e ≠ id → wp rely (promised late (Saves e)) (Save_task network e) c.
Proof.
  intros Hs Hfiled Hne. unfold Save_task. destruct (redis_Marshal (toRedisEntry e)) as [err|data] eqn:Hm; [by apply wp_quiet|].
  intros c' Hc'. split; [apply harmless_refl|]. cbv zeta. destruct (negb _ && _); [by apply wp_quiet|].
  apply wp_send; [|by eapply rely_sound|by intros; apply wp_quiet].
  constructor; [|constructor; [|by repeat constructor]].
  - by eapply marshal_storable.
  - apply reference_storable, Hfiled.
Qed.

Lemma wp_Look late c hash :
  sound (view c) → (late = true → revoked id (view c)) →
  wp rely (promised late (Looks hash)) (GetByHash_task network hash) c.
Proof.
  intros Hs Hlate. apply wp_send; [by repeat constructor|done|]. intros err replies c1 Hc1.
  assert (Hs1 : sound (view c1)) by by eapply rely_sound.
  destruct err, replies as [|[] [|]]; try by apply wp_quiet. apply wp_getByID; [done|]. intros [e|] c2 Hc2 He.
  - intros c3 _. cbn. apply (found_late late c1 v); [|by apply He]. intros Hl. eapply rely_revoked; eauto.
  - apply wp_send; [by repeat constructor|by eapply rely_sound|]. intros. by apply wp_quiet.
Qed.

Lemma wp_list_entries late c ids entries :
  sound (view c) → (late = true → revoked id (view c)) →
  (∀ e, e ∈ entries → late = true → ID e = id → RevokedAt e ≠ 0%Z) →
  wp rely (promised late Lists) (list_entries_task network ids entries (λ entries, Done (Listed (sort_newest entries)))) c.
Proof.
  revert c entries. induction ids as [|i ids IH]; intros c entries Hs Hlate Hents; cbn [list_entries_task].
  - intros c' _ Hl e He. apply Hents; [|done]. unfold sort_newest in He. by rewrite merge_sort_Permutation in He.
  - apply wp_getByID; [done|]. intros [e|] c1 Hc1 He.
    + apply IH; [by eapply rely_sound|intros Hl; eapply rely_revoked; eauto|].
      intros e' [?| ->%list_elem_of_singleton]%elem_of_app; [by apply Hents|]. by apply (found_late late c i), He.
    + apply wp_send; [by repeat constructor|by eapply rely_sound|]. intros _ _ c2 Hc2.
      assert (Hc02 : rtc rely c c2) by by etrans.
      apply IH; [by eapply rely_sound|intros Hl; eapply rely_revoked; eauto|done].
Qed.

Lemma wp_Revoke late c now i :
  sound (view c) → now ≠ 0%Z → wp rely (promised late (Revokes now i)) (Revoke_task network now i) c.
Proof.
  intros Hs Hnow. apply wp_getByID; [done|]. intros [e|] c1 Hc1 He; [|by apply wp_quiet].
  destruct (He e eq_refl) as [Hfiled _].
  destruct (redis_Marshal (toRedisEntry (revoked_at now e))) as [err|data] eqn:Hm; [by apply wp_quiet|].
  eapply wp_transmit; [|constructor; [by eapply script_does|constructor]|by eapply rely_sound|].
  { intros a c2 c3 Hs2 Hc23 Ha Hs3 n Hn Hn0 Hi. destruct (Hc23 Hs2) as [_ Hkeep]. apply Hkeep. by eapply Ha. }
  intros err replies c2 Hc2 Ha. destruct err, replies as [|[] [|]]; try by apply wp_quiet.
  specialize (Ha eq_refl). apply Forall_cons in Ha as [Ha _].
  destruct (Z.eqb_spec n 0) as [->|Hn]; [by apply wp_quiet|]. intros c3 Hc3 now' [= <- ->] Hs3.
  assert (Hs2 : sound (view c2)) by (apply (rely_sound c1); [done|by eapply rely_sound]).
  eapply rely_revoked; [done..|]. by eapply Ha.
Qed.

Lemma wp_Delete late c i : sound (view c) → wp rely (promised late (Deletes i)) (Delete_task network i) c.
Proof.
  intros Hs. apply wp_getByID; [done|]. intros [e|] c1 Hc1 He; [|by apply wp_quiet].
  apply wp_send; [by repeat constructor|by eapply rely_sound|]. intros err replies c2 _.
  destruct err, replies as [|[] ?]; by apply wp_quiet.
Qed.

Lemma wp_task late c r :
  sound (view c) → (late = true → revoked id (view c)) → sane_request r →
  wp rely (promised late r) (task_of network r) c.
Proof.
  intros Hs Hlate Hr. destruct r as [e|hash| |now i|i]; cbn [sane_request task_of] in *.
  - destruct Hr. by apply wp_Save.
  - by apply wp_Look.
  - apply wp_send; [by repeat constructor|done|]. intros err replies c1 Hc1.
    assert (Hs1 : sound (view c1)) by by eapply rely_sound.
    assert (Hnil : wp rely (promised late Lists) (Done (Listed [])) c1) by by intros c' _ _ e ?%not_elem_of_nil.
    destruct err, replies as [|[] [|]]; try done. apply wp_list_entries; [done| |by intros e ?%not_elem_of_nil].
    intros Hl. eapply rely_revoked; eauto.
  - by apply wp_Revoke.
  - by apply wp_Delete.
Qed.

(** ** Replicas *)

(** Time passes, and Redis drops the keys that are overdue. *)
Definition time_passes c c' : Prop := ∃ n, c' = pass c n.

Notation replicas := (turn (task_of network) time_passes sane_request).

(** C21: a revocation holds for every replica.  From a keyspace in order, let any number of
    replicas send the commands of their operations in any order, with replies lost,
    calls repeated in part and keys expiring.  When one Revoke has answered true, the entry is
    revoked from then on for as long as it is stored, and every lookup and listing that
    begins after the answer, on any replica, shows it as revoked or not at all, though
    revocations and deletions that read the entry before may still be writing. *)
Theorem revocation_across_replicas c0 (m1 m2 : machine world token_request token_answer) i now :
  wf (view c0) → rtc replicas {| shared := c0; requests := [] |} m1 →
  answered m1 i = Some (Revokes now id, Revoked true) → rtc replicas m1 m2 →
  (∀ e, tokens_of (view (shared m2)) !! id = Some e → RevokedAt e ≠ 0%Z) ∧
  ∀ j, length (requests m1) ≤ j →
    (∀ hash e, answered m2 j = Some (Looks hash, Looked (Some e)) → ID e = id → RevokedAt e ≠ 0%Z) ∧
    (∀ l e, answered m2 j = Some (Lists, Listed l) → e ∈ l → ID e = id → RevokedAt e ≠ 0%Z).
Proof.
  intros Hwf Hrun Hrevoked Hlater. apply wf_sound in Hwf.
  assert (Htime : ∀ c c', time_passes c c' → rely c c') by (intros c ? [n ->]; apply pass_rely).
  assert (Hstart : ∀ (late : bool) r c, sound (view c) → (late = true → revoked id (view c)) → sane_request r →
    wp rely (promised late r) (task_of network r) c) by (intros; by apply wp_task).
  destruct (machine_wp (task_of network) rely time_passes sane_request (λ _, promised false) {| shared := c0; requests := [] |} m1 Htime) as (Hc1 & _ & Hall); [|done|exact Hrun|].
  { intros j r c Hr _ Hc. apply Hstart; [|done..]. by eapply rely_sound. }
  pose proof (rely_sound _ _ Hc1 Hwf) as Hs1. assert (Hr1 : revoked id (view (shared m1))).
  { unfold answered in Hrevoked. destruct (requests m1 !! i) as [[r [a|]]|] eqn:Hi; [|done..]. injection Hrevoked as -> ->.
    by apply (wp_done _ _ _ _ (Hall _ _ _ Hi) now). }
  pose (Q (j : nat) r a c := length (requests m1) ≤ j → promised true r a c).
  assert (Hlate : ∀ j r c, sane_request r → length (requests m1) ≤ j → rtc rely (shared m1) c →
    wp rely (Q j r) (task_of network r) c).
  { intros j r c Hr _ Hc. eapply wp_impl; [|apply (Hstart true)]; [by intros a c' Ha _|by eapply rely_sound| |done].
    intros _. by eapply rely_revoked. }
  assert (Hearly : ∀ j r t, requests m1 !! j = Some (r, t) → wp rely (Q j r) t (shared m1)).
  { intros j r t Hj. eapply wp_impl; [|by apply (Hall j)]. intros a c _ Hle. by apply lookup_lt_Some in Hj; lia. }
  destruct (machine_wp (task_of network) rely _ _ Q _ _ Htime Hlate Hearly Hlater) as (Hc2 & _ & _).
  split; [by apply (rely_revoked _ _ Hc2)|]. intros j Hj. split.
  - intros hash e Ha. by apply (machine_answer (task_of network) rely _ _ Q _ _ _ _ _ Htime Hlate Hearly Hlater Ha).
  - intros l e Ha He. by apply (machine_answer (task_of network) rely _ _ Q _ _ _ _ _ Htime Hlate Hearly Hlater Ha).
Qed.
End replicas.

(** ** Two revocations and a lookup *)

#[local] Existing Instance FileStore.TokenEntry_countable.
#[local] Existing Instance brace_codec.
#[local] Existing Instance brace_codec_laws.

Notation demo_machine := (machine (RedisTokenStore memory_server) token_request token_answer).

(** Every call is answered, and its first attempt was executed without a reply. *)
Definition twice : nat → delivery := λ _, {| dl_elapsed := 7; dl_attempts := [1%nat]; dl_error := None |}.

Definition start_machine : demo_machine := {| shared := redis_with_token; requests := [] |}.

(** Both replicas read the entry; the first one revokes it and answers. *)
Definition first_turns : list (tick token_request) :=
  [Arrive (Revokes (demo_clock + 5) "a0-b1"); Arrive (Revokes (demo_clock + 9) "a0-b1");
   Run 0; Run 1; Run 0; Run 1; Run 0; Run 1; Run 0; Run 0; Run 0].

(** A third one looks the token up while the second one is still writing. *)
Definition later_turns : list (tick token_request) :=
  [Arrive (Looks "c0ffee"); Run 2; Run 2; Run 1; Run 2; Run 1; Run 2; Run 2; Run 1; Run 2].

Definition after_turns (xs : list (tick token_request)) (m : demo_machine) : demo_machine :=
  default m (schedule (task_of twice) xs m).

Definition revoked_machine : demo_machine := after_turns first_turns start_machine.
Definition looked_machine : demo_machine := after_turns later_turns revoked_machine.

Lemma after_turns_run xs m (env : RedisTokenStore memory_server → RedisTokenStore memory_server → Prop) ok :
  Forall ok (arrivals xs) → is_Some (schedule (task_of twice) xs m) →
  rtc (turn (task_of twice) env ok) m (after_turns xs m).
Proof. intros Hok [m' Hm']. apply (schedule_turns _ _ _ xs); [done|]. unfold after_turns. by rewrite Hm'. Qed.

Lemma revocation_across_replicas_witness :
  answered revoked_machine 1 = None ∧
  answered looked_machine 2 = Some (Looks "c0ffee", Looked (Some (revoked_at (demo_clock + 9) hour_token))) ∧
  RevokedAt (revoked_at (demo_clock + 9) hour_token) ≠ 0%Z.
Proof.
  assert (Hlooked : answered looked_machine 2 = Some (Looks "c0ffee", Looked (Some (revoked_at (demo_clock + 9) hour_token))))
    by (vm_compute; reflexivity).
  split; [vm_compute; reflexivity|]. split; [exact Hlooked|].
  destruct (revocation_across_replicas twice "a0-b1" redis_with_token revoked_machine looked_machine 0 (demo_clock + 5))
    as [_ Hlate].
  - apply redis_with_token_inv.
  - apply after_turns_run; [by repeat constructor|]. apply (bool_decide_unpack _). vm_compute. exact I.
  - vm_compute. reflexivity.
  - apply after_turns_run; [by repeat constructor|]. apply (bool_decide_unpack _). vm_compute. exact I.
  - destruct (Hlate 2) as [Hlook _]; [vm_compute; lia|]. apply (Hlook "c0ffee"%string); [exact Hlooked|reflexivity].
Defined.
