(* ===== verification/PGStore.v ===== *)
(** The PostgreSQL token store (internal/auth/pg-token-store.go).

    The pool is the class [PGPool]: statements are their SQL text and their arguments, a
    result is a command tag, a row or a sequence of rows.  [PGPoolLaws] states what the
    five statements of the store do to its table; a statement that fails may have been
    executed, since the connection can be lost after the commit.  A timestamptz keeps
    microseconds, and a text is valid UTF-8 without a zero byte. *)
From S2P Require Import Prelude GoStrings TokenStore.

Inductive pg_value := Text (s : string) | Timestamp (t : time) | Null.

Class PGPool (P : Type) := {
  (** An error, or the number of rows affected. *)
  pg_Exec : P → string → list pg_value → (string + Z) * P;
  (** An error, or the first row if there is one. *)
  pg_QueryRow : P → string → list pg_value → (string + option (list pg_value)) * P;
  (** An error, or the rows that Next finds and the error of Err at the end. *)
  pg_Query : P → string → list pg_value → (string + list (list pg_value) * option string) * P;
  (** The pool when the clock of the database shows this instant. *)
  pg_at : P → time → P;
}.

Definition createTableSQL : string := "
CREATE TABLE IF NOT EXISTS gimme_tokens (
    id         TEXT        PRIMARY KEY,
    name       TEXT        NOT NULL,
    token_hash TEXT        NOT NULL UNIQUE,
    created_at TIMESTAMPTZ NOT NULL DEFAULT NOW(),
    expires_at TIMESTAMPTZ,
    revoked_at TIMESTAMPTZ
);
CREATE INDEX IF NOT EXISTS idx_gimme_tokens_hash ON gimme_tokens (token_hash);
".

Definition insertSQL : string :=
  "INSERT INTO gimme_tokens (id, name, token_hash, created_at, expires_at, revoked_at) VALUES ($1,$2,$3,$4,$5,$6)".
Definition selectHashSQL : string :=
  "SELECT id, name, token_hash, created_at, expires_at, revoked_at FROM gimme_tokens WHERE token_hash = $1".
Definition selectAllSQL : string :=
  "SELECT id, name, token_hash, created_at, expires_at, revoked_at FROM gimme_tokens ORDER BY created_at DESC".
Definition revokeSQL : string := "UPDATE gimme_tokens SET revoked_at = $1 WHERE id = $2".
Definition deleteSQL : string := "DELETE FROM gimme_tokens WHERE id = $1".
Definition purgeSQL : string := "DELETE FROM gimme_tokens WHERE expires_at IS NOT NULL AND expires_at < NOW()".

(** ** The store *)

Record PGTokenStore (P : Type) := { pool : P; stopped : bool }.
Arguments pool {P}.
Arguments stopped {P}.

Definition nullableTime (t : time) : pg_value := if IsZero t then Null else Timestamp t.

(** [row.Scan] into the fields of an entry; NULL becomes a nil pointer and then the zero time. *)
Definition scan_time (v : pg_value) : option time :=
  match v with Null => Some 0%Z | Timestamp t => Some t | Text _ => None end.

Definition scanRow (row : list pg_value) : option TokenEntry :=
  match row with
  | [Text id; Text name; Text hash; Timestamp created; expires; revoked] =>
      expiresAt ← scan_time expires;
      revokedAt ← scan_time revoked;
      Some {| ID := id; Name := name; TokenHash := hash; CreatedAt := created;
              ExpiresAt := expiresAt; RevokedAt := revokedAt |}
  | _ => None
  end.

(** The loop of List, which gives up on a row it cannot scan. *)
Fixpoint scan_all (rows : list (list pg_value)) : option (list TokenEntry) :=
  match rows with
  | [] => Some []
  | row :: rows => e ← scanRow row; l ← scan_all rows; Some (e :: l)
  end.

Section pg_store.
Context {P : Type} `{PGPool P}.
Implicit Types s : PGTokenStore P.

Definition with_pool s (p : P) : PGTokenStore P := {| pool := p; stopped := stopped s |}.

Definition NewPGTokenStore (p : P) : (string + PGTokenStore P) * P :=
  match pg_Exec p createTableSQL [] with
  | (inl err, p) => (inl ("pg-token-store: failed to create table: " +:+ err), p)
  | (inr _, p) => (inr {| pool := p; stopped := false |}, p)
  end.

Definition Save s (entry : TokenEntry) : option string * PGTokenStore P :=
  match pg_Exec (pool s) insertSQL
          [Text (ID entry); Text (Name entry); Text (TokenHash entry); Timestamp (CreatedAt entry);
           nullableTime (ExpiresAt entry); nullableTime (RevokedAt entry)] with
  | (inl err, p) => (Some ("pg-token-store: failed to save entry: " +:+ err), with_pool s p)
  | (inr _, p) => (None, with_pool s p)
  end.

Definition GetByHash s (hash : string) : option TokenEntry * PGTokenStore P :=
  match pg_QueryRow (pool s) selectHashSQL [Text hash] with
  | (inr (Some row), p) => (scanRow row, with_pool s p)
  | (_, p) => (None, with_pool s p)
  end.

(** rows.Err is not consulted after the loop. *)
Definition List s : list TokenEntry * PGTokenStore P :=
  match pg_Query (pool s) selectAllSQL [] with
  | (inl _, p) => ([], with_pool s p)
  | (inr (rows, _), p) => (default [] (scan_all rows), with_pool s p)
  end.

Definition Revoke s (now : time) (id : string) : bool * PGTokenStore P :=
  match pg_Exec (pool s) revokeSQL [Timestamp now; Text id] with
  | (inl _, p) => (false, with_pool s p)
  | (inr n, p) => ((0 <? n)%Z, with_pool s p)
  end.

Definition Delete s (id : string) : bool * PGTokenStore P :=
  match pg_Exec (pool s) deleteSQL [Text id] with
  | (inl _, p) => (false, with_pool s p)
  | (inr n, p) => ((0 <? n)%Z, with_pool s p)
  end.

Definition Close s : PGTokenStore P := {| pool := pool s; stopped := true |}.

Definition purgeExpired s : PGTokenStore P := with_pool s (pg_Exec (pool s) purgeSQL []).2.

(** A tick of purgeLoop when the clock of the database shows [now]. *)
Definition purge_tick s (now : time) : PGTokenStore P :=
  if stopped s then s else purgeExpired (with_pool s (pg_at (pool s) now)).
End pg_store.

(** ** What PostgreSQL documents of the statements *)

Record pg_row := {
  row_name : string;
  row_hash : string;
  row_created : time;
  row_expires : option time;
  row_revoked : option time;
}.

Definition microseconds (t : time) : time := (t / Microsecond * Microsecond)%Z.

(** What a text column can hold; a statement with another text fails. *)
Definition text_ok (s : string) : bool := ValidString s && char_free (byte 0) s.

(** The column of a timestamptz argument. *)
Definition stored_time (v : pg_value) : option time :=
  match v with Timestamp t => Some (microseconds t) | _ => None end.

Definition row_values (id : string) (r : pg_row) : list pg_value :=
  [Text id; Text (row_name r); Text (row_hash r); Timestamp (row_created r);
   from_option Timestamp Null (row_expires r); from_option Timestamp Null (row_revoked r)].

Definition inserted_row (name hash : string) (created : time) (expires revoked : pg_value) : pg_row :=
  {| row_name := name; row_hash := hash; row_created := microseconds created;
     row_expires := stored_time expires; row_revoked := stored_time revoked |}.

Definition revoke_row (now : time) (r : pg_row) : pg_row :=
  {| row_name := row_name r; row_hash := row_hash r; row_created := row_created r;
     row_expires := row_expires r; row_revoked := Some (microseconds now) |}.

(** The keys of the table are free for a new row. *)
Definition no_conflict (table : gmap string pg_row) (id hash : string) : Prop :=
  table !! id = None ∧ ∀ id' r, table !! id' = Some r → row_hash r ≠ hash.

Definition row_expired (now : time) (r : pg_row) : bool :=
  match row_expires r with None => false | Some t => (t <? now)%Z end.

Class PGPoolLaws (P : Type) `{PGPool P} := {
  pg_table : P → gmap string pg_row;
  pg_now : P → time;
  (** Statements do not fail from here on, except for conflicts and texts that are not valid. *)
  pg_reliable : P → Prop;
  pg_create_spec p res p' : pg_Exec p createTableSQL [] = (res, p') → pg_table p' = pg_table p;
  pg_insert_spec p id name hash created expires revoked res p' :
    pg_Exec p insertSQL [Text id; Text name; Text hash; Timestamp created; expires; revoked] = (res, p') →
    (pg_reliable p → pg_reliable p') ∧
    (no_conflict (pg_table p) id hash ∧ text_ok id = true ∧ text_ok hash = true ∧
       pg_table p' = <[id := inserted_row name hash created expires revoked]> (pg_table p) ∨
     (∃ err, res = inl err) ∧ pg_table p' = pg_table p);
  pg_select_hash_spec p hash res p' :
    pg_QueryRow p selectHashSQL [Text hash] = (res, p') →
    pg_table p' = pg_table p ∧
    (∀ row, res = inr (Some row) → ∃ id r, pg_table p !! id = Some r ∧ row_hash r = hash ∧ row = row_values id r) ∧
    (res = inr None → ∀ id r, pg_table p !! id = Some r → row_hash r ≠ hash) ∧
    (pg_reliable p → pg_reliable p' ∧ (text_ok hash = true → ∃ row, res = inr row));
  pg_select_all_spec p res p' :
    pg_Query p selectAllSQL [] = (res, p') →
    pg_table p' = pg_table p ∧
    (∀ rows err, res = inr (rows, err) →
       ∃ all, all ≡ₚ map_to_list (pg_table p) ∧
         StronglySorted (λ a b, (row_created b.2 ≤ row_created a.2)%Z) all ∧
         rows `prefix_of` ((λ '(id, r), row_values id r) <$> all) ∧
         (err = None → rows = ((λ '(id, r), row_values id r) <$> all))) ∧
    (pg_reliable p → pg_reliable p' ∧ ∃ rows, res = inr (rows, None));
  pg_revoke_spec p now id res p' :
    pg_Exec p revokeSQL [Timestamp now; Text id] = (res, p') →
    (pg_table p' = alter (revoke_row now) id (pg_table p) ∨ (∃ err, res = inl err) ∧ pg_table p' = pg_table p) ∧
    (∀ n, res = inr n → n = if pg_table p !! id then 1 else 0)%Z ∧
    (pg_reliable p → pg_reliable p' ∧ (text_ok id = true → ∃ n, res = inr n));
  pg_delete_spec p id res p' :
    pg_Exec p deleteSQL [Text id] = (res, p') →
    (pg_table p' = delete id (pg_table p) ∨ (∃ err, res = inl err) ∧ pg_table p' = pg_table p) ∧
    (∀ n, res = inr n → n = if pg_table p !! id then 1 else 0)%Z ∧
    (pg_reliable p → pg_reliable p' ∧ (text_ok id = true → ∃ n, res = inr n));
  pg_purge_spec p res p' :
    pg_Exec p purgeSQL [] = (res, p') →
    (pg_table p' = filter (λ '(_, r), row_expired (pg_now p) r = false) (pg_table p) ∨
     (∃ err, res = inl err) ∧ pg_table p' = pg_table p) ∧
    (pg_reliable p → pg_reliable p' ∧ ∃ n, res = inr n);
  pg_at_spec p now :
    pg_table (pg_at p now) = pg_table p ∧ pg_now (pg_at p now) = now ∧
    (pg_reliable p → pg_reliable (pg_at p now));
}.

(** ** The entries of the table *)

Definition row_entry (id : string) (r : pg_row) : TokenEntry :=
  {| ID := id; Name := row_name r; TokenHash := row_hash r; CreatedAt := row_created r;
     ExpiresAt := default 0%Z (row_expires r); RevokedAt := default 0%Z (row_revoked r) |}.

Definition entries_of (table : gmap string pg_row) : gmap string TokenEntry :=
  map_imap (λ id r, Some (row_entry id r)) table.

(** The UNIQUE constraint on token_hash. *)
Definition unique_hashes (table : gmap string pg_row) : Prop :=
  ∀ id1 id2 r1 r2, table !! id1 = Some r1 → table !! id2 = Some r2 → row_hash r1 = row_hash r2 → id1 = id2.

Section entries.
Implicit Types table : gmap string pg_row.

Lemma entries_lookup table id : entries_of table !! id = row_entry id <$> table !! id.
Proof. unfold entries_of. rewrite map_lookup_imap. by destruct (table !! id). Qed.

Lemma entries_Some table id e : entries_of table !! id = Some e ↔ ∃ r, table !! id = Some r ∧ e = row_entry id r.
Proof. rewrite entries_lookup, fmap_Some. done. Qed.

Lemma entries_insert table id r : entries_of (<[id := r]> table) = <[id := row_entry id r]> (entries_of table).
Proof.
  apply map_eq. intros i. rewrite entries_lookup. destruct (decide (i = id)) as [->|].
  - by rewrite !lookup_insert_eq.
  - by rewrite !lookup_insert_ne, entries_lookup.
Qed.

Lemma entries_delete table id : entries_of (delete id table) = delete id (entries_of table).
Proof.
  apply map_eq. intros i. rewrite entries_lookup. destruct (decide (i = id)) as [->|].
  - by rewrite !lookup_delete_eq.
  - by rewrite !lookup_delete_ne, entries_lookup.
Qed.

Lemma entries_to_list table : (map_to_list (entries_of table)).*2 ≡ₚ (λ '(id, r), row_entry id r) <$> map_to_list table.
Proof.
  assert (Hpairs : map_to_list (entries_of table) ≡ₚ (λ '(id, r), (id, row_entry id r)) <$> map_to_list table).
  { apply NoDup_Permutation; [apply NoDup_map_to_list| |].
    - apply NoDup_fmap_2_strong; [|apply NoDup_map_to_list].
      intros [i r] [j q] Hi%elem_of_map_to_list Hj%elem_of_map_to_list [= -> _]. congruence.
    - intros [id e]. rewrite elem_of_map_to_list, entries_Some, list_elem_of_fmap. split.
      + intros (r & Hr & ->). exists (id, r). by rewrite elem_of_map_to_list.
      + intros ([i r] & [= -> ->] & Hr%elem_of_map_to_list). eauto. }
  rewrite Hpairs, <- list_fmap_compose. clear. induction (map_to_list table) as [|[i r] l IH]; [done|]. cbn. by constructor.
Qed.

Lemma scanRow_values id r : scanRow (row_values id r) = Some (row_entry id r).
Proof. unfold row_values, row_entry. destruct (row_expires r), (row_revoked r); done. Qed.

Lemma scan_all_values l :
  scan_all ((λ '(id, r), row_values id r) <$> l) = Some ((λ '(id, r), row_entry id r) <$> l).
Proof.
  induction l as [|[id r] l IH]; [done|].
  change (scan_all ((λ '(id, r), row_values id r) <$> (id, r) :: l)) with
    (e ← scanRow (row_values id r); l ← scan_all ((λ '(id, r), row_values id r) <$> l); Some (e :: l)).
  rewrite scanRow_values, IH. done.
Qed.

Lemma microseconds_spec t : (t - Microsecond < microseconds t ≤ t)%Z.
Proof.
  unfold microseconds, Microsecond. pose proof (Z.div_mod t 1000). pose proof (Z.mod_pos_bound t 1000). lia.
Qed.

Lemma microseconds_pos t : (Microsecond ≤ t)%Z → (0 < microseconds t)%Z.
Proof.
  unfold microseconds, Microsecond. intros Ht.
  assert (1 ≤ t / 1000)%Z by (apply Z.div_le_lower_bound; lia). lia.
Qed.
End entries.
