(* ===== verification/PGTokens.v ===== *)
(** What the PostgreSQL token store promises: it implements the interface of
    TokenStore.v, statements that fail included; and a pool in memory for the witnesses. *)
From S2P Require Import Prelude GoStrings TokenStore PGStore.

Section store.
Context {P : Type} `{PGPoolLaws P}.
Implicit Types s : PGTokenStore P.

(** The constraint on the hashes, no expiry that reads back as the zero time, and texts. *)
Definition good_row (id : string) (r : pg_row) : Prop :=
  row_expires r ≠ Some 0%Z ∧ text_ok id = true ∧ text_ok (row_hash r) = true.

Definition good_table (table : gmap string pg_row) : Prop :=
  unique_hashes table ∧ ∀ id r, table !! id = Some r → good_row id r.

Definition pg_tokens s : gmap string TokenEntry := entries_of (pg_table (pool s)).
Definition pg_inv s : Prop := good_table (pg_table (pool s)).
Definition pg_up s : Prop := pg_reliable (pool s).

(** The instants an entry can have: PostgreSQL drops what is below a microsecond. *)
Definition pg_time (t : time) : Prop := t = 0%Z ∨ (Microsecond ≤ t)%Z.

Definition storable_times (e : TokenEntry) : Prop := pg_time (ExpiresAt e) ∧ pg_time (RevokedAt e).

Definition pg_fresh s (e : TokenEntry) : Prop := fresh_token (pg_tokens s) e ∧ storable_times e.

Lemma stored_nullable t : pg_time t →
  (default 0%Z (stored_time (nullableTime t)) = 0%Z ↔ t = 0%Z) ∧
  (t - Microsecond < default 0%Z (stored_time (nullableTime t)) ≤ t)%Z.
Proof.
  unfold nullableTime, IsZero. intros Ht. destruct (Z.eqb_spec t 0) as [->|Hne]; [done|]. cbn.
  destruct Ht as [|Ht]; [done|]. pose proof (microseconds_pos t Ht). pose proof (microseconds_spec t). lia.
Qed.

Lemma inserted_stored_as e :
  pg_time (ExpiresAt e) → pg_time (RevokedAt e) →
  stored_as e (row_entry (ID e) (inserted_row (Name e) (TokenHash e) (CreatedAt e)
    (nullableTime (ExpiresAt e)) (nullableTime (RevokedAt e)))).
Proof.
  intros [Hx0 Hx]%stored_nullable [Hr0 _]%stored_nullable. by split.
Qed.

Lemma revoked_stored_as now id r :
  clock_ok now = true → stored_as (revoked_at now (row_entry id r)) (row_entry id (revoke_row now r)).
Proof.
  intros Hnow. split; cbn; try done; [|unfold Microsecond; lia].
  apply andb_true_iff in Hnow as [_ Hnow%bool_decide_eq_true]. pose proof (microseconds_pos now Hnow).
  unfold Microsecond in *. lia.
Qed.

Lemma good_insert table id r :
  good_table table → no_conflict table id (row_hash r) → good_row id r → good_table (<[id := r]> table).
Proof.
  intros [Hu Hx] [Hid Hh] Hr. split.
  - intros i j x y [[<- <-]|[Hi Hi']]%lookup_insert_Some [[<- <-]|[Hj Hj']]%lookup_insert_Some Heq; [done| | |by eapply Hu].
    + by destruct (Hh j y Hj').
    + by destruct (Hh i x Hi').
  - intros i x [[<- <-]|[_ Hi]]%lookup_insert_Some; [done|by eapply Hx].
Qed.

Lemma good_subset table table' : table' ⊆ table → good_table table → good_table table'.
Proof.
  intros Hsub [Hu Hx]. split; [intros i j x y Hi Hj; apply (Hu i j x y)|intros i x Hi; apply (Hx i)];
    by eapply lookup_weaken.
Qed.

Lemma good_revoke table now id : good_table table → good_table (alter (revoke_row now) id table).
Proof.
  intros [Hu Hx]. assert (Hlook : ∀ i x, alter (revoke_row now) id table !! i = Some x →
    ∃ x', table !! i = Some x' ∧ row_hash x' = row_hash x ∧ row_expires x' = row_expires x).
  { intros i x [(_ & y & Hy & ->)|[_ Hi]]%lookup_alter_Some; eauto. }
  split.
  - intros i j x y (x' & Hi & Hhx & _)%Hlook (y' & Hj & Hhy & _)%Hlook Heq. apply (Hu i j x' y'); [done..|congruence].
  - intros i x (x' & Hi & Hh & He)%Hlook. unfold good_row. rewrite <- Hh, <- He. by eapply Hx.
Qed.

Lemma stored_nullable_nonzero t : pg_time t → stored_time (nullableTime t) ≠ Some 0%Z.
Proof.
  unfold nullableTime, IsZero. intros Ht. destruct (Z.eqb_spec t 0) as [->|Hne]; [done|]. cbn.
  destruct Ht as [|Ht]; [done|]. pose proof (microseconds_pos t Ht). intros [=]. lia.
Qed.

Lemma pg_Save s e err s' :
  pg_inv s → storable_times e → Save s e = (err, s') →
  pg_inv s' ∧ (pg_up s → pg_up s') ∧
  ((∃ e', stored_as e e' ∧ pg_tokens s !! ID e = None ∧ pg_tokens s' = <[ID e := e']> (pg_tokens s)) ∨
   err ≠ None ∧ pg_tokens s' = pg_tokens s).
Proof.
  intros Hinv (Hx & Hr). unfold Save.
  destruct (pg_Exec (pool s) insertSQL _) as [res p'] eqn:He. intros Hret.
  assert (s' = with_pool s p' ∧ (err = None → ∃ n, res = inr n)) as [-> Herr] by (destruct res; simplify_eq; (split; [done|]); [done|eauto]).
  apply pg_insert_spec in He as [Hup Hcase]. unfold pg_inv, pg_tokens, pg_up. cbn [pool with_pool].
  destruct Hcase as [(Hfree & Hid & Hh & ->)|[(msg & ->) ->]].
  - split; [by apply good_insert; [..|split; [by apply stored_nullable_nonzero|]]|]. split; [done|]. left. eexists. split; [by apply inserted_stored_as|].
    split; [by rewrite entries_lookup, (proj1 Hfree)|apply entries_insert].
  - split; [done|]. split; [done|]. right. split; [|done]. intros ?. destruct Herr as [n ?]; done.
Qed.

Lemma pg_GetByHash s hash r s' :
  pg_inv s → GetByHash s hash = (r, s') →
  pg_tokens s' = pg_tokens s ∧ pg_inv s' ∧ (pg_up s → pg_up s') ∧
  (∀ e, r = Some e → ∃ id, pg_tokens s !! id = Some e ∧ TokenHash e = hash) ∧
  (pg_up s → r = None → ∀ id e, pg_tokens s !! id = Some e → TokenHash e ≠ hash).
Proof.
  intros Hinv. unfold GetByHash. destruct (pg_QueryRow (pool s) selectHashSQL [Text hash]) as [res p'] eqn:Hq.
  apply pg_select_hash_spec in Hq as (Htab & Hrow & Hnone & Hup). intros Hret.
  assert (s' = with_pool s p' ∧ r = match res with inr (Some row) => scanRow row | _ => None end) as [-> ->]
    by (destruct res as [|[row|]]; by simplify_eq).
  unfold pg_inv, pg_tokens, pg_up. cbn [pool with_pool]. rewrite Htab. split; [done|]. split; [done|].
  split; [intros Hu; by apply Hup|]. destruct res as [err|[row|]].
  - split; [done|]. intros Hu _ id e (x & Hx & ->)%entries_Some Heq. cbn in Heq. subst hash.
    destruct (proj2 Hinv _ _ Hx) as (_ & _ & Htext). by destruct (proj2 (Hup Hu) Htext).
  - destruct (Hrow row eq_refl) as (id & x & Hx & Hh & ->). rewrite scanRow_values. split; [|done].
    intros e [= <-]. exists id. rewrite entries_lookup, Hx. done.
  - split; [done|]. intros _ _ id e (x & Hx & ->)%entries_Some. by apply (Hnone eq_refl id).
Qed.

Lemma newest_entries (l : list (string * pg_row)) :
  StronglySorted (λ a b, (row_created b.2 ≤ row_created a.2)%Z) l →
  Sorted newer ((λ '(id, r), row_entry id r) <$> l).
Proof.
  intros Hs. apply StronglySorted_Sorted. induction Hs as [|[id r] l Hs IH Hall]; [constructor|].
  cbn. constructor; [done|]. apply Forall_fmap. eapply Forall_impl; [done|]. by intros [id' r'].
Qed.

Lemma sorted_prefix {A} (R : A → A → Prop) (l l' : list A) : l `prefix_of` l' → Sorted R l' → Sorted R l.
Proof. intros [k ->]. induction l as [|a l IH]; [constructor|]. cbn. intros [Hs Hd]%Sorted_inv. constructor; [auto|].
  destruct l; [constructor|]. inversion Hd; subst. by constructor. Qed.

Lemma pg_List s l s' :
  pg_inv s → List s = (l, s') →
  pg_tokens s' = pg_tokens s ∧ pg_inv s' ∧ (pg_up s → pg_up s') ∧ Sorted newer l ∧
  (∀ e, e ∈ l → ∃ id, pg_tokens s !! id = Some e) ∧ (pg_up s → l ≡ₚ (map_to_list (pg_tokens s)).*2).
Proof.
  intros Hinv. unfold List. destruct (pg_Query (pool s) selectAllSQL []) as [res p'] eqn:Hq.
  apply pg_select_all_spec in Hq as (Htab & Hrows & Hup). intros Hret.
  assert (s' = with_pool s p' ∧ l = match res with inr (rows, _) => default [] (scan_all rows) | _ => [] end) as [-> ->]
    by (destruct res as [|[rows err]]; by simplify_eq).
  unfold pg_inv, pg_tokens, pg_up. cbn [pool with_pool]. rewrite Htab. split; [done|]. split; [done|].
  split; [intros Hu; by apply Hup|]. destruct res as [err|[rows err]].
  { split; [constructor|]. split; [set_solver|]. intros Hu. by destruct (Hup Hu) as [_ [? ?]]. }
  destruct (Hrows rows err eq_refl) as (all & Hall & Hsorted & Hprefix & Hfull).
  assert (Hscan : ∃ k, rows = (λ '(id, r), row_values id r) <$> take k all).
  { exists (length rows). destruct Hprefix as [rest Hr]. rewrite fmap_take, Hr. by rewrite take_app_length. }
  destruct Hscan as [k ->]. rewrite scan_all_values. cbn [default from_option].
  split; [|split].
  - apply (sorted_prefix _ _ ((λ '(id, r), row_entry id r) <$> all)); [|by apply newest_entries].
    rewrite fmap_take. apply prefix_take.
  - intros e ([id r] & -> & Hin)%list_elem_of_fmap. exists id.
    apply elem_of_take in Hin as (i & Hi & _). apply list_elem_of_lookup_2 in Hi.
    rewrite Hall, elem_of_map_to_list in Hi. by rewrite entries_lookup, Hi.
  - intros Hu. destruct (Hup Hu) as [_ [rows' [= Hr ->]]]. specialize (Hfull eq_refl).
    rewrite entries_to_list, <- Hall. apply (f_equal scan_all) in Hfull. rewrite !scan_all_values in Hfull.
    injection Hfull as ->. done.
Qed.

Lemma pg_Revoke s now id found s' :
  pg_inv s → clock_ok now = true → Revoke s now id = (found, s') →
  pg_inv s' ∧ (pg_up s → pg_up s') ∧
  ((∃ e e', pg_tokens s !! id = Some e ∧ stored_as (revoked_at now e) e' ∧
      pg_tokens s' = <[id := e']> (pg_tokens s) ∧ (pg_up s → found = true)) ∨
   found = false ∧ pg_tokens s' = pg_tokens s ∧ (pg_up s → pg_tokens s !! id = None)).
Proof.
  intros Hinv Hnow. unfold Revoke. destruct (pg_Exec (pool s) revokeSQL _) as [res p'] eqn:He.
  apply pg_revoke_spec in He as (Htab & Hn & Hup). intros Hret.
  assert (s' = with_pool s p' ∧ found = match res with inr n => (0 <? n)%Z | _ => false end) as [-> ->]
    by (destruct res; by simplify_eq).
  unfold pg_inv, pg_tokens, pg_up. cbn [pool with_pool].
  split; [destruct Htab as [->|[_ ->]]; [by apply good_revoke|done]|]. split; [intros Hu; by apply Hup|].
  destruct (pg_table (pool s) !! id) as [r|] eqn:Hr.
  - pose proof (proj2 Hinv _ _ Hr) as (_ & Htext & _). destruct Htab as [->|[[err ->] ->]].
    + left. exists (row_entry id r), (row_entry id (revoke_row now r)).
      split; [by rewrite entries_lookup, Hr|]. split; [by apply revoked_stored_as|]. split.
      * rewrite <- entries_insert. f_equal. apply map_eq. intros i. destruct (decide (id = i)) as [<-|].
        -- by rewrite lookup_alter_eq, lookup_insert_eq, Hr.
        -- by rewrite lookup_alter_ne, lookup_insert_ne.
      * intros Hu. destruct (proj2 (Hup Hu) Htext) as [n ->]. by rewrite (Hn n eq_refl).
    + right. split; [done|]. split; [done|]. intros Hu. by destruct (proj2 (Hup Hu) Htext).
  - right. split; [destruct res; [done|by rewrite (Hn z eq_refl)]|]. split; [|by rewrite entries_lookup, Hr].
    destruct Htab as [->|[_ ->]]; [|done]. f_equal. apply map_eq. intros i. destruct (decide (id = i)) as [<-|].
    + by rewrite lookup_alter_eq, Hr.
    + by rewrite lookup_alter_ne.
Qed.

Lemma pg_Delete s id found s' :
  pg_inv s → Delete s id = (found, s') →
  pg_inv s' ∧ (pg_up s → pg_up s') ∧
  (is_Some (pg_tokens s !! id) ∧ pg_tokens s' = delete id (pg_tokens s) ∧ (pg_up s → found = true) ∨
   found = false ∧ pg_tokens s' = pg_tokens s ∧ (pg_up s → pg_tokens s !! id = None)).
Proof.
  intros Hinv. unfold Delete. destruct (pg_Exec (pool s) deleteSQL _) as [res p'] eqn:He.
  apply pg_delete_spec in He as (Htab & Hn & Hup). intros Hret.
  assert (s' = with_pool s p' ∧ found = match res with inr n => (0 <? n)%Z | _ => false end) as [-> ->]
    by (destruct res; by simplify_eq).
  unfold pg_inv, pg_tokens, pg_up. cbn [pool with_pool].
  split; [destruct Htab as [->|[_ ->]]; [by eapply good_subset; [apply delete_subseteq|]|done]|].
  split; [intros Hu; by apply Hup|]. destruct (pg_table (pool s) !! id) as [r|] eqn:Hr.
  - pose proof (proj2 Hinv _ _ Hr) as (_ & Htext & _). destruct Htab as [->|[[err ->] ->]].
    + left. split; [rewrite entries_lookup, Hr; by eexists|]. split; [apply entries_delete|].
      intros Hu. destruct (proj2 (Hup Hu) Htext) as [n ->]. by rewrite (Hn n eq_refl).
    + right. split; [done|]. split; [done|]. intros Hu. by destruct (proj2 (Hup Hu) Htext).
  - right. split; [destruct res; [done|by rewrite (Hn z eq_refl)]|]. split; [|by rewrite entries_lookup, Hr].
    destruct Htab as [->|[_ ->]]; [|done]. by rewrite delete_id.
Qed.

Lemma pg_purge s now :
  pg_inv s → let s' := purge_tick s now in
  pg_inv s' ∧ (pg_up s → pg_up s') ∧ lapsed (pg_tokens s) (pg_tokens s') ∧
  ∀ id e, pg_tokens s !! id = Some e → (now ≤ ExpiresAt e)%Z → pg_tokens s' !! id = Some e.
Proof.
  intros Hinv s'. unfold s', purge_tick. destruct (stopped s).
  { split; [done|]. split; [done|]. split; [apply lapsed_refl|done]. }
  unfold purgeExpired. cbn [pool with_pool]. destruct (pg_Exec (pg_at (pool s) now) purgeSQL []) as [res p'] eqn:He.
  apply pg_purge_spec in He as (Htab & Hup). destruct (pg_at_spec (pool s) now) as (Ht & Hn & Hat).
  rewrite Ht, Hn in Htab. unfold pg_inv, pg_tokens, pg_up. cbn [pool with_pool snd].
  split; [destruct Htab as [->|[_ ->]]; [by eapply good_subset; [apply map_filter_subseteq|]|done]|].
  split; [intros Hu; by apply Hup, Hat|]. destruct Htab as [->|[_ ->]]; [|split; [apply lapsed_refl|done]].
  split; [split|].
  - apply map_subseteq_spec. intros id e (r & [Hr _]%map_lookup_filter_Some & ->)%entries_Some. by rewrite entries_lookup, Hr.
  - intros id e (r & Hr & ->)%entries_Some Hnone.
    destruct (row_expired now r) eqn:Hx.
    + unfold row_expired in Hx. cbn. destruct (row_expires r) as [t|] eqn:Ht'; [|done]. cbn.
      intros ->. by destruct (proj2 Hinv id r Hr) as [Hne _].
    + exfalso. rewrite entries_lookup, (proj2 (map_lookup_filter_Some _ _ _ r)) in Hnone; done.
  - intros id e (r & Hr & ->)%entries_Some Hx. rewrite entries_lookup.
    rewrite (proj2 (map_lookup_filter_Some _ _ _ r)); [done|]. split; [done|]. unfold row_expired. cbn in Hx.
    destruct (row_expires r); [|done]. by apply Z.ltb_ge.
Qed.

(** *** The interface *)

#[export] Instance pg_store : TokenStore (PGTokenStore P) := {
  ts_Save := Save;
  ts_GetByHash := GetByHash;
  ts_List := List;
  ts_Revoke := Revoke;
  ts_Delete := Delete;
  ts_Purge := purge_tick;
}.

#[export] Instance pg_store_laws : TokenStoreLaws (PGTokenStore P).
Proof.
  refine {| ts_tokens := pg_tokens; ts_inv := pg_inv; ts_reliable := pg_up; ts_fresh := pg_fresh |}.
  - intros s id e _ (r & _ & ->)%entries_Some. done.
  - intros s id1 id2 e1 e2 [Hu _] (r1 & H1' & ->)%entries_Some (r2 & H2' & ->)%entries_Some Heq. by apply (Hu id1 id2 r1 r2).
  - intros s e _ [Hf _]. done.
  - intros s e err s' Hinv Hf Hs. destruct (pg_Save _ _ _ _ Hinv (proj2 Hf) Hs) as (? & ? & Hcase).
    split; [done|split; [done|]]. exists (pg_tokens s). split; [apply lapsed_refl|]. split; [done|]. naive_solver.
  - intros s hash r s' Hinv Hg. destruct (pg_GetByHash _ _ _ _ Hinv Hg) as (-> & ? & ? & ? & Hn).
    split; [done|split; [auto|split; [apply lapsed_refl|split; [done|]]]]. intros Hu Hr id e He _. by eapply Hn.
  - intros s l s' Hinv Hl. destruct (pg_List _ _ _ Hinv Hl) as (-> & ? & ? & ? & ? & ?).
    split; [done|split; [auto|split; [apply lapsed_refl|auto]]].
  - intros s now id found s' Hinv Hnow Hr. destruct (pg_Revoke _ _ _ _ _ Hinv Hnow Hr) as (? & ? & ?).
    split; [done|split; [done|]]. exists (pg_tokens s). auto using lapsed_refl.
  - intros s id found s' Hinv Hd. destruct (pg_Delete _ _ _ _ Hinv Hd) as (? & ? & ?).
    split; [done|split; [done|]]. exists (pg_tokens s). auto using lapsed_refl.
  - intros s now Hinv. destruct (pg_purge s now Hinv) as (? & ? & ? & Hstay).
    split; [done|split; [done|split; [done|]]]. intros _ id e He Hx. apply Hstay; [done|].
    unfold purge_slack, Millisecond in Hx. lia.
Defined.
(** *** The life of a token *)

Lemma lookup_found s id e hash :
  pg_inv s → pg_up s → pg_tokens s !! id = Some e → TokenHash e = hash → (GetByHash s hash).1 = Some e.
Proof.
  intros Hinv Hup He Hh. destruct (GetByHash s hash) as [r s'] eqn:Hg.
  destruct (pg_GetByHash _ _ _ _ Hinv Hg) as (_ & _ & _ & Hsome & Hnone). cbn.
  destruct r as [e'|]; [|by destruct (Hnone Hup eq_refl id e He)].
  destruct (Hsome e' eq_refl) as (i & Hi & Hhi). f_equal.
  apply entries_Some in Hi as (r1 & Hr1 & ->). apply entries_Some in He as (r2 & Hr2 & ->).
  assert (i = id) as -> by (apply (proj1 Hinv _ _ _ _ Hr1 Hr2); cbn in *; congruence). congruence.
Qed.

Lemma Save_duplicate s x id e :
  pg_tokens s !! id = Some e → ID x = id ∨ TokenHash x = TokenHash e → (Save s x).1 ≠ None.
Proof.
  intros (r & Hr & ->)%entries_Some Hdup. unfold Save. destruct (pg_Exec (pool s) insertSQL _) as [res p'] eqn:He.
  apply pg_insert_spec in He as [_ [([Hid Hh] & _)|[[err ->] _]]]; [|done].
  exfalso. destruct Hdup as [<-|Hdup]; [congruence|]. by apply (Hh id r Hr).
Qed.

(** *** Calls *)

Inductive call :=
  | CallSave (e : TokenEntry)
  | CallGetByHash (hash : string)
  | CallList
  | CallRevoke (now : time) (id : string)
  | CallDelete (id : string)
  | CallPurge (now : time).

Definition after_call s (c : call) : PGTokenStore P :=
  match c with
  | CallSave e => (Save s e).2
  | CallGetByHash hash => (GetByHash s hash).2
  | CallList => (List s).2
  | CallRevoke now id => (Revoke s now id).2
  | CallDelete id => (Delete s id).2
  | CallPurge now => purge_tick s now
  end.

(** Entries that are saved have instants a timestamptz keeps, and the clock is right. *)
Definition call_ok (c : call) : Prop :=
  match c with
  | CallSave e => storable_times e
  | CallRevoke now _ => clock_ok now = true
  | _ => True
  end.

(** The call leaves the entry alone: no revocation, no deletion and no purge after its expiry. *)
Definition spares (e : TokenEntry) (c : call) : Prop :=
  match c with
  | CallRevoke _ id | CallDelete id => id ≠ ID e
  | CallPurge now => ExpiresAt e = 0%Z ∨ (now ≤ ExpiresAt e)%Z
  | _ => True
  end.

(** The call saves no entry with this hash, or with this ID and hash. *)
Definition other_hash (hash : string) (c : call) : Prop :=
  match c with CallSave x => TokenHash x ≠ hash | _ => True end.
Definition other_entry (id hash : string) (c : call) : Prop :=
  match c with CallSave x => ID x ≠ id ∧ TokenHash x ≠ hash | _ => True end.

(** An entry after a call was there before, or the call has saved it or revoked it. *)
Lemma after_call_entries s c :
  pg_inv s → call_ok c →
  pg_inv (after_call s c) ∧
  ∀ id y, pg_tokens (after_call s c) !! id = Some y →
    pg_tokens s !! id = Some y ∨
    (∃ x, c = CallSave x ∧ ID x = id ∧ stored_as x y) ∨
    (∃ now x, c = CallRevoke now id ∧ clock_ok now = true ∧ pg_tokens s !! id = Some x ∧ stored_as (revoked_at now x) y).
Proof.
  intros Hinv Hok. destruct c as [e|hash| |now id|id|now]; cbn [after_call].
  - destruct (Save s e) as [err s'] eqn:Hc. destruct (pg_Save _ _ _ _ Hinv Hok Hc) as (? & _ & Htok).
    split; [done|]. cbn. intros id y. destruct Htok as [(e' & He' & _ & ->)|[_ ->]]; [|by left].
    intros [[<- <-]|[_ ?]]%lookup_insert_Some; eauto 6.
  - destruct (GetByHash s hash) as [r s'] eqn:Hc. destruct (pg_GetByHash _ _ _ _ Hinv Hc) as (Htok & ? & _).
    split; [done|]. cbn. rewrite Htok. by left.
  - destruct (List s) as [l s'] eqn:Hc. destruct (pg_List _ _ _ Hinv Hc) as (Htok & ? & _).
    split; [done|]. cbn. rewrite Htok. by left.
  - destruct (Revoke s now id) as [found s'] eqn:Hc. destruct (pg_Revoke _ _ _ _ _ Hinv Hok Hc) as (? & _ & Htok).
    split; [done|]. cbn. intros i y. destruct Htok as [(x & e' & Hx & He' & -> & _)|(_ & -> & _)]; [|by left].
    intros [[<- <-]|[_ ?]]%lookup_insert_Some; [|by left]. right. right. by exists now, x.
  - destruct (Delete s id) as [found s'] eqn:Hc. destruct (pg_Delete _ _ _ _ Hinv Hc) as (? & _ & Htok).
    split; [done|]. cbn. intros i y. destruct Htok as [(_ & -> & _)|(_ & -> & _)]; [|by left].
    intros [_ ?]%lookup_delete_Some. by left.
  - destruct (pg_purge s now Hinv) as (? & _ & Hl & _). split; [done|]. intros i y Hy. left. by eapply lapsed_lookup.
Qed.

Lemma after_call_spares s c id e :
  pg_inv s → call_ok c → pg_tokens s !! id = Some e → spares e c → pg_tokens (after_call s c) !! id = Some e.
Proof.
  intros Hinv Hok He Hc. assert (Hid : ID e = id) by (by apply entries_Some in He as (? & _ & ->)).
  destruct c as [x|hash| |now i|i|now]; cbn [after_call spares] in *.
  - destruct (Save s x) as [err s'] eqn:Hs. destruct (pg_Save _ _ _ _ Hinv Hok Hs) as (_ & _ & Htok). cbn.
    destruct Htok as [(x' & _ & Hfree & ->)|[_ ->]]; [|done]. rewrite lookup_insert_ne by congruence. done.
  - destruct (GetByHash s hash) as [r s'] eqn:Hs. destruct (pg_GetByHash _ _ _ _ Hinv Hs) as (Htok & _). cbn. by rewrite Htok.
  - destruct (List s) as [l s'] eqn:Hs. destruct (pg_List _ _ _ Hinv Hs) as (Htok & _). cbn. by rewrite Htok.
  - destruct (Revoke s now i) as [found s'] eqn:Hs. destruct (pg_Revoke _ _ _ _ _ Hinv Hok Hs) as (_ & _ & Htok). cbn.
    destruct Htok as [(x & e' & _ & _ & -> & _)|(_ & -> & _)]; [|done]. rewrite lookup_insert_ne by congruence. done.
  - destruct (Delete s i) as [found s'] eqn:Hs. destruct (pg_Delete _ _ _ _ Hinv Hs) as (_ & _ & Htok). cbn.
    destruct Htok as [(_ & -> & _)|(_ & -> & _)]; [|done]. rewrite lookup_delete_ne by congruence. done.
  - destruct (pg_purge s now Hinv) as (_ & _ & Hl & Hstay). destruct Hc as [Hnever|Hc]; [|by apply Hstay].
    destruct (pg_tokens (purge_tick s now) !! id) as [x|] eqn:Hx.
    + apply (lapsed_lookup _ _ _ _ Hl) in Hx. congruence.
    + by destruct (proj2 Hl _ _ He Hx).
Qed.

(** What holds of every entry and is kept by a call is kept by any number of them. *)
Lemma after_calls_keep (Q : PGTokenStore P → Prop) (R : call → Prop) s cs :
  (∀ s c, pg_inv s → call_ok c → R c → Q s → Q (after_call s c)) →
  pg_inv s → Forall call_ok cs → Forall R cs → Q s →
  pg_inv (foldl after_call s cs) ∧ Q (foldl after_call s cs).
Proof.
  intros Hstep. revert s. induction cs as [|c cs IH]; intros s Hinv; [done|].
  intros [Hok Hoks]%Forall_cons [HR HRs]%Forall_cons HQ. cbn [foldl]. apply IH; [by apply after_call_entries|done..|by apply Hstep].
Qed.

Definition revoked_hash (hash : string) s : Prop :=
  ∀ id y, pg_tokens s !! id = Some y → TokenHash y = hash → IsRevoked y = true.

Definition no_entry (id hash : string) s : Prop :=
  ∀ i y, pg_tokens s !! i = Some y → i ≠ id ∧ TokenHash y ≠ hash.

Lemma stored_revoked now x y : clock_ok now = true → stored_as (revoked_at now x) y → IsRevoked y = true.
Proof.
  intros Hnow Hst. unfold IsRevoked, IsZero. apply negb_true_iff, Z.eqb_neq. rewrite (stored_RevokedAt _ _ Hst).
  by apply clock_ok_nonzero.
Qed.

Lemma revoked_hash_step hash s c :
  pg_inv s → call_ok c → other_hash hash c → revoked_hash hash s → revoked_hash hash (after_call s c).
Proof.
  intros Hinv Hok Hc HQ id y Hy Hh. destruct (after_call_entries s c Hinv Hok) as [_ Hent].
  destruct (Hent id y Hy) as [?|[(x & -> & _ & Hst)|(now & x & _ & Hnow & _ & Hst)]]; [by eapply HQ| |by eapply stored_revoked].
  destruct Hc. by rewrite <- (stored_TokenHash _ _ Hst).
Qed.

Lemma no_entry_step id hash s c :
  pg_inv s → call_ok c → other_entry id hash c → no_entry id hash s → no_entry id hash (after_call s c).
Proof.
  intros Hinv Hok Hc HQ i y Hy. destruct (after_call_entries s c Hinv Hok) as [_ Hent].
  destruct (Hent i y Hy) as [?|[(x & -> & <- & Hst)|(now & x & _ & _ & Hx & Hst)]]; [by eapply HQ| |].
  - rewrite (stored_TokenHash _ _ Hst). done.
  - rewrite (stored_TokenHash _ _ Hst). exact (HQ i x Hx).
Qed.

(** An entry that the database holds: lookups and listings show it, Revoke and Delete find it. *)
Lemma held_entry s e :
  pg_inv s → pg_up s → pg_tokens s !! ID e = Some e →
  (GetByHash s (TokenHash e)).1 = Some e ∧ e ∈ (List s).1 ∧
  (∀ now, clock_ok now = true → let revoked := Revoke s now (ID e) in
     revoked.1 = true ∧ revoked_hash (TokenHash e) revoked.2 ∧
     ∃ e2, (GetByHash revoked.2 (TokenHash e)).1 = Some e2) ∧
  (let deleted := Delete s (ID e) in deleted.1 = true ∧ no_entry (ID e) (TokenHash e) deleted.2).
Proof.
  intros Hinv Hup Hin.
  assert (Honly : ∀ i y, pg_tokens s !! i = Some y → TokenHash y = TokenHash e → i = ID e).
  { intros i y (r1 & Hr1 & ->)%entries_Some Hh. apply entries_Some in Hin as (r2 & Hr2 & He).
    apply (proj1 Hinv _ _ _ _ Hr1 Hr2). rewrite He in Hh. exact Hh. }
  split; [by eapply lookup_found|]. split.
  { destruct (List s) as [l s2] eqn:Hl. destruct (pg_List _ _ _ Hinv Hl) as (_ & _ & _ & _ & _ & Hall).
    cbn. rewrite (Hall Hup), list_elem_of_fmap. exists (ID e, e). by rewrite elem_of_map_to_list. }
  split.
  - intros now Hnow. destruct (Revoke s now (ID e)) as [found s2] eqn:Hr. cbn.
    destruct (pg_Revoke _ _ _ _ _ Hinv Hnow Hr) as (Hinv2 & Hup2 & [(x & e2 & Hx & Hst & Htok & Hf)|(_ & _ & Hn)]);
      [|rewrite (Hn Hup) in Hin; done].
    assert (x = e) as -> by congruence. split; [by apply Hf|]. split.
    + intros i y Hy Hh. rewrite Htok in Hy. apply lookup_insert_Some in Hy as [[_ <-]|[Hne Hy]]; [by eapply stored_revoked|].
      by destruct Hne; rewrite (Honly _ _ Hy Hh).
    + exists e2. eapply lookup_found; [done|by apply Hup2|rewrite Htok; apply lookup_insert_eq|].
      rewrite (stored_TokenHash _ _ Hst). done.
  - destruct (Delete s (ID e)) as [found s2] eqn:Hd. cbn.
    destruct (pg_Delete _ _ _ _ Hinv Hd) as (_ & _ & [(_ & Htok & Hf)|(_ & _ & Hn)]); [|rewrite (Hn Hup) in Hin; done].
    split; [by apply Hf|]. intros i y. rewrite Htok. intros [Hne Hy]%lookup_delete_Some. split; [done|].
    intros Hh. by apply Hne; rewrite (Honly _ _ Hy Hh).
Qed.

(** C33: the life of a token in PostgreSQL.  Whatever happens to the statement, a Save that
    reports success stores the entry, up to the microsecond a timestamptz keeps.  From then
    on, after any calls that do not revoke, delete or purge it, failing ones included, as
    soon as the database answers its hash finds it and List shows it, and an entry with the
    same ID or hash is refused; Revoke answers true and makes it revoked, and from then on its
    hash finds no entry that is not revoked, whatever is called but a Save of this hash;
    Delete answers true, and from then on no lookup finds it and no listing shows its ID or
    its hash, whatever is called but a Save of this ID or this hash.  (Entries that are saved have
    no expiry or one after the first microsecond of the year 1, and the clock shows such an instant.) *)
Theorem pg_token_lifecycle s e s1 :
  pg_inv s → pg_fresh s e → Save s e = (None, s1) →
  ∃ e', stored_as e e' ∧ pg_tokens s1 = <[ID e := e']> (pg_tokens s) ∧
  ∀ cs, Forall call_ok cs → Forall (spares e') cs → let s2 := foldl after_call s1 cs in pg_up s2 →
    (GetByHash s2 (TokenHash e)).1 = Some e' ∧ e' ∈ (List s2).1 ∧
    (∀ x, ID x = ID e ∨ TokenHash x = TokenHash e → (Save s2 x).1 ≠ None) ∧
    (∀ now, clock_ok now = true → let revoked := Revoke s2 now (ID e) in
       revoked.1 = true ∧ (∃ e2, (GetByHash revoked.2 (TokenHash e)).1 = Some e2 ∧ IsRevoked e2 = true) ∧
       ∀ cs' y, Forall call_ok cs' → Forall (other_hash (TokenHash e)) cs' →
         (GetByHash (foldl after_call revoked.2 cs') (TokenHash e)).1 = Some y → IsRevoked y = true) ∧
    (let deleted := Delete s2 (ID e) in
       deleted.1 = true ∧
       ∀ cs', Forall call_ok cs' → Forall (other_entry (ID e) (TokenHash e)) cs' →
         let s3 := foldl after_call deleted.2 cs' in
         (GetByHash s3 (TokenHash e)).1 = None ∧ ∀ y, y ∈ (List s3).1 → ID y ≠ ID e ∧ TokenHash y ≠ TokenHash e).
Proof.
  intros Hinv Hfresh Hsave.
  destruct (pg_Save _ _ _ _ Hinv (proj2 Hfresh) Hsave) as (Hinv1 & _ & [(e' & He' & _ & Htok)|[? _]]); [|done].
  exists e'. split; [done|]. split; [done|]. intros cs Hoks Hspares s2 Hup.
  pose proof (stored_ID _ _ He') as Hid. pose proof (stored_TokenHash _ _ He') as Hh. rewrite <- Hid, <- Hh.
  destruct (after_calls_keep (λ s, pg_tokens s !! ID e' = Some e') (spares e') s1 cs) as [Hinv2 Hin];
    [intros; by apply after_call_spares|done..|by rewrite Htok, Hid, lookup_insert_eq|]. fold s2 in Hinv2, Hin.
  destruct (held_entry s2 e' Hinv2 Hup Hin) as (Hget & Hlist & Hrev & Hdel).
  split; [done|]. split; [done|]. split; [intros x; by apply Save_duplicate|]. split.
  - intros now Hnow. destruct (Hrev now Hnow) as (Hfound & Hrevoked & e2 & Hget2). split; [done|].
    assert (Hinv3 : pg_inv (Revoke s2 now (ID e')).2) by exact (proj1 (after_call_entries s2 (CallRevoke now (ID e')) Hinv2 Hnow)).
    assert (Hall : ∀ s3 y, pg_inv s3 → revoked_hash (TokenHash e') s3 → (GetByHash s3 (TokenHash e')).1 = Some y → IsRevoked y = true).
    { intros s3 y Hinv' HQ Hy. destruct (GetByHash s3 (TokenHash e')) as [r s4] eqn:Hg.
      destruct (pg_GetByHash _ _ _ _ Hinv' Hg) as (_ & _ & _ & Hsome & _). destruct (Hsome y Hy) as (i & Hi & Hhy). by eapply HQ. }
    split; [exists e2; split; [done|]; by eapply Hall|]. intros cs' y Hoks' Hother Hy.
    destruct (after_calls_keep (revoked_hash (TokenHash e')) (other_hash (TokenHash e')) _ cs' (revoked_hash_step _) Hinv3 Hoks' Hother Hrevoked).
    by eapply Hall.
  - destruct Hdel as [Hfound Hnone]. split; [done|]. intros cs' Hoks' Hother s3.
    assert (Hinv3 : pg_inv (Delete s2 (ID e')).2) by exact (proj1 (after_call_entries s2 (CallDelete (ID e')) Hinv2 I)).
    destruct (after_calls_keep (no_entry (ID e') (TokenHash e')) (other_entry (ID e') (TokenHash e')) _ cs'
      (no_entry_step _ _) Hinv3 Hoks' Hother Hnone) as [Hinv4 Hno]. fold s3 in Hinv4, Hno. split.
    + destruct (GetByHash s3 (TokenHash e')) as [r s4] eqn:Hg. destruct (pg_GetByHash _ _ _ _ Hinv4 Hg) as (_ & _ & _ & Hsome & _).
      destruct r as [y|]; [|done]. destruct (Hsome y eq_refl) as (i & Hi & Hhy). by destruct (Hno i y Hi).
    + intros y Hy. destruct (List s3) as [l s4] eqn:Hl. destruct (pg_List _ _ _ Hinv4 Hl) as (_ & _ & _ & _ & Hall & _).
      destruct (Hall y Hy) as (i & Hi). assert (ID y = i) as -> by (by apply entries_Some in Hi as (? & _ & ->)). by apply Hno.
Qed.

End store.


(** ** A pool in memory *)

(** [mp_cut] is the number of rows after which a listing breaks off. *)
Record memory_pg := { mp_table : gmap string pg_row; mp_now : time; mp_cut : option nat }.

Definition with_table (p : memory_pg) (t : gmap string pg_row) : memory_pg :=
  {| mp_table := t; mp_now := mp_now p; mp_cut := mp_cut p |}.

Definition newer_row (a b : string * pg_row) : Prop := (row_created b.2 ≤ row_created a.2)%Z.

#[export] Instance newer_row_dec : RelDecision newer_row.
Proof. intros a b. apply Z.le_dec. Defined.

#[export] Instance newer_row_total : Total newer_row.
Proof. intros a b. unfold newer_row. lia. Qed.

#[export] Instance newer_row_trans : Transitive newer_row.
Proof. intros a b c. unfold newer_row. lia. Qed.

Definition conflict (t : gmap string pg_row) (id hash : string) : bool :=
  bool_decide (is_Some (t !! id)) || negb (bool_decide (map_Forall (λ _ r, row_hash r ≠ hash) t)).

Definition affected (t : gmap string pg_row) (id : string) : string + Z := inr (if t !! id then 1 else 0)%Z.

Definition mp_rows (t : gmap string pg_row) : list (list pg_value) :=
  (λ '(id, r), row_values id r) <$> merge_sort newer_row (map_to_list t).

#[export] Instance memory_pool : PGPool memory_pg := {
  pg_Exec p sql args :=
    let t := mp_table p in
    match args with
    | [Text id; Text name; Text hash; Timestamp created; expires; revoked] =>
        if negb (text_ok id && text_ok hash) then (inl "invalid byte sequence for encoding"%string, p)
        else if conflict t id hash then (inl "duplicate key value violates unique constraint"%string, p)
        else (inr 1%Z, with_table p (<[id := inserted_row name hash created expires revoked]> t))
    | [Timestamp now; Text id] => (affected t id, with_table p (alter (revoke_row now) id t))
    | [Text id] => (affected t id, with_table p (delete id t))
    | _ =>
        if String.eqb sql purgeSQL
        then (inr 0%Z, with_table p (filter (λ '(_, r), row_expired (mp_now p) r = false) t))
        else (inr 0%Z, p)
    end;
  pg_QueryRow p sql args :=
    match args with
    | [Text hash] =>
        (inr (head ((λ '(id, r), row_values id r) <$> filter (λ '(_, r), row_hash r = hash) (map_to_list (mp_table p)))), p)
    | _ => (inr None, p)
    end;
  pg_Query p sql args :=
    match mp_cut p with
    | Some n => (inr (take n (mp_rows (mp_table p)), Some "unexpected EOF"%string), p)
    | None => (inr (mp_rows (mp_table p), None), p)
    end;
  pg_at p now := {| mp_table := mp_table p; mp_now := now; mp_cut := mp_cut p |};
}.

Lemma conflict_spec t id hash : conflict t id hash = false ↔ no_conflict t id hash.
Proof.
  unfold conflict, no_conflict.
  by rewrite orb_false_iff, negb_false_iff, bool_decide_eq_false, bool_decide_eq_true, eq_None_not_Some.
Qed.

#[export] Instance memory_pool_laws : PGPoolLaws memory_pg.
Proof.
  refine {| pg_table := mp_table; pg_now := mp_now; pg_reliable p := mp_cut p = None |}; cbn.
  - by intros p res p' [= <- <-].
  - intros p id name hash created expires revoked res p'. destruct (text_ok id && text_ok hash) eqn:Htext; cbn [negb].
    2: { intros [= <- <-]. split; [done|]. right. eauto. }
    apply andb_true_iff in Htext as [? ?]. destruct (conflict (mp_table p) id hash) eqn:Hc; intros [= <- <-].
    + split; [done|]. right. eauto.
    + split; [done|]. left. by apply conflict_spec in Hc.
  - intros p hash res p' [= <- <-]. split; [done|].
    set (l := filter _ (map_to_list (mp_table p))).
    assert (Hl : ∀ id r, (id, r) ∈ l ↔ mp_table p !! id = Some r ∧ row_hash r = hash).
    { intros id r. unfold l. rewrite list_elem_of_filter, elem_of_map_to_list. tauto. }
    split; [|split; [|eauto]].
    + intros row [= Hrow]. destruct l as [|[id r] l']; [done|]. injection Hrow as <-.
      exists id, r. destruct (proj1 (Hl id r)) as [? ?]; [by left|]. done.
    + intros [= Hnone] id r Hr Hh. assert (Hin : (id, r) ∈ l) by by apply Hl.
      destruct l; [by apply not_elem_of_nil in Hin|done].
  - intros p res p' Hq.
    assert (Hp : p' = p) by (destruct (mp_cut p); by simplify_eq). subst p'. split; [done|]. split.
    + intros rows err ->. exists (merge_sort newer_row (map_to_list (mp_table p))).
      split; [apply merge_sort_Permutation|]. split; [apply (StronglySorted_merge_sort newer_row)|].
      destruct (mp_cut p); injection Hq as <- <-; [split; [apply prefix_take|done]|done].
    + intros Hcut. rewrite Hcut in Hq. injection Hq as <-. eauto.
  - intros p now id res p' [= <- <-]. unfold affected. split; [by left|]. split; [by intros n [= <-]|]. eauto.
  - intros p id res p' [= <- <-]. unfold affected. split; [by left|]. split; [by intros n [= <-]|]. eauto.
  - intros p res p' [= <- <-]. split; [by left|]. eauto.
  - done.
Defined.

Definition demo_time : time := 63902908800000000000.

Definition pg_entry (id hash : string) (created : time) : TokenEntry :=
  {| ID := id; Name := "ci"; TokenHash := hash; CreatedAt := created; ExpiresAt := demo_time + Hour; RevokedAt := 0 |}.

Definition empty_pg : PGTokenStore memory_pg :=
  {| pool := {| mp_table := ∅; mp_now := demo_time; mp_cut := None |}; stopped := false |}.

Lemma empty_pg_fresh : pg_fresh empty_pg (pg_entry "a" "h" demo_time).
Proof. split; [by split|]. split; [right; done|by left]. Qed.

(** Another token is saved and revoked in between, and the one of the example deleted. *)
Lemma pg_token_lifecycle_witness :
  let held := foldl after_call (Save empty_pg (pg_entry "a" "h" demo_time)).2
                [CallSave (pg_entry "b" "g" demo_time); CallRevoke demo_time "b"; CallPurge demo_time] in
  (∃ e', (GetByHash held "h").1 = Some e' ∧ e' ∈ (List held).1) ∧
  (∀ y, y ∈ (List (Delete held "a").2).1 → ID y ≠ "a" ∧ TokenHash y ≠ "h") ∧
  (Save held (pg_entry "c" "h" demo_time)).1 ≠ None.
Proof.
  destruct (pg_token_lifecycle empty_pg (pg_entry "a" "h" demo_time) (Save empty_pg (pg_entry "a" "h" demo_time)).2)
    as (e' & He' & _ & Hheld).
  - by split.
  - apply empty_pg_fresh.
  - now vm_compute.
  - destruct (Hheld [CallSave (pg_entry "b" "g" demo_time); CallRevoke demo_time "b"; CallPurge demo_time])
      as (Hget & Hlist & Hdup & _ & _ & Hdel).
    + repeat apply Forall_cons_2; [split; [right; done|by left]|now vm_compute|exact I|apply Forall_nil_2].
    + assert (Hid : ID e' = "a"%string) by apply He'. repeat apply Forall_cons_2; cbn; [exact I|by rewrite Hid| |apply Forall_nil_2].
      right. pose proof (stored_ExpiresAt _ _ He') as Hx. unfold pg_entry, demo_time, Hour, Microsecond in *. cbn in *. lia.
    + now vm_compute.
    + split; [by exists e'|]. split; [exact (proj2 (Hdel [] (Forall_nil_2 _) (Forall_nil_2 _)))|]. apply Hdup. by right.
Defined.

(** A listing that breaks off in the middle is returned as if it were whole. *)
Lemma List_partial :
  let s := {| pool := {| mp_table := pg_table (pool (Save (Save empty_pg (pg_entry "a" "h" 1000000)).2
                                                (pg_entry "b" "g" 2000000)).2);
                         mp_now := demo_time; mp_cut := Some 1%nat |}; stopped := false |} in
  map ID (List s).1 = ["b"%string] ∧ size (pg_tokens s) = 2%nat.
Proof. now vm_compute. Qed.
