(* ===== verification/AnyStore.v ===== *)
(** A value of the interface type TokenStore (internal/auth/token-store.go): the dynamic
    type is one of two implementations, and each method is dispatched on it.  Its laws
    come from those of the implementations, so the theorems about the authentication
    manager hold whatever store the configuration chooses. *)
From S2P Require Import Prelude TokenStore.

Section sum_store.
Context {A B : Type} `{TokenStore A} `{TokenStore B}.

(** A method of the first or of the second implementation. *)
Definition dispatch {R} (f : A → R * A) (g : B → R * B) (t : A + B) : R * (A + B) :=
  match t with
  | inl a => let '(r, a) := f a in (r, inl a)
  | inr b => let '(r, b) := g b in (r, inr b)
  end.

#[export] Instance sum_store : TokenStore (A + B) := {
  ts_Save t e := dispatch (λ a, ts_Save a e) (λ b, ts_Save b e) t;
  ts_GetByHash t h := dispatch (λ a, ts_GetByHash a h) (λ b, ts_GetByHash b h) t;
  ts_List := dispatch ts_List ts_List;
  ts_Revoke t now id := dispatch (λ a, ts_Revoke a now id) (λ b, ts_Revoke b now id) t;
  ts_Delete t id := dispatch (λ a, ts_Delete a id) (λ b, ts_Delete b id) t;
  ts_Purge t now := match t with inl a => inl (ts_Purge a now) | inr b => inr (ts_Purge b now) end;
}.

Lemma dispatch_inv {R} (f : A → R * A) (g : B → R * B) t r t' :
  dispatch f g t = (r, t') →
  (∃ a a', t = inl a ∧ t' = inl a' ∧ f a = (r, a')) ∨ (∃ b b', t = inr b ∧ t' = inr b' ∧ g b = (r, b')).
Proof.
  destruct t as [a|b]; cbn; [destruct (f a) eqn:E|destruct (g b) eqn:E]; intros [= <- <-]; [left|right]; eauto.
Qed.
End sum_store.

#[export] Instance sum_store_laws {A B : Type} `{TokenStoreLaws A} `{TokenStoreLaws B} : TokenStoreLaws (A + B).
Proof.
  refine {|
    ts_tokens t := match t with inl a => ts_tokens a | inr b => ts_tokens b end;
    ts_inv t := match t with inl a => ts_inv a | inr b => ts_inv b end;
    ts_reliable t := match t with inl a => ts_reliable a | inr b => ts_reliable b end;
    ts_fresh t e := match t with inl a => ts_fresh a e | inr b => ts_fresh b e end |}.
  - intros [a|b] id e; apply ts_inv_ID.
  - intros [a|b] id1 id2 e1 e2; apply ts_inv_hash.
  - intros [a|b] e; apply ts_fresh_token.
  - intros t e err t' Hinv Hf Hs. apply dispatch_inv in Hs as [(a & a' & -> & -> & Hs)|(b & b' & -> & -> & Hs)];
      by apply (ts_Save_spec _ _ _ _ Hinv Hf Hs).
  - intros t hash r t' Hinv Hg. apply dispatch_inv in Hg as [(a & a' & -> & -> & Hg)|(b & b' & -> & -> & Hg)];
      apply (ts_GetByHash_spec _ _ _ _ Hinv Hg).
  - intros t l t' Hinv Hl. apply dispatch_inv in Hl as [(a & a' & -> & -> & Hl)|(b & b' & -> & -> & Hl)];
      apply (ts_List_spec _ _ _ Hinv Hl).
  - intros t now id found t' Hinv Hnow Hr. apply dispatch_inv in Hr as [(a & a' & -> & -> & Hr)|(b & b' & -> & -> & Hr)];
      apply (ts_Revoke_spec _ _ _ _ _ Hinv Hnow Hr).
  - intros t id found t' Hinv Hd. apply dispatch_inv in Hd as [(a & a' & -> & -> & Hd)|(b & b' & -> & -> & Hd)];
      apply (ts_Delete_spec _ _ _ _ Hinv Hd).
  - intros [a|b] now Hinv; by apply ts_Purge_spec.
Defined.
