(* ===== verification/Config.v ===== *)
(** The configuration (configs/config.go): sizes with units, the reading of the keys
    through viper, which is the class [Viper], and the validation. *)
From S2P Require Import Prelude GoStrings Errors GoFloat ParseFloat.
From Stdlib Require Import Ascii.

(** ** Data *)

Record CacheConfig := { cache_Enabled : bool; cache_Type : string; cache_TTL : Z }.

Record CompressionConfig := { compression_Enabled : bool }.

(** [size_err] is nil, or the error of parseSize. *)
Record Size := { Bytes : Z; size_raw : string; size_err : option string }.

Record UploadConfig := { MaxSize : Size; MaxEntries : Z; MaxUncompressedSize : Size }.

Record OIDCConfig := {
  Issuer : string;
  ClientID : string;
  ClientSecret : string;
  RedirectURL : string;
  SecureCookies : bool;
}.

Record AuthConfig := { auth_Mode : string; OIDC : OIDCConfig }.

Record TokenStoreConfig := { tokenStore_Mode : string; PostgresURL : string }.

Record Configuration := {
  AppPort : string;
  AdminUser : string;
  AdminPassword : string;
  Secret : string;
  S3Url : string;
  S3Key : string;
  S3Secret : string;
  S3BucketName : string;
  S3Location : string;
  S3SSL : bool;
  EnableMetrics : bool;
  CORSAllowedOrigins : list string;
  RedisURL : string;
  TokenFile : string;
  Cache : CacheConfig;
  Compression : CompressionConfig;
  Auth : AuthConfig;
  TokenStore : TokenStoreConfig;
  Upload : UploadConfig;
}.

(** ** Sizes *)

(** The characters a repetition takes, and the rest. *)
Fixpoint span (p : ascii → bool) (s : string) : string * string :=
  match s with
  | String a s' => if p a then let '(l, r) := span p s' in (String a l, r) else ("", s)
  | "" => ("", "")
  end.

Definition in_range (lo hi : nat) (a : ascii) : bool :=
  (lo <=? nat_of_ascii a)%nat && (nat_of_ascii a <=? hi)%nat.
Definition is_digit : ascii → bool := in_range 48 57.
Definition is_alpha (a : ascii) : bool := in_range 65 90 a || in_range 97 122 a.
(** [\s] of Go's regular expressions. *)
Definition is_space (a : ascii) : bool := bool_decide (nat_of_ascii a ∈ [9; 10; 12; 13; 32]).

Definition skip_spaces (s : string) : string := (span is_space s).2.

Definition take_sign (s : string) : string * string :=
  match s with
  | String a s' => if Ascii.eqb a "+" || Ascii.eqb a "-" then (String a "", s') else ("", s)
  | "" => ("", "")
  end.

(** The two groups of sizePattern; no character of the text is open to two readings. *)
Definition match_size (s : string) : option (string * string) :=
  let '(sign, s) := take_sign (skip_spaces s) in
  let '(int, s) := span is_digit s in
  if String.eqb int "" then None
  else
    let '(frac, s) :=
      match s with
      | String "." s' =>
          let '(digits, rest) := span is_digit s' in
          if String.eqb digits "" then ("", s) else ("." +:+ digits, rest)
      | _ => ("", s)
      end in
    let '(unit, s) := span is_alpha (skip_spaces s) in
    if String.eqb (skip_spaces s) "" then Some (sign +:+ int +:+ frac, unit) else None.

Definition sizeMultipliers : list (string * Z) :=
  [("", 1); ("B", 1);
   ("KB", 2 ^ 10); ("KIB", 2 ^ 10);
   ("MB", 2 ^ 20); ("MIB", 2 ^ 20);
   ("GB", 2 ^ 30); ("GIB", 2 ^ 30);
   ("TB", 2 ^ 40); ("TIB", 2 ^ 40)]%Z.

Definition multiplier (unit : string) : option Z :=
  snd <$> head (filter (λ p, p.1 = ToUpper unit) sizeMultipliers).

(** The float64 value of math.MaxInt64 and of -math.MinInt64. *)
Definition limit64 : float64 := of_Z (2 ^ 63).

Definition parseSize (raw : string) : string + Z :=
  match match_size raw with
  | None => inl ("invalid size " +:+ Quote raw)
  | Some (number, unit) =>
      match multiplier unit with
      | None => inl ("invalid size " +:+ Quote raw)
      | Some m =>
          match ParseFloat number with
          | Some (PFinite neg value) =>
              let bytes := fmul value (of_Z m) in
              if fleb limit64 bytes then inl ("size " +:+ Quote raw +:+ " does not fit in 64 bits")
              else inr (if neg then (- ftrunc bytes)%Z else ftrunc bytes)
          | _ => inl ("invalid size " +:+ Quote raw)
          end
      end
  end.

Definition size_of (raw : string) : Size :=
  match parseSize raw with
  | inl err => {| Bytes := 0; size_raw := raw; size_err := Some err |}
  | inr n => {| Bytes := n; size_raw := raw; size_err := None |}
  end.

Definition sizeProblem (key : string) (size : Size) : string :=
  match size_err size with
  | Some _ => key +:+ " is not a valid size: " +:+ Quote (size_raw size)
  | None =>
      if (Bytes size <=? 0)%Z then key +:+ " must be greater than 0 (got " +:+ pretty (Bytes size) +:+ ")"
      else ""
  end.

(** ** Validation *)

Definition splitOrigins (raw : list string) : list string :=
  flat_map (λ item, filter (λ o, o ≠ "") (map TrimSpace (Split item ","))) raw.

Definition problem_if (b : bool) (problem : string) : list string := if b then [problem] else [].

Definition is_empty (s : string) : bool := String.eqb s "".

Definition q (s : string) : string := String (byte 34) (s +:+ String (byte 34) "").

Definition secret_problems (secret : string) : list string :=
  if is_empty secret then ["secret is not set"]
  else problem_if (String.length secret <? 32)%nat
         ("secret must be at least 32 bytes long (got " +:+ pretty (String.length secret) +:+ ")").

Definition oidc_problems (c : OIDCConfig) : list string :=
  problem_if (is_empty (Issuer c)) ("auth.oidc.issuer is required when auth.mode is " +:+ q "oidc") ++
  problem_if (is_empty (ClientID c)) ("auth.oidc.client_id is required when auth.mode is " +:+ q "oidc") ++
  problem_if (is_empty (RedirectURL c)) ("auth.oidc.redirect_url is required when auth.mode is " +:+ q "oidc").

Definition auth_problems (c : AuthConfig) : list string :=
  if String.eqb (auth_Mode c) "basic" then []
  else if String.eqb (auth_Mode c) "oidc" then oidc_problems (OIDC c)
  else ["auth.mode " +:+ Quote (auth_Mode c) +:+ " is not supported (supported: " +:+ q "basic" +:+ ", "
        +:+ q "oidc" +:+ ")"].

Definition cache_problems (c : CacheConfig) (redis_url : string) : list string :=
  if cache_Enabled c then
    problem_if (negb (String.eqb (cache_Type c) "redis"))
      ("cache.type " +:+ Quote (cache_Type c) +:+ " is not supported (supported: " +:+ q "redis" +:+ ")") ++
    problem_if (is_empty redis_url) "redis_url is required when cache.enabled is true"
  else [].

Definition tokenStore_problems (c : TokenStoreConfig) (redis_url : string) : list string :=
  let mode := tokenStore_Mode c in
  problem_if (negb (String.eqb mode "file") && negb (String.eqb mode "redis") && negb (String.eqb mode "postgres"))
    ("tokenStore.mode " +:+ Quote mode +:+ " is not supported (supported: " +:+ q "file" +:+ ", "
      +:+ q "redis" +:+ ", " +:+ q "postgres" +:+ ")") ++
  problem_if (String.eqb mode "redis" && is_empty redis_url)
    ("redis_url is required when tokenStore.mode is " +:+ q "redis") ++
  problem_if (String.eqb mode "postgres" && is_empty (PostgresURL c))
    ("tokenStore.pg_url is required when tokenStore.mode is " +:+ q "postgres").

Definition upload_problems (u : UploadConfig) : list string :=
  let size_problem key size := let p := sizeProblem key size in problem_if (negb (is_empty p)) p in
  size_problem "upload.max_size" (MaxSize u) ++
  size_problem "upload.max_uncompressed_size" (MaxUncompressedSize u) ++
  problem_if (MaxEntries u <=? 0)%Z
    ("upload.max_entries must be greater than 0 (got " +:+ pretty (MaxEntries u) +:+ ")").

(** The problems of a configuration, in the order in which they are found. *)
Definition problems (c : Configuration) : list string :=
  (if String.eqb (auth_Mode (Auth c)) "basic" then
     problem_if (is_empty (AdminUser c)) "admin.user is not set" ++
     problem_if (is_empty (AdminPassword c)) "admin.password is not set"
   else []) ++
  secret_problems (Secret c) ++
  problem_if (is_empty (S3Url c)) "s3.url is not set" ++
  problem_if (is_empty (S3Key c)) "s3.key is not set" ++
  problem_if (is_empty (S3Secret c)) "s3.secret is not set" ++
  problem_if (is_empty (S3Location c)) "s3.location is not set" ++
  upload_problems (Upload c) ++
  cache_problems (Cache c) (RedisURL c) ++
  tokenStore_problems (TokenStore c) (RedisURL c) ++
  auth_problems (Auth c).

Definition newline : string := String (byte 10) "".

Definition validateConfig (c : Configuration) : option string :=
  match problems c with
  | [] => None
  | [problem] => Some ("configuration is not valid: " +:+ problem)
  | l => Some ("configuration is not valid:" +:+ newline +:+ "  - " +:+ Join l (newline +:+ "  - "))
  end.

(** ** Reading *)

Inductive viper_value := VString (s : string) | VBool (b : bool) | VInt (n : Z) | VStrings (l : list string).

Inductive read_result := ConfigRead | ConfigNotFound | ConfigError (err : string).

(** The calls of the sources to github.com/spf13/viper. *)
Class Viper (V : Type) := {
  BindEnv : V → string → string → V;
  SetDefault : V → string → viper_value → V;
  ReadInConfig : V → read_result * V;
  GetString : V → string → string;
  GetBool : V → string → bool;
  GetInt : V → string → Z;
  GetStringSlice : V → string → list string;
}.

Definition env_bindings : list (string * string) :=
  [("secret", "GIMME_SECRET");
   ("admin.user", "GIMME_ADMIN_USER");
   ("admin.password", "GIMME_ADMIN_PASSWORD");
   ("s3.url", "GIMME_S3_URL");
   ("s3.key", "GIMME_S3_KEY");
   ("s3.secret", "GIMME_S3_SECRET");
   ("s3.bucketName", "GIMME_S3_BUCKETNAME");
   ("s3.location", "GIMME_S3_LOCATION");
   ("s3.ssl", "GIMME_S3_SSL");
   ("cors.allowed_origins", "GIMME_CORS_ALLOWED_ORIGINS");
   ("port", "GIMME_APP_PORT");
   ("metrics", "GIMME_METRICS");
   ("redis_url", "GIMME_REDIS_URL");
   ("token_file", "GIMME_TOKEN_FILE");
   ("cache.enabled", "GIMME_CACHE_ENABLED");
   ("compression.enabled", "GIMME_COMPRESSION_ENABLED");
   ("cache.type", "GIMME_CACHE_TYPE");
   ("cache.ttl", "GIMME_CACHE_TTL");
   ("auth.mode", "GIMME_AUTH_MODE");
   ("auth.oidc.issuer", "GIMME_AUTH_OIDC_ISSUER");
   ("auth.oidc.client_id", "GIMME_AUTH_OIDC_CLIENT_ID");
   ("auth.oidc.client_secret", "GIMME_AUTH_OIDC_CLIENT_SECRET");
   ("auth.oidc.redirect_url", "GIMME_AUTH_OIDC_REDIRECT_URL");
   ("auth.oidc.secure_cookies", "GIMME_AUTH_OIDC_SECURE_COOKIES");
   ("tokenStore.mode", "GIMME_TOKENSTORE_MODE");
   ("tokenStore.pg_url", "GIMME_TOKENSTORE_PG_URL");
   ("upload.max_size", "GIMME_UPLOAD_MAX_SIZE");
   ("upload.max_entries", "GIMME_UPLOAD_MAX_ENTRIES");
   ("upload.max_uncompressed_size", "GIMME_UPLOAD_MAX_UNCOMPRESSED_SIZE")].

Definition defaults : list (string * viper_value) :=
  [("port", VString "8080");
   ("s3.bucketName", VString "gimme");
   ("s3.ssl", VBool true);
   ("metrics", VBool true);
   ("cors.allowed_origins", VStrings []);
   ("redis_url", VString "");
   ("token_file", VString "/tmp/gimme-tokens.enc");
   ("cache.enabled", VBool false);
   ("compression.enabled", VBool true);
   ("cache.type", VString "redis");
   ("cache.ttl", VInt 3600);
   ("auth.mode", VString "basic");
   ("auth.oidc.secure_cookies", VBool true);
   ("tokenStore.mode", VString "file");
   ("upload.max_size", VString "100MB");
   ("upload.max_entries", VInt 10000);
   ("upload.max_uncompressed_size", VString "500MB")].

Section config.
Context {V : Type} `{Viper V}.

Definition readSize (v : V) (key : string) : Size := size_of (GetString v key).

Definition read_configuration (v : V) : Configuration := {|
  AppPort := GetString v "port";
  AdminUser := GetString v "admin.user";
  AdminPassword := GetString v "admin.password";
  Secret := GetString v "secret";
  S3Url := GetString v "s3.url";
  S3Key := GetString v "s3.key";
  S3Secret := GetString v "s3.secret";
  S3BucketName := GetString v "s3.bucketName";
  S3Location := GetString v "s3.location";
  S3SSL := GetBool v "s3.ssl";
  EnableMetrics := GetBool v "metrics";
  CORSAllowedOrigins := splitOrigins (GetStringSlice v "cors.allowed_origins");
  RedisURL := GetString v "redis_url";
  TokenFile := GetString v "token_file";
  Cache := {| cache_Enabled := GetBool v "cache.enabled"; cache_Type := GetString v "cache.type";
              cache_TTL := GetInt v "cache.ttl" |};
  Compression := {| compression_Enabled := GetBool v "compression.enabled" |};
  Auth := {| auth_Mode := GetString v "auth.mode";
             OIDC := {| Issuer := GetString v "auth.oidc.issuer";
                        ClientID := GetString v "auth.oidc.client_id";
                        ClientSecret := GetString v "auth.oidc.client_secret";
                        RedirectURL := GetString v "auth.oidc.redirect_url";
                        SecureCookies := GetBool v "auth.oidc.secure_cookies" |} |};
  TokenStore := {| tokenStore_Mode := GetString v "tokenStore.mode"; PostgresURL := GetString v "tokenStore.pg_url" |};
  Upload := {| MaxSize := readSize v "upload.max_size"; MaxEntries := GetInt v "upload.max_entries";
               MaxUncompressedSize := readSize v "upload.max_uncompressed_size" |};
|}.

Definition NewConfig (v : V) : result Configuration :=
  let v := foldl (λ v '(key, env), BindEnv v key env) v env_bindings in
  let v := foldl (λ v '(key, value), SetDefault v key value) v defaults in
  match ReadInConfig v with
  | (ConfigError _, _) => fail InternalError "unable to read the config file"
  | (_, v) =>
      let config := read_configuration v in
      match validateConfig config with
      | Some err => fail InternalError err
      | None => Ok config
      end
  end.
End config.
