(* ===== verification/ConfigSpec.v ===== *)
(** The theorems about the configuration: sizes are read exactly and fit in 64 bits, and
    a configuration is accepted exactly when it is well formed. *)
From S2P Require Import Prelude GoStrings Errors GoFloat ParseFloat Config.
From Stdlib Require Import Ascii.
Open Scope Z_scope.

(** ** Floats with an integer value *)

Definition exactly (f : float64) (v : Z) : Prop :=
  mant f * 2 ^ Z.max 0 (expo f) = v * 2 ^ Z.max 0 (- expo f).

Lemma exactly_ftrunc f v : exactly f v → ftrunc f = v.
Proof. unfold exactly, ftrunc. intros ->. apply Z.div_mul. pose proof (pow2_pos (- expo f)). lia. Qed.

Lemma exactly_scaled f v c : exactly f v → c ≤ expo f → c ≤ 0 → scaled f c = v * 2 ^ (- c).
Proof.
  unfold exactly, scaled. intros Hv Hc Hc0. destruct (Z.le_ge_cases 0 (expo f)) as [He|He].
  - rewrite Z.max_r, Z.max_l in Hv by lia. rewrite Z.mul_1_r in Hv. rewrite <- Hv, <- Z.mul_assoc, <- pow2_split by lia.
    do 2 f_equal; lia.
  - rewrite Z.max_l, Z.max_r in Hv by lia. rewrite Z.mul_1_r in Hv. rewrite Hv, <- Z.mul_assoc, <- pow2_split by lia.
    do 2 f_equal; lia.
Qed.

Lemma exactly_fleb f g v w : exactly f v → exactly g w → fleb f g = (v <=? w).
Proof.
  intros Hf Hg. set (c := Z.min 0 (common_expo f g)).
  rewrite (fleb_at f g c) by lia. unfold common_expo in c.
  rewrite (exactly_scaled f v c), (exactly_scaled g w c) by (done || lia).
  pose proof (Z.pow_pos_nonneg 2 (- c)).
  destruct (Z.leb_spec v w); [apply Z.leb_le|apply Z.leb_gt]; nia.
Qed.

Lemma lead_exponent_lt num den k :
  0 < num → 0 < den → 0 ≤ k → num < den * 2 ^ k → lead_exponent num den ≤ k - 1.
Proof.
  intros Hn Hd Hk Hlt. unfold lead_exponent.
  assert (Hl : Z.log2 num - Z.log2 den ≤ k).
  { pose proof (Z.log2_le_mono num (den * 2 ^ k)) as Hmono. rewrite Z.log2_mul_pow2 in Hmono by lia. lia. }
  destruct (Z.eq_dec (Z.log2 num - Z.log2 den) k) as [->|Hne]; [|case_goal; lia].
  rewrite Z.max_l, Z.max_r by lia. destruct (Z.ltb_spec (num * 2 ^ 0) (den * 2 ^ k)); lia.
Qed.

Lemma lead_exponent_nonneg n : 0 < n → 0 ≤ lead_exponent n 1.
Proof.
  intros Hn. unfold lead_exponent. rewrite Z.sub_0_r. pose proof (Z.log2_nonneg n). pose proof (Z.log2_spec n Hn).
  rewrite Z.max_l, Z.max_r by lia. destruct (Z.ltb_spec (n * 2 ^ 0) (1 * 2 ^ Z.log2 n)); lia.
Qed.

Lemma div_ne_exact v d : 0 < d → div_ne (v * d) d = v.
Proof. intros Hd. apply Z.le_antisymm; [apply div_ne_le|apply div_ne_ge]; lia. Qed.

(** An integer with 53 significant bits is a float64. *)
Lemma fround_integer num den n k :
  0 < den → 0 ≤ n < 2 ^ 53 → 0 ≤ k → num = n * 2 ^ k * den → exactly (fround num den) (n * 2 ^ k).
Proof.
  intros Hd Hn Hk ->. unfold fround. destruct (Z.eqb_spec (n * 2 ^ k * den) 0) as [Hz|Hz].
  { assert (n * 2 ^ k = 0) as -> by nia. done. }
  pose proof (Z.pow_pos_nonneg 2 k) as Hpk.
  assert (Hlead : lead_exponent (n * 2 ^ k * den) den ≤ 53 + k - 1).
  { apply lead_exponent_lt; [nia|lia|lia|]. rewrite Z.pow_add_r by lia. nia. }
  set (e := last_exponent _ den). assert (He : e ≤ k) by (unfold e, last_exponent; lia).
  set (c := n * 2 ^ (k - Z.max 0 e)).
  assert (Hc : n * 2 ^ k = c * 2 ^ Z.max 0 e).
  { unfold c. rewrite <- Z.mul_assoc, <- pow2_split by lia. do 2 f_equal. lia. }
  unfold exactly. cbn [mant expo]. rewrite Hc.
  replace (c * 2 ^ Z.max 0 e * den * 2 ^ Z.max 0 (- e)) with (c * 2 ^ Z.max 0 (- e) * (den * 2 ^ Z.max 0 e)) by ring.
  rewrite div_ne_exact by (pose proof (pow2_pos e); nia). ring.
Qed.

Lemma of_Z_integer n : 0 ≤ n < 2 ^ 53 → exactly (of_Z n) n.
Proof. intros Hn. pose proof (fround_integer n 1 n 0) as H. rewrite Z.pow_0_r, !Z.mul_1_r in H. apply H; lia. Qed.

Lemma fmul_integer n k : 0 ≤ n < 2 ^ 53 → 0 ≤ k ≤ 52 → exactly (fmul (of_Z n) (of_Z (2 ^ k))) (n * 2 ^ k).
Proof.
  intros Hn Hk. assert (Hm : 0 ≤ 2 ^ k < 2 ^ 53).
  { pose proof (Z.pow_pos_nonneg 2 k). pose proof (Z.pow_lt_mono_r 2 k 53). lia. }
  destruct (of_Z_exact n Hn) as [He Hf], (of_Z_exact (2 ^ k) Hm) as [He' Hf'].
  unfold fmul. rewrite Hf, Hf'. set (a := expo (of_Z n)) in *. set (b := expo (of_Z (2 ^ k))) in *.
  apply fround_integer; [apply pow2_pos|done|lia|].
  rewrite (Z.max_l 0 (a + b)), (Z.max_r 0 (- (a + b))) by lia.
  replace (- (a + b)) with (- a + - b) by lia. rewrite pow2_split by lia. ring.
Qed.

Lemma limit64_exact : exactly limit64 (2 ^ 63).
Proof. done. Qed.

(** ** Numbers *)

Definition digit_of (a : ascii) : Z := Z.of_nat (nat_of_ascii a) - 48.

(** The number that decimal digits write. *)
Fixpoint digits_value (acc : Z) (s : string) : Z :=
  match s with
  | "" => acc
  | String a s => digits_value (acc * 10 + digit_of a) s
  end.

Lemma is_digit_lower a : is_digit a = true → lower_ascii a = a.
Proof.
  unfold is_digit, in_range, lower_ascii. intros [_ ?%Nat.leb_le]%andb_true_iff. cbv zeta.
  destruct (Nat.leb_spec 65 (nat_of_ascii a)); [lia|done].
Qed.

Lemma is_digit_value a : is_digit a = true → digit_value false a = Some (digit_of a) ∧ 0 ≤ digit_of a ≤ 9.
Proof.
  intros Ha. unfold digit_value, digit_of. rewrite (is_digit_lower a Ha).
  unfold is_digit, in_range in Ha. rewrite andb_true_iff, !Nat.leb_le in Ha. cbv zeta. destruct (Z.leb_spec 48 (Z.of_nat (nat_of_ascii a))), (Z.leb_spec (Z.of_nat (nat_of_ascii a)) 57); cbn; split; (done || lia).
Qed.

Lemma is_digit_ne a c : is_digit a = true → is_digit c = false → Ascii.eqb a c = false.
Proof. intros Ha Hc. apply Ascii.eqb_neq. intros ->. congruence. Qed.

Lemma digits_value_mono s acc : str_forall is_digit s = true → 0 ≤ acc → acc ≤ digits_value acc s.
Proof.
  revert acc. induction s as [|a s IH]; intros acc; cbn; [lia|]. intros [Ha Hs]%andb_true_iff Hacc.
  apply is_digit_value in Ha as [_ Ha]. specialize (IH (acc * 10 + digit_of a) Hs). lia.
Qed.

(** The digits read so far write [m_value], without leading zeros. *)
Definition mantissa_ok (m : mantissa) : Prop :=
  m_dot m = false ∧ m_under m = false ∧ 0 ≤ m_nd m ∧
  (m_nd m = 0 ∧ m_value m = 0 ∨ 0 < m_nd m ∧ 10 ^ (m_nd m - 1) ≤ m_value m).

Lemma push_digit_ok m d :
  mantissa_ok m → 0 ≤ d ≤ 9 →
  mantissa_ok (push_digit false m d) ∧ m_digits (push_digit false m d) = true ∧
  m_value (push_digit false m d) = m_value m * 10 + d.
Proof.
  intros (Hdot & Hunder & Hnd & Hcase) Hd. unfold push_digit.
  destruct (Z.eqb_spec d 0) as [->|Hd0], (Z.eqb_spec (m_nd m) 0) as [Hz|Hnz]; cbn [andb].
  - split; [|split; [done|cbn; lia]]. split; [done|]. split; [done|]. cbn. lia.
  - split; [|split; [done|done]]. split; [done|]. split; [done|]. cbn. split; [lia|]. right.
    destruct Hcase as [?|[Hp Hv]]; [lia|]. split; [lia|].
    replace (m_nd m + 1 - 1) with (Z.succ (m_nd m - 1)) by lia. rewrite Z.pow_succ_r by lia. lia.
  - split; [|split; [done|done]]. split; [done|]. split; [done|]. cbn. split; [lia|]. right.
    rewrite Hz. cbn. lia.
  - split; [|split; [done|done]]. split; [done|]. split; [done|]. cbn. split; [lia|]. right.
    destruct Hcase as [?|[Hp Hv]]; [lia|]. split; [lia|].
    replace (m_nd m + 1 - 1) with (Z.succ (m_nd m - 1)) by lia. rewrite Z.pow_succ_r by lia. lia.
Qed.

Lemma read_digits s m :
  str_forall is_digit s = true → mantissa_ok m → (m_digits m = true ∨ s ≠ "") →
  let r := read_mantissa false m s in
  r.2 = "" ∧ mantissa_ok r.1 ∧ m_digits r.1 = true ∧ m_value r.1 = digits_value (m_value m) s.
Proof.
  revert m. induction s as [|a s IH]; intros m Hs Hm Hne.
  { destruct Hne; [|done]. done. }
  cbn [str_forall] in Hs. apply andb_true_iff in Hs as [Ha Hs]. cbn [read_mantissa].
  rewrite (is_digit_ne a "_"), (is_digit_ne a ".") by done.
  destruct (is_digit_value a Ha) as [-> Hd]. destruct (push_digit_ok m (digit_of a) Hm Hd) as (Hok & Hdig & Hval).
  cbn [digits_value]. rewrite <- Hval. apply IH; auto.
Qed.

Lemma ParseFloat_digits s :
  str_forall is_digit s = true → s ≠ "" → digits_value 0 s < 2 ^ 53 →
  ParseFloat s = Some (PFinite false (of_Z (digits_value 0 s))).
Proof.
  intros Hs Hne Hlt. destruct s as [|a s]; [done|].
  pose proof (digits_value_mono (String a s) 0 Hs ltac:(lia)) as Hpos.
  remember (digits_value 0 (String a s)) as n eqn:Hn.
  pose proof Hs as Hs'. cbn [str_forall] in Hs'. apply andb_true_iff in Hs' as [Ha Hrest].
  pose proof (is_digit_lower a Ha) as Hlow.
  assert (Hsign : split_sign (String a s) = (false, String a s)).
  { destruct a as [[] [] [] [] [] [] [] []]; done. }
  assert (Hspecial : special (String a s) = None).
  { unfold special. rewrite Hsign. cbn [str_map]. rewrite Hlow.
    assert (Hno : ∀ c t u, is_digit c = false → String.eqb (String a t) (String c u) = false).
    { intros c t u Hc. apply String.eqb_neq. intros [= -> _]. congruence. }
    by rewrite !Hno. }
  assert (Hhex : split_hex (String a s) = (false, String a s)).
  { destruct s as [|b [|c s]]; [destruct a as [[] [] [] [] [] [] [] []]; done..|].
    cbn [str_forall] in Hrest. apply andb_true_iff in Hrest as [Hb _].
    assert (Hx : Ascii.eqb (lower_ascii b) "x" = false).
    { rewrite (is_digit_lower b Hb). by apply is_digit_ne. }
    unfold split_hex. rewrite Hx. destruct a as [[] [] [] [] [] [] [] []]; done. }
  unfold ParseFloat. rewrite Hspecial, Hsign, Hhex.
  assert (Hm0 : mantissa_ok no_mantissa) by (split; [done|split; [done|split; [done|by left]]]).
  destruct (read_digits (String a s) no_mantissa Hs Hm0 (or_intror Hne)) as (Hr & Hok & Hdig & Hval).
  destruct (read_mantissa false no_mantissa (String a s)) as [m t]. cbn [fst snd] in *. subst t.
  rewrite Hdig. cbn [negb]. destruct Hok as (Hdot & Hunder & Hnd & Hcase). rewrite Hdot, Hunder. cbn -[of_Z].
  change (m_value no_mantissa) with 0 in Hval. rewrite <- Hn in Hval.
  rewrite Z.add_0_r. unfold decimal_value. rewrite Hval. destruct (Z.eqb_spec n 0) as [Hz|Hnz].
  { cbn -[of_Z]. by rewrite Hz. }
  assert (Hnd16 : m_nd m ≤ 16).
  { destruct Hcase as [[_ ?]|[_ Hle]]; [lia|]. destruct (Z.le_gt_cases (m_nd m) 16); [done|].
    pose proof (Z.pow_le_mono_r 10 16 (m_nd m - 1)). lia. }
  destruct (Z.ltb_spec 310 (m_nd m)); [lia|]. destruct (Z.ltb_spec (m_nd m) (-330)); [lia|].
  rewrite Z.sub_diag. change (10 ^ Z.max 0 0) with 1. change (10 ^ Z.max 0 (- 0)) with 1.
  rewrite Z.mul_1_r. fold (of_Z n).
  assert (Hhuge : is_huge (of_Z n) = false).
  { unfold is_huge. destruct (of_Z_exact n) as [He Hf]; [lia|]. rewrite Hf.
    assert (Hlo : - expo (of_Z n) ≤ 52).
    { unfold of_Z, fround. rewrite (proj2 (Z.eqb_neq n 0) Hnz). cbn [expo].
      pose proof (lead_exponent_nonneg n ltac:(lia)). unfold last_exponent. lia. }
    rewrite (Z.max_l 0 (expo (of_Z n))), Z.mul_1_r by lia. apply Z.leb_gt.
    pose proof (Z.pow_le_mono_r 2 (- expo (of_Z n)) 52). pose proof (Z.pow_pos_nonneg 2 (- expo (of_Z n))).
    apply Z.lt_trans with (2 ^ 53 * 2 ^ 52); [nia|done]. }
  rewrite Hhuge. done.
Qed.

(** ** Sizes *)

Definition starts (p : ascii → bool) (s : string) : bool := match s with String a _ => p a | "" => false end.

Lemma span_app p s t : str_forall p s = true → starts p t = false → span p (s +:+ t) = (s, t).
Proof.
  induction s as [|a s IH]; cbn [str_forall]; intros Hs Ht.
  - destruct t as [|a t]; [done|]. rewrite str_app_nil_l. cbn in Ht |- *. by rewrite Ht.
  - apply andb_true_iff in Hs as [Ha Hs]. rewrite str_app_cons. cbn [span]. by rewrite Ha, IH.
Qed.

Lemma starts_app p r s t :
  (∀ a, r a = true → p a = false) → str_forall r s = true → starts p t = false → starts p (s +:+ t) = false.
Proof. intros Hpr Hs Ht. destruct s as [|a s]; [done|]. cbn [str_forall] in Hs. apply andb_true_iff in Hs as [Ha _]. rewrite str_app_cons. by apply Hpr.
Qed.

Lemma class_spec a :
  (is_digit a = true ↔ 48 ≤ Z.of_nat (nat_of_ascii a) ≤ 57) ∧
  (is_alpha a = true ↔ 65 ≤ Z.of_nat (nat_of_ascii a) ≤ 90 ∨ 97 ≤ Z.of_nat (nat_of_ascii a) ≤ 122) ∧
  (is_space a = true → Z.of_nat (nat_of_ascii a) ≤ 32).
Proof.
  unfold is_digit, is_alpha, is_space, in_range. rewrite orb_true_iff, !andb_true_iff, !Nat.leb_le, bool_decide_eq_true.
  rewrite !elem_of_cons, elem_of_nil. lia.
Qed.

Lemma class_disjoint a :
  (is_space a = true → is_digit a = false ∧ is_alpha a = false ∧ Ascii.eqb a "." = false) ∧
  (is_digit a = true → is_space a = false) ∧
  (is_alpha a = true → is_space a = false ∧ is_digit a = false ∧ Ascii.eqb a "." = false).
Proof.
  destruct (class_spec a) as (Hd & Ha & Hs).
  assert (Hdot : Ascii.eqb a "." = true → Z.of_nat (nat_of_ascii a) = 46) by by intros ->%Ascii.eqb_eq.
  rewrite <- !not_true_iff_false, Hd, Ha. split; [|split]; intros H.
  - specialize (Hs H). split; [|split]; [lia|lia|]. intros ?%Hdot. lia.
  - intros ?%Hs. lia.
  - split; [|split]; [intros ?%Hs; lia|lia|]. intros ?%Hdot. lia.
Qed.

Lemma digit_not_space a : is_digit a = true → is_space a = false.
Proof. apply class_disjoint. Qed.

Lemma alpha_not_space a : is_alpha a = true → is_space a = false.
Proof. intros Ha. by apply (proj2 (proj2 (class_disjoint a))). Qed.

Lemma alpha_not_digit a : is_alpha a = true → is_digit a = false.
Proof. intros Ha. by apply (proj2 (proj2 (class_disjoint a))). Qed.

Lemma alpha_not_dot a : is_alpha a = true → Ascii.eqb a "." = false.
Proof. intros Ha. by apply (proj2 (proj2 (class_disjoint a))). Qed.

Lemma space_not_digit a : is_space a = true → is_digit a = false.
Proof. intros Ha. by apply (proj1 (class_disjoint a)). Qed.

Lemma space_not_alpha a : is_space a = true → is_alpha a = false.
Proof. intros Ha. by apply (proj1 (class_disjoint a)). Qed.

Lemma space_not_dot a : is_space a = true → Ascii.eqb a "." = false.
Proof. intros Ha. by apply (proj1 (class_disjoint a)). Qed.

Lemma take_sign_digit s : starts is_digit s = true → take_sign s = ("", s).
Proof.
  destruct s as [|a s]; [done|]. cbn. intros Ha. by rewrite (is_digit_ne a "+"), (is_digit_ne a "-").
Qed.

(** The text of a size without a fraction. *)
Lemma match_size_integer sp1 ds sp2 unit sp3 :
  str_forall is_space sp1 = true → str_forall is_digit ds = true → ds ≠ "" → str_forall is_space sp2 = true →
  str_forall is_alpha unit = true → str_forall is_space sp3 = true →
  match_size (sp1 +:+ (ds +:+ (sp2 +:+ (unit +:+ sp3)))) = Some (ds, unit).
Proof.
  intros H1 Hd Hne H2 Hu H3. unfold match_size, skip_spaces.
  set (rest := sp2 +:+ (unit +:+ sp3)). destruct ds as [|a ds]; [done|].
  pose proof Hd as Hd'. cbn [str_forall] in Hd'. apply andb_true_iff in Hd' as [Ha _].
  rewrite (span_app is_space sp1) by first [done | by apply digit_not_space]. cbn [snd].
  rewrite take_sign_digit by done.
  assert (Hrest : ∀ p, (∀ c, is_space c = true → p c = false) → (∀ c, is_alpha c = true → p c = false) → starts p rest = false).
  { intros p Hsp Hal. unfold rest. apply (starts_app p is_space); [done..|]. apply (starts_app p is_alpha); [done..|].
    rewrite <- (str_app_nil_r sp3). by apply (starts_app p is_space). }
  rewrite span_app by first [done | apply Hrest; auto using space_not_digit, alpha_not_digit].
  change (String.eqb (String a ds) "") with false. cbv iota.
  assert (Hdot : starts (λ c, Ascii.eqb c ".") rest = false) by (apply Hrest; auto using space_not_dot, alpha_not_dot).
  assert (Hfrac : ∀ d, match rest with
    | String "." s' => let '(digits, r) := span is_digit s' in
        if String.eqb digits "" then ("", rest) else ("." +:+ digits, r)
    | _ => d end = d).
  { intros d. destruct rest as [|b r]; [done|]. cbn in Hdot. destruct b as [[] [] [] [] [] [] [] []]; done. }
  rewrite Hfrac. clear Hfrac Hdot Hrest.
  assert (Htail : ∃ s', (span is_space rest).2 = unit +:+ s' ∧ starts is_alpha s' = false ∧ str_forall is_space s' = true).
  { destruct unit as [|b unit].
    - exists "". unfold rest. rewrite str_app_nil_l, <- (str_app_nil_r (sp2 +:+ sp3)), span_app; [done| |done].
      by rewrite str_forall_app, H2, H3.
    - exists sp3. cbn [str_forall] in Hu. apply andb_true_iff in Hu as [Hb Hu]. unfold rest.
      rewrite span_app by first [done | by apply alpha_not_space]. split; [done|]. split; [|done].
      rewrite <- (str_app_nil_r sp3). apply (starts_app _ is_space); [apply space_not_alpha|done|done]. }
  destruct Htail as (s' & -> & Hs' & Hsp). rewrite span_app by done.
  rewrite <- (str_app_nil_r s'), span_app by done. cbn [snd]. change (String.eqb "" "") with true. cbv iota.
  by rewrite str_app_nil_l, str_app_nil_r.
Qed.

Lemma multiplier_power unit m : multiplier unit = Some m → ∃ k, m = 2 ^ k ∧ 0 ≤ k ≤ 40.
Proof.
  unfold multiplier. intros ([u m'] & Hin & ->)%fmap_Some. apply head_Some_elem_of, list_elem_of_filter in Hin as [_ Hin].
  cbn [snd]. unfold sizeMultipliers in Hin. rewrite !elem_of_cons, elem_of_nil in Hin.
  repeat destruct Hin as [[= _ ->]|Hin]; [exists 0|exists 0|exists 10|exists 10|exists 20|exists 20|exists 30|exists 30
    |exists 40|exists 40|done]; (split; [reflexivity|lia]).
Qed.

(** Sizes written as integers are read exactly.  A number of decimal digits below
    2^53, with a unit of the table in any case or none and with spaces around them, is the
    number times the multiplier of the unit, unless this does not fit in a signed 64-bit
    integer, which is reported as an error. *)
Theorem parseSize_integer sp1 ds sp2 unit sp3 m :
  str_forall is_space sp1 = true → str_forall is_digit ds = true → ds ≠ "" → str_forall is_space sp2 = true →
  str_forall is_alpha unit = true → str_forall is_space sp3 = true →
  multiplier unit = Some m → digits_value 0 ds < 2 ^ 53 →
  let raw := sp1 +:+ (ds +:+ (sp2 +:+ (unit +:+ sp3))) in
  parseSize raw =
    if 2 ^ 63 <=? digits_value 0 ds * m then inl ("size " +:+ Quote raw +:+ " does not fit in 64 bits")
    else inr (digits_value 0 ds * m).
Proof.
  intros H1 Hd Hne H2 Hu H3 Hm Hlt raw. unfold parseSize, raw. rewrite match_size_integer, Hm by done.
  rewrite ParseFloat_digits by done. cbv zeta. destruct (multiplier_power unit m Hm) as (k & -> & Hk).
  pose proof (digits_value_mono ds 0 Hd ltac:(lia)).
  pose proof (fmul_integer (digits_value 0 ds) k ltac:(lia) ltac:(lia)) as Hprod.
  rewrite (exactly_fleb _ _ _ _ limit64_exact Hprod). case_match; [done|]. by rewrite (exactly_ftrunc _ _ Hprod).
Qed.

(** *** Bounds *)

Lemma ftrunc_below f : 0 ≤ mant f → fleb limit64 f = false → 0 ≤ ftrunc f < 2 ^ 63.
Proof.
  intros Hm Hle. unfold ftrunc. split; [apply Z.div_pos; [pose proof (pow2_pos (expo f)); nia|apply pow2_pos]|].
  apply Z.div_lt_upper_bound; [apply pow2_pos|].
  set (c := Z.min 0 (common_expo limit64 f)). rewrite (fleb_at limit64 f c) in Hle by lia. unfold common_expo in c.
  rewrite (exactly_scaled limit64 (2 ^ 63) c limit64_exact) in Hle by lia. apply Z.leb_gt in Hle.
  unfold scaled in Hle. destruct (Z.le_ge_cases 0 (expo f)) as [He|He].
  - rewrite Z.max_r, Z.max_l by lia. replace (expo f - c) with (expo f + - c) in Hle by lia.
    rewrite pow2_split in Hle by lia. pose proof (Z.pow_pos_nonneg 2 (- c)). nia.
  - rewrite Z.max_l, Z.max_r by lia. assert (Hlim : 0 ≤ expo limit64) by done.
    replace c with (expo f) in Hle by (unfold c; lia).
    rewrite Z.sub_diag in Hle. lia.
Qed.

Lemma parseSize_range raw n : parseSize raw = inr n → - 2 ^ 63 < n < 2 ^ 63.
Proof.
  unfold parseSize. destruct (match_size raw) as [[number unit]|]; [|done].
  destruct (multiplier unit) as [m|] eqn:Hm; [|done]. destruct (ParseFloat number) as [[neg f|neg|]|] eqn:Hf; try done.
  cbv zeta. destruct (fleb limit64 (fmul f (of_Z m))) eqn:Hle; [done|].
  destruct (multiplier_power unit m Hm) as (k & -> & Hk). apply ParseFloat_nonneg in Hf. unfold nonneg in Hf.
  assert (Hmant : 0 ≤ mant (fmul f (of_Z (2 ^ k)))).
  { unfold fmul. apply fround_nonneg; [|apply pow2_pos].
    assert (0 ≤ mant (of_Z (2 ^ k))) by (apply fround_nonneg; [apply Z.pow_nonneg|]; lia).
    pose proof (pow2_pos (expo f + expo (of_Z (2 ^ k)))). nia. }
  pose proof (ftrunc_below _ Hmant Hle). intros [= <-]. destruct neg; lia.
Qed.

(** Whatever the text, a size that is read fits in a signed 64-bit integer, strictly
    between the two limits, so that its conversion from a float64 is defined. *)
Theorem parseSize_bounds raw n : parseSize raw = inr n → - 2 ^ 63 < n < 2 ^ 63.
Proof. apply parseSize_range. Qed.

Close Scope Z_scope.

(** ** Validation *)

Definition size_ok (s : Size) : Prop := size_err s = None ∧ (0 < Bytes s)%Z.

(** A configuration the server can run with. *)
Record well_formed (c : Configuration) : Prop := {
  wf_secret : 32 ≤ String.length (Secret c);
  wf_s3 : S3Url c ≠ "" ∧ S3Key c ≠ "" ∧ S3Secret c ≠ "" ∧ S3Location c ≠ "";
  wf_sizes : size_ok (MaxSize (Upload c)) ∧ size_ok (MaxUncompressedSize (Upload c));
  wf_entries : (0 < MaxEntries (Upload c))%Z;
  wf_cache : cache_Enabled (Cache c) = true → cache_Type (Cache c) = "redis" ∧ RedisURL c ≠ "";
  wf_store :
    let mode := tokenStore_Mode (TokenStore c) in
    mode = "file" ∨ mode = "redis" ∧ RedisURL c ≠ "" ∨ mode = "postgres" ∧ PostgresURL (TokenStore c) ≠ "";
  wf_auth :
    let mode := auth_Mode (Auth c) in
    let o := OIDC (Auth c) in
    mode = "basic" ∧ AdminUser c ≠ "" ∧ AdminPassword c ≠ "" ∨
    mode = "oidc" ∧ Issuer o ≠ "" ∧ ClientID o ≠ "" ∧ RedirectURL o ≠ "";
}.

Lemma problem_if_nil b p : problem_if b p = [] ↔ b = false.
Proof. by destruct b. Qed.

Lemma is_empty_false s : is_empty s = false ↔ s ≠ "".
Proof. apply String.eqb_neq. Qed.

Lemma secret_problems_nil s : secret_problems s = [] ↔ 32 ≤ String.length s.
Proof.
  unfold secret_problems, is_empty. destruct (String.eqb_spec s "") as [->|Hne].
  - split; [done|cbn; lia].
  - rewrite problem_if_nil, Nat.ltb_ge. done.
Qed.

Lemma sizeProblem_nil key size : sizeProblem key size = "" ↔ size_ok size.
Proof.
  unfold sizeProblem, size_ok. destruct (size_err size) as [err|].
  - rewrite str_app_eq_nil, str_app_eq_nil. split; [by intros (_ & ? & _)|by intros []].
  - destruct (Z.leb_spec (Bytes size) 0); rewrite ?str_app_eq_nil.
    + split; [by intros (_ & ? & _)|intros []; lia].
    + done.
Qed.

Lemma upload_problems_nil u :
  upload_problems u = [] ↔ (size_ok (MaxSize u) ∧ size_ok (MaxUncompressedSize u)) ∧ (0 < MaxEntries u)%Z.
Proof.
  unfold upload_problems. rewrite !app_nil, !problem_if_nil, !negb_false_iff, Z.leb_gt.
  unfold is_empty. rewrite !String.eqb_eq, !sizeProblem_nil. tauto.
Qed.

Lemma cache_problems_nil c url :
  cache_problems c url = [] ↔ (cache_Enabled c = true → cache_Type c = "redis" ∧ url ≠ "").
Proof.
  unfold cache_problems. destruct (cache_Enabled c); [|done].
  rewrite app_nil, !problem_if_nil, is_empty_false, negb_false_iff, String.eqb_eq. tauto.
Qed.

Lemma tokenStore_problems_nil c url :
  tokenStore_problems c url = [] ↔
  tokenStore_Mode c = "file" ∨ tokenStore_Mode c = "redis" ∧ url ≠ "" ∨
  tokenStore_Mode c = "postgres" ∧ PostgresURL c ≠ "".
Proof.
  unfold tokenStore_problems. rewrite !app_nil, !problem_if_nil, !andb_false_iff, !negb_false_iff, !is_empty_false.
  rewrite !String.eqb_eq, !String.eqb_neq. split; [naive_solver|].
  intros [->|[[-> ?]|[-> ?]]]; naive_solver.
Qed.

Lemma auth_problems_nil c :
  auth_problems c = [] ↔ auth_Mode c = "basic" ∨
    auth_Mode c = "oidc" ∧ Issuer (OIDC c) ≠ "" ∧ ClientID (OIDC c) ≠ "" ∧ RedirectURL (OIDC c) ≠ "".
Proof.
  unfold auth_problems. destruct (String.eqb_spec (auth_Mode c) "basic") as [->|Hb]; [tauto|].
  destruct (String.eqb_spec (auth_Mode c) "oidc") as [->|Ho].
  - unfold oidc_problems. rewrite !app_nil, !problem_if_nil, !is_empty_false. naive_solver.
  - split; [done|]. naive_solver.
Qed.

Lemma problems_nil c : problems c = [] ↔ well_formed c.
Proof.
  unfold problems. rewrite !app_nil, !problem_if_nil, !is_empty_false, secret_problems_nil, upload_problems_nil,
    cache_problems_nil, tokenStore_problems_nil, auth_problems_nil.
  destruct (String.eqb_spec (auth_Mode (Auth c)) "basic") as [Hb|Hb].
  - rewrite app_nil, !problem_if_nil, !is_empty_false. split.
    + intros ((? & ?) & ? & ? & ? & ? & ? & (? & ?) & ? & ? & _). split; auto.
    + intros [? (? & ? & ? & ?) ? ? ? ? [(_ & ? & ?)|(Ho & _)]]; [tauto|congruence].
  - split.
    + intros (_ & ? & ? & ? & ? & ? & (? & ?) & ? & ? & [?|?]); [done|]. split; auto.
    + intros [? (? & ? & ? & ?) ? ? ? ? [(? & _)|?]]; [done|]. tauto.
Qed.

Lemma validateConfig_None c : validateConfig c = None ↔ problems c = [].
Proof. unfold validateConfig. by destruct (problems c) as [|p [|p' l]]. Qed.

Lemma Join_elem (l : list string) sep p : p ∈ l → ∃ a b, Join l sep = a +:+ (p +:+ b).
Proof.
  induction l as [|x l IH]; [by intros ?%elem_of_nil|]. intros [->|Hp]%elem_of_cons.
  - destruct l as [|y l]; [exists "", ""; by rewrite str_app_nil_l, str_app_nil_r|].
    exists "", (sep +:+ Join (y :: l) sep). by rewrite Join_cons_cons, str_app_nil_l.
  - destruct (IH Hp) as (a & b & Heq). destruct l as [|y l]; [by apply elem_of_nil in Hp|].
    exists (x +:+ (sep +:+ a)), b. by rewrite Join_cons_cons, Heq, !str_app_assoc.
Qed.

(** C34: validateConfig accepts exactly the well-formed configurations: a secret of at
    least 32 bytes, the S3 settings, sizes that were read and are positive, at least one
    entry, a Redis URL for a cache or token store in Redis, a URL for one in PostgreSQL,
    and the credentials of the chosen authentication.  The error for the others
    shows every one of the problems that its checks find. *)
Theorem validateConfig_exact c :
  (validateConfig c = None ↔ well_formed c) ∧
  ∀ msg problem, validateConfig c = Some msg → problem ∈ problems c →
    ∃ before after, msg = before +:+ (problem +:+ after).
Proof.
  split; [by rewrite validateConfig_None, problems_nil|]. intros msg p Hmsg Hp. unfold validateConfig in Hmsg.
  destruct (problems c) as [|p1 [|p2 l]]; [done| |].
  - injection Hmsg as <-. apply list_elem_of_singleton in Hp as ->. exists "configuration is not valid: ", "".
    by rewrite str_app_nil_r.
  - assert (Hm : msg = "configuration is not valid:" +:+ newline +:+ "  - " +:+ Join (p1 :: p2 :: l) (newline +:+ "  - "))
      by congruence.
    destruct (Join_elem _ (newline +:+ "  - ") p Hp) as (a & b & Heq). rewrite Hm, Heq.
    exists ("configuration is not valid:" +:+ (newline +:+ ("  - " +:+ a))), b. by rewrite !str_app_assoc.
Qed.

Lemma NewConfig_well_formed {V} `{Viper V} (v : V) c : NewConfig v = Ok c → well_formed c.
Proof.
  unfold NewConfig. cbv zeta.
  match goal with |- context [ReadInConfig ?x] => destruct (ReadInConfig x) as [[| |err] v'] end; [..|done].
  all: destruct (validateConfig (read_configuration v')) as [msg|] eqn:Hv; [done|].
  all: intros [= <-]; by apply problems_nil, validateConfig_None.
Qed.

(** A configuration that NewConfig returns is well formed, its size limits are the
    texts of the configuration read as sizes, and they fit in 64 bits; when NewConfig
    fails, the configuration read is not well formed or the file could not be read. *)
Theorem NewConfig_sound {V} `{Viper V} (v : V) (r : result Configuration) :
  NewConfig v = r →
  match r with
  | Ok c => well_formed c ∧ ∃ v', c = read_configuration v' ∧
      parseSize (GetString v' "upload.max_size") = inr (Bytes (MaxSize (Upload c))) ∧
      parseSize (GetString v' "upload.max_uncompressed_size") = inr (Bytes (MaxUncompressedSize (Upload c))) ∧
      (0 < Bytes (MaxSize (Upload c)) < 2 ^ 63)%Z ∧ (0 < Bytes (MaxUncompressedSize (Upload c)) < 2 ^ 63)%Z
  | Fail e => Kind e = InternalError ∧
      (Error e = "unable to read the config file" ∨
       ∃ v', ¬ well_formed (read_configuration v') ∧ validateConfig (read_configuration v') = Some (Error e))
  end.
Proof.
  intros <-. unfold NewConfig. cbv zeta.
  match goal with |- context [ReadInConfig ?x] => destruct (ReadInConfig x) as [res v'] end.
  assert (Hread : ∀ c, validateConfig c = None → c = read_configuration v' →
    well_formed c ∧ ∃ v', c = read_configuration v' ∧
      parseSize (GetString v' "upload.max_size") = inr (Bytes (MaxSize (Upload c))) ∧
      parseSize (GetString v' "upload.max_uncompressed_size") = inr (Bytes (MaxUncompressedSize (Upload c))) ∧
      (0 < Bytes (MaxSize (Upload c)) < 2 ^ 63)%Z ∧ (0 < Bytes (MaxUncompressedSize (Upload c)) < 2 ^ 63)%Z).
  { intros c Hnone Hc. apply validateConfig_None, problems_nil in Hnone as Hwf. split; [done|]. exists v'.
    split; [done|]. subst c. destruct (wf_sizes _ Hwf) as [[E1 B1] [E2 B2]]. cbn in *. unfold readSize, size_of in *.
    destruct (parseSize (GetString v' "upload.max_size")) as [|n1] eqn:P1; [done|].
    destruct (parseSize (GetString v' "upload.max_uncompressed_size")) as [|n2] eqn:P2; [done|].
    cbn [Bytes] in *. split; [done|]. split; [done|]. apply parseSize_range in P1, P2. lia. }
  destruct res; [| |split; [done|by left]].
  all: destruct (validateConfig (read_configuration v')) as [msg|] eqn:Hv; [|by apply Hread].
  all: split; [done|right]; exists v'; (split; [|done]); intros Hwf; apply problems_nil, validateConfig_None in Hwf; congruence.
Qed.

(** ** Concrete configurations *)

(** Viper over the environment and the defaults, without a configuration file. *)
Record memory_viper := {
  vm_env : list (string * string);
  vm_bound : list (string * string);
  vm_defaults : list (string * viper_value);
}.

Definition assoc {A} (k : string) (l : list (string * A)) : option A := snd <$> head (filter (λ p, p.1 = k) l).

Definition vm_value (v : memory_viper) (key : string) : option viper_value :=
  match assoc key (vm_bound v) ≫= λ env, assoc env (vm_env v) with
  | Some s => Some (VString s)
  | None => assoc key (vm_defaults v)
  end.

#[export] Instance memory_viper_ops : Viper memory_viper := {
  BindEnv v key env := {| vm_env := vm_env v; vm_bound := (key, env) :: vm_bound v; vm_defaults := vm_defaults v |};
  SetDefault v key value := {| vm_env := vm_env v; vm_bound := vm_bound v; vm_defaults := (key, value) :: vm_defaults v |};
  ReadInConfig v := (ConfigNotFound, v);
  GetString v key := match vm_value v key with Some (VString s) => s | _ => "" end;
  GetBool v key := match vm_value v key with Some (VBool b) => b | Some (VString s) => String.eqb s "true" | _ => false end;
  GetInt v key := match vm_value v key with Some (VInt n) => n | _ => 0%Z end;
  GetStringSlice v key := match vm_value v key with Some (VStrings l) => l | Some (VString s) => [s] | _ => [] end;
}.

Definition demo_env : memory_viper := {|
  vm_env := [("GIMME_SECRET", "0123456789abcdef0123456789abcdef"); ("GIMME_ADMIN_USER", "gimme");
             ("GIMME_ADMIN_PASSWORD", "gimme"); ("GIMME_S3_URL", "s3.local"); ("GIMME_S3_KEY", "key");
             ("GIMME_S3_SECRET", "secret"); ("GIMME_S3_LOCATION", "eu-west-1"); ("GIMME_UPLOAD_MAX_SIZE", " 1.5 GiB")];
  vm_bound := []; vm_defaults := [] |}.

Definition empty_viper : memory_viper := {| vm_env := []; vm_bound := []; vm_defaults := [] |}.

Definition demo_config : Configuration :=
  match NewConfig demo_env with Ok c => c | Fail _ => read_configuration demo_env end.

Lemma parseSize_integer_witness :
  parseSize " 100 mb" = inr 104857600%Z ∧ parseSize "8388608TB" = inl ("size " +:+ Quote "8388608TB" +:+ " does not fit in 64 bits").
Proof.
  split.
  - exact (parseSize_integer " " "100" " " "mb" "" (2 ^ 20) eq_refl eq_refl ltac:(done) eq_refl eq_refl eq_refl
      ltac:(now vm_compute) ltac:(now vm_compute)).
  - exact (parseSize_integer "" "8388608" "" "TB" "" (2 ^ 40) eq_refl eq_refl ltac:(done) eq_refl eq_refl eq_refl
      ltac:(now vm_compute) ltac:(now vm_compute)).
Defined.

Lemma parseSize_bounds_witness : parseSize "8388607TB" = inr 9223370937343148032%Z ∧ (9223370937343148032 < 2 ^ 63)%Z.
Proof. split; [now vm_compute|]. apply (parseSize_bounds "8388607TB"). now vm_compute. Defined.

Lemma validateConfig_exact_witness :
  validateConfig demo_config = None ∧ well_formed demo_config ∧
  ∃ before after, default "" (validateConfig (read_configuration empty_viper)) =
    before +:+ ("secret is not set" +:+ after).
Proof.
  pose proof (validateConfig_exact demo_config) as [Hiff _].
  pose proof (validateConfig_exact (read_configuration empty_viper)) as [_ Hshown].
  assert (Hnone : validateConfig demo_config = None) by now vm_compute.
  split; [exact Hnone|]. split; [exact (proj1 Hiff Hnone)|].
  apply Hshown; [now vm_compute|]. apply list_elem_of_In. vm_compute. tauto.
Defined.

Lemma NewConfig_sound_witness :
  well_formed demo_config ∧ (0 < Bytes (MaxSize (Upload demo_config)))%Z.
Proof.
  destruct (NewConfig_sound demo_env (Ok demo_config)) as (Hwf & _ & _ & _ & _ & Hsize & _).
  - now vm_compute.
  - split; [exact Hwf|apply Hsize].
Defined.
