(* ===== verification/GoUrl.v ===== *)
(** What the program uses of net/url and strconv: the escaping of path segments and
    query values, the parsing of a query, and Atoi. *)
From S2P Require Import Prelude GoStrings.
From Stdlib Require Import Ascii.

(** ** Escaping *)

Definition upper_hex (n : nat) : ascii := byte (if (n <? 10)%nat then 48 + n else 55 + n).

(** Letters, digits and "-_.~". *)
Definition unreserved (a : ascii) : bool :=
  let n := nat_of_ascii a in
  (((48 <=? n) && (n <=? 57)) || ((65 <=? n) && (n <=? 90)) || ((97 <=? n) && (n <=? 122)))%nat
  || Contains "-_.~" a.

Definition path_segment_safe (a : ascii) : bool := unreserved a || Contains "$&+:=@" a.

Definition percent (a : ascii) : string :=
  let n := nat_of_ascii a in
  String "%" (String (upper_hex (n / 16)) (String (upper_hex (n mod 16)) "")).

Definition PathEscape_char (a : ascii) : string :=
  if path_segment_safe a then String a "" else percent a.

Definition QueryEscape_char (a : ascii) : string :=
  if unreserved a then String a "" else if Ascii.eqb a " " then "+" else percent a.

Fixpoint escape (f : ascii → string) (s : string) : string :=
  match s with
  | "" => ""
  | String a s => f a +:+ escape f s
  end.

Definition PathEscape (s : string) : string := escape PathEscape_char s.
Definition QueryEscape (s : string) : string := escape QueryEscape_char s.

(** ** Unescaping *)

Definition unhex (a : ascii) : option nat :=
  let n := nat_of_ascii a in
  if ((48 <=? n) && (n <=? 57))%nat then Some (n - 48)
  else if ((65 <=? n) && (n <=? 70))%nat then Some (n - 55)
  else if ((97 <=? n) && (n <=? 102))%nat then Some (n - 87)
  else None.

(** [None] is an error; a "+" is a space in a query only. *)
Fixpoint unescape (plus : bool) (s : string) : option string :=
  match s with
  | "" => Some ""
  | String a s' =>
      if Ascii.eqb a "%" then
        match s' with
        | String h (String l s'') =>
            h ← unhex h; l ← unhex l; String (byte (h * 16 + l)) <$> unescape plus s''
        | _ => None
        end
      else
        String (if plus && Ascii.eqb a "+" then " "%char else a) <$> unescape plus s'
  end.

Definition PathUnescape (s : string) : option string := unescape false s.
Definition QueryUnescape (s : string) : option string := unescape true s.

(** One part of a query; [url.ParseQuery] skips the parts it cannot read. *)
Definition query_part (part : string) : option (string * string) :=
  if Contains part ";" || String.eqb part "" then None
  else
    let '(key, value, _) := Cut part "=" in
    key ← QueryUnescape key; value ← QueryUnescape value; Some (key, value).

Definition ParseQuery (query : string) : list (string * string) :=
  omap query_part (Split query "&").

(** The first value of a key, or the empty string: [c.Query(key)]. *)
Definition query_get (query key : string) : string :=
  default "" (snd <$> head (filter (λ kv, kv.1 = key) (ParseQuery query))).

(** ** strconv.Atoi, strconv.Itoa *)

Definition digit (a : ascii) : option Z :=
  let n := Z.of_nat (nat_of_ascii a) in
  if ((48 <=? n) && (n <=? 57))%Z then Some (n - 48)%Z else None.

Fixpoint digits_value (acc : Z) (s : string) : option Z :=
  match s with
  | "" => Some acc
  | String a s => d ← digit a; digits_value (acc * 10 + d) s
  end.

Definition unsigned_value (s : string) : option Z :=
  if String.eqb s "" then None else digits_value 0 s.

(** [None] for a syntax error and for a number outside int64. *)
Definition Atoi (s : string) : option Z :=
  n ← match s with
      | String a s' =>
          if Ascii.eqb a "-" then Z.opp <$> unsigned_value s'
          else if Ascii.eqb a "+" then unsigned_value s'
          else unsigned_value s
      | "" => None
      end;
  if bool_decide (- 2 ^ 63 ≤ n < 2 ^ 63)%Z then Some n else None.

Definition Itoa (n : nat) : string := pretty n.

(** ** Lemmas *)

Lemma escape_app f s t : escape f (s +:+ t) = escape f s +:+ escape f t.
Proof. induction s as [|a s IH]; [done|]. rewrite str_app_cons. cbn [escape]. by rewrite IH, str_app_assoc. Qed.

(** A fact on every character, by computation. *)
Lemma ascii_forall (P : ascii → bool) :
  forallb (λ n, P (ascii_of_nat n)) (seq 0 256) = true → ∀ a, P a = true.
Proof.
  intros Hall a. rewrite <- (ascii_nat_embedding a). rewrite forallb_forall in Hall.
  apply Hall, in_seq. pose proof (nat_ascii_bounded a). lia.
Qed.

Definition unescapes_char (plus : bool) (f : ascii → string) (a : ascii) : bool :=
  match f a with
  | String b "" => negb (Ascii.eqb b "%") && Ascii.eqb (if plus && Ascii.eqb b "+" then " "%char else b) a
  | String p (String h (String l "")) =>
      Ascii.eqb p "%" &&
      match unhex h, unhex l with
      | Some h, Some l => Ascii.eqb (byte (h * 16 + l)) a
      | _, _ => false
      end
  | _ => false
  end.

Lemma unescape_char plus f a s :
  unescapes_char plus f a = true → unescape plus (f a +:+ s) = String a <$> unescape plus s.
Proof.
  unfold unescapes_char. destruct (f a) as [|b [|h [|l [|? ?]]]]; try done.
  - intros Hb. bool_hyps. rewrite str_app_cons, str_app_nil_l. cbn [unescape].
    destruct (Ascii.eqb b "%"); [done|]. f_equal. f_equal. by apply Ascii.eqb_eq.
  - intros Hb. apply andb_true_iff in Hb as [Hp Hb]. rewrite !str_app_cons, str_app_nil_l.
    cbn [unescape]. rewrite Hp. destruct (unhex h) as [x|]; [|done]. destruct (unhex l) as [y|]; [|done].
    cbn [mbind option_bind]. apply Ascii.eqb_eq in Hb. by rewrite Hb.
Qed.

Lemma unescape_escape plus f s :
  (∀ a, unescapes_char plus f a = true) → unescape plus (escape f s) = Some s.
Proof.
  intros Hf. induction s as [|a s IH]; [done|]. cbn [escape]. by rewrite unescape_char, IH.
Qed.

Lemma PathUnescape_PathEscape s : PathUnescape (PathEscape s) = Some s.
Proof. apply unescape_escape, ascii_forall. now vm_compute. Qed.

Lemma QueryUnescape_QueryEscape s : QueryUnescape (QueryEscape s) = Some s.
Proof. apply unescape_escape, ascii_forall. now vm_compute. Qed.

(** The characters an escaped text is made of. *)
Lemma escape_char_free c f s :
  (∀ a, char_free c (f a) = true) → char_free c (escape f s) = true.
Proof.
  intros Hf. induction s as [|a s IH]; [done|]. cbn [escape]. apply char_free_app. split; [apply Hf|exact IH].
Qed.

Lemma QueryEscape_free c s :
  c = "&"%char ∨ c = ";"%char ∨ c = "="%char → char_free c (QueryEscape s) = true.
Proof.
  intros Hc. apply escape_char_free. apply (ascii_forall (λ a, char_free c (QueryEscape_char a))).
  destruct Hc as [->|[->| ->]]; now vm_compute.
Qed.

Lemma PathEscape_free s : char_free "?" (PathEscape s) = true.
Proof. apply escape_char_free. apply (ascii_forall (λ a, char_free "?" (PathEscape_char a))). now vm_compute. Qed.
