(* ===== verification/PackageController.v ===== *)
(** The package API (api/package-controller.go, api/conditional-requests.go,
    internal/archive_validator): the handlers as functions from a request and the state
    of the service to a response and a state.

    gin's parsing of a request is taken as done: the parameters of the route, the
    headers, the query and the multipart form are arguments.  Gin's choice of a format
    ([Negotiator]), the instants HTTP headers write ([HttpTime], whose reading of RFC
    850 dates depends on the zone of the host) and what the storage knows of an object
    besides its content ([ObjectInfos]) are classes.  The HTML pages are kept as the
    data their template is given. *)
From S2P Require Import Prelude Order GoStrings GoUrl Errors Semver Zip Mime Storage Version Compression.
From S2P Require Import Archive Cache Service Upload Serve Negotiation TokenStore AuthManager.
From Stdlib Require Import Ascii.

Class HttpTime := {
  FormatTime : time → string;
  ParseTime : string → option time;
}.

Class ObjectInfos (T : Type) := {
  info_ETag : T → Object → string;
  info_LastModified : T → Object → time;
}.

(** [c.NegotiateFormat(gin.MIMEHTML, gin.MIMEJSON) == gin.MIMEJSON], by the Accept header. *)
Class Negotiator := wants_JSON : string → bool.

Inductive Method := GET | HEAD.

Record Request := {
  req_Method : Method;
  req_Headers : gmap string string;
  req_Query : string;
}.

Definition GetHeader (r : Request) (key : string) : string := default "" (req_Headers r !! key).
Definition Query (r : Request) (key : string) : string := query_get (req_Query r) key.

Record paginationResponse := {
  pg_Limit : nat;
  pg_Next : string;
  pg_HasMore : bool;
  pg_Total : option nat;
}.

Inductive Body :=
  | EmptyBody
  | ErrorJSON (message : string)
  | ObjectBody (data : string)
  | ListingJSON (package version : string) (files : list File) (pagination : paginationResponse)
  | VersionsJSON (package : string) (versions : list string)
  | ListingPage (package : string) (listing : FileListing) (nextURL : string)
  | VersionsPage (package : string) (links : list (string * string)).

Record Response := {
  rsp_Status : Z;
  rsp_Headers : gmap string string;
  rsp_Body : Body;
}.

Definition Status (status : Z) : Response :=
  {| rsp_Status := status; rsp_Headers := ∅; rsp_Body := EmptyBody |}.

Definition JSON (status : Z) (headers : gmap string string) (body : Body) : Response :=
  {| rsp_Status := status; rsp_Headers := <["Content-Type" := "application/json; charset=utf-8"%string]> headers;
     rsp_Body := body |}.

Definition HTML (body : Body) : Response :=
  {| rsp_Status := 200%Z; rsp_Headers := {[ "Content-Type" := "text/html; charset=utf-8"%string ]};
     rsp_Body := body |}.

(** [c.JSON(err.GetHTTPCode(), gin.H{"error": err.Error()})] *)
Definition error_response (headers : gmap string string) (e : GimmeError) : Response :=
  JSON (GetHTTPCode e) headers (ErrorJSON (Error e)).

(** ** Conditional requests *)

Definition Second : Z := 1000000000.

Definition Truncate (t : time) (d : Z) : time := (t - t mod d)%Z.

Section conditional.
Context `{Semver} `{HttpTime}.

Definition cacheControlHeader (version : string) : string :=
  if IsPinnedVersion version then "public, max-age=31536000, immutable" else "public, max-age=300".

Definition candidate_matches (etag candidate : string) : bool :=
  let candidate := TrimSpace candidate in
  String.eqb candidate "*" || String.eqb (TrimPrefix candidate "W/") etag.

Definition etagMatches (ifNoneMatch etag : string) : bool :=
  if String.eqb ifNoneMatch "" || String.eqb etag "" then false
  else
    let etag := TrimPrefix etag "W/" in
    existsb (candidate_matches etag) (Split ifNoneMatch ",").

Definition notModified (r : Request) (etag : string) (lastModified : time) : bool :=
  let ifNoneMatch := GetHeader r "If-None-Match" in
  if negb (String.eqb ifNoneMatch "") then etagMatches ifNoneMatch etag
  else
    let ifModifiedSince := GetHeader r "If-Modified-Since" in
    if String.eqb ifModifiedSince "" || IsZero lastModified then false
    else
      match ParseTime ifModifiedSince with
      | None => false
      | Some modifiedSince => negb (Before modifiedSince (Truncate lastModified Second))
      end.
End conditional.

(** ** Package names *)

Record packageSlice := { ps_Name : string; ps_Version : string }.

Definition invalidURLMsg : string := "invalid URL (valid format: /gimme/<package>@<version>/<file>)".

(** The em dash of the messages, in UTF-8. *)
Definition dash : string := " " +:+ bytes [226; 128; 148] +:+ " ".

Definition getSlice (pkg : string) : result packageSlice :=
  match SplitN2 pkg "@" with
  | [name; version] =>
      if String.eqb name "" then
        fail BadRequest ("package name must not be empty" +:+ dash +:+ invalidURLMsg)
      else if String.eqb version "" then
        fail BadRequest ("package version must not be empty" +:+ dash +:+ invalidURLMsg)
      else Ok {| ps_Name := name; ps_Version := version |}
  | _ => fail BadRequest invalidURLMsg
  end.

(** ** Listings *)

Definition defaultListingLimit : nat := 50.
Definition maxListingLimit : nat := 500.

Definition listingLimit (raw : string) : nat :=
  if String.eqb raw "" then defaultListingLimit
  else
    match Atoi raw with
    | None => defaultListingLimit
    | Some limit =>
        if (limit <? 1)%Z then 1
        else if (Z.of_nat maxListingLimit <? limit)%Z then maxListingLimit
        else Z.to_nat limit
    end.

Definition listingURL (pkg : string) (limit : nat) (after : string) : string :=
  let listingPath := "/gimme/" +:+ PathEscape pkg +:+ "?limit=" +:+ Itoa limit in
  if String.eqb after "" then listingPath else listingPath +:+ "&after=" +:+ QueryEscape after.

Definition link (url rel : string) : string :=
  "<" +:+ url +:+ ">; rel=" +:+ String (byte 34) rel +:+ String (byte 34) "".

(** ** Handlers that read *)

(** textproto.CanonicalMIMEHeaderKey, under which the client gives the metadata. *)
Fixpoint canonical_key (upper : bool) (s : string) : string :=
  match s with
  | "" => ""
  | String a s => String (if upper then upper_ascii a else lower_ascii a) (canonical_key (Ascii.eqb a "-") s)
  end.

Definition user_metadata (so : StoredObject) (key : string) : string :=
  default "" (snd <$> head (filter (λ kv, canonical_key true kv.1 = key)
    (map_to_list (UserMetadata (so_options so))))).

Definition set_header (key value : string) (headers : gmap string string) : gmap string string :=
  <[key := value]> headers.

Definition quoted (s : string) : string := String (byte 34) (s +:+ String (byte 34) "").

Definition quoted_etag (etag : string) : string :=
  if String.eqb etag "" then "" else quoted (Trim etag (byte 34)).

Section read_handlers.
Context {T K : Type} `{ObjectStorageManager T} `{CacheManager K} `{MimeTable} `{Semver}.
Context `{HttpTime} `{ObjectInfos T} `{Negotiator}.
Implicit Types (svc : ContentService T K) (req : Request).

Definition no_store : gmap string string :=
  {[ "Vary" := "Accept-Encoding"%string; "Cache-Control" := "no-store"%string ]}.

(** The headers of an object that is found and acceptable. *)
Definition object_headers osm (obj : Object) (so : StoredObject) (version : string) : gmap string string :=
  let etag := quoted_etag (info_ETag osm obj) in
  let lastModified := info_LastModified osm obj in
  let integrity := user_metadata so CanonicalIntegrityMetadataKey in
  let headers := {[ "Vary" := "Accept-Encoding"%string ]} in
  let headers := if String.eqb etag "" then headers else set_header "ETag" etag headers in
  let headers := if IsZero lastModified then headers
                 else set_header "Last-Modified" (FormatTime lastModified) headers in
  let headers := if String.eqb integrity "" then headers
                 else set_header "Gimme-Integrity" integrity headers in
  set_header "Cache-Control" (cacheControlHeader version) headers.

Definition served_type (file : string) (encoding : Encoding) (so : StoredObject) : string :=
  if String.eqb encoding "" then ContentType (so_options so)
  else
    let contentType := TypeByExtension (ToLower (filepath_Ext file)) in
    if String.eqb contentType "" then "text/plain" else contentType.

(** What follows a successful GetFile. *)
Definition object_response osm req (version file : string) (accepted : acceptedEncodings)
    (obj : Object) (encoding : Encoding) : Response :=
  match osm_Stat osm obj with
  | None => JSON 404 no_store (ErrorJSON "object not found")
  | Some so =>
      if String.eqb encoding "" && negb (identity accepted) then
        JSON 406 no_store (ErrorJSON "no acceptable content coding available for this file")
      else
        let headers := object_headers osm obj so version in
        if notModified req (quoted_etag (info_ETag osm obj)) (info_LastModified osm obj) then
          {| rsp_Status := 304; rsp_Headers := headers; rsp_Body := EmptyBody |}
        else
          let headers := if String.eqb encoding "" then headers
                         else set_header "Content-Encoding" encoding headers in
          let headers :=
            set_header "Content-Length" (pretty (String.length (so_data so)))
              (set_header "Content-Type" (served_type file encoding so) headers) in
          {| rsp_Status := 200; rsp_Headers := headers;
             rsp_Body := match req_Method req with HEAD => EmptyBody | GET => ObjectBody (so_data so) end |}
  end.

Definition html_head : Response :=
  {| rsp_Status := 200; rsp_Headers := {[ "Content-Type" := "text/html; charset=utf-8"%string ]};
     rsp_Body := EmptyBody |}.

Definition listing_response req (pkg name : string) (limit : nat) (listing : FileListing) : Response :=
  if (length (Files listing) =? 0)%nat then Status 404
  else
    match req_Method req with
    | HEAD => html_head
    | GET =>
        let firstURL := listingURL pkg limit "" in
        let nextURL := if HasMore listing then listingURL pkg limit (Serve.Next listing) else "" in
        if wants_JSON (GetHeader req "Accept") then
          let links := [link firstURL "first"] ++ (if String.eqb nextURL "" then [] else [link nextURL "next"]) in
          JSON 200 {[ "Link" := Join links ", " ]}
            (ListingJSON name (LVersion listing) (Files listing)
               {| pg_Limit := limit; pg_Next := Serve.Next listing; pg_HasMore := HasMore listing;
                  pg_Total := if TotalKnown listing then Some (Total listing) else None |})
        else HTML (ListingPage pkg listing nextURL)
    end.

(** [None] only when the listing does not end. *)
Definition getHTMLPackage svc req (pkg name version : string) : option Response :=
  let limit := listingLimit (Query req "limit") in
  let after := Query req "after" in
  listing ← GetFiles svc name version after limit;
  Some (listing_response req pkg name limit listing).

Definition getPackageVersions svc req (name : string) : Response :=
  let versions := ListVersions (objectStorageManager svc) name in
  if (length versions =? 0)%nat then Status 404
  else
    match req_Method req with
    | HEAD => html_head
    | GET =>
        if wants_JSON (GetHeader req "Accept") then JSON 200 ∅ (VersionsJSON name versions)
        else
          HTML (VersionsPage name
            (map (λ version, (version, "/gimme/" +:+ PathEscape (name +:+ "@" +:+ version))) versions))
    end.

Definition getPackage svc req (packageParam file : string) : option Response * ContentService T K :=
  if negb (Contains packageParam "@") && String.eqb file "/" then
    (Some (getPackageVersions svc req packageParam), svc)
  else
    match getSlice packageParam with
    | Fail e => (Some (error_response ∅ e), svc)
    | Ok pkg =>
        if String.eqb file "/" then
          (getHTMLPackage svc req packageParam (ps_Name pkg) (ps_Version pkg), svc)
        else
          let accepted := parseAcceptEncoding (GetHeader req "Accept-Encoding") in
          match GetFile svc (ps_Name pkg) (ps_Version pkg) file (encodings_ accepted) with
          | (Fail e, svc) => (Some (error_response no_store e), svc)
          | (Ok (object, encoding), svc) =>
              (Some (object_response (objectStorageManager svc) req (ps_Version pkg) file accepted object encoding),
               svc)
          end
    end.

Definition getPackageFolder svc req (packageParam : string) : option Response :=
  if negb (Contains packageParam "@") then Some (getPackageVersions svc req packageParam)
  else
    match getSlice packageParam with
    | Fail e => Some (error_response ∅ e)
    | Ok pkg => getHTMLPackage svc req packageParam (ps_Name pkg) (ps_Version pkg)
    end.

Definition deletePackage svc (packageParam : string) : Response * ContentService T K :=
  match getSlice packageParam with
  | Fail e => (error_response ∅ e, svc)
  | Ok pkg =>
      match DeletePackage svc (ps_Name pkg) (ps_Version pkg) with
      | (Some e, svc) => (error_response ∅ e, svc)
      | (None, svc) => (Status 204, svc)
      end
  end.
End read_handlers.

(** ** Uploads *)

(** The outcome of [c.FormFile("file")]: an error, or the part with its Content-Type, its
    content as [file.Open] gives it ([inl] is an error), and its size. *)
Inductive form_file :=
  | FormTooLarge
  | FormNotBuffered
  | FormMalformed (err : string)
  | FormMissing
  | FormPart (contentType : string) (content : string + string) (size : Z).

Record upload_form := {
  form_File : form_file;
  form_Name : string;
  form_Version : string;
}.

Definition validTypes : list string := ["application/octet-stream"; "application/zip"].

(** The argument is the Content-Type of the file, [None] for a nil file. *)
Definition ValidateFile (file : option string) : option GimmeError :=
  match file with
  | None => Some (NewBusinessError BadRequest (Some "input file is required. (accepted types : application/zip)"))
  | Some contentType =>
      match ParseMediaType contentType with
      | Some mediaType =>
          if bool_decide (mediaType ∈ validTypes) then None
          else Some (NewBusinessError BadRequest (Some "invalid input file type. (accepted types : application/zip)"))
      | None => Some (NewBusinessError BadRequest (Some "invalid input file type. (accepted types : application/zip)"))
      end
  end.

(** The answer before CreatePackage is called, or the archive and its size. *)
Definition check_form (maxSize : Z) (form : upload_form) : Response + string * Z :=
  match form_File form with
  | FormTooLarge =>
      inl (JSON 413 ∅ (ErrorJSON ("upload exceeds the maximum request size of " +:+ pretty maxSize +:+
        " bytes (upload.max_size)")))
  | FormNotBuffered => inl (JSON 500 ∅ (ErrorJSON "could not process the uploaded file"))
  | FormMalformed err => inl (JSON 400 ∅ (ErrorJSON ("malformed upload request: " +:+ err)))
  | FormMissing =>
      match ValidateFile None with
      | Some e => inl (error_response ∅ e)
      | None => inl (Status 500)
      end
  | FormPart contentType content size =>
      match ValidateFile (Some contentType) with
      | Some e => inl (error_response ∅ e)
      | None =>
          match content with
          | inl _ => inl (JSON 500 ∅ (ErrorJSON "could not read uploaded file"))
          | inr file => inr (file, size)
          end
      end
  end.

Definition upload_response (uploadErr : option GimmeError) : Response :=
  match uploadErr with
  | Some e => error_response ∅ e
  | None => Status 201
  end.

(** ** Routes *)

Record Server (T K A : Type) := {
  sv_Content : ContentService T K;
  sv_Auth : AuthManager A;
}.
Arguments sv_Content {T K A} _.
Arguments sv_Auth {T K A} _.

Inductive route :=
  | GetFolder (package : string)
  | GetPackage (package file : string)
  | PostPackage (form : upload_form)
  | DeleteRoute (package : string).

Section routes.
Context {T K A : Type} `{ObjectStorageManager T} `{MimeTable} `{Compressors} `{Digest} `{Processors}.
Context `{Semver} `{Normalizer} `{IgnoreMatcher} `{ZipFormat} `{CacheManager K} `{TokenStore A} `{Sha256}.
Context `{HttpTime} `{ObjectInfos T} `{Negotiator}.
Implicit Types (svc : ContentService T K) (server : Server T K A).

Inductive createPackage svc (form : upload_form) : Response → ContentService T K → Prop :=
  | upload_refused response :
      check_form (MaxSize (uploadLimits svc)) form = inl response →
      createPackage svc form response svc
  | upload_done file size err svc' :
      check_form (MaxSize (uploadLimits svc)) form = inr (file, size) →
      CreatePackage svc (form_Name form) (form_Version form) file size err svc' →
      createPackage svc form (upload_response err) svc'.

(** A request with the middleware of its route, at an instant. *)
Inductive handle_route (now : time) (req : Request) server : route → Response → Server T K A → Prop :=
  | route_folder package response :
      req_Method req = GET → getPackageFolder (sv_Content server) req package = Some response →
      handle_route now req server (GetFolder package) response server
  | route_package package file response svc :
      getPackage (sv_Content server) req package file = (Some response, svc) →
      handle_route now req server (GetPackage package file) response
        {| sv_Content := svc; sv_Auth := sv_Auth server |}
  | route_refused r status am :
      (∃ form, r = PostPackage form) ∨ (∃ package, r = DeleteRoute package) →
      AuthenticateMiddleware (sv_Auth server) now (GetHeader req "Authorization") = (AbortWithStatus status, am) →
      handle_route now req server r (Status status) {| sv_Content := sv_Content server; sv_Auth := am |}
  | route_post form am response svc :
      AuthenticateMiddleware (sv_Auth server) now (GetHeader req "Authorization") = (Next, am) →
      createPackage (sv_Content server) form response svc →
      handle_route now req server (PostPackage form) response {| sv_Content := svc; sv_Auth := am |}
  | route_delete package am response svc :
      AuthenticateMiddleware (sv_Auth server) now (GetHeader req "Authorization") = (Next, am) →
      deletePackage (sv_Content server) package = (response, svc) →
      handle_route now req server (DeleteRoute package) response {| sv_Content := svc; sv_Auth := am |}.
End routes.
