(* ===== verification/ApiSpec.v ===== *)
(** What the package API promises: the files it serves, conditional requests, the
    links of its listings, and the protection of the routes that change packages. *)
From S2P Require Import Prelude Order GoStrings GoUrl Errors Semver Zip Mime Storage Version Compression.
From S2P Require Import Archive Cache Service Upload Serve ServeSpec Negotiation TokenStore AuthManager.
From S2P Require Import PackageController MemoryClient MemoryRedis FileStore AuthFile.
From Stdlib Require Import Ascii.

(** ** Package names *)

Lemma getSlice_Ok pkg slice :
  getSlice pkg = Ok slice →
  pkg = ps_Name slice +:+ "@" +:+ ps_Version slice ∧ char_free "@" (ps_Name slice) = true ∧
  ps_Name slice ≠ "" ∧ ps_Version slice ≠ "".
Proof.
  unfold getSlice. destruct (Contains pkg "@") eqn:Hc.
  - apply Contains_true in Hc as (name & version & -> & Hfree). rewrite SplitN2_app by done.
    destruct (String.eqb_spec name ""), (String.eqb_spec version ""); try done. by intros [= <-].
  - rewrite SplitN2_free; [done|]. unfold Contains in Hc. by apply negb_false_iff in Hc.
Qed.

(** ** Conditional requests *)

(** Two entity tags match weakly: the W/ prefix is ignored. *)
Definition weak_match (a b : string) : Prop := TrimPrefix a "W/" = TrimPrefix b "W/".

Section conditional_spec.
Context `{HttpTime}.

Lemma etagMatches_iff ifNoneMatch etag :
  ifNoneMatch ≠ "" →
  etagMatches ifNoneMatch etag = true ↔
  etag ≠ "" ∧ ∃ candidate, candidate ∈ Split ifNoneMatch "," ∧
    (TrimSpace candidate = "*" ∨ weak_match (TrimSpace candidate) etag).
Proof.
  intros Hne. unfold etagMatches. destruct (String.eqb_spec ifNoneMatch ""); [done|]. cbn [orb].
  destruct (String.eqb_spec etag "") as [->|Hetag]; [split; [done|by intros []]|].
  rewrite existsb_exists. split.
  - intros (c & Hin%list_elem_of_In & Hm). split; [done|]. exists c. split; [done|].
    unfold candidate_matches in Hm. apply orb_true_iff in Hm. by rewrite !String.eqb_eq in Hm.
  - intros [_ (c & Hin & Hm)]. exists c. split; [by apply list_elem_of_In|].
    unfold candidate_matches. apply orb_true_iff. by rewrite !String.eqb_eq.
Qed.

Lemma truncate_le (t u : time) : (Truncate t Second ≤ u ↔ t < Truncate u Second + Second)%Z.
Proof.
  unfold Truncate, Second.
  pose proof (Z.div_mod t 1000000000 ltac:(lia)). pose proof (Z.div_mod u 1000000000 ltac:(lia)).
  pose proof (Z.mod_pos_bound t 1000000000 ltac:(lia)). pose proof (Z.mod_pos_bound u 1000000000 ltac:(lia)).
  split; intros; [|lia].
  assert (t / 1000000000 < u / 1000000000 + 1)%Z by (apply Z.div_lt_upper_bound; lia). lia.
Qed.

(** C35: a request is answered with "not modified" exactly when the client's copy is
    current.  With an If-None-Match header this is when the object has an entity tag and
    the list holds "*" or a tag that matches it weakly, whatever If-Modified-Since says;
    without one, when If-Modified-Since is a date, the date of the object is known, and
    the object was not modified after the second of this date. *)
Theorem notModified_exact (req : Request) (etag : string) (lastModified : time) :
  notModified req etag lastModified = true ↔
  (GetHeader req "If-None-Match" ≠ "" ∧ etag ≠ "" ∧
   ∃ candidate, candidate ∈ Split (GetHeader req "If-None-Match") "," ∧
     (TrimSpace candidate = "*" ∨ weak_match (TrimSpace candidate) etag)) ∨
  (GetHeader req "If-None-Match" = "" ∧ GetHeader req "If-Modified-Since" ≠ "" ∧ lastModified ≠ 0%Z ∧
   ∃ since, ParseTime (GetHeader req "If-Modified-Since") = Some since ∧
     (lastModified < Truncate since Second + Second)%Z).
Proof.
  unfold notModified.
  destruct (String.eqb_spec (GetHeader req "If-None-Match") "") as [Hnone|Hnone]; cbn [negb].
  2: { rewrite etagMatches_iff by done. naive_solver. }
  destruct (String.eqb_spec (GetHeader req "If-Modified-Since") ""); [naive_solver|].
  unfold IsZero, Before. destruct (Z.eqb_spec lastModified 0); cbn [orb]; [naive_solver|].
  destruct (ParseTime (GetHeader req "If-Modified-Since")) as [since|]; [|naive_solver].
  rewrite negb_true_iff, Z.ltb_ge, truncate_le. naive_solver.
Qed.
End conditional_spec.

(** ** Links of a listing *)

Lemma limits_digits : forallb (λ n, (listingLimit (Itoa n) =? n)%nat && char_free "&" (Itoa n) &&
  char_free ";" (Itoa n) && char_free "=" (Itoa n) && bool_decide (QueryUnescape (Itoa n) = Some (Itoa n))
  && negb (String.eqb (Itoa n) "")) (seq 1 500) = true.
Proof. now vm_compute. Qed.

Lemma limit_digits n :
  1 ≤ n ≤ 500 →
  listingLimit (Itoa n) = n ∧ char_free "&" (Itoa n) = true ∧ char_free ";" (Itoa n) = true ∧
  char_free "=" (Itoa n) = true ∧ QueryUnescape (Itoa n) = Some (Itoa n).
Proof.
  intros Hn. pose proof limits_digits as Hall. rewrite forallb_forall in Hall.
  specialize (Hall n). rewrite in_seq in Hall. specialize (Hall ltac:(lia)).
  rewrite !andb_true_iff, Nat.eqb_eq, bool_decide_eq_true in Hall. tauto.
Qed.

Lemma listingLimit_bounds raw : 1 ≤ listingLimit raw ≤ 500.
Proof.
  unfold listingLimit, defaultListingLimit, maxListingLimit.
  destruct (String.eqb raw ""); [lia|]. destruct (Atoi raw) as [n|]; [|lia].
  destruct (Z.ltb_spec n 1); [lia|]. destruct (Z.ltb_spec (Z.of_nat 500) n); lia.
Qed.

Lemma query_part_value key value text :
  char_free "=" key = true → char_free ";" key = true → char_free ";" text = true →
  QueryUnescape key = Some key → QueryUnescape text = Some value →
  query_part (key +:+ "=" +:+ text) = Some (key, value).
Proof.
  intros Heq Hk Ht Hkey Hval. unfold query_part.
  assert (Hc : Contains (key +:+ "=" +:+ text) ";" = false).
  { unfold Contains. apply negb_false_iff, char_free_app. split; [done|]. apply char_free_app. done. }
  rewrite Hc. cbn [orb].
  destruct (String.eqb_spec (key +:+ "=" +:+ text) "") as [[_ [? _]%str_app_eq_nil]%str_app_eq_nil|_]; [done|].
  change ("=" +:+ text) with (String "=" text). rewrite Cut_app by done. by rewrite Hkey, Hval.
Qed.

Lemma query_get_cons part rest key :
  char_free "&" part = true →
  query_get (part +:+ "&" +:+ rest) key =
    match query_part part with
    | Some (k, v) => if bool_decide (k = key) then v else query_get rest key
    | None => query_get rest key
    end.
Proof.
  intros Hfree. unfold query_get, ParseQuery.
  change ("&" +:+ rest) with (String "&" rest). rewrite Split_app by done. cbn [omap list_omap].
  destruct (query_part part) as [[k v]|]; [|done].
  case_bool_decide as Hk; [by rewrite filter_cons_True|by rewrite filter_cons_False].
Qed.

Lemma query_get_one part key :
  char_free "&" part = true →
  query_get part key =
    match query_part part with
    | Some (k, v) => if bool_decide (k = key) then v else ""
    | None => ""
    end.
Proof.
  intros Hfree. unfold query_get, ParseQuery. rewrite Split_free by done. cbn [omap list_omap].
  destruct (query_part part) as [[k v]|]; [|done].
  case_bool_decide as Hk; [by rewrite filter_cons_True|by rewrite filter_cons_False].
Qed.

(** The links of a listing work.  The limit a listing uses is between 1 and 500
    whatever the query says; and the URL of a link, whose path is the escaped package and
    whose query has no other "?", asks for exactly this package, limit and cursor when
    it is requested: the server reads back the characters it escaped. *)
Theorem listing_link_roundtrip (raw pkg after : string) :
  let limit := listingLimit raw in
  1 ≤ limit ≤ 500 ∧
  ∃ path query, Cut (listingURL pkg limit after) "?" = (path, query, true) ∧
    (∃ segment, path = "/gimme/" +:+ segment ∧ PathUnescape segment = Some pkg) ∧
    listingLimit (query_get query "limit") = limit ∧ query_get query "after" = after.
Proof.
  intros limit. pose proof (listingLimit_bounds raw) as Hb. fold limit in Hb. split; [done|].
  destruct (limit_digits limit Hb) as (Hlim & Hamp & Hsemi & Heq & Hun).
  assert (Hpart : query_part ("limit" +:+ "=" +:+ Itoa limit) = Some ("limit", Itoa limit)%string)
    by by apply query_part_value.
  assert (Hfree : char_free "&" ("limit" +:+ "=" +:+ Itoa limit) = true) by (apply char_free_app; done).
  exists ("/gimme/" +:+ PathEscape pkg).
  exists (if String.eqb after "" then "limit" +:+ "=" +:+ Itoa limit
          else ("limit" +:+ "=" +:+ Itoa limit) +:+ "&" +:+ ("after" +:+ "=" +:+ QueryEscape after)).
  split; [|split; [|split]].
  - assert (Hpath : char_free "?" ("/gimme/" +:+ PathEscape pkg) = true)
      by (apply char_free_app; split; [done|apply PathEscape_free]).
    unfold listingURL. destruct (String.eqb after "").
    + rewrite <- str_app_assoc. by apply (Cut_app "?" ("/gimme/" +:+ PathEscape pkg)).
    + rewrite <- (Cut_app "?" ("/gimme/" +:+ PathEscape pkg)) by done. f_equal.
      by rewrite !str_app_assoc.
  - exists (PathEscape pkg). split; [done|apply PathUnescape_PathEscape].
  - destruct (String.eqb after ""); [rewrite query_get_one by done|rewrite query_get_cons by done];
      by rewrite Hpart.
  - destruct (String.eqb_spec after "") as [->|Hne].
    + rewrite query_get_one by done. by rewrite Hpart.
    + rewrite query_get_cons by done. rewrite Hpart. cbn [bool_decide].
      assert (Hafter : query_part ("after" +:+ "=" +:+ QueryEscape after) = Some ("after"%string, after)).
      { apply query_part_value; try done; [by apply QueryEscape_free; auto|apply QueryUnescape_QueryEscape]. }
      rewrite query_get_one; [by rewrite Hafter|].
      apply char_free_app. split; [done|]. apply char_free_app. split; [done|]. apply QueryEscape_free. auto.
Qed.

(** ** Files *)

Section files.
Context {T K : Type} `{ManagerLaws T} `{CacheLaws K} `{SemverLaws}.
Context `{HttpTime} `{ObjectInfos T} `{Negotiator}.
Implicit Types (svc : ContentService T K) (req : Request).

Lemma getPackage_store svc req package file response svc' :
  getPackage svc req package file = (response, svc') →
  objectStorageManager svc' = objectStorageManager svc.
Proof.
  unfold getPackage. destruct (_ && _); [by intros [= _ <-]|].
  destruct (getSlice package) as [slice|e]; [|by intros [= _ <-]].
  destruct (String.eqb file "/"); [by intros [= _ <-]|].
  destruct (GetFile _ _ _ _ _) as [[[obj enc]|e] svc1] eqn:Hget; intros [= _ <-]; by eapply GetFile_store.
Qed.

(** The headers every object is answered with. *)
Lemma object_headers_fixed osm obj so version :
  object_headers osm obj so version !! "Cache-Control" = Some (cacheControlHeader version) ∧
  object_headers osm obj so version !! "Vary" = Some "Accept-Encoding"%string ∧
  object_headers osm obj so version !! "Content-Encoding" = None.
Proof.
  unfold object_headers, set_header. repeat case_match; rewrite ?lookup_insert_eq;
    repeat (rewrite lookup_insert_ne by done); by rewrite ?lookup_singleton_eq, ?lookup_singleton_ne.
Qed.

Lemma object_response_spec osm req version file accepted obj enc response :
  object_response osm req version file accepted obj enc = response →
  rsp_Status response = 200%Z ∨ rsp_Status response = 304%Z →
  ∃ so, osm_Stat osm obj = Some so ∧ (enc = "" → identity accepted = true) ∧
    rsp_Headers response !! "Cache-Control" = Some (cacheControlHeader version) ∧
    rsp_Headers response !! "Vary" = Some "Accept-Encoding"%string ∧
    if notModified req (quoted_etag (info_ETag osm obj)) (info_LastModified osm obj)
    then rsp_Status response = 304%Z ∧ rsp_Body response = EmptyBody
    else rsp_Status response = 200%Z ∧
      rsp_Headers response !! "Content-Encoding" = (if String.eqb enc "" then None else Some enc) ∧
      rsp_Body response = match req_Method req with HEAD => EmptyBody | GET => ObjectBody (so_data so) end.
Proof.
  unfold object_response. intros <-. destruct (osm_Stat osm obj) as [so|] eqn:Hso; [|cbn; lia].
  destruct (String.eqb enc "" && negb (identity accepted)) eqn:Hid; [cbn; lia|]. intros _.
  destruct (object_headers_fixed osm obj so version) as (Hcc & Hvary & Henc).
  exists so. split; [done|]. split.
  { intros ->. cbn in Hid. by apply negb_false_iff in Hid. }
  destruct (notModified _ _ _); [done|]. cbn [rsp_Headers rsp_Status rsp_Body]. unfold set_header.
  destruct (String.eqb enc ""); repeat (rewrite lookup_insert_ne by done); rewrite ?lookup_insert_eq; done.
Qed.

(** C13: GET and HEAD of a file answer the file asked for, in a form the client takes.
    When such a request is answered with 200 or 304, the parameter of the route is a
    name without "@", "@" and a version, and the object is stored and is the file at the path this
    version resolves to (or, for a version that is not pinned, at the path the cache holds),
    or an encoded variant of it, in a coding that Accept-Encoding accepts and that the
    Content-Encoding of a 200 names (a 304 has none); the plain file is sent only if the header does not refuse it.
    304 is sent exactly when the client's copy is current, without a body; otherwise the
    body is the content of the object, for GET.  Cache-Control is "immutable" exactly
    for pinned versions, and the storage is unchanged. *)
Theorem getPackage_serves svc req package file response svc' :
  getPackage svc req package file = (Some response, svc') → file ≠ "/" →
  rsp_Status response = 200%Z ∨ rsp_Status response = 304%Z →
  let header := GetHeader req "Accept-Encoding" in
  let osm := objectStorageManager svc in
  ∃ name version path obj enc so,
    package = name +:+ "@" +:+ version ∧ char_free "@" name = true ∧
    (path = object_path osm name version file ∨
     IsPinnedVersion version = false ∧ ∃ cm, cacheManager svc = Some cm ∧
       cm_view cm !! cache_key name version file = Some {| ObjectPath := path |}) ∧
    object_key obj = path +:+ suffix enc ∧ osm_view osm !! object_key obj = Some so ∧
    (if String.eqb enc "" then acceptable header "identity" ∨ ¬ Negotiation.named header "identity" ∧ ¬ Negotiation.named header "*"
     else enc ∈ encodings ∧ acceptable header enc) ∧
    rsp_Headers response !! "Cache-Control" = Some (cacheControlHeader version) ∧
    rsp_Headers response !! "Vary" = Some "Accept-Encoding"%string ∧
    (if notModified req (quoted_etag (info_ETag osm obj)) (info_LastModified osm obj)
     then rsp_Status response = 304%Z ∧ rsp_Body response = EmptyBody
     else rsp_Status response = 200%Z ∧
       rsp_Headers response !! "Content-Encoding" = (if String.eqb enc "" then None else Some enc) ∧
       rsp_Body response = match req_Method req with HEAD => EmptyBody | GET => ObjectBody (so_data so) end) ∧
    objectStorageManager svc' = osm.
Proof.
  intros Hget Hfile Hstatus header osm. pose proof (getPackage_store _ _ _ _ _ _ Hget) as Hstore.
  unfold getPackage in Hget. apply String.eqb_neq in Hfile. rewrite Hfile, andb_false_r in Hget.
  destruct (getSlice package) as [slice|e] eqn:Hslice.
  2: { injection Hget as <- _. exfalso. cbn in Hstatus. pose proof (GetHTTPCode_range e). lia. }
  apply getSlice_Ok in Hslice as (Hpkg & Hfree & _ & _).
  destruct (GetFile _ _ _ _ _) as [[[obj enc]|e] svc1] eqn:HF; injection Hget as <- <-.
  2: { exfalso. cbn in Hstatus. pose proof (GetHTTPCode_range e). lia. }
  rewrite Hstore in Hstatus |- *. apply GetFile_object in HF as (_ & _ & path & Hkey & Hpath & Henc).
  destruct (object_response_spec _ _ _ _ _ _ _ _ eq_refl Hstatus) as (so & Hso & Hid & Hcc & Hvary & Hbody).
  apply osm_Stat_ok in Hso. destruct (parse_acceptable header) as (_ & Hacc & Hident).
  exists (ps_Name slice), (ps_Version slice), path, obj, enc, so.
  split; [done|]. split; [done|]. split; [exact Hpath|]. split; [done|]. split; [done|].
  split; [|split; [exact Hcc|split; [exact Hvary|split; [exact Hbody|done]]]].
  destruct (String.eqb_spec enc "") as [->|Hne].
  - apply Hident. by apply Hid.
  - destruct Henc as [?|(Hin & _)]; [done|]. by apply Hacc.
Qed.
End files.

(** ** Protected routes *)

Section protection.
Context {T K A : Type} `{ManagerLaws T} `{CacheLaws K} `{SemverLaws} `{TokenStoreLaws A} `{Sha256}.
Context `{Compressors} `{Digest} `{Processors} `{Normalizer} `{IgnoreMatcher} `{ZipFormat}.
Context `{HttpTime} `{ObjectInfos T} `{Negotiator}.

(** The request presents a token that is stored, not revoked and not expired. *)
Definition authorized (now : time) (req : Request) (server : Server T K A) : Prop :=
  ∃ token e, bears (GetHeader req "Authorization") token ∧ stored_token (store (sv_Auth server)) token e ∧
    RevokedAt e = 0%Z ∧ (ExpiresAt e = 0%Z ∨ (now ≤ ExpiresAt e)%Z).

Lemma authenticate_next now req (server : Server T K A) outcome am :
  ts_inv (store (sv_Auth server)) →
  AuthenticateMiddleware (sv_Auth server) now (GetHeader req "Authorization") = (outcome, am) →
  (outcome = Next → authorized now req server) ∧ (∀ status, outcome = AbortWithStatus status → status = 401%Z).
Proof.
  intros Hinv Ha. destruct (authenticate_spec _ _ _ _ _ Hinv Ha) as (Hcases & Hyes & _). split; [done|].
  intros status ->. destruct Hcases as [?|[= ->]]; done.
Qed.

Lemma refused_not_created maxSize form response :
  check_form maxSize form = inl response → rsp_Status response ≠ 201%Z.
Proof.
  unfold check_form, ValidateFile, error_response. intros Hc Hs.
  repeat case_match; simplify_eq/=; done.
Qed.

(** Only a valid token changes packages.  Reading routes leave the storage as it is.
    A request to publish or delete a package is either authorized by a stored token
    that is neither revoked nor expired, or answered with 401 with the service
    untouched.  201 means that CreatePackage went through on the archive of the form,
    and 204 that DeletePackage did on the named package. *)
Theorem mutations_protected now req (server server' : Server T K A) r response :
  ts_inv (store (sv_Auth server)) → handle_route now req server r response server' →
  match r with
  | GetFolder _ | GetPackage _ _ =>
      objectStorageManager (sv_Content server') = objectStorageManager (sv_Content server)
  | PostPackage form =>
      (authorized now req server ∨ response = Status 401 ∧ sv_Content server' = sv_Content server) ∧
      (rsp_Status response = 201%Z → ∃ file size,
         CreatePackage (sv_Content server) (form_Name form) (form_Version form) file size None (sv_Content server'))
  | DeleteRoute package =>
      (authorized now req server ∨ response = Status 401 ∧ sv_Content server' = sv_Content server) ∧
      (rsp_Status response = 204%Z → ∃ name version, package = name +:+ "@" +:+ version ∧
         DeletePackage (sv_Content server) name version = (None, sv_Content server'))
  end.
Proof.
  intros Hinv Hroute.
  destruct Hroute as [package response|package file response svc Hget|r status am Hr Ha
    |form am response svc Ha Hc|package am response svc Ha Hd].
  - done.
  - by eapply getPackage_store.
  - destruct (authenticate_next _ _ _ _ _ Hinv Ha) as [_ Hst]. rewrite (Hst status eq_refl).
    destruct Hr as [[form ->]|[package ->]]; (split; [by right|done]).
  - destruct (authenticate_next _ _ _ _ _ Hinv Ha) as [Hok _]. split; [left; by apply Hok|]. cbn [sv_Content].
    destruct Hc as [response Hc|file size err svc' Hc Hcreate]; intros Hs.
    { by apply refused_not_created in Hc. }
    destruct err as [e|]; [|by eauto]. exfalso. cbn in Hs.
    unfold GetHTTPCode in Hs. destruct (httpCodes !! Kind e) as [code|] eqn:Hcode; [|done].
    apply httpCodes_inv in Hcode. cbn in Hs. set_unfold. intuition simplify_eq.
  - destruct (authenticate_next _ _ _ _ _ Hinv Ha) as [Hok _]. split; [left; by apply Hok|]. cbn [sv_Content].
    unfold deletePackage in Hd. destruct (getSlice package) as [slice|e] eqn:Hslice.
    2: { injection Hd as <- <-. intros Hs. cbn in Hs. pose proof (GetHTTPCode_range e). lia. }
    apply getSlice_Ok in Hslice as (Hpkg & _).
    destruct (DeletePackage _ _ _) as [[e|] svc1] eqn:HD; injection Hd as <- <-.
    { intros Hs. cbn in Hs. pose proof (GetHTTPCode_range e). lia. }
    intros _. by exists (ps_Name slice), (ps_Version slice).
Qed.
End protection.

(** ** The properties on a server *)

#[local] Existing Instance builtin_mime.
#[local] Existing Instance plain_codec.
#[local] Existing Instance plain_codec_laws.
#[local] Existing Instance plain_digest.
#[local] Existing Instance bit_codec.
#[local] Existing Instance prefix_cipher.
#[local] Existing Instance quiet_store.
#[local] Existing Instance quiet_laws.
#[local] Existing Instance toy_compressors.
#[local] Existing Instance toy_digest.
#[local] Existing Instance plain_names.
#[local] Existing Instance whole_paths.
#[local] Instance one_processor : Processors := 1.
#[local] Instance no_archives : ZipFormat := λ _ _, None.
#[local] Instance unary_time : HttpTime :=
  {| FormatTime t := pretty t; ParseTime s := Atoi s |}.
#[local] Instance length_tags : ObjectInfos (Storage.objectStorageManager memory) :=
  {| info_ETag osm o := match osm_Stat osm o with Some so => so_data so | None => "" end;
     info_LastModified _ _ := 0%Z |}.
#[local] Instance asks_json : Negotiator := λ accept, String.eqb accept "application/json".

Definition brotli_request : Request :=
  {| req_Method := GET; req_Headers := {[ "Accept-Encoding" := "gzip;q=0.5, br"%string ]}; req_Query := "" |}.

Definition brotli_answer : option Response * ContentService (Storage.objectStorageManager memory) (redisCache mem_redis) :=
  getPackage (serving_demo two_files []) brotli_request "lib@1.0.0" "/a.js".

Lemma brotli_answer_eq :
  (λ r, (rsp_Status r, rsp_Body r, rsp_Headers r !! "Content-Encoding")) <$> brotli_answer.1
  = Some (200%Z, ObjectBody "2", Some "br"%string).
Proof. now vm_compute. Qed.

Lemma getPackage_serves_witness :
  ∃ response, brotli_answer.1 = Some response ∧ rsp_Body response = ObjectBody "2" ∧
    rsp_Headers response !! "Cache-Control" = Some "public, max-age=31536000, immutable"%string ∧
    ∃ enc, enc ∈ encodings ∧ rsp_Headers response !! "Content-Encoding" = Some enc.
Proof.
  pose proof brotli_answer_eq as E.
  destruct brotli_answer as [[response|] svc'] eqn:Ha; [|discriminate E].
  cbn [fst fmap option_fmap option_map] in E. injection E as Hs Hb Henc.
  exists response. split; [reflexivity|]. split; [exact Hb|].
  destruct (getPackage_serves _ _ _ _ _ _ Ha ltac:(discriminate) (or_introl Hs))
    as (name & version & path & obj & enc & so & Hpkg & Hfree & _ & _ & _ & Hacc & Hcc & _ & Hbody & _).
  rewrite Hcc.
  change "lib@1.0.0" with ("lib" +:+ String "@" "1.0.0") in Hpkg.
  apply (char_free_sep_inj "@") in Hpkg as [_ <-]; [|reflexivity|exact Hfree].
  split; [reflexivity|]. exists "br"%string. split; [left|exact Henc].
Defined.

Definition demo_server : Server (Storage.objectStorageManager memory) (redisCache mem_redis) FileTokenStore :=
  {| sv_Content := serving_demo two_files []; sv_Auth := created |}.

Definition anonymous : Request := {| req_Method := GET; req_Headers := ∅; req_Query := "" |}.

(** A deletion without a token. *)
Lemma mutations_protected_witness :
  handle_route 2000 anonymous demo_server (DeleteRoute "lib@1.0.0") (Status 401) demo_server ∧
  (authorized 2000 anonymous demo_server ∨
   Status 401 = Status 401 ∧ sv_Content demo_server = sv_Content demo_server).
Proof.
  assert (Hroute : handle_route 2000 anonymous demo_server (DeleteRoute "lib@1.0.0") (Status 401) demo_server).
  { apply (route_refused 2000 anonymous demo_server (DeleteRoute "lib@1.0.0") 401 created).
    - right. exists "lib@1.0.0"%string. reflexivity.
    - now vm_compute. }
  split; [exact Hroute|].
  apply (mutations_protected 2000 anonymous demo_server demo_server (DeleteRoute "lib@1.0.0") (Status 401)
    created_inv Hroute).
Defined.
