(* ===== verification/Templates.v ===== *)
(** The functions of the HTML templates (api/templates.go): the date of an instant in the
    layout "Jan 2, 2006 15:04", and the marks of the admin page.

    An instant counts nanoseconds from year 1 in UTC; [zone] is the offset in seconds of
    the location of the time. *)
From S2P Require Import Prelude GoStrings TokenStore AuthManager.

(** ** Civil dates *)

(** The days before the first of January of a year. *)
Definition days_before_year (y : Z) : Z :=
  (365 * (y - 1) + (y - 1) / 4 - (y - 1) / 100 + (y - 1) / 400)%Z.

(** A year has 365.2425 days, up to less than one year. *)
Definition year_of (days : Z) : Z :=
  let y := (400 * days / 146097 + 1)%Z in
  if (days <? days_before_year y)%Z then (y - 1)%Z
  else if (days <? days_before_year (y + 1))%Z then y
  else (y + 1)%Z.

(** The month and the day in it, from a day of the year. *)
Fixpoint month_of (fuel : nat) (y m day : Z) : Z * Z :=
  match fuel with
  | O => (m, day + 1)%Z
  | S fuel => if (day <? days_in y m)%Z then (m, day + 1)%Z else month_of fuel y (m + 1)%Z (day - days_in y m)%Z
  end.

Definition civil (days : Z) : Z * Z * Z :=
  let y := year_of days in
  let '(m, d) := month_of 11 y 1 (days - days_before_year y)%Z in
  (y, m, d).

(** ** The functions *)

Definition month_names : list string :=
  ["Jan"; "Feb"; "Mar"; "Apr"; "May"; "Jun"; "Jul"; "Aug"; "Sep"; "Oct"; "Nov"; "Dec"].

Definition month_name (m : Z) : string := default "" (month_names !! Z.to_nat (m - 1)).

(** Numbers of at least so many digits. *)
Fixpoint zeros (n : nat) : string := match n with O => "" | S n => "0" +:+ zeros n end.

Definition padded (width : nat) (n : Z) : string := let s := pretty n in zeros (width - String.length s) +:+ s.

Definition Minute : Z := 60000000000.

(** [t.Format("Jan 2, 2006 15:04")] *)
Definition Format (zone : Z) (t : time) : string :=
  let minutes := ((t + zone * 1000000000) / Minute)%Z in
  let '(y, m, d) := civil (minutes / 1440) in
  month_name m +:+ " " +:+ pretty d +:+ ", " +:+ padded 4 y +:+ " " +:+
    padded 2 (minutes mod 1440 / 60) +:+ ":" +:+ padded 2 (minutes mod 60).

(** The em dash, in UTF-8. *)
Definition em_dash : string := bytes [226; 128; 148].

Definition formatTime (zone : Z) (t : time) : string := if IsZero t then em_dash else Format zone t.

Definition template_isExpired (now t : time) : bool := if IsZero t then false else Before t now.
Definition template_isRevoked (t : time) : bool := negb (IsZero t).
Definition template_hasSuffix : string → string → bool := HasSuffix.

(** ** Dates are right *)

Definition valid_date (y m d : Z) : Prop := (1 ≤ y ∧ 1 ≤ m ≤ 12 ∧ 1 ≤ d ≤ days_in y m)%Z.

Lemma leap_days y : (days_before_year (y + 1) - days_before_year y = if leap y then 366 else 365)%Z.
Proof.
  unfold days_before_year, leap. replace (y + 1 - 1)%Z with y by lia.
  destruct (Z.eqb_spec (y mod 4) 0), (Z.eqb_spec (y mod 100) 0), (Z.eqb_spec (y mod 400) 0); cbn [andb orb negb];
    Z.to_euclidean_division_equations; lia.
Qed.

Lemma days_before_year_bounds y :
  (146097 * (y - 1) - 699 ≤ 400 * days_before_year y ≤ 146097 * (y - 1) + 396)%Z.
Proof. unfold days_before_year. Z.to_euclidean_division_equations. lia. Qed.

Lemma year_of_spec days : (days_before_year (year_of days) ≤ days < days_before_year (year_of days + 1))%Z.
Proof.
  unfold year_of. set (g := (400 * days / 146097 + 1)%Z).
  pose proof (days_before_year_bounds (g - 1)) as Hb. pose proof (days_before_year_bounds (g + 2)) as Hb'.
  assert (Hg : (146097 * (g - 1) ≤ 400 * days < 146097 * g)%Z).
  { subst g. Z.to_euclidean_division_equations. lia. }
  destruct (Z.ltb_spec days (days_before_year g)); [replace (g - 1 + 1)%Z with g by lia; lia|].
  destruct (Z.ltb_spec days (days_before_year (g + 1))); [lia|]. replace (g + 1 + 1)%Z with (g + 2)%Z by lia. lia.
Qed.

Lemma days_in_pos y m : (0 < days_in y m)%Z.
Proof. unfold days_in. repeat case_match; lia. Qed.

Lemma days_before_month_S y n :
  1 ≤ n → days_before_month y (S n) = (days_before_month y n + days_in y (Z.of_nat n))%Z.
Proof. by destruct n; [lia|]. Qed.

Lemma days_before_month_mono y n k : 1 ≤ n → (days_before_month y n ≤ days_before_month y (n + k))%Z.
Proof.
  intros Hn. induction k as [|k IH]; [by rewrite Nat.add_0_r|]. rewrite Nat.add_succ_r, days_before_month_S by lia.
  pose proof (days_in_pos y (Z.of_nat (n + k))). lia.
Qed.

Lemma month_of_spec fuel y n day m d :
  1 ≤ n → month_of fuel y (Z.of_nat n) day = (m, d) →
  (0 ≤ day < days_before_month y (S n + fuel) - days_before_month y n)%Z →
  (Z.of_nat n ≤ m ≤ Z.of_nat (n + fuel) ∧ 1 ≤ d ≤ days_in y m)%Z ∧
  (day = days_before_month y (Z.to_nat m) - days_before_month y n + (d - 1))%Z.
Proof.
  assert (Hhere : ∀ n day, 1 ≤ n → (0 ≤ day < days_in y (Z.of_nat n))%Z →
    (1 ≤ day + 1 ≤ days_in y (Z.of_nat n))%Z ∧
    (day = days_before_month y (Z.to_nat (Z.of_nat n)) - days_before_month y n + (day + 1 - 1))%Z).
  { intros n' day' Hn' Hd'. rewrite Nat2Z.id. lia. }
  revert n day. induction fuel as [|fuel IH]; intros n day Hn; cbn [month_of].
  - intros [= <- <-] Hd. rewrite Nat.add_0_r, days_before_month_S in Hd by done.
    destruct (Hhere n day Hn) as [? ?]; lia.
  - destruct (Z.ltb_spec day (days_in y (Z.of_nat n))); intros Hm Hd.
    + injection Hm as <- <-. destruct (Hhere n day Hn) as [? ?]; lia.
    + replace (Z.of_nat n + 1)%Z with (Z.of_nat (S n)) in Hm by lia.
      pose proof (days_before_month_S y n Hn) as HS. apply IH in Hm; [|lia|].
      * rewrite HS in Hm. lia.
      * replace (S (S n) + fuel)%nat with (S n + S fuel)%nat by lia. lia.
Qed.

Lemma year_length y : days_before_month y 13 = if leap y then 366%Z else 365%Z.
Proof. unfold days_before_month, days_in. by destruct (leap y). Qed.

(** The date of a day is a valid one, and it is the day that this date starts. *)
Lemma civil_spec days y m d :
  (0 ≤ days)%Z → civil days = (y, m, d) → valid_date y m d ∧ (Date y m d = days * 24 * Hour)%Z.
Proof.
  intros Hpos. unfold civil. pose proof (year_of_spec days) as Hy. pose proof (leap_days (year_of days)) as Hl.
  destruct (month_of 11 (year_of days) 1 (days - days_before_year (year_of days))) as [m' d'] eqn:Hm. intros [= <- <- <-].
  apply (month_of_spec 11 (year_of days) 1) in Hm; [|lia|].
  2: { change (days_before_month (year_of days) 1) with 0%Z. change (2 + 11)%nat with 13%nat. rewrite year_length.
       destruct (leap (year_of days)); lia. }
  destruct Hm as [[Hm Hd] Hday]. change (days_before_month (year_of days) 1) with 0%Z in Hday. split.
  - split; [|lia]. pose proof (days_before_year_bounds (year_of days + 1)). lia.
  - unfold Date. unfold days_before_year in Hday. f_equal. f_equal. lia.
Qed.

(** The admin page shows the minute of an instant.  In the location of a time whose local
    year is at least 1, [formatTime] shows the name of the month, the day, the year, the
    hours and the minutes of a valid date and the minute of this day the instant is in; the zero
    time, which stands for no date, is a dash. *)
Theorem formatTime_exact (zone : Z) (t : time) :
  let local := (t + zone * 1000000000)%Z in
  (0 ≤ local)%Z →
  formatTime zone 0 = em_dash ∧
  (t ≠ 0%Z → ∃ y m d h minute,
     valid_date y m d ∧ (0 ≤ h < 24)%Z ∧ (0 ≤ minute < 60)%Z ∧
     (Date y m d + h * Hour + minute * Minute ≤ local < Date y m d + h * Hour + (minute + 1) * Minute)%Z ∧
     formatTime zone t = month_name m +:+ " " +:+ pretty d +:+ ", " +:+ padded 4 y +:+ " " +:+
       padded 2 h +:+ ":" +:+ padded 2 minute).
Proof.
  intros local Hlocal. split; [done|]. intros Hnz. unfold formatTime, IsZero.
  destruct (Z.eqb_spec t 0) as [|_]; [done|]. unfold Format. fold local. set (minutes := (local / Minute)%Z).
  assert (Hmin : (0 ≤ minutes)%Z) by (apply Z.div_pos; [done|now vm_compute]).
  destruct (civil (minutes / 1440)) as [[y m] d] eqn:Hc.
  destruct (civil_spec (minutes / 1440) y m d) as [Hv Hdate]; [apply Z.div_pos; lia|done|].
  exists y, m, d, (minutes mod 1440 / 60)%Z, (minutes mod 60)%Z. split; [done|].
  split; [Z.to_euclidean_division_equations; lia|]. split; [apply Z.mod_pos_bound; lia|].
  split; [|done].
  rewrite Hdate. change Hour with (60 * Minute)%Z. unfold minutes, Minute.
  Z.to_euclidean_division_equations. lia.
Qed.

Definition shown_time : time := (719163 * 24 * Hour + 90 * Minute)%Z.

Lemma shown_time_eq : formatTime 7200 shown_time = "Jan 2, 1970 03:30".
Proof. vm_compute. reflexivity. Qed.

Lemma formatTime_exact_witness :
  ∃ y m d h minute, valid_date y m d ∧
    "Jan 2, 1970 03:30"%string = month_name m +:+ " " +:+ pretty d +:+ ", " +:+ padded 4 y +:+ " " +:+
       padded 2 h +:+ ":" +:+ padded 2 minute.
Proof.
  destruct (formatTime_exact 7200 shown_time) as [_ Hshown]; [vm_compute; discriminate|].
  destruct Hshown as (y & m & d & h & minute & Hv & _ & _ & _ & Hf); [vm_compute; discriminate|].
  exists y, m, d, h, minute. split; [exact Hv|]. rewrite <- shown_time_eq. exact Hf.
Defined.

(** The marks of the admin page say which tokens are refused. *)
Lemma marks_valid now e :
  IsValid now e = negb (template_isRevoked (RevokedAt e)) && negb (template_isExpired now (ExpiresAt e)).
Proof.
  unfold IsValid, IsRevoked, IsExpired, template_isRevoked, template_isExpired.
  by destruct (IsZero (RevokedAt e)), (IsZero (ExpiresAt e)), (Before (ExpiresAt e) now).
Qed.
