(* ===== verification/Metrics.v ===== *)
(** The Prometheus collectors of the program (internal/metrics/metrics.go) and their
    registration when it starts.  What they count is [counters] of Service.v and
    [si_Requests] of Server.v, and the series of Durations.v. *)
From S2P Require Import Prelude GoStrings.
From Stdlib Require Import Ascii.

Inductive collector :=
  | Counter (name help : string)
  | CounterVec (name help : string) (labels : list string)
  | HistogramVec (name help : string) (labels : list string).

Definition HTTPRequestsTotal : collector :=
  CounterVec "gimme_http_requests_total"
    "Total number of HTTP requests handled, partitioned by route, method and status code."
    ["route"; "method"; "status_code"].

Definition S3OperationDuration : collector :=
  HistogramVec "gimme_s3_operation_duration_seconds"
    "Latency of S3 operations in seconds, partitioned by operation name." ["operation"].

Definition CacheHitsTotal : collector :=
  Counter "gimme_cache_hits_total" "Total number of internal cache hits (partial-version resolution).".

Definition CacheMissesTotal : collector :=
  Counter "gimme_cache_misses_total" "Total number of internal cache misses (partial-version resolution).".

Definition PackagesUploadedTotal : collector :=
  Counter "gimme_packages_uploaded_total" "Total number of packages successfully uploaded.".

Definition PackagesDeletedTotal : collector :=
  Counter "gimme_packages_deleted_total" "Total number of packages successfully deleted.".

Definition collectors : list collector :=
  [HTTPRequestsTotal; S3OperationDuration; CacheHitsTotal; CacheMissesTotal; PackagesUploadedTotal; PackagesDeletedTotal].

(** ** Registration *)

Definition collector_name (c : collector) : string :=
  match c with Counter name _ | CounterVec name _ _ | HistogramVec name _ _ => name end.

Definition collector_labels (c : collector) : list string :=
  match c with Counter _ _ => [] | CounterVec _ _ labels | HistogramVec _ _ labels => labels end.

Definition name_char (colon first : bool) (a : ascii) : bool :=
  let n := nat_of_ascii a in
  ((65 <=? n) && (n <=? 90) || (97 <=? n) && (n <=? 122) || Ascii.eqb a "_" || colon && Ascii.eqb a ":"
   || negb first && (48 <=? n) && (n <=? 57))%nat.

Definition prometheus_name (colon : bool) (s : string) : bool :=
  match s with
  | "" => false
  | String a s => name_char colon true a && str_forall (name_char colon false) s
  end.

(** The names of the data model of Prometheus: a metric name may hold colons, a label is
    not reserved. *)
Definition well_named (c : collector) : Prop :=
  prometheus_name true (collector_name c) = true ∧ NoDup (collector_labels c) ∧
  Forall (λ l, prometheus_name false l = true ∧ HasPrefix l "__" = false) (collector_labels c).

#[export] Instance well_named_dec c : Decision (well_named c).
Proof. unfold well_named. apply _. Defined.

(** The default registry: [None] when Register refuses a collector. *)
Class Registry (R : Type) := {
  reg_Register : R → collector → option R;
  reg_collectors : R → list collector;
}.

(** A well-named collector is accepted under a new name. *)
Class RegistryLaws (R : Type) `{Registry R} := {
  reg_Register_new r c :
    well_named c → collector_name c ∉ map collector_name (reg_collectors r) →
    ∃ r', reg_Register r c = Some r' ∧ reg_collectors r' = c :: reg_collectors r;
}.

Section registration.
Context {R : Type} `{RegistryLaws R}.

(** [None] is a panic. *)
Definition MustRegister (r : R) (cs : list collector) : option R :=
  fold_left (λ r c, r ← r; reg_Register r c) cs (Some r).

Definition init (r : R) : option R := MustRegister r collectors.

Lemma MustRegister_new r cs :
  Forall well_named cs → NoDup (map collector_name cs) →
  Forall (λ c, collector_name c ∉ map collector_name (reg_collectors r)) cs →
  ∃ r', MustRegister r cs = Some r' ∧ reg_collectors r' = reverse cs ++ reg_collectors r.
Proof.
  unfold MustRegister. revert r. induction cs as [|c cs IH]; intros r Hw Hnd Hnew; [by exists r|].
  apply Forall_cons_1 in Hw as [Hc Hw], Hnew as [Hn Hnew]. cbn in Hnd. apply NoDup_cons in Hnd as [Hc' Hnd].
  cbn [fold_left mbind option_bind].
  destruct (reg_Register_new r c Hc Hn) as (r1 & -> & Hr1). destruct (IH r1 Hw Hnd) as (r' & -> & Hr').
  - apply Forall_forall. intros c' Hc1. rewrite Hr1. cbn. rewrite Forall_forall in Hnew. intros [E|Hin]%elem_of_cons.
    + apply Hc'. rewrite <- E. by apply list_elem_of_fmap_2.
    + by apply (Hnew c').
  - exists r'. split; [done|]. by rewrite Hr', Hr1, reverse_cons, <- app_assoc.
Qed.

(** The program starts with its metrics.  In a registry that has no collector of these names,
    [init] does not panic, and registers the six collectors. *)
Lemma init_registers r :
  Forall (λ c, collector_name c ∉ map collector_name (reg_collectors r)) collectors →
  ∃ r', init r = Some r' ∧ reg_collectors r' = reverse collectors ++ reg_collectors r.
Proof.
  apply MustRegister_new.
  - apply (bool_decide_unpack _). vm_compute. exact I.
  - apply (bool_decide_unpack _). vm_compute. exact I.
Qed.
End registration.
