(* ===== verification/Application.v ===== *)
(** Start-up, wiring and shutdown (internal/application/application.go), the clients of
    Redis and PostgreSQL (internal/persistence), the health endpoints and the functions
    of the templates (api/health-controller.go, api/templates.go).

    A step of the start-up ends with a value, with log.Fatal, or with a panic ([start]).
    What the constructors of other packages answer is the class [Connections].  A pointer
    that may be nil is an [option]; the connection that the token store and the cache
    share is one value, since nothing is sent to the server before the application runs. *)
From S2P Require Import Prelude GoStrings Errors Storage Archive Cache Service TokenStore FileStore AuthManager AuthProvider Oidc RedisServer RedisStore PGStore AnyStore Config.

(** ** Outcomes *)

Inductive start (A : Type) :=
  | Running (a : A)
  | Fatal (message : string)
  | Panic (reason : string).
Arguments Running {A} a.
Arguments Fatal {A} message.
Arguments Panic {A} reason.

Definition start_bind {A B} (x : start A) (f : A → start B) : start B :=
  match x with
  | Running a => f a
  | Fatal m => Fatal m
  | Panic m => Panic m
  end.

Notation "x <-! c ; k" := (start_bind c (λ x, k))
  (at level 100, c at next level, right associativity) : gimme_scope.

#[local] Open Scope gimme_scope.

(** ** Connections *)

Class Connections (R P C : Type) := {
  redis_options : Type;
  redis_ParseURL : string → string + redis_options;
  opt_Addr : redis_options → string;
  redis_NewClient : redis_options → R;
  redis_Ping : R → option string;
  redis_Close : R → option string;
  pgxpool_New : string → string + P;
  pgxpool_Ping : P → option string;
  (** The endpoint, the two keys, and whether TLS is used. *)
  minio_New : string → string → string → bool → string + C;
}.

(** [hmac.New(sha256.New, key)] fed with a message. *)
Class Hmac := { hmac_Sum256 : string → string → string }.

Section persistence.
Context {R P C : Type} `{Connections R P C}.

Record RedisClient := { redis_conn : option R }.

Definition NewRedisClient (redisURL : string) : string + RedisClient :=
  match redis_ParseURL redisURL with
  | inl err => inl ("invalid Redis URL: " +:+ err)
  | inr opt =>
      let client := redis_NewClient opt in
      match redis_Ping client with
      | Some err => inl ("cannot reach Redis at " +:+ Quote (opt_Addr opt) +:+ ": " +:+ err)
      | None => inr {| redis_conn := Some client |}
      end
  end.

(** The connections closed, and the client after it. *)
Definition redis_CloseConnection (rc : RedisClient) : list R * RedisClient :=
  match redis_conn rc with
  | Some client => ([client], {| redis_conn := None |})
  | None => ([], rc)
  end.

Record PGClient := { pg_conn : option P }.

Definition NewPGClient (pgURL : string) : string + PGClient :=
  match pgxpool_New pgURL with
  | inl err => inl ("failed to create PostgreSQL pool: " +:+ err)
  | inr p =>
      match pgxpool_Ping p with
      | Some err => inl ("failed to reach PostgreSQL: " +:+ err)
      | None => inr {| pg_conn := Some p |}
      end
  end.

Definition pg_CloseConnection (pgc : PGClient) : list P * PGClient :=
  match pg_conn pgc with
  | Some p => ([p], {| pg_conn := None |})
  | None => ([], pgc)
  end.

(** [client.GetClient()] and [client.GetPool()] panic on a nil receiver; a nil connection, which
    only a closed client has, would panic at the first call and counts as a panic here. *)
Definition GetClient (rc : option RedisClient) : start R :=
  match rc with
  | None => Panic "invalid memory address or nil pointer dereference"
  | Some rc => from_option Running (Panic "nil Redis connection") (redis_conn rc)
  end.

Definition GetPool (pgc : option PGClient) : start P :=
  match pgc with
  | None => Panic "invalid memory address or nil pointer dereference"
  | Some pgc => from_option Running (Panic "nil PostgreSQL pool") (pg_conn pgc)
  end.

(** storage.NewObjectStorageClient *)
Definition NewObjectStorageClient (config : Configuration) : result C :=
  match minio_New (S3Url config) (S3Key config) (S3Secret config) (S3SSL config) with
  | inl _ => fail InternalError "error while create object storage client"
  | inr c => Ok c
  end.
End persistence.
Arguments RedisClient R : clear implicits.
Arguments PGClient P : clear implicits.

(** ** Wiring *)

Definition deriveSecret `{Hmac} (masterSecret label : string) : string :=
  EncodeToString (hmac_Sum256 masterSecret label).

(** A signed 64-bit integer. *)
Definition wrap64 (z : Z) : Z := ((z + 2 ^ 63) mod 2 ^ 64 - 2 ^ 63)%Z.

(** [time.Duration(ttl) * time.Second] *)
Definition cache_ttl (config : Configuration) : Z := wrap64 (cache_TTL (Config.Cache config) * Second).

Section application.
Context {D P C : Type} `{Connections (redis_client D) P C} `{RedisServer D} `{PGPool P}.
Context `{!ObjectStorageClient C} `{TokenCrypto} `{TokensCodec} `{OIDCLibrary} `{JWT} `{GinBasicAuth} `{Hmac}.

(** The file store, or the Redis store, or the PostgreSQL store. *)
Definition AnyTokenStore : Type := FileTokenStore + (RedisTokenStore D + PGTokenStore P).

Definition AnyAuthProvider : Type := BasicAuthProvider + OIDCProvider.

#[export] Instance any_provider : AuthProvider AnyAuthProvider := {
  LoginMiddleware p := match p with inl b => LoginMiddleware b | inr o => LoginMiddleware o end;
  RegisterRoutes p := match p with inl b => RegisterRoutes b | inr o => RegisterRoutes o end;
}.

(** [tokenStore] is the store of [authManager], and [storageManager] and [cacheManager]
    are those of [contentService]: the fields hold the same pointers. *)
Record Application := {
  config : Configuration;
  authManager : AuthManager AnyTokenStore;
  authProvider : AnyAuthProvider;
  contentService : ContentService (Storage.objectStorageManager C) (redisCache (redis_client D));
  redisClient : option (RedisClient (redis_client D));
  pgClient : option (PGClient P);
}.

Definition tokenStore (app : Application) : AnyTokenStore := store (authManager app).

(** The token file that a start finds: the error of reading it, and the disk. *)
Record token_disk := { td_error : option string; td_disk : Disk; td_moment : nat }.

Definition NewRedisTokenStore (client : option (RedisClient (redis_client D))) : start (RedisTokenStore D) :=
  GetClient client.

Definition NewRedisCache (client : option (RedisClient (redis_client D))) : start (redisCache (redis_client D)) :=
  c <-! GetClient client; Running {| rc_client := c |}.

Definition configureTokenStore (td : token_disk) (c : Configuration) (redis : option (RedisClient (redis_client D)))
    : start (AnyTokenStore * option (PGClient P)) :=
  let mode := tokenStore_Mode (Config.TokenStore c) in
  if String.eqb mode "redis" then
    s <-! NewRedisTokenStore redis; Running (inr (inl s), None)
  else if String.eqb mode "postgres" then
    match NewPGClient (PostgresURL (Config.TokenStore c)) with
    | inl err => Fatal ("failed to connect to Postgres: " +:+ err)
    | inr pgc =>
        p <-! GetPool (Some pgc);
        match NewPGTokenStore p with
        | (inl err, _) => Fatal ("failed to initialise PGTokenStore: " +:+ err)
        | (inr s, _) => Running (inr (inr s), Some pgc)
        end
    end
  else
    match NewFileTokenStore (Secret c) (TokenFile c) (td_error td) (td_disk td) (td_moment td) with
    | inl err => Fatal ("failed to initialise FileTokenStore at " +:+ Quote (TokenFile c) +:+ ": " +:+ err)
    | inr s => Running (inl s, None)
    end.

Definition configureAuthProvider (c : Configuration) : start AnyAuthProvider :=
  if String.eqb (auth_Mode (Auth c)) "oidc" then
    let o := OIDC (Auth c) in
    let oidcSigningSecret := deriveSecret (Secret c) "oidc-session" in
    match NewOIDCProvider (Config.Issuer o) (ClientID o) (ClientSecret o) (RedirectURL o) oidcSigningSecret
            (SecureCookies o) with
    | inl err => Fatal ("failed to initialise OIDC provider: " +:+ err)
    | inr p => Running (inr p)
    end
  else Running (inl (NewBasicAuthProvider (AdminUser c) (AdminPassword c))).

Definition connectRedis (c : Configuration) : start (option (RedisClient (redis_client D))) :=
  if is_empty (RedisURL c) then Running None
  else match NewRedisClient (RedisURL c) with
       | inl err => Fatal ("failed to connect to Redis: " +:+ err)
       | inr rc => Running (Some rc)
       end.

Definition upload_limits (c : Configuration) : UploadLimits := {|
  Archive.MaxSize := Bytes (Config.MaxSize (Upload c));
  Archive.MaxEntries := Config.MaxEntries (Upload c);
  Archive.MaxUncompressedSize := Bytes (Config.MaxUncompressedSize (Upload c)) |}.

(** The bucket is created through the manager that the content service already holds. *)
Definition loadModules (td : token_disk) (c : Configuration) : start Application :=
  redis <-! connectRedis c;
  stores <-! configureTokenStore td c redis;
  let '(tokens, pgc) := stores in
  provider <-! configureAuthProvider c;
  match NewObjectStorageClient c with
  | Fail e => Fatal (Error e)
  | Ok osmClient =>
      let storageManager := NewObjectStorageManager osmClient in
      cacheManager <-! (if cache_Enabled (Config.Cache c)
                        then r <-! NewRedisCache redis; Running (Some r) else Running None);
      let svc := NewContentService storageManager cacheManager (cache_ttl c) (upload_limits c)
                   [WithCompression (compression_Enabled (Compression c))] in
      match CreateBucket (Service.objectStorageManager svc) (S3BucketName c) (S3Location c) with
      | (Some e, _) => Fatal (Error e)
      | (None, osm) =>
          Running {| config := c; authManager := NewAuthManager tokens; authProvider := provider;
                     contentService := set_store svc osm; redisClient := redis; pgClient := pgc |}
      end
  end.

Definition Run {V} `{Viper V} (td : token_disk) (v : V) : start Application :=
  match NewConfig v with
  | Fail e => Fatal (Error e)
  | Ok c => loadModules td c
  end.

(** ** Shutdown *)

(** What is released, in order. *)
Inductive released := ReleasedStore | ReleasedRedis (r : redis_client D) | ReleasedPG (p : P).

(** [app.tokenStore.Close()], which does nothing in the Redis store. *)
Definition close_store (t : AnyTokenStore) : AnyTokenStore :=
  match t with
  | inl s => inl (FileStore.Close s)
  | inr (inl s) => inr (inl s)
  | inr (inr s) => inr (inr (PGStore.Close s))
  end.

(** The end of setupServer, after the signal: [err] is the error of server.Shutdown. *)
Definition shutdown (err : option string) (app : Application) : start (list released * Application) :=
  match err with
  | Some _ => Fatal "Server forced to shutdown"
  | None =>
      let '(rs, redis) :=
        match redisClient app with
        | Some rc => let '(l, rc) := redis_CloseConnection rc in (l, Some rc)
        | None => ([], None)
        end in
      let '(ps, pgc) :=
        match pgClient app with
        | Some pgc => let '(l, pgc) := pg_CloseConnection pgc in (l, Some pgc)
        | None => ([], None)
        end in
      Running (ReleasedStore :: map ReleasedRedis rs ++ map ReleasedPG ps,
        {| config := config app; authManager := {| store := close_store (tokenStore app) |};
           authProvider := authProvider app; contentService := contentService app; redisClient := redis; pgClient := pgc |})
  end.
End application.

(** ** Requests outside the controllers *)

(** The fields of cors.Config that corsConfig sets. *)
Record cors_Config := { AllowAllOrigins : bool; AllowOrigins : list string }.

Definition corsConfig (DefaultConfig : cors_Config) (allowedOrigins : list string) : cors_Config :=
  match allowedOrigins with
  | [] => {| AllowAllOrigins := true; AllowOrigins := AllowOrigins DefaultConfig |}
  | [o] =>
      if String.eqb o "*" then {| AllowAllOrigins := true; AllowOrigins := AllowOrigins DefaultConfig |}
      else {| AllowAllOrigins := AllowAllOrigins DefaultConfig; AllowOrigins := [o] |}
  | l => {| AllowAllOrigins := AllowAllOrigins DefaultConfig; AllowOrigins := l |}
  end.

(** The labels metricsMiddleware counts a request under: route, method and status. *)
Definition metricsMiddleware (fullPath method : string) (status : Z) : option (string * string * string) :=
  let route := if String.eqb fullPath "" then "unknown" else fullPath in
  if String.eqb route "/metrics" then None
  else
    let status := if (status =? 0)%Z then 500%Z else status in
    Some (route, method, pretty status).

Section health.
Context {T K : Type} `{ObjectStorageManager T}.

Definition liveness : web_answer := WebStatus 200.

Definition readiness (storageManager : T) : web_answer :=
  match osm_Ping storageManager with
  | Some e => WebError 503 (Error e)
  | None => WebStatus 200
  end.
End health.
