(* ===== verification/ApplicationSpec.v ===== *)
(** What the start-up guarantees: with a configuration that NewConfig accepts no nil client
    is dereferenced, the application runs exactly when its services answer, its parts are
    those of the configuration, and its admin routes ask for the configured credentials. *)
From S2P Require Import Prelude GoStrings Errors Storage Archive Cache Service TokenStore FileStore AuthManager AuthProvider Oidc OidcSpec RedisServer RedisStore PGStore AnyStore Config ConfigSpec Application.

#[local] Open Scope gimme_scope.

Lemma start_bind_Running {A B} (x : start A) (f : A → start B) b :
  start_bind x f = Running b ↔ ∃ a, x = Running a ∧ f a = Running b.
Proof. destruct x; cbn; naive_solver. Qed.

Section application.
Context {D P C : Type} `{Connections (redis_client D) P C} `{RedisServer D} `{PGPool P}.
Context `{!ObjectStorageClient C} `{TokenCrypto} `{TokensCodec} `{OIDCLibrary} `{JWT} `{GinBasicAuth} `{Hmac}.
Implicit Types (c : Configuration) (app : Application (D := D) (P := P) (C := C)).

Notation store_mode c := (tokenStore_Mode (Config.TokenStore c)).
Notation auth_mode c := (auth_Mode (Auth c)).

(** ** The services of a configuration *)

Definition redis_up c : Prop := RedisURL c ≠ "" → ∃ rc, NewRedisClient (RedisURL c) = inr rc.

Definition store_up (td : token_disk) c : Prop :=
  (store_mode c = "postgres" → ∃ p, NewPGClient (PostgresURL (Config.TokenStore c)) = inr {| pg_conn := Some p |} ∧
     ∃ s, (NewPGTokenStore p).1 = inr s) ∧
  (store_mode c = "file" → ∃ s, NewFileTokenStore (Secret c) (TokenFile c) (td_error td) (td_disk td) (td_moment td) = inr s).

Definition provider_up c : Prop :=
  auth_mode c = "oidc" → ∃ pr, oidc_NewProvider (Config.Issuer (OIDC (Auth c))) = inr pr.

Definition storage_up c : Prop :=
  ∃ cl, minio_New (S3Url c) (S3Key c) (S3Secret c) (S3SSL c) = inr cl ∧
    (CreateBucket (NewObjectStorageManager cl) (S3BucketName c) (S3Location c)).1 = None.

(** ** The modules *)

(** The connection of a redis client that is open. *)
Definition shared (redis : option (RedisClient (redis_client D))) (r : redis_client D) : Prop :=
  redis = Some {| redis_conn := Some r |}.

Lemma NewRedisClient_open url rc : NewRedisClient url = inr rc → ∃ r : redis_client D, rc = {| redis_conn := Some r |}.
Proof.
  unfold NewRedisClient. destruct (redis_ParseURL url); [done|]. destruct (redis_Ping _); [done|].
  intros [= <-]. eauto.
Qed.

Lemma NewPGClient_open url pgc : NewPGClient url = inr pgc → ∃ p : P, pgc = {| pg_conn := Some p |}.
Proof.
  unfold NewPGClient. destruct (pgxpool_New url) as [|p]; [done|]. destruct (pgxpool_Ping p); [done|].
  intros [= <-]. eauto.
Qed.

Lemma connectRedis_spec c :
  match connectRedis c with
  | Running redis =>
      (RedisURL c = "" ∧ redis = None ∨ RedisURL c ≠ "" ∧ ∃ r, shared redis r) ∧ redis_up c
  | Fatal _ => ¬ redis_up c
  | Panic _ => False
  end.
Proof.
  unfold connectRedis, is_empty, redis_up. destruct (String.eqb_spec (RedisURL c) "") as [Hurl|Hurl].
  - split; [by left|done].
  - destruct (NewRedisClient (RedisURL c)) as [err|rc] eqn:Hrc.
    + intros Hup. by destruct (Hup Hurl).
    + split; [right|eauto]. split; [done|]. apply NewRedisClient_open in Hrc as [r ->]. by exists r.
Qed.

(** The store is the one of the mode, over the connections the application keeps. *)
Definition store_of c redis (t : AnyTokenStore (D := D) (P := P)) (pgc : option (PGClient P)) : Prop :=
  match t with
  | inl _ => store_mode c = "file" ∧ pgc = None
  | inr (inl r) => store_mode c = "redis" ∧ shared redis r ∧ pgc = None
  | inr (inr s) => store_mode c = "postgres" ∧ ∃ p, pgc = Some {| pg_conn := Some p |} ∧ (NewPGTokenStore p).1 = inr s
  end.

Lemma configureTokenStore_spec td c redis :
  well_formed c → (RedisURL c ≠ "" → ∃ r, shared redis r) →
  match configureTokenStore td c redis with
  | Running (t, pgc) => store_of c redis t pgc ∧ store_up td c
  | Fatal _ => ¬ store_up td c
  | Panic _ => False
  end.
Proof.
  intros Hwf Hredis. unfold configureTokenStore. cbv zeta.
  destruct (wf_store c Hwf) as [Hm|[[Hm Hurl]|[Hm Hurl]]]; rewrite Hm; cbn [String.eqb Ascii.eqb Bool.eqb].
  - destruct (NewFileTokenStore _ _ _ _ _) as [err|s] eqn:Hs.
    + intros [_ Hup]. destruct (Hup Hm) as [s Hs']. congruence.
    + split; [done|]. split; [congruence|eauto].
  - destruct (Hredis Hurl) as [r ->]. cbn. split; [done|]. split; congruence.
  - destruct (NewPGClient _) as [err|pgc] eqn:Hpg.
    { intros [Hup _]. destruct (Hup Hm) as (p & Hp & _). congruence. }
    destruct (NewPGClient_open _ _ Hpg) as [p ->]. cbn.
    destruct (NewPGTokenStore p) as [[err|s] p'] eqn:Hs.
    + intros [Hup _]. destruct (Hup Hm) as (p0 & Hp0 & s & Hs'). assert (p0 = p) as -> by congruence.
      by rewrite Hs in Hs'.
    + split; [split; [done|]|split; [|congruence]]; [|intros _]; exists p; rewrite ?Hs; eauto.
Qed.

Definition provider_of c (p : AnyAuthProvider) : Prop :=
  match p with
  | inl b => auth_mode c = "basic" ∧ b = NewBasicAuthProvider (AdminUser c) (AdminPassword c)
  | inr o => auth_mode c = "oidc" ∧ signingSecret o = deriveSecret (Secret c) "oidc-session" ∧
      secureCookies o = SecureCookies (OIDC (Auth c)) ∧
      oc_ClientID (oauth2_config o) = ClientID (OIDC (Auth c)) ∧
      oc_RedirectURL (oauth2_config o) = RedirectURL (OIDC (Auth c))
  end.

Lemma configureAuthProvider_spec c :
  well_formed c →
  match configureAuthProvider c with
  | Running p => provider_of c p ∧ provider_up c
  | Fatal _ => ¬ provider_up c
  | Panic _ => False
  end.
Proof.
  intros Hwf. unfold configureAuthProvider, provider_up, NewOIDCProvider. cbv zeta.
  destruct (wf_auth c Hwf) as [[Hm _]|[Hm _]]; rewrite Hm; cbn [String.eqb Ascii.eqb Bool.eqb].
  - by split.
  - destruct (oidc_NewProvider _) as [err|pr] eqn:Hp.
    + intros Hup. by destruct (Hup eq_refl).
    + split; [done|eauto].
Qed.

(** The cache is the one of the configuration, over the shared connection. *)
Definition cache_of c redis (k : option (redisCache (redis_client D))) : Prop :=
  match k with
  | Some r => cache_Enabled (Config.Cache c) = true ∧ shared redis (rc_client r)
  | None => cache_Enabled (Config.Cache c) = false
  end.

(** The parts of an application that runs with this configuration. *)
Record wired c app : Prop := {
  wired_config : config app = c;
  wired_store : store_of c (redisClient app) (tokenStore app) (pgClient app);
  wired_redis : is_Some (redisClient app) ↔ RedisURL c ≠ "";
  wired_provider : provider_of c (authProvider app);
  wired_cache : cache_of c (redisClient app) (cacheManager (contentService app));
  wired_limits : Archive.MaxSize (uploadLimits (contentService app)) = Bytes (MaxSize (Upload c)) ∧
    Archive.MaxUncompressedSize (uploadLimits (contentService app)) = Bytes (MaxUncompressedSize (Upload c)) ∧
    Archive.MaxEntries (uploadLimits (contentService app)) = MaxEntries (Upload c);
  wired_positive : (0 < Archive.MaxSize (uploadLimits (contentService app)) ∧
    0 < Archive.MaxUncompressedSize (uploadLimits (contentService app)) ∧
    0 < Archive.MaxEntries (uploadLimits (contentService app)))%Z;
  wired_compression : compressionEnabled (contentService app) = compression_Enabled (Compression c);
  wired_bucket : bucketName (Service.objectStorageManager (contentService app)) = S3BucketName c ∧
    location (Service.objectStorageManager (contentService app)) = S3Location c;
}.

Lemma CreateBucket_names (osm osm' : Storage.objectStorageManager C) bucket loc :
  CreateBucket osm bucket loc = (None, osm') → bucketName osm' = bucket ∧ location osm' = loc.
Proof.
  unfold CreateBucket. destruct (cl_MakeBucket _ _ _) as [[e|] cl]; [|by intros [= <-]].
  destruct (cl_BucketExists cl bucket) as [[] [e'|]]; intros [= <-]; done.
Qed.

Lemma cache_start c redis :
  well_formed c → (RedisURL c ≠ "" → ∃ r, shared redis r) →
  ∃ k, (if cache_Enabled (Config.Cache c)
        then r <-! NewRedisCache redis; Running (Some r) else Running None) = Running k ∧ cache_of c redis k.
Proof.
  intros Hwf Hredis. destruct (cache_Enabled (Config.Cache c)) eqn:He; [|by eexists].
  destruct (wf_cache c Hwf He) as [_ Hurl]. destruct (Hredis Hurl) as [r ->]. by eexists.
Qed.

(** Everything the configuration needs answers. *)
Definition services_up (td : token_disk) c : Prop := redis_up c ∧ store_up td c ∧ provider_up c ∧ storage_up c.

Lemma loadModules_spec td c :
  well_formed c →
  match loadModules td c with
  | Running app => wired c app ∧ services_up td c
  | Fatal _ => ¬ services_up td c
  | Panic _ => False
  end.
Proof.
  intros Hwf. unfold loadModules, services_up.
  pose proof (connectRedis_spec c) as Hr. destruct (connectRedis c) as [redis|msg|] eqn:Er; cbn [start_bind]; [|tauto..].
  destruct Hr as [Hredis Hup]. assert (Hopen : RedisURL c ≠ "" → ∃ r, shared redis r) by naive_solver.
  pose proof (configureTokenStore_spec td c redis Hwf Hopen) as Hs.
  destruct (configureTokenStore td c redis) as [[t pgc]|msg|]; cbn [start_bind]; [|tauto..].
  pose proof (configureAuthProvider_spec c Hwf) as Hp.
  destruct (configureAuthProvider c) as [pr|msg|]; cbn [start_bind]; [|tauto..].
  unfold NewObjectStorageClient, storage_up.
  destruct (minio_New _ _ _ _) as [err|cl] eqn:Hc; [intros (_ & _ & _ & cl & ? & _); congruence|].
  destruct (cache_start c redis Hwf Hopen) as (k & -> & Hk). cbn [start_bind NewContentService fold_left].
  cbn [WithCompression Service.objectStorageManager].
  destruct (CreateBucket _ _ _) as [[e|] osm] eqn:Hb.
  { intros (_ & _ & _ & cl' & E & Hnone). assert (cl' = cl) as -> by congruence. by rewrite Hb in Hnone. }
  split; [|split_and!; [tauto..|exists cl; by rewrite Hb]].
  apply CreateBucket_names in Hb. destruct (wf_sizes c Hwf) as [[_ ?] [_ ?]]. pose proof (wf_entries c Hwf).
  split; try done; cbn; [tauto| |tauto].
  destruct Hredis as [[-> ->]|[? [r ->]]]; split; try done; by intros [? ?].
Qed.

(** C31: the start-up does what the configuration says.  With a configuration that NewConfig
    accepts, loadModules never dereferences a nil client, and it runs exactly when the
    services the configuration asks for answer; every other outcome is a fatal error.  The
    application then has the token store of the mode, the Redis connection when there is
    a URL, shared by the token store and the cache, the authentication of the mode with
    its credentials or its derived key, positive upload limits, and its bucket. *)
Theorem loadModules_wired {V} `{Viper V} (v : V) (td : token_disk) c :
  NewConfig v = Ok c →
  Run td v = loadModules td c ∧
  (∀ reason, loadModules td c ≠ Panic reason) ∧
  ((∃ app, loadModules td c = Running app) ↔ services_up td c) ∧
  (∀ app, loadModules td c = Running app → wired c app).
Proof.
  intros Hv. unfold Run. rewrite Hv. split; [done|].
  pose proof (loadModules_spec td c (NewConfig_well_formed v c Hv)) as Hspec.
  destruct (loadModules td c) as [app|msg|reason]; [| |done].
  - destruct Hspec as [Hw Hup]. split; [done|]. split; [naive_solver|]. by intros app' [= <-].
  - split; [done|]. split; [|done]. split; [by intros [? ?]|done].
Qed.

(** Without the validation, the token store in Redis would need a URL. *)
Lemma loadModules_unvalidated td c :
  store_mode c = "redis" → RedisURL c = "" →
  loadModules td c = Panic "invalid memory address or nil pointer dereference".
Proof.
  intros Hm Hurl. unfold loadModules, connectRedis, is_empty. rewrite Hurl. cbn [String.eqb start_bind].
  unfold configureTokenStore. cbv zeta. by rewrite Hm.
Qed.
End application.

(** ** Access to the admin routes *)

Section access.
Context {D P C : Type} `{Connections (redis_client D) P C} `{RedisServer D} `{PGPool P}.
Context `{!ObjectStorageClient C} `{TokenCrypto} `{TokensCodec} `{OIDCLibrary} `{JWTLaws} `{GinBasicAuthLaws} `{Hmac}.
Context {T : Type} `{!TokenStore.TokenStore T} `{Sha256}.

(** The request shows what the configured authentication asks for. *)
Definition credentials (c : Configuration) (now : time) (r : WebRequest) : Prop :=
  if String.eqb (auth_Mode (Auth c)) "oidc" then
    ∃ cookie claims a, web_cookie r sessionCookieName = Some cookie ∧
      jwt_verifies (deriveSecret (Secret c) "oidc-session") (SigningMethodHMAC a) claims cookie ∧
      time_valid now claims ∧ Oidc.Issuer claims = "gimme" ∧ "gimme-admin" ∈ Audience claims
  else web_header r "Authorization" = authorizationHeader (AdminUser c) (AdminPassword c).

Lemma provider_credentials c (p : AnyAuthProvider) now r :
  well_formed c → provider_of c p →
  (∃ who, LoginMiddleware p now r = Continue who) ↔ credentials c now r.
Proof.
  intros Hwf Hp. unfold credentials. destruct p as [b|o]; cbn [LoginMiddleware any_provider].
  - destruct Hp as [Hm ->]. rewrite Hm. cbn [String.eqb Ascii.eqb Bool.eqb].
    apply basic_LoginMiddleware_exact. by destruct (wf_auth c Hwf) as [(_ & ? & _)|[Ho _]]; [|congruence].
  - destruct Hp as (Hm & Hs & _). rewrite Hm. cbn [String.eqb Ascii.eqb Bool.eqb LoginMiddleware oidc_provider].
    rewrite <- Hs. pose proof (LoginMiddleware_session o now r) as Hspec.
    destruct (oidc_LoginMiddleware o now r) as [who|a]; split.
    + intros _. destruct Hspec as (cookie & claims & Hc & ([m ?] & ? & ? & ?) & _). by exists cookie, claims, m.
    + eauto.
    + by intros [? ?].
    + intros (cookie & claims & a' & Hc & ? & ? & ? & ?). destruct (proj2 Hspec cookie claims Hc).
      split_and!; [by eexists|done..].
Qed.

(** C14: the admin routes are protected as configured.  Once the application runs with a
    configuration, a request to /admin, POST /tokens or DELETE /tokens/:id reaches its
    handler exactly when it shows the configured credentials: the Basic header of the
    admin user, or a session cookie signed under the key derived from the master secret
    for sessions.  Any other request is answered by the middleware and changes no token. *)
Theorem admin_access {V} `{Viper V} (v : V) td c (app : Application (D := D) (P := P) (C := C))
    (am : AuthManager T) now dr r route answer am' :
  NewConfig v = Ok c → loadModules td c = Running app →
  handle_admin (authProvider app) am now dr r route = (answer, am') →
  ((∃ status body, answer = Handled status body) ↔ credentials c now r) ∧
  ((∃ a, answer = LoginAnswer a) ↔ ¬ credentials c now r) ∧
  (¬ credentials c now r → am' = am).
Proof.
  intros Hv Hload Hadmin. pose proof (NewConfig_well_formed v c Hv) as Hwf.
  pose proof (loadModules_spec td c Hwf) as Hw. rewrite Hload in Hw. destruct Hw as [Hw _].
  pose proof (provider_credentials c (authProvider app) now r Hwf (wired_provider _ _ Hw)) as Hcred.
  destruct answer as [a|status body].
  - apply handle_admin_aborted in Hadmin as [-> Ha].
    assert (Hno : ¬ credentials c now r) by (intros [who Hwho]%Hcred; congruence). naive_solver.
  - apply handle_admin_handled in Hadmin as Hyes. apply Hcred in Hyes. naive_solver.
Qed.
End access.

(** ** From the admin page to a publication *)

Section tokens.
Context {A T : Type} `{AuthProvider A} `{TokenStoreLaws T} `{Sha256}.
Implicit Types am : AuthManager T.

Lemma handled_continue (provider : A) am now dr r route status body am' :
  handle_admin provider am now dr r route = (Handled status body, am') →
  match route with
  | GetAdmin => getAdmin am
  | PostToken b => createToken am dr b
  | DeleteToken id => deleteToken am now id
  end = (status, body, am').
Proof.
  unfold handle_admin. destruct (LoginMiddleware provider now r); [|done].
  destruct route; [destruct (getAdmin am) as [[? ?] ?]|destruct (createToken am dr body0) as [[? ?] ?]
    |destruct (deleteToken am now id) as [[? ?] ?]]; by intros [= -> -> ->].
Qed.

Lemma bears_Bearer token : token ≠ "" → bears ("Bearer " +:+ token) token.
Proof. intros Hne. split; [done|]. exists "Bearer". done. Qed.

Lemma createToken_201 am dr body status token am' :
  ts_inv (store am) → (∀ req, body = Some req → fresh_draws (store am) dr (rq_ExpirationDate req)) →
  createToken am dr body = (status, TokenBody token, am') →
  ts_inv (store am') ∧ (ts_reliable (store am) → ts_reliable (store am')) ∧ rs_Token token ≠ "" ∧
  ∃ e, ts_tokens (store am') !! rs_ID token = Some e ∧ TokenHash e = hashToken (rs_Token token) ∧ RevokedAt e = 0%Z ∧
    (ExpiresAt e = 0%Z ↔ rs_ExpiresAt token = 0%Z) ∧
    (rs_ExpiresAt token - Microsecond < ExpiresAt e ≤ rs_ExpiresAt token)%Z.
Proof.
  intros Hinv Hfresh. destruct body as [req|]; [|done]. cbn [createToken]. destruct (validate req); [done|].
  destruct (CreateToken am dr (rq_Name req) (rq_ExpirationDate req)) as [[[e raw]|err] am1] eqn:Hc; intros [= <- <- <-].
  destruct (CreateToken_spec _ _ _ _ _ _ Hinv (Hfresh req eq_refl) Hc) as (Hinv' & Hrel & buf & _ & -> & _ & He & Hin).
  cbn [rs_ID rs_Token rs_ExpiresAt]. split; [done|]. split; [done|]. split; [done|].
  destruct Hin as (m & e' & _ & _ & Hs & _ & Htok). exists e'. rewrite Htok, lookup_insert_eq. split; [done|].
  rewrite (stored_TokenHash _ _ Hs), He. split; [done|]. split; [by apply (stored_RevokedAt _ _ Hs); rewrite He|].
  split; [apply (stored_no_expiry _ _ Hs)|apply (stored_ExpiresAt _ _ Hs)].
Qed.

(** C16: what the admin page does decides what publishes.  A token that POST /tokens answers
    is accepted by the routes that publish and delete packages while the store answers:
    whatever else happens to the tokens, a request with it passes until its expiry (to the
    microsecond).  Once DELETE /tokens/:id answers 204 for it, no request with it passes
    any more.  The store may be any of the three, since the laws of the interface are all
    that is used. *)
Theorem admin_tokens (provider : A) am am1 am2 am3 am4 evs evs' now dr r body status token now' r' dr' b' later :
  ts_inv (store am) → ts_reliable (store am) →
  (∀ req, body = Some req → fresh_draws (store am) dr (rq_ExpirationDate req)) →
  handle_admin provider am now dr r (PostToken body) = (Handled status (TokenBody token), am1) →
  (∀ e, ts_tokens (store am1) !! rs_ID token = Some e → sparing_run e am1 evs am2) →
  ((later + Microsecond ≤ rs_ExpiresAt token)%Z →
     (AuthenticateMiddleware am2 later ("Bearer " +:+ rs_Token token)).1 = Next) ∧
  (clock_ok now' = true → handle_admin provider am2 now' dr' r' (DeleteToken (rs_ID token)) = (Handled 204 b', am3) →
   run (hashToken (rs_Token token)) am3 evs' am4 →
     (AuthenticateMiddleware am4 later ("Bearer " +:+ rs_Token token)).1 = AbortWithStatus 401).
Proof.
  intros Hinv Hrel Hfresh Hpost Hevs. apply handled_continue in Hpost.
  destruct (createToken_201 _ _ _ _ _ _ Hinv Hfresh Hpost) as (Hinv1 & Hrel1 & Hne & e & He & Hh & Hr & _ & Hx).
  assert (Hid : ID e = rs_ID token) by by apply (ts_inv_ID (store am1)).
  assert (Halive : alive e am2).
  { apply (sparing_run_alive e am1 evs am2 (Hevs e He)). split_and!; auto. by rewrite Hid. }
  destruct Halive as (Hinv2 & Hrel2 & He2 & _). rewrite Hid in He2. split.
  - intros Hlater. destruct (AuthenticateMiddleware am2 later _) as [o am'] eqn:Ha.
    destruct (authenticate_spec _ _ _ _ _ Hinv2 Ha) as (_ & _ & Hyes & _).
    apply (Hyes Hrel2 (rs_Token token) e); [by apply bears_Bearer|by exists (rs_ID token)|done|right; lia].
  - intros Hclock Hdel Hrun. apply handled_continue in Hdel. unfold deleteToken in Hdel.
    destruct (RevokeToken am2 now' (rs_ID token)) as [[] am''] eqn:Hrev; [|done]. injection Hdel as <- <-.
    assert (Hdead : dead (hashToken (rs_Token token)) am'') by (rewrite <- Hh; by eapply revoked_dead).
    apply (run_dead _ _ _ _ Hrun) in Hdead as [Hinv4 Hdead].
    destruct (AuthenticateMiddleware am4 later _) as [o am5] eqn:Ha.
    destruct (authenticate_spec _ _ _ _ _ Hinv4 Ha) as ([->| ->] & Hno & _); [|done].
    destruct (Hno eq_refl) as (token' & e' & Hb' & (id' & He' & Hh') & Hr' & _). exfalso.
    apply (Hdead id' e'); [done| |done].
    by rewrite Hh', (bears_unique _ _ _ Hb' (bears_Bearer _ Hne)).
Qed.
End tokens.
