(* ===== verification/ApplicationDemo.v ===== *)
(** The theorems of ApplicationSpec.v at concrete configurations: one with the token store
    and the cache in Redis and the sessions of an identity provider, one with the token
    file and the credentials of the environment. *)
From S2P Require Import Prelude GoStrings Errors Storage MemoryClient Archive Cache Service TokenStore FileStore AuthManager AuthFile AuthProvider Oidc OidcSpec RedisServer RedisStore RedisTokens PGStore PGTokens AnyStore Config ConfigSpec Application ApplicationSpec.

#[local] Existing Instance plain_digest.
#[local] Existing Instance bit_codec.
#[local] Existing Instance prefix_cipher.
#[local] Existing Instance quiet_store.
#[local] Existing Instance quiet_laws.
#[local] Existing Instance bit_jwt.
#[local] Existing Instance bit_jwt_laws.
#[local] Existing Instance demo_library.

#[local] Instance demo_connections : Connections (redis_client memory_server) memory_pg memory := {
  redis_options := string;
  redis_ParseURL url := if HasPrefix url "redis://" then inr url else inl "redis: invalid URL scheme"%string;
  opt_Addr o := o;
  redis_NewClient _ := empty_redis;
  redis_Ping _ := None;
  redis_Close _ := None;
  pgxpool_New _ := inr (pool empty_pg);
  pgxpool_Ping _ := None;
  minio_New _ _ _ _ := inr (memory_of ∅);
}.

#[local] Instance plain_hmac : Hmac := { hmac_Sum256 key message := key +:+ message }.

#[local] Instance demo_basic : GinBasicAuth := {
  gin_BasicAuth accounts header :=
    fst <$> head (filter (λ '(user, password), header = authorizationHeader user password) (map_to_list accounts));
}.

#[local] Instance demo_basic_laws : GinBasicAuthLaws.
Proof.
  split.
  - intros accounts header user. cbn. destruct (filter _ _) as [|[u pw] l] eqn:Hf; [done|]. intros [= ->].
    assert (Hin : (user, pw) ∈ filter (λ '(user, password), header = authorizationHeader user password)
      (map_to_list accounts)) by (rewrite Hf; by left).
    apply list_elem_of_filter in Hin as [Hh Hin]. apply elem_of_map_to_list in Hin. eauto.
  - intros accounts user password _ Hu. cbn. destruct (filter _ _) as [|x l] eqn:Hf; [|by eexists].
    assert (Hin : (user, password) ∈ filter (λ '(user', password'), authorizationHeader user password =
      authorizationHeader user' password') (map_to_list accounts)).
    { apply list_elem_of_filter. split; [done|]. by apply elem_of_map_to_list. }
    rewrite Hf in Hin. by apply elem_of_nil in Hin.
Qed.

Definition no_file : token_disk := {| td_error := None; td_disk := ∅; td_moment := 0 |}.

(** demo_env, with Redis and an identity provider. *)
Definition redis_env : memory_viper := {|
  vm_env := [("GIMME_TOKENSTORE_MODE", "redis"); ("GIMME_REDIS_URL", "redis://cache"); ("GIMME_CACHE_ENABLED", "true");
             ("GIMME_AUTH_MODE", "oidc"); ("GIMME_AUTH_OIDC_ISSUER", "https://idp");
             ("GIMME_AUTH_OIDC_CLIENT_ID", "gimme"); ("GIMME_AUTH_OIDC_REDIRECT_URL", "https://cdn/auth/callback")]
            ++ vm_env demo_env;
  vm_bound := []; vm_defaults := [] |}.

Definition redis_config : Configuration :=
  match NewConfig redis_env with Ok c => c | Fail _ => read_configuration redis_env end.

Lemma redis_config_eq : NewConfig redis_env = Ok redis_config.
Proof. now vm_compute. Qed.

Lemma demo_config_eq : NewConfig demo_env = Ok demo_config.
Proof. now vm_compute. Qed.

Lemma loadModules_wired_witness :
  (∃ app, loadModules no_file redis_config = Running app ∧ wired redis_config app ∧
     cacheManager (contentService app) = Some {| rc_client := empty_redis |}) ∧
  services_up no_file redis_config.
Proof.
  destruct (loadModules_wired redis_env no_file redis_config redis_config_eq) as (_ & _ & Hiff & Hwired).
  destruct (loadModules no_file redis_config) as [app| |] eqn:Hload; [|exfalso; revert Hload; now vm_compute..].
  split; [|apply Hiff; by exists app]. exists app. split; [done|]. split; [by apply Hwired|].
  revert Hload. vm_compute. by intros [= <-].
Defined.

(** ** The admin routes *)

Definition basic_request (password : string) : WebRequest := {|
  rq_Path := "/admin"; rq_Headers := {[ "Authorization" := authorizationHeader "gimme" password ]};
  rq_Cookies := ∅; rq_Params := ∅ |}.

Lemma admin_access_witness :
  ∃ app : Application (D := memory_server) (P := memory_pg) (C := memory),
    loadModules no_file demo_config = Running app ∧
    credentials demo_config 2000 (basic_request "gimme") ∧
    (handle_admin (authProvider app) demo_manager 2000 demo_draws (basic_request "guess") (DeleteToken "u1")).2
      = demo_manager.
Proof.
  destruct (loadModules (D := memory_server) (P := memory_pg) (C := memory) no_file demo_config) as [app| |] eqn:Hload;
    [|exfalso; revert Hload; now vm_compute..].
  destruct (handle_admin (authProvider app) demo_manager 2000 demo_draws (basic_request "gimme") GetAdmin) as [answer am] eqn:Ha.
  destruct (handle_admin (authProvider app) demo_manager 2000 demo_draws (basic_request "guess") (DeleteToken "u1"))
    as [answer' am'] eqn:Hb.
  destruct (admin_access demo_env no_file demo_config app demo_manager _ _ _ _ _ _ demo_config_eq Hload Ha) as ([Hyes _] & _ & _).
  destruct (admin_access demo_env no_file demo_config app demo_manager _ _ _ _ _ _ demo_config_eq Hload Hb) as (_ & _ & Hno).
  assert (Happ : authProvider app = inl (NewBasicAuthProvider "gimme" "gimme")).
  { revert Hload. vm_compute. by intros [= <-]. }
  exists app. split; [reflexivity|]. split.
  - apply Hyes. rewrite Happ in Ha. revert Ha. vm_compute. intros [= <- _]. eauto.
  - rewrite Hb. apply Hno. unfold credentials. vm_compute. discriminate.
Defined.

(** A token is created over the sum of the stores, published with, and revoked. *)
Definition any_manager : AuthManager (FileTokenStore + PGTokenStore memory_pg) := NewAuthManager (inl demo_store).

Definition demo_guard : BasicAuthProvider := NewBasicAuthProvider "gimme" "gimme".

Definition post : admin_answer * AuthManager (FileTokenStore + PGTokenStore memory_pg) :=
  handle_admin demo_guard any_manager 1000 demo_draws (basic_request "gimme")
    (PostToken (Some {| rq_Name := "ci"; rq_ExpirationDate := demo_date |})).

Definition demo_response : tokenResponse := {|
  rs_ID := "u1"; rs_Name := "ci"; rs_Token := demo_token; rs_CreatedAt := 1000;
  rs_ExpiresAt := (719163 * 24 * Hour)%Z |}.

Lemma admin_tokens_witness :
  let am2 := handle post.2 (EvAuthenticate 1500 "Basic x") in
  (AuthenticateMiddleware am2 2000 ("Bearer " +:+ demo_token)).1 = Next ∧
  (AuthenticateMiddleware (handle_admin demo_guard am2 3000 demo_draws (basic_request "gimme") (DeleteToken "u1")).2
     4000 ("Bearer " +:+ demo_token)).1 = AbortWithStatus 401.
Proof.
  intros am2.
  destruct (handle_admin demo_guard am2 3000 demo_draws (basic_request "gimme") (DeleteToken "u1")) as [answer am3] eqn:Hdel.
  assert (Hanswer : answer = Handled 204 NoBody).
  { change answer with (answer, am3).1. rewrite <- Hdel. now vm_compute. }
  subst answer. pose proof (λ later, admin_tokens demo_guard any_manager post.2 am2 am3 am3 [EvAuthenticate 1500 "Basic x"] [] 1000 demo_draws
    (basic_request "gimme") (Some {| rq_Name := "ci"; rq_ExpirationDate := demo_date |}) 201 demo_response 3000
    (basic_request "gimme") demo_draws NoBody later) as Htokens.
  split.
  - apply (Htokens 2000%Z).
    + change (wf demo_store). apply empty_wf.
    + exact I.
    + intros req _ buf e _ _ _ _ _ _. apply demo_store_fresh.
    + now vm_compute.
    + intros e _. apply sparing_cons; [exact I|apply sparing_nil].
    + clear. now vm_compute.
  - apply (Htokens 4000%Z).
    + change (wf demo_store). apply empty_wf.
    + exact I.
    + intros req _ buf e _ _ _ _ _ _. apply demo_store_fresh.
    + now vm_compute.
    + intros e _. apply sparing_cons; [exact I|apply sparing_nil].
    + now vm_compute.
    + exact Hdel.
    + apply run_nil.
Defined.
