(* ===== verification/Router.v ===== *)
(** The routes of the server (setupServer of internal/application/application.go and the
    constructors of the controllers under api/) as a table: the method and the pattern of
    each route, in the order of registration, with its chain of handlers.

    The matching of a path against the table is gin's: [Gin], with [GinLaws] for what gin
    documents.  A path is the unescaped URL.Path. *)
From S2P Require Import Prelude GoStrings AuthProvider Oidc Application.
From Stdlib Require Import Ascii.

(** ** Patterns *)

Inductive segment := Static (s : string) | Param (name : string) | CatchAll (name : string).

#[export] Instance segment_eq_dec : EqDecision segment.
Proof. solve_decision. Defined.

Definition parse_segment (s : string) : segment :=
  match s with
  | String a name => if Ascii.eqb a ":" then Param name else if Ascii.eqb a "*" then CatchAll name else Static s
  | "" => Static s
  end.

(** The segments of a pattern or of a path that starts with a slash. *)
Definition path_segments (path : string) : option (list string) :=
  match Split path "/" with
  | first :: segments => if String.eqb first "" then Some segments else None
  | [] => None
  end.

Definition pattern_segments (pattern : string) : list segment :=
  map parse_segment (default [] (path_segments pattern)).

(** The parameters for which the pattern is the path: a parameter is one segment, a
    catch-all the rest of the path with its slash. *)
Fixpoint match_segments (p : list segment) (path : list string) : option (gmap string string) :=
  match p, path with
  | [], [] => Some ∅
  | [CatchAll name], _ :: _ => Some {[ name := "/" +:+ Join path "/" ]}
  | Static s :: p, x :: path => if String.eqb s x then match_segments p path else None
  | Param name :: p, x :: path => <[name := x]> <$> match_segments p path
  | _, _ => None
  end.

Definition match_path (pattern path : string) : option (gmap string string) :=
  segments ← path_segments path; match_segments (pattern_segments pattern) segments.

(** [gin_find] gives the pattern of the route ([c.FullPath()]) and its parameters. *)
Class Gin := { gin_find : list (string * string) → string → string → option (string * gmap string string) }.

Class GinLaws `{Gin} := {
  gin_find_sound routes method path pattern params :
    gin_find routes method path = Some (pattern, params) →
    (method, pattern) ∈ routes ∧ match_path pattern path = Some params;
  (** A path that one route only is a pattern for, without an empty parameter, is found. *)
  gin_find_complete routes method path pattern params :
    (method, pattern) ∈ routes → match_path pattern path = Some params →
    map_Forall (λ _ value, value ≠ "") params →
    (∀ pattern' params', (method, pattern') ∈ routes → match_path pattern' path = Some params' → pattern' = pattern) →
    gin_find routes method path = Some (pattern, params);
}.

(** ** The table *)

(** The functions the routes are registered with, middlewares first. *)
Inductive handler :=
  | LoginMW
  | Authenticate
  | On_index
  | On_getAdmin
  | On_createToken
  | On_deleteToken
  | On_gimme
  | On_getPackageFolder
  | On_getPackage
  | On_createPackage
  | On_deletePackage
  | On_liveness
  | On_readiness
  | On_prometheus
  | On_provider (path : string)
  | On_static (directory : string).

#[export] Instance handler_eq_dec : EqDecision handler.
Proof. solve_decision. Defined.

Record entry := { et_Method : string; et_Pattern : string; et_Chain : list handler }.

#[export] Instance entry_eq_dec : EqDecision entry.
Proof. solve_decision. Defined.

Definition router_GET (pattern : string) (chain : list handler) : entry :=
  {| et_Method := "GET"; et_Pattern := pattern; et_Chain := chain |}.
Definition router_HEAD (pattern : string) (chain : list handler) : entry :=
  {| et_Method := "HEAD"; et_Pattern := pattern; et_Chain := chain |}.
Definition router_POST (pattern : string) (chain : list handler) : entry :=
  {| et_Method := "POST"; et_Pattern := pattern; et_Chain := chain |}.
Definition router_DELETE (pattern : string) (chain : list handler) : entry :=
  {| et_Method := "DELETE"; et_Pattern := pattern; et_Chain := chain |}.

(** [router.Static(prefix, directory)] *)
Definition router_Static (prefix directory : string) : list entry :=
  [router_GET (prefix +:+ "/*filepath") [On_static directory]; router_HEAD (prefix +:+ "/*filepath") [On_static directory]].

Definition NewRootController : list entry := [router_GET "/" [On_index]].

Definition NewAdminController : list entry :=
  [router_GET "/admin" [LoginMW; On_getAdmin];
   router_POST "/tokens" [LoginMW; On_createToken];
   router_DELETE "/tokens/:id" [LoginMW; On_deleteToken]].

Definition NewPackageController : list entry :=
  [router_GET "/gimme" [On_gimme];
   router_GET "/gimme/:package" [On_getPackageFolder];
   router_GET "/gimme/:package/*file" [On_getPackage];
   router_HEAD "/gimme/:package/*file" [On_getPackage];
   router_POST "/packages" [Authenticate; On_createPackage];
   router_DELETE "/packages/:package" [Authenticate; On_deletePackage]].

Definition NewHealthController : list entry := [router_GET "/healthz" [On_liveness]; router_GET "/readyz" [On_readiness]].

(** The routes that RegisterRoutes of a provider adds. *)
Definition provider_entries (routes : list (string * string)) : list entry :=
  map (λ r, {| et_Method := r.1; et_Pattern := r.2; et_Chain := [On_provider r.2] |}) routes.

Definition route_table (provider_routes : list (string * string)) (enableMetrics : bool) : list entry :=
  router_Static "/docs" "./docs" ++ router_Static "/assets" "./assets" ++
  provider_entries provider_routes ++ NewRootController ++ NewAdminController ++ NewPackageController ++
  NewHealthController ++ (if enableMetrics then [router_GET "/metrics" [On_prometheus]] else []).

Definition registered (table : list entry) : list (string * string) := map (λ e, (et_Method e, et_Pattern e)) table.

(** The chain of a route that gin has found. *)
Definition chain_of (table : list entry) (method pattern : string) : list handler :=
  default [] (et_Chain <$> head (filter (λ e, et_Method e = method ∧ et_Pattern e = pattern) table)).

(** ** No ambiguity *)

(** Some path could be an instance of both. *)
Fixpoint overlap (p q : list segment) : bool :=
  match p, q with
  | [], [] => true
  | CatchAll _ :: _, _ :: _ | _ :: _, CatchAll _ :: _ => true
  | Static s :: p, Static t :: q => String.eqb s t && overlap p q
  | _ :: p, _ :: q => overlap p q
  | _, _ => false
  end.

Lemma overlap_sound p q path ps qs :
  match_segments p path = Some ps → match_segments q path = Some qs → overlap p q = true.
Proof.
  revert q path ps qs. induction p as [|x p IH]; intros q path ps qs Hp Hq; destruct q as [|y q], path as [|z path];
    cbn in *; try destruct x as [s|n|n]; try destruct y as [t|n'|n']; try done; try (by destruct p); try (by destruct q).
  all: repeat match goal with
       | E : _ <$> _ = Some _ |- _ => apply fmap_Some in E as (? & E & _)
       | E : (if String.eqb ?a ?b then _ else _) = Some _ |- _ => destruct (String.eqb_spec a b) as [->|]; [|done]
       end; rewrite ?String.eqb_refl; by eapply IH.
Qed.

(** The patterns of two routes of one method are the same, or have no path in common. *)
Definition compatible (r r' : string * string) : bool :=
  negb (String.eqb r.1 r'.1) || String.eqb r.2 r'.2 || negb (overlap (pattern_segments r.2) (pattern_segments r'.2)).

Definition unambiguous (routes : list (string * string)) : bool :=
  forallb (λ r, forallb (compatible r) routes) routes.

Lemma unambiguous_sound routes method pattern pattern' path ps ps' :
  unambiguous routes = true → (method, pattern) ∈ routes → (method, pattern') ∈ routes →
  match_path pattern path = Some ps → match_path pattern' path = Some ps' → pattern' = pattern.
Proof.
  unfold unambiguous. rewrite forallb_forall. intros Hall Hin%list_elem_of_In Hin'%list_elem_of_In.
  specialize (Hall _ Hin). rewrite forallb_forall in Hall. specialize (Hall _ Hin').
  unfold match_path. intros (segments & Hs & Hp)%bind_Some (segments' & Hs' & Hp')%bind_Some.
  assert (segments' = segments) as -> by congruence. unfold compatible in Hall. cbn in Hall.
  rewrite String.eqb_refl, (overlap_sound _ _ _ _ _ Hp Hp') in Hall. cbn in Hall.
  rewrite orb_false_r in Hall. by apply String.eqb_eq in Hall.
Qed.

Definition oidc_routes : list (string * string) := [("GET", "/auth/login"); ("GET", "/auth/callback")].

Lemma table_unambiguous provider_routes enableMetrics :
  provider_routes = [] ∨ provider_routes = oidc_routes →
  unambiguous (registered (route_table provider_routes enableMetrics)) = true ∧
  NoDup (registered (route_table provider_routes enableMetrics)).
Proof.
  intros [-> | ->]; destruct enableMetrics; (split; [now vm_compute|]);
    apply (bool_decide_unpack _); now vm_compute.
Qed.
