(* ===== verification/Server.v ===== *)
(** The running server (setupServer of internal/application/application.go): a request
    goes through the CORS and metrics middlewares, is matched against the routes, and
    runs the chain of its route; uploads go on in the background of other requests until
    they answer; expired tokens are purged.

    A [Site] is what the handlers share: the content service with the uploads in flight
    ([system]), the tokens, the provider of the admin pages, and the counters of
    /metrics.  [dispatch] is a function: the choices a request leaves open are in its
    [circumstances], the clock and the random bytes. *)
From S2P Require Import Prelude GoStrings GoUrl Errors Semver Zip Mime Storage Version Compression.
From S2P Require Import Archive FileStore RedisServer RedisStore PGStore AnyStore Config Cache Service Upload Serve.
From S2P Require Import Negotiation TokenStore AuthManager AuthProvider Oidc Application PackageController Concurrent Router.
From Stdlib Require Import Ascii.

(** ** Requests *)

(** A request as gin reads it: [hq_Path] and [hq_Cookies] unescaped, [hq_Form] and
    [hq_JSON] what FormFile, PostForm and ShouldBindJSON give of its body. *)
Record HttpRequest := {
  hq_Method : string;
  hq_Path : string;
  hq_Headers : gmap string string;
  hq_RawQuery : string;
  hq_Cookies : gmap string string;
  hq_Form : upload_form;
  hq_JSON : option createTokenRequest;
}.

Definition package_request (hr : HttpRequest) : Request :=
  {| req_Method := if String.eqb (hq_Method hr) "HEAD" then HEAD else GET;
     req_Headers := hq_Headers hr; req_Query := hq_RawQuery hr |}.

Definition web_request (hr : HttpRequest) : WebRequest :=
  {| rq_Path := hq_Path hr; rq_Headers := hq_Headers hr; rq_Cookies := hq_Cookies hr;
     rq_Params := list_to_map (ParseQuery (hq_RawQuery hr)) |}.

(** The clock and the random bytes of a request. *)
Record circumstances := {
  ci_Now : time;
  ci_Draws : draws;
  ci_State : string + string;
  ci_Nonce : string + string;
  ci_Verified : time;
  ci_Issued : time;
}.

Inductive answer :=
  | PackageAnswer (response : Response)
  | AdminAnswer (answer : admin_answer)
  | ProviderAnswer (response : web_response)
  | PlainAnswer (answer : web_answer)
  | IndexPage
  | StaticFile (status : Z)
  | MetricsPage.

Definition web_status (a : web_answer) : Z :=
  match a with WebStatus s | WebError s _ | WebRedirect s _ => s end.

(** [c.Writer.Status()] *)
Definition answer_status (a : answer) : Z :=
  match a with
  | PackageAnswer r => rsp_Status r
  | AdminAnswer (LoginAnswer a) => web_status a
  | AdminAnswer (Handled s _) => s
  | ProviderAnswer r => web_status (rp_Answer r)
  | PlainAnswer a => web_status a
  | IndexPage | MetricsPage => 200
  | StaticFile s => s
  end.

(** What other packages answer: gin-contrib/cors, which may answer a request itself, the
    redirections of gin to the path with or without a slash, and the files of a
    directory. *)
Class Frontend := {
  cors_filter : cors_Config → HttpRequest → option web_answer;
  cors_DefaultConfig : cors_Config;
  gin_redirect : list (string * string) → HttpRequest → option web_answer;
  static_status : string → string → Z;
}.

(** The handlers of the routes that a provider registers. *)
Class AuthHandlers (P : Type) := { auth_handler : P → circumstances → WebRequest → string → web_response }.

#[export] Instance any_handlers `{OIDCLibrary} `{JWT} : AuthHandlers AnyAuthProvider := {
  auth_handler p c r path :=
    match p with
    | inl _ => {| rp_Cookies := []; rp_Answer := WebStatus 404 |}
    | inr o =>
        if String.eqb path "/auth/login" then handleLogin o (ci_State c) (ci_Nonce c)
        else handleCallback o (ci_Verified c) (ci_Issued c) r
    end;
}.

(** ** The site *)

Record Site (T K A P : Type) := {
  si_System : system T K;
  si_Auth : AuthManager A;
  si_Provider : P;
  si_Origins : list string;
  si_EnableMetrics : bool;
  (** metrics.HTTPRequestsTotal, by route, method and status. *)
  si_Requests : gmap (string * string * string) nat;
  (** The uploads whose request waits for its answer. *)
  si_Waiting : list nat;
}.
Arguments si_System {T K A P} _.
Arguments si_Auth {T K A P} _.
Arguments si_Provider {T K A P} _.
Arguments si_Origins {T K A P} _.
Arguments si_EnableMetrics {T K A P} _.
Arguments si_Requests {T K A P} _.
Arguments si_Waiting {T K A P} _.

(** The end of a chain: an answer, an archive for CreatePackage, or a listing that does
    not end. *)
Inductive outcome (X : Type) :=
  | Answered (a : answer) (x : X)
  | Accepted (name version file : string) (size : Z) (x : X)
  | Unanswered.
Arguments Answered {X} a x.
Arguments Accepted {X} name version file size x.
Arguments Unanswered {X}.

Section server.
Context {T K A P : Type} `{ObjectStorageManager T} `{MimeTable} `{Compressors} `{Digest} `{Processors}.
Context `{Semver} `{Normalizer} `{IgnoreMatcher} `{ZipFormat} `{CacheManager K} `{TokenStore A} `{Sha256}.
Context `{HttpTime} `{ObjectInfos T} `{Negotiator} `{AuthProvider P} `{AuthHandlers P} `{Gin} `{Frontend}.
Implicit Types (s : Site T K A P) (c : circumstances) (hr : HttpRequest).

Definition with_system s (y : system T K) : Site T K A P :=
  {| si_System := y; si_Auth := si_Auth s; si_Provider := si_Provider s; si_Origins := si_Origins s;
     si_EnableMetrics := si_EnableMetrics s; si_Requests := si_Requests s; si_Waiting := si_Waiting s |}.

Definition with_auth s (am : AuthManager A) : Site T K A P :=
  {| si_System := si_System s; si_Auth := am; si_Provider := si_Provider s; si_Origins := si_Origins s;
     si_EnableMetrics := si_EnableMetrics s; si_Requests := si_Requests s; si_Waiting := si_Waiting s |}.

Definition with_waiting s (waiting : list nat) : Site T K A P :=
  {| si_System := si_System s; si_Auth := si_Auth s; si_Provider := si_Provider s; si_Origins := si_Origins s;
     si_EnableMetrics := si_EnableMetrics s; si_Requests := si_Requests s; si_Waiting := waiting |}.

Definition content s : ContentService T K := sy_Content (si_System s).

Definition with_content s (svc : ContentService T K) : Site T K A P :=
  with_system s {| sy_Content := svc; sy_Uploads := sy_Uploads (si_System s) |}.

(** ** A chain *)

Definition param (ps : gmap string string) (name : string) : string := default "" (ps !! name).

Definition admin s (r : Z * admin_body * AuthManager A) : outcome (Site T K A P) :=
  let '(status, body, am) := r in Answered (AdminAnswer (Handled status body)) (with_auth s am).

(** The handler at the end of a chain. *)
Definition handle_last s c hr (ps : gmap string string) (h : handler) : outcome (Site T K A P) :=
  match h with
  | On_index => Answered IndexPage s
  | On_gimme => Answered (PlainAnswer (WebRedirect 302 "/")) s
  | On_getAdmin => admin s (getAdmin (si_Auth s))
  | On_createToken => admin s (createToken (si_Auth s) (ci_Draws c) (hq_JSON hr))
  | On_deleteToken => admin s (deleteToken (si_Auth s) (ci_Now c) (param ps "id"))
  | On_getPackageFolder =>
      match getPackageFolder (content s) (package_request hr) (param ps "package") with
      | Some response => Answered (PackageAnswer response) s
      | None => Unanswered
      end
  | On_getPackage =>
      match getPackage (content s) (package_request hr) (param ps "package") (param ps "file") with
      | (Some response, svc) => Answered (PackageAnswer response) (with_content s svc)
      | (None, _) => Unanswered
      end
  | On_createPackage =>
      match check_form (Archive.MaxSize (uploadLimits (content s))) (hq_Form hr) with
      | inl response => Answered (PackageAnswer response) s
      | inr (file, size) => Accepted (form_Name (hq_Form hr)) (form_Version (hq_Form hr)) file size s
      end
  | On_deletePackage =>
      let '(response, svc) := deletePackage (content s) (param ps "package") in
      Answered (PackageAnswer response) (with_content s svc)
  | On_liveness => Answered (PlainAnswer liveness) s
  | On_readiness => Answered (PlainAnswer (readiness (objectStorageManager (content s)))) s
  | On_prometheus => Answered MetricsPage s
  | On_provider path => Answered (ProviderAnswer (auth_handler (si_Provider s) c (web_request hr) path)) s
  | On_static directory => Answered (StaticFile (static_status directory (param ps "filepath"))) s
  | LoginMW | Authenticate => Answered (PlainAnswer (WebStatus 200)) s
  end.

Fixpoint run_chain s c hr (ps : gmap string string) (chain : list handler) : outcome (Site T K A P) :=
  match chain with
  | [] => Answered (PlainAnswer (WebStatus 200)) s
  | LoginMW :: chain =>
      match LoginMiddleware (si_Provider s) (ci_Now c) (web_request hr) with
      | Abort a => Answered (AdminAnswer (LoginAnswer a)) s
      | Continue _ => run_chain s c hr ps chain
      end
  | Authenticate :: chain =>
      match AuthenticateMiddleware (si_Auth s) (ci_Now c) (GetHeader (package_request hr) "Authorization") with
      | (AbortWithStatus status, am) => Answered (PackageAnswer (Status status)) (with_auth s am)
      | (Next, am) => run_chain (with_auth s am) c hr ps chain
      end
  | h :: _ => handle_last s c hr ps h
  end.

(** ** The middlewares *)

Definition table s : list entry := route_table (RegisterRoutes (si_Provider s)) (si_EnableMetrics s).

(** [metrics.HTTPRequestsTotal.WithLabelValues(...).Inc()] *)
Definition increment (labels : string * string * string) (counts : gmap (string * string * string) nat)
    : gmap (string * string * string) nat :=
  <[labels := S (default 0 (counts !! labels))]> counts.

Definition count_request s (fullPath method : string) (status : Z) : Site T K A P :=
  match metricsMiddleware fullPath method status with
  | None => s
  | Some labels =>
      {| si_System := si_System s; si_Auth := si_Auth s; si_Provider := si_Provider s; si_Origins := si_Origins s;
         si_EnableMetrics := si_EnableMetrics s; si_Requests := increment labels (si_Requests s);
         si_Waiting := si_Waiting s |}
  end.

(** The part of metricsMiddleware after [c.Next()], when the chain has answered. *)
Definition counted_outcome (fullPath method : string) (o : outcome (Site T K A P)) : outcome (Site T K A P) :=
  match o with
  | Answered a s => Answered a (count_request s fullPath method (answer_status a))
  | _ => o
  end.

Definition dispatch s c hr : outcome (Site T K A P) :=
  let routes := registered (table s) in
  match gin_find routes (hq_Method hr) (hq_Path hr), gin_redirect routes hr with
  | None, Some a => Answered (PlainAnswer a) s
  | found, _ =>
      match cors_filter (corsConfig cors_DefaultConfig (si_Origins s)) hr with
      | Some a => Answered (PlainAnswer a) s
      | None =>
          match found with
          | Some (fullPath, ps) =>
              counted_outcome fullPath (hq_Method hr)
                (run_chain s c hr ps (chain_of (table s) (hq_Method hr) fullPath))
          | None => counted_outcome "" (hq_Method hr) (Answered (PlainAnswer (WebStatus 404)) s)
          end
      end
  end.

(** ** Steps *)

Inductive label :=
  (** A request that is answered at once. *)
  | Responds (c : circumstances) (hr : HttpRequest) (a : answer)
  (** A request that starts CreatePackage. *)
  | Receives (c : circumstances) (hr : HttpRequest) (name version file : string) (size : Z)
  (** A call of an upload in flight. *)
  | Proceeds (e : event)
  (** The answer to the request of an upload. *)
  | Replies (i : nat) (response : Response)
  (** The purge of the token store. *)
  | Purges (now : time).

Inductive serves : label → Site T K A P → Site T K A P → Prop :=
  | serve_answer s c hr a s' :
      dispatch s c hr = Answered a s' → serves (Responds c hr a) s s'
  | serve_upload s c hr name version file size s1 y :
      dispatch s c hr = Accepted name version file size s1 →
      moves (Publish name version file size) (si_System s1) y →
      serves (Receives c hr name version file size) s
        (with_waiting (with_system s1 y) (si_Waiting s1 ++ [length (sy_Uploads (si_System s1))]))
  | serve_call s e i y :
      own i e = true → moves e (si_System s) y → serves (Proceeds e) s (with_system s y)
  | serve_reply s i p err :
      i ∈ si_Waiting s → sy_Uploads (si_System s) !! i = Some p → pb_Phase p = Replied err →
      serves (Replies i (upload_response err)) s
        (with_waiting (count_request s "/packages" "POST" (rsp_Status (upload_response err)))
           (filter (λ j, j ≠ i) (si_Waiting s)))
  | serve_purge s now :
      serves (Purges now) s (with_auth s {| store := ts_Purge (store (si_Auth s)) now |}).

(** Runs whose every step satisfies a condition on the state it finds. *)
Inductive served (ok : label → Site T K A P → Prop) : Site T K A P → list label → Site T K A P → Prop :=
  | served_nil s : served ok s [] s
  | served_snoc s1 s2 s3 ls l : served ok s1 ls s2 → ok l s2 → serves l s2 s3 → served ok s1 (ls ++ [l]) s3.

Lemma served_trans (ok : label → Site T K A P → Prop) s1 s2 s3 ls ls' :
  served ok s1 ls s2 → served ok s2 ls' s3 → served ok s1 (ls ++ ls') s3.
Proof.
  intros Hrun Hrun'. revert Hrun. induction Hrun' as [|s1' s2' s3' ls1 l _ IH Hok Hstep]; intros Hrun; [by rewrite app_nil_r|].
  rewrite app_assoc. econstructor; [by apply IH|done..].
Qed.

Lemma served_cons (ok : label → Site T K A P → Prop) s1 s2 s3 l ls :
  ok l s1 → serves l s1 s2 → served ok s2 ls s3 → served ok s1 (l :: ls) s3.
Proof. intros Hok Hstep. apply (served_trans _ _ _ _ [l]). by apply (served_snoc _ _ s1 _ []); [constructor|..]. Qed.

(** ** The steps as a function *)

Inductive input :=
  | Asks (c : circumstances) (hr : HttpRequest)
  | Calls (i : nat) (e : event)
  | Answers (i : nat)
  | Ticks (now : time).

(** The step of an input, the pools of the uploads scheduled by [next_upload]. *)
Definition serve (x : input) s : option (label * Site T K A P) :=
  match x with
  | Asks c hr =>
      match dispatch s c hr with
      | Answered a s' => Some (Responds c hr a, s')
      | Accepted name version file size s1 =>
          y ← try_move (Publish name version file size) (si_System s1);
          Some (Receives c hr name version file size,
                with_waiting (with_system s1 y) (si_Waiting s1 ++ [length (sy_Uploads (si_System s1))]))
      | Unanswered => None
      end
  | Calls i e => if own i e then y ← try_move e (si_System s); Some (Proceeds e, with_system s y) else None
  | Answers i =>
      p ← sy_Uploads (si_System s) !! i;
      match pb_Phase p with
      | Replied err =>
          if bool_decide (i ∈ si_Waiting s) then
            Some (Replies i (upload_response err),
                  with_waiting (count_request s "/packages" "POST" (rsp_Status (upload_response err)))
                    (filter (λ j, j ≠ i) (si_Waiting s)))
          else None
      | _ => None
      end
  | Ticks now => Some (Purges now, with_auth s {| store := ts_Purge (store (si_Auth s)) now |})
  end.

Fixpoint serve_all (xs : list input) s : option (list label * Site T K A P) :=
  match xs with
  | [] => Some ([], s)
  | x :: xs => '(l, s1) ← serve x s; '(ls, s2) ← serve_all xs s1; Some (l :: ls, s2)
  end.

Lemma serve_serves x s l s' : serve x s = Some (l, s') → serves l s s'.
Proof.
  destruct x as [c hr|i e|i|now]; cbn.
  - destruct (dispatch s c hr) as [a s1|name version file size s1|] eqn:Hd; [| |done].
    + intros [= <- <-]. by constructor.
    + intros [= <- <-]. econstructor; [done|]. constructor.
  - destruct (own i e) eqn:Hown; [|done]. intros (y & Hmove%try_move_moves & [= <- <-])%bind_Some. by econstructor.
  - intros (p & Hi & Hp)%bind_Some. destruct (pb_Phase p) as [| |err] eqn:Hph; [done..|].
    case_bool_decide; [|done]. injection Hp as <- <-. by econstructor.
  - intros [= <- <-]. constructor.
Qed.

(** A condition on the step of an input. *)
Definition every_step (ok : label → Site T K A P → Prop) (x : input) s : Prop :=
  match x with
  | Asks c hr =>
      (∀ a, ok (Responds c hr a) s) ∧ ∀ name version file size, ok (Receives c hr name version file size) s
  | Calls i e => ok (Proceeds e) s
  | Answers i => ∀ response, ok (Replies i response) s
  | Ticks now => ok (Purges now) s
  end.

Lemma serve_every (ok : label → Site T K A P → Prop) x s l s' : every_step ok x s → serve x s = Some (l, s') → ok l s.
Proof.
  destruct x as [c hr|i e|i|now]; cbn.
  - intros [Ha Hr]. destruct (dispatch s c hr); [| |done]; by intros [= <- _].
  - intros Hok. destruct (own i e); [|done]. by intros (y & _ & [= <- _])%bind_Some.
  - intros Hok (p & _ & Hp)%bind_Some. destruct (pb_Phase p); [done..|]. case_bool_decide; [|done]. by injection Hp as <- _.
  - by intros Hok [= <- _].
Qed.

(** The steps of the inputs, each on the state the earlier ones lead to. *)
Fixpoint every_steps (ok : label → Site T K A P → Prop) (xs : list input) s : Prop :=
  match xs with
  | [] => True
  | x :: xs => every_step ok x s ∧ every_steps ok xs (default s (snd <$> serve x s))
  end.

Lemma serve_all_served (ok : label → Site T K A P → Prop) xs s ls s' :
  every_steps ok xs s → serve_all xs s = Some (ls, s') → served ok s ls s'.
Proof.
  revert s ls. induction xs as [|x xs IH]; intros s ls; cbn; [intros _ [= <- <-]; constructor|].
  intros [Hx Hxs] ([l s1] & Hl & ([ls2 s2] & Hall & [= <- <-])%bind_Some)%bind_Some. rewrite Hl in Hxs.
  eapply served_cons; [by eapply serve_every|by eapply serve_serves|by apply IH].
Qed.
End server.

(** The site that an application starts. *)
Section start.
Context {D P C : Type} `{Connections (redis_client D) P C} `{RedisServer D} `{PGPool P}.
Context `{!ObjectStorageClient C} `{TokenCrypto} `{TokensCodec} `{OIDCLibrary} `{JWT}.

Definition setupServer (app : Application (D := D) (P := P) (C := C))
    : Site (Storage.objectStorageManager C) (redisCache (redis_client D)) AnyTokenStore AnyAuthProvider := {|
  si_System := {| sy_Content := contentService app; sy_Uploads := [] |};
  si_Auth := authManager app;
  si_Provider := authProvider app;
  si_Origins := Config.CORSAllowedOrigins (config app);
  si_EnableMetrics := Config.EnableMetrics (config app);
  si_Requests := ∅;
  si_Waiting := [] |}.
End start.
