(* ===== verification/ServerSpec.v ===== *)
(** What the running server promises: every path has one route; a run in which nobody shows
    a token changes no package, one in which nobody logs in creates and revokes no token;
    the uploads of a run are uploads of the concurrent system; and what was published is
    served, with its bytes, until it is deleted. *)
From S2P Require Import Prelude Order GoStrings GoUrl Errors Semver Zip Mime Storage Version Compression.
From S2P Require Import Archive Cache Service Upload UploadSpec Serve ServeSpec Negotiation TokenStore AuthManager AuthProvider.
From S2P Require Import Oidc Application PackageController ApiSpec Concurrent ConcurrentSpec Router Server.
From Stdlib Require Import Ascii.

(** ** Guards *)

(** The handlers that change packages or tokens come after the middleware that protects
    them. *)
Definition guarded (chain : list handler) : bool :=
  match chain with
  | [] => true
  | [LoginMW; On_getAdmin] | [LoginMW; On_createToken] | [LoginMW; On_deleteToken] => true
  | [Authenticate; On_createPackage] | [Authenticate; On_deletePackage] => true
  | [h] => match h with
           | LoginMW | Authenticate | On_getAdmin | On_createToken | On_deleteToken
           | On_createPackage | On_deletePackage => false
           | _ => true
           end
  | _ => false
  end.

Lemma table_guarded provider_routes enableMetrics :
  Forall (λ e, guarded (et_Chain e) = true) (route_table provider_routes enableMetrics).
Proof.
  unfold route_table. repeat apply Forall_app_2; try (by repeat constructor).
  - unfold provider_entries. apply Forall_map, Forall_true. done.
  - by destruct enableMetrics; repeat constructor.
Qed.

Lemma chain_guarded table method pattern :
  Forall (λ e, guarded (et_Chain e) = true) table → guarded (chain_of table method pattern) = true.
Proof.
  intros Hall. unfold chain_of. destruct (filter _ table) as [|e l] eqn:Hf; [done|]. cbn.
  assert (Hin : e ∈ filter (λ e, et_Method e = method ∧ et_Pattern e = pattern) table) by (rewrite Hf; by left).
  apply list_elem_of_filter in Hin as [_ Hin]. rewrite Forall_forall in Hall. by apply Hall.
Qed.

Section server.
Context {T K A P : Type} `{ManagerLaws T} `{Compressors} `{Digest} `{Processors}.
Context `{SemverLaws} `{Normalizer} `{IgnoreMatcher} `{ZipFormat} `{CacheLaws K} `{TokenStoreLaws A} `{Sha256}.
Context `{HttpTime} `{ObjectInfos T} `{Negotiator} `{AuthProvider P} `{AuthHandlers P} `{Gin} `{Frontend}.
Implicit Types (s : Site T K A P) (c : circumstances) (hr : HttpRequest).

(** ** Who changes what *)

(** The request presents a token that is stored, not revoked and not expired. *)
Definition shows_token s c hr : Prop :=
  ∃ token e, bears (GetHeader (package_request hr) "Authorization") token ∧ stored_token (store (si_Auth s)) token e ∧
    RevokedAt e = 0%Z ∧ (ExpiresAt e = 0%Z ∨ (ci_Now c ≤ ExpiresAt e)%Z).

(** The provider lets the request through to the admin pages. *)
Definition logs_in s c hr : Prop :=
  ∃ who, LoginMiddleware (si_Provider s) (ci_Now c) (web_request hr) = Continue who.

(** The bucket and the uploads are the same. *)
Definition same_packages (y y' : system T K) : Prop := bucket y' = bucket y ∧ sy_Uploads y' = sy_Uploads y.

(** No token appeared or changed; some may have lapsed. *)
Definition same_tokens s s' : Prop :=
  lapsed (ts_tokens (store (si_Auth s))) (ts_tokens (store (si_Auth s'))).

(** The draws of a request are fresh, and its clock is right. *)
Definition sane_request s c hr : Prop :=
  clock_ok (ci_Now c) = true ∧
  ∀ body, hq_JSON hr = Some body → fresh_draws (store (si_Auth s)) (ci_Draws c) (rq_ExpirationDate body).

(** What a request may do to the site, given what it shows. *)
Definition bounded s c hr s' : Prop :=
  ts_inv (store (si_Auth s')) ∧
  (shows_token s c hr ∨ same_packages (si_System s) (si_System s')) ∧
  (logs_in s c hr ∨ same_tokens s s').

Lemma bounded_refl s c hr : ts_inv (store (si_Auth s)) → bounded s c hr s.
Proof. intros Hinv. split; [done|]. split; [by right|right; apply lapsed_refl]. Qed.

(** What an outcome may do. *)
Definition allowed s c hr (o : outcome (Site T K A P)) : Prop :=
  match o with
  | Answered _ s' => bounded s c hr s'
  | Accepted _ _ _ _ s' => shows_token s c hr ∧ bounded s c hr s' ∧ si_System s' = si_System s
  | Unanswered => True
  end.

Lemma admin_allowed s c hr (r : Z * admin_body * AuthManager A) :
  logs_in s c hr → ts_inv (store r.2) → allowed s c hr (admin s r).
Proof. destruct r as [[status body] am]. intros Hlog Hinv. split; [done|]. split; [by right|by left]. Qed.

Lemma createToken_inv (am : AuthManager A) dr body :
  ts_inv (store am) → (∀ req, body = Some req → fresh_draws (store am) dr (rq_ExpirationDate req)) →
  ts_inv (store (createToken am dr body).2).
Proof.
  intros Hinv Hfresh. destruct body as [req|]; [|done]. cbn. destruct (validate req); [done|].
  destruct (CreateToken am dr (rq_Name req) (rq_ExpirationDate req)) as [[[e raw]|e] am'] eqn:Hc;
    by destruct (CreateToken_spec _ _ _ _ _ _ Hinv (Hfresh req eq_refl) Hc).
Qed.

Lemma deleteToken_inv (am : AuthManager A) now id :
  ts_inv (store am) → clock_ok now = true → ts_inv (store (deleteToken am now id).2).
Proof.
  intros Hinv Hnow. unfold deleteToken, RevokeToken. destruct (ts_Revoke (store am) now id) as [found t] eqn:Hr.
  apply ts_Revoke_spec in Hr as [? _]; [|done..]. by destruct found.
Qed.

Lemma getAdmin_inv (am : AuthManager A) : ts_inv (store am) → ts_inv (store (getAdmin am).2).
Proof.
  intros Hinv. unfold getAdmin, ListTokens. destruct (ts_List (store am)) as [l t] eqn:Hl.
  by apply ts_List_spec in Hl as [? _].
Qed.

(** A handler without a guard leaves the packages and the tokens as they are. *)
Lemma handle_last_allowed s c hr ps h :
  ts_inv (store (si_Auth s)) → guarded [h] = true → allowed s c hr (handle_last s c hr ps h).
Proof.
  intros Hinv Hg. destruct h; try done; try by apply bounded_refl.
  - cbn. destruct (getPackageFolder _ _ _); [by apply bounded_refl|done].
  - cbn. destruct (getPackage _ _ _ _) as [[response|] svc] eqn:Hget; [|done].
    split; [done|]. split; [right; split; [by eapply getPackage_store|done]|right; apply lapsed_refl].
Qed.

Lemma admin_chain_allowed s c hr ps h :
  ts_inv (store (si_Auth s)) → sane_request s c hr → logs_in s c hr → guarded [LoginMW; h] = true →
  allowed s c hr (handle_last s c hr ps h).
Proof.
  intros Hinv [Hclock Hfresh] Hlog Hg. destruct h; try done; apply admin_allowed; try done.
  - by apply getAdmin_inv.
  - by apply createToken_inv.
  - by apply deleteToken_inv.
Qed.

Lemma token_chain_allowed s c hr ps h am :
  ts_inv (store am) → shows_token s c hr → untouched (si_Auth s) am → guarded [Authenticate; h] = true →
  allowed s c hr (handle_last (with_auth s am) c hr ps h).
Proof.
  intros Hinv Htok [Hlapsed _] Hg. destruct h; try done; cbn.
  - destruct (check_form _ _) as [response|[file size]]; cbn; [|split; [done|split; [|done]]];
      (split; [done|split; [by left|by right]]).
  - destruct (deletePackage _ _) as [response svc]. cbn. split; [done|]. split; [by left|by right].
Qed.

Lemma run_chain_allowed s c hr ps chain :
  ts_inv (store (si_Auth s)) → sane_request s c hr → guarded chain = true → allowed s c hr (run_chain s c hr ps chain).
Proof.
  intros Hinv Hsane Hg. destruct chain as [|h chain]; [by apply bounded_refl|].
  destruct (decide (h = LoginMW)) as [->|Hlogin]; [|destruct (decide (h = Authenticate)) as [->|Hauth]].
  - destruct chain as [|h [|? ?]]; [done| |by destruct h]. cbn.
    destruct (LoginMiddleware _ _ _) as [who|a] eqn:Hlog; [|by apply bounded_refl].
    assert (Hl : logs_in s c hr) by by exists who. destruct h; try done; by apply admin_chain_allowed.
  - destruct chain as [|h [|? ?]]; [done| |by destruct h]. cbn [run_chain].
    destruct (AuthenticateMiddleware _ _ _) as [o am] eqn:Ha.
    destruct (authenticate_spec _ _ _ _ _ Hinv Ha) as (_ & Hnext & _ & Hinv' & Hun).
    destruct o as [|status]; [|split; [done|split; [by right|right; apply Hun]]].
    assert (Htok : shows_token s c hr) by by apply Hnext. destruct h; try done; by apply token_chain_allowed.
  - assert (chain = []) as -> by (by destruct chain as [|? ?], h).
    assert (E : run_chain s c hr ps [h] = handle_last s c hr ps h) by by destruct h.
    rewrite E. by apply handle_last_allowed.
Qed.

Lemma count_request_system s fullPath method status :
  si_System (count_request s fullPath method status) = si_System s ∧
  si_Auth (count_request s fullPath method status) = si_Auth s ∧
  si_Provider (count_request s fullPath method status) = si_Provider s ∧
  si_EnableMetrics (count_request s fullPath method status) = si_EnableMetrics s.
Proof. unfold count_request. by destruct (metricsMiddleware _ _ _). Qed.

Lemma counted_allowed s c hr fullPath method (o : outcome (Site T K A P)) :
  allowed s c hr o → allowed s c hr (counted_outcome fullPath method o).
Proof.
  destruct o as [a s'| |]; try done. cbn. unfold bounded, same_tokens.
  by destruct (count_request_system s' fullPath method (answer_status a)) as (-> & -> & _).
Qed.

Lemma dispatch_allowed s c hr :
  ts_inv (store (si_Auth s)) → sane_request s c hr → allowed s c hr (dispatch s c hr).
Proof.
  intros Hinv Hsane. unfold dispatch. cbv zeta.
  assert (Hchain : ∀ found, allowed s c hr
    match cors_filter (corsConfig cors_DefaultConfig (si_Origins s)) hr with
    | Some a => Answered (PlainAnswer a) s
    | None =>
        match found with
        | Some (fullPath, ps) =>
            counted_outcome fullPath (hq_Method hr) (run_chain s c hr ps (chain_of (table s) (hq_Method hr) fullPath))
        | None => counted_outcome "" (hq_Method hr) (Answered (PlainAnswer (WebStatus 404)) s)
        end
    end).
  { intros found. destruct (cors_filter _ hr); [by apply bounded_refl|].
    destruct found as [[fullPath ps]|]; apply counted_allowed; [|by apply bounded_refl].
    apply run_chain_allowed; [done..|]. apply chain_guarded, table_guarded. }
  destruct (gin_find _ _ _) as [found|]; [apply (Hchain (Some found))|].
  destruct (gin_redirect _ _); [by apply bounded_refl|apply (Hchain None)].
Qed.

(** ** Runs *)

(** The requests of the run have fresh draws and a right clock. *)
Definition sane (l : label) s : Prop :=
  match l with
  | Responds c hr _ | Receives c hr _ _ _ _ => sane_request s c hr
  | _ => True
  end.

Definition no_token (l : label) s : Prop :=
  match l with
  | Responds c hr _ | Receives c hr _ _ _ _ => ¬ shows_token s c hr
  | _ => True
  end.

Definition no_login (l : label) s : Prop :=
  match l with
  | Responds c hr _ | Receives c hr _ _ _ _ => ¬ logs_in s c hr
  | _ => True
  end.

Lemma same_packages_trans (y1 y2 y3 : system T K) :
  same_packages y1 y2 → same_packages y2 y3 → same_packages y1 y3.
Proof. intros [? ?] [? ?]. split; congruence. Qed.

(** A step of a sane run. *)
Lemma serves_bounded l s s' :
  ts_inv (store (si_Auth s)) → sane l s → serves l s s' →
  ts_inv (store (si_Auth s')) ∧
  (no_login l s → same_tokens s s') ∧
  (no_token l s → Forall (λ p, in_flight p = false) (sy_Uploads (si_System s)) →
   same_packages (si_System s) (si_System s')).
Proof.
  intros Hinv Hsane Hstep.
  destruct Hstep as [s c hr a s' Hd|s c hr name version file size s1 y Hd Hmove|s e i y Hown Hmove|s i p err _ _ _|s now].
  - pose proof (dispatch_allowed s c hr Hinv Hsane) as Hall. rewrite Hd in Hall. destruct Hall as (? & Htok & Hlog).
    split; [done|]. split; [by destruct Hlog|by destruct Htok].
  - pose proof (dispatch_allowed s c hr Hinv Hsane) as Hall. rewrite Hd in Hall.
    destruct Hall as (Hshow & (? & _ & Hlog) & _). split; [done|]. split; [by destruct Hlog|by intros Hno].
  - split; [done|]. split; [intros _; apply lapsed_refl|]. intros _ Hidle. exfalso.
    destruct Hmove as [|y j q pool pool' Hj Hph|y j q pool ph svc Hj Hph|y j q uploadErr err svc Hj Hph| |]; try done;
      pose proof (Forall_lookup_1 _ _ _ _ Hidle Hj) as Hq; cbn in Hq; unfold in_flight in Hq; by rewrite Hph in Hq.
  - split; [done|]. split; [intros _; apply lapsed_refl|done].
  - destruct (ts_Purge_spec (store (si_Auth s)) now Hinv) as (? & _ & Hlapsed & _). split; [done|].
    split; [by intros _|done].
Qed.

(** C5: outsiders change nothing.  In any run of the server from a token store in order, whose
    requests draw fresh bytes: when no request shows a token that is stored, not revoked
    and not expired at its instant, and no upload was in flight, the bucket and the uploads
    are as they were, whatever paths, methods, cookies and bodies were sent; when the
    provider lets no request through to the admin pages, no token has been added, revoked
    or changed, and the only ones that are gone could expire. *)
Theorem outsiders_change_nothing s ls s' :
  ts_inv (store (si_Auth s)) →
  (served (λ l s, sane l s ∧ no_token l s) s ls s' →
   Forall (λ p, in_flight p = false) (sy_Uploads (si_System s)) → same_packages (si_System s) (si_System s')) ∧
  (served (λ l s, sane l s ∧ no_login l s) s ls s' → same_tokens s s').
Proof.
  intros Hinv. split.
  - intros Hrun Hidle.
    cut (ts_inv (store (si_Auth s')) ∧ same_packages (si_System s) (si_System s')); [by intros []|].
    induction Hrun as [s|s s1 s2 ls l _ IH [Hsane Hno] Hstep]; [done|]. destruct (IH Hinv Hidle) as [Hinv1 Hsame].
    destruct (serves_bounded _ _ _ Hinv1 Hsane Hstep) as (? & _ & Hpk). split; [done|].
    eapply same_packages_trans; [exact Hsame|]. apply Hpk; [done|]. destruct Hsame as [_ ->]. done.
  - intros Hrun. cut (ts_inv (store (si_Auth s')) ∧ same_tokens s s'); [by intros []|].
    induction Hrun as [s|s s1 s2 ls l _ IH [Hsane Hno] Hstep]; [split; [done|apply lapsed_refl]|].
    destruct (IH Hinv) as [Hinv1 Hsame]. destruct (serves_bounded _ _ _ Hinv1 Hsane Hstep) as (? & Htk & _).
    split; [done|]. eapply lapsed_trans; [exact Hsame|]. by apply Htk.
Qed.

(** ** The concurrent system behind the server *)

(** A condition on the events of the system, as one on the steps of the server: an upload
    that is received is its arrival, and a DELETE of a package removes it. *)
Definition on_system (ok : event → system T K → Prop) (l : label) s : Prop :=
  match l with
  | Receives _ _ name version file size => ok (Publish name version file size) (si_System s)
  | Responds _ hr _ => ∀ pkg version,
      hq_Method hr = "DELETE" → hq_Path hr = "/packages/" +:+ folder_name pkg version →
      ok (Remove pkg version) (si_System s)
  | Proceeds e => ok e (si_System s)
  | _ => True
  end.

Lemma path_segments_join path segments : path_segments path = Some segments → segments ≠ [] → path = "/" +:+ Join segments "/".
Proof.
  unfold path_segments. destruct (Split path "/") as [|first l] eqn:Hs; [done|].
  destruct (String.eqb_spec first "") as [->|]; [|done]. intros [= ->] Hne.
  rewrite <- (Join_Split "/" path), Hs. by apply (Join_cons "").
Qed.

(** The path of a route with one parameter. *)
Lemma match_package path ps :
  match_path "/packages/:package" path = Some ps → path = "/packages/" +:+ param ps "package".
Proof.
  unfold match_path. intros (segments & Hs & Hm)%bind_Some.
  change (pattern_segments "/packages/:package") with [Static "packages"; Param "package"] in Hm.
  destruct segments as [|x [|z [|? ?]]]; cbn [match_segments] in Hm; try done;
    destruct (String.eqb_spec "packages" x) as [<-|]; try done. cbn in Hm. injection Hm as <-.
  apply path_segments_join in Hs as ->; [|done]. unfold param. by rewrite lookup_insert_eq.
Qed.

(** What one request does to the system: at most a read of a file, or the deletion of the
    package that its path names. *)
Definition one_move s hr s' : Prop :=
  si_System s' = si_System s ∨
  (∃ pkg version fileName accepted, moves (Fetch pkg version fileName accepted) (si_System s) (si_System s')) ∨
  ∃ pkg version, moves (Remove pkg version) (si_System s) (si_System s') ∧
    hq_Method hr = "DELETE" ∧ hq_Path hr = "/packages/" +:+ folder_name pkg version.

Lemma getPackage_fetch (svc svc' : ContentService T K) req package file response :
  getPackage svc req package file = (response, svc') →
  svc' = svc ∨ ∃ pkg version accepted res, GetFile svc pkg version file accepted = (res, svc').
Proof.
  unfold getPackage. destruct (_ && _); [intros [= _ <-]; by left|].
  destruct (getSlice package) as [slice|e]; [|intros [= _ <-]; by left].
  destruct (String.eqb file "/"); [intros [= _ <-]; by left|].
  destruct (GetFile _ _ _ _ _) as [[[obj enc]|e] svc1] eqn:Hget; intros [= _ <-]; right; eauto.
Qed.

Lemma deletePackage_remove (svc svc' : ContentService T K) package response :
  deletePackage svc package = (response, svc') →
  svc' = svc ∨ ∃ pkg version err, package = folder_name pkg version ∧ DeletePackage svc pkg version = (err, svc').
Proof.
  unfold deletePackage. destruct (getSlice package) as [slice|e] eqn:Hs; [|intros [= _ <-]; by left].
  apply getSlice_Ok in Hs as (Hp & _). destruct (DeletePackage _ _ _) as [[e|] svc1] eqn:Hd; intros [= _ <-]; right; eauto.
Qed.

Lemma with_content_same s : si_System (with_content s (content s)) = si_System s.
Proof. unfold content. cbn. by destruct (si_System s). Qed.

Lemma handle_last_move s c hr ps h s' a :
  (h = On_deletePackage → hq_Method hr = "DELETE" ∧ hq_Path hr = "/packages/" +:+ param ps "package") →
  handle_last s c hr ps h = Answered a s' → one_move s hr s'.
Proof.
  intros Hdel Hh. destruct h; cbn in Hh; try (injection Hh as _ <-; by left).
  - destruct (getAdmin _) as [[st b] am]. injection Hh as _ <-. by left.
  - destruct (createToken _ _ _) as [[st b] am]. injection Hh as _ <-. by left.
  - destruct (deleteToken _ _ _) as [[st b] am]. injection Hh as _ <-. by left.
  - destruct (getPackageFolder _ _ _); [|done]. injection Hh as _ <-. by left.
  - destruct (getPackage _ _ _ _) as [[response|] svc] eqn:Hget; [|done]. injection Hh as _ <-.
    apply getPackage_fetch in Hget as [->|(pkg & version & accepted & res & Hget)].
    + left. apply with_content_same.
    + right. left. exists pkg, version, (param ps "file"), accepted. by eapply (move_fetch (si_System s)).
  - destruct (check_form _ _) as [response|[file size]]; [|done]. injection Hh as _ <-. by left.
  - destruct (deletePackage _ _) as [response svc] eqn:Hd. injection Hh as _ <-. destruct (Hdel eq_refl) as [Hm Hp].
    apply deletePackage_remove in Hd as [->|(pkg & version & err & Hf & Hd)].
    + left. apply with_content_same.
    + right. right. exists pkg, version. rewrite <- Hf. split; [by eapply (move_remove (si_System s))|done].
Qed.

Lemma handle_last_accepted s c hr ps h name version file size s1 :
  handle_last s c hr ps h = Accepted name version file size s1 → s1 = s.
Proof.
  destruct h; cbn; try done.
  - by destruct (getAdmin _) as [[st b] am].
  - by destruct (createToken _ _ _) as [[st b] am].
  - by destruct (deleteToken _ _ _) as [[st b] am].
  - by destruct (getPackageFolder _ _ _).
  - by destruct (getPackage _ _ _ _) as [[response|] svc].
  - destruct (check_form _ _) as [response|[f z]]; [done|]. by intros [= _ _ _ _ <-].
  - by destruct (deletePackage _ _) as [response svc].
Qed.

Lemma run_chain_move s c hr ps chain :
  (On_deletePackage ∈ chain → hq_Method hr = "DELETE" ∧ hq_Path hr = "/packages/" +:+ param ps "package") →
  match run_chain s c hr ps chain with
  | Answered _ s' => one_move s hr s'
  | Accepted _ _ _ _ s1 => si_System s1 = si_System s
  | Unanswered => True
  end.
Proof.
  revert s. induction chain as [|h chain IH]; intros s Hdel; [by left|].
  assert (Hdel' : On_deletePackage ∈ chain → hq_Method hr = "DELETE" ∧ hq_Path hr = "/packages/" +:+ param ps "package")
    by (intros Hin; apply Hdel; by right).
  destruct (decide (h = LoginMW)) as [->|Hlogin]; [|destruct (decide (h = Authenticate)) as [->|Hauth]].
  - cbn. destruct (LoginMiddleware _ _ _); [by apply IH|by left].
  - cbn. destruct (AuthenticateMiddleware _ _ _) as [[|status] am]; [apply (IH (with_auth s am) Hdel')|by left].
  - assert (E : run_chain s c hr ps (h :: chain) = handle_last s c hr ps h) by by destruct h.
    rewrite E. destruct (handle_last s c hr ps h) as [a s'|name version file size s1|] eqn:Hh; [| |done].
    + eapply handle_last_move; [|exact Hh]. intros ->. apply Hdel. by left.
    + by apply handle_last_accepted in Hh as ->.
Qed.

Section routed.
Context `{!GinLaws}.

Lemma chain_of_elem table method pattern h :
  h ∈ chain_of table method pattern →
  ∃ e, e ∈ table ∧ et_Method e = method ∧ et_Pattern e = pattern ∧ h ∈ et_Chain e.
Proof.
  unfold chain_of. destruct (filter _ table) as [|e l] eqn:Hf; [by intros ?%not_elem_of_nil|]. cbn. intros Hh.
  assert (Hin : e ∈ filter (λ e, et_Method e = method ∧ et_Pattern e = pattern) table) by (rewrite Hf; by left).
  apply list_elem_of_filter in Hin as [[? ?] Hin]. by exists e.
Qed.

(** The only route of deletePackage. *)
Lemma delete_route provider_routes enableMetrics e :
  e ∈ route_table provider_routes enableMetrics → On_deletePackage ∈ et_Chain e →
  et_Method e = "DELETE" ∧ et_Pattern e = "/packages/:package".
Proof.
  intros Hin Hdel.
  cut (Forall (λ e, On_deletePackage ∈ et_Chain e → et_Method e = "DELETE" ∧ et_Pattern e = "/packages/:package")
    (route_table provider_routes enableMetrics)).
  { rewrite Forall_forall. intros Hall. by apply Hall. }
  assert (Hdec : ∀ l : list entry, forallb (λ e, bool_decide (On_deletePackage ∉ et_Chain e) ||
    String.eqb (et_Method e) "DELETE" && String.eqb (et_Pattern e) "/packages/:package") l = true →
    Forall (λ e, On_deletePackage ∈ et_Chain e → et_Method e = "DELETE" ∧ et_Pattern e = "/packages/:package") l).
  { intros l Hl. apply Forall_forall. intros e' He' Hd. rewrite forallb_forall in Hl.
    apply list_elem_of_In, Hl in He'. apply orb_true_iff in He' as [Hn%bool_decide_eq_true|Hb]; [done|].
    apply andb_true_iff in Hb as [?%String.eqb_eq ?%String.eqb_eq]. done. }
  unfold route_table. repeat apply Forall_app_2; try (by apply Hdec).
  - apply Forall_map, Forall_true. intros r. cbn. by intros ?%list_elem_of_singleton.
  - by destruct enableMetrics; apply Hdec.
Qed.

Lemma dispatch_move s c hr :
  match dispatch s c hr with
  | Answered _ s' => one_move s hr s'
  | Accepted _ _ _ _ s1 => si_System s1 = si_System s
  | Unanswered => True
  end.
Proof.
  unfold dispatch. cbv zeta.
  destruct (gin_find _ _ _) as [[fullPath ps]|] eqn:Hfind.
  - destruct (cors_filter _ hr); [by left|]. apply gin_find_sound in Hfind as [_ Hmatch].
    assert (Hdel : On_deletePackage ∈ chain_of (table s) (hq_Method hr) fullPath →
      hq_Method hr = "DELETE" ∧ hq_Path hr = "/packages/" +:+ param ps "package").
    { intros (e & He & Hm & Hp & Hd)%chain_of_elem. destruct (delete_route _ _ _ He Hd) as [Hm' Hp'].
      split; [congruence|]. apply match_package. by rewrite <- Hp', Hp. }
    pose proof (run_chain_move s c hr ps _ Hdel) as Hmove.
    destruct (run_chain _ _ _ _ _) as [a s'|name version file size s1|]; cbn [counted_outcome]; [|done..].
    unfold one_move. by destruct (count_request_system s' fullPath (hq_Method hr) (answer_status a)) as (-> & _).
  - destruct (gin_redirect _ _); [by left|]. destruct (cors_filter _ hr); [by left|]. left.
    apply count_request_system.
Qed.

Lemma count_waiting s (waiting : list nat) fullPath method status :
  si_System (with_waiting (count_request s fullPath method status) waiting) = si_System s.
Proof. apply count_request_system. Qed.

Lemma server_refines_runs (ok : event → system T K → Prop) s ls s' :
  (∀ pkg version fileName accepted y, ok (Fetch pkg version fileName accepted) y) →
  served (on_system ok) s ls s' → runs ok (si_System s) (si_System s').
Proof.
  intros Hfetch Hrun. induction Hrun as [s|s s1 s2 ls l _ IH Hok Hstep]; [constructor|].
  destruct Hstep as [s1 c hr a s2 Hd|s1 c hr name version file size s2 y Hd Hmove|s1 e i y Hown Hmove|s1 i p err _ _ _|s1 now].
  - pose proof (dispatch_move s1 c hr) as Hone. rewrite Hd in Hone.
    destruct Hone as [->|[(pkg & version & fileName & accepted & Hmove)|(pkg & version & Hmove & Hm & Hp)]]; [done| |].
    + econstructor; [exact IH|apply Hfetch|exact Hmove].
    + econstructor; [exact IH| |exact Hmove]. by apply Hok.
  - pose proof (dispatch_move s1 c hr) as Hone. rewrite Hd in Hone. rewrite Hone in Hmove.
    econstructor; [exact IH|exact Hok|exact Hmove].
  - econstructor; [exact IH|exact Hok|exact Hmove].
  - done.
  - done.
Qed.

(** C22: the server runs the concurrent system.  Whatever the requests, a run of the server is,
    for the bucket, the cache and the uploads, a run of the system of the uploads,
    deletions and reads in flight, in which a package is deleted only by a DELETE of
    its path and uploads arrive only from requests that are received. *)
Theorem server_refines (ok : event → system T K → Prop) s ls s' :
  (∀ pkg version fileName accepted y, ok (Fetch pkg version fileName accepted) y) →
  served (on_system ok) s ls s' → runs ok (si_System s) (si_System s').
Proof. apply server_refines_runs. Qed.

(** ** Routing *)

(** The providers of the application add no route, or those of OIDC. *)
Definition known_routes s : Prop :=
  RegisterRoutes (si_Provider s) = [] ∨ RegisterRoutes (si_Provider s) = oidc_routes.

Lemma registered_elem (l : list entry) e : e ∈ l → (et_Method e, et_Pattern e) ∈ registered l.
Proof. apply (list_elem_of_fmap_2 (λ e, (et_Method e, et_Pattern e))). Qed.

Lemma NoDup_fmap_inj {X Y} (f : X → Y) l x y : NoDup (map f l) → x ∈ l → y ∈ l → f x = f y → x = y.
Proof.
  intros Hnd [i Hi]%list_elem_of_lookup [j Hj]%list_elem_of_lookup E.
  assert (i = j) as <- by (eapply NoDup_lookup; [exact Hnd|..]; rewrite list_lookup_fmap; [by rewrite Hi|by rewrite Hj, E]).
  congruence.
Qed.

Lemma chain_of_entry (l : list entry) e :
  NoDup (registered l) → e ∈ l → chain_of l (et_Method e) (et_Pattern e) = et_Chain e.
Proof.
  intros Hnd He. unfold chain_of.
  assert (Hin : e ∈ filter (λ e', et_Method e' = et_Method e ∧ et_Pattern e' = et_Pattern e) l) by by apply list_elem_of_filter.
  destruct (filter _ l) as [|e' l'] eqn:Hf; [by apply not_elem_of_nil in Hin|]. cbn.
  assert (He' : e' ∈ filter (λ e', et_Method e' = et_Method e ∧ et_Pattern e' = et_Pattern e) l) by (rewrite Hf; by left).
  apply list_elem_of_filter in He' as [[Hm Hp] He']. f_equal. eapply NoDup_fmap_inj; [exact Hnd|done..|cbn; congruence].
Qed.

(** The route of an entry is found. *)
Lemma find_entry s e path ps :
  known_routes s → e ∈ table s → match_path (et_Pattern e) path = Some ps → map_Forall (λ _ value, value ≠ "") ps →
  gin_find (registered (table s)) (et_Method e) path = Some (et_Pattern e, ps).
Proof.
  intros Hknown He Hmatch Hps. apply gin_find_complete; [by apply registered_elem|done..|].
  intros pattern' ps' Hin Hmatch'. destruct (table_unambiguous _ (si_EnableMetrics s) Hknown) as [Hun _].
  eapply unambiguous_sound; [exact Hun|by apply registered_elem|exact Hin|exact Hmatch|exact Hmatch'].
Qed.

(** C15: every path has one route.  When CORS lets a request through, a path that the
    pattern of a route describes, with no empty parameter, is handled by the chain of this
    route, and counted under its pattern, its method and the status of the answer; no other
    route of the method describes it (/metrics is handled the same but counts nothing).  A path
    that no route of the method describes is
    redirected by gin or answered 404, without any handler. *)
Theorem routes_resolved s c hr :
  known_routes s → cors_filter (corsConfig cors_DefaultConfig (si_Origins s)) hr = None →
  (∀ e ps, e ∈ table s → et_Method e = hq_Method hr → match_path (et_Pattern e) (hq_Path hr) = Some ps →
     map_Forall (λ _ value, value ≠ "") ps →
     dispatch s c hr = counted_outcome (et_Pattern e) (hq_Method hr) (run_chain s c hr ps (et_Chain e)) ∧
     ∀ e' ps', e' ∈ table s → et_Method e' = hq_Method hr → match_path (et_Pattern e') (hq_Path hr) = Some ps' → e' = e) ∧
  ((∀ e, e ∈ table s → et_Method e = hq_Method hr → match_path (et_Pattern e) (hq_Path hr) = None) →
   dispatch s c hr = match gin_redirect (registered (table s)) hr with
                     | Some a => Answered (PlainAnswer a) s
                     | None => counted_outcome "" (hq_Method hr) (Answered (PlainAnswer (WebStatus 404)) s)
                     end).
Proof.
  intros Hknown Hcors. destruct (table_unambiguous _ (si_EnableMetrics s) Hknown) as [Hun Hnd]. split.
  - intros e ps He Hm Hmatch Hps. split.
    + unfold dispatch. rewrite <- Hm, (find_entry s e _ ps) by done. by rewrite Hcors, (chain_of_entry (table s)).
    + intros e' ps' He' Hm' Hmatch'. eapply (NoDup_fmap_inj _ (table s)); [exact Hnd|done..|]. cbn.
      assert (et_Pattern e' = et_Pattern e) as ->; [|congruence].
      eapply unambiguous_sound; [exact Hun|apply registered_elem, He| |exact Hmatch|exact Hmatch'].
      rewrite Hm, <- Hm'. by apply registered_elem.
  - intros Hnone. unfold dispatch. destruct (gin_find _ _ _) as [[pattern ps]|] eqn:Hf.
    + apply gin_find_sound in Hf as [(e & [= Hm Hp] & He)%list_elem_of_fmap Hmatch].
      rewrite Hp, Hnone in Hmatch by done. done.
    + by rewrite Hcors.
Qed.

(** ** What is published is served *)

(** The store answers the reads of what it holds. *)
Definition readable (store : T) : Prop :=
  ∀ k so, osm_view store !! k = Some so → ∃ obj, osm_GetObject store k = Ok obj ∧ osm_Stat store obj = Some so.

(** A GET of a path with no condition and no choice of coding. *)
Definition plain_get hr (path : string) : Prop :=
  hq_Method hr = "GET" ∧ hq_Path hr = path ∧
  GetHeader (package_request hr) "Accept-Encoding" = "" ∧ GetHeader (package_request hr) "If-None-Match" = "" ∧
  GetHeader (package_request hr) "If-Modified-Since" = "".

Lemma getSlice_folder name version :
  validatePackageIdentity name version = None →
  getSlice (folder_name name version) = Ok {| ps_Name := name; ps_Version := version |} ∧
  Contains (folder_name name version) "@" = true ∧ char_free "/" (folder_name name version) = true.
Proof.
  intros [Hn Hv]%validated_iff.
  assert (Hname : name ≠ "") by (intros ->; done).
  assert (Hversion : version ≠ "").
  { intros ->. unfold isFullSemver in Hv. by apply andb_true_iff in Hv as [? _]. }
  assert (Hfree : char_free "@" name = true) by by apply name_char_free.
  unfold folder_name. split; [|split].
  - unfold getSlice. change ("@" +:+ version) with (String "@" version). rewrite SplitN2_app by done.
    by destruct (String.eqb_spec name ""), (String.eqb_spec version "").
  - apply Contains_true. by exists name, version.
  - apply char_free_app. split; [by apply name_char_free|]. apply (char_free_app "/" "@"). split; [done|].
    by apply full_char_free.
Qed.

(** A stored file of a pinned version is answered with its bytes. *)
Lemma getPackage_stored (svc : ContentService T K) req name version path so :
  validatePackageIdentity name version = None → IsPinnedVersion version = true → path ≠ "" →
  readable (objectStorageManager svc) →
  osm_view (objectStorageManager svc) !! (folder_name name version +:+ "/" +:+ path) = Some so →
  req_Method req = GET → GetHeader req "Accept-Encoding" = "" → GetHeader req "If-None-Match" = "" →
  GetHeader req "If-Modified-Since" = "" →
  ∃ response, getPackage svc req (folder_name name version) ("/" +:+ path) = (Some response, svc) ∧
    rsp_Status response = 200%Z ∧ rsp_Body response = ObjectBody (so_data so) ∧
    rsp_Headers response !! "Content-Encoding" = None ∧
    rsp_Headers response !! "Cache-Control" = Some "public, max-age=31536000, immutable"%string.
Proof.
  intros Hid Hpin Hpath Hread Hso Hm Hae Hinm Hims.
  destruct (getSlice_folder _ _ Hid) as (Hslice & Hat & _). destruct (Hread _ _ Hso) as (obj & Hobj & Hstat).
  unfold getPackage. rewrite Hat, Hslice. cbn [negb andb ps_Name ps_Version].
  assert (Hfile : String.eqb ("/" +:+ path) "/" = false).
  { apply String.eqb_neq. intros E. injection E as E. done. }
  rewrite Hfile, Hae. change (encodings_ (parseAcceptEncoding "")) with (@nil Encoding).
  apply validated_iff in Hid as [_ Hfull]. unfold isFullSemver in Hfull. apply andb_true_iff in Hfull as [_ Hvalid].
  assert (HF : GetFile svc name version ("/" +:+ path) [] = (Ok (obj, ""), svc)).
  { unfold GetFile, version_valid. rewrite Hvalid, orb_true_r, Hpin. cbn [negb].
    unfold getEncodedObject, object_path, cache_key. rewrite Hpin. destruct (compressibleContentType _) as [ct compressible].
    cbn [try_encodings]. destruct compressible, (cacheManager svc) eqn:Hcm; by rewrite Hobj, ?Hcm. }
  rewrite HF. eexists. split; [done|].
  assert (Hnot : ∀ etag date, notModified req etag date = false).
  { intros etag date. unfold notModified. by rewrite Hinm, Hims. }
  assert (Hident : Negotiation.identity (parseAcceptEncoding "") = true) by now vm_compute.
  unfold object_response. rewrite Hstat, Hident, Hnot. cbn [String.eqb andb negb rsp_Status rsp_Body rsp_Headers]. rewrite Hm.
  destruct (object_headers_fixed (objectStorageManager svc) obj so version) as (Hcc & _ & Henc).
  split; [done|]. split; [done|]. unfold set_header. repeat rewrite lookup_insert_ne by done. split; [done|].
  rewrite Hcc. unfold cacheControlHeader. by rewrite Hpin.
Qed.

Lemma match_file folder path :
  char_free "/" folder = true →
  match_path "/gimme/:package/*file" ("/gimme/" +:+ folder +:+ "/" +:+ path)
  = Some (<["package" := folder]> {[ "file" := "/" +:+ path ]}).
Proof.
  intros Hfree. unfold match_path.
  assert (Hs : path_segments ("/gimme/" +:+ folder +:+ "/" +:+ path) = Some ("gimme"%string :: folder :: Split path "/")).
  { unfold path_segments. change ("/gimme/" +:+ folder +:+ "/" +:+ path) with
      ("" +:+ String "/" ("gimme" +:+ String "/" (folder +:+ String "/" path))). by rewrite !Split_app. }
  rewrite Hs. change (pattern_segments "/gimme/:package/*file") with [Static "gimme"; Param "package"; CatchAll "file"].
  cbn [mbind option_bind match_segments].
  destruct (Split path "/") as [|first l] eqn:Hp; [by apply Split_nonempty in Hp|]. rewrite <- Hp, Join_Split. done.
Qed.

(** A GET below the folder of a version runs getPackage on it. *)
Lemma dispatch_file s c hr name version path response :
  known_routes s → cors_filter (corsConfig cors_DefaultConfig (si_Origins s)) hr = None →
  validatePackageIdentity name version = None → hq_Method hr = "GET" →
  hq_Path hr = "/gimme/" +:+ folder_name name version +:+ "/" +:+ path →
  getPackage (content s) (package_request hr) (folder_name name version) ("/" +:+ path) = (Some response, content s) →
  ∃ s', dispatch s c hr = Answered (PackageAnswer response) s' ∧ si_System s' = si_System s.
Proof.
  intros Hknown Hcors Hid Hm Hp Hget. destruct (getSlice_folder _ _ Hid) as (_ & _ & Hfree).
  pose (e := router_GET "/gimme/:package/*file" [On_getPackage]).
  assert (He : e ∈ table s).
  { unfold table, route_table, NewPackageController. rewrite !elem_of_app. subst e. do 5 right. left. do 2 right. by left. }
  destruct (table_unambiguous _ (si_EnableMetrics s) Hknown) as [_ Hnd].
  unfold dispatch. rewrite Hm, Hp. change "GET"%string with (et_Method e).
  rewrite (find_entry s e _ _ Hknown He (match_file _ path Hfree)).
  2: { apply map_Forall_insert_2; [|by apply map_Forall_singleton]. intros E. by destruct name. }
  rewrite Hcors, (chain_of_entry (table s)) by done. cbn [e et_Chain router_GET run_chain handle_last].
  set (ps := <["package" := folder_name name version]> _).
  assert (param ps "package" = folder_name name version) as -> by (unfold param, ps; by rewrite lookup_insert_eq).
  assert (param ps "file" = "/" +:+ path) as ->.
  { unfold param, ps. by rewrite lookup_insert_ne, lookup_singleton_eq. }
  rewrite Hget. eexists. split; [done|]. etrans; [apply count_request_system|apply with_content_same].
Qed.

(** A stored file of a pinned version is served. *)
Lemma dispatch_stored s c hr name version path so :
  known_routes s → cors_filter (corsConfig cors_DefaultConfig (si_Origins s)) hr = None →
  validatePackageIdentity name version = None → IsPinnedVersion version = true → path ≠ "" →
  readable (bucket (si_System s)) → view (si_System s) !! (folder_name name version +:+ "/" +:+ path) = Some so →
  plain_get hr ("/gimme/" +:+ folder_name name version +:+ "/" +:+ path) →
  ∃ response s', dispatch s c hr = Answered (PackageAnswer response) s' ∧ si_System s' = si_System s ∧
    rsp_Status response = 200%Z ∧ rsp_Body response = ObjectBody (so_data so) ∧
    rsp_Headers response !! "Content-Encoding" = None ∧
    rsp_Headers response !! "Cache-Control" = Some "public, max-age=31536000, immutable"%string.
Proof.
  intros Hknown Hcors Hid Hpin Hpath Hread Hso (Hm & Hp & Hae & Hinm & Hims).
  destruct (getPackage_stored (content s) (package_request hr) name version path so) as (response & Hget & Hresp); try done.
  { unfold package_request. by rewrite Hm. }
  destruct (dispatch_file s c hr _ _ _ _ Hknown Hcors Hid Hm Hp Hget) as (s' & Hd & Hsys). by exists response, s'.
Qed.

(** What the run of an upload leaves of its version, from its answer on. *)
Lemma published_stays s0 ls s s1 ls' s2 i p p1 :
  Forall (λ p, in_flight p = false) (sy_Uploads (si_System s0)) → served (on_system orderly) s0 ls s →
  sy_Uploads (si_System s) !! i = Some p → serves (Proceeds (Wait i)) s s1 →
  sy_Uploads (si_System s1) !! i = Some p1 → pb_Phase p1 = Replied None →
  served (on_system (undisturbed (pb_Folder p))) s1 ls' s2 →
  validatePackageIdentity (pb_Name p) (pb_Version p) = None ∧ NoDup (map ao_key (pb_Objects p)) ∧
  (∀ o, o ∈ pb_Objects p → ∃ path, path ≠ "" ∧ ao_key o = pb_Folder p +:+ "/" +:+ path) ∧
  whole (compressionEnabled (sy_Content (si_System s))) p (view (si_System s2)) ∧
  entries_stored p (view (si_System s2)).
Proof.
  intros Hidle Hrun Hi Hstep Hi1 Hph Hlater.
  assert (Hmove : moves (Wait i) (si_System s) (si_System s1)) by by inversion Hstep.
  apply server_refines_runs in Hrun; [|done]. apply server_refines_runs in Hlater; [|done].
  destruct (wait_whole _ _ _ _ _ _ Hidle Hrun Hi Hmove Hi1 Hph) as (Hwhole & Hent & Hset & Hplaced & Hf & Hnd).
  destruct (Hplaced Hf) as [Hid Hkeys]. destruct (runs_settled _ _ _ _ Hid Hlater Hset) as [_ Hsame].
  split; [done|]. split; [done|]. split; [|split].
  - intros o Ho. destruct (Hkeys o Ho) as (path & Hpath%safe_path_nonempty & Hkey). by exists path.
  - intros k so Hk. rewrite (Hsame k Hk). by apply Hwhole.
  - intros o Ho. destruct (Hent o Ho) as [g Hg]. exists g. rewrite Hsame; [done|].
    rewrite <- (str_app_nil_r (ao_key o)). by apply placed_below.
Qed.

(** C2: what is published is served.  Let the pool of an upload of a pinned version end without
    an error, which is answered 201, on a server that handles any number of requests at
    once with the routes the application registers, from a state with no upload in flight, provided that two uploads in flight never have the
    same version, no version is deleted while it is uploaded, the listing with which an upload
    looks for its version does not fail, and the declared sizes of entries are below 2^63.  Then
    after any further requests, uploads, deletions and purges that do not delete this version,
    and among which the listing of no other upload of this version fails, at a moment when the storage
    answers reads, a GET of the path of each entry of the archive, with no Accept-Encoding
    and no condition and let through by CORS, is answered 200 with the bytes of the entry,
    marked as immutable, and the packages stay as they are. *)
Theorem published_is_served s0 ls s s1 ls' s2 i p p1 c hr object :
  Forall (λ p, in_flight p = false) (sy_Uploads (si_System s0)) → served (on_system orderly) s0 ls s →
  sy_Uploads (si_System s) !! i = Some p → serves (Proceeds (Wait i)) s s1 →
  sy_Uploads (si_System s1) !! i = Some p1 → pb_Phase p1 = Replied None →
  served (on_system (undisturbed (pb_Folder p))) s1 ls' s2 →
  object ∈ pb_Objects p → IsPinnedVersion (pb_Version p) = true → readable (bucket (si_System s2)) →
  known_routes s2 → cors_filter (corsConfig cors_DefaultConfig (si_Origins s2)) hr = None →
  plain_get hr ("/gimme/" +:+ ao_key object) →
  ∃ response s3, dispatch s2 c hr = Answered (PackageAnswer response) s3 ∧ si_System s3 = si_System s2 ∧
    rsp_Status response = 200%Z ∧ rsp_Body response = ObjectBody (entry_content (ao_file object)) ∧
    rsp_Headers response !! "Content-Encoding" = None ∧
    rsp_Headers response !! "Cache-Control" = Some "public, max-age=31536000, immutable"%string.
Proof.
  intros Hidle Hrun Hi Hstep Hi1 Hph Hlater Ho Hpin Hread Hknown Hcors Hget.
  destruct (published_stays _ _ _ _ _ _ _ _ _ Hidle Hrun Hi Hstep Hi1 Hph Hlater) as (Hid & _ & Hkeys & _ & Hent).
  destruct (Hkeys _ Ho) as (path & Hpath & Hkey). destruct (Hent _ Ho) as [g Hg]. rewrite Hkey in Hget, Hg.
  destruct (dispatch_stored s2 c hr (pb_Name p) (pb_Version p) path _ Hknown Hcors Hid Hpin Hpath Hread Hg Hget)
    as (response & s3 & Hresp). by exists response, s3.
Qed.
End routed.
End server.

Lemma any_known_routes `{OIDCLibrary} `{JWT} `{GinBasicAuth} {T K A} (s : Site T K A AnyAuthProvider) : known_routes s.
Proof. unfold known_routes. destruct (si_Provider s); [by left|by right]. Qed.
