(* ===== verification/ServerDemo.v ===== *)
(** The theorems of ServerSpec.v on a site: a bucket in memory, a token file, the basic
    provider, and a router that takes the first route whose pattern is the path. *)
From S2P Require Import Prelude GoStrings Errors Semver Zip Storage MemoryClient Version Compression Archive.
From S2P Require Import Cache MemoryRedis Service Upload UploadSpec Serve ServeSpec Negotiation TokenStore FileStore.
From S2P Require Import AuthManager AuthFile AuthProvider Oidc Application PackageController Concurrent ConcurrentSpec.
From S2P Require Import GoUrl Router Server ServerSpec.
From Stdlib Require Import Ascii.

Definition route_matches (method path : string) (r : string * string) : option (string * gmap string string) :=
  if String.eqb r.1 method then pair r.2 <$> match_path r.2 path else None.

Definition first_route : Gin := {| gin_find routes method path := head (omap (route_matches method path) routes) |}.
#[local] Existing Instance first_route.

Lemma route_matches_Some method path r pattern ps :
  route_matches method path r = Some (pattern, ps) ↔ r = (method, pattern) ∧ match_path pattern path = Some ps.
Proof.
  unfold route_matches. destruct r as [m p]. cbn. destruct (String.eqb_spec m method) as [->|Hne]; [|naive_solver].
  rewrite fmap_Some. naive_solver.
Qed.

#[local] Instance first_route_laws : GinLaws.
Proof.
  split.
  - intros routes method path pattern ps Hf. apply head_Some_elem_of, list_elem_of_omap in Hf as (r & Hr & Hm).
    by apply route_matches_Some in Hm as [-> ?].
  - intros routes method path pattern ps Hin Hm _ Hun. cbn.
    destruct (omap (route_matches method path) routes) as [|[pattern' ps'] l] eqn:Ho.
    + exfalso. apply (not_elem_of_nil (pattern, ps)). rewrite <- Ho. apply list_elem_of_omap.
      exists (method, pattern). split; [done|]. by apply route_matches_Some.
    + assert (Hin' : (pattern', ps') ∈ omap (route_matches method path) routes) by (rewrite Ho; by left).
      apply list_elem_of_omap in Hin' as (r & Hr & Hm'). apply route_matches_Some in Hm' as [-> Hm'].
      pose proof (Hun _ _ Hr Hm') as ->. cbn. congruence.
Qed.

#[local] Instance open_frontend : Frontend := {
  cors_filter _ _ := None;
  cors_DefaultConfig := {| AllowAllOrigins := false; AllowOrigins := [] |};
  gin_redirect _ _ := None;
  static_status _ _ := 404%Z;
}.

#[local] Instance basic_handlers : AuthHandlers BasicAuthProvider := {
  auth_handler _ _ _ _ := {| rp_Cookies := []; rp_Answer := WebStatus 404 |};
}.

#[local] Existing Instance plain_digest.
#[local] Existing Instance bit_codec.
#[local] Existing Instance prefix_cipher.
#[local] Existing Instance quiet_store.
#[local] Existing Instance quiet_laws.
#[local] Existing Instance builtin_mime.
#[local] Existing Instance plain_codec.
#[local] Existing Instance plain_codec_laws.
#[local] Existing Instance toy_compressors.
#[local] Existing Instance toy_digest.
#[local] Existing Instance plain_names.
#[local] Existing Instance whole_paths.
#[local] Existing Instance two_processors.
#[local] Existing Instance two_zips.

#[local] Instance demo_accounts : GinBasicAuth := {
  gin_BasicAuth accounts header :=
    fst <$> head (filter (λ '(user, password), header = authorizationHeader user password) (map_to_list accounts));
}.
#[local] Instance unary_time : HttpTime := {| FormatTime t := pretty t; ParseTime s := Atoi s |}.
#[local] Instance no_tags : ObjectInfos (Storage.objectStorageManager memory) :=
  {| info_ETag _ _ := ""; info_LastModified _ _ := 0%Z |}.
#[local] Instance asks_json : Negotiator := λ accept, String.eqb accept "application/json".

Notation demo_site := (Site (Storage.objectStorageManager memory) (redisCache mem_redis) FileTokenStore BasicAuthProvider).

(** The site after the token "ci" was created. *)
Definition open_site : demo_site := {|
  si_System := quiet_system [];
  si_Auth := created;
  si_Provider := NewBasicAuthProvider "gimme" "gimme";
  si_Origins := [];
  si_EnableMetrics := false;
  si_Requests := ∅;
  si_Waiting := [] |}.

Definition demo_moment : circumstances := {|
  ci_Now := 2000; ci_Draws := demo_draws; ci_State := inr "state"%string; ci_Nonce := inr "nonce"%string;
  ci_Verified := 2000; ci_Issued := 2000 |}.

Definition no_form : upload_form := {| form_File := FormMissing; form_Name := ""; form_Version := "" |}.

Definition request (method path : string) (headers : gmap string string) (form : upload_form) : HttpRequest := {|
  hq_Method := method; hq_Path := path; hq_Headers := headers; hq_RawQuery := ""; hq_Cookies := ∅;
  hq_Form := form; hq_JSON := None |}.

Definition bearer : gmap string string := {[ "Authorization" := ("Bearer " +:+ demo_token) ]}.

Lemma demo_routes s : known_routes (s : demo_site).
Proof. by left. Qed.

(** ** Routing *)

Definition read_old : HttpRequest := request "GET" "/gimme/lib@1.0.0/old.js" ∅ no_form.

Definition old_params : gmap string string := <["package" := "lib@1.0.0"%string]> {[ "file" := "/old.js"%string ]}.

(** The status and the body of a package answer, and the counters after it. *)
Definition package_answer (o : outcome demo_site) : option (Z * Body * list ((string * string * string) * nat)) :=
  match o with
  | Answered (PackageAnswer r) s => Some (rsp_Status r, rsp_Body r, map_to_list (si_Requests s))
  | _ => None
  end.

Lemma routes_resolved_witness :
  package_answer (dispatch open_site demo_moment read_old)
    = Some (200%Z, ObjectBody "old", [(("/gimme/:package/*file", "GET", "200")%string, 1)]) ∧
  dispatch open_site demo_moment (request "POST" "/nothing" ∅ no_form)
    = Answered (PlainAnswer (WebStatus 404)) (count_request open_site "" "POST" 404).
Proof.
  assert (Hcors : ∀ hr, cors_filter (corsConfig cors_DefaultConfig (si_Origins open_site)) hr = None) by reflexivity.
  split.
  - destruct (routes_resolved open_site demo_moment read_old (demo_routes _) (Hcors _)) as [Hfound _].
    destruct (Hfound (router_GET "/gimme/:package/*file" [On_getPackage]) old_params) as [-> _].
    + apply (bool_decide_unpack _). vm_compute. exact I.
    + reflexivity.
    + vm_compute. reflexivity.
    + apply (bool_decide_unpack _). vm_compute. exact I.
    + vm_compute. reflexivity.
  - destruct (routes_resolved open_site demo_moment (request "POST" "/nothing" ∅ no_form) (demo_routes _) (Hcors _)) as [_ Hnone].
    rewrite Hnone; [reflexivity|]. intros e He _. revert e He. apply Forall_forall, (bool_decide_unpack _). vm_compute. exact I.
Defined.

(** ** Outsiders *)

Definition intruder : HttpRequest := request "DELETE" "/packages/lib@1.0.0" ∅ no_form.
Definition forger : HttpRequest := request "DELETE" "/tokens/u1" ∅ no_form.

Definition after (xs : list input) (s : demo_site) : demo_site := default s (snd <$> serve_all xs s).

Lemma after_served (ok : label → demo_site → Prop) xs s :
  every_steps ok xs s → is_Some (serve_all xs s) → ∃ ls, served ok s ls (after xs s).
Proof.
  intros Hok [[ls s'] Hxs]. exists ls. eapply serve_all_served; [exact Hok|]. unfold after. by rewrite Hxs.
Qed.

Lemma demo_sane hr s : hq_JSON hr = None → sane_request (s : demo_site) demo_moment hr.
Proof. intros Hj. split; [now vm_compute|]. by rewrite Hj. Qed.

Lemma bare_no_token method path form (s : demo_site) : ¬ shows_token s demo_moment (request method path ∅ form).
Proof. intros (token & e & [_ (scheme & Hs & _ & _)] & _). by destruct scheme. Qed.

Definition visit : list input := [Asks demo_moment intruder; Asks demo_moment forger; Asks demo_moment read_old].

Lemma outsiders_change_nothing_witness :
  view (si_System (after visit open_site)) = view (quiet_system []) ∧
  same_packages (si_System open_site) (si_System (after visit open_site)).
Proof.
  assert (Hrun : ∃ ls, served (λ l s, sane l s ∧ no_token l s) open_site ls (after visit open_site)).
  { apply after_served; [|apply (bool_decide_unpack _); vm_compute; exact I].
    repeat (split; [split; intros; (split; [by apply demo_sane|apply bare_no_token])|]). exact I. }
  destruct Hrun as [ls Hrun].
  destruct (outsiders_change_nothing open_site ls (after visit open_site) created_inv) as [Hpk _].
  assert (Hsame : same_packages (si_System open_site) (si_System (after visit open_site))) by (apply Hpk; [exact Hrun|constructor]).
  split; [|exact Hsame]. unfold view. rewrite (proj1 Hsame). reflexivity.
Defined.

(** ** A package from its upload to its files *)

Definition upload_lib : HttpRequest := request "POST" "/packages" bearer
  {| form_File := FormPart "application/zip" (inr "one"%string) 50; form_Name := "lib"; form_Version := "2.0.0" |}.

Definition three_calls : list input := [Calls 0 (Work 0); Calls 0 (Work 0); Calls 0 (Work 0)].

Definition received : demo_site := after [Asks demo_moment upload_lib] open_site.
Definition stored : demo_site := after three_calls received.
Definition replied : demo_site := after [Calls 0 (Wait 0)] stored.
Definition visited : demo_site := after (Answers 0 :: visit) replied.

Lemma serve_after x s : is_Some (serve x s) → ∃ l, serve x s = Some (l, after [x] s).
Proof. intros [[l s'] Hx]. exists l. unfold after. cbn [serve_all]. by rewrite Hx. Qed.

Lemma serve_step x l s : fst <$> serve x s = Some l → serves l s (after [x] s).
Proof.
  intros E. destruct (serve_after x s) as [l' Hl]; [destruct (serve x s); [by eexists|done]|].
  rewrite Hl in E. injection E as ->. by eapply serve_serves.
Qed.

Lemma upload_phase (s : demo_site) i ph :
  pb_Phase <$> sy_Uploads (si_System s) !! i = Some ph →
  ∃ p, sy_Uploads (si_System s) !! i = Some p ∧ pb_Phase p = ph.
Proof. intros (p & Hp & Hph)%fmap_Some. by exists p. Qed.

Lemma demo_readable (store : Storage.objectStorageManager memory) : readable store.
Proof. intros k so Hk. by exists {| object_key := k |}. Qed.

Lemma received_label :
  fst <$> serve (Asks demo_moment upload_lib) open_site = Some (Receives demo_moment upload_lib "lib" "2.0.0" "one" 50).
Proof. vm_compute. reflexivity. Qed.

Lemma stored_served : ∃ ls, served (on_system orderly) open_site ls stored.
Proof.
  destruct (after_served (on_system orderly) three_calls received) as [ls Hls].
  - repeat split.
  - apply (bool_decide_unpack _). vm_compute. exact I.
  - eexists (_ :: ls). eapply served_cons; [|exact (serve_step _ _ _ received_label)|exact Hls].
    split; [apply demo_reliable|split; [apply small_archives|constructor]].
Qed.

Definition get_css : HttpRequest := request "GET" "/gimme/lib@2.0.0/a.css" ∅ no_form.

Definition lib_upload : publication (Storage.objectStorageManager memory) :=
  default (arrive (sy_Content (si_System stored)) "lib" "2.0.0" "one" 50) (sy_Uploads (si_System stored) !! 0).

Lemma lib_objects : pb_Objects lib_upload = [{| ao_key := "lib@2.0.0/a.css"; ao_file := text_file "dist/a.css" "a{}" |}].
Proof. vm_compute. reflexivity. Qed.

Lemma replied_step : serves (Proceeds (Wait 0)) stored replied.
Proof. apply serve_step. vm_compute. reflexivity. Qed.

Lemma replied_phase :
  ∃ p1, sy_Uploads (si_System replied) !! 0 = Some p1 ∧ pb_Phase p1 = Replied None.
Proof. apply upload_phase. vm_compute. reflexivity. Qed.

Lemma lib_lookup : sy_Uploads (si_System stored) !! 0 = Some lib_upload.
Proof. vm_compute. reflexivity. Qed.

(** The requests that follow do not delete the version. *)
Lemma spares_lib c method path form s :
  path ≠ "/packages/lib@2.0.0" → mem_list_fault (client (bucket (si_System s))) = false →
  every_step (on_system (undisturbed "lib@2.0.0")) (Asks c (request method path ∅ form)) (s : demo_site).
Proof.
  intros Hne Hrel. split; [|intros ? ? ? ? _; by apply (store_reliable (bucket (si_System s)))].
  intros a pkg version _ Hp Hf. cbn in Hp. by rewrite Hf in Hp.
Qed.

Lemma visited_served : ∃ ls, served (on_system (undisturbed (pb_Folder lib_upload))) replied ls visited.
Proof.
  assert (Hf : pb_Folder lib_upload = "lib@2.0.0"%string) by (vm_compute; reflexivity). rewrite Hf.
  apply after_served; [|apply (bool_decide_unpack _); vm_compute; exact I].
  split; [intros response; exact I|].
  repeat (split; [apply spares_lib; [discriminate|vm_compute; reflexivity]|]). exact I.
Qed.

Lemma published_is_served_witness :
  ∃ response s3, dispatch visited demo_moment get_css = Answered (PackageAnswer response) s3 ∧
    rsp_Status response = 200%Z ∧ rsp_Body response = ObjectBody "a{}".
Proof.
  destruct stored_served as [ls Hrun]. destruct visited_served as [ls' Hlater]. destruct replied_phase as (p1 & Hp1 & Hph).
  destruct (published_is_served open_site ls stored replied ls' visited 0 lib_upload p1 demo_moment get_css
    {| ao_key := "lib@2.0.0/a.css"; ao_file := text_file "dist/a.css" "a{}" |}) as (response & s3 & Hd & _ & Hst & Hb & _).
  - constructor.
  - exact Hrun.
  - exact lib_lookup.
  - exact replied_step.
  - exact Hp1.
  - exact Hph.
  - exact Hlater.
  - rewrite lib_objects. left.
  - vm_compute. reflexivity.
  - apply demo_readable.
  - apply demo_routes.
  - reflexivity.
  - repeat split; reflexivity.
  - exists response, s3. split; [exact Hd|]. split; [exact Hst|]. rewrite Hb. reflexivity.
Defined.

Lemma server_refines_witness :
  runs orderly (quiet_system []) (si_System stored) ∧
  runs (undisturbed "lib@2.0.0") (si_System replied) (si_System visited).
Proof.
  destruct stored_served as [ls Hrun]. destruct visited_served as [ls' Hlater]. split.
  - apply (server_refines orderly open_site ls stored); [intros; exact I|exact Hrun].
  - apply (server_refines (undisturbed "lib@2.0.0") replied ls' visited); [intros; exact I|exact Hlater].
Defined.
