(* ===== verification/Publish.v ===== *)
(** The publishing client: the version it publishes (internal/publish/version.go), the
    archive it builds (archive.go), the upload (push.go), and the command line
    (cmd/gimme-cli/main.go).

    A directory is a tree of [node]s with what the system answers for each of them.  An
    archive is the list of its entries, as archive/zip hands them out on the server.
    The JSON documents read with encoding/json are the class [PublishJSON]. *)
From S2P Require Import Prelude GoStrings Zip.
From Stdlib Require Import Ascii.

(** ** Versions *)

(** The "version" field of a package.json, and the "error" field of an answer; [None] is an error. *)
Class PublishJSON := {
  json_version : string → option string;
  json_error : string → option string;
}.

Definition stripV (value : string) : string := TrimPrefix value "v".

(** [vs_PackageJSON] is the content of package.json when it can be read; a nil function is [None]. *)
Record VersionSources := {
  vs_PackageJSON : option string;
  vs_LookupEnv : option (string → string);
  vs_RunGit : option (string + string);
}.

Section version.
Context `{PublishJSON}.

Definition from_package (s : VersionSources) : option string :=
  data ← vs_PackageJSON s; v ← json_version data; if String.eqb v "" then None else Some v.

Definition from_env (s : VersionSources) : option string :=
  env ← vs_LookupEnv s;
  if String.eqb (env "GITHUB_REF_TYPE") "tag" then
    let value := env "GITHUB_REF_NAME" in if String.eqb value "" then None else Some value
  else None.

Definition from_git (s : VersionSources) : option string :=
  match vs_RunGit s with
  | Some (inr value) => let v := TrimSpace value in if String.eqb v "" then None else Some v
  | _ => None
  end.

(** The version and its source. *)
Definition ResolveVersion (explicit : string) (s : VersionSources) : string + string * string :=
  if negb (String.eqb explicit "") then inr (stripV explicit, "--version"%string)
  else
    match from_package s with
    | Some v => inr (stripV v, "package.json"%string)
    | None =>
        match from_env s with
        | Some v => inr (stripV v, "GitHub Actions tag"%string)
        | None =>
            match from_git s with
            | Some v => inr (stripV v, "git tag"%string)
            | None => inl ("could not determine version from the four sources: --version, package.json, " +:+
                           "GitHub Actions tag, or git tag")
            end
        end
    end.
End version.

(** ** Archives *)

Inductive file_mode := RegularMode | DirMode | OtherMode.

(** What opening a file gives: the mode or the error of Stat, its bytes, and the error of Close. *)
Record opened := {
  op_Stat : string + file_mode;
  op_Reader : Reader;
  op_Close : option string;
}.

(** A directory entry that is not a directory, or a directory: its entries in the order of
    ReadDir, and the error of reading it. *)
Inductive node :=
  | Leaf (file : string + opened)
  | Dir (read_err : option string) (children : list (string * node)).

(** [path.Join] of two elements that are not empty. *)
Definition path_Join (dir name : string) : string := path_Clean (dir +:+ "/" +:+ name).

(** What the system answers when a file is created that must not exist. *)
Inductive creation := Created | Exists | CreationError (err : string).

(** What the machine answers to Archive: [ar_random i] is the [i]-th random part of the name
    of a temporary file, [ar_Write] the error of adding an entry to the archive, and
    [ar_Remove] the error of removing a file, which the client ignores. *)
Record archive_env := {
  ar_Stat : string + bool;
  ar_OpenRoot : string + node;
  ar_TempDir : string;
  ar_random : nat → string;
  ar_Create : string → creation;
  ar_Remove : string → option string;
  ar_Write : string → option string;
  ar_CloseZip : option string;
  ar_CloseTemp : option string;
}.

Section archive.
Variable write_err : string → option string.

(** The callback of WalkDir on a file. *)
Definition archive_entry (name : string) (file : string + opened) : string + ZipFile :=
  match file with
  | inl err => inl ("read " +:+ name +:+ ": " +:+ err)
  | inr f =>
      match op_Stat f with
      | inl err => inl ("inspect " +:+ name +:+ ": " +:+ err)
      | inr DirMode => inl ("symlink to directory is not supported: " +:+ name)
      | inr OtherMode => inl ("unsupported file type: " +:+ name)
      | inr RegularMode =>
          match write_err name with
          | Some err => inl ("archive " +:+ name +:+ ": " +:+ err)
          | None =>
              match ReadAll (op_Reader f) with
              | inl err => inl ("archive " +:+ name +:+ ": " +:+ err)
              | inr data =>
                  match op_Close f with
                  | Some err => inl ("close " +:+ name +:+ ": " +:+ err)
                  | None => inr (text_file name data)
                  end
              end
          end
      end
  end.

(** fs.WalkDir with the callback of Archive: the entries written, or the error that ended it. *)
Fixpoint walk (name : string) (n : node) : string + list ZipFile :=
  match n with
  | Leaf file =>
      if String.eqb name "." then inr []
      else match archive_entry name file with inl err => inl err | inr f => inr [f] end
  | Dir (Some err) _ => inl ("read " +:+ name +:+ ": " +:+ err)
  | Dir None children =>
      (fix walk_children (l : list (string * node)) : string + list ZipFile :=
         match l with
         | [] => inr []
         | (child, n) :: l =>
             match walk (path_Join name child) n with
             | inl err => inl err
             | inr files =>
                 match walk_children l with
                 | inl err => inl err
                 | inr rest => inr (files ++ rest)
                 end
             end
         end) children
  end.
End archive.

(** [os.CreateTemp("", prefix*suffix)], with the attempts it has left: names are drawn until one is free. *)
Fixpoint create_temp (attempts try : nat) (prefix suffix : string) (e : archive_env) : string + string :=
  match attempts with
  | O => inl ("createtemp " +:+ prefix +:+ "*" +:+ suffix +:+ ": file already exists")
  | S attempts =>
      let name := prefix +:+ ar_random e try +:+ suffix in
      match ar_Create e name with
      | Created => inr name
      | Exists => create_temp attempts (S try) prefix suffix e
      | CreationError err => inl err
      end
  end.

Definition CreateTemp (e : archive_env) : string + string :=
  let dir := ar_TempDir e in
  let prefix := (if HasSuffix dir "/" then dir else dir +:+ "/") +:+ "gimme-cli-" in
  create_temp (Z.to_nat 10000) 0 prefix ".zip" e.

(** The file that is left after its removal, whose error is ignored. *)
Definition removed (e : archive_env) (path : string) : option string :=
  match ar_Remove e path with None => None | Some _ => Some path end.

(** The path and the entries of the archive, and the temporary file that is on the disk then. *)
Definition Archive (dir : string) (e : archive_env) : (string + string * list ZipFile) * option string :=
  match ar_Stat e with
  | inl err => (inl ("cannot publish " +:+ dir +:+ ": " +:+ err), None)
  | inr false => (inl ("cannot publish " +:+ dir +:+ ": not a directory"), None)
  | inr true =>
      match ar_OpenRoot e with
      | inl err => (inl ("open " +:+ dir +:+ ": " +:+ err), None)
      | inr root =>
          match CreateTemp e with
          | inl err => (inl ("create temporary archive: " +:+ err), None)
          | inr path =>
              match walk (ar_Write e) "." root with
              | inl err => (inl err, removed e path)
              | inr [] => (inl ("no files to publish in " +:+ dir), removed e path)
              | inr files =>
                  match ar_CloseZip e with
                  | Some err => (inl ("close archive: " +:+ err), removed e path)
                  | None =>
                      match ar_CloseTemp e with
                      | Some err => (inl ("close archive file: " +:+ err), removed e path)
                      | None => (inr (path, files), Some path)
                      end
                  end
              end
          end
      end
  end.

(** ** Uploads *)

Record Options := {
  opt_URL : string;
  opt_Token : string;
  opt_Name : string;
  opt_Version : string;
  opt_Archive : string * list ZipFile;
}.

(** The form of a request: its fields, and the type and the content of its file. *)
Record push_form := {
  pf_Name : string;
  pf_Version : string;
  pf_FileType : string;
  pf_File : list ZipFile;
}.

Record push_request := {
  pr_Endpoint : string;
  pr_Authorization : string;
  (** The form, or the error that the body ends with. *)
  pr_Form : string + push_form;
}.

(** [hr_Status] is the code with its text. *)
Record http_response := { hr_StatusCode : Z; hr_Status : string; hr_Body : Reader }.

(** [tr_Open] is the error of opening the archive again, [tr_URL] the one of NewRequestWithContext. *)
Record transport := {
  tr_URL : string → option string;
  tr_Open : string → option string;
  tr_Do : push_request → string + http_response;
}.

Section push.
Context `{PublishJSON}.

Definition serverMessage (body : string) : string * bool :=
  match json_error body with
  | Some e => if String.eqb e "" then ("", false) else (e, true)
  | None => ("", false)
  end.

Definition writeMultipart (t : transport) (opts : Options) : string + push_form :=
  match tr_Open t (opt_Archive opts).1 with
  | Some err => inl ("open archive: " +:+ err)
  | None => inr {| pf_Name := opt_Name opts; pf_Version := opt_Version opts; pf_FileType := "application/zip";
                   pf_File := (opt_Archive opts).2 |}
  end.

Definition ellipsis : string := bytes [226; 128; 166].

(** The error for an answer whose first 513 bytes are [body]. *)
Definition push_answer (code : Z) (status body : string) : option string :=
  if (code =? 201)%Z then None
  else if (code =? 401)%Z then
    Some "authentication failed (401): the token is missing, invalid, revoked or expired"
  else
    let '(message, jsonBody) := serverMessage body in
    if (code =? 409)%Z then
      Some ("409 Conflict: " +:+ message +:+ "; versions are immutable, publish a new version")
    else if (code =? 413)%Z && negb jsonBody then
      Some ("413 Request Entity Too Large: upload is too large for the server or a reverse proxy in front of it; " +:+
            "check upload.max_size and nginx client_max_body_size")
    else
      let message := if String.eqb message "" then TrimSpace body else message in
      let message :=
        if (String.length body =? 513)%nat && negb jsonBody then TrimSpace (str_take 512 body) +:+ ellipsis
        else message in
      if String.eqb message "" then Some status else Some (status +:+ ": " +:+ message).

Definition Push (t : transport) (opts : Options) : option string :=
  let endpoint := TrimRight (opt_URL opts) "/" +:+ "/packages" in
  match tr_URL t endpoint with
  | Some err => Some ("create upload request: " +:+ err)
  | None =>
      let req := {| pr_Endpoint := endpoint; pr_Authorization := "Bearer " +:+ opt_Token opts;
                    pr_Form := writeMultipart t opts |} in
      match tr_Do t req with
      | inl err => Some ("upload package: " +:+ err)
      | inr resp =>
          match copy_limited (hr_Body resp) 513 with
          | inl err => Some ("read server response: " +:+ err)
          | inr body => push_answer (hr_StatusCode resp) (hr_Status resp) body
          end
      end
  end.
End push.

(** ** The command line *)

(** [flag.FlagSet.Parse] with string flags that are all in [formal]: the values set, in
    order, or the error.  [fuel] bounds the arguments that are left. *)
Definition split_flag (s : string) : string * option string :=
  let '(name, value, found) := Cut s "=" in (name, if found then Some value else None).

Fixpoint flag_Parse (fuel : nat) (formal : list string) (args : list string) (set : list (string * string))
    : string + list (string * string) :=
  match fuel, args with
  | O, _ | _, [] => inr set
  | S fuel, s :: args =>
      if (String.length s <? 2)%nat || negb (HasPrefix s "-") then inr set
      else if String.eqb s "--" then inr set
      else
        let body := if HasPrefix s "--" then str_drop 2 s else str_drop 1 s in
        if HasPrefix body "-" || HasPrefix body "=" then inl ("bad flag syntax: " +:+ s)
        else
          let '(name, value) := split_flag body in
          if negb (bool_decide (name ∈ formal)) then
            if String.eqb name "help" || String.eqb name "h" then inl "flag: help requested"%string
            else inl ("flag provided but not defined: -" +:+ name)
          else
            match value, args with
            | Some v, _ => flag_Parse fuel formal args (set ++ [(name, v)])
            | None, v :: args => flag_Parse fuel formal args (set ++ [(name, v)])
            | None, [] => inl ("flag needs an argument: -" +:+ name)
            end
  end.

Definition push_flags : list string := ["name"; "version"; "url"; "token"].

(** The last value set, or the default. *)
Definition flag_value (set : list (string * string)) (name : string) : string :=
  default "" (snd <$> last (filter (λ p, p.1 = name) set)).

(** The loop of parsePush: the flags with their values, and the positional arguments. *)
Fixpoint reorder (args reordered positionals : list string) : string + list string * list string :=
  match args with
  | [] => inr (reordered, positionals)
  | arg :: args =>
      if HasPrefix arg "-" then
        if Contains arg "=" then reorder args (reordered ++ [arg]) positionals
        else
          match args with
          | [] => inl ("flag " +:+ arg +:+ " requires a value")
          | value :: args =>
              if HasPrefix value "-" then inl ("flag " +:+ arg +:+ " requires a value")
              else reorder args (reordered ++ [arg; value]) positionals
          end
      else reorder args reordered (positionals ++ [arg])
  end.

Record push_args := { pa_name : string; pa_version : string; pa_url : string; pa_token : string; pa_dir : string }.

Definition parsePush (args : list string) : string + push_args :=
  match reorder args [] [] with
  | inl err => inl err
  | inr (reordered, positionals) =>
      match flag_Parse (length reordered) push_flags reordered [] with
      | inl err => inl err
      | inr set =>
          match positionals with
          | [dir] =>
              inr {| pa_name := flag_value set "name"; pa_version := flag_value set "version";
                     pa_url := flag_value set "url"; pa_token := flag_value set "token"; pa_dir := dir |}
          | _ => inl "push requires exactly one directory"%string
          end
      end
  end.

Definition cli_version : string := "dev".

Definition usage : string :=
  "usage:" +:+ String (byte 10) "" +:+
  "  gimme-cli push <dir> --name <name> [--version <version>] [--url <url>] [--token <token>]" +:+
  String (byte 10) "" +:+ "  gimme-cli version" +:+ String (byte 10) "".

(** What a run leaves: the exit code, what it printed, and the temporary file that is still there. *)
Record outcome := { oc_exit : Z; oc_stdout : string; oc_stderr : string; oc_left : option string }.

(** The machine a run finds: the package.json of the working directory, or the error of
    Getwd; what git prints; and the directories that may be published. *)
Record cli_world := {
  cw_env : string → string;
  cw_Getwd : string + option string;
  cw_git : string + string;
  cw_dirs : string → archive_env;
  cw_transport : transport;
}.

Section cli.
Context `{PublishJSON}.

Definition line (s : string) : string := s +:+ String (byte 10) "".
Definition cli_error (err : string) : string := line ("gimme-cli: " +:+ err).

Definition usage_error (message : string) : outcome :=
  {| oc_exit := 2; oc_stdout := ""; oc_stderr := message +:+ usage; oc_left := None |}.

Definition fail (stdout err : string) (leftover : option string) : outcome :=
  {| oc_exit := 1; oc_stdout := stdout; oc_stderr := cli_error err; oc_left := leftover |}.

(** The first required value that is missing. *)
Definition missing (name url token : string) : option string :=
  if String.eqb name "" then Some "--name"
  else if String.eqb url "" then Some "--url or GIMME_URL"
  else if String.eqb token "" then Some "--token or GIMME_TOKEN"
  else None.

Definition or_env (w : cli_world) (value key : string) : string :=
  if String.eqb value "" then cw_env w key else value.

Definition run_push (w : cli_world) (a : push_args) : outcome :=
  let url := or_env w (pa_url a) "GIMME_URL" in
  let token := or_env w (pa_token a) "GIMME_TOKEN" in
  match missing (pa_name a) url token with
  | Some label => usage_error (cli_error (label +:+ " is required"))
  | None =>
      match cw_Getwd w with
      | inl err => fail "" ("get working directory: " +:+ err) None
      | inr package =>
          match ResolveVersion (pa_version a)
                  {| vs_PackageJSON := package; vs_LookupEnv := Some (cw_env w); vs_RunGit := Some (cw_git w) |} with
          | inl err => fail "" err None
          | inr (resolved, source) =>
              let stdout := line ("version " +:+ resolved +:+ " (from " +:+ source +:+ ")") in
              match Archive (pa_dir a) (cw_dirs w (pa_dir a)) with
              | (inl err, leftover) => fail stdout err leftover
              | (inr archive, _) =>
                  let leftover := removed (cw_dirs w (pa_dir a)) archive.1 in
                  match Push (cw_transport w) {| opt_URL := url; opt_Token := token; opt_Name := pa_name a;
                          opt_Version := resolved; opt_Archive := archive |} with
                  | Some err => fail stdout err leftover
                  | None =>
                      let where_ := pa_name a +:+ "@" +:+ resolved in
                      {| oc_exit := 0; oc_stderr := ""; oc_left := leftover;
                         oc_stdout := stdout +:+ line ("published " +:+ where_ +:+ " to " +:+ TrimRight url "/" +:+
                           "/gimme/" +:+ where_ +:+ "/") |}
                  end
              end
          end
      end
  end.

Definition run (w : cli_world) (args : list string) : outcome :=
  if bool_decide (args = ["version"]) then
    {| oc_exit := 0; oc_stdout := line cli_version; oc_stderr := ""; oc_left := None |}
  else
    match args with
    | [] => usage_error ""
    | arg :: args =>
        if String.eqb arg "push" then
          match parsePush args with
          | inl err => usage_error (cli_error err)
          | inr a => run_push w a
          end
        else usage_error (cli_error ("unknown subcommand " +:+ Quote arg))
    end.
End cli.
