(* ===== verification/PublishSpec.v ===== *)
(** What the publishing client guarantees: the archive of a directory holds its files, the
    server publishes it under their names, the command line may give its arguments in any
    order, a run reports success exactly when the server has accepted the upload, and a
    temporary file is left exactly when its removal fails. *)
From S2P Require Import Prelude GoStrings Errors Zip Archive Publish.
From Stdlib Require Import Ascii.

(** ** Paths *)

Lemma clean_segments_safe segs kept :
  Forall safe_segment segs → clean_segments false kept segs = reverse segs ++ kept.
Proof.
  intros Hs. revert kept. induction Hs as [|s segs (Hne & Hdot & Hup & _) _ IH]; intros kept; [done|]. cbn [clean_segments].
  apply String.eqb_neq in Hne as ->. apply String.eqb_neq in Hdot as ->. apply String.eqb_neq in Hup as ->. cbn [orb].
  by rewrite IH, reverse_cons, <- app_assoc.
Qed.

Lemma path_Clean_id p : safe_path p → path_Clean p = p.
Proof.
  intros Hp. unfold path_Clean. rewrite (safe_path_relative p Hp). cbv zeta.
  rewrite clean_segments_safe, app_nil_r, reverse_involutive, Join_Split by done.
  destruct (String.eqb_spec p ""); [|done]. by destruct (safe_path_nonempty p Hp).
Qed.

(** The name of a file below the root, by its segments. *)
Definition name_of (segs : list string) : string := if decide (segs = []) then "." else Join segs "/".

Lemma Join_snoc segs s : segs ≠ [] → Join (segs ++ [s]) "/" = Join segs "/" +:+ "/" +:+ s.
Proof.
  induction segs as [|x segs IH]; [done|]. intros _. destruct segs as [|y segs]; [done|].
  cbn [app]. rewrite !Join_cons_cons. change (y :: segs ++ [s]) with ((y :: segs) ++ [s]).
  by rewrite IH, !str_app_assoc.
Qed.

Lemma Join_safe segs : segs ≠ [] → Forall safe_segment segs → safe_path (Join segs "/").
Proof. intros Hne Hs. unfold safe_path. by rewrite Split_slash_safe. Qed.

Lemma path_Join_name segs s :
  Forall safe_segment segs → safe_segment s → path_Join (name_of segs) s = name_of (segs ++ [s]).
Proof.
  intros Hsegs Hs. unfold path_Join, name_of. rewrite (decide_False (P := segs ++ [s] = [])) by (by destruct segs).
  destruct (decide (segs = [])) as [->|Hne].
  - change ("." +:+ "/" +:+ s) with ("./" +:+ s). unfold path_Clean. cbn [HasPrefix]. cbv zeta.
    assert (Hrel : HasPrefix ("./" +:+ s) "/" = false) by done. rewrite Hrel.
    assert (Hsplit : Split ("./" +:+ s) "/" = "." :: Split s "/") by exact (Split_app "/" "." s eq_refl).
    rewrite Hsplit, (Split_free "/" s) by apply Hs.
    destruct Hs as (Hn & Hd & Hu & _). cbn [clean_segments]. cbn [String.eqb Ascii.eqb Bool.eqb orb].
    apply String.eqb_neq in Hn as Hn'. apply String.eqb_neq in Hd as ->. apply String.eqb_neq in Hu as ->.
    rewrite Hn'. cbn. by rewrite Hn'.
  - rewrite <- Join_snoc by done. apply path_Clean_id, Join_safe; [by destruct segs|].
    apply Forall_app. auto.
Qed.

Lemma name_of_inj segs segs' :
  Forall safe_segment segs → Forall safe_segment segs' → segs ≠ [] → segs' ≠ [] →
  name_of segs = name_of segs' → segs = segs'.
Proof.
  intros Hs Hs' Hne Hne'. unfold name_of. rewrite !decide_False by done. intros Heq.
  apply (f_equal (λ p, Split p "/")) in Heq. by rewrite !Split_slash_safe in Heq.
Qed.

(** ** The files of a tree *)

Lemma node_tree_ind (P : node → Prop) :
  (∀ f, P (Leaf f)) → (∀ err children, Forall (λ c, P c.2) children → P (Dir err children)) → ∀ n, P n.
Proof.
  intros Hleaf Hdir. fix IH 1. intros [f|err children]; [apply Hleaf|]. apply Hdir.
  induction children as [|[s n] l IHl]; constructor; [apply IH|apply IHl].
Qed.

(** The files, with their paths, in the order of the walk. *)
Fixpoint leaves (n : node) : list (list string * (string + opened)) :=
  match n with
  | Leaf f => [([], f)]
  | Dir _ children => flat_map (λ '(s, n), map (λ '(p, f), (s :: p, f)) (leaves n)) children
  end.

(** The names of the entries of each directory are names, and distinct. *)
Fixpoint tree_ok (n : node) : Prop :=
  match n with
  | Leaf _ => True
  | Dir _ children =>
      NoDup (map fst children) ∧
      (fix all (l : list (string * node)) : Prop :=
         match l with [] => True | (s, n) :: l => safe_segment s ∧ tree_ok n ∧ all l end) children
  end.

Lemma tree_ok_Dir err children :
  tree_ok (Dir err children) ↔ NoDup (map fst children) ∧ Forall (λ c, safe_segment c.1 ∧ tree_ok c.2) children.
Proof.
  cbn. assert (Hall : ∀ l, (fix all (l : list (string * node)) : Prop :=
         match l with [] => True | (s, n) :: l => safe_segment s ∧ tree_ok n ∧ all l end) l ↔
    Forall (λ c, safe_segment c.1 ∧ tree_ok c.2) l).
  { induction l as [|[s n] l IH]; [done|]. rewrite Forall_cons, IH. cbn. tauto. }
  by rewrite Hall.
Qed.

Lemma elem_of_leaves err children p f :
  (p, f) ∈ leaves (Dir err children) ↔ ∃ s n p', (s, n) ∈ children ∧ p = s :: p' ∧ (p', f) ∈ leaves n.
Proof.
  cbn. rewrite list_elem_of_In, in_flat_map. split.
  - intros ([s n] & Hin & ([p' f'] & [= <- <-] & Hin')%in_map_iff). exists s, n, p'.
    by rewrite !list_elem_of_In.
  - intros (s & n & p' & Hin & -> & Hin'). exists (s, n). rewrite !list_elem_of_In in *. split; [done|].
    apply in_map_iff. by exists (p', f).
Qed.

Lemma leaves_safe n : tree_ok n → ∀ p f, (p, f) ∈ leaves n → Forall safe_segment p.
Proof.
  induction n as [f0|err children IH] using node_tree_ind.
  - by intros _ p f [= -> _]%list_elem_of_singleton.
  - intros [_ Hok]%tree_ok_Dir p f (s & n & p' & Hin & -> & Hin')%elem_of_leaves. rewrite Forall_forall in Hok, IH.
    destruct (Hok _ Hin) as [Hs Hn]. constructor; [done|]. by eapply (IH _ Hin).
Qed.

Lemma leaves_NoDup n : tree_ok n → NoDup (map fst (leaves n)).
Proof.
  induction n as [f0|err children IH] using node_tree_ind; [intros _; apply NoDup_singleton|].
  intros [Hnd Hok]%tree_ok_Dir. induction children as [|[s n] l IHl]; [constructor|].
  apply Forall_cons in IH as [IHn IH]. apply Forall_cons in Hok as [[Hs Hn] Hok].
  cbn in Hnd. apply NoDup_cons in Hnd as [Hnew Hnd]. cbn. rewrite map_app. apply NoDup_app. split_and!.
  - rewrite map_map. rewrite (map_ext _ (λ x, s :: x.1)) by (by intros [? ?]).
    rewrite <- (map_map fst (cons s)). apply NoDup_fmap_2; [by intros ? ? [=]|by apply IHn].
  - intros p (x & -> & Hx)%list_elem_of_fmap (y & Heq & Hy)%list_elem_of_fmap.
    apply list_elem_of_fmap in Hx as ([p' f'] & -> & _). cbn in Heq. destruct y as [q f]. cbn in Heq. subst q.
    apply (elem_of_leaves err l) in Hy as (s' & n' & q & Hin & [= -> _] & _).
    apply Hnew. apply list_elem_of_fmap. by exists (s', n').
  - by apply IHl.
Qed.

(** ** The walk *)

(** No directory fails to be read. *)
Fixpoint readable (n : node) : Prop :=
  match n with
  | Leaf _ => True
  | Dir err children =>
      err = None ∧
      (fix all (l : list (string * node)) : Prop :=
         match l with [] => True | (_, n) :: l => readable n ∧ all l end) children
  end.

Section walk.
Variable write_err : string → option string.

(** One step of the walk of the entries of a directory. *)
Lemma walk_cons name child n l :
  walk write_err name (Dir None ((child, n) :: l)) =
  match walk write_err (path_Join name child) n with
  | inl err => inl err
  | inr files => match walk write_err name (Dir None l) with inl err => inl err | inr rest => inr (files ++ rest) end
  end.
Proof. done. Qed.

Definition entry_at (segs : list string) (leaf : list string * (string + opened)) (file : ZipFile) : Prop :=
  archive_entry write_err (name_of (segs ++ leaf.1)) leaf.2 = inr file.

Lemma entry_at_child segs s leaf file :
  entry_at (segs ++ [s]) leaf file ↔ entry_at segs (s :: leaf.1, leaf.2) file.
Proof. unfold entry_at. cbn. by rewrite <- app_assoc. Qed.

Lemma Forall2_child segs s l files :
  Forall2 (entry_at segs) (map (λ '(p, f), (s :: p, f)) l) files ↔ Forall2 (entry_at (segs ++ [s])) l files.
Proof.
  change (map ?g l) with (g <$> l). rewrite Forall2_fmap_l.
  split; intros Hf; (eapply Forall2_impl; [exact Hf|]); intros [p f] file; apply (entry_at_child segs s (p, f)).
Qed.

Lemma walk_leaf segs f files :
  segs ≠ [] → Forall safe_segment segs →
  walk write_err (name_of segs) (Leaf f) = inr files ↔ Forall2 (entry_at segs) [([], f)] files.
Proof.
  intros Hne Hsegs.
  assert (Hname : String.eqb (name_of segs) "." = false).
  { apply String.eqb_neq. intros E. unfold name_of in E. rewrite decide_False in E by done.
    pose proof (Join_safe segs Hne Hsegs) as Hs. rewrite E in Hs. by apply Forall_cons in Hs as [(_ & ? & _) _]. }
  cbn [walk]. rewrite Hname. split.
  - destruct (archive_entry write_err (name_of segs) f) as [|file] eqn:He; intros [= <-].
    constructor; [|constructor]. unfold entry_at. cbn. by rewrite app_nil_r.
  - intros (file & l & He & Hl & ->)%Forall2_cons_inv_l. apply Forall2_nil_inv_l in Hl as ->.
    unfold entry_at in He. cbn in He. rewrite app_nil_r in He. by rewrite He.
Qed.

(** The walk succeeds exactly when every directory and every file can be read, and then it
    adds the files of the tree in order. *)
Lemma walk_leaves n segs files :
  tree_ok n → Forall safe_segment segs → (segs ≠ [] ∨ ∃ err children, n = Dir err children) →
  walk write_err (name_of segs) n = inr files ↔ readable n ∧ Forall2 (entry_at segs) (leaves n) files.
Proof.
  revert segs files. induction n as [f|err children IH] using node_tree_ind; intros segs files Hok Hsegs Hroot.
  { destruct Hroot as [Hne|(? & ? & ?)]; [|done]. rewrite walk_leaf by done. cbn. tauto. }
  apply tree_ok_Dir in Hok as [_ Hok]. clear Hroot. destruct err as [err|]; [by split; [|intros [[? _] _]]|].
  revert files. induction children as [|[s n] l IHl]; intros files.
  { split; [intros [= <-]; by split|]. intros [_ Hf]. by apply Forall2_nil_inv_l in Hf as ->. }
  apply Forall_cons in IH as [IHn IH]. apply Forall_cons in Hok as [[Hs Hn] Hok]. cbn in Hs, Hn.
  specialize (IHl IH Hok). rewrite walk_cons, path_Join_name by done.
  assert (Hchild : ∀ fs, walk write_err (name_of (segs ++ [s])) n = inr fs ↔
    readable n ∧ Forall2 (entry_at segs) (map (λ '(p, f), (s :: p, f)) (leaves n)) fs).
  { intros fs. rewrite Forall2_child. apply IHn; [done|apply Forall_app; auto|left; by destruct segs]. }
  split.
  - destruct (walk write_err (name_of (segs ++ [s])) n) as [|fs] eqn:Hw; [done|].
    destruct (walk write_err (name_of segs) (Dir None l)) as [|rest] eqn:Hrest; [done|]. intros [= <-].
    destruct (proj1 (Hchild fs) eq_refl) as [? ?]. destruct (proj1 (IHl rest) eq_refl) as [[_ ?] ?].
    split; [done|]. by apply Forall2_app.
  - intros [[_ [Hrn Hrl]] Hf]. apply (Forall2_app_inv_l _ (map _ (leaves n)) (leaves (Dir None l))) in Hf
      as (fs & rest & Hfs & Hrest & ->).
    rewrite (proj2 (Hchild fs)) by done. by rewrite (proj2 (IHl rest)).
Qed.

Lemma archive_entry_inr name f file :
  archive_entry write_err name f = inr file →
  ∃ o data, f = inr o ∧ op_Stat o = inr RegularMode ∧ op_Reader o = {| rd_data := data; rd_err := None |} ∧
    file = text_file name data.
Proof.
  unfold archive_entry, ReadAll. destruct f as [|o]; [done|]. destruct (op_Stat o) as [|[]] eqn:Hs; try done.
  destruct (write_err name); [done|]. destruct (op_Reader o) as [data [err|]] eqn:Hr; [done|]. cbn.
  destruct (op_Close o); [done|]. intros [= <-]. eauto 6.
Qed.
End walk.

(** ** The archive on the server *)

Lemma Split_app_any c u t : Split (u +:+ String c t) c = Split u c ++ Split t c.
Proof.
  revert u. apply (split_ind c).
  - intros u Hu. by rewrite Split_app, (Split_free c u) by done.
  - intros u v Hu IH. rewrite str_app_assoc, (Split_app c u v) by done.
    change (String c v +:+ String c t) with (String c (v +:+ String c t)).
    rewrite (Split_app c u (v +:+ String c t)) by done. by rewrite IH.
Qed.

Lemma safe_path_accepted p :
  safe_path p → p ≠ "" ∧ HasPrefix p "/" = false ∧ HasSuffix p "/" = false ∧ escapes p = false.
Proof.
  intros Hp. pose proof (safe_path_nonempty p Hp) as Hne. pose proof (safe_path_relative p Hp) as Hrel.
  split; [done|]. split; [done|]. split.
  - apply HasSuffix_false. intros u ->. unfold safe_path in Hp. rewrite Split_app_any in Hp.
    apply Forall_app in Hp as [_ Hp]. by apply Forall_cons in Hp as [[? _] _].
  - unfold escapes. rewrite Hrel, orb_false_r. rewrite !orb_false_iff. split_and!.
    + apply String.eqb_neq. intros ->. by apply Forall_cons in Hp as [(_ & ? & _) _].
    + apply String.eqb_neq. intros ->. by apply Forall_cons in Hp as [(_ & _ & ? & _) _].
    + apply HasPrefix_false. intros t ->. unfold safe_path in Hp.
      assert (Hsplit : Split ("../" +:+ t) "/" = ".." :: Split t "/") by exact (Split_app "/" ".." t eq_refl).
      rewrite Hsplit in Hp. by apply Forall_cons in Hp as [(_ & _ & ? & _) _].
Qed.

Section server.
Context `{Normalizer} `{IgnoreMatcher}.

Definition entry_for (f : ZipFile) : archiveFile :=
  {| af_name := zf_Name f; af_original := zf_Name f; af_file := f |}.

(** The entry has a clean name that the server keeps as it is. *)
Definition clean_entry (f : ZipFile) : Prop :=
  zf_DirAttr f = false ∧ safe_path (zf_Name f) ∧ NFC (zf_Name f) = zf_Name f ∧ isArchiveJunk (zf_Name f) = false.

Lemma validated_clean f : clean_entry f → validated_entry f = Ok (Some (entry_for f)).
Proof.
  intros (Hdir & Hsafe & Hnfc & Hjunk). destruct (safe_path_accepted _ Hsafe) as (Hne & Hrel & Hsuf & Hesc).
  unfold validated_entry, IsDir. rewrite Hdir, Hsuf. cbn [orb]. apply String.eqb_neq in Hne as ->.
  rewrite Hrel, Hnfc, path_Clean_id by done. by rewrite Hesc, Hjunk.
Qed.

Lemma validatedEntries_clean files :
  files ≠ [] → Forall clean_entry files → validatedEntries files = Ok (map entry_for files).
Proof.
  intros Hne Hclean. assert (Hloop : validate_loop files = Ok (map entry_for files)).
  { clear Hne. induction Hclean as [|f files Hf _ IH]; [done|]. cbn. by rewrite validated_clean, IH. }
  unfold validatedEntries. rewrite Hloop. cbn. destruct files; done.
Qed.

(** The names published are as distinct as the names of the entries. *)
Lemma published_NoDup files :
  NoDup (map zf_Name files) →
  NoDup (map (published_name (map entry_for files)) (map entry_for files)).
Proof.
  intros Hnd. rewrite map_map. unfold published_name.
  destruct (singleTopLevelFolder (map entry_for files)) as [wrapper []] eqn:Hw; [|exact Hnd].
  apply singleTopLevelFolder_spec in Hw as [_ Hw]. revert Hnd. rewrite Forall_map in Hw.
  assert (Hname : ∀ f, f ∈ files → zf_Name f = wrapper +:+ "/" +:+ (Cut (zf_Name f) "/").1.2).
  { rewrite Forall_forall in Hw. intros f Hin. destruct (Hw f Hin) as [tail Hcut]. cbn in Hcut. rewrite Hcut.
    by apply Cut_true in Hcut as [-> _]. }
  clear Hw. induction files as [|f files IH]; [done|]. cbn. intros [Hnew Hnd]%NoDup_cons. apply NoDup_cons. split.
  - intros (g & Heq & Hg)%list_elem_of_fmap. apply Hnew, list_elem_of_fmap. exists g. split; [|done]. cbn in Heq.
    rewrite (Hname f), (Hname g) by (by left || by right). by rewrite Heq.
  - apply IH; [|done]. intros g Hg. apply Hname. by right.
Qed.

Lemma archiveKeys_clean files folder :
  files ≠ [] → Forall clean_entry files → NoDup (map zf_Name files) →
  findIgnoreFile (map entry_for files) = None →
  ∃ objects, archiveKeys files folder = Ok objects ∧ map ao_file objects = files ∧
    map ao_key objects = map (λ f, folder +:+ "/" +:+ published_name (map entry_for files) (entry_for f)) files.
Proof.
  intros Hne Hclean Hnd Hnone.
  destruct (archiveKeys_whole files folder (map entry_for files)) as [_ Hwhole];
    [by apply validatedEntries_clean|done|].
  destruct (Hwhole (published_NoDup files Hnd)) as (objects & Hkeys & Hf & Hk).
  exists objects. split; [done|]. rewrite Hf, Hk, !map_map. split; [|done]. by rewrite map_id.
Qed.
End server.

(** ** From a directory to its published files *)

(** The directory can be opened and the temporary file is created at this path. *)
Definition creates_at (e : archive_env) (path : string) : Prop :=
  ar_Stat e = inr true ∧ (∃ root, ar_OpenRoot e = inr root) ∧ CreateTemp e = inr path.

Lemma creates_at_unique e path path' : creates_at e path → creates_at e path' → path = path'.
Proof. intros (_ & _ & H) (_ & _ & H'). congruence. Qed.

Lemma removed_Some e path path' : removed e path = Some path' ↔ path' = path ∧ ar_Remove e path ≠ None.
Proof. unfold removed. destruct (ar_Remove e path); naive_solver. Qed.

(** A temporary file has a name that was free, drawn in one of 10000 attempts. *)
Lemma create_temp_spec attempts try prefix suffix e path :
  create_temp attempts try prefix suffix e = inr path →
  ∃ i, (try ≤ i < try + attempts) ∧ path = prefix +:+ ar_random e i +:+ suffix ∧ ar_Create e path = Created.
Proof.
  revert try. induction attempts as [|attempts IH]; intros try; [done|]. cbn [create_temp]. cbv zeta.
  destruct (ar_Create e (prefix +:+ ar_random e try +:+ suffix)) eqn:Hc; [|intros (i & ? & ? & ?)%IH; exists i; split; [lia|done]|done].
  intros [= <-]. exists try. split; [lia|done].
Qed.

Lemma Archive_inr dir e path files leftover :
  Archive dir e = (inr (path, files), leftover) →
  leftover = Some path ∧ creates_at e path ∧ files ≠ [] ∧ ∃ root, ar_OpenRoot e = inr root ∧ walk (ar_Write e) "." root = inr files.
Proof.
  unfold Archive, creates_at. destruct (ar_Stat e) as [|[]]; [done| |done]. destruct (ar_OpenRoot e) as [|root]; [done|].
  destruct (CreateTemp e); [done|]. destruct (walk (ar_Write e) "." root) as [|[|f fs]] eqn:Hw; [done..|].
  destruct (ar_CloseZip e); [done|]. destruct (ar_CloseTemp e); [done|]. intros [= <- <- <-]. eauto 10.
Qed.

(** A failure leaves a file exactly when one was created and its removal fails. *)
Lemma Archive_inl dir e err leftover :
  Archive dir e = (inl err, leftover) →
  ∀ path, leftover = Some path ↔ creates_at e path ∧ ar_Remove e path ≠ None.
Proof.
  assert (Hnone : ∀ path, (∀ p, ¬ creates_at e p) → None = Some path ↔ creates_at e path ∧ ar_Remove e path ≠ None).
  { intros path Hno. split; [done|]. by intros [?%Hno _]. }
  assert (Hsome : ∀ p path, creates_at e p → removed e p = Some path ↔ creates_at e path ∧ ar_Remove e path ≠ None).
  { intros p path Hp. rewrite removed_Some. split; [by intros [-> ?]|]. intros [Hp' ?].
    by rewrite (creates_at_unique _ _ _ Hp' Hp) in *. }
  unfold Archive. unfold creates_at in *. destruct (ar_Stat e) as [|[]]; [| |]; try (intros [= _ <-] path; apply Hnone; naive_solver).
  destruct (ar_OpenRoot e) as [|root]; [intros [= _ <-] path; apply Hnone; naive_solver|].
  destruct (CreateTemp e) as [|p]; [intros [= _ <-] path; apply Hnone; naive_solver|].
  destruct (walk (ar_Write e) "." root) as [|[|f fs]]; [intros [= _ <-] path; apply Hsome; eauto..|].
  destruct (ar_CloseZip e); [intros [= _ <-] path; apply Hsome; eauto|].
  destruct (ar_CloseTemp e); [intros [= _ <-] path; apply Hsome; eauto|done].
Qed.

Section published.
Context `{Normalizer} `{IgnoreMatcher}.

(** The files of the tree have names the server keeps, and none is an ignore file. *)
Definition kept_names (root : node) : Prop :=
  ∀ p f, (p, f) ∈ leaves root →
    NFC (Join p "/") = Join p "/" ∧ isArchiveJunk (Join p "/") = false ∧ last p ≠ Some gimmeIgnoreName.

Lemma leaf_nonempty err children p f : (p, f) ∈ leaves (Dir err children) → p ≠ [].
Proof. by intros (s & n & p' & _ & -> & _)%elem_of_leaves. Qed.

Lemma not_ignore_file p wrapper :
  p ≠ [] → Forall safe_segment p → last p ≠ Some gimmeIgnoreName →
  Join p "/" ≠ gimmeIgnoreName ∧ Join p "/" ≠ wrapper +:+ "/" +:+ gimmeIgnoreName.
Proof.
  intros Hne Hs Hlast. assert (Hsplit : Split (Join p "/") "/" = p) by by apply Split_slash_safe.
  split; intros E; rewrite E in Hsplit; apply Hlast; rewrite <- Hsplit; [done|].
  change (wrapper +:+ "/" +:+ gimmeIgnoreName) with (wrapper +:+ String "/" gimmeIgnoreName).
  by rewrite Split_app_any, last_app.
Qed.

Lemma Forall2_impl_in {X Y} (P Q : X → Y → Prop) l k :
  Forall2 P l k → (∀ x y, x ∈ l → y ∈ k → P x y → Q x y) → Forall2 Q l k.
Proof.
  induction 1 as [|x y l k HP HF IH]; intros HPQ; constructor; [apply HPQ; [by left|by left|done]|].
  apply IH. intros x' y' ? ?. apply HPQ; by right.
Qed.

(** The entry of a file of the tree. *)
Definition archived_as (l : list string * (string + opened)) (file : ZipFile) : Prop :=
  ∃ o data, l.2 = inr o ∧ op_Stat o = inr RegularMode ∧ op_Reader o = {| rd_data := data; rd_err := None |} ∧
    file = text_file (Join l.1 "/") data.

Lemma walk_archived w err children files :
  tree_ok (Dir err children) → walk w "." (Dir err children) = inr files →
  Forall2 archived_as (leaves (Dir err children)) files.
Proof.
  intros Hok Hw. apply (walk_leaves w _ []) in Hw as [_ Hf]; [|done|constructor|right; eauto].
  eapply Forall2_impl_in; [exact Hf|]. intros [p f] file Hin _ He. apply leaf_nonempty in Hin.
  apply archive_entry_inr in He as (o & data & Ho & Hs & Hr & ->). cbn in *.
  exists o, data. unfold name_of. by rewrite decide_False.
Qed.

Lemma archived_clean err children files :
  tree_ok (Dir err children) → kept_names (Dir err children) →
  Forall2 archived_as (leaves (Dir err children)) files →
  Forall clean_entry files ∧ NoDup (map zf_Name files) ∧ findIgnoreFile (map entry_for files) = None.
Proof.
  intros Hok Hplain Hf.
  assert (Hpath : ∀ file, file ∈ files → ∃ p f, (p, f) ∈ leaves (Dir err children) ∧ p ≠ [] ∧ Forall safe_segment p ∧
    ∃ data, file = text_file (Join p "/") data).
  { intros file (i & Hi)%list_elem_of_lookup. destruct (Forall2_lookup_r _ _ _ _ _ Hf Hi) as ([p f] & Hl & o & data & _ & _ & _ & ->).
    apply list_elem_of_lookup_2 in Hl as Hin. exists p, f. split; [done|]. split; [by eapply leaf_nonempty|].
    split; [by eapply leaves_safe|by exists data]. }
  split_and!.
  - apply Forall_forall. intros file Hin. destruct (Hpath file Hin) as (p & f & Hp & Hne & Hs & data & ->).
    destruct (Hplain p f Hp) as (Hn & Hj & _). split_and!; [done|by apply Join_safe|done..].
  - assert (Hnames : map zf_Name files = map (λ l, Join l "/") (map fst (leaves (Dir err children)))).
    { clear -Hf. rewrite map_map. induction Hf as [|[p f] file l k (o & data & _ & _ & _ & ->) _ IH]; [done|]. cbn. by rewrite IH. }
    rewrite Hnames. pose proof (leaves_NoDup _ Hok) as Hnd.
    assert (Hall : ∀ p, p ∈ map fst (leaves (Dir err children)) → p ≠ [] ∧ Forall safe_segment p).
    { intros p ([p' f] & -> & Hin)%list_elem_of_fmap. split; [by eapply leaf_nonempty|by eapply leaves_safe]. }
    revert Hnd Hall. generalize (map fst (leaves (Dir err children))). clear. intros l.
    induction l as [|p l IH]; [constructor|]. intros [Hnew Hnd]%NoDup_cons Hall. cbn. apply NoDup_cons. split.
    + intros (p' & Heq & Hin)%list_elem_of_fmap. apply Hnew. destruct (Hall p) as [? ?]; [by left|].
      destruct (Hall p') as [? ?]; [by right|]. apply (f_equal (λ s, Split s "/")) in Heq.
      rewrite !Split_slash_safe in Heq by done. by subst.
    + apply IH; [done|]. intros p' ?. apply Hall. by right.
  - assert (Hno : ∀ name wrapper, name = gimmeIgnoreName ∨ name = wrapper +:+ "/" +:+ gimmeIgnoreName →
      find (named name) (map entry_for files) = None).
    { intros name wrapper Hname. destruct (find _ _) as [entry|] eqn:Hfind; [|done]. apply find_some in Hfind as [Hin Heq].
      apply in_map_iff in Hin as (file & <- & Hin%list_elem_of_In). destruct (Hpath file Hin) as (p & f & Hp & Hne & Hs & data & ->).
      destruct (Hplain p f Hp) as (_ & _ & Hl). destruct (not_ignore_file p wrapper Hne Hs Hl) as [Hn1 Hn2].
      unfold named in Heq. apply String.eqb_eq in Heq. cbn in Heq. subst name. by destruct Hname. }
    unfold findIgnoreFile. rewrite (Hno gimmeIgnoreName "") by by left.
    destruct (singleTopLevelFolder _) as [wrapper []]; [|done]. cbn [negb]. by rewrite (Hno _ wrapper) by by right.
Qed.

(** The objects that the server makes of the archive of a directory. *)
Lemma directory_objects dir e root folder path files leftover :
  ar_OpenRoot e = inr root → (∃ err children, root = Dir err children) → tree_ok root → kept_names root →
  Archive dir e = (inr (path, files), leftover) →
  leftover = Some path ∧ Forall2 archived_as (leaves root) files ∧
  ∃ objects, archiveKeys files folder = Ok objects ∧
    Forall2 (λ leaf object, archived_as leaf (ao_file object) ∧
      ao_key object = folder +:+ "/" +:+ published_name (map entry_for files) (entry_for (ao_file object)) ∧
      (singleTopLevelFolder (map entry_for files) = ("", false) →
         ao_key object = folder +:+ "/" +:+ Join leaf.1 "/")) (leaves root) objects.
Proof.
  intros Hroot (err & children & ->) Hok Hplain Harchive.
  apply Archive_inr in Harchive as (-> & _ & Hne & root' & Hroot' & Hw).
  assert (root' = Dir err children) as -> by congruence. split; [done|].
  pose proof (walk_archived _ _ _ _ Hok Hw) as Hf. split; [done|].
  destruct (archived_clean err children files Hok Hplain Hf) as (Hclean & Hnd & Hnone).
  destruct (archiveKeys_clean files folder Hne Hclean Hnd Hnone) as (objects & Hkeys & Hfiles & Hk).
  exists objects. split; [done|].
  remember (singleTopLevelFolder (map entry_for files)) as single eqn:Hsingle.
  remember (published_name (map entry_for files)) as published eqn:Hpub.
  rewrite <- Hfiles in Hf, Hk. rewrite map_map in Hk.
  change (map ao_file objects) with (ao_file <$> objects) in Hf. rewrite Forall2_fmap_r in Hf.
  eapply Forall2_impl_in; [exact Hf|]. intros [p f] object _ Hin Ha. cbn in Ha. split; [done|].
  assert (Hkey : ao_key object = folder +:+ "/" +:+ published (entry_for (ao_file object))).
  { revert object Hin Ha. clear -Hk. intros object Hin _. revert Hin. rewrite list_elem_of_In.
    by apply (ext_in_map Hk). }
  split; [done|]. intros Hno. rewrite Hkey, Hpub. unfold published_name. rewrite <- Hsingle, Hno.
  by destruct Ha as (o & data & _ & _ & _ & ->).
Qed.

(** What the client packs is what the server publishes.  Take a directory whose entries
    have names that the server keeps (no junk, no ignore file).  When Archive succeeds, every
    file of the directory at any depth is regular and was read to its end, the temporary archive
    is the only thing left on the disk, and the server accepts it: there is one object for each
    file and no other, with the bytes of the file, under its path in the directory less the
    folder all of them are in, if there is one.  When Archive fails, a file is left exactly
    when it was created and cannot be removed. *)
Theorem published_directory dir e root folder :
  ar_OpenRoot e = inr root → (∃ err children, root = Dir err children) → tree_ok root → kept_names root →
  match Archive dir e with
  | (inr (path, files), leftover) =>
      leftover = Some path ∧
      ∃ objects, archiveKeys files folder = Ok objects ∧
        Forall2 (λ leaf object, archived_as leaf (ao_file object) ∧
          ao_key object = folder +:+ "/" +:+ published_name (map entry_for files) (entry_for (ao_file object)) ∧
          (singleTopLevelFolder (map entry_for files) = ("", false) →
             ao_key object = folder +:+ "/" +:+ Join leaf.1 "/")) (leaves root) objects
  | (inl _, leftover) => ∀ path, leftover = Some path ↔ creates_at e path ∧ ar_Remove e path ≠ None
  end.
Proof.
  intros Hroot Hdir Hok Hplain.
  destruct (Archive dir e) as [[msg|[path files]] leftover] eqn:Harchive; [by eapply Archive_inl|].
  by destruct (directory_objects _ _ _ folder _ _ _ Hroot Hdir Hok Hplain Harchive) as (? & _ & ?).
Qed.
End published.

(** ** The command line *)

(** An option of push: one or two dashes, and its value after "=" or as the next argument. *)
Record option_arg := { oa_name : string; oa_value : string; oa_long : bool; oa_joined : bool }.

Definition dashed (o : option_arg) : string := (if oa_long o then "--" else "-") +:+ oa_name o.

Definition render (o : option_arg) : list string :=
  if oa_joined o then [dashed o +:+ "=" +:+ oa_value o] else [dashed o; oa_value o].

Definition option_ok (o : option_arg) : Prop :=
  oa_name o ∈ push_flags ∧ (oa_joined o = false → HasPrefix (oa_value o) "-" = false).

(** The names of the options by cases, the rest of an argument staying symbolic. *)
Ltac option_cases o :=
  let Hname := fresh "Hname" in
  let Hvalue := fresh "Hvalue" in
  destruct o as [name value long joined]; intros [Hname Hvalue]; cbn [oa_name oa_value oa_joined] in Hname, Hvalue;
  unfold push_flags in Hname; unfold render, dashed; cbn [oa_name oa_value oa_long oa_joined];
  repeat (apply elem_of_cons in Hname as [->|Hname]); [..|by apply elem_of_nil in Hname];
  (destruct joined; [clear Hvalue|specialize (Hvalue eq_refl)]); destruct long.

Lemma reorder_render o args re pos :
  option_ok o → reorder (render o ++ args) re pos = reorder args (re ++ render o) pos.
Proof. option_cases o; try reflexivity; cbn [reorder app]; rewrite Hvalue; reflexivity. Qed.

Lemma flag_Parse_render o fuel args set :
  option_ok o →
  flag_Parse (S fuel) push_flags (render o ++ args) set = flag_Parse fuel push_flags args (set ++ [(oa_name o, oa_value o)]).
Proof. option_cases o; reflexivity. Qed.

Lemma flag_Parse_options os fuel set :
  Forall option_ok os → length os ≤ fuel →
  flag_Parse fuel push_flags (flat_map render os) set = inr (set ++ map (λ o, (oa_name o, oa_value o)) os).
Proof.
  intros Hos. revert fuel set. induction Hos as [|o os Ho _ IH]; intros fuel set Hfuel; cbn [flat_map map].
  - rewrite app_nil_r. by destruct fuel.
  - cbn in Hfuel. destruct fuel as [|fuel]; [lia|]. rewrite flag_Parse_render by done.
    rewrite IH by lia. by rewrite <- app_assoc.
Qed.

Lemma reorder_options os args re pos :
  Forall option_ok os → reorder (flat_map render os ++ args) re pos = reorder args (re ++ flat_map render os) pos.
Proof.
  intros Hos. revert re. induction Hos as [|o os Ho _ IH]; intros re; cbn [flat_map]; [by rewrite app_nil_r|].
  by rewrite <- app_assoc, reorder_render, IH, <- app_assoc.
Qed.

Lemma length_render os : length os ≤ length (flat_map render os).
Proof.
  induction os as [|o os IH]; [done|]. cbn [flat_map length]. rewrite length_app.
  assert (1 ≤ length (render o)) by (unfold render; destruct (oa_joined o); cbn; lia). lia.
Qed.

(** The value an option ends with: the last one given. *)
Definition option_value (os : list option_arg) (name : string) : string :=
  default "" (oa_value <$> last (filter (λ o, oa_name o = name) os)).

Lemma flag_value_options os name :
  flag_value (map (λ o, (oa_name o, oa_value o)) os) name = option_value os name.
Proof.
  unfold flag_value, option_value. f_equal.
  assert (Hf : filter (λ p : string * string, p.1 = name) (map (λ o, (oa_name o, oa_value o)) os) =
    map (λ o, (oa_name o, oa_value o)) (filter (λ o, oa_name o = name) os)).
  { induction os as [|o os IH]; [done|]. cbn [map]. rewrite !filter_cons. cbn [fst]. by case_decide; rewrite IH. }
  rewrite Hf. change (map ?f ?l) with (f <$> l). rewrite fmap_last. by destruct (last _).
Qed.

(** The arguments of push may come in any order.  The directory may stand before, between
    or after the options; an option has one or two dashes and its value after "=" or as the
    next argument; when one is repeated the last value counts.  A second directory, or none,
    is an error. *)
Theorem parsePush_order os1 os2 dir dirs :
  Forall option_ok os1 → Forall option_ok os2 → HasPrefix dir "-" = false →
  Forall (λ d, HasPrefix d "-" = false) dirs →
  parsePush (flat_map render os1 ++ [dir] ++ flat_map render os2 ++ dirs) =
    match dirs with
    | [] =>
        inr {| pa_name := option_value (os1 ++ os2) "name"; pa_version := option_value (os1 ++ os2) "version";
               pa_url := option_value (os1 ++ os2) "url"; pa_token := option_value (os1 ++ os2) "token"; pa_dir := dir |}
    | _ => inl "push requires exactly one directory"%string
    end ∧
  parsePush (flat_map render os1) = inl "push requires exactly one directory"%string.
Proof.
  intros H1 H2 Hdir Hdirs.
  assert (Htail : ∀ re pos, reorder dirs re pos = inr (re, pos ++ dirs)).
  { induction Hdirs as [|d l Hd _ IH]; intros re pos; cbn [reorder]; [by rewrite app_nil_r|].
    by rewrite Hd, IH, <- app_assoc. }
  assert (Hparse : ∀ os, Forall option_ok os → flag_Parse (length (flat_map render os)) push_flags (flat_map render os) [] =
    inr (map (λ o, (oa_name o, oa_value o)) os)).
  { intros os Hos. rewrite flag_Parse_options; [done|done|apply length_render]. }
  split.
  - unfold parsePush. rewrite reorder_options by done. cbn [app reorder]. rewrite Hdir, reorder_options, Htail by done.
    cbn [app]. rewrite <- flat_map_app, Hparse by (by apply Forall_app).
    rewrite !flag_value_options. by destruct dirs.
  - unfold parsePush. rewrite <- (app_nil_r (flat_map render os1)), reorder_options by done. cbn [app reorder].
    by rewrite Hparse.
Qed.

(** ** Runs *)

Section runs.
Context `{PublishJSON}.

Lemma push_answer_None code status body : push_answer code status body = None ↔ code = 201%Z.
Proof.
  unfold push_answer. destruct (Z.eqb_spec code 201); [done|]. split; [|done].
  destruct (code =? 401)%Z; [done|]. destruct (serverMessage body) as [m j]. destruct (code =? 409)%Z; [done|].
  destruct ((code =? 413)%Z && negb j); [done|]. destruct (String.eqb _ ""); done.
Qed.

(** The server answers 201 to the request of an upload, and the part of its answer that the
    client reads, up to 513 bytes, can be read. *)
Definition accepted (t : transport) (opts : Options) : Prop :=
  tr_URL t (TrimRight (opt_URL opts) "/" +:+ "/packages") = None ∧
  ∃ resp body, tr_Do t {| pr_Endpoint := TrimRight (opt_URL opts) "/" +:+ "/packages";
      pr_Authorization := "Bearer " +:+ opt_Token opts; pr_Form := writeMultipart t opts |} = inr resp ∧
    hr_StatusCode resp = 201%Z ∧ copy_limited (hr_Body resp) 513 = inr body.

Lemma Push_None t opts : Push t opts = None ↔ accepted t opts.
Proof.
  unfold Push, accepted. cbv zeta. destruct (tr_URL t _); [split; [done|by intros [? _]]|].
  destruct (tr_Do t _) as [err|resp]; [split; [done|by intros (_ & ? & ? & ? & _)]|].
  destruct (copy_limited (hr_Body resp) 513) as [err|body] eqn:Hbody.
  - split; [done|]. intros (_ & ? & ? & [= <-] & _ & ?). congruence.
  - rewrite push_answer_None. split; [intros ?; split; [done|by exists resp, body]|].
    by intros (_ & ? & ? & [= <-] & ? & _).
Qed.

Lemma missing_None name url token : missing name url token = None ↔ name ≠ "" ∧ url ≠ "" ∧ token ≠ "".
Proof.
  unfold missing. destruct (String.eqb_spec name ""), (String.eqb_spec url ""), (String.eqb_spec token ""); naive_solver.
Qed.

(** The versions in their order, without the "v" of a tag. *)
Lemma ResolveVersion_spec explicit s v source :
  ResolveVersion explicit s = inr (v, source) ↔
  explicit ≠ "" ∧ v = stripV explicit ∧ source = "--version" ∨
  explicit = "" ∧ ∃ raw, v = stripV raw ∧
    (from_package s = Some raw ∧ source = "package.json" ∨
     from_package s = None ∧ (from_env s = Some raw ∧ source = "GitHub Actions tag" ∨
       from_env s = None ∧ from_git s = Some raw ∧ source = "git tag")).
Proof.
  unfold ResolveVersion. destruct (String.eqb_spec explicit "") as [->|]; cbn [negb]; [|naive_solver].
  destruct (from_package s), (from_env s), (from_git s); naive_solver.
Qed.

(** A push gets to its archive: its values are known, and its version is found. *)
Definition resolved (w : cli_world) (a : push_args) (version : string) : Prop :=
  ∃ package source,
    pa_name a ≠ "" ∧ or_env w (pa_url a) "GIMME_URL" ≠ "" ∧ or_env w (pa_token a) "GIMME_TOKEN" ≠ "" ∧
    cw_Getwd w = inr package ∧
    ResolveVersion (pa_version a) {| vs_PackageJSON := package; vs_LookupEnv := Some (cw_env w);
      vs_RunGit := Some (cw_git w) |} = inr (version, source).

(** What a push publishes. *)
Definition pushed (w : cli_world) (a : push_args) : Prop :=
  ∃ version archive leftover,
    let url := or_env w (pa_url a) "GIMME_URL" in
    let token := or_env w (pa_token a) "GIMME_TOKEN" in
    resolved w a version ∧
    Archive (pa_dir a) (cw_dirs w (pa_dir a)) = (inr archive, leftover) ∧
    accepted (cw_transport w) {| opt_URL := url; opt_Token := token; opt_Name := pa_name a; opt_Version := version;
      opt_Archive := archive |}.

(** The temporary archive was created at this path, and its removal fails. *)
Definition left_at (w : cli_world) (a : push_args) (path : string) : Prop :=
  (∃ version, resolved w a version) ∧
  creates_at (cw_dirs w (pa_dir a)) path ∧ ar_Remove (cw_dirs w (pa_dir a)) path ≠ None.

(** What is stated of the outcome of a push. *)
Record push_outcome w a (o : outcome) : Prop := {
  po_left : ∀ path, oc_left o = Some path ↔ left_at w a path;
  po_exit : oc_exit o = 0%Z ∨ oc_exit o = 1%Z ∨ oc_exit o = 2%Z;
  po_pushed : oc_exit o = 0%Z ↔ pushed w a;
}.

Lemma resolved_unique w a v v' : resolved w a v → resolved w a v' → v = v'.
Proof. intros (p & s & _ & _ & _ & Hp & Hv) (p' & s' & _ & _ & _ & Hp' & Hv'). congruence. Qed.

(** A push that ends before its archive. *)
Lemma unresolved_outcome w a o :
  (∀ version, ¬ resolved w a version) → oc_left o = None → oc_exit o = 1%Z ∨ oc_exit o = 2%Z → push_outcome w a o.
Proof.
  intros Hno Hleft Hexit. split.
  - intros path. rewrite Hleft. split; [done|]. by intros [[v ?%Hno] _].
  - tauto.
  - split; [intros E; rewrite E in Hexit; by destruct Hexit|]. by intros (v & _ & _ & ?%Hno & _).
Qed.

Lemma run_push_exit w a : push_outcome w a (run_push w a).
Proof.
  unfold run_push. cbv zeta. destruct (missing _ _ _) as [label|] eqn:Hm.
  { apply unresolved_outcome; [|done|by right]. intros v (p & s & ? & ? & ? & _).
    by rewrite (proj2 (missing_None _ _ _)) in Hm. }
  apply missing_None in Hm as (Hname & Hurl & Htoken).
  destruct (cw_Getwd w) as [err|package] eqn:Hpkg.
  { apply unresolved_outcome; [|done|by left]. intros v (p & s & _ & _ & _ & ? & _). congruence. }
  destruct (ResolveVersion _ _) as [err|[version source]] eqn:Hv.
  { apply unresolved_outcome; [|done|by left]. intros v (p & s & _ & _ & _ & ? & ?). congruence. }
  assert (Hres : resolved w a version) by by exists package, source.
  destruct (Archive _ _) as [[err|[path files]] leftover] eqn:Ha.
  { split; cbn [oc_left oc_exit fail]; [|auto|].
    - intros path. rewrite (Archive_inl _ _ _ _ Ha). unfold left_at. naive_solver.
    - split; [done|]. intros (v & ar & l & _ & Ha' & _). congruence. }
  pose proof (Archive_inr _ _ _ _ _ Ha) as (_ & Hat & _).
  assert (Hleft : ∀ p, removed (cw_dirs w (pa_dir a)) path = Some p ↔ left_at w a p).
  { intros p. rewrite removed_Some. unfold left_at. split; [intros [-> ?]; by eauto|].
    intros (_ & Hp & ?). by rewrite (creates_at_unique _ _ _ Hp Hat) in *. }
  destruct (Push _ _) as [err|] eqn:Hp; (split; cbn [oc_left oc_exit fail fst]; [exact Hleft|auto|]).
  - split; [done|]. intros (v & ar & l & Hres' & Ha' & Hacc).
    rewrite (resolved_unique _ _ _ _ Hres' Hres) in Hacc.
    assert (ar = (path, files)) as -> by congruence. apply Push_None in Hacc. congruence.
  - split; [|done]. intros _. apply Push_None in Hp. by exists version, (path, files), leftover.
Qed.

(** C37: the client reports success exactly when the server has accepted the upload.  It exits
    with 0 for "version", and for "push" exactly when the arguments are read, a name, a URL and a
    token are known from them or from the environment, a version is found, the directory is
    packed, and the server answers 201 to the request that carries this token, this name,
    this version and this archive, with a body whose first 513 bytes can be read.  Otherwise
    it exits with 1 or 2.  At the end the temporary archive is gone, whatever failed, except
    when the system refuses to remove it, which is not reported: a file is left exactly when
    the run got as far as creating it and its removal fails. *)
Theorem run_exit w args :
  (∀ path, oc_left (run w args) = Some path ↔
     ∃ rest a, args = "push" :: rest ∧ parsePush rest = inr a ∧ left_at w a path) ∧
  (oc_exit (run w args) = 0%Z ∨ oc_exit (run w args) = 1%Z ∨ oc_exit (run w args) = 2%Z) ∧
  (oc_exit (run w args) = 0%Z ↔
     args = ["version"] ∨ ∃ rest a, args = "push" :: rest ∧ parsePush rest = inr a ∧ pushed w a).
Proof.
  unfold run. case_bool_decide as Hversion.
  { subst args. split; [|split; [auto|split; auto]]. intros path. split; [done|]. by intros (? & ? & [=] & _). }
  assert (Hfail : ∀ msg P Q, ¬ P → (∀ path, ¬ Q path) → (∀ path, oc_left (usage_error msg) = Some path ↔ Q path) ∧
    (oc_exit (usage_error msg) = 0%Z ∨ oc_exit (usage_error msg) = 1%Z ∨ oc_exit (usage_error msg) = 2%Z) ∧
    (oc_exit (usage_error msg) = 0%Z ↔ P)).
  { intros msg P Q HP HQ. split; [|split; [by auto|by split]]. intros path. by split; [|intros ?%HQ]. }
  destruct args as [|arg args]; [apply Hfail; naive_solver|].
  destruct (String.eqb_spec arg "push") as [->|Hpush]; [|apply Hfail; naive_solver].
  destruct (parsePush args) as [err|a] eqn:Hp.
  - apply Hfail; [intros [?|(? & ? & [= <-] & ? & _)]; congruence|].
    intros path (? & ? & [= <-] & ? & _). congruence.
  - destruct (run_push_exit w a) as [Hleft Hexit Hiff]. split; [|split; [done|]].
    + intros path. rewrite Hleft. split; [by eauto|]. intros (rest & a' & [= <-] & Ha & ?). congruence.
    + rewrite Hiff. split; [right; eauto|]. intros [?|(rest & a' & [= <-] & Ha & ?)]; congruence.
Qed.
End runs.

(** ** A concrete directory *)

#[local] Existing Instance plain_names.
#[local] Existing Instance whole_paths.
#[local] Instance no_json : PublishJSON := { json_version _ := None; json_error _ := None }.

Definition regular (data : string) : string + opened :=
  inr {| op_Stat := inr RegularMode; op_Reader := {| rd_data := data; rd_err := None |}; op_Close := None |}.

Definition demo_tree : node :=
  Dir None [("index.html", Leaf (regular "hi")); ("js", Dir None [("app.js", Leaf (regular "1;"))])].

Definition demo_archive : archive_env := {|
  ar_Stat := inr true; ar_OpenRoot := inr demo_tree; ar_TempDir := "/tmp"; ar_random i := pretty i;
  ar_Create name := if String.eqb name "/tmp/gimme-cli-0.zip" then Exists else Created; ar_Remove _ := None;
  ar_Write _ := None; ar_CloseZip := None; ar_CloseTemp := None |}.

Lemma demo_tree_ok : tree_ok demo_tree.
Proof.
  assert (Hseg : ∀ s, negb (String.eqb s "") && negb (String.eqb s ".") && negb (String.eqb s "..") &&
    char_free "/" s = true → safe_segment s).
  { intros s Hs. rewrite !andb_true_iff, !negb_true_iff, !String.eqb_neq in Hs. unfold safe_segment. tauto. }
  cbn. split_and!; try (apply Hseg; now vm_compute); repeat constructor; set_solver.
Qed.

Lemma demo_kept : kept_names demo_tree.
Proof.
  intros p f Hin. change (leaves demo_tree) with [(["index.html"], regular "hi"); (["js"; "app.js"], regular "1;")] in Hin.
  repeat (apply elem_of_cons in Hin as [[= -> _]|Hin]; [now vm_compute|]). by apply elem_of_nil in Hin.
Qed.

Lemma published_directory_witness :
  ∃ objects, archiveKeys (match (Archive "dist" demo_archive).1 with inr (_, files) => files | inl _ => [] end) "demo@1.0.0"
      = Ok objects ∧
    map ao_key objects = ["demo@1.0.0/index.html"; "demo@1.0.0/js/app.js"].
Proof.
  pose proof (published_directory "dist" demo_archive demo_tree "demo@1.0.0") as Hpub.
  destruct (Archive "dist" demo_archive) as [[msg|[path files]] leftover] eqn:Ha; [exfalso; revert Ha; now vm_compute|].
  destruct Hpub as (_ & objects & Hkeys & Hall).
  - reflexivity.
  - by eexists _, _.
  - apply demo_tree_ok.
  - apply demo_kept.
  - exists objects. split; [exact Hkeys|]. revert Ha. vm_compute. intros [= <- <- <-].
    revert Hkeys. vm_compute. by intros [= <-].
Defined.

Definition opt (name value : string) (long joined : bool) : option_arg :=
  {| oa_name := name; oa_value := value; oa_long := long; oa_joined := joined |}.

Ltac options_ok :=
  repeat first [apply Forall_nil_2
               |apply Forall_cons; split; [first [reflexivity|split; [apply list_elem_of_In; vm_compute; tauto|done]]|]].

Lemma parsePush_order_witness :
  parsePush ["--name"; "a"; "-version=1.0.0"; "dist"; "--name=demo"] =
    inr {| pa_name := "demo"; pa_version := "1.0.0"; pa_url := ""; pa_token := ""; pa_dir := "dist" |} ∧
  parsePush ["--name"; "a"; "-version=1.0.0"; "dist"; "--name=demo"; "other"] =
    inl "push requires exactly one directory"%string.
Proof.
  split.
  - apply (parsePush_order [opt "name" "a" true false; opt "version" "1.0.0" false true] [opt "name" "demo" true true] "dist" []);
      [options_ok..|reflexivity|options_ok].
  - apply (parsePush_order [opt "name" "a" true false; opt "version" "1.0.0" false true] [opt "name" "demo" true true] "dist" ["other"]);
      [options_ok..|reflexivity|options_ok].
Defined.

(** A server that accepts the token "t". *)
Definition demo_world : cli_world := {|
  cw_env key := if String.eqb key "GIMME_TOKEN" then "t" else "";
  cw_Getwd := inr None; cw_git := inr ("v1.0.0" +:+ String (byte 10) ""); cw_dirs _ := demo_archive;
  cw_transport := {| tr_URL _ := None; tr_Open _ := None;
    tr_Do req := if String.eqb (pr_Authorization req) "Bearer t"
                 then inr {| hr_StatusCode := 201; hr_Status := "201 Created"; hr_Body := {| rd_data := ""; rd_err := None |} |}
                 else inl "refused"%string |} |}.

Lemma run_exit_witness :
  let args := ["push"; "dist"; "--name"; "demo"; "--url"; "https://cdn"] in
  ∃ rest a, args = "push" :: rest ∧ parsePush rest = inr a ∧ pushed demo_world a.
Proof.
  intros args. destruct (run_exit demo_world args) as (_ & _ & [Hyes _]).
  destruct Hyes as [Hversion|Hpushed]; [now vm_compute|discriminate Hversion|exact Hpushed].
Defined.
