(* ===== verification/EndToEnd.v ===== *)
(** From the command line to the browser: what "gimme-cli push" (Publish.v) reports as
    published is what the server (Server.v) then answers, file by file. *)
From S2P Require Import Prelude Order GoStrings GoUrl Errors Semver Zip Mime Storage Version Compression.
From S2P Require Import Archive Cache Service Upload UploadSpec Serve ServeSpec Negotiation TokenStore AuthManager AuthProvider.
From S2P Require Import Oidc Application PackageController ApiSpec Concurrent ConcurrentSpec Router Server ServerSpec.
From S2P Require Import Publish PublishSpec.
From Stdlib Require Import Ascii.

(** A file at the top of a directory: nothing is taken for a wrapper folder. *)
Lemma top_file_no_folder entries name entry :
  entry ∈ entries → af_name entry = name → char_free "/" name = true → singleTopLevelFolder entries = ("", false).
Proof.
  intros Hin Hname Hfree.
  assert (Hnot : ∀ e, af_name e = name → ∃ r t, Cut (af_name e) "/" = (r, t, false)).
  { intros e ->. rewrite Cut_free by done. eauto. }
  assert (Hcommon : ∀ common l, entry ∈ l → common_folder common l = false).
  { intros common l Hl. induction l as [|e l IH]; [by apply not_elem_of_nil in Hl|]. cbn.
    destruct (Cut (af_name e) "/") as [[r t] found] eqn:Hc. apply elem_of_cons in Hl as [<-|Hl].
    - destruct (Hnot entry Hname) as (r' & t' & E). rewrite E in Hc. by injection Hc as _ _ <-.
    - rewrite (IH Hl). by destruct (found && String.eqb r common). }
  destruct entries as [|e l]; [by apply not_elem_of_nil in Hin|]. cbn.
  destruct (Cut (af_name e) "/") as [[r t] found] eqn:Hc. apply elem_of_cons in Hin as [<-|Hin].
  - destruct (Hnot entry Hname) as (r' & t' & E). rewrite E in Hc. by injection Hc as _ _ <-.
  - rewrite (Hcommon r l Hin). by rewrite andb_false_r.
Qed.

Section server.
Context {T K A P : Type} `{ManagerLaws T} `{Compressors} `{Digest} `{Processors}.
Context `{SemverLaws} `{Normalizer} `{IgnoreMatcher} `{ZipFormat} `{CacheLaws K} `{TokenStoreLaws A} `{Sha256}.
Context `{HttpTime} `{ObjectInfos T} `{Negotiator} `{AuthProvider P} `{AuthHandlers P} `{!Gin} `{!GinLaws} `{!Frontend}.
Implicit Types (s : Site T K A P) (c : circumstances) (hr : HttpRequest) (y : system T K) (p : publication T).

(** ** An upload from its arrival *)

(** The same upload, further on. *)
Definition same_upload p p' : Prop :=
  pb_Name p' = pb_Name p ∧ pb_Version p' = pb_Version p ∧ pb_Objects p' = pb_Objects p ∧
  (in_flight p' = true → in_flight p = true).

Lemma moves_same_upload e y y' i p :
  moves e y y' → sy_Uploads y !! i = Some p → ∃ p', sy_Uploads y' !! i = Some p' ∧ same_upload p p'.
Proof.
  intros Hmove Hi. destruct (own i e) eqn:Hown; [|by eapply other_same in Hown; [exists p|..]].
  pose proof (lookup_lt_Some _ _ _ Hi) as Hlt.
  destruct Hmove as [|y j q pool pool' Hj Hph|y j q pool ph svc Hj Hph|y j q uploadErr err svc Hj Hph| |]; try done;
    apply Nat.eqb_eq in Hown as <-; assert (q = p) as -> by congruence; cbn; rewrite list_lookup_insert_eq by done;
    (eexists; split; [done|]); split_and!; try done; intros _; unfold in_flight; by rewrite Hph.
Qed.

Lemma runs_same_upload ok y y' i p :
  runs ok y y' → sy_Uploads y !! i = Some p → ∃ p', sy_Uploads y' !! i = Some p' ∧ same_upload p p'.
Proof.
  intros Hruns Hi. induction Hruns as [y|y y1 y2 e _ IH _ Hmove]; [by exists p|].
  destruct (IH Hi) as (p1 & Hp1 & Hn1 & Hv1 & Ho1 & Hf1).
  destruct (moves_same_upload _ _ _ _ _ Hmove Hp1) as (p2 & Hp2 & Hn2 & Hv2 & Ho2 & Hf2).
  exists p2. split; [done|]. split_and!; [congruence..|auto].
Qed.

(** What CreatePackage is called with comes from the form of the request. *)
Definition from_form hr (o : Server.outcome (Site T K A P)) : Prop :=
  match o with
  | Accepted name version file size _ =>
      name = form_Name (hq_Form hr) ∧ version = form_Version (hq_Form hr) ∧
      ∃ maxSize, check_form maxSize (hq_Form hr) = inr (file, size)
  | _ => True
  end.

Lemma run_chain_form s c hr ps chain : from_form hr (run_chain s c hr ps chain).
Proof.
  assert (Hlast : ∀ s h, from_form hr (handle_last s c hr ps h)).
  { intros s1 h. destruct h; cbn; try done.
    - by destruct (getAdmin _) as [[st b] am].
    - by destruct (createToken _ _ _) as [[st b] am].
    - by destruct (deleteToken _ _ _) as [[st b] am].
    - by destruct (getPackageFolder _ _ _).
    - by destruct (getPackage _ _ _ _) as [[response|] svc].
    - destruct (check_form _ _) as [response|[f z]] eqn:Hc; [done|]. split; [done|]. split; [done|]. by eexists.
    - by destruct (deletePackage _ _) as [response svc]. }
  revert s. induction chain as [|h chain IH]; intros s; [done|].
  destruct h; try apply (Hlast s); cbn.
  - by destruct (LoginMiddleware _ _ _).
  - destruct (AuthenticateMiddleware _ _ _) as [[|status] am]; [apply IH|done].
Qed.

Lemma dispatch_form s c hr : from_form hr (dispatch s c hr).
Proof.
  unfold dispatch. cbv zeta. destruct (gin_find _ _ _) as [[fullPath ps]|].
  - destruct (cors_filter _ hr); [done|]. pose proof (run_chain_form s c hr ps (chain_of (table s) (hq_Method hr) fullPath)) as Hf.
    by destruct (run_chain _ _ _ _ _).
  - destruct (gin_redirect _ _); [done|]. by destruct (cors_filter _ hr).
Qed.

Lemma check_form_part maxSize form file size :
  check_form maxSize form = inr (file, size) → ∃ contentType, form_File form = FormPart contentType (inr file) size.
Proof.
  unfold check_form. destruct (form_File form) as [| | | |contentType content z]; try done.
  destruct (ValidateFile (Some contentType)); [done|]. destruct content as [err|data]; [done|].
  intros [= <- <-]. by eexists.
Qed.

(** ** A push *)

(** The request that the server receives is the one that the client sends: the path below
    the URL of the site, the token, and the form, whose file is an archive that reads
    back as the entries that were written. *)
Definition carries (req : push_request) hr : Prop :=
  hq_Method hr = "POST" ∧ hq_Path hr = "/packages" ∧
  GetHeader (package_request hr) "Authorization" = pr_Authorization req ∧
  ∃ form file size, pr_Form req = inr form ∧ form_Name (hq_Form hr) = pf_Name form ∧
    form_Version (hq_Form hr) = pf_Version form ∧
    form_File (hq_Form hr) = FormPart (pf_FileType form) (inr file) size ∧
    zip_NewReader file size = Some (pf_File form).

(** In the history of the site from [s0] to [s2], the request was received and its upload was
    answered 201, in an orderly run ([orderly]: no two uploads in flight of one version, no deletion of a
    version being uploaded, no failing listing when an upload arrives, declared sizes below 2^63), and
    since then the version was left undisturbed ([undisturbed]: it was not deleted, and no listing
    failed when another upload of it arrived). *)
Definition published_by (req : push_request) s0 s2 : Prop :=
  ∃ ls1 sa c hr name version file size sb ls2 s s1 ls3 p p1,
    let i := length (sy_Uploads (si_System sa)) in
    served (on_system orderly) s0 ls1 sa ∧ carries req hr ∧
    serves (Receives c hr name version file size) sa sb ∧ on_system orderly (Receives c hr name version file size) sa ∧
    served (on_system orderly) sb ls2 s ∧ sy_Uploads (si_System s) !! i = Some p ∧
    serves (Proceeds (Wait i)) s s1 ∧ sy_Uploads (si_System s1) !! i = Some p1 ∧ pb_Phase p1 = Replied None ∧
    served (on_system (undisturbed (folder_name name version))) s1 ls3 s2.

Lemma text_file_content name data :
  (Z.of_nat (String.length data) ≤ MaxInt64)%Z → entry_content (text_file name data) = data.
Proof.
  intros Hlen. unfold entry_content, FileSize. cbn. rewrite to_int64_small by lia. rewrite Nat2Z.id. apply str_take_all.
Qed.

(** What the history of an upload says of its version, when the form of the request holds
    the entries [files]. *)
Lemma published_by_inv req form s0 s2 :
  Forall (λ p, in_flight p = false) (sy_Uploads (si_System s0)) → published_by req s0 s2 → pr_Form req = inr form →
  let folder := folder_name (pf_Name form) (pf_Version form) in
  validatePackageIdentity (pf_Name form) (pf_Version form) = None ∧
  ∃ objects, archiveKeys (pf_File form) folder = Ok objects ∧
    Forall (λ f, 0 ≤ zf_UncompressedSize64 f ≤ MaxInt64)%Z (pf_File form) ∧
    ∀ o, o ∈ objects → ∃ g, view (si_System s2) !! ao_key o = Some (entry_object (ao_file o) g).
Proof.
  intros Hidle (ls1 & sa & c & hr & name & version & file & size & sb & ls2 & s & s1 & ls3 & p & p1 & Hrun1 & Hcarry
    & Hrecv & Hok & Hrun2 & Hi & Hstep & Hi1 & Hph & Hlater) Hform. cbv zeta.
  destruct Hcarry as (_ & _ & _ & form' & file' & size' & Hform' & Hname & Hversion & Hpart & Hzip).
  assert (form' = form) as -> by congruence.
  inversion Hrecv as [|? ? ? ? ? ? ? sx y Hd Hmove| | |]; subst.
  pose proof (dispatch_move sa c hr) as Hsys. pose proof (dispatch_form sa c hr) as Hff. rewrite Hd in Hsys, Hff.
  destruct Hff as (-> & -> & maxSize & (ct & Hpart')%check_form_part). rewrite Hpart in Hpart'. injection Hpart' as _ <- <-.
  rewrite Hname, Hversion in *. rewrite Hsys in *.
  assert (Harr : ∃ q, sy_Uploads y !! length (sy_Uploads (si_System sa)) = Some q ∧
    q = arrive (sy_Content (si_System sa)) (pf_Name form) (pf_Version form) file' size').
  { inversion Hmove; subst. eexists. split; [|done]. cbn. apply list_lookup_middle. done. }
  destruct Harr as (q & Hq & Hqa).
  assert (Hruns : runs orderly (si_System s0) (si_System s)).
  { apply server_refines_runs in Hrun1; [|done]. apply server_refines_runs in Hrun2; [|done]. apply (runs_trans _ _ y); [|exact Hrun2].
    econstructor; [exact Hrun1|exact Hok|exact Hmove]. }
  assert (Hwait : moves (Wait (length (sy_Uploads (si_System sa)))) (si_System s) (si_System s1)) by by inversion Hstep.
  apply server_refines_runs in Hrun2; [|done]. apply server_refines_runs in Hlater; [|done].
  destruct (runs_same_upload _ _ _ _ _ Hrun2 Hq) as (p' & Hp' & Hn & Hv & Hobj & Hfl).
  assert (p' = p) as -> by congruence.
  destruct (wait_whole _ _ _ _ _ _ Hidle Hruns Hi Hwait Hi1 Hph) as (_ & Hent & Hset & Hplaced & Hf & _).
  specialize (Hfl Hf). rewrite Hqa in Hn, Hv, Hobj, Hfl. clear Hqa. unfold arrive in *.
  destruct (prepare _ _ _ _ _) as [objects|e] eqn:Hprep; [|done]. cbn in Hn, Hv, Hobj.
  apply prepare_Ok in Hprep as (Hid & _ & files & Hfiles & _ & Hkeys).
  assert (files = pf_File form) as -> by congruence.
  split; [done|]. exists objects. split; [done|]. destruct Hok as (_ & Hsizes & _). split; [by apply Hsizes|].
  assert (Hfolder : pb_Folder p = folder_name (pf_Name form) (pf_Version form)) by (unfold pb_Folder; by rewrite Hn, Hv).
  rewrite Hfolder in Hset. destruct (runs_settled _ _ _ _ Hid Hlater Hset) as [_ Hsame].
  intros o Ho. rewrite <- Hobj in Ho. destruct (Hent _ Ho) as [g Hg]. exists g. rewrite Hsame; [done|]. rewrite <- Hfolder.
  rewrite <- (str_app_nil_r (ao_key o)). by apply placed_below.
Qed.

Lemma run_push_pushed `{PublishJSON} w rest a :
  parsePush rest = inr a → oc_exit (Publish.run w ("push"%string :: rest)) = 0%Z → pushed w a.
Proof.
  intros Ha. unfold Publish.run. rewrite bool_decide_eq_false_2 by done. cbn [String.eqb Ascii.eqb Bool.eqb].
  rewrite Ha. intros Hexit. by apply run_push_exit.
Qed.

(** A file of a directory as the server answers it. *)
Definition served_as s2 (url : string) (file : string + opened) : Prop :=
  ∃ o data, file = inr o ∧ op_Reader o = {| rd_data := data; rd_err := None |} ∧
    ∀ c hr, cors_filter (corsConfig cors_DefaultConfig (si_Origins s2)) hr = None → plain_get hr url →
    ∃ response s3, dispatch s2 c hr = Answered (PackageAnswer response) s3 ∧ si_System s3 = si_System s2 ∧
      rsp_Status response = 200%Z ∧ rsp_Body response = ObjectBody data.

(** C1: a push that reports success has put the directory online.  Let "gimme-cli push" exit with
    0 on a directory with a file at its top, whose names are ones the server keeps, and let
    a 201 that the client sees be the answer of the server to the request that the client
    sent.  Then for the version that the client has resolved, if it is a pinned one, a plain GET
    (one with no Accept-Encoding and no condition, that CORS lets through) of
    /gimme/<name>@<version>/<path> is answered 200 with the bytes of the file, for every file
    of the directory at any depth, at every later moment at which the storage answers reads.
    The server has the routes that the application registers.  It may handle any other requests before, at the same time and afterwards, under
    these conditions.  Until the upload is answered: it starts with no upload in flight, two
    uploads in flight never have the same version, no version is deleted while it is uploaded,
    the listing with which an upload looks for its version does not fail, and the sizes that
    the entries of an archive declare are below 2^63.  Afterwards: this version is not deleted,
    and when another upload of it arrives, the listing with which it looks for the version
    does not fail. *)
Theorem pushed_directory_is_served `{PublishJSON} w rest a root s0 s2 :
  parsePush rest = inr a → oc_exit (Publish.run w ("push"%string :: rest)) = 0%Z →
  ar_OpenRoot (cw_dirs w (pa_dir a)) = inr root → (∃ err children, root = Dir err children) →
  tree_ok root → kept_names root → (∃ name file, ([name], file) ∈ leaves root) →
  (∀ req resp, tr_Do (cw_transport w) req = inr resp → hr_StatusCode resp = 201%Z → published_by req s0 s2) →
  Forall (λ p, in_flight p = false) (sy_Uploads (si_System s0)) → ServerSpec.readable (bucket (si_System s2)) → known_routes s2 →
  ∃ package version source,
    cw_Getwd w = inr package ∧
    ResolveVersion (pa_version a) {| vs_PackageJSON := package; vs_LookupEnv := Some (cw_env w);
      vs_RunGit := Some (cw_git w) |} = inr (version, source) ∧
    (IsPinnedVersion version = true → ∀ segments file, (segments, file) ∈ leaves root →
       served_as s2 ("/gimme/" +:+ folder_name (pa_name a) version +:+ "/" +:+ Join segments "/") file).
Proof.
  intros Ha Hexit Hroot Hdir Hok Hkept (top & topfile & Htop) Hnet Hidle Hread Hknown.
  destruct (run_push_pushed _ _ _ Ha Hexit) as (version & [path files] & leftover
    & (package & source & _ & _ & _ & Hpkg & Hv) & Harchive & _ & resp & body & Hdo & Hcode & _).
  exists package, version, source. split; [done|]. split; [done|]. intros Hpin segments file Hleaf.
  pose proof (Hnet _ _ Hdo Hcode) as Hpub.
  assert (Hform : ∃ form, writeMultipart (cw_transport w) {| opt_URL := or_env w (pa_url a) "GIMME_URL";
      opt_Token := or_env w (pa_token a) "GIMME_TOKEN"; opt_Name := pa_name a; opt_Version := version;
      opt_Archive := (path, files) |} = inr form).
  { destruct Hpub as (? & ? & ? & ? & ? & ? & ? & ? & ? & ? & ? & ? & ? & ? & ? & _ & (_ & _ & _ & form & _ & _ & E & _) & _).
    by exists form. }
  destruct Hform as [form Hform]. destruct (published_by_inv _ _ _ _ Hidle Hpub Hform) as (Hid & objects & Hkeys & Hsizes & Hview).
  unfold writeMultipart in Hform. destruct (tr_Open _ _); [done|]. injection Hform as <-. cbn [pf_Name pf_Version pf_File] in *.
  destruct (directory_objects _ _ _ (folder_name (pa_name a) version) _ _ _ Hroot Hdir Hok Hkept Harchive)
    as (_ & Hfiles & objects' & Hkeys' & Hall). cbn [opt_Name opt_Version opt_Archive snd] in *.
  assert (objects' = objects) as -> by congruence.
  assert (Hflat : singleTopLevelFolder (map entry_for files) = ("", false)).
  { apply list_elem_of_lookup in Htop as [k Hk]. destruct (Forall2_lookup_l _ _ _ _ _ Hfiles Hk) as (f & Hf & o & data & _ & _ & _ & ->).
    eapply (top_file_no_folder _ top (entry_for _)); [apply list_elem_of_fmap_2; by eapply list_elem_of_lookup_2|done|].
    destruct Hdir as (err & children & ->). apply list_elem_of_lookup_2 in Hk.
    pose proof (leaves_safe _ Hok _ _ Hk) as Hs. apply Forall_inv in Hs. by destruct Hs as (_ & _ & _ & ?). }
  pose proof Hleaf as [k Hk]%list_elem_of_lookup.
  destruct (Forall2_lookup_l _ _ _ _ _ Hall Hk) as (object & Hobj & Harch & _ & Hkey). specialize (Hkey Hflat).
  destruct Harch as (o & data & Hfile & _ & Hreader & Hent). exists o, data. split; [done|]. split; [done|].
  intros c hr Hcors Hget. apply list_elem_of_lookup_2 in Hobj. destruct (Hview _ Hobj) as [g Hg]. cbn [fst] in Hkey.
  rewrite Hkey in Hg.
  assert (Hdata : entry_content (ao_file object) = data).
  { rewrite Hent. apply text_file_content. destruct (archiveKeys_spec _ _ _ Hkeys) as (_ & _ & Hin).
    destruct (Hin _ Hobj) as (Hin' & _). rewrite Forall_forall in Hsizes. specialize (Hsizes _ Hin'). rewrite Hent in Hsizes. cbn in Hsizes. lia. }
  assert (Hne : Join segments "/" ≠ "").
  { destruct Hdir as (err & children & ->). apply safe_path_nonempty, Join_safe; [by eapply leaf_nonempty|by eapply leaves_safe]. }
  destruct (dispatch_stored s2 c hr (pa_name a) version _ _ Hknown Hcors Hid Hpin Hne Hread Hg Hget)
    as (response & s3 & Hd & Hsys & Hst & Hb & _). exists response, s3.
  split; [done|]. split; [done|]. split; [done|]. by rewrite Hb, <- Hdata.
Qed.
End server.
