(* ===== verification/EndToEndDemo.v ===== *)
(** The theorem of EndToEnd.v on a push of a directory with two files to the site of
    ServerDemo.v. *)
From S2P Require Import Prelude GoStrings Errors Semver Zip Storage MemoryClient Version Compression Archive.
From S2P Require Import Cache MemoryRedis Service Upload UploadSpec Serve ServeSpec Negotiation TokenStore FileStore.
From S2P Require Import AuthManager AuthFile AuthProvider Oidc Application PackageController Concurrent ConcurrentSpec.
From S2P Require Import GoUrl Router Server ServerSpec ServerDemo Publish PublishSpec EndToEnd.

#[local] Existing Instance first_route.
#[local] Existing Instance first_route_laws.
#[local] Existing Instance open_frontend.
#[local] Existing Instance basic_handlers.
#[local] Existing Instance demo_accounts.
#[local] Existing Instance ServerDemo.unary_time.
#[local] Existing Instance no_tags.
#[local] Existing Instance ServerDemo.asks_json.
#[local] Existing Instance plain_digest.
#[local] Existing Instance bit_codec.
#[local] Existing Instance prefix_cipher.
#[local] Existing Instance quiet_store.
#[local] Existing Instance quiet_laws.
#[local] Existing Instance builtin_mime.
#[local] Existing Instance plain_codec.
#[local] Existing Instance plain_codec_laws.
#[local] Existing Instance toy_compressors.
#[local] Existing Instance toy_digest.
#[local] Existing Instance plain_names.
#[local] Existing Instance whole_paths.
#[local] Existing Instance two_processors.
#[local] Existing Instance two_zips.
#[local] Existing Instance no_json.

#[local] Instance Reader_eq_dec : EqDecision Reader.
Proof. solve_decision. Defined.
#[local] Instance ZipFile_eq_dec : EqDecision ZipFile.
Proof. solve_decision. Defined.
#[local] Instance push_form_eq_dec : EqDecision push_form.
Proof. solve_decision. Defined.

(** ** The client *)

Definition sent_form : push_form := {|
  pf_Name := "demo"; pf_Version := "1.0.0"; pf_FileType := "application/zip";
  pf_File := [text_file "index.html" "hi"; text_file "js/app.js" "1;"] |}.

Definition created_answer : http_response :=
  {| hr_StatusCode := 201; hr_Status := "201 Created"; hr_Body := {| rd_data := ""; rd_err := None |} |}.

Definition push_world : cli_world := {|
  cw_env key := if String.eqb key "GIMME_TOKEN" then demo_token else "";
  cw_Getwd := inr None; cw_git := inr ("v1.0.0" +:+ String (byte 10) ""); cw_dirs _ := demo_archive;
  cw_transport := {| tr_URL _ := None; tr_Open _ := None;
    tr_Do req := if decide (pr_Authorization req = "Bearer " +:+ demo_token ∧ pr_Form req = inr sent_form)
                 then inr created_answer else inl "refused"%string |} |}.

Definition push_arguments : list string := ["dist"; "--name"; "demo"; "--url"; "https://cdn"].

Definition push_values : push_args :=
  {| pa_name := "demo"; pa_version := ""; pa_url := "https://cdn"; pa_token := ""; pa_dir := "dist" |}.

(** ** The site *)

Definition upload_demo : HttpRequest := request "POST" "/packages" bearer
  {| form_File := FormPart "application/zip" (inr "three"%string) 50; form_Name := "demo"; form_Version := "1.0.0" |}.

Definition six_calls : list input :=
  [Calls 0 (Work 0); Calls 0 (Work 0); Calls 0 (Work 0); Calls 0 (Work 0); Calls 0 (Work 0); Calls 0 (Work 0)].

Definition demo_received : demo_site := after [Asks demo_moment upload_demo] open_site.
Definition demo_stored : demo_site := after six_calls demo_received.
Definition demo_replied : demo_site := after [Calls 0 (Wait 0)] demo_stored.
Definition demo_visited : demo_site := after (Answers 0 :: visit) demo_replied.

Lemma demo_received_step : serves (Receives demo_moment upload_demo "demo" "1.0.0" "three" 50) open_site demo_received.
Proof. apply serve_step. vm_compute. reflexivity. Qed.

Lemma demo_stored_served : ∃ ls, served (on_system orderly) demo_received ls demo_stored.
Proof. apply after_served; [repeat split|]. apply (bool_decide_unpack _). vm_compute. exact I. Qed.

Lemma demo_replied_step : serves (Proceeds (Wait 0)) demo_stored demo_replied.
Proof. apply serve_step. vm_compute. reflexivity. Qed.

Lemma demo_replied_phase : ∃ p1, sy_Uploads (si_System demo_replied) !! 0 = Some p1 ∧ pb_Phase p1 = Replied None.
Proof. apply upload_phase. vm_compute. reflexivity. Qed.

Lemma demo_visited_served : ∃ ls, served (on_system (undisturbed "demo@1.0.0")) demo_replied ls demo_visited.
Proof.
  apply after_served; [|apply (bool_decide_unpack _); vm_compute; exact I].
  split; [intros response; exact I|].
  repeat (split; [split; [intros a pkg version _ Hp Hf; cbn in Hp; rewrite Hf in Hp; discriminate Hp
                         |intros ? ? ? ? _; apply (store_reliable (bucket (si_System _))); vm_compute; reflexivity]|]). exact I.
Qed.

(** ** The push *)

Definition demo_upload : publication (Storage.objectStorageManager memory) :=
  default (arrive (sy_Content (si_System demo_stored)) "demo" "1.0.0" "three" 50) (sy_Uploads (si_System demo_stored) !! 0).

Lemma demo_lookup : sy_Uploads (si_System demo_stored) !! 0 = Some demo_upload.
Proof. vm_compute. reflexivity. Qed.

Lemma demo_carries req : pr_Authorization req = "Bearer " +:+ demo_token → pr_Form req = inr sent_form → carries req upload_demo.
Proof.
  intros Hauth Hform. split; [reflexivity|]. split; [reflexivity|]. split; [by rewrite Hauth|].
  exists sent_form, "three"%string, 50%Z. split; [done|]. repeat split.
Qed.

Lemma demo_published req resp :
  tr_Do (cw_transport push_world) req = inr resp → hr_StatusCode resp = 201%Z → published_by req open_site demo_visited.
Proof.
  unfold push_world. cbn [tr_Do cw_transport]. destruct (decide _) as [[Hauth Hform]|]; [intros _ _|discriminate].
  destruct demo_stored_served as [ls Hstored]. destruct demo_visited_served as [ls' Hvisited].
  destruct demo_replied_phase as (p1 & Hp1 & Hph).
  exists [], open_site, demo_moment, upload_demo, "demo"%string, "1.0.0"%string, "three"%string, 50%Z, demo_received, ls,
    demo_stored, demo_replied, ls', demo_upload, p1.
  split; [constructor|]. split; [by apply demo_carries|]. split; [exact demo_received_step|].
  split; [split; [apply demo_reliable|split; [apply small_archives|constructor]]|].
  split; [exact Hstored|]. split; [exact demo_lookup|]. split; [exact demo_replied_step|].
  split; [exact Hp1|]. split; [exact Hph|exact Hvisited].
Qed.

Definition get_app : HttpRequest := request "GET" "/gimme/demo@1.0.0/js/app.js" ∅ no_form.

Lemma pushed_directory_is_served_witness :
  oc_exit (Publish.run push_world ("push"%string :: push_arguments)) = 0%Z ∧
  ∃ response s3, dispatch demo_visited demo_moment get_app = Answered (PackageAnswer response) s3 ∧
    rsp_Status response = 200%Z ∧ rsp_Body response = ObjectBody "1;".
Proof.
  assert (Hexit : oc_exit (Publish.run push_world ("push"%string :: push_arguments)) = 0%Z) by (vm_compute; reflexivity).
  split; [exact Hexit|].
  destruct (pushed_directory_is_served push_world push_arguments push_values demo_tree open_site demo_visited)
    as (package & version & source & Hpkg & Hversion & Hserved).
  - vm_compute. reflexivity.
  - exact Hexit.
  - reflexivity.
  - unfold demo_tree. eexists _, _. reflexivity.
  - apply demo_tree_ok.
  - apply demo_kept.
  - exists "index.html"%string, (regular "hi"). apply list_elem_of_In. vm_compute. left. reflexivity.
  - apply demo_published.
  - constructor.
  - apply demo_readable.
  - apply demo_routes.
  - injection Hpkg as <-. vm_compute in Hversion. injection Hversion as <- <-.
    destruct (Hserved ltac:(vm_compute; reflexivity) ["js"; "app.js"]%string (regular "1;")) as (o & data & Ho & Hr & Hget).
    + apply list_elem_of_In. vm_compute. right. left. reflexivity.
    + injection Ho as <-. injection Hr as <-.
      destruct (Hget demo_moment get_app eq_refl) as (response & s3 & Hd & _ & Hst & Hb).
      * repeat split; reflexivity.
      * exists response, s3. split; [exact Hd|]. split; [exact Hst|exact Hb].
Defined.
