(* ===== verification/CodingSpec.v ===== *)
(** Content codings end to end: whatever a client accepts, what it decodes is the file. *)
From S2P Require Import Prelude Order GoStrings GoUrl Errors Semver Zip Mime Storage Version Compression.
From S2P Require Import Archive Cache Service Upload UploadSpec Serve ServeSpec Negotiation TokenStore AuthManager AuthProvider.
From S2P Require Import Oidc Application PackageController ApiSpec Concurrent ConcurrentSpec Router Server ServerSpec.
From Stdlib Require Import Ascii.

(** ** Stored objects *)

Section stored.
Context {T : Type} `{ManagerLaws T} `{Compressors} `{!Decoders} `{!CodecLaws} `{Digest} `{Processors}.

Lemma fileIntegrity_declared file g : fileIntegrity file = inr g → (0 ≤ zf_UncompressedSize64 file)%Z.
Proof.
  unfold fileIntegrity. destruct (zf_Open file) as [|src]; [done|]. destruct (_ <=? _)%Z; [done|].
  destruct (copy_limited src _) as [|content]; [done|].
  destruct (Z.eqb_spec (Z.of_nat (String.length content)) (zf_UncompressedSize64 file)); [lia|done].
Qed.

(** The content that was hashed is the one that is stored. *)
Lemma hashed_content file g src :
  fileIntegrity file = inr g → zf_Open file = inr src → entry_content file = rd_data src.
Proof.
  intros Hg Hopen. pose proof (fileIntegrity_declared _ _ Hg) as Hpos.
  apply fileIntegrity_iff in Hg as (src' & Hopen' & Hmax & _ & Hlen & _); [|done].
  assert (src' = src) as -> by congruence. unfold entry_content, FileSize. rewrite Hopen.
  rewrite to_int64_small by lia. rewrite <- Hlen, Nat2Z.id. apply str_take_all.
Qed.

(** The variant that is stored of an entry decodes to the entry. *)
Lemma variant_decodes (compression : bool) objects o e so :
  NoDup (map ao_key objects) → o ∈ objects → e ∈ encodings →
  archive_files objects !! (ao_key o +:+ suffix e) = None →
  encodedVariantSource (archive_files objects) (ao_key o) = None →
  (∃ o', o' ∈ objects ∧ expected compression objects o' (ao_key o +:+ suffix e) so) →
  decode_body (Some e) (so_data so) = Some (entry_content (ao_file o)).
Proof.
  intros Hnd Ho He Hnone Hself (o' & Ho' & g & Hg & Hso).
  destruct Hso as [[Hkey ->]|(ct & d & (_ & variants & e' & Hvs & Hd & Hkey & _) & ->)].
  - exfalso. assert (Hin : archive_files objects !! ao_key o' = Some (ao_file o')) by (apply archive_files_Some; eauto).
    rewrite <- Hkey in Hin. congruence.
  - pose proof (compressVariants_keys _ _ _ _ Hvs Hd) as He'. apply suffix_inj in Hkey as [Hk ->]; [|done..].
    assert (o' = o) as -> by (by apply (NoDup_fmap_inj ao_key objects)).
    unfold hash_source in Hg. rewrite Hself in Hg. cbn in Hg.
    destruct (compressVariants_decode _ _ _ _ Hvs Hd) as (src & Hopen & Hdec).
    by rewrite (hashed_content _ _ _ Hg Hopen).
Qed.
End stored.

Section server.
Context {T K A P : Type} `{ManagerLaws T} `{Compressors} `{!Decoders} `{!CodecLaws} `{Digest} `{Processors}.
Context `{SemverLaws} `{Normalizer} `{IgnoreMatcher} `{ZipFormat} `{CacheLaws K} `{TokenStoreLaws A} `{Sha256}.
Context `{HttpTime} `{ObjectInfos T} `{Negotiator} `{AuthProvider P} `{AuthHandlers P} `{!Gin} `{!GinLaws} `{!Frontend}.
Implicit Types (s : Site T K A P) (c : circumstances) (hr : HttpRequest).

(** ** The object of a request *)

Lemma try_encodings_Stat (osm : T) path accepted obj enc :
  try_encodings osm path accepted = Some (obj, enc) →
  object_key obj = path +:+ suffix enc ∧ enc ∈ accepted ∧ is_Some (osm_Stat osm obj).
Proof.
  induction accepted as [|e accepted IH]; simpl; [done|].
  destruct (osm_GetObject osm (path +:+ suffix e)) as [o|err] eqn:Hget; [|intros ?%IH; set_solver].
  destruct (osm_Stat osm o) as [so|] eqn:Hstat; [|intros ?%IH; set_solver].
  intros [= <- <-]. split; [by eapply osm_Get_key|]. split; [set_solver|by eexists].
Qed.

(** A pinned version is not cached, and its stored files are found, plain or encoded. *)
Lemma GetFile_pinned (svc : ContentService T K) name version file accepted so :
  version_valid version = true → IsPinnedVersion version = true → readable (objectStorageManager svc) →
  osm_view (objectStorageManager svc) !! cache_key name version file = Some so →
  ∃ obj enc so', GetFile svc name version file accepted = (Ok (obj, enc), svc) ∧
    osm_Stat (objectStorageManager svc) obj = Some so' ∧ object_key obj = cache_key name version file +:+ suffix enc ∧
    (enc = "" ∨ enc ∈ accepted).
Proof.
  intros Hvalid Hpin Hread Hso. destruct (Hread _ _ Hso) as (obj0 & Hobj0 & Hstat0).
  assert (Hget : ∃ obj enc so', getEncodedObject (objectStorageManager svc) (cache_key name version file) file accepted = Ok (obj, enc) ∧
    osm_Stat (objectStorageManager svc) obj = Some so' ∧ object_key obj = cache_key name version file +:+ suffix enc ∧
    (enc = "" ∨ enc ∈ accepted)).
  { unfold getEncodedObject. destruct (compressibleContentType file) as [ct compressible].
    destruct (if compressible then _ else None) as [[obj enc]|] eqn:Ht.
    - destruct compressible; [|done]. apply try_encodings_Stat in Ht as (Hkey & Hin & so' & Hso').
      exists obj, enc, so'. auto.
    - exists obj0, "", so. rewrite Hobj0. split; [done|]. split; [done|]. split; [|by left].
      rewrite str_app_nil_r. by eapply osm_Get_key. }
  destruct Hget as (obj & enc & so' & Hget & Hrest). exists obj, enc, so'. split; [|done].
  unfold GetFile. rewrite Hvalid. cbn [negb]. rewrite Hpin. unfold object_path. rewrite Hpin.
  destruct (cacheManager svc) eqn:Hcm; by rewrite Hget, ?Hcm.
Qed.

(** A GET without a condition; it may choose its codings. *)
Definition unconditional_get hr (path : string) : Prop :=
  hq_Method hr = "GET" ∧ hq_Path hr = path ∧
  GetHeader (package_request hr) "If-None-Match" = "" ∧ GetHeader (package_request hr) "If-Modified-Since" = "".

(** The answer to such a request for a stored file. *)
Lemma getPackage_coded (svc : ContentService T K) req name version path so :
  validatePackageIdentity name version = None → IsPinnedVersion version = true → path ≠ "" →
  readable (objectStorageManager svc) →
  osm_view (objectStorageManager svc) !! (folder_name name version +:+ "/" +:+ path) = Some so →
  req_Method req = GET → GetHeader req "If-None-Match" = "" → GetHeader req "If-Modified-Since" = "" →
  let header := GetHeader req "Accept-Encoding" in
  ∃ response enc so', getPackage svc req (folder_name name version) ("/" +:+ path) = (Some response, svc) ∧
    osm_view (objectStorageManager svc) !! (folder_name name version +:+ "/" +:+ path +:+ suffix enc) = Some so' ∧
    (enc = "" ∨ enc ∈ encodings ∧ acceptable header enc) ∧
    (rsp_Status response = 406%Z ∧ enc = "" ∧
       ¬ (acceptable header "identity" ∨ ¬ Negotiation.named header "identity" ∧ ¬ Negotiation.named header "*") ∨
     rsp_Status response = 200%Z ∧ rsp_Body response = ObjectBody (so_data so') ∧
       rsp_Headers response !! "Content-Encoding" = if String.eqb enc "" then None else Some enc).
Proof.
  intros Hid Hpin Hpath Hread Hso Hm Hinm Hims header.
  destruct (getSlice_folder _ _ Hid) as (Hslice & Hat & _).
  assert (Hvalid : version_valid version = true).
  { apply validated_iff in Hid as [_ Hfull]. unfold isFullSemver in Hfull. apply andb_true_iff in Hfull as [_ Hvalid].
    unfold version_valid. by rewrite Hvalid, orb_true_r. }
  destruct (GetFile_pinned svc name version ("/" +:+ path) (encodings_ (parseAcceptEncoding header)) so Hvalid Hpin Hread Hso)
    as (obj & enc & so' & HF & Hstat & Hkey & Henc).
  destruct (parse_acceptable header) as (_ & Hacc & Hident).
  assert (Hnot : ∀ etag date, notModified req etag date = false).
  { intros etag date. unfold notModified. by rewrite Hinm, Hims. }
  assert (Hfile : String.eqb ("/" +:+ path) "/" = false).
  { apply String.eqb_neq. intros E. injection E as E. done. }
  unfold getPackage. rewrite Hat, Hslice. cbn [negb andb ps_Name ps_Version]. rewrite Hfile. fold header. rewrite HF.
  eexists _, enc, so'. split; [done|]. split.
  { apply osm_Stat_ok in Hstat. rewrite Hkey in Hstat. unfold cache_key in Hstat. by rewrite !str_app_assoc in Hstat. }
  split; [destruct Henc as [?|Hin]; [by left|right; by apply Hacc]|].
  unfold object_response. rewrite Hstat.
  destruct (String.eqb_spec enc "") as [->|Hne]; cbn [andb].
  - destruct (Negotiation.identity (parseAcceptEncoding header)) eqn:Hi; cbn [negb].
    + right. rewrite Hnot, Hm. cbn [String.eqb rsp_Status rsp_Body rsp_Headers]. split; [done|]. split; [done|].
      destruct (object_headers_fixed (objectStorageManager svc) obj so' version) as (_ & _ & Hce).
      unfold set_header. by rewrite !lookup_insert_ne.
    + left. split; [done|]. split; [done|]. rewrite <- Hident. congruence.
  - right. rewrite Hnot, Hm. cbn [rsp_Status rsp_Body rsp_Headers]. split; [done|]. split; [done|].
    unfold set_header. rewrite !lookup_insert_ne by done. by rewrite lookup_insert_eq.
Qed.

(** C4: whatever codings a client accepts, what it decodes is the file.  Let the pool of an
    upload of a pinned version end without an error, on a server that handles any number of
    requests at once with the routes the application registers, from a state with no upload in flight,
    provided that two uploads in flight never
    have the same version, no version is deleted while it is uploaded, the listing with which an
    upload looks for its version does not fail, and the declared sizes of entries are below
    2^63.  Then after any further run that does not delete the version, and in which the listing of
    no other upload of this version fails, at a moment when the storage answers reads, a GET
    of the path of an entry, with any Accept-Encoding but with no If-None-Match and no
    If-Modified-Since and let through by CORS, is answered 406 (only if the client refuses the
    identity coding) or 200, with a body that, decoded as its Content-Encoding says, is the
    content of the entry: provided the compressors lose nothing, and the archive has no file of
    its own at the name of a variant of the entry or that the entry is a variant of. *)
Theorem published_is_decoded s0 ls s s1 ls' s2 i p p1 c hr object :
  Forall (λ p, in_flight p = false) (sy_Uploads (si_System s0)) → served (on_system orderly) s0 ls s →
  sy_Uploads (si_System s) !! i = Some p → serves (Proceeds (Wait i)) s s1 →
  sy_Uploads (si_System s1) !! i = Some p1 → pb_Phase p1 = Replied None →
  served (on_system (undisturbed (pb_Folder p))) s1 ls' s2 →
  object ∈ pb_Objects p → IsPinnedVersion (pb_Version p) = true → readable (bucket (si_System s2)) →
  known_routes s2 → cors_filter (corsConfig cors_DefaultConfig (si_Origins s2)) hr = None →
  unconditional_get hr ("/gimme/" +:+ ao_key object) →
  (∀ e, e ∈ encodings → archive_files (pb_Objects p) !! (ao_key object +:+ suffix e) = None) →
  encodedVariantSource (archive_files (pb_Objects p)) (ao_key object) = None →
  let header := GetHeader (package_request hr) "Accept-Encoding" in
  ∃ response s3, dispatch s2 c hr = Answered (PackageAnswer response) s3 ∧ si_System s3 = si_System s2 ∧
    (rsp_Status response = 406%Z ∧
       ¬ (acceptable header "identity" ∨ ¬ Negotiation.named header "identity" ∧ ¬ Negotiation.named header "*") ∨
     rsp_Status response = 200%Z ∧ ∃ body, rsp_Body response = ObjectBody body ∧
       decode_body (rsp_Headers response !! "Content-Encoding") body = Some (entry_content (ao_file object))).
Proof.
  intros Hidle Hrun Hi Hstep Hi1 Hph Hlater Ho Hpin Hread Hknown Hcors (Hm & Hp & Hinm & Hims) Hnone Hself header.
  destruct (published_stays _ _ _ _ _ _ _ _ _ Hidle Hrun Hi Hstep Hi1 Hph Hlater) as (Hid & Hnd & Hkeys & Hwhole & Hent).
  destruct (Hkeys _ Ho) as (path & Hpath & Hkey). destruct (Hent _ Ho) as [g Hg].
  pose proof Hp as Hp'. rewrite Hkey in Hp'. pose proof Hg as Hg'. rewrite Hkey in Hg'.
  destruct (getPackage_coded (content s2) (package_request hr) _ _ path _ Hid Hpin Hpath Hread Hg')
    as (response & enc & so & Hget & Hso & Henc & Hcase); [by unfold package_request; rewrite Hm|done..|].
  destruct (dispatch_file s2 c hr _ _ _ _ Hknown Hcors Hid Hm Hp' Hget) as (s3 & Hd & Hsys).
  exists response, s3. split; [done|]. split; [done|].
  destruct Hcase as [(Hst & _ & Hno)|(Hst & Hbody & Hce)]; [by left|right].
  split; [done|]. exists (so_data so). split; [done|]. rewrite Hce.
  assert (Hkey' : folder_name (pb_Name p) (pb_Version p) +:+ "/" +:+ path +:+ suffix enc = ao_key object +:+ suffix enc).
  { rewrite Hkey. unfold pb_Folder. by rewrite !str_app_assoc. }
  rewrite Hkey' in Hso. change (view (si_System s2) !! (ao_key object +:+ suffix enc) = Some so) in Hso.
  destruct (String.eqb_spec enc "") as [->|Hne].
  - rewrite str_app_nil_r, Hg in Hso. by injection Hso as <-.
  - destruct Henc as [?|[Hin _]]; [done|]. apply (variant_decodes (compressionEnabled (sy_Content (si_System s))) _ object enc so Hnd Ho Hin (Hnone _ Hin) Hself).
    apply (Hwhole _ so); [|done]. unfold below. rewrite Hkey, !str_app_assoc, <- str_app_assoc. apply HasPrefix_app.
Qed.
End server.
