(* ===== verification/CodingDemo.v ===== *)
(** The theorem of CodingSpec.v on a script whose Brotli variant is stored and asked for. *)
From S2P Require Import Prelude GoStrings Errors Semver Zip Storage MemoryClient Version Compression Archive.
From S2P Require Import Cache MemoryRedis Service Upload UploadSpec Serve ServeSpec Negotiation TokenStore FileStore.
From S2P Require Import AuthManager AuthFile AuthProvider Oidc Application PackageController Concurrent ConcurrentSpec.
From S2P Require Import GoUrl Router Server ServerSpec ServerDemo CodingSpec.

#[local] Existing Instance first_route.
#[local] Existing Instance first_route_laws.
#[local] Existing Instance open_frontend.
#[local] Existing Instance basic_handlers.
#[local] Existing Instance demo_accounts.
#[local] Existing Instance ServerDemo.unary_time.
#[local] Existing Instance no_tags.
#[local] Existing Instance ServerDemo.asks_json.
#[local] Existing Instance plain_digest.
#[local] Existing Instance bit_codec.
#[local] Existing Instance prefix_cipher.
#[local] Existing Instance quiet_store.
#[local] Existing Instance quiet_laws.
#[local] Existing Instance builtin_mime.
#[local] Existing Instance plain_codec.
#[local] Existing Instance plain_codec_laws.
#[local] Existing Instance toy_compressors.
#[local] Existing Instance toy_decoders.
#[local] Existing Instance toy_codec_laws.
#[local] Existing Instance toy_digest.
#[local] Existing Instance plain_names.
#[local] Existing Instance whole_paths.
#[local] Existing Instance two_processors.
#[local] Existing Instance two_zips.

(** ** A script, its upload and its variants *)

Definition upload_script : HttpRequest := request "POST" "/packages" bearer
  {| form_File := FormPart "application/zip" (inr "four"%string) 50; form_Name := "lib"; form_Version := "3.0.0" |}.

Definition script_calls : list input := repeat (Calls 0 (Work 0)) 8.

Definition script_received : demo_site := after [Asks demo_moment upload_script] open_site.
Definition script_stored : demo_site := after script_calls script_received.
Definition script_replied : demo_site := after [Calls 0 (Wait 0)] script_stored.
Definition script_visited : demo_site := after (Answers 0 :: visit) script_replied.

Lemma script_stored_served : ∃ ls, served (on_system orderly) open_site ls script_stored.
Proof.
  assert (Hstep : serves (Receives demo_moment upload_script "lib" "3.0.0" "four" 50) open_site script_received)
    by (apply serve_step; vm_compute; reflexivity).
  destruct (after_served (on_system orderly) script_calls script_received) as [ls Hls].
  - repeat split.
  - apply (bool_decide_unpack _). vm_compute. exact I.
  - eexists (_ :: ls). eapply served_cons; [|exact Hstep|exact Hls].
    split; [apply demo_reliable|split; [apply small_archives|constructor]].
Qed.

Definition script_upload : publication (Storage.objectStorageManager memory) :=
  default (arrive (sy_Content (si_System script_stored)) "lib" "3.0.0" "four" 50) (sy_Uploads (si_System script_stored) !! 0).

Lemma script_objects :
  pb_Objects script_upload = [{| ao_key := "lib@3.0.0/a.js"; ao_file := text_file "dist/a.js" (UploadSpec.letters 1200) |}].
Proof. vm_compute. reflexivity. Qed.

Lemma script_lookup : sy_Uploads (si_System script_stored) !! 0 = Some script_upload.
Proof. vm_compute. reflexivity. Qed.

Lemma script_replied_step : serves (Proceeds (Wait 0)) script_stored script_replied.
Proof. apply serve_step. vm_compute. reflexivity. Qed.

Lemma script_replied_phase :
  ∃ p1, sy_Uploads (si_System script_replied) !! 0 = Some p1 ∧ pb_Phase p1 = Replied None.
Proof. apply upload_phase. vm_compute. reflexivity. Qed.

Lemma script_visited_served :
  ∃ ls, served (on_system (undisturbed (pb_Folder script_upload))) script_replied ls script_visited.
Proof.
  assert (Hf : pb_Folder script_upload = "lib@3.0.0"%string) by (vm_compute; reflexivity). rewrite Hf.
  apply after_served; [|apply (bool_decide_unpack _); vm_compute; exact I].
  split; [intros response; exact I|].
  repeat (split; [split; [intros a pkg version _ Hp E; cbn in Hp; rewrite E in Hp; discriminate Hp
                         |intros ? ? ? ? _; apply (store_reliable (bucket (si_System _))); vm_compute; reflexivity]|]). exact I.
Qed.

(** ** The request *)

Definition get_script : HttpRequest :=
  request "GET" "/gimme/lib@3.0.0/a.js" {[ "Accept-Encoding" := "br, gzip;q=0.5"%string ]} no_form.

(** The script is answered with its Brotli variant, which decodes to the script. *)
Lemma published_is_decoded_witness :
  ∃ response s3, dispatch script_visited demo_moment get_script = Answered (PackageAnswer response) s3 ∧
    rsp_Status response = 200%Z ∧ rsp_Body response = ObjectBody ("b2" +:+ UploadSpec.letters 600) ∧
    rsp_Headers response !! "Content-Encoding" = Some "br"%string ∧
    decode_body (Some "br"%string) ("b2" +:+ UploadSpec.letters 600) = Some (UploadSpec.letters 1200).
Proof.
  destruct script_stored_served as [ls Hrun]. destruct script_visited_served as [ls' Hlater].
  destruct script_replied_phase as (p1 & Hp1 & Hph).
  destruct (published_is_decoded open_site ls script_stored script_replied ls' script_visited 0 script_upload p1
    demo_moment get_script {| ao_key := "lib@3.0.0/a.js"; ao_file := text_file "dist/a.js" (UploadSpec.letters 1200) |})
    as (response & s3 & Hd & _ & Hcase).
  - constructor.
  - exact Hrun.
  - exact script_lookup.
  - exact script_replied_step.
  - exact Hp1.
  - exact Hph.
  - exact Hlater.
  - rewrite script_objects. left.
  - vm_compute. reflexivity.
  - apply demo_readable.
  - apply demo_routes.
  - reflexivity.
  - repeat split; reflexivity.
  - rewrite script_objects. apply Forall_forall, (bool_decide_unpack _). vm_compute. exact I.
  - rewrite script_objects. vm_compute. reflexivity.
  - assert (E : (λ r, (rsp_Status r, rsp_Body r, rsp_Headers r !! "Content-Encoding")) <$>
        (match dispatch script_visited demo_moment get_script with Answered (PackageAnswer r) _ => Some r | _ => None end)
      = Some (200%Z, ObjectBody ("b2" +:+ UploadSpec.letters 600), Some "br"%string)) by (vm_compute; reflexivity).
    rewrite Hd in E. injection E as Est Eb Ece. exists response, s3. split; [exact Hd|].
    destruct Hcase as [[Hst _]|(_ & body & Hb & Hdec)]; [rewrite Hst in Est; discriminate Est|].
    rewrite Hb in Eb. injection Eb as ->. unfold Encoding in Hdec. rewrite Ece in Hdec.
    rewrite Hb. repeat split; done.
Defined.
