(* ===== verification/Provenance.v ===== *)
(** Where the bytes that the server answers come from: a file that is answered was part
    of an archive that a holder of a token uploaded, under the package and the version of
    its path, or a version that the alias in its path selects. *)
From S2P Require Import Prelude Threads Order GoStrings GoUrl Errors Semver Zip Mime Storage Version Compression.
From S2P Require Import Archive Cache Service Upload UploadSpec Serve ServeSpec Negotiation TokenStore AuthManager AuthProvider.
From S2P Require Import Oidc Application PackageController ApiSpec InFlight InFlightSpec Concurrent ConcurrentSpec Router Server ServerSpec.
From Stdlib Require Import Ascii.

(** ** What an upload writes *)

Section written.
Context {T K : Type} `{ManagerLaws T} `{Compressors} `{Digest} `{Processors}.
Context `{SemverLaws} `{Normalizer} `{IgnoreMatcher} `{ZipFormat} `{CacheManager K}.
Implicit Types (y : system T K) (p : publication T).

(** The bytes an entry of an archive puts under a key: its own, or those of a variant. *)
Definition carried (o : archiveObject) (k data : string) : Prop :=
  k = ao_key o ∧ data = entry_content (ao_file o) ∨
  ∃ variants e, compressVariants (ao_file o) = inr variants ∧ variants !! e = Some data ∧ k = ao_key o +:+ suffix e.

(** The variants a task has left are those of its entry. *)
Definition faithful (o : archiveObject) (t : task) : Prop :=
  match t with
  | Uploading _ _ todo =>
      ∃ variants, compressVariants (ao_file o) = inr variants ∧ ∀ e d, (e, d) ∈ todo → variants !! e = Some d
  | _ => True
  end.

(** What is stored was stored before, or is carried by one of the entries. *)
Definition grows (objects : list archiveObject) (m m' : gmap string StoredObject) : Prop :=
  ∀ k so, m' !! k = Some so → m !! k = Some so ∨ ∃ o, o ∈ objects ∧ carried o k (so_data so).

Lemma grows_refl objects m : grows objects m m.
Proof. intros k so Hso. by left. Qed.

Lemma grows_at objects m m' k so o :
  o ∈ objects → carried o k (so_data so) → (∀ k', k' ≠ k → m' !! k' = m !! k') →
  m' !! k = m !! k ∨ m' !! k = Some so → grows objects m m'.
Proof.
  intros Ho Hc Hframe Hk k' so' Hso'. destruct (decide (k' = k)) as [->|Hne]; [|left; by rewrite <- Hframe].
  destruct Hk as [E|E]; rewrite E in Hso'; [by left|]. injection Hso' as <-. right. by exists o.
Qed.

Definition regular (objects : list archiveObject) : Prop := ∀ o, o ∈ objects → (0 ≤ FileSize (ao_file o))%Z.

Lemma task_writes compression objects order o t (store : T) slots t' store' slots' :
  regular objects → o ∈ objects → iteration order → faithful o t →
  task_step compression objects order o t store slots = Some (t', store', slots') →
  faithful o t' ∧ grows objects (osm_view store) (osm_view store').
Proof.
  intros Hreg Ho Horder Ht. pose proof (grows_refl objects (osm_view store)) as Hrefl.
  destruct t as [| |g|g ct|g ct|g ct [|[e d] todo]|err]; simpl; try done.
  - intros [= <- <- _]. by destruct (fileIntegrity _).
  - destruct (osm_AddObject store _ _ _) as [err s'] eqn:Hadd. intros [= <- <- _].
    split; [by destruct err, (wanted_variants compression objects o)|].
    apply (grows_at _ _ _ (ao_key o) (entry_object (ao_file o) g) o); [done|by left|intros; by eapply osm_AddObject_frame|].
    by eapply osm_AddObject_whole, Hreg.
  - destruct (slots <? NumCPU)%nat; [|done]. by intros [= <- <- _].
  - intros [= <- <- _]. split; [|done]. destruct (compressVariants (ao_file o)) as [err|variants] eqn:Hvs; [done|].
    exists variants. split; [done|]. intros e d. rewrite (Horder variants). apply elem_of_map_to_list.
  - by intros [= <- <- _].
  - destruct Ht as (variants & Hvs & Htodo). assert (Hrest : faithful o (Uploading g ct todo)).
    { exists variants. split; [done|]. intros e' d' Hin. apply Htodo. by right. }
    case_bool_decide; [by intros [= <- <- _]|].
    destruct (osm_AddBytes store _ _ _ _) as [err s'] eqn:Hadd. intros [= <- <- _]. split; [by destruct err|].
    eapply (grows_at _ _ _ (ao_key o +:+ suffix e)); [exact Ho| |intros; by eapply osm_AddBytes_frame|by eapply osm_AddBytes_whole].
    right. exists variants, e. split; [done|]. split; [|done]. apply Htodo. by left.
Qed.

(** The tasks of a pool. *)
Definition faithful_pool (objects : list archiveObject) (pool : upload T) : Prop :=
  ∀ i o t, objects !! i = Some o → up_tasks pool !! i = Some t → faithful o t.

Lemma start_faithful objects (store : T) : faithful_pool objects (Upload.start objects store).
Proof. intros i o t _ Ht. cbn in Ht. by apply list_lookup_fmap_Some in Ht as (? & -> & _). Qed.

Lemma step_writes compression objects (u u' : upload T) :
  regular objects → faithful_pool objects u → step compression objects u u' →
  faithful_pool objects u' ∧ grows objects (osm_view (up_store u)) (osm_view (up_store u')).
Proof.
  intros Hreg Hu Hstep. destruct Hstep as [u i _|u i o t order [[t' store'] slots'] Ho Ht Horder Hnext].
  - split; [|apply grows_refl]. intros j o t Hj. cbn.
    intros [(_ & <- & _)|[_ Ht]]%list_lookup_insert_Some; [done|by eapply Hu].
  - apply task_writes in Hnext as [Ht' Hgrow]; [|done|by eapply list_elem_of_lookup_2|done|by eapply Hu].
    split; [|done]. intros j o' t2 Hj. cbn.
    intros [(<- & <- & _)|[_ Ht2]]%list_lookup_insert_Some; [|by eapply Hu]. by assert (o' = o) as -> by congruence.
Qed.

(** ** The bucket of a system *)

Section accounted.
(** The archives that were accepted, by name and version. *)
Variable origin : string → string → list archiveObject → Prop.

(** Every object of the bucket, and every call the uploads have left, is accounted for. *)
Record accounted y : Prop := {
  accounted_uploads : ∀ i p, sy_Uploads y !! i = Some p → in_flight p = true →
    origin (pb_Name p) (pb_Version p) (pb_Objects p) ∧ regular (pb_Objects p);
  accounted_pools : ∀ i p pool, sy_Uploads y !! i = Some p → pb_Phase p = Storing pool → faithful_pool (pb_Objects p) pool;
  accounted_objects : ∀ k so, view y !! k = Some so →
    ∃ name version objects o, origin name version objects ∧ o ∈ objects ∧ carried o k (so_data so);
}.

Lemma accounted_shrink y y' :
  accounted y → sy_Uploads y' = sy_Uploads y → view y' ⊆ view y → accounted y'.
Proof.
  intros [Hup Hpool Hobj] E Hsub. split; rewrite ?E; [done..|]. intros k so Hso. eapply Hobj, lookup_weaken; [exact Hso|done].
Qed.

Lemma accounted_update y (svc : ContentService T K) i p ph :
  accounted y → sy_Uploads y !! i = Some p → in_flight p = true →
  (∀ pool, ph = Storing pool → faithful_pool (pb_Objects p) pool) →
  grows (pb_Objects p) (view y) (svc_view svc) → accounted (update y svc i (set_phase p ph)).
Proof.
  intros [Hup Hpool Hobj] Hi Hf Hph Hgrow. destruct (Hup i p Hi Hf) as [Horigin Hreg]. split; cbn.
  - intros j q [(-> & <- & _)|[_ Hj]]%list_lookup_insert_Some Hq; [done|by eapply Hup].
  - intros j q pool [(-> & <- & _)|[_ Hj]]%list_lookup_insert_Some Hq; [by apply Hph|by eapply Hpool].
  - intros k so [Hso|(o & Ho & Hc)]%Hgrow; [by eapply Hobj|]. by exists (pb_Name p), (pb_Version p), (pb_Objects p), o.
Qed.

Lemma subseteq_grows objects (m m' : gmap string StoredObject) : m' ⊆ m → grows objects m m'.
Proof. intros Hsub k so Hso. left. by eapply lookup_weaken. Qed.

Lemma moves_accounted e y y' :
  accounted y →
  (∀ name version file fileSize objects, e = Publish name version file fileSize →
     prepare (sy_Content y) name version file fileSize = Ok objects → origin name version objects ∧ regular objects) →
  moves e y y' → accounted y'.
Proof.
  intros Hacc Hnew Hmove. pose proof Hacc as [Hup Hpool Hobj].
  destruct Hmove as [y name version file fileSize|y i p pool pool' Hi Hph Hstep|y i p pool ph svc Hi Hph Hfin Hw
    |y i p uploadErr err svc Hi Hph Hrb|y pkg version err svc Hdel|y pkg version fileName accepted res svc Hget].
  - unfold arrive. destruct (prepare _ _ _ _ _) as [objects|err] eqn:Hp; (split; cbn; [| |done]).
    + intros i p [[_ Hi]|[_ <-]]%lookup_snoc_Some Hf; [by eapply Hup|]. by eapply Hnew.
    + intros i p pool [[_ Hi]|[_ <-]]%lookup_snoc_Some; [by eapply Hpool|]. intros [= <-]. apply start_faithful.
    + intros i p [[_ Hi]|[_ <-]]%lookup_snoc_Some Hf; [by eapply Hup|done].
    + intros i p pool [[_ Hi]|[_ <-]]%lookup_snoc_Some; [by eapply Hpool|done].
  - pose proof (storing_flight _ _ Hph) as Hf. destruct (Hup i p Hi Hf) as [_ Hreg].
    apply step_writes in Hstep as [Hpool' Hgrow]; [|done|exact (Hpool i p pool Hi Hph)].
    apply accounted_update; [done..| |done]. by intros ? [= <-].
  - apply accounted_update; [done..|by eapply storing_flight| |]; unfold after_wait in Hw;
      destruct (up_err pool); injection Hw as <- <-; try done; apply grows_refl.
  - apply accounted_update; [done..|by eapply rolling_flight|done|].
    by apply subseteq_grows, (rollback_frame _ _ _ _ _ Hrb).
  - eapply accounted_shrink; [done..|]. by apply (DeletePackage_frame _ _ _ _ _ Hdel).
  - eapply accounted_shrink; [done..|]. unfold view, bucket. cbn. by rewrite (GetFile_store _ _ _ _ _ _ _ Hget).
Qed.
End accounted.

Lemma accounted_impl (origin origin' : string → string → list archiveObject → Prop) y :
  (∀ name version objects, origin name version objects → origin' name version objects) →
  accounted origin y → accounted origin' y.
Proof.
  intros Himpl [Hup Hpool Hobj]. split; [|done|].
  - intros i p Hi Hf. destruct (Hup i p Hi Hf). auto.
  - intros k so Hso. destruct (Hobj k so Hso) as (name & version & objects & o & ? & ?). exists name, version, objects, o. auto.
Qed.
End written.

(** ** What the server answers *)

Section server.
Context {T K A P : Type} `{ManagerLaws T} `{Compressors} `{Digest} `{Processors}.
Context `{SemverLaws} `{Normalizer} `{IgnoreMatcher} `{ZipFormat} `{CacheLaws K} `{TokenStoreLaws A} `{Sha256}.
Context `{HttpTime} `{ObjectInfos T} `{Negotiator} `{AuthProvider P} `{AuthHandlers P} `{!Gin} `{!GinLaws} `{!Frontend}.
Implicit Types (s : Site T K A P) (c : circumstances) (hr : HttpRequest) (svc : ContentService T K).

Definition is_object_body (b : Body) : bool := match b with ObjectBody _ => true | _ => false end.

(** The answer is not the content of an object. *)
Definition no_object (a : answer) : Prop :=
  match a with PackageAnswer r => is_object_body (rsp_Body r) = false | _ => True end.

Lemma versions_no_object svc req name : is_object_body (rsp_Body (getPackageVersions svc req name)) = false.
Proof.
  unfold getPackageVersions. destruct (_ =? _)%nat; [done|]. destruct (req_Method req); [|done]. by destruct (wants_JSON _).
Qed.

Lemma page_no_object svc req package name version response :
  getHTMLPackage svc req package name version = Some response → is_object_body (rsp_Body response) = false.
Proof.
  unfold getHTMLPackage. intros (listing & _ & [= <-])%bind_Some. unfold listing_response.
  destruct (_ =? _)%nat; [done|]. destruct (req_Method req); [|done]. by destruct (wants_JSON _).
Qed.

Lemma folder_no_object svc req package response :
  getPackageFolder svc req package = Some response → is_object_body (rsp_Body response) = false.
Proof.
  unfold getPackageFolder. destruct (negb _); [intros [= <-]; apply versions_no_object|].
  destruct (getSlice package); [apply page_no_object|by intros [= <-]].
Qed.

Lemma form_no_object maxSize form response :
  check_form maxSize form = inl response → is_object_body (rsp_Body response) = false.
Proof. unfold check_form. intros Hf. repeat case_match; by simplify_eq. Qed.

(** What a request does: nothing to the packages, the removal of one, or a read. *)
Inductive effect s hr : answer → Site T K A P → Prop :=
  | effect_none a s' : si_System s' = si_System s → no_object a → effect s hr a s'
  | effect_remove a s' pkg version err :
      sy_Uploads (si_System s') = sy_Uploads (si_System s) → DeletePackage (content s) pkg version = (err, content s') →
      no_object a → effect s hr a s'
  | effect_read package file response s' :
      hq_Path hr = "/gimme/" +:+ package +:+ String "/" file → sy_Uploads (si_System s') = sy_Uploads (si_System s) →
      getPackage (content s) (package_request hr) package (String "/" file) = (Some response, content s') →
      effect s hr (PackageAnswer response) s'.

Lemma effect_system s hr a s1 s2 : si_System s2 = si_System s1 → effect s hr a s1 → effect s hr a s2.
Proof.
  intros E Heff. destruct Heff; [apply effect_none|eapply effect_remove|eapply effect_read]; unfold content in *; by rewrite ?E.
Qed.

Lemma handle_last_effect s c hr ps h a s' :
  (h = On_getPackage → ∃ file, param ps "file" = String "/" file ∧
     hq_Path hr = "/gimme/" +:+ param ps "package" +:+ String "/" file) →
  handle_last s c hr ps h = Answered a s' → effect s hr a s'.
Proof.
  intros Hfile Hh. destruct h; cbn in Hh; try (injection Hh as <- <-; by apply effect_none).
  - destruct (getAdmin _) as [[st b] am]. injection Hh as <- <-. by apply effect_none.
  - destruct (createToken _ _ _) as [[st b] am]. injection Hh as <- <-. by apply effect_none.
  - destruct (deleteToken _ _ _) as [[st b] am]. injection Hh as <- <-. by apply effect_none.
  - destruct (getPackageFolder _ _ _) eqn:Hget; [|done]. injection Hh as <- <-.
    apply effect_none; [done|]. by eapply folder_no_object.
  - destruct (getPackage _ _ _ _) as [[response|] svc] eqn:Hget; [|done]. injection Hh as <- <-.
    destruct (Hfile eq_refl) as (file & Hparam & Hpath). rewrite Hparam in Hget. by eapply effect_read.
  - destruct (check_form _ _) as [response|[file size]] eqn:Hform; [|done]. injection Hh as <- <-.
    apply effect_none; [done|]. by eapply form_no_object.
  - destruct (deletePackage _ _) as [response svc] eqn:Hd. injection Hh as <- <-. unfold deletePackage in Hd.
    destruct (getSlice _) as [slice|e]; [|injection Hd as <- <-; apply effect_none; [apply with_content_same|done]].
    destruct (DeletePackage _ _ _) as [err svc1] eqn:Hdel.
    assert (svc1 = svc) as -> by (by destruct err; injection Hd as _ <-).
    eapply effect_remove; [done|exact Hdel|]. by destruct err; injection Hd as <-.
Qed.

Lemma run_chain_effect s c hr ps chain a s' :
  (On_getPackage ∈ chain → ∃ file, param ps "file" = String "/" file ∧
     hq_Path hr = "/gimme/" +:+ param ps "package" +:+ String "/" file) →
  run_chain s c hr ps chain = Answered a s' → effect s hr a s'.
Proof.
  revert s. induction chain as [|h chain IH]; intros s Hfile Hrun; [injection Hrun as <- <-; by apply effect_none|].
  assert (Hfile' : On_getPackage ∈ chain → ∃ file, param ps "file" = String "/" file ∧
     hq_Path hr = "/gimme/" +:+ param ps "package" +:+ String "/" file) by (intros Hin; apply Hfile; by right).
  destruct (decide (h = LoginMW)) as [->|Hlogin]; [|destruct (decide (h = Authenticate)) as [->|Hauth]].
  - cbn in Hrun. destruct (LoginMiddleware _ _ _); [by apply IH|]. injection Hrun as <- <-. by apply effect_none.
  - cbn in Hrun. destruct (AuthenticateMiddleware _ _ _) as [[|status] am].
    + apply IH in Hrun; [|done]. by destruct Hrun; [apply effect_none|eapply effect_remove|eapply effect_read].
    + injection Hrun as <- <-. by apply effect_none.
  - assert (E : run_chain s c hr ps (h :: chain) = handle_last s c hr ps h) by by destruct h.
    rewrite E in Hrun. eapply handle_last_effect; [|exact Hrun]. intros ->. apply Hfile. by left.
Qed.

(** The routes of getPackage. *)
Lemma read_route provider_routes enableMetrics e :
  e ∈ route_table provider_routes enableMetrics → On_getPackage ∈ et_Chain e →
  et_Pattern e = "/gimme/:package/*file".
Proof.
  intros Hin Hget.
  cut (Forall (λ e, On_getPackage ∈ et_Chain e → et_Pattern e = "/gimme/:package/*file")
    (route_table provider_routes enableMetrics)).
  { rewrite Forall_forall. intros Hall. by apply Hall. }
  assert (Hdec : ∀ l : list entry, forallb (λ e, bool_decide (On_getPackage ∉ et_Chain e) ||
    String.eqb (et_Pattern e) "/gimme/:package/*file") l = true →
    Forall (λ e, On_getPackage ∈ et_Chain e → et_Pattern e = "/gimme/:package/*file") l).
  { intros l Hl. apply Forall_forall. intros e' He' Hg. rewrite forallb_forall in Hl.
    apply list_elem_of_In, Hl in He'. apply orb_true_iff in He' as [Hn%bool_decide_eq_true|?%String.eqb_eq]; done. }
  unfold route_table. repeat apply Forall_app_2; try (by apply Hdec).
  - apply Forall_map, Forall_true. intros r. cbn. by intros ?%list_elem_of_singleton.
  - by destruct enableMetrics; apply Hdec.
Qed.

Lemma match_file_inv path ps :
  match_path "/gimme/:package/*file" path = Some ps →
  ∃ file, param ps "file" = String "/" file ∧ path = "/gimme/" +:+ param ps "package" +:+ String "/" file.
Proof.
  unfold match_path. intros (segments & Hs & Hm)%bind_Some.
  change (pattern_segments "/gimme/:package/*file") with [Static "gimme"; Param "package"; CatchAll "file"] in Hm.
  destruct segments as [|x [|package [|z l]]]; cbn [match_segments] in Hm; try done;
    destruct (String.eqb_spec "gimme" x) as [<-|]; try done. cbn in Hm. injection Hm as <-.
  apply path_segments_join in Hs as ->; [|done]. exists (Join (z :: l) "/"). unfold param.
  rewrite lookup_insert_eq, lookup_insert_ne, lookup_singleton_eq by done. split; [done|]. cbn [default].
  by rewrite !Join_cons_cons.
Qed.

Lemma dispatch_effect s c hr a s' : dispatch s c hr = Answered a s' → effect s hr a s'.
Proof.
  unfold dispatch. cbv zeta. destruct (gin_find _ _ _) as [[fullPath ps]|] eqn:Hfind.
  - destruct (cors_filter _ hr); [intros [= <- <-]; by apply effect_none|]. apply gin_find_sound in Hfind as [_ Hmatch].
    destruct (run_chain _ _ _ _ _) as [a1 s1| |] eqn:Hrun; cbn [counted_outcome]; [|done..]. intros [= <- <-].
    eapply effect_system; [apply count_request_system|]. eapply run_chain_effect; [|exact Hrun].
    intros (e & He & _ & Hp & Hg)%chain_of_elem. apply match_file_inv. by rewrite <- (read_route _ _ _ He Hg), Hp.
  - destruct (gin_redirect _ _); [intros [= <- <-]; by apply effect_none|].
    destruct (cors_filter _ hr); intros [= <- <-]; apply effect_none; done.
Qed.

(** ** Reads *)

Lemma getPackage_cache svc svc' req package file response :
  cache_sound svc → (∀ slice, getSlice package = Ok slice → cacheable (K := K) (ps_Name slice) file) →
  getPackage svc req package file = (response, svc') → cache_sound svc'.
Proof.
  intros Hs Hc. unfold getPackage. destruct (_ && _); [by intros [= _ <-]|].
  destruct (getSlice package) as [slice|e]; [|by intros [= _ <-]]. destruct (String.eqb file "/"); [by intros [= _ <-]|].
  destruct (GetFile _ _ _ _ _) as [[[obj enc]|e] svc1] eqn:Hget; intros [= _ <-];
    eapply GetFile_cache_sound; [exact Hs|by apply Hc|exact Hget|exact Hs|by apply Hc|exact Hget].
Qed.

(** A body with the content of an object is the answer of getPackage for that object. *)
Lemma getPackage_object svc svc' req package file response body :
  getPackage svc req package file = (Some response, svc') → rsp_Body response = ObjectBody body →
  ∃ slice accepted obj enc so, getSlice package = Ok slice ∧
    GetFile svc (ps_Name slice) (ps_Version slice) file accepted = (Ok (obj, enc), svc') ∧
    osm_Stat (objectStorageManager svc') obj = Some so ∧ body = so_data so ∧
    rsp_Headers response !! "Content-Encoding" = if String.eqb enc "" then None else Some enc.
Proof.
  unfold getPackage. destruct (_ && _).
  { intros [= <- _] Hb. pose proof (versions_no_object svc req package) as Hno. by rewrite Hb in Hno. }
  destruct (getSlice package) as [slice|e]; [|by intros [= <- _]]. destruct (String.eqb file "/").
  { intros [= Hpage _] Hb. apply page_no_object in Hpage. by rewrite Hb in Hpage. }
  destruct (GetFile _ _ _ _ _) as [[[obj enc]|e] svc1] eqn:Hget; intros [= <- <-] Hb; [|done].
  exists slice, (encodings_ (parseAcceptEncoding (GetHeader req "Accept-Encoding"))), obj, enc.
  unfold object_response in *. destruct (osm_Stat _ obj) as [so|]; [|done].
  destruct (String.eqb enc "" && _); [done|]. destruct (notModified _ _ _); [done|]. cbn in Hb |- *.
  exists so. split; [done|]. split; [done|]. split; [done|].
  split; [revert Hb; destruct (req_Method req); by intros [= <-]|]. unfold set_header.
  rewrite !lookup_insert_ne by done. destruct (String.eqb enc ""); [|by rewrite lookup_insert_eq].
  apply object_headers_fixed.
Qed.

(** The object of an answer is the file of the request, in a version it selects. *)
Lemma GetFile_reads svc svc' pkg version fileName accepted obj enc :
  cacheable (K := K) pkg fileName → cache_sound svc →
  GetFile svc pkg version fileName accepted = (Ok (obj, enc), svc') →
  reads_right (Fetches pkg version fileName accepted) (Fetched (Ok (obj, enc))).
Proof.
  intros Hc Hs Hget. pose proof (wp_exec tidy _ _ _ (wp_GetFile pkg version fileName accepted svc Hc Hs)) as Hwp.
  change (GetFile_task pkg version fileName accepted) with (file_task (Fetches pkg version fileName accepted)) in Hwp.
  rewrite exec_file_task in Hwp. cbn [file_operation] in Hwp. by rewrite Hget in Hwp.
Qed.

(** ** Runs *)

(** The paths of the file can be cached. *)
Definition storable_paths hr : Prop :=
  ∀ package file slice version, hq_Path hr = "/gimme/" +:+ package +:+ String "/" file → getSlice package = Ok slice →
    cm_storable (K := K) {| ObjectPath := folder_name (ps_Name slice) version +:+ "/" +:+ TrimLeft (String "/" file) "/" |}.

Lemma storable_cacheable hr package file slice :
  storable_paths hr → hq_Path hr = "/gimme/" +:+ package +:+ String "/" file → getSlice package = Ok slice →
  cacheable (K := K) (ps_Name slice) (String "/" file).
Proof.
  intros Hst Hp Hs. split; [by apply (getSlice_Ok _ _ Hs)|]. split; [by eexists|]. intros version. by eapply Hst.
Qed.

(** The draws of a request are fresh and its clock is right, its paths can be cached, and
    the sizes its archive declares fit an int64. *)
Definition plausible (l : label) s : Prop :=
  sane l s ∧
  match l with
  | Responds _ hr _ => storable_paths hr
  | Receives _ _ _ _ file size => sizes_regular file size
  | _ => True
  end.

(** In the run, a request that showed a token of the store uploaded an archive with these
    entries under the name and the version, and it was accepted. *)
Definition uploaded s0 (ls : list label) (name version : string) (objects : list archiveObject) : Prop :=
  ∃ ls1 ls2 s1 c hr file size, ls = ls1 ++ Receives c hr name version file size :: ls2 ∧
    served plausible s0 ls1 s1 ∧ shows_token s1 c hr ∧ prepare (content s1) name version file size = Ok objects.

Lemma uploaded_later s0 ls l name version objects :
  uploaded s0 ls name version objects → uploaded s0 (ls ++ [l]) name version objects.
Proof.
  intros (ls1 & ls2 & s1 & c & hr & file & size & -> & Hrest). exists ls1, (ls2 ++ [l]), s1, c, hr, file, size.
  by rewrite <- app_assoc.
Qed.

Lemma own_cache i e (y y' : system T K) :
  own i e = true → moves e y y' → cacheManager (sy_Content y') = cacheManager (sy_Content y).
Proof.
  intros Hown Hmove. destruct Hmove as [|y j p pool pool' Hj Hph Hstep|y j p pool ph svc Hj Hph Hfin Hw
    |y j p uploadErr err svc Hj Hph Hrb| |]; try done; cbn.
  - unfold after_wait in Hw. destruct (up_err pool); by injection Hw as _ <-.
  - unfold rollbackPartialUpload in Hrb. destruct (osm_RemoveObjects _ _). by injection Hrb as _ <-.
Qed.

Lemma sound_same svc svc' : cacheManager svc' = cacheManager svc → cache_sound svc → cache_sound svc'.
Proof. intros E. unfold cache_sound. by rewrite E. Qed.

Lemma effect_accounted (origin : string → string → list archiveObject → Prop) s hr a s' :
  storable_paths hr → cache_sound (content s) → accounted origin (si_System s) → effect s hr a s' →
  cache_sound (content s') ∧ accounted origin (si_System s').
Proof.
  intros Hst Hs Hacc Heff. destruct Heff as [a s' E _|a s' pkg version err Hup Hdel _|package file response s' Hpath Hup Hget].
  - unfold content. by rewrite E.
  - split; [by eapply serving_sound, serve_delete|]. eapply accounted_shrink; [done..|].
    by apply (DeletePackage_frame _ _ _ _ _ Hdel).
  - split; [eapply getPackage_cache; [exact Hs| |exact Hget]; intros slice; by eapply storable_cacheable|].
    eapply accounted_shrink; [done..|]. unfold view, bucket. change (sy_Content (si_System s')) with (content s').
    by rewrite (getPackage_store _ _ _ _ _ _ Hget).
Qed.

Lemma served_accounted s0 ls s :
  ts_inv (store (si_Auth s0)) → cache_sound (content s0) → view (si_System s0) = ∅ → sy_Uploads (si_System s0) = [] →
  served plausible s0 ls s →
  ts_inv (store (si_Auth s)) ∧ cache_sound (content s) ∧ accounted (uploaded s0 ls) (si_System s).
Proof.
  intros Hinv Hs Hview Hup Hrun. induction Hrun as [s|s0 s1 s2 ls l Hrun IH Hok Hstep].
  { split; [done|]. split; [done|]. split; rewrite ?Hup, ?Hview; done. }
  destruct (IH Hinv Hs Hview Hup) as (Hinv1 & Hs1 & Hacc). clear IH. pose proof Hok as [Hsane Hl].
  split; [by apply (serves_bounded _ _ _ Hinv1 Hsane Hstep)|].
  assert (Hlater : accounted (uploaded s0 (ls ++ [l])) (si_System s1)).
  { eapply accounted_impl; [|exact Hacc]. intros name version objects. apply uploaded_later. }
  clear Hacc. destruct Hstep as [s1 c hr a s2 Hd|s1 c hr name version file size s2 y Hd Hmove|s1 e i y Hown Hmove|s1 i p err _ _ _|s1 now].
  - eapply effect_accounted; [done..|by eapply dispatch_effect].
  - pose proof (dispatch_allowed s1 c hr Hinv1 Hsane) as Hall. rewrite Hd in Hall. destruct Hall as (Hshow & _ & E).
    rewrite E in Hmove. split; [inversion Hmove; subst; exact Hs1|].
    eapply moves_accounted; [exact Hlater| |exact Hmove]. intros name' version' file' size' objects [= <- <- <- <-] Hprep.
    split; [exists ls, [], s1, c, hr, file, size; by rewrite <- ?app_assoc|].
    intros o Ho. by apply (prepare_objects _ _ _ _ _ _ Hl Hprep).
  - split; [eapply sound_same; [by eapply own_cache|done]|]. eapply moves_accounted; [exact Hlater| |exact Hmove].
    intros name version file size objects ->. done.
  - unfold content in *. by rewrite count_waiting.
  - done.
Qed.

(** ** The origin of an answer *)

Lemma TrimLeft_relative (t : string) : HasPrefix t "/" = false → TrimLeft t "/" = t.
Proof.
  destruct t as [|a t]; [done|]. intros Hp. cbn. destruct (Ascii.eqb_spec a "/") as [->|]; [|done].
  apply HasPrefix_false with (t := t) in Hp. done.
Qed.

Lemma carried_key o k data : carried o k data → ∃ t, k = ao_key o +:+ t.
Proof. intros [[-> _]|(variants & e & _ & _ & ->)]; [exists ""; by rewrite str_app_nil_r|by eexists]. Qed.

(** The entry whose bytes are under the key of a read is one of the version that is read. *)
Lemma read_origin svc name version file size objects o pkg requested fileName path enc data :
  prepare svc name version file size = Ok objects → o ∈ objects → carried o (path +:+ suffix enc) data →
  char_free "@" pkg = true → version_valid requested = true → path_for pkg requested (String "/" fileName) path →
  name = pkg ∧ (version = requested ∨ versionMatches version requested = true) ∧
  path = folder_name pkg version +:+ "/" +:+ TrimLeft (String "/" fileName) "/".
Proof.
  intros Hprep Ho [t Hk]%carried_key Hpkg Hvalid Hpath.
  destruct (prepare_keys _ _ _ _ _ _ _ Hprep Ho) as (p & Hp & Hkey).
  apply prepare_Ok in Hprep as ([Hname Hfull]%validated_iff & _).
  assert (Hv : ∃ v rest, path = folder_name pkg v +:+ "/" +:+ rest ∧ char_free "/" v = true ∧
    (v = requested ∨ versionMatches v requested = true) ∧ (rest = fileName ∨ rest = TrimLeft (String "/" fileName) "/")).
  { unfold path_for in Hpath. destruct (IsPinnedVersion requested).
    - exists requested, fileName. split; [by rewrite Hpath|]. split; [by apply valid_version_free|]. auto.
    - destruct Hpath as (v & -> & Hv). exists v, (TrimLeft (String "/" fileName) "/"). split; [done|].
      split; [|auto]. destruct Hv as [->|Hm]; [by apply valid_version_free|by eapply matching_version_free]. }
  destruct Hv as (v & rest & -> & Hfree & Hsel & Hrest). rewrite Hkey, !str_app_assoc in Hk.
  assert (Hbelow : HasPrefix (folder_name pkg v +:+ "/" +:+ rest +:+ suffix enc) (folder_name name version +:+ "/") = true).
  { rewrite Hk, <- str_app_assoc. apply HasPrefix_app. }
  destruct (below_folder name version pkg v _ Hname Hfull Hpkg Hfree Hbelow) as [-> ->]. split; [done|]. split; [done|].
  destruct Hrest as [->| ->]; [|done]. do 2 f_equal. cbn. rewrite TrimLeft_relative; [done|].
  apply HasPrefix_false. intros t' ->. apply (inj (String.append _)) in Hk. injection Hk as Hk.
  pose proof (safe_path_relative p Hp) as Hrel. pose proof (safe_path_nonempty p Hp) as Hne.
  destruct p as [|a p]; [done|]. injection Hk as <- _. by apply HasPrefix_false with (t := p) in Hrel.
Qed.

(** C3: the files that are answered were uploaded.  Start from an empty bucket and an empty
    cache, and let the server handle any requests at once, uploads of one version that
    race and failures of the storage included.  When a request is then answered with the
    content of an object, its path is /gimme/package@version/file, and the content is that of an entry
    of an archive, as it was or compressed as the Content-Encoding of the answer says, with that file
    as its path; and the archive was accepted under this package and this version, or a
    version that the alias in the path selects, from a request that showed a token that was
    stored, not revoked and not expired.  (The random bytes and UUIDs drawn for tokens are
    new ones and the clock is right, the declared sizes of entries are below 2^63, and the
    paths that are read can be stored in the cache.) *)
Theorem answered_files_were_uploaded s0 ls s c hr response s' body :
  ts_inv (store (si_Auth s0)) → view (si_System s0) = ∅ → sy_Uploads (si_System s0) = [] →
  (∀ cm, cacheManager (content s0) = Some cm → cm_view cm = ∅) →
  served plausible s0 ls s → storable_paths hr →
  dispatch s c hr = Answered (PackageAnswer response) s' → rsp_Body response = ObjectBody body →
  ∃ pkg requested file version enc objects o,
    hq_Path hr = "/gimme/" +:+ folder_name pkg requested +:+ String "/" file ∧
    (version = requested ∨ versionMatches version requested = true) ∧
    uploaded s0 ls pkg version objects ∧ o ∈ objects ∧
    carried o (folder_name pkg version +:+ "/" +:+ TrimLeft (String "/" file) "/" +:+ suffix enc) body ∧
    rsp_Headers response !! "Content-Encoding" = if String.eqb enc "" then None else Some enc.
Proof.
  intros Hinv Hview Hup Hempty Hrun Hst Hd Hbody.
  assert (Hs0 : cache_sound (content s0)).
  { intros cm key entry Hcm Hk. by rewrite (Hempty cm Hcm), lookup_empty in Hk. }
  destruct (served_accounted _ _ _ Hinv Hs0 Hview Hup Hrun) as (_ & Hs & Hacc).
  apply dispatch_effect in Hd. inversion Hd as [? ? _ Hno|? ? ? ? ? _ _ Hno|package file ? ? Hpath _ Hget]; subst;
    [by cbn in Hno; rewrite Hbody in Hno..|].
  destruct (getPackage_object _ _ _ _ _ _ _ Hget Hbody) as (slice & accepted & obj & enc & so & Hslice & HF & Hstat & -> & Hce).
  pose proof (storable_cacheable _ _ _ _ Hst Hpath Hslice) as Hc.
  destruct (GetFile_reads _ _ _ _ _ _ _ _ Hc Hs HF) as (Hvalid & path & Hfor & Hkey & _).
  apply osm_Stat_ok in Hstat. rewrite (getPackage_store _ _ _ _ _ _ Hget), Hkey in Hstat.
  destruct (accounted_objects _ _ Hacc _ _ Hstat) as (name & version & objects & o & Hupl & Ho & Hcar).
  pose proof Hupl as (ls1 & ls2 & s1 & c1 & hr1 & f & size & _ & _ & _ & Hprep).
  destruct (getSlice_Ok _ _ Hslice) as (-> & Hfree & _).
  destruct (read_origin _ _ _ _ _ _ _ _ _ _ _ _ _ Hprep Ho Hcar Hfree Hvalid Hfor) as (-> & Hsel & ->).
  exists (ps_Name slice), (ps_Version slice), file, version, enc, objects, o. by rewrite !str_app_assoc in Hcar.
Qed.
End server.
