(* ===== verification/ProvenanceDemo.v ===== *)
(** The theorem of Provenance.v on a stylesheet that is uploaded, read through an alias,
    and read again from the cache. *)
From S2P Require Import Prelude GoStrings Errors Semver Zip Storage MemoryClient Version Compression Archive.
From S2P Require Import Cache MemoryRedis Service Upload UploadSpec Serve ServeSpec Negotiation TokenStore FileStore.
From S2P Require Import AuthManager AuthFile AuthProvider Oidc Application PackageController Concurrent ConcurrentSpec.
From S2P Require Import GoUrl Router Server ServerSpec ServerDemo Provenance.
From Stdlib Require Import Ascii.

#[local] Existing Instance first_route.
#[local] Existing Instance first_route_laws.
#[local] Existing Instance open_frontend.
#[local] Existing Instance basic_handlers.
#[local] Existing Instance demo_accounts.
#[local] Existing Instance ServerDemo.unary_time.
#[local] Existing Instance no_tags.
#[local] Existing Instance ServerDemo.asks_json.
#[local] Existing Instance plain_digest.
#[local] Existing Instance bit_codec.
#[local] Existing Instance prefix_cipher.
#[local] Existing Instance quiet_store.
#[local] Existing Instance quiet_laws.
#[local] Existing Instance builtin_mime.
#[local] Existing Instance plain_codec.
#[local] Existing Instance plain_codec_laws.
#[local] Existing Instance toy_compressors.
#[local] Existing Instance toy_digest.
#[local] Existing Instance plain_names.
#[local] Existing Instance whole_paths.
#[local] Existing Instance two_processors.
#[local] Existing Instance two_zips.

(** The site with an empty bucket and an empty cache. *)
Definition empty_site : demo_site :=
  with_content open_site (set_cache (set_store (content open_site) (bucket_with [])) (Some (cache_with []))).

Definition get_alias : HttpRequest := request "GET" "/gimme/lib@2/a.css" ∅ no_form.

(** The upload with its calls and its answer, and a first read. *)
Definition upload_and_read : list input :=
  [Asks demo_moment upload_lib; Calls 0 (Work 0); Calls 0 (Work 0); Calls 0 (Work 0); Calls 0 (Wait 0); Answers 0;
   Asks demo_moment get_alias].

Definition read_once : demo_site := after upload_and_read empty_site.

Lemma demo_plausible hr s : hq_JSON hr = None → every_step plausible (Asks demo_moment hr) (s : demo_site).
Proof.
  intros Hj. split.
  - intros a. split; [by apply demo_sane|]. intros package file slice version _ _. exact I.
  - intros name version file size. split; [by apply demo_sane|]. exact (small_archives file).
Qed.

Lemma read_once_served : ∃ ls, served plausible empty_site ls read_once.
Proof.
  apply after_served; [|apply (bool_decide_unpack _); vm_compute; exact I].
  split; [by apply demo_plausible|]. do 4 (split; [by split|]). split; [intros response; by split|].
  split; [by apply demo_plausible|done].
Qed.

(** The second read is answered from the cache. *)
Lemma read_again :
  (∃ response s', dispatch read_once demo_moment get_alias = Answered (PackageAnswer response) s' ∧
     rsp_Body response = ObjectBody "a{}") ∧
  match cacheManager (content read_once) with
  | Some cm => cache_view cm !! "lib@2/a.css" = Some {| ObjectPath := "lib@2.0.0/a.css" |}
  | None => False
  end.
Proof.
  split; [|vm_compute; reflexivity].
  assert (E : (λ r, r.1.2) <$> package_answer (dispatch read_once demo_moment get_alias) = Some (ObjectBody "a{}"))
    by (vm_compute; reflexivity).
  destruct (dispatch read_once demo_moment get_alias) as [a s'| |]; [|discriminate E..].
  destruct a as [response| | | | | |]; try discriminate E. injection E as E. by exists response, s'.
Qed.

Lemma answered_files_were_uploaded_witness :
  ∃ ls pkg requested file version enc objects o,
    hq_Path get_alias = "/gimme/" +:+ folder_name pkg requested +:+ String "/" file ∧
    (version = requested ∨ versionMatches version requested = true) ∧
    uploaded empty_site ls pkg version objects ∧ o ∈ objects ∧
    carried o (folder_name pkg version +:+ "/" +:+ TrimLeft (String "/" file) "/" +:+ suffix enc) "a{}".
Proof.
  destruct read_once_served as [ls Hrun]. destruct read_again as [(response & s' & Hd & Hb) _].
  destruct (answered_files_were_uploaded empty_site ls read_once demo_moment get_alias response s' "a{}")
    as (pkg & requested & file & version & enc & objects & o & Hpath & Hsel & Hup & Ho & Hcar & _).
  - exact created_inv.
  - reflexivity.
  - reflexivity.
  - intros cm [= <-]. vm_compute. reflexivity.
  - exact Hrun.
  - intros package file slice version _ _. exact I.
  - exact Hd.
  - exact Hb.
  - exists ls, pkg, requested, file, version, enc, objects, o. auto.
Defined.
